(* ===== verification/_CoqProject ===== *)
-Q . S2P
Prelude.v
Wire.v
EventKind.v
EventHmac.v
Text.v
RunSchema.v
Schema.v
EventLog.v
Chain.v
Commit.v
ServiceBase.v
Procs.v
Maintenance.v
LogSafety.v
Snapshots.v
Freshness.v
Outbox.v
Ownership.v
Relay.v
Session.v
TransitionModel.v
Information.v
Outbound.v
Policy.v
HistoryBudget.v
ContextWindow.v
TurnControls.v
QueuedMessages.v
InformationStore.v
RunBase.v
RunBudgets.v
RunStore.v
RunInvariant.v
RunSafety.v
RunRecovery.v
ChildGraph.v
ChildTasks.v
ChildBudgets.v
Frames.v
RunEffects.v
EndpointPolicy.v
ToolExecution.v
BudgetSafety.v
Dispatch.v
DispatchSafety.v
DurableRun.v
ChatRequests.v
AuthStores.v
AuthRoutes.v
AuthServer.v
AuthSafety.v
ThinkFilter.v
DownloadUrls.v
Evidence.v
EvidenceFacts.v
Completion.v
CompletionRoutes.v
CompletionSafety.v
PairedHosts.v
PairedSafety.v
Retention.v
ToolPolicy.v
ToolGate.v
ToolRoutes.v
ToolSafety.v
ToolGuarantees.v
