(* ===== verification/Prelude.v ===== *)
(** * execlaw: a verification development of the control plane

    execlaw is a server that runs language-model agents for one operator.  The
    Rust workspace under [src/crates] has a core crate with the SQLite stores,
    a runner that executes the turns of a conversation, policy and egress
    crates, and a server crate with the HTTP routes.  This library models the
    parts that decide whether data is authentic, whether an external effect
    happens once, whether work survives a crash, what may leave the machine
    and who may use it.  It follows the source definition by definition; the
    manifest beside it maps each definition to its lines.

    ** How the parts fit together

    A request reaches the server after its session has been checked
    (AuthRoutes); a chat message is reserved under the caller's request id
    (ChatRequests), or queued for the next turn (TurnControls,
    QueuedMessages).  A turn is a durable run of checkpointed steps (RunStore),
    which a runner enters through the step protocol (DurableRun) under leases
    and budgets (RunBudgets, ChildBudgets).  The model sees a bounded part of
    the conversation (HistoryBudget, ContextWindow) under a policy (Policy);
    a tool call is permitted by the gate (ToolGate) under the tool policies
    and the profile of the task (ToolPolicy, ToolRoutes), and made through a
    retry loop and a circuit breaker (Dispatch, ToolExecution); data carries labels (Information, InformationStore) and
    is inspected before it leaves (Outbound, EndpointPolicy).  External
    effects go to the outbox in the transaction that completes their step
    (RunEffects) and are delivered by a relay (Outbox, Relay) unless a human
    takes the channel over (Ownership).  Everything said in a conversation is
    committed to an authenticated log (EventLog).

    ** Files

    Shared: Prelude (results, transactions, machine integers, list lemmas),
    Wire (bytes and little-endian fields), Text ([str] operations on UTF-8),
    Frames (which tables a transaction leaves alone), ServiceBase (sequences
    of statements that are not one transaction), Procs (handlers as sequences
    of atomic statements, the server that interleaves them, with rules for
    invariants, for rely and guarantee and for shared budgets).

    Event log ([core/src/events.rs], [event_hmac.rs]): EventKind, EventHmac,
    Schema (the tables several stores share), EventLog (the operations), and
    its theorems: Chain (a checkpoint tag determines the log), Commit (a
    commit extends the log, tool calls are paired), Maintenance (the
    passes over old rows, statement by statement), LogSafety (the log's own
    operations are never reported as tampering), Snapshots, Freshness (a
    rolled back database is detected).

    Effects: Outbox ([outbox.rs], [job_redrive.rs]), Ownership
    ([agent_ownership.rs]), Relay (crate [outbox]).

    Runs ([runs.rs]): RunSchema, RunBase, RunBudgets, RunStore, then the
    theorems RunInvariant, RunSafety, RunRecovery; ChildGraph, ChildTasks,
    ChildBudgets (tasks handed to child runs); RunEffects (effects and
    inference attempts); TransitionModel ([transition_model.rs], the bounded
    contract and its checker); DurableRun ([runner-local/src/durable.rs]).

    Tools: ToolExecution ([tool_execution.rs]), BudgetSafety (the budgets of a
    run under both of the stores that write them), Dispatch
    ([dispatch_with_retry] of [runner-local/src/turn.rs]) and DispatchSafety
    (several workers on one step).  Who may call which tool: ToolPolicy (the
    stores [tool_access.rs], [safety_profiles.rs], [policy_simulation.rs] and
    the registry of tools), ToolGate ([server/src/tool_dispatch.rs] up to the
    decision, and the checks repeated elsewhere), ToolRoutes
    ([tools_admin.rs]), ToolSafety (invariant and authorization, whatever
    interleaves) and ToolGuarantees (exact statements).

    Turns: Session (crate [session]), HistoryBudget, ContextWindow,
    TurnControls, QueuedMessages, ChatRequests ([chat_requests.rs]),
    ThinkFilter ([server/src/think_filter.rs]).

    Policy and information: Policy and Outbound (crate [policy]),
    Information, InformationStore, EndpointPolicy (crate
    [local-endpoint-policy]).

    Accounts: AuthStores ([users.rs], [refresh_tokens.rs], [webauthn.rs] of
    the core, [auth_rate_limit.rs] of the server), AuthRoutes (the handlers of
    [routes.rs], [users.rs], [webauthn.rs] and [auth_extract.rs]), AuthServer
    (the requests interleaved), AuthSafety (theorems).
    Links: DownloadUrls ([server/src/download_urls.rs], signed links to media).

    Completion of tasks: Evidence ([completion_evidence.rs]), EvidenceFacts
    (what it accepts, said without its functions), Completion (the contracts
    of [runs.rs], and of forked runs), CompletionRoutes ([runs_admin.rs]) and
    CompletionSafety (theorems).
    Other hosts: PairedHosts ([paired_hosts.rs], signed tasks between hosts of
    one operator) and PairedSafety (theorems).
    Retention ([event_retention.rs], [retention.rs], [ephemeral_sweeper.rs]):
    the deletion of old events.
    ** What the theorems show

    Authenticity: equal checkpoint tags mean that two accepted logs agree in
    all that the tags authenticate, up to a collision of the MAC (actor and
    payload as one text; separately when they hold no NUL); every interleaving
    of the log's operations replays without alarm, maintenance passes included
    as long as keyed writers wait for them (LogSafety shows what happens
    otherwise); a commit is all or nothing; a replaced database is detected.
    Exactly once: an effect enqueued through its step stays enqueued once, a
    claim is exclusive, a takeover fences what was queued before it, a queued
    message or a client request id takes effect once.
    Durability: one live step per run, completed checkpoints are final and
    replayed, a worker that does what it is told finishes every run that waits
    for nobody, recovery ends in a state where nothing is left to recover.
    Bounds: run budgets are never exceeded, child budgets are accounted exactly
    (a limit that is the largest number of its type may be overcommitted),
    tool calls and password guesses are limited however many workers try, the
    dependency search refuses exactly the cycles.
    Confinement: combined labels only get stricter (up to patterns with two
    final stars), a transform cannot launder data, policies never loosen, pinned addresses are public, and only a live
    Controller session changes accounts or outlives a sign-out.
    Completion: a task is reported verified complete exactly when its run
    completed and evidence that holds now meets every requirement of its
    contract; each kind of evidence is also stated on the tables.
    Tools: a call is allowed only while the caller's authority, the tool's
    policy and the task's profile permit it, and the decision is on record;
    policies keep their history, a rollback restores, a simulation is exact.
    Retention: events that runs or decisions name stay, and what a sweep
    deletes the log reports as tampering.
    Delegation: a task sent to or received from another host never exceeds what
    a Controller allowed that host.
    Some files also prove that a defect exists (for instance
    [Dispatch.finished_probe_wedges_circuit],
    [AuthSafety.refresh_undoes_sign_out]); the manifest lists them as findings.

    ** Conventions

    Strings are the byte strings of Rust's [String]; [Text] decodes their
    characters.  Integers are [Z]; where the release build wraps, the
    wrap-around is written ([wrap_i64], [as_u32]), as are saturating and
    checked operations.  A sum SQLite takes beyond 64 bits is kept exact and
    refused where the source reads it as [i64] ([read_i64]).  A clock reading
    is a parameter [now] of the operation, a component of the server's state
    in AuthRoutes and of the world in Dispatch; no theorem assumes that clocks
    advance unless it says so.

    A table is a map on its primary key, or a list where the order of rows is
    observed; the columns' CHECK and UNIQUE constraints are guards of the
    insertions and updates.  A column whose CHECK admits exactly the texts of
    an enum holds the enum.  [Database::transaction] is all or nothing
    ([transaction]); [with_conn] is a sequence of statements that are not
    rolled back ([act]).  Operations of different workers interleave between
    transactions: the safety theorems quantify over sequences of transactions,
    over the histories of a table, or over [pool_step].  Foreign error texts
    are elided to a fixed text; the variable parts of messages too.

    Code outside the sources is a parameter: HMAC-SHA256 and SHA-256, the
    MessagePack and JSON codecs, UUIDs and other random values, the iteration
    order of a [HashMap], URL and CIDR parsing, the HTTP client, Argon2, the
    JWT library and the WebAuthn relying party.  Laws are assumed only where a
    theorem needs them, as fields of a type class or named hypotheses, and
    every theorem with hypotheses has a witness with concrete functions.

    ** Fuel

    The recursive searches run on fuel that is shown to suffice: the outbound
    detectors on one more than the length of the text, the breadth-first
    checker of TransitionModel on the number of its states, the dependency
    search on the number of nodes, the retry loop of Dispatch on the attempts
    left plus one, the trimming loop of ContextWindow on the number of messages
    and the filter of ThinkFilter on one more than the length of its buffer; a
    theorem says each time that the result is that of the unbounded search or
    that the loop answers.

    ** Not modelled

    Input and output: HTTP serving, the WebSocket stream, file storage,
    process and container management, the voice pipeline, the inference and
    transport clients, the command line; the migration runner and SQLite
    itself.  Interpreters of foreign languages: the script and plugin hosts,
    the Python sandbox and the plugin SDK.  Stores that keep rows without
    rules of their own (agents, settings, search providers, logs, eval data).
    Of the modelled crates: the main loop of [runner-local/src/turn.rs] around
    [dispatch_with_retry], which is a client of the model and tool interfaces;
    the homoglyph folder of the input guard; of [runs.rs] the
    input manifests, and of a fork the copy of its workspace.  The factory
    reset, which builds the database anew, is no operation of any model here:
    the theorems on accounts, logs and tables are about a database between two
    resets.  The components of the manifest name each part
    and the reason. *)

From Stdlib Require Import ZArith Lia.
From stdpp Require Export base tactics option list gmap sets strings pretty.

#[global] Set Default Goal Selector "!".
#[global] Open Scope Z_scope.

Declare Scope execlaw_scope.
Delimit Scope execlaw_scope with execlaw.

(** ** Results and database errors *)

(** Rust's [Result<A, E>]. *)
Inductive result (E A : Type) : Type :=
| Ok (a : A)
| Err (e : E).
Arguments Ok {E A} a.
Arguments Err {E A} e.

(** [crates/core/src/db.rs], [enum DbError].  The payloads that are values of
    other crates (rusqlite, std::io) are represented by their message. *)
Inductive DbError : Type :=
| Sqlite (msg : string)
| Config (msg : string)
| Migration (msg : string)
| Io (msg : string)
| Invariant (msg : string)
| Serde (msg : string)
| TamperDetected (msg : string)
| Backpressure
| ExecutorUnavailable (msg : string)
| WorkerPanicked.

#[global] Instance DbError_eq_dec : EqDecision DbError.
Proof. solve_decision. Defined.
#[global] Instance result_eq_dec {E A} `{EqDecision E} `{EqDecision A} :
  EqDecision (result E A).
Proof. solve_decision. Defined.

(** Its [Display]. *)
Definition display_error (e : DbError) : string :=
  match e with
  | Sqlite m => "sqlite error: " +:+ m
  | Config m => "database configuration error: " +:+ m
  | Migration m => "migration error: " +:+ m
  | Io m => "io error: " +:+ m
  | Invariant m => "event log invariant violated: " +:+ m
  | Serde m => "serialization error: " +:+ m
  | TamperDetected m => "event log tamper detected: " +:+ m
  | Backpressure => "database execution queue is full; retry shortly"
  | ExecutorUnavailable m => "database execution worker is unavailable: " +:+ m
  | WorkerPanicked => "database execution operation panicked"
  end.

(** The two rusqlite errors the stores rely on: a violated constraint and a
    [query_row] that matched nothing. *)
Definition constraint_failed : DbError := Sqlite "UNIQUE constraint failed".
Definition no_rows : DbError := Sqlite "Query returned no rows".

#[global] Instance result_ret E : MRet (result E) := λ A a, Ok a.
#[global] Instance result_bind E : MBind (result E) := λ A B f m,
  match m with Ok a => f a | Err e => Err e end.
#[global] Instance result_fmap E : FMap (result E) := λ A B f m,
  match m with Ok a => Ok (f a) | Err e => Err e end.

Definition is_ok {E A} (r : result E A) : bool :=
  match r with Ok _ => true | Err _ => false end.

Lemma Ok_inj {E A} (a b : A) : @Ok E A a = Ok b → a = b.
Proof. congruence. Qed.

(** [option.ok_or(e)] *)
Definition ok_or {E A} (e : E) (o : option A) : result E A :=
  match o with Some a => Ok a | None => Err e end.

Definition guard_or {E} (b : bool) (e : E) : result E unit :=
  if b then Ok () else Err e.

(** ** Transactions

    [Database::transaction] runs a closure against the database and commits
    only when the closure returns [Ok]; an [Err] leaves the database as it
    was.  A closure is a function from the database to a result that carries
    the new database only when it succeeds. *)
Definition tx (S A : Type) : Type := S → result DbError (A * S).

Section TxMonad.
Context {S : Type}.

Definition tx_ret {A} (a : A) : tx S A := λ s, Ok (a, s).
Definition tx_bind {A B} (m : tx S A) (f : A → tx S B) : tx S B := λ s,
  match m s with Ok (a, s') => f a s' | Err e => Err e end.
Definition tx_get : tx S S := λ s, Ok (s, s).
Definition tx_put (s' : S) : tx S unit := λ _, Ok ((), s').
Definition tx_modify (f : S → S) : tx S unit := λ s, Ok ((), f s).
Definition tx_err {A} (e : DbError) : tx S A := λ _, Err e.
Definition tx_lift {A} (r : result DbError A) : tx S A := λ s,
  match r with Ok a => Ok (a, s) | Err e => Err e end.
Definition tx_guard (b : bool) (e : DbError) : tx S unit :=
  if b then tx_ret () else tx_err e.

(** [Database::transaction] seen from its caller. *)
Definition transaction {A} (m : tx S A) (s : S) : result DbError A * S :=
  match m s with Ok (a, s') => (Ok a, s') | Err e => (Err e, s) end.
End TxMonad.

Notation "'let*' x ':=' m 'in' k" := (tx_bind m (λ x, k))
  (at level 10, x binder, m at level 100, k at level 200) : execlaw_scope.
Notation "m ';;*' k" := (tx_bind m (λ _, k))
  (at level 199, right associativity) : execlaw_scope.
#[global] Open Scope execlaw_scope.

(** *** Inversion and evaluation of transactions *)
Section TxLemmas.
Context {S : Type}.

Lemma tx_bind_ok {A B} (m : tx S A) (f : A → tx S B) s b s'' :
  tx_bind m f s = Ok (b, s'') ↔ ∃ a s', m s = Ok (a, s') ∧ f a s' = Ok (b, s'').
Proof.
  unfold tx_bind. destruct (m s) as [[a s']|e]; split.
  - intros H. by exists a, s'.
  - intros (a' & s1 & H & ?). by simplify_eq.
  - done.
  - by intros (? & ? & ? & ?).
Qed.

Lemma tx_guard_ok b e (s s' : S) u :
  tx_guard b e s = Ok (u, s') ↔ b = true ∧ s' = s.
Proof. unfold tx_guard, tx_ret, tx_err. destruct u, b; split.
  - by intros [= ->].
  - by intros [_ ->].
  - done.
  - by intros [? _]. Qed.

Lemma tx_lift_ok {A} (r : result DbError A) (s s' : S) a :
  tx_lift r s = Ok (a, s') ↔ r = Ok a ∧ s' = s.
Proof. unfold tx_lift. destruct r; split.
  - by intros [= -> ->].
  - by intros [[= ->] ->].
  - done.
  - by intros [? _]. Qed.

Lemma tx_get_bind {A} (f : S → tx S A) s : tx_bind tx_get f s = f s s.
Proof. done. Qed.

Lemma tx_lift_bind {A B} (a : A) (f : A → tx S B) s : tx_bind (tx_lift (Ok a)) f s = f a s.
Proof. done. Qed.

(** A transaction that fails changes nothing. *)
Lemma transaction_err {A} (m : tx S A) s e s' :
  transaction m s = (Err e, s') → s' = s.
Proof. unfold transaction. destruct (m s) as [[a s1]|e1]; congruence. Qed.

Lemma transaction_ok {A} (m : tx S A) s a s' :
  transaction m s = (Ok a, s') ↔ m s = Ok (a, s').
Proof.
  unfold transaction. destruct (m s) as [[a1 s1]|e1]; split; congruence.
Qed.
End TxLemmas.

(** Decompose a successful transaction hypothesis into its steps. *)
Ltac tx_inv H :=
  repeat match type of H with
  | tx_bind _ _ _ = Ok _ =>
      let a := fresh "a" in let s := fresh "s" in let Ha := fresh "Hs" in
      apply tx_bind_ok in H as (a & s & Ha & H)
  | tx_ret _ _ = Ok _ => unfold tx_ret in H; simplify_eq
  | tx_get _ = Ok _ => unfold tx_get in H; simplify_eq
  | tx_put _ _ = Ok _ => unfold tx_put in H; simplify_eq
  | tx_modify _ _ = Ok _ => unfold tx_modify in H; simplify_eq
  end.

(** ** Machine integers

    Release builds wrap on overflow (the workspace's release profile leaves
    overflow checks off); casts with [as] truncate; the [saturating_*]
    operations clamp. *)
Definition i64_min : Z := - 2 ^ 63.
Definition i64_max : Z := 2 ^ 63 - 1.
Definition u32_max : Z := 2 ^ 32 - 1.
Definition u64_max : Z := 2 ^ 64 - 1.
Definition in_i64 (z : Z) : Prop := i64_min ≤ z ≤ i64_max.
Definition in_u32 (z : Z) : Prop := 0 ≤ z ≤ u32_max.
Definition in_u64 (z : Z) : Prop := 0 ≤ z ≤ u64_max.

Definition wrap_i64 (z : Z) : Z := (z + 2 ^ 63) mod 2 ^ 64 - 2 ^ 63.
Definition i64_add (a b : Z) : Z := wrap_i64 (a + b).
Definition i64_sub (a b : Z) : Z := wrap_i64 (a - b).
Definition i64_saturating_add (a b : Z) : Z := Z.max i64_min (Z.min i64_max (a + b)).
Definition as_u32 (z : Z) : Z := z mod 2 ^ 32.
Definition usize_saturating_sub (a b : Z) : Z := Z.max 0 (a - b).
Definition u64_saturating_mul (a b : Z) : Z := Z.min u64_max (a * b).

Lemma wrap_i64_id z : in_i64 z → wrap_i64 z = z.
Proof.
  unfold in_i64, i64_min, i64_max, wrap_i64. intros H.
  rewrite Z.mod_small by lia. lia.
Qed.

Lemma wrap_i64_range z : in_i64 (wrap_i64 z).
Proof.
  unfold in_i64, i64_min, i64_max, wrap_i64.
  pose proof (Z.mod_pos_bound (z + 2 ^ 63) (2 ^ 64) ltac:(lia)). lia.
Qed.

Lemma wrap_i64_add_l a b : wrap_i64 (wrap_i64 a + b) = wrap_i64 (a + b).
Proof.
  unfold wrap_i64. f_equal.
  replace ((a + 2 ^ 63) mod 2 ^ 64 - 2 ^ 63 + b + 2 ^ 63) with ((a + 2 ^ 63) mod 2 ^ 64 + b) by ring.
  rewrite Zplus_mod_idemp_l. f_equal. ring.
Qed.

(** Wrapping is injective on offsets smaller than the width. *)
Lemma wrap_i64_offset_inj s a b :
  0 ≤ a < 2 ^ 64 → 0 ≤ b < 2 ^ 64 → wrap_i64 (s + a) = wrap_i64 (s + b) → a = b.
Proof.
  intros Ha Hb Hw. assert (wrap_i64 (wrap_i64 (s + a) - s) = wrap_i64 (wrap_i64 (s + b) - s)) as Hd
    by (by rewrite Hw).
  rewrite <-!Z.add_opp_r, !wrap_i64_add_l in Hd.
  replace (s + a + - s) with a in Hd by ring. replace (s + b + - s) with b in Hd by ring.
  unfold wrap_i64 in Hd.
  assert ((a + 2 ^ 63) mod 2 ^ 64 = (b + 2 ^ 63) mod 2 ^ 64) as Hm by lia. clear Hd Hw.
  pose proof (Z.div_mod (a + 2 ^ 63) (2 ^ 64) ltac:(lia)).
  pose proof (Z.div_mod (b + 2 ^ 63) (2 ^ 64) ltac:(lia)). nia.
Qed.

Lemma i64_add_id a b : in_i64 (a + b) → i64_add a b = a + b.
Proof. apply wrap_i64_id. Qed.

Lemma i64_sub_id a b : in_i64 (a - b) → i64_sub a b = a - b.
Proof. apply wrap_i64_id. Qed.

Lemma as_u32_id z : in_u32 z → as_u32 z = z.
Proof. unfold in_u32, u32_max, as_u32. intros. apply Z.mod_small. lia. Qed.

(** Unfold the integer ranges and call [lia]. *)
Ltac int_lia :=
  unfold i64_saturating_add, usize_saturating_sub, u64_saturating_mul, in_i64, in_u32, in_u64,
    i64_min, i64_max, u32_max, u64_max in *; lia.

Create HintDb execlaw.
Create Rewrite HintDb execlaw.
Create Rewrite HintDb execlaw_tx.
#[export] Hint Resolve wrap_i64_range : execlaw.
#[export] Hint Rewrite @tx_bind_ok @tx_guard_ok @tx_lift_ok : execlaw_tx.

(** ** Lists

    [windows(2).any(p)] and [position] as the sources use them. *)
Fixpoint any_adjacent {A} (p : A → A → bool) (l : list A) : bool :=
  match l with
  | x :: ((y :: _) as l') => p x y || any_adjacent p l'
  | _ => false
  end.

(** Index of the first element satisfying [p]. *)
Fixpoint position {A} (p : A → bool) (l : list A) : option nat :=
  match l with
  | [] => None
  | x :: l => if p x then Some 0%nat else S <$> position p l
  end.

Lemma position_Some {A} (p : A → bool) l i :
  position p l = Some i →
  ∃ x, l !! i = Some x ∧ p x = true ∧ ∀ j y, (j < i)%nat → l !! j = Some y → p y = false.
Proof.
  revert i. induction l as [|x l IH]; intros i; cbn; [done|].
  destruct (p x) eqn:Hp.
  - intros [= <-]. exists x. repeat split; [done..|]. lia.
  - destruct (position p l) as [k|] eqn:Hk; cbn; [|done]. intros [= <-].
    destruct (IH k eq_refl) as (z & Hz & Hpz & Hbefore).
    exists z. repeat split; [done..|]. intros [|j] y Hj Hy; cbn in *.
    + by simplify_eq.
    + apply (Hbefore j); [lia|done].
Qed.

Lemma position_None {A} (p : A → bool) l :
  position p l = None ↔ Forall (λ x, p x = false) l.
Proof.
  induction l as [|x l IH]; cbn; [by split|].
  destruct (p x) eqn:Hp.
  - split; [done|]. intros H. inversion H; congruence.
  - rewrite Forall_cons, <-IH. destruct (position p l); cbn; [by split; [|intros [_ ?]]|by split].

Qed.

Lemma existsb_True {A} (f : A → bool) l :
  existsb f l = true ↔ ∃ x, x ∈ l ∧ f x = true.
Proof.
  rewrite existsb_exists. split; intros (x & ? & ?); exists x; split; [|done| |done].
  - by apply list_elem_of_In.
  - by apply list_elem_of_In.
Qed.

Lemma existsb_False {A} (f : A → bool) l :
  existsb f l = false ↔ ∀ x, x ∈ l → f x = false.
Proof.
  rewrite <-not_true_iff_false, existsb_True. split.
  - intros H x Hx. apply not_true_iff_false. intros ?. apply H. by exists x.
  - intros H (x & Hx & Hf). specialize (H x Hx). congruence.
Qed.

(** [Iterator::filter] and [map]. *)
Lemma filter_nil_iff {A} f (l : list A) : List.filter f l = [] ↔ ∀ x, x ∈ l → f x = false.
Proof.
  induction l as [|x l IH]; cbn; [by split; [set_solver|]|]. destruct (f x) eqn:Hx.
  - split; [done|]. intros Hall. specialize (Hall x ltac:(left)). congruence.
  - rewrite IH. split; [intros Hall y [->|?]%elem_of_cons; auto|intros Hall y Hy; apply Hall; by right].
Qed.

Lemma filter_map_comm {A B} (f : A → B) p (l : list A) :
  List.filter p (map f l) = map f (List.filter (λ x, p (f x)) l).
Proof. induction l as [|x l IH]; cbn; [done|]. destruct (p (f x)); cbn; by rewrite IH. Qed.

Lemma filter_filter {A} p q (l : list A) :
  List.filter p (List.filter q l) = List.filter (λ x, q x && p x) l.
Proof.
  induction l as [|x l IH]; cbn; [done|]. destruct (q x); cbn; [|done].
  destruct (p x); cbn; by rewrite IH.
Qed.

Lemma filter_swap {A} p q (l : list A) :
  List.filter p (List.filter q l) = List.filter q (List.filter p l).
Proof. rewrite !filter_filter. apply List.filter_ext. intros x. apply andb_comm. Qed.

Lemma filter_ext_elem {A} p q (l : list A) :
  (∀ x, x ∈ l → p x = q x) → List.filter p l = List.filter q l.
Proof.
  induction l as [|x l IH]; cbn; [done|]. intros Hpq. rewrite Hpq by left.
  rewrite IH by (intros y Hy; apply Hpq; by right). done.
Qed.

Lemma Forall_filter_bool {A} (P : A → Prop) f (l : list A) : Forall P l → Forall P (List.filter f l).
Proof. rewrite !List.Forall_forall. intros HP x [Hx _]%filter_In. auto. Qed.

Lemma length_filter_le {A} f (l : list A) : (length (List.filter f l) ≤ length l)%nat.
Proof. induction l as [|x l IH]; cbn; [lia|]. destruct (f x); cbn; lia. Qed.

Lemma filter_all {A} f (l : list A) : Forall (λ x, f x = true) l → List.filter f l = l.
Proof. induction 1 as [|x l Hx _ IH]; cbn; [done|]. by rewrite Hx, IH. Qed.

Lemma filter_none {A} f (l : list A) : (∀ x, x ∈ l → f x = false) → List.filter f l = [].
Proof.
  induction l as [|x l IH]; cbn; [done|]. intros Hf. rewrite Hf by left. apply IH.
  intros y Hy. apply Hf. by right.
Qed.

Lemma map_id_elem {A} (f : A → A) l : (∀ x, x ∈ l → f x = x) → map f l = l.
Proof.
  induction l as [|x l IH]; cbn; [done|]. intros Hf. rewrite Hf by left. f_equal.
  apply IH. intros y Hy. apply Hf. by right.
Qed.

(** [String::==], decidable through [String.eqb]. *)
Lemma eqb_string_true (a b : string) : String.eqb a b = true ↔ a = b.
Proof. apply String.eqb_eq. Qed.
#[export] Hint Rewrite @existsb_True @existsb_False eqb_string_true : execlaw.
