(* ===== verification/Wire.v ===== *)
(** * Bytes and wire encodings

    Strings are the byte sequences of Rust's UTF-8 [String]s, so [as_bytes]
    is a change of container.  Fixed-width integers are written little
    endian; their decoder gives injectivity.  The lemmas at the end split
    concatenated fields. *)

From Stdlib Require Import Strings.Byte.
From S2P Require Import Prelude.

Abbreviation bytes := (list Byte.byte).

#[global] Instance byte_eq_dec : EqDecision Byte.byte := Byte.byte_eq_dec.

(** [str::as_bytes] *)
Definition as_bytes (s : string) : bytes := String.list_byte_of_string s.

(** [String::len], in bytes. *)
Definition str_len (s : string) : Z := Z.of_nat (String.length s).

(** [Vec::len] *)
Definition vec_len {A} (l : list A) : Z := Z.of_nat (length l).

Definition byte_to_Z (b : Byte.byte) : Z := Z.of_N (Byte.to_N b).
Definition byte_of_Z (z : Z) : Byte.byte :=
  default Byte.x00 (Byte.of_N (Z.to_N (z mod 256))).

(** [n] bytes, least significant first. *)
Fixpoint le_bytes (n : nat) (z : Z) : bytes :=
  match n with
  | O => []
  | S n => byte_of_Z z :: le_bytes n (z / 256)
  end.

Fixpoint le_value (bs : bytes) : Z :=
  match bs with
  | [] => 0
  | b :: bs => byte_to_Z b + 256 * le_value bs
  end.

(** [i64::to_le_bytes], [u64::to_le_bytes], [u32::to_le_bytes], [u16::to_le_bytes];
    negative numbers are written in two's complement. *)
Definition i64_le (z : Z) : bytes := le_bytes 8 z.
Definition u64_le (z : Z) : bytes := le_bytes 8 z.
Definition u32_le (z : Z) : bytes := le_bytes 4 z.
Definition u16_le (z : Z) : bytes := le_bytes 2 z.

(** The NUL byte. *)
Definition nul : Byte.byte := Byte.x00.
Definition nul_free (bs : bytes) : Prop := nul ∉ bs.

(** ** Strings and bytes *)

Lemma string_of_as_bytes s : String.string_of_list_byte (as_bytes s) = s.
Proof. apply String.string_of_list_byte_of_string. Qed.

#[global] Instance as_bytes_inj : Inj (=) (=) as_bytes.
Proof. intros s t H. by rewrite <-(string_of_as_bytes s), H, string_of_as_bytes. Qed.

Lemma length_as_bytes s : length (as_bytes s) = String.length s.
Proof.
  unfold as_bytes, String.list_byte_of_string. rewrite length_map.
  induction s; cbn; congruence.
Qed.

(** ** Little-endian integers *)

Lemma byte_to_Z_range b : 0 ≤ byte_to_Z b < 256.
Proof.
  unfold byte_to_Z. pose proof (Byte.to_N_bounded b). lia.
Qed.

Lemma byte_to_of_Z z : byte_to_Z (byte_of_Z z) = z mod 256.
Proof.
  unfold byte_to_Z, byte_of_Z.
  pose proof (Z.mod_pos_bound z 256 ltac:(lia)).
  destruct (Byte.of_N (Z.to_N (z mod 256))) as [b|] eqn:Hb; cbn.
  - apply Byte.to_of_N in Hb. rewrite Hb. lia.
  - apply Byte.of_N_None_iff in Hb. lia.
Qed.

Lemma length_le_bytes n z : length (le_bytes n z) = n.
Proof. revert z. induction n; cbn; auto. Qed.

Lemma le_value_le_bytes n z : le_value (le_bytes n z) = z mod 256 ^ (Z.of_nat n).
Proof.
  revert z. induction n as [|n IH]; intros z; cbn [le_bytes le_value].
  { by rewrite Z.mod_1_r. }
  rewrite IH, byte_to_of_Z, Nat2Z.inj_succ, Z.pow_succ_r by lia.
  rewrite (Z.rem_mul_r z 256) by lia. lia.
Qed.

Lemma le_bytes_inj n a b :
  le_bytes n a = le_bytes n b → a mod 256 ^ (Z.of_nat n) = b mod 256 ^ (Z.of_nat n).
Proof. intros H. by rewrite <-!le_value_le_bytes, H. Qed.

Lemma i64_le_inj a b : in_i64 a → in_i64 b → i64_le a = i64_le b → a = b.
Proof.
  intros Ha Hb H%le_bytes_inj. change (256 ^ Z.of_nat 8) with (2 ^ 64) in H.
  rewrite <-(wrap_i64_id a), <-(wrap_i64_id b) by done. unfold wrap_i64.
  rewrite <-(Zplus_mod_idemp_l a), <-(Zplus_mod_idemp_l b). by rewrite H.
Qed.

Lemma u64_le_inj a b : in_u64 a → in_u64 b → u64_le a = u64_le b → a = b.
Proof.
  intros Ha Hb H%le_bytes_inj. change (256 ^ Z.of_nat 8) with (2 ^ 64) in H.
  rewrite !Z.mod_small in H by int_lia. done.
Qed.

Lemma u32_le_inj a b : in_u32 a → in_u32 b → u32_le a = u32_le b → a = b.
Proof.
  intros Ha Hb H%le_bytes_inj. change (256 ^ Z.of_nat 4) with (2 ^ 32) in H.
  rewrite !Z.mod_small in H by int_lia. done.
Qed.

Lemma le_value_u16 z : 0 ≤ z < 2 ^ 16 → le_value (u16_le z) = z.
Proof.
  intros Hz. unfold u16_le. rewrite le_value_le_bytes. change (256 ^ Z.of_nat 2) with (2 ^ 16).
  by apply Z.mod_small.
Qed.

Lemma length_i64_le z : length (i64_le z) = 8%nat.
Proof. apply length_le_bytes. Qed.
Lemma length_u64_le z : length (u64_le z) = 8%nat.
Proof. apply length_le_bytes. Qed.
Lemma length_u32_le z : length (u32_le z) = 4%nat.
Proof. apply length_le_bytes. Qed.
#[export] Hint Rewrite length_i64_le length_u64_le length_u32_le length_as_bytes : execlaw.

(** ** Splitting concatenated fields *)

(** A field of known length. *)
Lemma fixed_field_inj {A} (x y r s : list A) :
  length x = length y → x ++ r = y ++ s → x = y ∧ r = s.
Proof. apply app_inj_1. Qed.

Lemma i64_field_inj a b (r s : bytes) :
  in_i64 a → in_i64 b → i64_le a ++ r = i64_le b ++ s → a = b ∧ r = s.
Proof.
  intros Ha Hb H. apply fixed_field_inj in H as [H ->]; [|by rewrite !length_i64_le].
  split; [by apply i64_le_inj|done].
Qed.

Lemma u64_field_inj a b (r s : bytes) :
  in_u64 a → in_u64 b → u64_le a ++ r = u64_le b ++ s → a = b ∧ r = s.
Proof.
  intros Ha Hb H. apply fixed_field_inj in H as [H ->]; [|by rewrite !length_u64_le].
  split; [by apply u64_le_inj|done].
Qed.

Lemma u32_field_inj a b (r s : bytes) :
  in_u32 a → in_u32 b → u32_le a ++ r = u32_le b ++ s → a = b ∧ r = s.
Proof.
  intros Ha Hb H. apply fixed_field_inj in H as [H ->]; [|by rewrite !length_u32_le].
  split; [by apply u32_le_inj|done].
Qed.

(** A field that ends at the first NUL. *)
Lemma nul_field_inj (x y r s : bytes) :
  nul_free x → nul_free y → x ++ nul :: r = y ++ nul :: s → x = y ∧ r = s.
Proof.
  revert y. induction x as [|a x IH]; intros [|b y] Hx Hy H; cbn in H.
  - by simplify_eq.
  - exfalso. simplify_eq. apply Hy. left.
  - exfalso. simplify_eq. apply Hx. left.
  - injection H as -> H. destruct (IH y) as [-> ->]; [..|done|done].
    + intros ?. apply Hx. by right.
    + intros ?. apply Hy. by right.
Qed.

Lemma nul_cons_inv (r s : bytes) : nul :: r = nul :: s → r = s.
Proof. by intros [= ->]. Qed.

(** A field preceded by its length. *)
Definition sized (x : bytes) : bytes := u64_le (vec_len x) ++ x.
Definition fits_u64 {A} (l : list A) : Prop := in_u64 (vec_len l).

Lemma sized_field_inj (x y r s : bytes) :
  fits_u64 x → fits_u64 y → sized x ++ r = sized y ++ s → x = y ∧ r = s.
Proof.
  unfold sized, fits_u64. intros Hx Hy H. rewrite <-!(assoc_L (++)) in H.
  apply u64_field_inj in H as [Hl H]; [|done..].
  apply fixed_field_inj in H; [done|]. unfold vec_len in Hl. lia.
Qed.

Lemma sized_list_inj (xs ys : list bytes) (r s : bytes) :
  Forall fits_u64 xs → Forall fits_u64 ys → length xs = length ys →
  concat (map sized xs) ++ r = concat (map sized ys) ++ s → xs = ys ∧ r = s.
Proof.
  revert ys. induction xs as [|x xs IH]; intros [|y ys] Hx Hy Hl H; cbn in *; try done.
  apply Forall_cons in Hx as [Hx Hxs]. apply Forall_cons in Hy as [Hy Hys].
  rewrite <-!(assoc_L (++)) in H. apply sized_field_inj in H as [-> H]; [|done..].
  destruct (IH ys) as [-> ->]; [done..|lia|done|done].
Qed.

(** ** Tags: [u8; 32] *)
Definition tag_len : nat := 32.
