(* ===== verification/EventKind.v ===== *)
(** * Event kinds

    [crates/core/src/events.rs], [enum EventKind] with its wire names. *)

From S2P Require Import Prelude Wire.

Inductive EventKind : Type :=
| UserMsg
| ModelTurn
| ToolUse
| ToolResult
| Interrupt
| Resume
| Approval
| TransportReviewDecision
| EffectCommitted
| Wakeup
| AlertFired
| AlertRenotified
| AlertAcked
| AlertResolved
| AlertSnoozed
| IncidentOpened
| IncidentClosed
| ColdContactArrived
| IdentityResolutionConflict
| TrustChanged
| VoiceSessionStarted
| VoiceSessionEnded
| AudioInChunk
| VadSpeechStarted
| VadSpeechEnded
| SttPartial
| SttFinal
| TurnUserEnded
| LlmToken
| LlmResponseFinal
| LlmCancelled
| TtsFirstAudio
| TtsAudioChunk
| TtsEnded
| InterruptStarted
| InterruptRescinded
| InterruptConfirmed
| ResearchProgressUpdated
| CardOpened
| CardProgressed
| CardClosed
| SubagentStarted
| SubagentCompleted
| SkillCreated
| SkillVersionAdded
| SkillPromoted
| SkillArchived
| SkillInvoked
| SkillWriteRejected
| Other.

#[global] Instance EventKind_eq_dec : EqDecision EventKind.
Proof. solve_decision. Defined.

(** [EventKind::as_str] *)
Definition as_str (k : EventKind) : string :=
  match k with
  | UserMsg => "user_msg"
  | ModelTurn => "model_turn"
  | ToolUse => "tool_use"
  | ToolResult => "tool_result"
  | Interrupt => "interrupt"
  | Resume => "resume"
  | Approval => "approval"
  | TransportReviewDecision => "transport_review_decision"
  | EffectCommitted => "effect_committed"
  | Wakeup => "wakeup"
  | AlertFired => "alert_fired"
  | AlertRenotified => "alert_renotified"
  | AlertAcked => "alert_acked"
  | AlertResolved => "alert_resolved"
  | AlertSnoozed => "alert_snoozed"
  | IncidentOpened => "incident_opened"
  | IncidentClosed => "incident_closed"
  | ColdContactArrived => "cold_contact_arrived"
  | IdentityResolutionConflict => "identity_resolution_conflict"
  | TrustChanged => "trust_changed"
  | VoiceSessionStarted => "voice.session_started"
  | VoiceSessionEnded => "voice.session_ended"
  | AudioInChunk => "audio.in_chunk"
  | VadSpeechStarted => "vad.speech_started"
  | VadSpeechEnded => "vad.speech_ended"
  | SttPartial => "stt.partial"
  | SttFinal => "stt.final"
  | TurnUserEnded => "turn.user_ended"
  | LlmToken => "llm.token"
  | LlmResponseFinal => "llm.response_final"
  | LlmCancelled => "llm.cancelled"
  | TtsFirstAudio => "tts.first_audio"
  | TtsAudioChunk => "tts.audio_chunk"
  | TtsEnded => "tts.ended"
  | InterruptStarted => "interrupt.started"
  | InterruptRescinded => "interrupt.rescinded"
  | InterruptConfirmed => "interrupt.confirmed"
  | ResearchProgressUpdated => "research_progress_updated"
  | CardOpened => "card.opened"
  | CardProgressed => "card.progressed"
  | CardClosed => "card.closed"
  | SubagentStarted => "subagent.started"
  | SubagentCompleted => "subagent.completed"
  | SkillCreated => "skill.created"
  | SkillVersionAdded => "skill.version_added"
  | SkillPromoted => "skill.promoted"
  | SkillArchived => "skill.archived"
  | SkillInvoked => "skill.invoked"
  | SkillWriteRejected => "skill.write_rejected"
  | Other => "other"
  end.

(** [EventKind::parse] *)
Definition parse (s : string) : EventKind :=
  if String.eqb s "user_msg" then UserMsg else
  if String.eqb s "model_turn" then ModelTurn else
  if String.eqb s "tool_use" then ToolUse else
  if String.eqb s "tool_result" then ToolResult else
  if String.eqb s "interrupt" then Interrupt else
  if String.eqb s "resume" then Resume else
  if String.eqb s "approval" then Approval else
  if String.eqb s "transport_review_decision" then TransportReviewDecision else
  if String.eqb s "effect_committed" then EffectCommitted else
  if String.eqb s "wakeup" then Wakeup else
  if String.eqb s "alert_fired" then AlertFired else
  if String.eqb s "alert_renotified" then AlertRenotified else
  if String.eqb s "alert_acked" then AlertAcked else
  if String.eqb s "alert_resolved" then AlertResolved else
  if String.eqb s "alert_snoozed" then AlertSnoozed else
  if String.eqb s "incident_opened" then IncidentOpened else
  if String.eqb s "incident_closed" then IncidentClosed else
  if String.eqb s "cold_contact_arrived" then ColdContactArrived else
  if String.eqb s "identity_resolution_conflict" then IdentityResolutionConflict else
  if String.eqb s "trust_changed" then TrustChanged else
  if String.eqb s "voice.session_started" then VoiceSessionStarted else
  if String.eqb s "voice.session_ended" then VoiceSessionEnded else
  if String.eqb s "audio.in_chunk" then AudioInChunk else
  if String.eqb s "vad.speech_started" then VadSpeechStarted else
  if String.eqb s "vad.speech_ended" then VadSpeechEnded else
  if String.eqb s "stt.partial" then SttPartial else
  if String.eqb s "stt.final" then SttFinal else
  if String.eqb s "turn.user_ended" then TurnUserEnded else
  if String.eqb s "llm.token" then LlmToken else
  if String.eqb s "llm.response_final" then LlmResponseFinal else
  if String.eqb s "llm.cancelled" then LlmCancelled else
  if String.eqb s "tts.first_audio" then TtsFirstAudio else
  if String.eqb s "tts.audio_chunk" then TtsAudioChunk else
  if String.eqb s "tts.ended" then TtsEnded else
  if String.eqb s "interrupt.started" then InterruptStarted else
  if String.eqb s "interrupt.rescinded" then InterruptRescinded else
  if String.eqb s "interrupt.confirmed" then InterruptConfirmed else
  if String.eqb s "research_progress_updated" then ResearchProgressUpdated else
  if String.eqb s "card.opened" then CardOpened else
  if String.eqb s "card.progressed" then CardProgressed else
  if String.eqb s "card.closed" then CardClosed else
  if String.eqb s "subagent.started" then SubagentStarted else
  if String.eqb s "subagent.completed" then SubagentCompleted else
  if String.eqb s "skill.created" then SkillCreated else
  if String.eqb s "skill.version_added" then SkillVersionAdded else
  if String.eqb s "skill.promoted" then SkillPromoted else
  if String.eqb s "skill.archived" then SkillArchived else
  if String.eqb s "skill.invoked" then SkillInvoked else
  if String.eqb s "skill.write_rejected" then SkillWriteRejected else
  Other.

Lemma parse_as_str k : parse (as_str k) = k.
Proof. by destruct k. Qed.

#[global] Instance as_str_inj : Inj (=) (=) as_str.
Proof. intros j k H. by rewrite <-(parse_as_str j), H, parse_as_str. Qed.

Lemma as_str_nul_free k : nul_free (as_bytes (as_str k)).
Proof.
  unfold nul_free. apply (bool_decide_unpack (_ ∉ _)). by destruct k.
Qed.
#[export] Hint Resolve as_str_nul_free : execlaw.

(** [parse] is the inverse of [as_str] on the wire names and sends every other
    string to [Other]. *)
Lemma parse_spec s : as_str (parse s) = s ∨ parse s = Other.
Proof.
  unfold parse.
  repeat match goal with
  | |- context [String.eqb s ?t] =>
      destruct (String.eqb_spec s t) as [->|_]; [by left|]
  end.
  by right.
Qed.

(** The wire names. *)
Definition known (s : string) : Prop := ∃ k, s = as_str k.

Lemma unknown_parses_to_Other s : ¬ known s → parse s = Other.
Proof. intros Hs. destruct (parse_spec s) as [H|H]; [|done]. exfalso. apply Hs. by eexists. Qed.
