(* ===== verification/EventHmac.v ===== *)
(** * Canonical encodings of event-log records

    [crates/core/src/event_hmac.rs]: the byte strings the event log
    authenticates, and the MAC over them.  HMAC-SHA256 is code of the [hmac]
    and [sha2] crates: a parameter, of which only the tag length is assumed. *)

From S2P Require Import Prelude Wire EventKind.

(** ** The MAC *)

Class Hmac : Type := hmac_sha256 : bytes → bytes → bytes.

(** The crate returns 32 bytes for every key and message. *)
Class HmacLaws `{Hmac} : Prop :=
  hmac_sha256_length : ∀ key msg, length (hmac_sha256 key msg) = tag_len.

(** A toy MAC that satisfies the law, for closed examples: a polynomial
    checksum of key and message. *)
Definition toy_hmac : Hmac := λ key msg,
  let acc := foldl (λ acc b, (acc * 257 + byte_to_Z b + 1) mod 2 ^ 40) 0 (key ++ nul :: msg) in
  le_bytes 24 acc ++ le_bytes 8 (acc + 1).
Lemma toy_hmac_laws : @HmacLaws toy_hmac.
Proof. intros key msg. unfold hmac_sha256, toy_hmac. by rewrite length_app, !length_le_bytes. Qed.

(** [canonical_bytes] *)
Definition canonical_bytes (conversation_id : string) (seq : Z) (kind : string)
    (committed_at : Z) (actor : option string) (payload : bytes) : bytes :=
  as_bytes conversation_id ++ nul :: i64_le seq ++
  as_bytes kind ++ nul :: i64_le committed_at ++
  as_bytes (default "" actor) ++ nul :: payload.

(** [sign_event] and [verify_event] *)
Definition sign_event `{Hmac} (key canonical : bytes) : bytes := hmac_sha256 key canonical.
Definition verify_event `{Hmac} (key canonical tag : bytes) : bool :=
  bool_decide (hmac_sha256 key canonical = tag).

(** [canonical_chain_event] *)
Definition canonical_chain_event (v1_canonical : bytes) (key_id : Z) (prev_tag : bytes) : bytes :=
  as_bytes "execlaw/event-chain/v2" ++ nul :: i64_le key_id ++ prev_tag ++ v1_canonical.

(** [canonical_genesis] *)
Definition canonical_genesis (conversation_id : string) (chain_start_seq : Z)
    (legacy_rows : list bytes) : bytes :=
  as_bytes "execlaw/event-chain-genesis/v2" ++ nul :: sized (as_bytes conversation_id) ++
  i64_le chain_start_seq ++ u64_le (vec_len legacy_rows) ++ concat (map sized legacy_rows).

(** [canonical_checkpoint] *)
Definition canonical_checkpoint (conversation_id : string) (chain_start_seq head_seq : Z)
    (head_tag : bytes) (genesis_key_id key_id : Z) : bytes :=
  as_bytes "execlaw/event-checkpoint/v2" ++ nul :: sized (as_bytes conversation_id) ++
  i64_le chain_start_seq ++ i64_le head_seq ++ head_tag ++
  i64_le genesis_key_id ++ i64_le key_id.

(** ** Injectivity *)

(** the v1 row encoding is injective where its separators separate: for
    conversation ids, kinds and actors without NUL bytes and machine-width
    sequence numbers and timestamps, equal encodings come from rows equal in
    every field, an absent actor and an empty actor being the same. *)
Theorem canonical_bytes_injective c1 s1 k1 t1 a1 p1 c2 s2 k2 t2 a2 p2 :
  nul_free (as_bytes c1) → nul_free (as_bytes c2) →
  nul_free (as_bytes k1) → nul_free (as_bytes k2) →
  nul_free (as_bytes (default "" a1)) → nul_free (as_bytes (default "" a2)) →
  in_i64 s1 → in_i64 s2 → in_i64 t1 → in_i64 t2 →
  canonical_bytes c1 s1 k1 t1 a1 p1 = canonical_bytes c2 s2 k2 t2 a2 p2 →
  c1 = c2 ∧ s1 = s2 ∧ k1 = k2 ∧ t1 = t2 ∧ default "" a1 = default "" a2 ∧ p1 = p2.
Proof.
  unfold canonical_bytes. intros Hc1 Hc2 Hk1 Hk2 Ha1 Ha2 Hs1 Hs2 Ht1 Ht2 H.
  apply nul_field_inj in H as [->%(inj as_bytes) H]; [|done..].
  apply i64_field_inj in H as [-> H]; [|done..].
  apply nul_field_inj in H as [->%(inj as_bytes) H]; [|done..].
  apply i64_field_inj in H as [-> H]; [|done..].
  apply nul_field_inj in H as [Ha%(inj as_bytes) ->]; [|done..].
  done.
Qed.

Lemma canonical_bytes_injective_witness :
  canonical_bytes "c" 1 "user_msg" 7 (Some "bob") [] =
    canonical_bytes "c" 1 "user_msg" 7 (Some "bob") [] ∧ "c" = "c".
Proof.
  split; [reflexivity|].
  destruct (canonical_bytes_injective "c" 1 "user_msg" 7 (Some "bob") []
              "c" 1 "user_msg" 7 (Some "bob") []) as [H _]; [..|exact H];
    try reflexivity; try (unfold in_i64, i64_min, i64_max; lia);
    apply (bool_decide_unpack (nul ∉ _)); vm_compute; exact I.
Defined.

(** Within one conversation the conversation id needs no such condition. *)
Lemma canonical_bytes_same_conversation c s1 k1 t1 a1 p1 s2 k2 t2 a2 p2 :
  nul_free (as_bytes k1) → nul_free (as_bytes k2) →
  nul_free (as_bytes (default "" a1)) → nul_free (as_bytes (default "" a2)) →
  in_i64 s1 → in_i64 s2 → in_i64 t1 → in_i64 t2 →
  canonical_bytes c s1 k1 t1 a1 p1 = canonical_bytes c s2 k2 t2 a2 p2 →
  s1 = s2 ∧ k1 = k2 ∧ t1 = t2 ∧ default "" a1 = default "" a2 ∧ p1 = p2.
Proof.
  unfold canonical_bytes. intros Hk1 Hk2 Ha1 Ha2 Hs1 Hs2 Ht1 Ht2 H.
  apply app_inv_head, nul_cons_inv in H.
  apply i64_field_inj in H as [-> H]; [|done..].
  apply nul_field_inj in H as [->%(inj as_bytes) H]; [|done..].
  apply i64_field_inj in H as [-> H]; [|done..].
  apply nul_field_inj in H as [Ha%(inj as_bytes) ->]; done.
Qed.

Lemma canonical_chain_event_inj v1 k1 t1 v2 k2 t2 :
  in_i64 k1 → in_i64 k2 → length t1 = length t2 →
  canonical_chain_event v1 k1 t1 = canonical_chain_event v2 k2 t2 →
  v1 = v2 ∧ k1 = k2 ∧ t1 = t2.
Proof.
  unfold canonical_chain_event. intros Hk1 Hk2 Hl H.
  apply app_inv_head, nul_cons_inv in H.
  apply i64_field_inj in H as [-> H]; [|done..].
  by apply fixed_field_inj in H as [-> ->].
Qed.

Lemma canonical_genesis_inj c1 s1 rows1 c2 s2 rows2 :
  fits_u64 (as_bytes c1) → fits_u64 (as_bytes c2) → in_i64 s1 → in_i64 s2 →
  fits_u64 rows1 → fits_u64 rows2 → Forall fits_u64 rows1 → Forall fits_u64 rows2 →
  canonical_genesis c1 s1 rows1 = canonical_genesis c2 s2 rows2 →
  c1 = c2 ∧ s1 = s2 ∧ rows1 = rows2.
Proof.
  unfold canonical_genesis. intros Hc1 Hc2 Hs1 Hs2 Hr1 Hr2 Hf1 Hf2 H.
  apply app_inv_head, nul_cons_inv in H.
  apply sized_field_inj in H as [->%(inj as_bytes) H]; [|done..].
  apply i64_field_inj in H as [-> H]; [|done..].
  apply u64_field_inj in H as [Hl H]; [|done..].
  unfold vec_len in Hl.
  assert (concat (map sized rows1) ++ [] = concat (map sized rows2) ++ []) as H'
    by (by rewrite !app_nil_r).
  by apply sized_list_inj in H' as [-> _]; [|done|done|lia].
Qed.

Lemma canonical_checkpoint_inj c1 cs1 hs1 ht1 g1 k1 c2 cs2 hs2 ht2 g2 k2 :
  fits_u64 (as_bytes c1) → fits_u64 (as_bytes c2) →
  Forall in_i64 [cs1; hs1; g1; k1] → Forall in_i64 [cs2; hs2; g2; k2] →
  length ht1 = length ht2 →
  canonical_checkpoint c1 cs1 hs1 ht1 g1 k1 = canonical_checkpoint c2 cs2 hs2 ht2 g2 k2 →
  c1 = c2 ∧ cs1 = cs2 ∧ hs1 = hs2 ∧ ht1 = ht2 ∧ g1 = g2 ∧ k1 = k2.
Proof.
  unfold canonical_checkpoint. rewrite !Forall_cons.
  intros Hc1 Hc2 (I1 & I2 & I3 & I4 & _) (J1 & J2 & J3 & J4 & _) Hl H.
  apply app_inv_head, nul_cons_inv in H.
  apply sized_field_inj in H as [->%(inj as_bytes) H]; [|done..].
  apply i64_field_inj in H as [-> H]; [|done..].
  apply i64_field_inj in H as [-> H]; [|done..].
  apply fixed_field_inj in H as [-> H]; [|done].
  apply i64_field_inj in H as [-> H]; [|done..].
  by apply i64_le_inj in H as ->.
Qed.

(** ** Domain separation

    The three v2 encodings differ for all arguments: a tag computed for one
    purpose is never a tag for another. *)
Lemma domains_differ (p q x y : bytes) : ¬ p `prefix_of` q → ¬ q `prefix_of` p → p ++ x ≠ q ++ y.
Proof.
  intros Hpq Hqp Heq. destruct (prefix_weak_total p q (p ++ x)); try done; [by exists x|by exists y].
Qed.

(** Two closed domain strings of which neither extends the other. *)
#[local] Ltac differ_in_domain := apply domains_differ; apply (bool_decide_unpack _); by vm_compute.

Lemma chain_not_genesis v k t c s rows :
  canonical_chain_event v k t ≠ canonical_genesis c s rows.
Proof. unfold canonical_chain_event, canonical_genesis. differ_in_domain. Qed.

Lemma chain_not_checkpoint v k t c cs hs ht g kk :
  canonical_chain_event v k t ≠ canonical_checkpoint c cs hs ht g kk.
Proof. unfold canonical_chain_event, canonical_checkpoint. differ_in_domain. Qed.

Lemma genesis_not_checkpoint c s rows c' cs hs ht g kk :
  canonical_genesis c s rows ≠ canonical_checkpoint c' cs hs ht g kk.
Proof. unfold canonical_genesis, canonical_checkpoint. differ_in_domain. Qed.

(** ** The limits of the v1 separators

    The encoding does not distinguish an absent actor from an empty one, and
    a NUL inside the actor moves bytes across the field boundary. *)
Definition nul_string : string := String.string_of_list_byte [nul].

Lemma canonical_bytes_actor_collision c s k t p :
  canonical_bytes c s k t None p = canonical_bytes c s k t (Some "") p.
Proof. done. Qed.

(** the separators of the v1 encoding do not separate for every input: two
    rows of one conversation that differ in actor and payload have the same
    encoding, and so the same tag under every key, when the actor of one
    contains a NUL byte. *)
Theorem canonical_bytes_field_smuggling `{Hmac} key c s k t :
  ∃ a1 a2 p1 p2, a1 ≠ a2 ∧ p1 ≠ p2 ∧
    sign_event key (canonical_bytes c s k t (Some a1) p1) =
    sign_event key (canonical_bytes c s k t (Some a2) p2).
Proof.
  exists ("x" +:+ nul_string +:+ "y"), "x", (as_bytes "z"), (as_bytes ("y" +:+ nul_string +:+ "z")).
  repeat split; [by vm_compute..|]. done.
Qed.
