(* ===== verification/Text.v ===== *)
(** * Rust string operations

    The operations of [str] the sources use, on UTF-8 byte strings.  [chars]
    cuts a string before every byte that is not a continuation byte; on valid
    UTF-8 the pieces are the encodings of its characters. *)

From Stdlib Require Import Strings.Byte Strings.Ascii.
From stdpp Require Import sorting.
From S2P Require Import Prelude Wire.

Definition code (c : Ascii.ascii) : Z := Z.of_nat (Ascii.nat_of_ascii c).

(** ** UTF-8 *)

Definition is_cont (b : Byte.byte) : bool :=
  (128 <=? byte_to_Z b) && (byte_to_Z b <? 192).

Definition in_range (lo hi : Z) (b : Byte.byte) : bool :=
  (lo <=? byte_to_Z b) && (byte_to_Z b <=? hi).

(** [std::str::from_utf8(..).is_ok()]: the well-formed sequences of the
    Unicode standard (no overlong forms, no surrogates). *)
Fixpoint utf8_valid (bs : bytes) : bool :=
  match bs with
  | [] => true
  | b0 :: r0 =>
      if in_range 0 127 b0 then utf8_valid r0
      else if in_range 194 223 b0 then
        match r0 with
        | b1 :: r1 => is_cont b1 && utf8_valid r1
        | _ => false
        end
      else if in_range 224 239 b0 then
        match r0 with
        | b1 :: b2 :: r2 =>
            (if byte_to_Z b0 =? 224 then in_range 160 191 b1
             else if byte_to_Z b0 =? 237 then in_range 128 159 b1
             else is_cont b1) && is_cont b2 && utf8_valid r2
        | _ => false
        end
      else if in_range 240 244 b0 then
        match r0 with
        | b1 :: b2 :: b3 :: r3 =>
            (if byte_to_Z b0 =? 240 then in_range 144 191 b1
             else if byte_to_Z b0 =? 244 then in_range 128 143 b1
             else is_cont b1) && is_cont b2 && is_cont b3 && utf8_valid r3
        | _ => false
        end
      else false
  end.

Definition is_cont_ascii (c : Ascii.ascii) : bool := (128 <=? code c) && (code c <? 192).

(** [str::chars], each character as its encoding. *)
Fixpoint chars (s : string) : list string :=
  match s with
  | EmptyString => []
  | String c s' =>
      match chars s' with
      | (String d _ as w) :: ws =>
          if is_cont_ascii d then String c w :: ws else String c EmptyString :: w :: ws
      | ws => String c EmptyString :: ws
      end
  end.

Definition concat_str (ws : list string) : string := foldr String.append EmptyString ws.

(** [str::chars().count()] *)
Definition char_count (s : string) : nat := length (chars s).

(** The code points with the property White_Space. *)
Definition is_whitespace (w : string) : bool :=
  match map code (String.list_ascii_of_string w) with
  | [c] => ((9 <=? c) && (c <=? 13)) || (c =? 32)
  | [194; c] => (c =? 133) || (c =? 160)
  | [225; 154; 128] => true
  | [226; 128; c] => ((128 <=? c) && (c <=? 138)) || (c =? 168) || (c =? 169) || (c =? 175)
  | [226; 129; 159] => true
  | [227; 128; 128] => true
  | _ => false
  end.

(** [char::is_control]: general category Cc. *)
Definition is_control (w : string) : bool :=
  match map code (String.list_ascii_of_string w) with
  | [c] => (c <? 32) || (c =? 127)
  | [194; c] => (128 <=? c) && (c <=? 159)
  | _ => false
  end.

Fixpoint drop_while {A} (p : A → bool) (l : list A) : list A :=
  match l with
  | [] => []
  | x :: l' => if p x then drop_while p l' else l
  end.

Fixpoint take_while {A} (p : A → bool) (l : list A) : list A :=
  match l with
  | [] => []
  | x :: l' => if p x then x :: take_while p l' else []
  end.

Definition trim_chars (ws : list string) : list string :=
  reverse (drop_while is_whitespace (reverse (drop_while is_whitespace ws))).

(** [str::trim] *)
Definition trim (s : string) : string := concat_str (trim_chars (chars s)).

(** [s.chars().take(n).collect()] *)
Definition take_chars (n : nat) (s : string) : string := concat_str (take n (chars s)).

(** ** ASCII and substrings *)

Definition is_ascii_whitespace (c : Ascii.ascii) : bool :=
  let n := code c in (n =? 9) || (n =? 10) || (n =? 12) || (n =? 13) || (n =? 32).

Definition is_ascii_digit (c : Ascii.ascii) : bool := (48 <=? code c) && (code c <=? 57).

Definition is_ascii_alphanumeric (c : Ascii.ascii) : bool :=
  is_ascii_digit c || ((65 <=? code c) && (code c <=? 90)) || ((97 <=? code c) && (code c <=? 122)).

Definition ascii_lower (c : Ascii.ascii) : Ascii.ascii :=
  if (65 <=? code c) && (code c <=? 90)
  then Ascii.ascii_of_nat (Z.to_nat (code c + 32)) else c.

Fixpoint map_string (f : Ascii.ascii → Ascii.ascii) (s : string) : string :=
  match s with EmptyString => EmptyString | String c s => String (f c) (map_string f s) end.

(** [str::to_ascii_lowercase] *)
Definition to_ascii_lowercase (s : string) : string := map_string ascii_lower s.

(** [str::parse::<i64>]: an optional sign, at least one digit, in range. *)
Fixpoint parse_decimal (acc : Z) (s : string) : option Z :=
  match s with
  | EmptyString => Some acc
  | String c s => if is_ascii_digit c then parse_decimal (acc * 10 + (code c - 48)) s else None
  end.
Definition parse_digits1 (s : string) : option Z :=
  match s with EmptyString => None | String _ _ => parse_decimal 0 s end.
Definition parse_i64 (s : string) : option Z :=
  let n := match s with
           | String c r => if Ascii.eqb c "-" then Z.opp <$> parse_digits1 r
                           else if Ascii.eqb c "+" then parse_digits1 r else parse_digits1 s
           | EmptyString => None
           end in
  match n with Some z => if (i64_min <=? z) && (z <=? i64_max) then Some z else None | None => None end.

(** [str::strip_prefix] *)
Fixpoint strip_prefix (p s : string) : option string :=
  match p, s with
  | EmptyString, _ => Some s
  | String a p, String c s => if Ascii.eqb a c then strip_prefix p s else None
  | String _ _, EmptyString => None
  end.

(** [str::starts_with] *)
Definition starts_with (s p : string) : bool :=
  match strip_prefix p s with Some _ => true | None => false end.

(** [str::strip_suffix(c)] for an ASCII character. *)
Fixpoint strip_suffix_char (c : Ascii.ascii) (s : string) : option string :=
  match s with
  | EmptyString => None
  | String d EmptyString => if Ascii.eqb c d then Some EmptyString else None
  | String d s => String d <$> strip_suffix_char c s
  end.

(** [&s[i..]] after [s.find(p)] with [i] the index: the rest of [s] from the
    first occurrence of [p]. *)
Fixpoint find_rest (p s : string) : option string :=
  match strip_prefix p s with
  | Some _ => Some s
  | None => match s with EmptyString => None | String _ s => find_rest p s end
  end.

(** [str::contains] *)
Definition contains (s p : string) : bool :=
  match find_rest p s with Some _ => true | None => false end.

(** [str::split_once(c)], first occurrence of an ASCII character. *)
Fixpoint split_once (c : Ascii.ascii) (s : string) : option (string * string) :=
  match s with
  | EmptyString => None
  | String d s =>
      if Ascii.eqb c d then Some (EmptyString, s)
      else match split_once c s with
           | Some (a, z) => Some (String d a, z)
           | None => None
           end
  end.

Definition is_char (c d : Ascii.ascii) : bool := Ascii.eqb c d.

(** [split(c)]; there is always a piece. *)
Fixpoint split_char (c : Ascii.ascii) (s : string) : list string :=
  match s with
  | EmptyString => [EmptyString]
  | String d s' =>
      if is_char c d then EmptyString :: split_char c s'
      else match split_char c s' with
           | piece :: rest => String d piece :: rest
           | [] => [String d EmptyString]
           end
  end.

(** [str::parse::<usize>()]: an optional plus sign and at least one digit,
    failing on overflow. *)
Fixpoint parse_digits (acc : Z) (s : string) : option Z :=
  match s with
  | EmptyString => Some acc
  | String c s =>
      if is_ascii_digit c
      then let acc := acc * 10 + (code c - 48) in
           if acc <=? u64_max then parse_digits acc s else None
      else None
  end.

Definition parse_usize (s : string) : option Z :=
  let digits := match s with String "+"%char s' => s' | _ => s end in
  match digits with EmptyString => None | _ => parse_digits 0 digits end.

(** [String::from_utf8_lossy]: every maximal prefix of an ill-formed sequence
    becomes one replacement character. *)
Definition replacement : bytes := [Byte.xef; Byte.xbf; Byte.xbd].

Fixpoint from_utf8_lossy (bs : bytes) : bytes :=
  match bs with
  | [] => []
  | b0 :: r0 =>
      if in_range 0 127 b0 then b0 :: from_utf8_lossy r0
      else if in_range 194 223 b0 then
        match r0 with
        | b1 :: r1 =>
            if is_cont b1 then b0 :: b1 :: from_utf8_lossy r1 else replacement ++ from_utf8_lossy r0
        | [] => replacement
        end
      else if in_range 224 239 b0 then
        match r0 with
        | b1 :: r1 =>
            if (if byte_to_Z b0 =? 224 then in_range 160 191 b1
                else if byte_to_Z b0 =? 237 then in_range 128 159 b1
                else is_cont b1)
            then match r1 with
                 | b2 :: r2 =>
                     if is_cont b2 then b0 :: b1 :: b2 :: from_utf8_lossy r2
                     else replacement ++ from_utf8_lossy r1
                 | [] => replacement
                 end
            else replacement ++ from_utf8_lossy r0
        | [] => replacement
        end
      else if in_range 240 244 b0 then
        match r0 with
        | b1 :: r1 =>
            if (if byte_to_Z b0 =? 240 then in_range 144 191 b1
                else if byte_to_Z b0 =? 244 then in_range 128 143 b1
                else is_cont b1)
            then match r1 with
                 | b2 :: r2 =>
                     if is_cont b2
                     then match r2 with
                          | b3 :: r3 =>
                              if is_cont b3 then b0 :: b1 :: b2 :: b3 :: from_utf8_lossy r3
                              else replacement ++ from_utf8_lossy r2
                          | [] => replacement
                          end
                     else replacement ++ from_utf8_lossy r1
                 | [] => replacement
                 end
            else replacement ++ from_utf8_lossy r0
        | [] => replacement
        end
      else replacement ++ from_utf8_lossy r0
  end.

(** [slice::sort_unstable] on strings (byte order) and [Vec::dedup]. *)
#[global] Instance string_leb_dec : RelDecision (λ a b : string, Is_true (String.leb a b)).
Proof. intros a b. apply _. Defined.

Definition sort_strings (l : list string) : list string :=
  merge_sort (λ a b, Is_true (String.leb a b)) l.

Fixpoint dedup (l : list string) : list string :=
  match l with
  | x :: (y :: _) as l' => if String.eqb x y then dedup l' else x :: dedup l'
  | _ => l
  end.

(** ** Facts *)

Lemma append_assoc (x y z : string) : (x +:+ y) +:+ z = x +:+ (y +:+ z).
Proof. induction x as [|c x IH]; [done|]. by apply (f_equal (String c)). Qed.

Lemma concat_str_app xs ys : concat_str (xs ++ ys) = concat_str xs +:+ concat_str ys.
Proof.
  induction xs as [|x xs IH]; [done|].
  change (x +:+ concat_str (xs ++ ys) = (x +:+ concat_str xs) +:+ concat_str ys).
  by rewrite IH, append_assoc.
Qed.

(** Cutting a string into characters loses nothing. *)
Lemma concat_chars s : concat_str (chars s) = s.
Proof.
  induction s as [|c s IH]; cbn; [done|].
  destruct (chars s) as [|[|d w] ws] eqn:Hc; cbn in *; [by rewrite <-IH|..].
  - by rewrite <-IH.
  - destruct (is_cont_ascii d); cbn; by rewrite <-IH.
Qed.

Lemma char_count_length s : (char_count s ≤ String.length s)%nat.
Proof.
  unfold char_count. induction s as [|c s IH]; cbn; [done|].
  destruct (chars s) as [|[|d w] ws]; cbn in *; [lia|lia|].
  destruct (is_cont_ascii d); cbn; lia.
Qed.

Lemma append_cons c (x y : string) : String c x +:+ y = String c (x +:+ y).
Proof. done. Qed.

Lemma append_nil (y : string) : EmptyString +:+ y = y.
Proof. done. Qed.

Lemma strip_prefix_Some p s r : strip_prefix p s = Some r ↔ s = p +:+ r.
Proof.
  revert s. induction p as [|a p IH]; intros s.
  { rewrite append_nil. by split; [intros [= ->]|intros ->]. }
  rewrite append_cons. destruct s as [|c s]; [by split|].
  cbn [strip_prefix]. destruct (Ascii.eqb_spec a c) as [->|Hne].
  - rewrite IH. split; [by intros ->|by intros [= ->]].
  - split; [done|]. intros [= -> _]. done.
Qed.

Lemma starts_with_spec s p : starts_with s p = true ↔ ∃ r, s = p +:+ r.
Proof.
  unfold starts_with. destruct (strip_prefix p s) as [r|] eqn:H.
  - split; [|done]. intros _. exists r. by apply strip_prefix_Some.
  - split; [done|]. intros [r Hr%strip_prefix_Some]. congruence.
Qed.

Lemma strip_suffix_char_cons c d s :
  s ≠ EmptyString → strip_suffix_char c (String d s) = String d <$> strip_suffix_char c s.
Proof. by destruct s. Qed.

Lemma strip_suffix_char_Some c s r :
  strip_suffix_char c s = Some r ↔ s = r +:+ String c EmptyString.
Proof.
  revert r. induction s as [|d s IH]; intros r; [by destruct r|].
  destruct (decide (s = EmptyString)) as [->|Hs].
  - cbn [strip_suffix_char]. destruct (Ascii.eqb_spec c d) as [->|Hne].
    + split; [by intros [= <-]|]. destruct r as [|f r]; [done|].
      rewrite append_cons. intros [= _ Hr]. by destruct r.
    + split; [done|]. destruct r as [|f r]; rewrite ?append_nil, ?append_cons.
      * by intros [= ->].
      * intros [= _ Hr]. by destruct r.
  - rewrite strip_suffix_char_cons, fmap_Some by done. split.
    + intros (q & Hq%IH & ->). by rewrite append_cons, <-Hq.
    + destruct r as [|f r]; rewrite ?append_nil, ?append_cons; [by intros [= -> ->]|].
      intros [= -> Hr%IH]. by exists r.
Qed.

(** Two ways to cut one string. *)
Lemma append_eq_cases (p r q s : string) :
  p +:+ r = q +:+ s →
  (∃ x, p = q +:+ x ∧ s = x +:+ r) ∨ (∃ x, q = p +:+ x ∧ r = x +:+ s).
Proof.
  revert q. induction p as [|c p IH]; intros q; rewrite ?append_nil, ?append_cons; intros H.
  - right. by exists q.
  - destruct q as [|d q]; rewrite ?append_nil, ?append_cons in *.
    + left. by exists (String c p).
    + injection H as -> H. destruct (IH _ H) as [(x & -> & ->)|(x & -> & ->)].
      * left. by exists x.
      * right. by exists x.
Qed.

Lemma append_empty_r (s : string) : s +:+ EmptyString = s.
Proof. induction s as [|c s IH]; [done|]. by rewrite append_cons, IH. Qed.

Lemma append_inv_head (p x y : string) : p +:+ x = p +:+ y → x = y.
Proof. induction p as [|c p IH]; [done|]. rewrite !append_cons. intros [= ?]. auto. Qed.

Lemma dedup_cons x y l :
  dedup (x :: y :: l) = if String.eqb x y then dedup (y :: l) else x :: dedup (y :: l).
Proof. done. Qed.

Lemma elem_of_dedup x l : x ∈ dedup l ↔ x ∈ l.
Proof.
  induction l as [|y l IH]; [done|]. destruct l as [|z l]; [done|].
  rewrite dedup_cons. destruct (String.eqb_spec y z) as [->|_]; rewrite ?IH; set_solver.
Qed.

Lemma elem_of_sort_strings x l : x ∈ sort_strings l ↔ x ∈ l.
Proof. unfold sort_strings. by rewrite merge_sort_Permutation. Qed.

(** Lossy decoding leaves valid UTF-8 alone. *)
Lemma from_utf8_lossy_valid bs : utf8_valid bs = true → from_utf8_lossy bs = bs.
Proof.
  remember (length bs) as n eqn:Hn. revert bs Hn.
  induction (lt_wf n) as [n _ IH]. intros [|b0 r0] -> Hv; [done|]. cbn in Hv |- *.
  destruct (in_range 0 127 b0); [f_equal; eapply IH; [|done|done]; cbn; lia|].
  destruct (in_range 194 223 b0).
  { destruct r0 as [|b1 r1]; [done|]. apply andb_true_iff in Hv as [-> Hv].
    do 2 f_equal. eapply IH; [|done|done]. cbn; lia. }
  destruct (in_range 224 239 b0).
  { destruct r0 as [|b1 [|b2 r2]]; [done..|].
    apply andb_true_iff in Hv as [[H1 H2]%andb_true_iff Hv].
    rewrite H1, H2. do 3 f_equal. eapply IH; [|done|done]. cbn; lia. }
  destruct (in_range 240 244 b0); [|done].
  destruct r0 as [|b1 [|b2 [|b3 r3]]]; [done..|].
  apply andb_true_iff in Hv as [[[H1 H2]%andb_true_iff H3]%andb_true_iff Hv].
  rewrite H1, H2, H3. do 4 f_equal. eapply IH; [|done|done]. cbn; lia.
Qed.

Lemma string_length_app (a b : string) :
  String.length (a +:+ b) = (String.length a + String.length b)%nat.
Proof. induction a as [|c a IH]; [done|]. rewrite append_cons. cbn. by rewrite IH. Qed.

(** [find] returns the first occurrence. *)
Lemma find_rest_Some key s t :
  find_rest key s = Some t →
  ∃ a z, s = a +:+ t ∧ t = key +:+ z ∧
    ∀ a' z', s = a' +:+ (key +:+ z') → ∃ x, a' = a +:+ x ∧ t = x +:+ (key +:+ z').
Proof.
  revert t. induction s as [|c s IH]; intros t; cbn [find_rest].
  - destruct (strip_prefix key "") as [z|] eqn:Hz; [|done]. intros [= <-].
    apply strip_prefix_Some in Hz. exists "", z. split; [done|]. split; [done|].
    intros a' z' H. exists a'. done.
  - destruct (strip_prefix key (String c s)) as [z|] eqn:Hz.
    + intros [= <-]. apply strip_prefix_Some in Hz. exists "", z. split; [done|]. split; [done|].
      intros a' z' H. exists a'. done.
    + intros (a & z & -> & -> & Hfirst)%IH. exists (String c a), z. split; [done|]. split; [done|].
      intros [|d a'] z' H.
      * rewrite append_nil in H. symmetry in H. apply eq_sym, strip_prefix_Some in H. congruence.
      * rewrite append_cons in H. injection H as <- H.
        destruct (Hfirst _ _ H) as (x & -> & Hx). by exists x.
Qed.

Lemma find_rest_None key s : find_rest key s = None → ∀ a z, s ≠ a +:+ (key +:+ z).
Proof.
  induction s as [|c s IH]; cbn [find_rest]; intros H [|d a] z Heq;
    destruct (strip_prefix key _) eqn:Hz; try done;
    rewrite ?append_nil, ?append_cons in Heq.
  - apply strip_prefix_Some in Heq. congruence.
  - apply strip_prefix_Some in Heq. congruence.
  - injection Heq as _ Heq. by apply (IH H a z).
Qed.

Lemma contains_spec s p : contains s p = true ↔ ∃ a z, s = a +:+ (p +:+ z).
Proof.
  unfold contains. destruct (find_rest p s) as [t|] eqn:Hf.
  - split; [|done]. intros _. apply find_rest_Some in Hf as (a & z & -> & -> & _). by exists a, z.
  - split; [done|]. intros (a & z & Heq). by destruct (find_rest_None _ _ Hf a z).
Qed.

(** [contains] for one character. *)
Lemma contains_char_cons c d s :
  contains (String d s) (String c EmptyString) = Ascii.eqb c d || contains s (String c EmptyString).
Proof. unfold contains. cbn. destruct (Ascii.eqb c d); [done|]. by destruct s. Qed.

Lemma contains_char_app c a b :
  contains (a +:+ b) (String c EmptyString) = contains a (String c EmptyString) || contains b (String c EmptyString).
Proof.
  induction a as [|d a IH]; [done|]. by rewrite append_cons, !contains_char_cons, IH, orb_assoc.
Qed.
