(* ===== verification/RunSchema.v ===== *)
(** * The tables of durable runs

    The rows of the run tables ([crates/core/migrations], 0017, 0033, 0047 and
    0058) with the constraints SQLite enforces on them.  A status or a step
    kind is stored as text; the columns' checks admit exactly the texts of the
    Rust enums in [crates/core/src/runs.rs], so a row carries the enum itself
    and [row_to_run] and [row_to_step] are the identity. *)

From S2P Require Import Prelude.

(** ** Statuses *)

Inductive RunStatus : Type :=
| RunPending
| RunRunning
| RunWaiting
| RunCompleted
| RunFailed
| RunCancelled.

#[global] Instance RunStatus_eq_dec : EqDecision RunStatus.
Proof. solve_decision. Defined.

(** [RunStatus::as_str] *)
Definition run_status_str (s : RunStatus) : string :=
  match s with
  | RunPending => "pending"
  | RunRunning => "running"
  | RunWaiting => "waiting"
  | RunCompleted => "completed"
  | RunFailed => "failed"
  | RunCancelled => "cancelled"
  end.

(** [RunStatus::parse] *)
Definition run_status_parse (v : string) : option RunStatus :=
  if String.eqb v "pending" then Some RunPending
  else if String.eqb v "running" then Some RunRunning
  else if String.eqb v "waiting" then Some RunWaiting
  else if String.eqb v "completed" then Some RunCompleted
  else if String.eqb v "failed" then Some RunFailed
  else if String.eqb v "cancelled" then Some RunCancelled
  else None.

Inductive RunStepKind : Type :=
| ModelRequest
| DeterministicCompute
| ToolDispatch
| ApprovalWait
| OutboxEnqueue
| ChildRunSpawn
| ChildRunJoin
| ArtifactPublish.

#[global] Instance RunStepKind_eq_dec : EqDecision RunStepKind.
Proof. solve_decision. Defined.

(** [RunStepKind::as_str] *)
Definition step_kind_str (k : RunStepKind) : string :=
  match k with
  | ModelRequest => "model_request"
  | DeterministicCompute => "deterministic_compute"
  | ToolDispatch => "tool_dispatch"
  | ApprovalWait => "approval_wait"
  | OutboxEnqueue => "outbox_enqueue"
  | ChildRunSpawn => "child_run_spawn"
  | ChildRunJoin => "child_run_join"
  | ArtifactPublish => "artifact_publish"
  end.

(** [RunStepKind::parse] *)
Definition step_kind_parse (v : string) : option RunStepKind :=
  if String.eqb v "model_request" then Some ModelRequest
  else if String.eqb v "deterministic_compute" then Some DeterministicCompute
  else if String.eqb v "tool_dispatch" then Some ToolDispatch
  else if String.eqb v "approval_wait" then Some ApprovalWait
  else if String.eqb v "outbox_enqueue" then Some OutboxEnqueue
  else if String.eqb v "child_run_spawn" then Some ChildRunSpawn
  else if String.eqb v "child_run_join" then Some ChildRunJoin
  else if String.eqb v "artifact_publish" then Some ArtifactPublish
  else None.

Inductive RunStepStatus : Type :=
| StepPending
| StepRunning
| StepWaiting
| StepCompleted
| StepFailed.

#[global] Instance RunStepStatus_eq_dec : EqDecision RunStepStatus.
Proof. solve_decision. Defined.

(** [RunStepStatus::as_str] *)
Definition step_status_str (s : RunStepStatus) : string :=
  match s with
  | StepPending => "pending"
  | StepRunning => "running"
  | StepWaiting => "waiting"
  | StepCompleted => "completed"
  | StepFailed => "failed"
  end.

(** [RunStepStatus::parse] *)
Definition step_status_parse (v : string) : option RunStepStatus :=
  if String.eqb v "pending" then Some StepPending
  else if String.eqb v "running" then Some StepRunning
  else if String.eqb v "waiting" then Some StepWaiting
  else if String.eqb v "completed" then Some StepCompleted
  else if String.eqb v "failed" then Some StepFailed
  else None.

(** ** Rows *)

(** [state_runs], primary key [run_id]. *)
Record RunRecord : Type := mkRun {
  run_id : string;
  run_conversation_id : string;
  run_parent : option string;
  run_status : RunStatus;
  run_cursor : Z;
  run_input_event_seq : Z;
  run_started_at : Z;
  run_updated_at : Z;
  run_deadline_at : option Z
}.

#[global] Instance RunRecord_eq_dec : EqDecision RunRecord.
Proof. solve_decision. Defined.

(** [status IN ('pending', 'running', 'waiting')] *)
Definition run_active (r : RunRecord) : bool :=
  match run_status r with
  | RunPending | RunRunning | RunWaiting => true
  | RunCompleted | RunFailed | RunCancelled => false
  end.

(** [CHECK(cursor >= 0)], [CHECK(input_event_seq > 0)] *)
Definition run_check (r : RunRecord) : bool :=
  (0 <=? run_cursor r) && (0 <? run_input_event_seq r).

(** [state_run_steps], primary key [(run_id, step_id)]. *)
Record RunStepRecord : Type := mkStep {
  st_run_id : string;
  st_step_id : string;
  st_ordinal : Z;
  st_kind : RunStepKind;
  st_status : RunStepStatus;
  st_attempt : Z;
  st_input_hash : string;
  st_output_ref : option string;
  st_approval_id : option string;
  st_outbox_key : option string;
  st_lease_owner : option string;
  st_lease_expires_at : option Z;
  st_started_at : option Z;
  st_completed_at : option Z
}.

#[global] Instance RunStepRecord_eq_dec : EqDecision RunStepRecord.
Proof. solve_decision. Defined.

(** [status IN ('pending', 'running', 'waiting')] and
    [status IN ('completed', 'failed')] *)
Definition step_open (s : RunStepRecord) : bool :=
  match st_status s with
  | StepPending | StepRunning | StepWaiting => true
  | StepCompleted | StepFailed => false
  end.

(** The row checks of [state_run_steps]. *)
Definition step_check (s : RunStepRecord) : bool :=
  (0 <=? st_ordinal s) && (0 <=? st_attempt s)
  && eqb (bool_decide (st_lease_owner s = None)) (bool_decide (st_lease_expires_at s = None))
  && eqb (bool_decide (st_status s = StepRunning)) (bool_decide (is_Some (st_lease_owner s)))
  && eqb (step_open s) (bool_decide (st_completed_at s = None)).

(** The primary key, [UNIQUE(run_id, ordinal)] and the two partial unique
    indexes. *)
Definition step_pk (s : RunStepRecord) : string * string := (st_run_id s, st_step_id s).
Definition step_slot (s : RunStepRecord) : string * Z := (st_run_id s, st_ordinal s).

Definition steps_unique (l : list RunStepRecord) : Prop :=
  NoDup (map step_pk l) ∧ NoDup (map step_slot l) ∧
  NoDup (omap st_approval_id l) ∧ NoDup (omap st_outbox_key l).

(** What SQLite guarantees of the table after every statement. *)
Definition steps_ok (l : list RunStepRecord) : Prop :=
  Forall (λ s, step_check s = true) l ∧ steps_unique l.

#[global] Instance steps_ok_dec l : Decision (steps_ok l).
Proof. unfold steps_ok, steps_unique. apply _. Defined.

(** [state_run_inference_attempts], primary key [(run_id, step_id, attempt_no)]. *)
Inductive AttemptStatus : Type := AttemptStarted | AttemptRetrying | AttemptSucceeded | AttemptFailed.

#[global] Instance AttemptStatus_eq_dec : EqDecision AttemptStatus.
Proof. solve_decision. Defined.

Record AttemptRow : Type := mkAttempt {
  at_run_id : string;
  at_step_id : string;
  at_no : Z;
  at_status : AttemptStatus;
  at_error_class : option string;
  at_started_at : Z;
  at_finished_at : option Z
}.

#[global] Instance AttemptRow_eq_dec : EqDecision AttemptRow.
Proof. solve_decision. Defined.

(** [state_run_child_budgets], primary key [parent_run_id]. *)
Record ChildBudgetRow : Type := mkChildBudget {
  cb_token_limit : Z;
  cb_tokens_reserved : Z;
  cb_time_limit_ms : Z;
  cb_time_reserved_ms : Z;
  cb_retry_limit : Z;
  cb_retries_reserved : Z;
  cb_effect_limit : Z;
  cb_effects_reserved : Z;
  cb_updated_at : Z
}.

#[global] Instance ChildBudgetRow_eq_dec : EqDecision ChildBudgetRow.
Proof. solve_decision. Defined.

(** [state_run_child_tasks], primary key [child_run_id]. *)
Record ChildTaskRow : Type := mkChildTask {
  ck_child_run_id : string;
  ck_parent_run_id : string;
  ck_task_json : string;
  ck_task_hash : string;
  ck_trust_ceiling_json : string;
  ck_budget_tokens : Z;
  ck_tokens_used : option Z;
  ck_budget_time_ms : Z;
  ck_time_used_ms : option Z;
  ck_budget_retries : Z;
  ck_retries_used : option Z;
  ck_budget_effects : Z;
  ck_effects_used : option Z;
  ck_dependencies_json : string;
  ck_result_artifact_id : option string;
  ck_budget_settled : bool;
  ck_created_at : Z;
  ck_updated_at : Z
}.

#[global] Instance ChildTaskRow_eq_dec : EqDecision ChildTaskRow.
Proof. solve_decision. Defined.

(** [state_run_execution_budgets], primary key [run_id]. *)
Record ExecutionBudgetRow : Type := mkExecBudget {
  eb_time_limit_ms : Z;
  eb_deadline_at_ms : Z;
  eb_retry_limit : Z;
  eb_retries_used : Z;
  eb_effect_limit : Z;
  eb_effects_used : Z;
  eb_updated_at_ms : Z
}.

#[global] Instance ExecutionBudgetRow_eq_dec : EqDecision ExecutionBudgetRow.
Proof. solve_decision. Defined.

Record RunTables : Type := mkRunTables {
  run_steps : list RunStepRecord;
  inference_attempts : list AttemptRow;
  child_budgets : gmap string ChildBudgetRow;
  child_tasks : list ChildTaskRow;
  execution_budgets : gmap string ExecutionBudgetRow;
  (** [state_run_effect_claims], primary key [(run_id, step_id)] *)
  effect_claims : gmap (string * string) Z
}.

Definition empty_run_tables : RunTables := mkRunTables [] [] ∅ [] ∅ ∅.

Definition set_run_steps (f : list RunStepRecord → list RunStepRecord) (t : RunTables) : RunTables :=
  mkRunTables (f (run_steps t)) (inference_attempts t) (child_budgets t) (child_tasks t)
    (execution_budgets t) (effect_claims t).

Definition set_attempts (f : list AttemptRow → list AttemptRow) (t : RunTables) : RunTables :=
  mkRunTables (run_steps t) (f (inference_attempts t)) (child_budgets t) (child_tasks t)
    (execution_budgets t) (effect_claims t).

Definition set_child_budgets (f : gmap string ChildBudgetRow → gmap string ChildBudgetRow)
    (t : RunTables) : RunTables :=
  mkRunTables (run_steps t) (inference_attempts t) (f (child_budgets t)) (child_tasks t)
    (execution_budgets t) (effect_claims t).

Definition set_child_tasks (f : list ChildTaskRow → list ChildTaskRow) (t : RunTables) : RunTables :=
  mkRunTables (run_steps t) (inference_attempts t) (child_budgets t) (f (child_tasks t))
    (execution_budgets t) (effect_claims t).

Definition set_execution_budgets
    (f : gmap string ExecutionBudgetRow → gmap string ExecutionBudgetRow) (t : RunTables) : RunTables :=
  mkRunTables (run_steps t) (inference_attempts t) (child_budgets t) (child_tasks t)
    (f (execution_budgets t)) (effect_claims t).

Definition set_effect_claims (f : gmap (string * string) Z → gmap (string * string) Z)
    (t : RunTables) : RunTables :=
  mkRunTables (run_steps t) (inference_attempts t) (child_budgets t) (child_tasks t)
    (execution_budgets t) (f (effect_claims t)).

(** ** The stored texts *)

Lemma run_status_roundtrip s : run_status_parse (run_status_str s) = Some s.
Proof. by destruct s. Qed.
Lemma step_kind_roundtrip k : step_kind_parse (step_kind_str k) = Some k.
Proof. by destruct k. Qed.
Lemma step_status_roundtrip s : step_status_parse (step_status_str s) = Some s.
Proof. by destruct s. Qed.
