(* ===== verification/Schema.v ===== *)
(** * The tables the control plane shares

    The rows of the SQLite tables the event log, the outbox and the ownership
    store read and write ([crates/core/migrations]), as one state record.
    A table whose rows are read back in key order is a list kept in that
    order; a table accessed by its primary key is a map. *)

From S2P Require Import Prelude Wire RunSchema.

(** [state_events], primary key [(conversation_id, seq)]; the conversation is
    the key of the map in [Db]. *)
Record EventRow : Type := mkEventRow {
  ev_seq : Z;
  ev_kind : string;
  ev_payload : bytes;
  ev_committed_at : Z;
  ev_actor : option string;
  ev_tag : option bytes;
  ev_key_id : Z;
  ev_integrity_version : Z;
  ev_prev_tag : option bytes
}.

(** [state_event_integrity_heads], primary key [conversation_id]. *)
Record IntegrityHead : Type := mkHead {
  chain_start_seq : Z;
  head_seq : Z;
  head_tag : bytes;
  genesis_key_id : Z;
  head_key_id : Z;
  checkpoint_tag : bytes
}.

(** [state_outbox], primary key [id] (autoincrement), unique [idempotency_key]. *)
Record OutboxDbRow : Type := mkOutboxDbRow {
  ob_id : Z;
  ob_idempotency_key : string;
  ob_conversation_id : string;
  ob_effect_kind : string;
  ob_payload : bytes;
  ob_status : string;
  ob_attempts : Z;
  ob_next_attempt_at : option Z;
  ob_last_error : option string;
  ob_enqueued_seq : Z;
  ob_lease_owner : option string;
  ob_lease_expires_at : option Z;
  ob_ownership_scope_key : option string;
  ob_ownership_generation : option Z
}.

(** [state_outbox_delivery_events], append-only, primary key autoincrement. *)
Record DeliveryRow : Type := mkDelivery {
  de_outbox_id : Z;
  de_transition : string;
  de_occurred_at : Z;
  de_attempt : Z;
  de_detail : option string;
  de_external_receipt : option string;
  de_actor : option string
}.

(** [state_agent_ownership], primary key [scope_key]. *)
Record OwnershipRow : Type := mkOwnership {
  ow_conversation_id : string;
  ow_owner_kind : string;
  ow_agent_id : option string;
  ow_previous_agent_id : option string;
  ow_generation : Z;
  ow_updated_at : Z
}.

(** [state_agent_handoff_events], append-only, primary key
    [(scope_key, generation, event_id)]. *)
Record HandoffRow : Type := mkHandoff {
  ho_scope_key : string;
  ho_generation : Z;
  ho_event_kind : string;
  ho_event_id : string;
  ho_conversation_seq : option Z;
  ho_payload : string;
  ho_occurred_at : Z
}.

(** [state_information_label_events], append-only, primary key [event_id]; the
    rows are kept in [rowid] order. *)
Record LabelEventRow : Type := mkLabelEvent {
  le_event_id : string;
  le_subject_kind : string;
  le_subject_id : string;
  le_content_sha256 : string;
  le_operation : string;
  le_label_json : string;
  le_actor_id : string;
  le_scope : option string;
  le_created_at : Z
}.

(** [state_job_redrive_events], append-only. *)
Record RedriveRow : Type := mkRedrive {
  rd_job_kind : string;
  rd_job_id : string;
  rd_effect_identity : string;
  rd_actor : string;
  rd_reason : string;
  rd_prior_attempt : Z;
  rd_occurred_at : Z
}.

(** [state_turn_controls], primary key [control_id], unique
    [(conversation_id, client_request_id)] where the latter is set. *)
Record ControlRow : Type := mkControlRow {
  tc_control_id : string;
  tc_conversation_id : string;
  tc_turn_id : option string;
  tc_kind : string;
  tc_payload_json : string;
  tc_status : string;
  tc_acknowledgement_json : option string;
  tc_created_at : Z;
  tc_updated_at : Z;
  tc_acknowledged_at : option Z;
  tc_client_request_id : option string;
  tc_request_body_sha256 : option string
}.

(** [state_turn_control_transitions], primary key [(control_id, ordinal)]. *)
Record ControlTransitionRow : Type := mkControlTransition {
  ct_control_id : string;
  ct_ordinal : Z;
  ct_status : string;
  ct_detail_json : option string;
  ct_occurred_at : Z
}.

(** The columns of [state_conversations] a committed message updates and a
    run's label is taken from. *)
Record ConversationCols : Type := mkConversationCols {
  cv_last_seq : Z;
  cv_last_activity_at : Z;
  cv_trust_class : string
}.

Record Db : Type := mkDb {
  state_events : gmap string (list EventRow);
  integrity_heads : gmap string IntegrityHead;
  state_outbox : list OutboxDbRow;
  outbox_last_id : Z;
  delivery_events : list DeliveryRow;
  state_inbox : gmap string Z;
  agent_ownership : gmap string OwnershipRow;
  handoff_events : list HandoffRow;
  state_runs : list RunRecord;
  redrive_events : list RedriveRow;
  turn_controls : list ControlRow;
  control_transitions : list ControlTransitionRow;
  conversations : gmap string ConversationCols;
  run_tables : RunTables;
  label_events : list LabelEventRow
}.

Definition empty_db : Db := mkDb ∅ ∅ [] 0 [] ∅ ∅ [] [] [] [] [] ∅
  empty_run_tables [].

Definition set_events (f : gmap string (list EventRow) → gmap string (list EventRow)) (d : Db) : Db :=
  mkDb (f (state_events d)) (integrity_heads d) (state_outbox d) (outbox_last_id d)
    (delivery_events d) (state_inbox d) (agent_ownership d) (handoff_events d)
    (state_runs d) (redrive_events d) (turn_controls d) (control_transitions d) (conversations d)
    (run_tables d) (label_events d).

Definition set_heads (f : gmap string IntegrityHead → gmap string IntegrityHead) (d : Db) : Db :=
  mkDb (state_events d) (f (integrity_heads d)) (state_outbox d) (outbox_last_id d)
    (delivery_events d) (state_inbox d) (agent_ownership d) (handoff_events d)
    (state_runs d) (redrive_events d) (turn_controls d) (control_transitions d) (conversations d)
    (run_tables d) (label_events d).

Definition set_outbox (f : list OutboxDbRow → list OutboxDbRow) (d : Db) : Db :=
  mkDb (state_events d) (integrity_heads d) (f (state_outbox d)) (outbox_last_id d)
    (delivery_events d) (state_inbox d) (agent_ownership d) (handoff_events d)
    (state_runs d) (redrive_events d) (turn_controls d) (control_transitions d) (conversations d)
    (run_tables d) (label_events d).

Definition set_outbox_last_id (n : Z) (d : Db) : Db :=
  mkDb (state_events d) (integrity_heads d) (state_outbox d) n
    (delivery_events d) (state_inbox d) (agent_ownership d) (handoff_events d)
    (state_runs d) (redrive_events d) (turn_controls d) (control_transitions d) (conversations d)
    (run_tables d) (label_events d).

Definition add_delivery (r : DeliveryRow) (d : Db) : Db :=
  mkDb (state_events d) (integrity_heads d) (state_outbox d) (outbox_last_id d)
    (delivery_events d ++ [r]) (state_inbox d) (agent_ownership d) (handoff_events d)
    (state_runs d) (redrive_events d) (turn_controls d) (control_transitions d) (conversations d)
    (run_tables d) (label_events d).

Definition set_inbox (f : gmap string Z → gmap string Z) (d : Db) : Db :=
  mkDb (state_events d) (integrity_heads d) (state_outbox d) (outbox_last_id d)
    (delivery_events d) (f (state_inbox d)) (agent_ownership d) (handoff_events d)
    (state_runs d) (redrive_events d) (turn_controls d) (control_transitions d) (conversations d)
    (run_tables d) (label_events d).

Definition set_ownership (f : gmap string OwnershipRow → gmap string OwnershipRow) (d : Db) : Db :=
  mkDb (state_events d) (integrity_heads d) (state_outbox d) (outbox_last_id d)
    (delivery_events d) (state_inbox d) (f (agent_ownership d)) (handoff_events d)
    (state_runs d) (redrive_events d) (turn_controls d) (control_transitions d) (conversations d)
    (run_tables d) (label_events d).

Definition set_handoffs (f : list HandoffRow → list HandoffRow) (d : Db) : Db :=
  mkDb (state_events d) (integrity_heads d) (state_outbox d) (outbox_last_id d)
    (delivery_events d) (state_inbox d) (agent_ownership d) (f (handoff_events d))
    (state_runs d) (redrive_events d) (turn_controls d) (control_transitions d) (conversations d)
    (run_tables d) (label_events d).

Definition add_redrive (r : RedriveRow) (d : Db) : Db :=
  mkDb (state_events d) (integrity_heads d) (state_outbox d) (outbox_last_id d)
    (delivery_events d) (state_inbox d) (agent_ownership d) (handoff_events d)
    (state_runs d) (redrive_events d ++ [r]) (turn_controls d) (control_transitions d) (conversations d)
    (run_tables d) (label_events d).

Definition set_controls (f : list ControlRow → list ControlRow) (d : Db) : Db :=
  mkDb (state_events d) (integrity_heads d) (state_outbox d) (outbox_last_id d)
    (delivery_events d) (state_inbox d) (agent_ownership d) (handoff_events d)
    (state_runs d) (redrive_events d) (f (turn_controls d)) (control_transitions d) (conversations d)
    (run_tables d) (label_events d).

Definition add_control_transition (r : ControlTransitionRow) (d : Db) : Db :=
  mkDb (state_events d) (integrity_heads d) (state_outbox d) (outbox_last_id d)
    (delivery_events d) (state_inbox d) (agent_ownership d) (handoff_events d)
    (state_runs d) (redrive_events d) (turn_controls d) (control_transitions d ++ [r]) (conversations d)
    (run_tables d) (label_events d).

Definition set_conversations (f : gmap string ConversationCols → gmap string ConversationCols) (d : Db) : Db :=
  mkDb (state_events d) (integrity_heads d) (state_outbox d) (outbox_last_id d)
    (delivery_events d) (state_inbox d) (agent_ownership d) (handoff_events d)
    (state_runs d) (redrive_events d) (turn_controls d) (control_transitions d) (f (conversations d))
    (run_tables d) (label_events d).

Definition set_runs (f : list RunRecord → list RunRecord) (d : Db) : Db :=
  mkDb (state_events d) (integrity_heads d) (state_outbox d) (outbox_last_id d)
    (delivery_events d) (state_inbox d) (agent_ownership d) (handoff_events d)
    (f (state_runs d)) (redrive_events d) (turn_controls d) (control_transitions d) (conversations d)
    (run_tables d) (label_events d).

Definition set_run_tables (f : RunTables → RunTables) (d : Db) : Db :=
  mkDb (state_events d) (integrity_heads d) (state_outbox d) (outbox_last_id d)
    (delivery_events d) (state_inbox d) (agent_ownership d) (handoff_events d)
    (state_runs d) (redrive_events d) (turn_controls d) (control_transitions d) (conversations d)
    (f (run_tables d)) (label_events d).

Definition add_label_event (r : LabelEventRow) (d : Db) : Db :=
  mkDb (state_events d) (integrity_heads d) (state_outbox d) (outbox_last_id d)
    (delivery_events d) (state_inbox d) (agent_ownership d) (handoff_events d)
    (state_runs d) (redrive_events d) (turn_controls d) (control_transitions d) (conversations d)
    (run_tables d) (label_events d ++ [r]).

(** ** Event rows of one conversation *)

Definition events_of (c : string) (d : Db) : list EventRow := default [] (state_events d !! c).

(** [INSERT INTO state_events]: the rows stay ordered by [seq] and a second
    row with the same [seq] violates the primary key. *)
Fixpoint insert_event (r : EventRow) (l : list EventRow) : result DbError (list EventRow) :=
  match l with
  | [] => Ok [r]
  | x :: l' =>
      if ev_seq r <? ev_seq x then Ok (r :: l)
      else if ev_seq r =? ev_seq x then Err constraint_failed
      else match insert_event r l' with Ok l'' => Ok (x :: l'') | Err e => Err e end
  end.

Definition insert_event_row (c : string) (r : EventRow) : tx Db () := λ d,
  match insert_event r (events_of c d) with
  | Ok l => Ok ((), set_events <[c := l]> d)
  | Err e => Err e
  end.

(** [INSERT ... ON CONFLICT(conversation_id) DO UPDATE], under the table's
    checks that both tags have 32 bytes. *)
Definition upsert_head (c : string) (h : IntegrityHead) : tx Db () := λ d,
  if bool_decide (length (head_tag h) = tag_len) && bool_decide (length (checkpoint_tag h) = tag_len)
  then Ok ((), set_heads <[c := h]> d)
  else Err (Sqlite "CHECK constraint failed").

(** [seq]s strictly ascending. *)
Definition ascending (l : list EventRow) : Prop :=
  ∀ i j x y, (i < j)%nat → l !! i = Some x → l !! j = Some y → ev_seq x < ev_seq y.

Lemma ascending_nil : ascending [].
Proof. intros i j x y _. by rewrite lookup_nil. Qed.

Lemma ascending_snoc l r :
  ascending l → Forall (λ x, ev_seq x < ev_seq r) l → ascending (l ++ [r]).
Proof.
  intros Hl Hr i j x y Hij Hx Hy.
  apply lookup_app_Some in Hy as [Hy|[Hj Hy]].
  - apply lookup_app_Some in Hx as [Hx|[Hi _]]; [by apply (Hl i j)|].
    apply lookup_lt_Some in Hy. lia.
  - apply list_lookup_singleton_Some in Hy as [Hj0 <-].
    apply lookup_app_Some in Hx as [Hx|[Hi Hx]].
    + by eapply Forall_lookup_1 in Hr.
    + apply list_lookup_singleton_Some in Hx as [? _]. lia.
Qed.

Lemma insert_event_fresh r l :
  Forall (λ x, ev_seq x < ev_seq r) l → insert_event r l = Ok (l ++ [r]).
Proof.
  induction 1 as [|x l Hx _ IH]; cbn; [done|].
  destruct (Z.ltb_spec (ev_seq r) (ev_seq x)); [lia|].
  destruct (Z.eqb_spec (ev_seq r) (ev_seq x)); [lia|]. by rewrite IH.
Qed.

Lemma insert_event_duplicate r l :
  ascending l → (∃ x, x ∈ l ∧ ev_seq x = ev_seq r) → insert_event r l = Err constraint_failed.
Proof.
  intros Hasc (x & Hx & Heq). revert Hasc. induction Hx as [l|x y l Hx IH]; intros Hasc; cbn.
  - rewrite Heq, Z.ltb_irrefl, Z.eqb_refl. done.
  - assert (ev_seq y < ev_seq x) as Hlt.
    { apply list_elem_of_lookup in Hx as [i Hi]. by apply (Hasc 0%nat (S i)); [lia|..]. }
    destruct (Z.ltb_spec (ev_seq r) (ev_seq y)); [lia|].
    destruct (Z.eqb_spec (ev_seq r) (ev_seq y)); [lia|].
    rewrite IH; [done..|]. intros i j a b Hij Ha Hb. apply (Hasc (S i) (S j)); [lia|done..].
Qed.

Lemma events_of_insert c l d : events_of c (set_events <[c := l]> d) = l.
Proof. unfold events_of. cbn. by rewrite lookup_insert_eq. Qed.

Lemma events_of_insert_ne c c' l d : c ≠ c' → events_of c (set_events <[c' := l]> d) = events_of c d.
Proof. intros H. unfold events_of. cbn. by rewrite lookup_insert_ne. Qed.
#[export] Hint Rewrite events_of_insert : execlaw.

(** An insert keeps the order and adds exactly its row. *)
Lemma ascending_cons x l : ascending (x :: l) ↔ Forall (λ y, ev_seq x < ev_seq y) l ∧ ascending l.
Proof.
  split.
  - intros Hasc. split.
    + apply Forall_forall. intros y Hy. apply list_elem_of_lookup in Hy as [i Hi].
      by apply (Hasc 0%nat (S i)); [lia|..].
    + intros i j a b Hij Ha Hb. by apply (Hasc (S i) (S j)); [lia|..].
  - intros [Hall Hasc] [|i] [|j] a b Hij Ha Hb; cbn in *; [lia| |lia|].
    + simplify_eq. by eapply Forall_lookup_1 in Hall.
    + by apply (Hasc i j); [lia|..].
Qed.

Lemma insert_event_perm r l l' : insert_event r l = Ok l' → l' ≡ₚ r :: l.
Proof.
  revert l'. induction l as [|x l IH]; intros l'; cbn; [by intros [= <-]|].
  destruct (ev_seq r <? ev_seq x); [by intros [= <-]|].
  destruct (ev_seq r =? ev_seq x); [done|].
  destruct (insert_event r l) as [l''|]; [|done]. intros [= <-].
  rewrite (IH l'') by done. apply perm_swap.
Qed.

Lemma insert_event_ascending r l l' : ascending l → insert_event r l = Ok l' → ascending l'.
Proof.
  revert l'. induction l as [|x l IH]; intros l'; cbn.
  - intros _ [= <-]. apply ascending_cons. split; [constructor|apply ascending_nil].
  - intros [Hall Hasc]%ascending_cons. destruct (Z.ltb_spec (ev_seq r) (ev_seq x)).
    { intros [= <-]. rewrite !ascending_cons. split_and!; [|done..].
      constructor; [done|]. eapply Forall_impl; [exact Hall|]. cbn. lia. }
    destruct (Z.eqb_spec (ev_seq r) (ev_seq x)); [done|].
    destruct (insert_event r l) as [l''|] eqn:Hi; [|done]. intros [= <-].
    apply ascending_cons. split; [|by apply IH].
    rewrite (insert_event_perm _ _ _ Hi). constructor; [lia|done].
Qed.
