(* ===== verification/EventLog.v ===== *)
(** * The event log

    [crates/core/src/events.rs]: payload envelopes, the key ring, the v1 row
    tags, the v2 hash chain with its signed checkpoint, append, commit,
    replay, snapshots and the maintenance passes.  This file holds the
    definitions and the facts about single operations; [Chain.v] and
    [Commit.v] hold the theorems. *)

From stdpp Require Import sorting.
From S2P Require Import Prelude Wire Text EventKind EventHmac RunSchema Schema.

(** ** Payload envelopes *)

Definition VERSIONED_PAYLOAD_MAGIC : bytes := as_bytes "EXECLAW-EVENT" ++ [nul].

(** [EventPayloadSchemaId::current] and [::legacy]. *)
Definition schema_current (_ : EventKind) : string := "execlaw.event_payload.v1".
Definition schema_legacy (_ : EventKind) : string := "execlaw.event_payload.legacy".

(** [encode_versioned_payload], after the MessagePack encoding of the body. *)
Definition encode_versioned_payload (kind : EventKind) (body : result string bytes)
    : result DbError bytes :=
  match body with
  | Err e => Err (Serde ("encoding event payload: " +:+ e))
  | Ok body =>
      let schema_bytes := as_bytes (schema_current kind) in
      if vec_len schema_bytes <=? 65535
      then Ok (VERSIONED_PAYLOAD_MAGIC ++ u16_le (vec_len schema_bytes) ++ schema_bytes ++ body)
      else Err (Serde "event payload schema id is too long")
  end.

Definition bytes_start_with (p bs : bytes) : bool := bool_decide (take (length p) bs = p).

(** [decode_versioned_payload] *)
Definition decode_versioned_payload (kind : EventKind) (payload : bytes)
    : result DbError (string * bytes) :=
  if negb (bytes_start_with VERSIONED_PAYLOAD_MAGIC payload)
  then Ok (schema_legacy kind, payload)
  else
    let header := length VERSIONED_PAYLOAD_MAGIC in
    if (length payload <? header + 2)%nat
    then Err (Serde "truncated event payload schema header")
    else
      let schema_len := Z.to_nat (le_value (take 2 (drop header payload))) in
      let body_start := (header + 2 + schema_len)%nat in
      if (length payload <? body_start)%nat
      then Err (Serde "truncated event payload schema id")
      else
        let schema := take schema_len (drop (header + 2) payload) in
        if negb (utf8_valid schema)
        then Err (Serde "event payload schema id is not UTF-8")
        else if bool_decide (schema = as_bytes (schema_current kind))
        then Ok (schema_current kind, drop body_start payload)
        else Err (Serde ("unsupported required event payload schema '"
                         +:+ String.string_of_list_byte schema +:+ "' for kind '"
                         +:+ as_str kind +:+ "' (reader supports '"
                         +:+ schema_current kind +:+ "')")).

(** ** Records *)

Record EventRecord : Type := mkEvent {
  er_conversation_id : string;
  er_seq : Z;
  er_kind : EventKind;
  er_payload : bytes;
  er_committed_at : Z;
  er_actor : option string
}.

Record PendingEvent : Type := mkPending {
  pe_kind : EventKind;
  pe_payload : bytes;
  pe_actor : option string
}.

(** [EventSeq::next] *)
Definition next_seq (s : Z) : Z := i64_add s 1.

Record ToolUsePayload (V : Type) : Type := mkToolUse {
  tu_ordinal : Z;
  tu_tool_name : string;
  tu_args_json : V
}.
Arguments mkToolUse {V}.
Arguments tu_ordinal {V}.

Record ToolResultPayload (V : Type) : Type := mkToolResult {
  tr_ordinal : Z;
  tr_outcome : result string V
}.
Arguments mkToolResult {V}.
Arguments tr_ordinal {V}.
Arguments tr_outcome {V}.

(** The MessagePack codec (rmp-serde) for the two payloads the log decodes,
    over the JSON values of serde_json. *)
Class MsgPack (V : Type) : Type := {
  to_vec_tool_result : ToolResultPayload V → result string bytes;
  from_slice_tool_use : bytes → result string (ToolUsePayload V);
  from_slice_tool_result : bytes → result string (ToolResultPayload V)
}.

(** Decoding an encoded tool result gives it back. *)
Class MsgPackLaws (V : Type) `{MsgPack V} : Prop :=
  tool_result_roundtrip : ∀ p bs,
    to_vec_tool_result p = Ok bs → from_slice_tool_result bs = Ok p.

(** [decode_payload_bytes] at the two payload types. *)
Definition decode_tool_use {V} `{MsgPack V} (kind : EventKind) (payload : bytes)
    : result DbError (ToolUsePayload V) :=
  match decode_versioned_payload kind payload with
  | Err e => Err e
  | Ok (_, body) =>
      match from_slice_tool_use body with
      | Ok p => Ok p
      | Err e => Err (Serde ("decoding event payload: " +:+ e))
      end
  end.

Definition decode_tool_result {V} `{MsgPack V} (kind : EventKind) (payload : bytes)
    : result DbError (ToolResultPayload V) :=
  match decode_versioned_payload kind payload with
  | Err e => Err e
  | Ok (_, body) =>
      match from_slice_tool_result body with
      | Ok p => Ok p
      | Err e => Err (Serde ("decoding event payload: " +:+ e))
      end
  end.

(** One row as loaded for verification. *)
Record IntegrityRow : Type := mkIntegrityRow {
  ir_event : EventRecord;
  ir_tag : option bytes;
  ir_key_id : Z;
  ir_integrity_version : Z;
  ir_prev_tag : option bytes
}.

(** ** The key ring *)

Record KeyRing : Type := mkKeyRing {
  keys : gmap Z bytes;
  current_id : Z
}.

Definition kr_single (id : Z) (key : bytes) : KeyRing := mkKeyRing {[id := key]} id.
Definition kr_add (r : KeyRing) (id : Z) (key : bytes) : KeyRing :=
  mkKeyRing (<[id := key]> (keys r)) (current_id r).
Definition kr_set_current (r : KeyRing) (id : Z) : result DbError KeyRing :=
  match keys r !! id with
  | None => Err (Config ("key_ring: key_id " +:+ pretty id +:+ " is not registered"))
  | Some _ => Ok (mkKeyRing (keys r) id)
  end.
Definition kr_rotate (r : KeyRing) (new_id : Z) (new_key : bytes) : Z * KeyRing :=
  (current_id r, mkKeyRing (<[new_id := new_key]> (keys r)) new_id).
Definition key_for (r : KeyRing) (id : Z) : option bytes := keys r !! id.
Definition current_key (r : KeyRing) : option bytes := keys r !! current_id r.

(** ** Verification *)

Section Log.
Context `{Hmac}.

Definition tamper (msg : string) : DbError := TamperDetected msg.

(** [EventLog::fixed_tag] *)
Definition fixed_tag (bs : bytes) (context : string) : result DbError bytes :=
  if bool_decide (length bs = tag_len) then Ok bs
  else Err (tamper (context +:+ " has malformed tag (len " +:+ pretty (vec_len bs) +:+ ")")).

(** [EventLog::v1_canonical] *)
Definition v1_canonical (ev : EventRecord) : bytes :=
  canonical_bytes (er_conversation_id ev) (er_seq ev) (as_str (er_kind ev))
    (er_committed_at ev) (er_actor ev) (er_payload ev).

(** One legacy row inside the genesis anchor. *)
Definition legacy_row_bytes (row : IntegrityRow) : bytes :=
  v1_canonical (ir_event row) ++ i64_le (ir_key_id row) ++
  match ir_tag row with
  | Some tag => sized tag
  | None => u64_le 0
  end.

Definition is_version (v : Z) (row : IntegrityRow) : bool := ir_integrity_version row =? v.

(** [EventLog::legacy_genesis_canonical] *)
Definition legacy_genesis_canonical (c : string) (start : Z) (rows : list IntegrityRow) : bytes :=
  canonical_genesis c start (map legacy_row_bytes (List.filter (is_version 1) rows)).

(** [EventLog::load_integrity_rows] and [::load_integrity_head] *)
Definition load_row (c : string) (r : EventRow) : IntegrityRow :=
  mkIntegrityRow
    (mkEvent c (ev_seq r) (parse (ev_kind r)) (ev_payload r) (ev_committed_at r) (ev_actor r))
    (ev_tag r) (ev_key_id r) (ev_integrity_version r) (ev_prev_tag r).

Definition load_integrity_rows (c : string) (d : Db) : list IntegrityRow :=
  map (load_row c) (events_of c d).
Definition load_integrity_head (c : string) (d : Db) : option IntegrityHead :=
  integrity_heads d !! c.

Definition ev_name (c : string) (seq : Z) : string := "event " +:+ c +:+ ":" +:+ pretty seq.

(** [EventLog::verify] *)
Definition verify (kr : option KeyRing) (ev : EventRecord) (tag : option bytes) (key_id : Z)
    : result DbError () :=
  match kr with
  | None => Ok ()
  | Some ring =>
      match tag with
      | None => Ok ()
      | Some tag_bytes =>
          match key_for ring key_id with
          | None => Err (tamper (ev_name (er_conversation_id ev) (er_seq ev) +:+
              " signed with key_id " +:+ pretty key_id +:+ " that isn't in the ring"))
          | Some key =>
              if negb (bool_decide (length tag_bytes = tag_len))
              then Err (tamper (ev_name (er_conversation_id ev) (er_seq ev) +:+
                " has malformed tag (len " +:+ pretty (vec_len tag_bytes) +:+ ")"))
              else if verify_event key (v1_canonical ev) tag_bytes then Ok ()
              else Err (tamper (ev_name (er_conversation_id ev) (er_seq ev) +:+
                " failed HMAC verification"))
          end
      end
  end.

Fixpoint verify_legacy (kr : option KeyRing) (rows : list IntegrityRow) : result DbError () :=
  match rows with
  | [] => Ok ()
  | row :: rows =>
      match verify kr (ir_event row) (ir_tag row) (ir_key_id row) with
      | Err e => Err e
      | Ok _ => verify_legacy kr rows
      end
  end.

(** The loop over the v2 rows: [expected_prev] and [expected_seq] at its end. *)
Fixpoint verify_chain (ring : KeyRing) (c : string) (rows : list IntegrityRow)
    (expected_prev : bytes) (expected_seq : Z) : result DbError (bytes * Z) :=
  match rows with
  | [] => Ok (expected_prev, expected_seq)
  | row :: rows =>
      let ev := ir_event row in
      if negb (er_seq ev =? expected_seq)
      then Err (tamper ("conversation " +:+ c +:+ " v2 sequence expected " +:+ pretty expected_seq
                        +:+ ", found " +:+ pretty (er_seq ev)))
      else match ir_prev_tag row with
      | None => Err (tamper (ev_name c (er_seq ev) +:+ " is v2 but has no prev_tag"))
      | Some stored_prev =>
          match fixed_tag stored_prev "event prev_tag" with
          | Err e => Err e
          | Ok stored_prev =>
              if negb (bool_decide (stored_prev = expected_prev))
              then Err (tamper (ev_name c (er_seq ev) +:+ " breaks the v2 predecessor chain"))
              else match ir_tag row with
              | None => Err (tamper (ev_name c (er_seq ev) +:+ " is v2 but has no tag"))
              | Some tag =>
                  match fixed_tag tag "event tag" with
                  | Err e => Err e
                  | Ok tag =>
                      match key_for ring (ir_key_id row) with
                      | None => Err (tamper (ev_name c (er_seq ev) +:+
                          " signed with unknown key_id " +:+ pretty (ir_key_id row)))
                      | Some key =>
                          let canonical :=
                            canonical_chain_event (v1_canonical ev) (ir_key_id row) stored_prev in
                          if negb (verify_event key canonical tag)
                          then Err (tamper (ev_name c (er_seq ev) +:+ " failed v2 HMAC verification"))
                          else verify_chain ring c rows tag (i64_add expected_seq 1)
                      end
                  end
              end
          end
      end
  end.

(** [EventLog::verify_integrity] *)
Definition verify_integrity (kr : option KeyRing) (c : string) (rows : list IntegrityRow)
    (head : option IntegrityHead) : result DbError () :=
  match kr with
  | None => Ok ()
  | Some ring =>
      match verify_legacy kr (List.filter (is_version 1) rows) with
      | Err e => Err e
      | Ok _ =>
          let v2_rows := List.filter (is_version 2) rows in
          match head with
          | None =>
              match v2_rows with
              | [] => Ok ()
              | _ => Err (tamper ("conversation " +:+ c +:+ " has v2 events but no integrity checkpoint"))
              end
          | Some head =>
              if chain_start_seq head <? 1
              then Err (tamper ("conversation " +:+ c +:+ " has invalid chain start "
                                +:+ pretty (chain_start_seq head)))
              else match key_for ring (genesis_key_id head) with
              | None => Err (tamper ("conversation " +:+ c +:+ " genesis uses unknown key_id "
                                     +:+ pretty (genesis_key_id head)))
              | Some genesis_key =>
                  let genesis := sign_event genesis_key
                    (legacy_genesis_canonical c (chain_start_seq head) rows) in
                  match verify_chain ring c v2_rows genesis (chain_start_seq head) with
                  | Err e => Err e
                  | Ok (expected_prev, expected_seq) =>
                      match fixed_tag (head_tag head) "integrity head" with
                      | Err e => Err e
                      | Ok stored_head =>
                          if negb (head_seq head =? i64_sub expected_seq 1) ||
                             negb (bool_decide (stored_head = expected_prev))
                          then Err (tamper ("conversation " +:+ c +:+
                            " terminal checkpoint does not match event tail"))
                          else match key_for ring (head_key_id head) with
                          | None => Err (tamper ("conversation " +:+ c +:+
                              " checkpoint uses unknown key_id " +:+ pretty (head_key_id head)))
                          | Some checkpoint_key =>
                              match fixed_tag (checkpoint_tag head) "checkpoint tag" with
                              | Err e => Err e
                              | Ok checkpoint =>
                                  let canonical := canonical_checkpoint c (chain_start_seq head)
                                    (head_seq head) stored_head (genesis_key_id head)
                                    (head_key_id head) in
                                  if negb (verify_event checkpoint_key canonical checkpoint)
                                  then Err (tamper ("conversation " +:+ c +:+
                                    " checkpoint signature is invalid"))
                                  else Ok ()
                              end
                          end
                      end
                  end
              end
          end
      end
  end.

(** ** Checkpoints *)

Definition last_seq_of_rows (rows : list IntegrityRow) : Z :=
  match last rows with Some row => er_seq (ir_event row) | None => 0 end.

Definition require_ring (kr : option KeyRing) : result DbError KeyRing :=
  ok_or (Config "v2 integrity checkpoints require a KeyRing") kr.

(** [EventLog::initial_integrity_head] *)
Definition initial_integrity_head (kr : option KeyRing) (c : string) (rows : list IntegrityRow)
    : result DbError IntegrityHead :=
  match require_ring kr with
  | Err e => Err e
  | Ok ring =>
      match current_key ring with
      | None => Err (Config "KeyRing has no current key")
      | Some key =>
          if existsb (λ row, negb (ir_integrity_version row =? 1)) rows
          then Err (tamper ("conversation " +:+ c +:+ " has v2 rows without a checkpoint"))
          else
            let legacy_max := last_seq_of_rows rows in
            let start := i64_add legacy_max 1 in
            let head_tag := sign_event key (legacy_genesis_canonical c start rows) in
            let checkpoint := sign_event key (canonical_checkpoint c start legacy_max head_tag
              (current_id ring) (current_id ring)) in
            Ok (mkHead start legacy_max head_tag (current_id ring) (current_id ring) checkpoint)
      end
  end.

(** [EventLog::advance_integrity_head] *)
Definition advance_integrity_head (kr : option KeyRing) (c : string)
    (start genesis_key head_seq : Z) (head_tag : bytes) : result DbError IntegrityHead :=
  match require_ring kr with
  | Err e => Err e
  | Ok ring =>
      match current_key ring with
      | None => Err (Config "KeyRing has no current key")
      | Some key =>
          let checkpoint := sign_event key (canonical_checkpoint c start head_seq head_tag
            genesis_key (current_id ring)) in
          Ok (mkHead start head_seq head_tag genesis_key (current_id ring) checkpoint)
      end
  end.

(** [EventLog::write_integrity_head] *)
Definition write_integrity_head (c : string) (h : IntegrityHead) : tx Db () := upsert_head c h.

(** The head an append or commit starts from: the stored one, verified
    against the rows, or a fresh one over the legacy prefix. *)
Definition current_head (kr : option KeyRing) (c : string) (d : Db) : result DbError IntegrityHead :=
  let rows := load_integrity_rows c d in
  match load_integrity_head c d with
  | Some head =>
      match verify_integrity kr c rows (Some head) with
      | Err e => Err e
      | Ok _ => Ok head
      end
  | None => initial_integrity_head kr c rows
  end.

(** [EventLog::establish_v2_checkpoint]; the boolean says a head was written. *)
Definition establish_v2_checkpoint (kr : option KeyRing) (c : string) : tx Db bool := λ d,
  let rows := load_integrity_rows c d in
  match load_integrity_head c d with
  | Some head =>
      match verify_integrity kr c rows (Some head) with
      | Err e => Err e
      | Ok _ => Ok (false, d)
      end
  | None =>
      match initial_integrity_head kr c rows with
      | Err e => Err e
      | Ok head => (write_integrity_head c head ;;* tx_ret true) d
      end
  end.

(** ** Append *)

(** The row of an unsigned insert: [tag = NULL], [key_id = 0] and the column
    default [integrity_version = 1]. *)
Definition unsigned_row (ev : EventRecord) : EventRow :=
  mkEventRow (er_seq ev) (as_str (er_kind ev)) (er_payload ev) (er_committed_at ev)
    (er_actor ev) None 0 1 None.

Definition chained_row (ev : EventRecord) (tag : bytes) (key_id : Z) (prev_tag : bytes) : EventRow :=
  mkEventRow (er_seq ev) (as_str (er_kind ev)) (er_payload ev) (er_committed_at ev)
    (er_actor ev) (Some tag) key_id 2 (Some prev_tag).

(** The body shared by [append] and the loop of [commit_turn]: sign [ev] as the
    successor of [head], insert it, and return the advanced head. *)
Definition append_chained (what : string) (kr : option KeyRing) (c : string)
    (ev : EventRecord) (head : IntegrityHead) : tx Db IntegrityHead :=
  if negb (er_seq ev =? i64_add (head_seq head) 1)
  then tx_err (Invariant ("v2 " +:+ what +:+ " for " +:+ c +:+ " expected seq " +:+
         pretty (i64_add (head_seq head) 1) +:+ ", got " +:+ pretty (er_seq ev)))
  else match kr with
  | None => tx_err (Config "KeyRing has no key registered for current_id")
  | Some ring =>
      match current_key ring with
      | None => tx_err (Config "KeyRing has no key registered for current_id")
      | Some key =>
          let* prev_tag := tx_lift (fixed_tag (head_tag head) "integrity head") in
          let canonical := canonical_chain_event (v1_canonical ev) (current_id ring) prev_tag in
          let tag := sign_event key canonical in
          insert_event_row c (chained_row ev tag (current_id ring) prev_tag) ;;*
          tx_lift (advance_integrity_head kr c (chain_start_seq head) (genesis_key_id head)
                     (er_seq ev) tag)
      end
  end.

(** [EventLog::append] *)
Definition append_tx (kr : option KeyRing) (ev : EventRecord) : tx Db () :=
  let c := er_conversation_id ev in
  match kr with
  | None =>
      let* d := tx_get in
      match load_integrity_head c d with
      | Some _ => tx_err (Config "a v2 conversation requires an event HMAC key for append")
      | None => insert_event_row c (unsigned_row ev)
      end
  | Some _ =>
      let* d := tx_get in
      let* head := tx_lift (current_head kr c d) in
      let* head := append_chained "append" kr c ev head in
      write_integrity_head c head
  end.

Definition append (kr : option KeyRing) (ev : EventRecord) (d : Db) : result DbError () * Db :=
  transaction (append_tx kr ev) d.

(** ** Reading *)

(** [EventLog::replay_since] *)
Definition replay_since (kr : option KeyRing) (c : string) (after_seq : Z) (d : Db)
    : result DbError (list EventRecord) :=
  let rows := load_integrity_rows c d in
  match verify_integrity kr c rows (load_integrity_head c d) with
  | Err e => Err e
  | Ok _ => Ok (map ir_event (List.filter (λ row, after_seq <? er_seq (ir_event row)) rows))
  end.

(** [EventLog::last_seq]: [MAX(seq)], 0 when there is no row. *)
Definition last_seq (c : string) (d : Db) : Z :=
  match map ev_seq (events_of c d) with
  | [] => 0
  | s :: l => foldl Z.max s l
  end.

(** ** Snapshots *)

Record Snapshot : Type := mkSnapshot {
  sn_conversation_id : string;
  sn_up_to_seq : Z;
  sn_events : list EventRecord;
  sn_built_at : Z
}.

Definition SNAPSHOT_INTERVAL : Z := 50.

(** [EventLog::build_snapshot] *)
Definition build_snapshot (kr : option KeyRing) (c : string) (up_to_seq now : Z) (d : Db)
    : result DbError Snapshot :=
  match replay_since kr c 0 d with
  | Err e => Err e
  | Ok evs => Ok (mkSnapshot c up_to_seq (List.filter (λ ev, er_seq ev <=? up_to_seq) evs) now)
  end.

(** [EventLog::should_snapshot] *)
Definition should_snapshot (last_snapshot_seq : option Z) (current_last_seq : Z) : bool :=
  SNAPSHOT_INTERVAL <=? i64_sub current_last_seq (default 0 last_snapshot_seq).

(** [EventLog::hydrate]; [decode] is [Snapshot::decode] (MessagePack). *)
Definition hydrate (decode : bytes → option Snapshot) (kr : option KeyRing) (c : string)
    (snapshot_blob : option bytes) (snapshot_seq : option Z) (d : Db)
    : result DbError (list EventRecord) :=
  match kr with
  | Some _ => replay_since kr c 0 d
  | None =>
      let '(events, after) :=
        match snapshot_blob, snapshot_seq with
        | Some blob, Some seq =>
            match decode blob with
            | Some snap =>
                if bool_decide (sn_conversation_id snap = c) && (sn_up_to_seq snap =? seq)
                then (sn_events snap, seq) else ([], 0)
            | None => ([], 0)
            end
        | _, _ => ([], 0)
        end in
      match replay_since kr c after d with
      | Err e => Err e
      | Ok tail => Ok (events ++ tail)
      end
  end.

(** ** Committing a turn *)

(** [enforce_tool_pairing]: the ordinals that have a result in the batch, then
    the batch with sequence numbers and synthesized cancellations. *)
Section Pairing.
Context {V : Type} `{MsgPack V}.

Fixpoint result_ordinals (events : list PendingEvent) : result DbError (list Z) :=
  match events with
  | [] => Ok []
  | ev :: events =>
      if bool_decide (pe_kind ev = ToolResult) then
        match decode_tool_result (V:=V) (pe_kind ev) (pe_payload ev) with
        | Err e => Err (Serde ("decoding tool_result: " +:+ display_error e))
        | Ok decoded =>
            match result_ordinals events with
            | Err e => Err e
            | Ok ordinals => Ok (tr_ordinal decoded :: ordinals)
            end
        end
      else result_ordinals events
  end.

Definition cancellation (ordinal : Z) : ToolResultPayload V :=
  mkToolResult ordinal
    (Err ("cancelled: no tool_result in same commit for ordinal " +:+ pretty ordinal)).

Fixpoint materialize (c : string) (now : Z) (results : list Z) (seq : Z) (events : list PendingEvent)
    : result DbError (list EventRecord) :=
  match events with
  | [] => Ok []
  | ev :: events =>
      if bool_decide (pe_kind ev = ToolUse) then
        match decode_tool_use (V:=V) (pe_kind ev) (pe_payload ev) with
        | Err e => Err (Serde ("decoding tool_use: " +:+ display_error e))
        | Ok parsed =>
            let use := mkEvent c seq ToolUse (pe_payload ev) now (pe_actor ev) in
            let seq := next_seq seq in
            if bool_decide (tu_ordinal parsed ∈ results) then
              match materialize c now results seq events with
              | Err e => Err e
              | Ok out => Ok (use :: out)
              end
            else
              match encode_versioned_payload ToolResult
                      (to_vec_tool_result (cancellation (tu_ordinal parsed))) with
              | Err e => Err (Serde ("encoding synthetic tool_result: " +:+ display_error e))
              | Ok payload =>
                  match materialize c now results (next_seq seq) events with
                  | Err e => Err e
                  | Ok out =>
                      Ok (use :: mkEvent c seq ToolResult payload now (Some "system") :: out)
                  end
              end
        end
      else
        match materialize c now results (next_seq seq) events with
        | Err e => Err e
        | Ok out => Ok (mkEvent c seq (pe_kind ev) (pe_payload ev) now (pe_actor ev) :: out)
        end
  end.

Definition enforce_tool_pairing (c : string) (base_seq now : Z) (events : list PendingEvent)
    : result DbError (list EventRecord) :=
  match result_ordinals events with
  | Err e => Err e
  | Ok results => materialize c now results (next_seq base_seq) events
  end.

(** *** Releasing staged transport effects *)

Definition max_user_seq (rows : list EventRow) : option Z :=
  match map ev_seq (List.filter (λ r, String.eqb (ev_kind r) "user_msg") rows) with
  | [] => None
  | s :: l => Some (foldl Z.max s l)
  end.


(** [ORDER BY started_at DESC, run_id LIMIT 1] *)
Definition run_before (r1 r2 : RunRecord) : bool :=
  (run_started_at r2 <? run_started_at r1)
  || ((run_started_at r1 =? run_started_at r2) && String.leb (run_id r1) (run_id r2)).

Definition first_run (runs : list RunRecord) : option RunRecord :=
  foldr (λ r acc, match acc with
                  | None => Some r
                  | Some r' => if run_before r r' then Some r else Some r'
                  end) None runs.

Definition active_run_source (c : string) (d : Db) : option Z :=
  run_input_event_seq <$>
    first_run (List.filter (λ r, String.eqb (run_conversation_id r) c && run_active r) (state_runs d)).

(** [IdempotencyKey::mint] and the key of a staged effect. *)
Definition mint (c : string) (turn_seq ordinal : Z) : string :=
  c +:+ ":" +:+ pretty turn_seq +:+ ":" +:+ pretty ordinal.

Definition release_row (key : string) (r : OutboxDbRow) : OutboxDbRow :=
  if String.eqb (ob_idempotency_key r) key
     && (String.eqb (ob_effect_kind r) "transport.send"
         || String.eqb (ob_effect_kind r) "transport.send_attachments")
     && String.eqb (ob_status r) "pending"
     && bool_decide (ob_next_attempt_at r = Some i64_max)
  then mkOutboxDbRow (ob_id r) (ob_idempotency_key r) (ob_conversation_id r) (ob_effect_kind r)
         (ob_payload r) (ob_status r) (ob_attempts r) None (ob_last_error r) (ob_enqueued_seq r)
         (ob_lease_owner r) (ob_lease_expires_at r) (ob_ownership_scope_key r)
         (ob_ownership_generation r)
  else r.

Definition committed_results (committed : list EventRecord) : list Z :=
  omap (λ ev, if bool_decide (er_kind ev = ToolResult)
              then match decode_tool_result (V:=V) (er_kind ev) (er_payload ev) with
                   | Ok p => Some (tr_ordinal p) | Err _ => None end
              else None) committed.

Definition committed_uses (committed : list EventRecord) : list Z :=
  omap (λ ev, if bool_decide (er_kind ev = ToolUse)
              then match decode_tool_use (V:=V) (er_kind ev) (er_payload ev) with
                   | Ok p => Some (tu_ordinal p) | Err _ => None end
              else None) committed.

(** [release_staged_transport_effects] *)
Definition release_staged_transport_effects (c : string) (committed : list EventRecord) : tx Db () := λ d,
  let source :=
    match active_run_source c d with
    | Some s => Some s
    | None => max_user_seq (events_of c d)
    end in
  match source with
  | None => Ok ((), d)
  | Some source_seq =>
      let results := committed_results committed in
      let ordinals := List.filter (λ o, bool_decide (o ∈ results)) (committed_uses committed) in
      Ok ((), foldl (λ d o, set_outbox (map (release_row (mint c source_seq o))) d) d ordinals)
  end.

(** *** The commit *)

Definition has_current_key (kr : option KeyRing) : bool :=
  match kr ≫= current_key with Some _ => true | None => false end.

Definition shift_seq (delta : Z) (ev : EventRecord) : EventRecord :=
  mkEvent (er_conversation_id ev) (i64_add (er_seq ev) delta) (er_kind ev) (er_payload ev)
    (er_committed_at ev) (er_actor ev).

Fixpoint insert_unsigned (c : string) (evs : list EventRecord) : tx Db () :=
  match evs with
  | [] => tx_ret ()
  | ev :: evs => insert_event_row c (unsigned_row ev) ;;* insert_unsigned c evs
  end.

Fixpoint append_all (kr : option KeyRing) (c : string) (evs : list EventRecord)
    (head : IntegrityHead) : tx Db IntegrityHead :=
  match evs with
  | [] => tx_ret head
  | ev :: evs =>
      let* head := append_chained "commit" kr c ev head in
      append_all kr c evs head
  end.

(** [EventLog::commit_turn_with_projection] *)
Definition commit_turn_with_projection (kr : option KeyRing) (now : Z) (c : string) (base_seq : Z)
    (events : list PendingEvent) (projection : list EventRecord → tx Db ())
    : tx Db (list EventRecord) :=
  let* materialized := tx_lift (enforce_tool_pairing c base_seq now events) in
  let has_tool_result := existsb (λ ev, bool_decide (er_kind ev = ToolResult)) materialized in
  let release evs := if has_tool_result then release_staged_transport_effects c evs else tx_ret () in
  let* d := tx_get in
  let actual_max := last_seq_of_rows (load_integrity_rows c d) in
  let delta := i64_sub actual_max base_seq in
  let materialized := if 0 <? delta then map (shift_seq delta) materialized else materialized in
  match kr with
  | None =>
      match load_integrity_head c d with
      | Some _ => tx_err (Config "a v2 conversation requires an event HMAC key for commit")
      | None =>
          insert_unsigned c materialized ;;*
          projection materialized ;;*
          release materialized ;;*
          tx_ret materialized
      end
  | Some _ =>
      let* head := tx_lift (current_head kr c d) in
      tx_guard (has_current_key kr) (Config "KeyRing has no key registered for current_id") ;;*
      let* head := append_all kr c materialized head in
      write_integrity_head c head ;;*
      projection materialized ;;*
      release materialized ;;*
      tx_ret materialized
  end.

(** [EventLog::commit_turn] *)
Definition commit_turn (kr : option KeyRing) (now : Z) (c : string) (base_seq : Z)
    (events : list PendingEvent) (d : Db) : result DbError (list EventRecord) * Db :=
  transaction (commit_turn_with_projection kr now c base_seq events (λ _, tx_ret ())) d.
End Pairing.
(** ** Scans and updates of the whole table *)

(** [SELECT DISTINCT conversation_id FROM state_events ORDER BY conversation_id] *)
Definition conversation_ids (d : Db) : list string :=
  merge_sort (λ a b, Is_true (String.leb a b))
    (map fst (List.filter (λ cr, negb (bool_decide (cr.2 = []))) (map_to_list (state_events d)))).

Definition all_rows (d : Db) : list EventRow := concat (map snd (map_to_list (state_events d))).

Definition update_rows (f : string → EventRow → EventRow) (d : Db) : Db :=
  set_events (map_imap (λ c rows, Some (map (f c) rows))) d.
End Log.
