(* ===== verification/Chain.v ===== *)
(** * The hash chain

    What [EventLog::verify_integrity] (crates/core/src/events.rs) accepts, as
    an inductive relation, and what follows from acceptance: a checkpoint tag
    determines the whole log, an append extends a verified log by exactly its
    event, and no sequence of the log's own operations is ever reported as
    tampering. *)

From stdpp Require Import sorting.
From S2P Require Import Prelude Wire Text EventKind EventHmac Schema EventLog.

Section Chain.
Context `{HmacLaws}.
Implicit Types (ring : KeyRing) (row : IntegrityRow) (rows : list IntegrityRow).

(** ** The chain as a relation

    [chained ring p s rows p' s']: [rows] continue a chain whose last tag is
    [p] and whose next sequence number is [s], up to tag [p'] and number [s']. *)
Inductive chained (ring : KeyRing) : bytes → Z → list IntegrityRow → bytes → Z → Prop :=
| chained_nil p s : chained ring p s [] p s
| chained_cons p s row tag key rows p' s' :
    er_seq (ir_event row) = s →
    ir_prev_tag row = Some p → length p = tag_len →
    ir_tag row = Some tag →
    key_for ring (ir_key_id row) = Some key →
    tag = sign_event key (canonical_chain_event (v1_canonical (ir_event row)) (ir_key_id row) p) →
    chained ring tag (i64_add s 1) rows p' s' →
    chained ring p s (row :: rows) p' s'.

Lemma fixed_tag_ok bs ctx t : fixed_tag bs ctx = Ok t ↔ t = bs ∧ length bs = tag_len.
Proof. unfold fixed_tag. case_bool_decide; split; [by intros [= ->]|by intros [-> _]|done|by intros [_ ?]]. Qed.

Lemma verify_event_true key m t : verify_event key m t = true ↔ t = sign_event key m.
Proof. unfold verify_event, sign_event. rewrite bool_decide_eq_true. by split. Qed.

Lemma length_sign_event key m : length (sign_event key m) = tag_len.
Proof. apply hmac_sha256_length. Qed.

Lemma verify_chain_spec ring c rows p s p' s' :
  verify_chain ring c rows p s = Ok (p', s') ↔ chained ring p s rows p' s'.
Proof.
  split.
  - revert p s. induction rows as [|row rows IH]; intros p s; cbn [verify_chain].
    { intros [= -> ->]. constructor. }
    destruct (Z.eqb_spec (er_seq (ir_event row)) s) as [Hs|]; cbn [negb]; [|done].
    destruct (ir_prev_tag row) as [q|] eqn:Hq; [|done].
    destruct (fixed_tag q _) as [q'|] eqn:Hf; [|done].
    apply fixed_tag_ok in Hf as [-> Hlen].
    case_bool_decide as Hqp; cbn [negb]; [subst q|done].
    destruct (ir_tag row) as [t|] eqn:Ht; [|done].
    destruct (fixed_tag t _) as [t'|] eqn:Hf; [|done].
    apply fixed_tag_ok in Hf as [-> Hlent].
    destruct (key_for ring (ir_key_id row)) as [key|] eqn:Hk; [|done].
    destruct (verify_event _ _ _) eqn:Hv; cbn [negb]; [|done].
    apply verify_event_true in Hv.
    intros Hrest. econstructor; [done..|by apply IH].
  - induction 1 as [|p s row tag key rows p' s' Hs Hp Hlen Ht Hk Hsig _ IH]; cbn [verify_chain]; [done|].
    rewrite Hs, Z.eqb_refl, Hp. cbn [negb]. unfold fixed_tag at 1.
    rewrite bool_decide_true by done. rewrite bool_decide_true by done. cbn [negb].
    rewrite Ht. unfold fixed_tag. rewrite bool_decide_true by (rewrite Hsig; apply length_sign_event).
    rewrite Hk. by rewrite (proj2 (verify_event_true _ _ _)) by done.
Qed.

Lemma chained_app ring p s rows1 rows2 p' s' :
  chained ring p s (rows1 ++ rows2) p' s' ↔
  ∃ q r, chained ring p s rows1 q r ∧ chained ring q r rows2 p' s'.
Proof.
  split.
  - revert p s. induction rows1 as [|row rows1 IH]; cbn; intros p s Hc.
    { exists p, s. split; [constructor|done]. }
    inversion Hc; subst. destruct (IH _ _ ltac:(eassumption)) as (q & r & ? & ?).
    exists q, r. split; [|done]. by econstructor.
  - intros (q & r & Hc & Hc2). induction Hc; cbn; [done|]. econstructor; eauto.
Qed.

Lemma chained_length_tag ring p s rows p' s' :
  chained ring p s rows p' s' → length p = tag_len → length p' = tag_len.
Proof. induction 1; [done|]. subst. intros _. auto using length_sign_event. Qed.

Lemma chained_end ring p s rows p' s' :
  chained ring p s rows p' s' → in_i64 s → s' = wrap_i64 (s + Z.of_nat (length rows)).
Proof.
  induction 1 as [p s|p s row tag key rows p' s' ? ? ? ? ? ? ? IH]; intros Hs.
  - by rewrite Z.add_0_r, wrap_i64_id.
  - rewrite IH by (apply wrap_i64_range). unfold i64_add. rewrite wrap_i64_add_l.
    cbn [length]. f_equal. lia.
Qed.
(** ** What a verified log looks like *)

Definition v1_rows rows : list IntegrityRow := List.filter (is_version 1) rows.
Definition v2_rows rows : list IntegrityRow := List.filter (is_version 2) rows.

(** The legacy tags check out under the ring. *)
Definition legacy_signed (ring : KeyRing) (row : IntegrityRow) : Prop :=
  match ir_tag row with
  | None => True
  | Some t => ∃ key, key_for ring (ir_key_id row) = Some key ∧
                     t = sign_event key (v1_canonical (ir_event row))
  end.

Definition genesis_of (ring : KeyRing) (c : string) rows (h : IntegrityHead) : bytes :=
  sign_event (default [] (key_for ring (genesis_key_id h)))
    (legacy_genesis_canonical c (chain_start_seq h) rows).

Definition checkpoint_message (c : string) (h : IntegrityHead) : bytes :=
  canonical_checkpoint c (chain_start_seq h) (head_seq h) (head_tag h)
    (genesis_key_id h) (head_key_id h).

Record verified (ring : KeyRing) (c : string) rows (h : IntegrityHead) : Prop := {
  vf_legacy : Forall (legacy_signed ring) (v1_rows rows);
  vf_start : 1 ≤ chain_start_seq h;
  vf_genesis_key : is_Some (key_for ring (genesis_key_id h));
  vf_chain : ∃ s', chained ring (genesis_of ring c rows h) (chain_start_seq h) (v2_rows rows)
                     (head_tag h) s' ∧ head_seq h = i64_sub s' 1;
  vf_checkpoint : ∃ key, key_for ring (head_key_id h) = Some key ∧
                     checkpoint_tag h = sign_event key (checkpoint_message c h)
}.

Lemma verify_ok ring row :
  verify (Some ring) (ir_event row) (ir_tag row) (ir_key_id row) = Ok () ↔ legacy_signed ring row.
Proof.
  unfold verify, legacy_signed. destruct (ir_tag row) as [t|]; [|done].
  destruct (key_for ring (ir_key_id row)) as [key|].
  2: { split; [done|]. by intros (? & ? & _). }
  case_bool_decide as Hl; cbn [negb].
  - destruct (verify_event _ _ _) eqn:Hv.
    + apply verify_event_true in Hv. split; [by eauto|done].
    + split; [done|]. intros (k & [= <-] & Ht).
      apply verify_event_true in Ht. congruence.
  - split; [done|]. intros (k & [= <-] & ->). by rewrite length_sign_event in Hl.
Qed.

Lemma verify_legacy_ok ring rows :
  verify_legacy (Some ring) rows = Ok () ↔ Forall (legacy_signed ring) rows.
Proof.
  induction rows as [|row rows IH]; cbn [verify_legacy]; [by split|].
  rewrite Forall_cons, <-IH, <-(verify_ok ring row).
  destruct (verify (Some ring) _ _ _) as [[]|]; split; [done|by intros [_ ?]|done|by intros [? _]].
Qed.

Lemma verify_integrity_None ring c rows :
  verify_integrity (Some ring) c rows None = Ok () ↔
  Forall (legacy_signed ring) (v1_rows rows) ∧ v2_rows rows = [].
Proof.
  unfold verify_integrity. fold (v1_rows rows) (v2_rows rows).
  rewrite <-verify_legacy_ok. destruct (verify_legacy _ _) as [[]|].
  - destruct (v2_rows rows); split; [done..| |]; [done|by intros [_ ?]].
  - split; [done|]. by intros [? _].
Qed.

Lemma verify_integrity_Some ring c rows h :
  verify_integrity (Some ring) c rows (Some h) = Ok () ↔ verified ring c rows h.
Proof.
  unfold verify_integrity. fold (v1_rows rows) (v2_rows rows). split.
  - destruct (verify_legacy _ _) as [[]|] eqn:Hl; [|done].
    apply verify_legacy_ok in Hl.
    destruct (Z.ltb_spec (chain_start_seq h) 1); [done|].
    destruct (key_for ring (genesis_key_id h)) as [gk|] eqn:Hg; [|done].
    destruct (verify_chain _ _ _ _ _) as [[p' s']|] eqn:Hc; [|done].
    apply verify_chain_spec in Hc.
    destruct (fixed_tag (head_tag h) _) as [t|] eqn:Ht; [|done].
    apply fixed_tag_ok in Ht as [-> Hlen].
    destruct (Z.eqb_spec (head_seq h) (i64_sub s' 1)); cbn [negb orb]; [|done].
    case_bool_decide; cbn [negb]; [subst p'|done].
    destruct (key_for ring (head_key_id h)) as [ck|] eqn:Hck; [|done].
    destruct (fixed_tag (checkpoint_tag h) _) as [t|] eqn:Ht; [|done].
    apply fixed_tag_ok in Ht as [-> Hlen'].
    destruct (verify_event _ _ _) eqn:Hv; cbn [negb]; [|done].
    apply verify_event_true in Hv. intros _.
    split; [done|lia|by rewrite Hg|exists s'|exists ck; by split].
    split; [|done]. unfold genesis_of. by rewrite Hg.
  - intros [Hl Hs [gk Hg] (s' & Hc & Hhs) (ck & Hck & Hcp)].
    rewrite (proj2 (verify_legacy_ok _ _)) by done.
    rewrite (proj2 (Z.ltb_ge _ _)) by lia. rewrite Hg.
    unfold genesis_of in Hc. rewrite Hg in Hc. cbn [default] in Hc.
    pose proof (chained_length_tag _ _ _ _ _ _ Hc (length_sign_event _ _)) as Hlen.
    rewrite (proj2 (verify_chain_spec _ _ _ _ _ _ _)) by done.
    unfold fixed_tag. rewrite bool_decide_true by done.
    rewrite Hhs, Z.eqb_refl. rewrite bool_decide_true by done. cbn [negb orb].
    rewrite Hck, Hcp. rewrite bool_decide_true by (apply length_sign_event).
    rewrite (proj2 (verify_event_true _ _ _)); [done|].
    unfold checkpoint_message. by rewrite Hhs.
Qed.
(** ** Tamper evidence

    What the tags authenticate of a row: its number, kind, time and version,
    and the bytes of actor, NUL and payload as one text; of a chained row also
    its tag, key and predecessor, while a legacy row's key and tag are the end
    of its text.  An absent actor counts as an empty one. *)
Record Authenticated : Type := mkAuthenticated {
  au_seq : Z;
  au_kind : string;
  au_at : Z;
  au_version : Z;
  au_text : bytes;
  au_chain : option (option bytes * Z * option bytes)
}.

Definition actor_and_payload (ev : EventRecord) : bytes :=
  as_bytes (default "" (er_actor ev)) ++ nul :: er_payload ev.

Definition legacy_end (row : IntegrityRow) : bytes :=
  i64_le (ir_key_id row) ++ match ir_tag row with Some t => sized t | None => u64_le 0 end.

Definition authenticated (row : IntegrityRow) : Authenticated :=
  let ev := ir_event row in
  let chained := ir_integrity_version row =? 2 in
  mkAuthenticated (er_seq ev) (as_str (er_kind ev)) (er_committed_at ev) (ir_integrity_version row)
    (actor_and_payload ev ++ if chained then [] else legacy_end row)
    (if chained then Some (ir_tag row, ir_key_id row, ir_prev_tag row) else None).

(** A row of which every field can be told from those bytes: the actor holds
    no NUL byte, and a legacy tag does not end in eight zero bytes, which the
    genesis encoding writes for an absent tag. *)
Definition separable (row : IntegrityRow) : Prop :=
  nul_free (as_bytes (default "" (er_actor (ir_event row)))) ∧
  (ir_integrity_version row = 1 → ∀ t, ir_tag row = Some t → drop 24 t ≠ u64_le 0).

(** The fields of such a row; a legacy row has no predecessor. *)
Definition signed_event (ev : EventRecord) : EventRecord :=
  mkEvent (er_conversation_id ev) (er_seq ev) (er_kind ev) (er_payload ev) (er_committed_at ev)
    (Some (default "" (er_actor ev))).

Definition signed_view (row : IntegrityRow) : IntegrityRow :=
  mkIntegrityRow (signed_event (ir_event row)) (ir_tag row) (ir_key_id row)
    (ir_integrity_version row)
    (if ir_integrity_version row =? 2 then ir_prev_tag row else None).

(** What the database guarantees of a row: machine-width integers, one of the
    two integrity versions and a size that fits. *)
Record row_wf (c : string) (row : IntegrityRow) : Prop := {
  wf_conversation : er_conversation_id (ir_event row) = c;
  wf_seq : in_i64 (er_seq (ir_event row));
  wf_at : in_i64 (er_committed_at (ir_event row));
  wf_key : in_i64 (ir_key_id row);
  wf_version : ir_integrity_version row = 1 ∨ ir_integrity_version row = 2;
  wf_size : fits_u64 (legacy_row_bytes row)
}.

Definition row_lt (row1 row2 : IntegrityRow) : Prop :=
  er_seq (ir_event row1) < er_seq (ir_event row2).

Record log_wf (c : string) rows : Prop := {
  lw_rows : Forall (row_wf c) rows;
  lw_sorted : StronglySorted row_lt rows;
  lw_size : fits_u64 rows;
  lw_conversation : fits_u64 (as_bytes c)
}.

Definition head_wf (h : IntegrityHead) : Prop :=
  Forall in_i64 [chain_start_seq h; head_seq h; genesis_key_id h; head_key_id h].

(** The (key, message) pairs whose tags verifying a log computes over its
    chain and its checkpoint. *)
Definition row_message (ring : KeyRing) (row : IntegrityRow) : bytes * bytes :=
  (default [] (key_for ring (ir_key_id row)),
   canonical_chain_event (v1_canonical (ir_event row)) (ir_key_id row)
     (default [] (ir_prev_tag row))).

Definition signed_messages (ring : KeyRing) (c : string) rows (h : IntegrityHead)
    : list (bytes * bytes) :=
  (default [] (key_for ring (head_key_id h)), checkpoint_message c h)
  :: (default [] (key_for ring (genesis_key_id h)),
      legacy_genesis_canonical c (chain_start_seq h) rows)
  :: map (row_message ring) (v2_rows rows).

(** No message of the first list has the tag of a different message of the
    second. *)
Definition no_collision (l1 l2 : list (bytes * bytes)) : Prop :=
  ∀ km1 km2, km1 ∈ l1 → km2 ∈ l2 →
    sign_event km1.1 km1.2 = sign_event km2.1 km2.2 → km1 = km2.

(** The fields before the actor are told apart; actor and payload are one
    text. *)
Lemma v1_canonical_inj c row1 row2 x1 x2 :
  row_wf c row1 → row_wf c row2 →
  v1_canonical (ir_event row1) ++ x1 = v1_canonical (ir_event row2) ++ x2 →
  er_seq (ir_event row1) = er_seq (ir_event row2) ∧
  as_str (er_kind (ir_event row1)) = as_str (er_kind (ir_event row2)) ∧
  er_committed_at (ir_event row1) = er_committed_at (ir_event row2) ∧
  actor_and_payload (ir_event row1) ++ x1 = actor_and_payload (ir_event row2) ++ x2.
Proof.
  intros [Hc1 Hs1 Ha1 _ _ _] [Hc2 Hs2 Ha2 _ _ _]. unfold v1_canonical, canonical_bytes, actor_and_payload.
  rewrite Hc1, Hc2. repeat (rewrite <-(assoc_L (++)) || rewrite <-app_comm_cons). intros Heq.
  apply app_inv_head, nul_cons_inv in Heq.
  apply i64_field_inj in Heq as [-> Heq]; [|done..].
  apply nul_field_inj in Heq as [Hk%(inj as_bytes) Heq]; [|apply as_str_nul_free..].
  apply i64_field_inj in Heq as [-> Heq]; [|done..]. done.
Qed.

(** The bytes of a legacy row in the genesis anchor are what it
    authenticates. *)
Lemma legacy_authenticated c row1 row2 :
  row_wf c row1 → row_wf c row2 → ir_integrity_version row1 = 1 → ir_integrity_version row2 = 1 →
  legacy_row_bytes row1 = legacy_row_bytes row2 → authenticated row1 = authenticated row2.
Proof.
  intros Hw1 Hw2 Hv1 Hv2 Heq. apply (v1_canonical_inj c) in Heq as (Hs & Hk & Ht & Hx); [|done..].
  unfold authenticated. rewrite Hv1, Hv2, Hs, Hk, Ht. cbn. f_equal. exact Hx.
Qed.

Lemma legacy_rows_inj c rows1 rows2 :
  Forall (row_wf c) rows1 → Forall (row_wf c) rows2 →
  Forall (λ row, ir_integrity_version row = 1) rows1 →
  Forall (λ row, ir_integrity_version row = 1) rows2 →
  map legacy_row_bytes rows1 = map legacy_row_bytes rows2 →
  map authenticated rows1 = map authenticated rows2.
Proof.
  revert rows2. induction rows1 as [|row1 rows1 IH]; intros [|row2 rows2]; cbn; try done.
  rewrite !Forall_cons. intros [? ?] [? ?] [Hv1 ?] [Hv2 ?] [= Hb Hrest].
  f_equal; [by apply (legacy_authenticated c)|by apply IH].
Qed.

(** *** The fields of separable rows *)

Lemma legacy_signed_length ring row t :
  legacy_signed ring row → ir_tag row = Some t → length t = tag_len.
Proof.
  unfold legacy_signed. intros Hs Ht. rewrite Ht in Hs.
  destruct Hs as (key & _ & ->). apply length_sign_event.
Qed.

(** The last eight bytes of an encoded tag. *)
Lemma tagged_not_untagged (x y t : bytes) :
  length t = tag_len → drop 24 t ≠ u64_le 0 → x ++ sized t ≠ y ++ u64_le 0.
Proof.
  intros Hlen Hz Heq. apply Hz. unfold sized in Heq.
  rewrite <-(take_drop 24 t), !(assoc_L (++)) in Heq.
  apply app_inj_2 in Heq as [_ ?]; [done|].
  rewrite length_drop, Hlen. done.
Qed.

Lemma legacy_end_inj ring x1 x2 row1 row2 :
  in_i64 (ir_key_id row1) → in_i64 (ir_key_id row2) →
  legacy_signed ring row1 → legacy_signed ring row2 →
  (∀ t, ir_tag row1 = Some t → drop 24 t ≠ u64_le 0) → (∀ t, ir_tag row2 = Some t → drop 24 t ≠ u64_le 0) →
  x1 ++ legacy_end row1 = x2 ++ legacy_end row2 →
  x1 = x2 ∧ ir_tag row1 = ir_tag row2 ∧ ir_key_id row1 = ir_key_id row2.
Proof.
  unfold legacy_end. intros Hk1 Hk2 Hl1 Hl2 Hz1 Hz2 Heq. rewrite !(assoc_L (++)) in Heq.
  destruct (ir_tag row1) as [t1|] eqn:Ht1, (ir_tag row2) as [t2|] eqn:Ht2.
  - pose proof (legacy_signed_length _ _ _ Hl1 Ht1) as Hlen1.
    pose proof (legacy_signed_length _ _ _ Hl2 Ht2) as Hlen2.
    apply app_inj_2 in Heq as [Heq Htag].
    2: { unfold sized. rewrite !length_app, !length_u64_le. congruence. }
    unfold sized in Htag. apply app_inj_2 in Htag as [_ ->]; [|congruence].
    apply app_inj_2 in Heq as [-> Hk]; [|by rewrite !length_i64_le].
    by apply i64_le_inj in Hk.
  - exfalso. apply tagged_not_untagged in Heq; eauto using legacy_signed_length.
  - exfalso. symmetry in Heq. apply tagged_not_untagged in Heq; eauto using legacy_signed_length.
  - apply app_inj_2 in Heq as [Heq _]; [|done].
    apply app_inj_2 in Heq as [-> Hk]; [|by rewrite !length_i64_le].
    by apply i64_le_inj in Hk.
Qed.

Lemma authenticated_fields ring c row1 row2 :
  row_wf c row1 → row_wf c row2 → separable row1 → separable row2 →
  (ir_integrity_version row1 = 1 → legacy_signed ring row1) →
  (ir_integrity_version row2 = 1 → legacy_signed ring row2) →
  authenticated row1 = authenticated row2 → signed_view row1 = signed_view row2.
Proof.
  intros Hw1 Hw2 [Ha1 Hz1] [Ha2 Hz2] Hl1 Hl2. unfold authenticated, signed_view.
  intros [= Hs Hk%(inj as_str) Ht Hv Htext Hchain]. rewrite Hv in *.
  assert (actor_and_payload (ir_event row1) = actor_and_payload (ir_event row2) ∧
          ir_tag row1 = ir_tag row2 ∧ ir_key_id row1 = ir_key_id row2) as (Htext' & Htag & Hkey).
  { destruct (wf_version _ _ Hw2) as [Hv2|Hv2]; rewrite Hv2 in *; cbn in Htext, Hchain.
    - eapply (legacy_end_inj ring); eauto using wf_key.
    - injection Hchain as -> -> _. by rewrite !app_nil_r in Htext. }
  unfold actor_and_payload in Htext'.
  apply nul_field_inj in Htext' as [Ha%(inj as_bytes) Hp]; [|done..].
  f_equal; [|done..|].
  - unfold signed_event. rewrite (wf_conversation _ _ Hw1), (wf_conversation _ _ Hw2). congruence.
  - clear -Hchain. revert Hchain. destruct (_ =? 2); [by intros [= _ _ ?]|done].
Qed.

Lemma authenticated_views ring c rows1 rows2 :
  Forall (row_wf c) rows1 → Forall (row_wf c) rows2 → Forall separable rows1 → Forall separable rows2 →
  Forall (legacy_signed ring) (v1_rows rows1) → Forall (legacy_signed ring) (v1_rows rows2) →
  map authenticated rows1 = map authenticated rows2 → map signed_view rows1 = map signed_view rows2.
Proof.
  revert rows2. induction rows1 as [|row1 rows1 IH]; intros [|row2 rows2]; cbn [map]; try done.
  rewrite !Forall_cons. intros [? ?] [? ?] [? ?] [? ?] Hl1 Hl2 Heq.
  assert (authenticated row1 = authenticated row2 ∧ map authenticated rows1 = map authenticated rows2) as [Hrow Hrest].
  { revert Heq. generalize (authenticated row1), (authenticated row2). by intros ? ? [= -> ->]. }
  unfold v1_rows, is_version in Hl1, Hl2. cbn [List.filter] in Hl1, Hl2.
  f_equal.
  - apply (authenticated_fields ring c); try done; intros Hv.
    + rewrite Hv in Hl1. by apply Forall_cons in Hl1 as [? _].
    + rewrite Hv in Hl2. by apply Forall_cons in Hl2 as [? _].
  - apply IH; try done.
    + destruct (_ =? 1); [by apply Forall_cons in Hl1 as [_ ?]|done].
    + destruct (ir_integrity_version row2 =? 1); [by apply Forall_cons in Hl2 as [_ ?]|done].
Qed.

Lemma chained_single ring q s row p r :
  chained ring q s [row] p r →
  ∃ key, ir_prev_tag row = Some q ∧ length q = tag_len ∧ ir_tag row = Some p ∧
    key_for ring (ir_key_id row) = Some key ∧
    p = sign_event key (canonical_chain_event (v1_canonical (ir_event row)) (ir_key_id row) q).
Proof.
  intros Hc. inversion Hc as [|? ? ? t k ? ? ? _ Hp Hl Ht Hk Hsig Hn]; subst.
  inversion Hn; subst. by exists k.
Qed.

(** Two chains of equal length that end in the same tag agree row by row, and
    start from the same tag. *)
Lemma chained_unique ring c rows1 rows2 g1 s1 g2 s2 p r1 r2 :
  chained ring g1 s1 rows1 p r1 → chained ring g2 s2 rows2 p r2 →
  length rows1 = length rows2 →
  Forall (row_wf c) rows1 → Forall (row_wf c) rows2 →
  Forall (λ row, ir_integrity_version row = 2) rows1 →
  Forall (λ row, ir_integrity_version row = 2) rows2 →
  no_collision (map (row_message ring) rows1) (map (row_message ring) rows2) →
  map authenticated rows1 = map authenticated rows2 ∧ g1 = g2.
Proof.
  revert rows2 p r1 r2. induction rows1 as [|row1 rows1 IH] using rev_ind; intros rows2 p r1 r2.
  { intros Hc1 Hc2 Hlen. destruct rows2; [|done]. inversion Hc1; inversion Hc2; by subst. }
  destruct rows2 as [|row2 rows2 _] using rev_ind; intros Hc1 Hc2 Hlen.
  { rewrite length_app in Hlen. cbn in Hlen. lia. }
  rewrite !length_app in Hlen. cbn in Hlen.
  rewrite !Forall_app, !Forall_singleton, !map_app.
  intros [Hw1 Hr1] [Hw2 Hr2] [Hv1 Hx1] [Hv2 Hx2] Hno.
  apply chained_app in Hc1 as (q1 & u1 & Hc1 & Hrow1).
  apply chained_app in Hc2 as (q2 & u2 & Hc2 & Hrow2).
  apply chained_single in Hrow1 as (k1 & Hp1 & Hl1 & Ht1 & Hk1 & Hsig1).
  apply chained_single in Hrow2 as (k2 & Hp2 & Hl2 & Ht2 & Hk2 & Hsig2).
  assert (row_message ring row1 = row_message ring row2) as Hm.
  { apply Hno; [by apply elem_of_app; right; apply list_elem_of_here..|]. unfold row_message. rewrite Hp1, Hp2, Hk1, Hk2. cbn.
    exact (eq_trans (eq_sym Hsig1) Hsig2). }
  unfold row_message in Hm. rewrite Hp1, Hp2, Hk1, Hk2 in Hm. apply (f_equal snd) in Hm. cbn [default from_option id snd] in Hm.
  apply canonical_chain_event_inj in Hm as (Hv & Hkid & Hq);
    [|by eapply wf_key|by eapply wf_key|congruence].
  subst q2. destruct (IH rows2 q1 u1 u2) as [Hviews ->];
    try done; [lia| |].
  { intros km1 km2 ? ?. apply Hno; apply elem_of_app; by left. }
  split; [|done]. rewrite Hviews. cbn. do 2 f_equal.
  unfold authenticated. rewrite Hx1, Hx2. cbn.
  assert (v1_canonical (ir_event row1) ++ [] = v1_canonical (ir_event row2) ++ []) as Hv' by by rewrite Hv.
  apply (v1_canonical_inj c) in Hv' as (Hs & Hk & Ht & Hx); [|done..]. by rewrite Hs, Hk, Ht, Hx, Ht1, Ht2, Hkid, Hp1, Hp2.
Qed.
(** *** Putting the two parts of a log back together *)

Lemma v1_rows_version rows : Forall (λ row, ir_integrity_version row = 1) (v1_rows rows).
Proof. apply List.Forall_forall. intros row [_ Hv]%filter_In. by apply Z.eqb_eq. Qed.

Lemma v2_rows_version rows : Forall (λ row, ir_integrity_version row = 2) (v2_rows rows).
Proof. apply List.Forall_forall. intros row [_ Hv]%filter_In. by apply Z.eqb_eq. Qed.

Lemma split_versions c rows : Forall (row_wf c) rows → rows ≡ₚ v1_rows rows ++ v2_rows rows.
Proof.
  induction 1 as [|row rows Hw _ IH]; [done|]. unfold v1_rows, v2_rows in *. cbn.
  assert (∀ v, is_version v row = (ir_integrity_version row =? v)) as -> by done.
  assert (is_version 2 row = (ir_integrity_version row =? 2)) as -> by done.
  destruct (wf_version _ _ Hw) as [Hv|Hv]; rewrite Hv; cbn.
  - by constructor.
  - rewrite <-Permutation_middle. by constructor.
Qed.

Definition au_lt (x y : Authenticated) : Prop := au_seq x < au_seq y.

#[local] Instance au_lt_antisymm : AntiSymm (=) au_lt.
Proof. intros x y. unfold au_lt. lia. Qed.

Lemma sorted_authenticated rows : StronglySorted row_lt rows → StronglySorted au_lt (map authenticated rows).
Proof.
  induction 1 as [|row rows _ IH Hall]; cbn; constructor; [done|].
  apply List.Forall_map. eapply Forall_impl; [exact Hall|]. done.
Qed.

Lemma merge_views c rows1 rows2 :
  log_wf c rows1 → log_wf c rows2 →
  map authenticated (v1_rows rows1) = map authenticated (v1_rows rows2) →
  map authenticated (v2_rows rows1) = map authenticated (v2_rows rows2) →
  map authenticated rows1 = map authenticated rows2.
Proof.
  intros [Hw1 Hs1 _ _] [Hw2 Hs2 _ _] Hv1 Hv2.
  apply (StronglySorted_unique au_lt); [by apply sorted_authenticated..|].
  rewrite (Permutation_map _ (split_versions c rows1 Hw1)),
    (Permutation_map _ (split_versions c rows2 Hw2)).
  by rewrite !map_app, Hv1, Hv2.
Qed.

Lemma fits_u64_sub {A B} (l : list A) (l' : list B) :
  fits_u64 l → (length l' ≤ length l)%nat → fits_u64 l'.
Proof. unfold fits_u64, vec_len. int_lia. Qed.

(** Chains from one start that end at one sequence number are equally long. *)
Lemma chain_length_unique ring rows1 rows2 g1 g2 s p1 p2 e1 e2 :
  in_i64 s → fits_u64 rows1 → fits_u64 rows2 →
  chained ring g1 s (v2_rows rows1) p1 e1 → chained ring g2 s (v2_rows rows2) p2 e2 →
  i64_sub e1 1 = i64_sub e2 1 → length (v2_rows rows1) = length (v2_rows rows2).
Proof.
  intros Hs Hz1 Hz2 Hc1%chained_end Hc2%chained_end He; [|done..]. subst e1 e2.
  unfold i64_sub in He. rewrite <-!Z.add_opp_r, !wrap_i64_add_l in He.
  pose proof (length_filter_le (is_version 2) rows1). fold (v2_rows rows1) in *.
  pose proof (length_filter_le (is_version 2) rows2). fold (v2_rows rows2) in *.
  unfold fits_u64, vec_len in *. apply Nat2Z.inj.
  apply (wrap_i64_offset_inj (s - 1)); [int_lia..|].
  rewrite <-!Z.add_opp_r, <-!Z.add_assoc, !(Z.add_comm (- (1))), !Z.add_assoc. done.
Qed.

(** Equal genesis anchors come from equal legacy prefixes. *)
Lemma genesis_unique c start rows1 rows2 :
  log_wf c rows1 → log_wf c rows2 → in_i64 start →
  legacy_genesis_canonical c start rows1 = legacy_genesis_canonical c start rows2 →
  map authenticated (v1_rows rows1) = map authenticated (v1_rows rows2).
Proof.
  intros [Hw1 _ Hz1 Hc] [Hw2 _ Hz2 _] Hs Heq.
  assert (∀ rows, Forall (row_wf c) rows →
            Forall fits_u64 (map legacy_row_bytes (v1_rows rows))) as Hfits.
  { intros rows Hw. apply List.Forall_map, Forall_filter_bool. 
    eapply Forall_impl; [exact Hw|]. intros row Hrow. exact (wf_size _ _ Hrow). }
  apply canonical_genesis_inj in Heq as (_ & _ & Heq); try done.
  - eapply legacy_rows_inj; eauto using Forall_filter_bool, v1_rows_version.
  - eapply fits_u64_sub; [exact Hz1|]. rewrite length_map. apply length_filter_le.
  - eapply fits_u64_sub; [exact Hz2|]. rewrite length_map. apply length_filter_le.
  - by apply Hfits.
  - by apply Hfits.
Qed.

Lemma checkpoint_unique ring c1 rows1 h1 c2 rows2 h2 :
  verified ring c1 rows1 h1 → verified ring c2 rows2 h2 →
  fits_u64 (as_bytes c1) → fits_u64 (as_bytes c2) → head_wf h1 → head_wf h2 →
  checkpoint_message c1 h1 = checkpoint_message c2 h2 →
  checkpoint_tag h1 = checkpoint_tag h2 → c1 = c2 ∧ h1 = h2.
Proof.
  intros [_ _ _ (s1 & Hch1 & _) _] [_ _ _ (s2 & Hch2 & _) _] Hc1 Hc2 Hh1 Hh2 Hm Ht.
  unfold checkpoint_message in Hm. apply canonical_checkpoint_inj in Hm; [|exact Hc1|exact Hc2|exact Hh1|exact Hh2|].
  - destruct Hm as (? & ? & ? & ? & ? & ?). destruct h1, h2. cbn in *. split; congruence.
  - transitivity tag_len; [|symmetry];
      eapply chained_length_tag; eauto using length_sign_event.
Qed.
(** C1: a checkpoint tag determines the log it was issued for.  Take two logs
    that [verify_integrity] accepts under one key ring, each with its own
    stored head, and suppose only that they are well-formed as the database
    stores them and that the two 32-byte checkpoint tags are equal.  Unless a
    message of one log collides with a different message of the other under
    the MAC, the two logs belong to one conversation, have the same head, and
    agree row by row in everything the tags authenticate: sequence number,
    kind, time, version, the text of actor, NUL and payload, and the tag, key
    id and predecessor of a chained row (a legacy row's key and tag as the end
    of its text).  So changing, dropping, inserting or reordering rows without
    changing the retained checkpoint tag is detected, except for moving bytes
    across the boundaries inside a text.  If moreover every actor is NUL-free
    and no legacy tag ends in eight zero bytes, in both logs, then they agree
    in every single field, actor and payload included; without that they may
    not, see [EventHmac.canonical_bytes_field_smuggling]. *)
Theorem checkpoint_determines_log ring c1 rows1 h1 c2 rows2 h2 :
  log_wf c1 rows1 → log_wf c2 rows2 → head_wf h1 → head_wf h2 →
  verify_integrity (Some ring) c1 rows1 (Some h1) = Ok () →
  verify_integrity (Some ring) c2 rows2 (Some h2) = Ok () →
  no_collision (signed_messages ring c1 rows1 h1) (signed_messages ring c2 rows2 h2) →
  checkpoint_tag h1 = checkpoint_tag h2 →
  c1 = c2 ∧ h1 = h2 ∧ map authenticated rows1 = map authenticated rows2 ∧
  (Forall separable rows1 → Forall separable rows2 → map signed_view rows1 = map signed_view rows2).
Proof.
  rewrite !verify_integrity_Some. intros Hw1 Hw2 Hh1 Hh2 Hv1 Hv2 Hno Htag.
  destruct (checkpoint_unique ring c1 rows1 h1 c2 rows2 h2) as [<- <-]; try done;
    [apply Hw1|apply Hw2| |].
  { destruct (vf_checkpoint _ _ _ _ Hv1) as (k1 & Hk1 & Hs1).
    destruct (vf_checkpoint _ _ _ _ Hv2) as (k2 & Hk2 & Hs2).
    apply (f_equal snd (x := (k1, _)) (y := (k2, _))). apply Hno.
    - unfold signed_messages. rewrite Hk1. apply list_elem_of_here.
    - unfold signed_messages. rewrite Hk2. apply list_elem_of_here.
    - cbn [fst snd]. exact (eq_trans (eq_sym Hs1) (eq_trans Htag Hs2)). }
  do 2 (split; [done|]).
  destruct (vf_chain _ _ _ _ Hv1) as (e1 & Hc1 & He1).
  destruct (vf_chain _ _ _ _ Hv2) as (e2 & Hc2 & He2).
  assert (in_i64 (chain_start_seq h1)) as Hstart by (unfold head_wf in Hh1; by inversion Hh1).
  assert (length (v2_rows rows1) = length (v2_rows rows2)) as Hlen.
  { eapply chain_length_unique; eauto using lw_size; congruence. }
  destruct (chained_unique ring c1 _ _ _ _ _ _ _ _ _ Hc1 Hc2 Hlen) as [Hviews Hg];
    eauto using v2_rows_version; try (apply Forall_filter_bool; eauto using lw_rows).
  { intros km1 km2 ? ?. apply Hno; by do 2 apply list_elem_of_further. }
  assert (map authenticated rows1 = map authenticated rows2) as Hall.
  2: { split; [done|]. intros Hsep1 Hsep2.
       apply (authenticated_views ring c1); try done; eauto using lw_rows, vf_legacy. }
  apply (merge_views c1); [done..| |done].
  eapply genesis_unique; [done..|].
  apply (f_equal snd (x := (default [] (key_for ring (genesis_key_id h1)), _))
           (y := (default [] (key_for ring (genesis_key_id h1)), _))).
  apply Hno; [apply list_elem_of_further, list_elem_of_here..|done].
Qed.
(** ** The invariant of the log

    [log_head ring c d h]: the rows of [c] are legacy rows followed by chained
    rows, and [h] is a head that verifies for them.  During a commit [h] is
    the head in memory, at rest it is the stored one. *)
Definition last_ev_seq (l : list EventRow) : Z :=
  match last l with Some r => ev_seq r | None => 0 end.

Definition seqs_ok (l : list EventRow) : Prop :=
  ascending l ∧ Forall (λ r, 1 ≤ ev_seq r ≤ i64_max) l.

Record log_head (ring : KeyRing) (c : string) (d : Db) (h : IntegrityHead) : Prop := {
  lh_seqs : seqs_ok (events_of c d);
  lh_start : chain_start_seq h ≤ i64_max;
  lh_head : head_seq h = last_ev_seq (events_of c d);
  lh_versions : Forall (λ r, ev_integrity_version r = 1 ∨ ev_integrity_version r = 2) (events_of c d);
  lh_verified : verified ring c (load_integrity_rows c d) h
}.

Definition legacy_log (ring : KeyRing) (c : string) (d : Db) : Prop :=
  seqs_ok (events_of c d) ∧
  Forall (λ r, ev_integrity_version r = 1) (events_of c d) ∧
  Forall (legacy_signed ring) (load_integrity_rows c d).

(** The invariant of one conversation at rest. *)
Definition log_inv (ring : KeyRing) (d : Db) (c : string) : Prop :=
  match integrity_heads d !! c with
  | None => legacy_log ring c d
  | Some h => log_head ring c d h
  end.

Lemma last_seq_of_loaded c d : last_seq_of_rows (load_integrity_rows c d) = last_ev_seq (events_of c d).
Proof.
  unfold last_seq_of_rows, last_ev_seq, load_integrity_rows.
  rewrite fmap_last. by destruct (last (events_of c d)).
Qed.

Lemma ascending_last_bound l : ascending l → ∀ r, r ∈ l → ev_seq r ≤ last_ev_seq l.
Proof.
  intros Hasc r Hr. unfold last_ev_seq. apply list_elem_of_lookup in Hr as [i Hi].
  destruct (last l) as [x|] eqn:Hlast.
  - rewrite last_lookup in Hlast. pose proof (lookup_lt_Some _ _ _ Hi).
    destruct (decide (i = pred (length l))) as [->|Hne].
    + rewrite Hi in Hlast. simplify_eq. lia.
    + enough (ev_seq r < ev_seq x) by lia. apply (Hasc i (pred (length l))); [lia|done..].
  - apply last_None in Hlast as ->. done.
Qed.

Lemma last_ev_seq_range l : Forall (λ r, 1 ≤ ev_seq r ≤ i64_max) l → 0 ≤ last_ev_seq l ≤ i64_max.
Proof.
  intros Hall. unfold last_ev_seq. destruct (last l) as [x|] eqn:Hlast; [|int_lia].
  rewrite last_lookup in Hlast. eapply Forall_lookup_1 in Hall; [|done]. cbn in Hall. lia.
Qed.

Lemma load_chained_row c ev tag kid prev :
  er_conversation_id ev = c →
  load_row c (chained_row ev tag kid prev) = mkIntegrityRow ev (Some tag) kid 2 (Some prev).
Proof. intros <-. unfold load_row. cbn. rewrite parse_as_str. by destruct ev. Qed.

(** Appending a v2 row leaves the legacy prefix, and so the genesis, alone. *)
Lemma v1_rows_app rows row : ir_integrity_version row = 2 → v1_rows (rows ++ [row]) = v1_rows rows.
Proof.
  intros Hv. unfold v1_rows. rewrite List.filter_app. cbn. unfold is_version at 2. rewrite Hv. cbn.
  apply app_nil_r.
Qed.
Lemma v2_rows_app rows row :
  ir_integrity_version row = 2 → v2_rows (rows ++ [row]) = v2_rows rows ++ [row].
Proof. intros Hv. unfold v2_rows. rewrite List.filter_app. cbn. unfold is_version at 2. by rewrite Hv. Qed.
Definition signed_row ring key (h : IntegrityHead) (ev : EventRecord) : EventRow :=
  chained_row ev
    (sign_event key (canonical_chain_event (v1_canonical ev) (current_id ring) (head_tag h)))
    (current_id ring) (head_tag h).

Definition signed_head ring key (c : string) (h : IntegrityHead) (ev : EventRecord) : IntegrityHead :=
  let tag := sign_event key (canonical_chain_event (v1_canonical ev) (current_id ring) (head_tag h)) in
  mkHead (chain_start_seq h) (er_seq ev) tag (genesis_key_id h) (current_id ring)
    (sign_event key (canonical_checkpoint c (chain_start_seq h) (er_seq ev) tag
       (genesis_key_id h) (current_id ring))).

Lemma append_chained_eq what ring key c ev h d :
  seqs_ok (events_of c d) → length (head_tag h) = tag_len →
  last_ev_seq (events_of c d) < er_seq ev → er_seq ev = i64_add (head_seq h) 1 →
  current_key ring = Some key →
  append_chained what (Some ring) c ev h d =
  Ok (signed_head ring key c h ev,
      set_events <[c := events_of c d ++ [signed_row ring key h ev]]> d).
Proof.
  intros [Hasc _] Hlen Hlast Hseq Hkey. unfold append_chained.
  rewrite <-Hseq, Z.eqb_refl, Hkey. cbn [negb].
  unfold tx_bind, tx_lift, fixed_tag. rewrite bool_decide_true by done.
  unfold insert_event_row. fold (signed_row ring key h ev). rewrite insert_event_fresh.
  - unfold advance_integrity_head. cbn [require_ring ok_or]. by rewrite Hkey.
  - apply Forall_forall. intros r Hr. cbn [signed_row chained_row ev_seq].
    pose proof (ascending_last_bound _ Hasc r Hr). lia.
Qed.

(** Signing an event extends a verified log. *)
Lemma verified_snoc ring key c rows h ev :
  verified ring c rows h → head_seq h + 1 ≤ i64_max → in_i64 (head_seq h) → in_i64 (chain_start_seq h) →
  er_seq ev = head_seq h + 1 → er_conversation_id ev = c → current_key ring = Some key →
  verified ring c (rows ++ [load_row c (signed_row ring key h ev)]) (signed_head ring key c h ev).
Proof.
  intros [Hl Hs Hg (e & Hc & He) (ck & Hck & Hcp)] Hmax Hin Hcs Hseq Hcv Hkey.
  unfold signed_row. rewrite load_chained_row by done.
  pose proof (chained_length_tag _ _ _ _ _ _ Hc (length_sign_event _ _)) as Hlen.
  split.
  - by rewrite v1_rows_app.
  - done.
  - done.
  - assert (e = head_seq h + 1) as ->.
    { assert (in_i64 e) as Hine.
      { rewrite (chained_end _ _ _ _ _ _ Hc Hcs). apply wrap_i64_range. }
      destruct (decide (e = i64_min)) as [->|Hne]; [|rewrite He, i64_sub_id; int_lia].
      rewrite He in Hmax. by vm_compute in Hmax. }
    exists (i64_add (head_seq h + 1) 1). split.
    2: { cbn. rewrite Hseq. unfold i64_sub, i64_add. rewrite <-Z.add_opp_r, wrap_i64_add_l.
         rewrite wrap_i64_id; int_lia. }
    rewrite v2_rows_app by done. apply chained_app. exists (head_tag h), (head_seq h + 1).
    split; [|by econstructor; [..|constructor]].
    unfold genesis_of, legacy_genesis_canonical in *. cbn [genesis_key_id chain_start_seq signed_head].
    fold (v1_rows (rows ++ [mkIntegrityRow ev (Some (sign_event key (canonical_chain_event
      (v1_canonical ev) (current_id ring) (head_tag h)))) (current_id ring) 2 (Some (head_tag h))])).
    by rewrite v1_rows_app.
  - exists key. by split.
Qed.
Lemma log_head_tag ring c d h : log_head ring c d h → length (head_tag h) = tag_len.
Proof.
  intros Hh. destruct (vf_chain _ _ _ _ (lh_verified _ _ _ _ Hh)) as (e & Hc & _).
  eapply chained_length_tag; eauto using length_sign_event.
Qed.

Lemma log_head_seq_range ring c d h : log_head ring c d h → 0 ≤ head_seq h ≤ i64_max.
Proof.
  intros Hh. rewrite (lh_head _ _ _ _ Hh). apply last_ev_seq_range, (lh_seqs _ _ _ _ Hh).
Qed.

Lemma last_ev_seq_snoc l r : last_ev_seq (l ++ [r]) = ev_seq r.
Proof. unfold last_ev_seq. by rewrite last_snoc. Qed.

Lemma seqs_ok_snoc l r :
  seqs_ok l → last_ev_seq l < ev_seq r ≤ i64_max → 1 ≤ ev_seq r → seqs_ok (l ++ [r]).
Proof.
  intros [Hasc Hpos] Hr Hr1. split.
  - apply ascending_snoc; [done|]. apply Forall_forall. intros x Hx.
    pose proof (ascending_last_bound _ Hasc x Hx). lia.
  - apply Forall_app_2; [done|]. apply Forall_singleton. lia.
Qed.

Lemma load_rows_snoc c d l r :
  load_integrity_rows c (set_events <[c := l ++ [r]]> d) = map (load_row c) l ++ [load_row c r].
Proof. unfold load_integrity_rows. rewrite events_of_insert, map_app. done. Qed.

(** One signed append keeps the invariant and extends the log by its event. *)
Lemma append_chained_ok what ring key c ev h d :
  log_head ring c d h → current_key ring = Some key → er_conversation_id ev = c →
  er_seq ev = head_seq h + 1 → er_seq ev ≤ i64_max →
  let h' := signed_head ring key c h ev in
  let d' := set_events <[c := events_of c d ++ [signed_row ring key h ev]]> d in
  append_chained what (Some ring) c ev h d = Ok (h', d') ∧ log_head ring c d' h' ∧
  load_integrity_rows c d' =
    load_integrity_rows c d ++ [load_row c (signed_row ring key h ev)].
Proof.
  intros Hh Hkey Hcv Hseq Hmax h' d'. pose proof (log_head_seq_range _ _ _ _ Hh) as Hrange.
  pose proof (lh_seqs _ _ _ _ Hh) as Hseqs. pose proof (lh_head _ _ _ _ Hh) as Hlast.
  pose proof (lh_start _ _ _ _ Hh) as Hstart.
  pose proof (vf_start _ _ _ _ (lh_verified _ _ _ _ Hh)) as Hstart1.
  split; [|split; [split|]].
  - apply append_chained_eq; [done|by eapply log_head_tag|lia| |done].
    rewrite i64_add_id by int_lia. done.
  - unfold d'. rewrite events_of_insert. apply seqs_ok_snoc; cbn; [done|lia..].
  - done.
  - unfold d'. by rewrite events_of_insert, last_ev_seq_snoc.
  - unfold d'. rewrite events_of_insert. apply Forall_app_2; [apply Hh|]. apply Forall_singleton. by right.
  - unfold d', h'. rewrite load_rows_snoc. apply verified_snoc; try done; [apply Hh|lia|int_lia|int_lia].
  - unfold d'. by rewrite load_rows_snoc.
Qed.

(** The first keyed operation on a legacy log starts from a head that verifies. *)
Lemma initial_head_ok ring key c d :
  legacy_log ring c d → current_key ring = Some key → last_ev_seq (events_of c d) < i64_max →
  ∃ h, initial_integrity_head (Some ring) c (load_integrity_rows c d) = Ok h ∧ log_head ring c d h ∧
       length (checkpoint_tag h) = tag_len.
Proof.
  intros (Hseqs & Hv1 & Hsig) Hkey Hmax. unfold initial_integrity_head. cbn [require_ring ok_or].
  rewrite Hkey. rewrite last_seq_of_loaded.
  pose proof (last_ev_seq_range _ (proj2 Hseqs)) as Hrange.
  assert (Hall : Forall (λ row, ir_integrity_version row = 1) (load_integrity_rows c d)).
  { unfold load_integrity_rows. apply List.Forall_map. eapply Forall_impl; [exact Hv1|]. done. }
  rewrite (proj2 (existsb_False _ _)).
  2: { intros row Hrow. eapply Forall_forall in Hall; [|done]. by rewrite Hall. }
  rewrite i64_add_id by int_lia. eexists; split; [done|]. split; [|apply length_sign_event].
  assert (v2_rows (load_integrity_rows c d) = []) as Hnone.
  { unfold v2_rows. revert Hall. generalize (load_integrity_rows c d). intros l Hl.
    induction Hl as [|row l Hrow _ IH]; cbn; [done|]. unfold is_version at 1. by rewrite Hrow. }
  split; cbn; [done|lia|done|..].
  { eapply Forall_impl; [exact Hv1|]. cbn. tauto. }
  split; cbn; [by apply Forall_filter_bool|lia| | |].
  - by exists key.
  - exists (last_ev_seq (events_of c d) + 1). rewrite Hnone. unfold genesis_of. cbn.
    unfold key_for, current_key in *. rewrite Hkey. cbn. split; [constructor|].
    rewrite i64_sub_id; int_lia.
  - by exists key.
Qed.
Lemma current_head_ok ring key c d :
  log_inv ring d c → current_key ring = Some key → last_ev_seq (events_of c d) < i64_max →
  ∃ h, current_head (Some ring) c d = Ok h ∧ log_head ring c d h.
Proof.
  unfold log_inv, current_head, load_integrity_head.
  destruct (integrity_heads d !! c) as [h|]; intros Hinv Hkey Hmax.
  - exists h. rewrite (proj2 (verify_integrity_Some _ _ _ _)) by apply Hinv. done.
  - destruct (initial_head_ok ring key c d) as (h & ? & ? & _); eauto.
Qed.

Lemma write_head_ok c h d :
  length (head_tag h) = tag_len → length (checkpoint_tag h) = tag_len →
  write_integrity_head c h d = Ok ((), set_heads <[c := h]> d).
Proof. intros H1 H2. unfold write_integrity_head, upsert_head. by rewrite !bool_decide_true. Qed.

Lemma log_head_checkpoint ring c d h : log_head ring c d h → length (checkpoint_tag h) = tag_len.
Proof.
  intros Hh. destruct (vf_checkpoint _ _ _ _ (lh_verified _ _ _ _ Hh)) as (k & _ & ->).
  apply length_sign_event.
Qed.

Lemma log_head_heads ring c d h f : log_head ring c (set_heads f d) h ↔ log_head ring c d h.
Proof. split; intros []; by split. Qed.

Lemma log_inv_stored ring c d h : log_head ring c d h → log_inv ring (set_heads <[c := h]> d) c.
Proof.
  intros Hh. unfold log_inv. cbn. rewrite lookup_insert_eq. by apply log_head_heads.
Qed.

(** Two databases that agree on a conversation. *)
Definition same_log (c : string) (d d' : Db) : Prop :=
  events_of c d' = events_of c d ∧ integrity_heads d' !! c = integrity_heads d !! c.

Lemma same_log_inv ring c d d' : same_log c d d' → log_inv ring d c → log_inv ring d' c.
Proof.
  intros [He Hh]. unfold log_inv. rewrite Hh.
  assert (load_integrity_rows c d' = load_integrity_rows c d) as Hl
    by (unfold load_integrity_rows; by rewrite He).
  destruct (integrity_heads d !! c).
  - intros []. split; rewrite ?He, ?Hl; done.
  - unfold legacy_log. by rewrite He, Hl.
Qed.

Lemma log_inv_seqs ring c d : log_inv ring d c → seqs_ok (events_of c d).
Proof. unfold log_inv. destruct (integrity_heads d !! c); [apply lh_seqs|by intros [? _]]. Qed.

(** At rest the log verifies, so replay returns every event after the cursor. *)
Lemma log_inv_replay ring c after d :
  log_inv ring d c →
  replay_since (Some ring) c after d =
  Ok (map ir_event (List.filter (λ row, after <? er_seq (ir_event row)) (load_integrity_rows c d))).
Proof.
  unfold log_inv, replay_since, load_integrity_head. destruct (integrity_heads d !! c) as [h|].
  - intros Hh. by rewrite (proj2 (verify_integrity_Some _ _ _ _)) by apply Hh.
  - intros (_ & Hv1 & Hsig). rewrite (proj2 (verify_integrity_None _ _ _)); [done|].
    split; [by apply Forall_filter_bool|]. unfold load_integrity_rows, v2_rows.
    induction Hv1 as [|r l Hr _ IH]; cbn; [done|]. unfold is_version at 1. cbn. by rewrite Hr.
Qed.

Lemma log_inv_replay_all ring c d :
  log_inv ring d c →
  replay_since (Some ring) c 0 d = Ok (map ir_event (load_integrity_rows c d)).
Proof.
  intros Hinv. rewrite log_inv_replay by done. rewrite filter_all; [done|].
  destruct (log_inv_seqs _ _ _ Hinv) as [_ Hpos]. unfold load_integrity_rows.
  apply List.Forall_map. eapply Forall_impl; [exact Hpos|]. intros r Hr. apply Z.ltb_lt. cbn in *. lia.
Qed.

Lemma log_inv_empty ring c : log_inv ring empty_db c.
Proof. split; [split; [apply ascending_nil|constructor]|split; constructor]. Qed.

(** C5: append then replay.  On a conversation whose log satisfies the
    invariant, a keyed [append] of the next event succeeds, and afterwards
    [replay_since] verifies the log and returns the earlier events followed
    by exactly the appended one; the invariant holds again, and the rows and
    heads of every other conversation are untouched. *)
Theorem append_then_replay ring key ev d evs :
  let c := er_conversation_id ev in
  log_inv ring d c → current_key ring = Some key →
  er_seq ev = last_ev_seq (events_of c d) + 1 → er_seq ev ≤ i64_max →
  replay_since (Some ring) c 0 d = Ok evs →
  ∃ d', append (Some ring) ev d = (Ok (), d') ∧
    replay_since (Some ring) c 0 d' = Ok (evs ++ [ev]) ∧
    log_inv ring d' c ∧ ∀ c', c' ≠ c → same_log c' d d'.
Proof.
  intros c Hinv Hkey Hseq Hmax Hev.
  destruct (current_head_ok ring key c d Hinv Hkey) as (h & Hcur & Hh); [lia|].
  destruct (append_chained_ok "append" ring key c ev h d Hh Hkey) as (Happ & Hh' & Hload);
    [done|by rewrite (lh_head _ _ _ _ Hh)|done|].
  set (h' := signed_head ring key c h ev) in *.
  set (d1 := set_events _ d) in *.
  exists (set_heads <[c := h']> d1). split; [|split; [|split]].
  - apply transaction_ok. unfold append_tx, tx_bind, tx_get, tx_lift. fold c. rewrite Hcur.
    rewrite Happ. apply write_head_ok; [by eapply log_head_tag|by eapply log_head_checkpoint].
  - rewrite log_inv_replay_all in Hev |- * by eauto using log_inv_stored. injection Hev as <-.
    change (load_integrity_rows c (set_heads <[c:=h']> d1)) with (load_integrity_rows c d1).
    rewrite Hload, map_app. cbn [map]. unfold signed_row. by rewrite load_chained_row.
  - by apply log_inv_stored.
  - intros c' Hc'. split; [by apply events_of_insert_ne|]. cbn. by rewrite lookup_insert_ne.
Qed.
End Chain.

(** ** Decidable conditions, for closed logs *)
Section Closed.
Context `{Hmac}.

Definition no_collision_b (l1 l2 : list (bytes * bytes)) : bool :=
  forallb (λ km1, forallb (λ km2,
    negb (bool_decide (sign_event km1.1 km1.2 = sign_event km2.1 km2.2))
    || bool_decide (km1 = km2)) l2) l1.

Lemma no_collision_b_ok l1 l2 : no_collision_b l1 l2 = true → no_collision l1 l2.
Proof.
  unfold no_collision_b. rewrite forallb_forall. intros Hb km1 km2 H1 H2 Heq.
  apply list_elem_of_In in H1, H2. specialize (Hb _ H1). rewrite forallb_forall in Hb.
  specialize (Hb _ H2). rewrite bool_decide_true in Hb by done. by apply bool_decide_eq_true in Hb.
Qed.

Definition in_i64_b (z : Z) : bool := (i64_min <=? z) && (z <=? i64_max).

Lemma in_i64_b_ok z : in_i64_b z = true → in_i64 z.
Proof. unfold in_i64_b, in_i64. rewrite andb_true_iff, !Z.leb_le. tauto. Qed.

Definition row_wf_b (c : string) (row : IntegrityRow) : bool :=
  bool_decide (er_conversation_id (ir_event row) = c)
  && in_i64_b (er_seq (ir_event row)) && in_i64_b (er_committed_at (ir_event row))
  && in_i64_b (ir_key_id row)
  && ((ir_integrity_version row =? 1) || (ir_integrity_version row =? 2))
  && (vec_len (legacy_row_bytes row) <=? u64_max).

Lemma row_wf_b_ok c row : row_wf_b c row = true → row_wf c row.
Proof.
  unfold row_wf_b. rewrite !andb_true_iff, orb_true_iff, !Z.eqb_eq, Z.leb_le, bool_decide_eq_true.
  intros (((((? & ?) & ?) & ?) & ?) & ?). split; auto using in_i64_b_ok.
  unfold fits_u64, in_u64, vec_len in *. split; [apply Nat2Z.is_nonneg|done].
Qed.

Fixpoint sorted_b (rows : list IntegrityRow) : bool :=
  match rows with
  | [] => true
  | row :: rows => forallb (λ row', er_seq (ir_event row) <? er_seq (ir_event row')) rows && sorted_b rows
  end.

Lemma log_wf_b_ok c rows :
  forallb (row_wf_b c) rows && sorted_b rows && (vec_len rows <=? u64_max)
  && (vec_len (as_bytes c) <=? u64_max) = true → log_wf c rows.
Proof.
  rewrite !andb_true_iff, !Z.leb_le. intros (((Hw & Hs) & ?) & ?). split.
  - apply List.Forall_forall. intros row Hrow. apply row_wf_b_ok. by eapply forallb_forall in Hw.
  - clear Hw. induction rows as [|row rows IH]; cbn in Hs; constructor;
      apply andb_true_iff in Hs as [Hall Hs].
    + apply IH; [done|]. unfold vec_len in *. cbn in *. lia.
    + apply List.Forall_forall. intros row' Hin. eapply forallb_forall in Hall; [|done].
      unfold row_lt. by apply Z.ltb_lt.
  - unfold fits_u64, in_u64, vec_len in *. split; [apply Nat2Z.is_nonneg|done].
  - unfold fits_u64, in_u64, vec_len in *. split; [apply Nat2Z.is_nonneg|done].
Qed.
End Closed.

(** A one-key ring and a log with one event, for the closed examples. *)
#[local] Existing Instance toy_hmac.
#[local] Existing Instance toy_hmac_laws.

Definition toy_ring : KeyRing := kr_single 7 (as_bytes "k").
Definition toy_event : EventRecord := mkEvent "c" 1 UserMsg (as_bytes "hi") 1000 (Some "user").
Definition toy_log : Db := (append (Some toy_ring) toy_event empty_db).2.
Definition toy_head : IntegrityHead :=
  default (mkHead 0 0 [] 0 0 []) (integrity_heads toy_log !! "c").

Lemma checkpoint_determines_log_witness :
  length (load_integrity_rows "c" toy_log) = 1%nat ∧
  map authenticated (load_integrity_rows "c" toy_log) = map authenticated (load_integrity_rows "c" toy_log) ∧
  map signed_view (load_integrity_rows "c" toy_log) = map signed_view (load_integrity_rows "c" toy_log).
Proof.
  split; [vm_compute; reflexivity|].
  destruct (checkpoint_determines_log toy_ring "c" (load_integrity_rows "c" toy_log) toy_head
           "c" (load_integrity_rows "c" toy_log) toy_head) as (_ & _ & Hauth & Hview).
  1-2: apply log_wf_b_ok; vm_compute; reflexivity.
  1-2: repeat constructor; vm_compute; discriminate.
  1-2: vm_compute; reflexivity.
  - apply no_collision_b_ok. vm_compute. reflexivity.
  - reflexivity.
  - split; [exact Hauth|]. apply Hview; repeat constructor;
      try (apply (bool_decide_unpack (nul ∉ _)); vm_compute; exact I);
      intros Hv; exfalso; revert Hv; vm_compute; discriminate.
Defined.

Lemma append_then_replay_witness :
  ∃ d', append (Some toy_ring) toy_event empty_db = (Ok (), d') ∧
        replay_since (Some toy_ring) "c" 0 d' = Ok ([] ++ [toy_event]).
Proof.
  destruct (append_then_replay toy_ring (as_bytes "k") toy_event empty_db []) as (d' & Ha & Hr & _).
  - apply log_inv_empty.
  - vm_compute. reflexivity.
  - vm_compute. reflexivity.
  - vm_compute. discriminate.
  - vm_compute. reflexivity.
  - exists d'. split; [exact Ha|exact Hr].
Defined.
