(* ===== verification/Commit.v ===== *)
(** * Committing a turn

    [EventLog::commit_turn] and its parts (crates/core/src/events.rs): the
    payload envelope round trip, tool pairing, the shift of a stale base
    sequence, and the theorem that a commit extends the replayed log by the
    committed events, all or nothing. *)

From S2P Require Import Prelude Wire Text EventKind EventHmac Schema EventLog Chain.

(** ** Payload envelopes *)

Lemma take_drop_app {A} (p l : list A) : take (length p) (p ++ l) = p ∧ drop (length p) (p ++ l) = l.
Proof. split; [apply take_app_length|apply drop_app_length]. Qed.

(** Decoding an encoded payload gives back its body and the current
    schema, for every kind and every body, with no condition on the bytes of
    the body. *)
Lemma decode_encode_payload kind body p :
  encode_versioned_payload kind (Ok body) = Ok p →
  decode_versioned_payload kind p = Ok (schema_current kind, body).
Proof.
  unfold encode_versioned_payload. set (sb := as_bytes (schema_current kind)).
  change (vec_len sb) with 24. cbn [Z.leb Z.compare Pos.compare Pos.compare_cont].
  intros <-%Ok_inj. unfold decode_versioned_payload, bytes_start_with.
  rewrite take_app_length, bool_decide_true by done. cbn [negb].
  rewrite !drop_app_length, !drop_app_add, !length_app.
  change (length (u16_le 24)) with 2%nat. change (length sb) with 24%nat.
  destruct (Nat.ltb_spec (length VERSIONED_PAYLOAD_MAGIC + (2 + (24 + length body)))
              (length VERSIONED_PAYLOAD_MAGIC + 2)); [lia|].
  change (Z.to_nat (le_value (take 2 (u16_le 24 ++ sb ++ body)))) with 24%nat.
  destruct (Nat.ltb_spec (length VERSIONED_PAYLOAD_MAGIC + (2 + (24 + length body)))
              (length VERSIONED_PAYLOAD_MAGIC + 2 + 24)); [lia|].
  rewrite <-Nat.add_assoc, drop_app_add.
  change (drop 2 (u16_le 24 ++ sb ++ body)) with (sb ++ body).
  change (drop (2 + 24) (u16_le 24 ++ sb ++ body)) with (drop (length sb) (sb ++ body)).
  change 24%nat with (length sb). rewrite take_app_length, drop_app_length.
  change (utf8_valid sb) with true. cbn [negb]. by rewrite bool_decide_true.
Qed.

(** the payload envelope.  Encoding any body succeeds and decoding gives the
    body and the current schema back, with no condition on the bytes; a
    payload written before the envelope existed (no magic prefix) decodes as
    itself under the legacy schema; and a payload cut inside the envelope's
    header is an error, never a wrong body. *)
Theorem payload_envelope_roundtrip kind body :
  (∃ p, encode_versioned_payload kind (Ok body) = Ok p ∧
        decode_versioned_payload kind p = Ok (schema_current kind, body) ∧
        ∀ n, (length VERSIONED_PAYLOAD_MAGIC ≤ n < length p - length body)%nat →
          ∃ e, decode_versioned_payload kind (take n p) = Err (Serde e)) ∧
  (bytes_start_with VERSIONED_PAYLOAD_MAGIC body = false →
     decode_versioned_payload kind body = Ok (schema_legacy kind, body)).
Proof.
  split; [|intros Hm; unfold decode_versioned_payload; by rewrite Hm].
  eexists. split; [reflexivity|]. split; [by apply decode_encode_payload|].
  set (header := VERSIONED_PAYLOAD_MAGIC ++ u16_le 24 ++ as_bytes (schema_current kind)).
  intros n. rewrite !length_app. intros [Hlo Hhi].
  assert (length header = 40%nat) as Hh by reflexivity.
  assert (n < 40)%nat as Hn by (change (length VERSIONED_PAYLOAD_MAGIC) with 14%nat in *;
    change (length (u16_le _)) with 2%nat in *; change (length (as_bytes _)) with 24%nat in *; lia).
  rewrite !(assoc_L (++)), take_app_le by (change (n ≤ length header)%nat; lia).
  change (∃ e, decode_versioned_payload kind (take n header) = Err (Serde e)).
  change (length VERSIONED_PAYLOAD_MAGIC) with 14%nat in Hlo. clear Hhi Hh. subst header.
  do 14 (destruct n as [|n]; [lia|]). clear Hlo.
  do 26 (destruct n as [|n]; [by eexists|]). lia.
Qed.

(** ** Tool pairing *)

Section Pairing.
Context `{MsgPackLaws V}.
Implicit Types (events : list PendingEvent) (out : list EventRecord).

(** The tool ordinals of a written event. *)
Definition use_ordinal (ev : EventRecord) : option Z :=
  if bool_decide (er_kind ev = ToolUse) then
    match decode_tool_use (V:=V) (er_kind ev) (er_payload ev) with
    | Ok p => Some (tu_ordinal p) | Err _ => None end
  else None.

Definition result_ordinal (ev : EventRecord) : option Z :=
  if bool_decide (er_kind ev = ToolResult) then
    match decode_tool_result (V:=V) (er_kind ev) (er_payload ev) with
    | Ok p => Some (tr_ordinal p) | Err _ => None end
  else None.

(** The events of one conversation numbered from [s], all at time [now]. *)
Fixpoint numbered (c : string) (now s : Z) (out : list EventRecord) : Prop :=
  match out with
  | [] => True
  | ev :: out => er_conversation_id ev = c ∧ er_committed_at ev = now ∧ er_seq ev = s ∧
                 numbered c now (next_seq s) out
  end.

Definition as_pending (ev : EventRecord) : PendingEvent :=
  mkPending (er_kind ev) (er_payload ev) (er_actor ev).

Lemma cancellation_ordinal o payload c s now :
  encode_versioned_payload ToolResult (to_vec_tool_result (cancellation (V:=V) o)) = Ok payload →
  result_ordinal (mkEvent c s ToolResult payload now (Some "system")) = Some o.
Proof.
  intros He. unfold result_ordinal. cbn [er_kind er_payload]. rewrite bool_decide_true by done.
  destruct (to_vec_tool_result (cancellation o)) as [body|] eqn:Hb; [|done].
  unfold decode_tool_result. rewrite (decode_encode_payload _ _ _ He).
  by rewrite (tool_result_roundtrip _ _ Hb).
Qed.

(** Case analysis of one step of [materialize]. *)
Lemma materialize_cons c now results s ev events out :
  materialize (V:=V) c now results s (ev :: events) = Ok out →
  (∃ rest, out = mkEvent c s (pe_kind ev) (pe_payload ev) now (pe_actor ev) :: rest ∧
     materialize (V:=V) c now results (next_seq s) events = Ok rest ∧
     (pe_kind ev = ToolUse → ∃ o, o ∈ results ∧
        use_ordinal (mkEvent c s (pe_kind ev) (pe_payload ev) now (pe_actor ev)) = Some o)) ∨
  (∃ rest o payload,
     out = mkEvent c s (pe_kind ev) (pe_payload ev) now (pe_actor ev)
           :: mkEvent c (next_seq s) ToolResult payload now (Some "system") :: rest ∧
     materialize (V:=V) c now results (next_seq (next_seq s)) events = Ok rest ∧
     use_ordinal (mkEvent c s (pe_kind ev) (pe_payload ev) now (pe_actor ev)) = Some o ∧
     result_ordinal (mkEvent c (next_seq s) ToolResult payload now (Some "system")) = Some o).
Proof.
  cbn [materialize]. unfold use_ordinal. cbn [er_kind er_payload].
  case_bool_decide as Hk.
  - rewrite Hk. destruct (decode_tool_use ToolUse (pe_payload ev)) as [parsed|] eqn:Hd; [|done].
    case_bool_decide as Hin.
    + destruct (materialize _ _ _ _ events) as [rest|] eqn:Hm; [|done]. intros [= <-]. left.
      exists rest. split_and!; [done..|]. intros _. by exists (tu_ordinal parsed).
    + destruct (encode_versioned_payload _ _) as [payload|] eqn:He; [|done].
      destruct (materialize _ _ _ _ events) as [rest|] eqn:Hm; [|done]. intros [= <-]. right.
      exists rest, (tu_ordinal parsed), payload. split_and!; [done..|].
      by apply cancellation_ordinal.
  - destruct (materialize _ _ _ _ events) as [rest|] eqn:Hm; [|done]. intros [= <-]. left.
    exists rest. by split_and!.
Qed.

Lemma materialize_numbered c now results s events out :
  materialize (V:=V) c now results s events = Ok out → numbered c now s out.
Proof.
  revert s out. induction events as [|ev events IH]; intros s out; [by intros [= <-]|].
  intros [(rest & -> & Hm & _)|(rest & o & payload & -> & Hm & _)]%materialize_cons;
    cbn; auto 10.
Qed.

Lemma materialize_length c now results s events out :
  materialize (V:=V) c now results s events = Ok out → (length out ≤ 2 * length events)%nat.
Proof.
  revert s out. induction events as [|ev events IH]; intros s out; [by intros [= <-]|].
  intros [(rest & -> & Hm & _)|(rest & o & payload & -> & Hm & _)]%materialize_cons;
    apply IH in Hm; cbn; lia.
Qed.

Lemma materialize_keeps c now results s events out :
  materialize (V:=V) c now results s events = Ok out → events `sublist_of` map as_pending out.
Proof.
  revert s out. induction events as [|ev events IH]; intros s out; [by intros [= <-]|].
  destruct ev as [k p a].
  intros [(rest & -> & Hm & _)|(rest & o & payload & -> & Hm & _)]%materialize_cons;
    apply IH in Hm; cbn; [by constructor|]. by apply sublist_skip, sublist_cons.
Qed.

Lemma materialize_results c now s results events out :
  materialize (V:=V) c now results s events = Ok out →
  ∀ o, (∃ ev, ev ∈ events ∧ pe_kind ev = ToolResult ∧
          ∃ p, decode_tool_result (V:=V) ToolResult (pe_payload ev) = Ok p ∧ tr_ordinal p = o) →
       o ∈ omap result_ordinal out.
Proof.
  intros Hm o (ev & Hin & Hk & p & Hd & <-). apply materialize_keeps in Hm.
  apply (elem_of_sublist _ _ ev Hin) in Hm.
  apply list_elem_of_fmap in Hm as (e & -> & He). apply list_elem_of_omap.
  exists e. split; [done|]. unfold result_ordinal. cbn in Hk, Hd. rewrite Hk.
  rewrite bool_decide_true by done. by rewrite Hd.
Qed.
Lemma materialize_paired c now results s events out :
  materialize (V:=V) c now results s events = Ok out →
  ∀ ev, ev ∈ out → er_kind ev = ToolUse →
    ∃ o, use_ordinal ev = Some o ∧ (o ∈ results ∨ o ∈ omap result_ordinal out).
Proof.
  revert s out. induction events as [|e events IH]; intros s out; [intros [= <-]; set_solver|].
  intros [(rest & -> & Hm & Hu)|(rest & o & payload & -> & Hm & Hu & Hr)]%materialize_cons ev Hin Hk.
  - apply elem_of_cons in Hin as [->|Hin]; [destruct (Hu Hk) as (o & ? & ?); by eauto|].
    destruct (IH _ _ Hm _ Hin Hk) as (o & Ho & Hres). exists o. split; [done|].
    destruct Hres as [|Hres]; [by left|right]. cbn. destruct (result_ordinal _); [by right|done].
  - apply elem_of_cons in Hin as [->|Hin].
    { exists o. split; [done|]. right. apply list_elem_of_omap.
      eexists. split; [apply list_elem_of_further, list_elem_of_here|done]. }
    apply elem_of_cons in Hin as [->|Hin]; [done|].
    destruct (IH _ _ Hm _ Hin Hk) as (o' & Ho & Hres). exists o'. split; [done|].
    destruct Hres as [|Hres]; [by left|right]. apply list_elem_of_omap in Hres as (x & ? & ?).
    apply list_elem_of_omap. exists x. split; [by do 2 apply list_elem_of_further|done].
Qed.

Lemma result_ordinals_spec events results o :
  result_ordinals (V:=V) events = Ok results → o ∈ results →
  ∃ ev, ev ∈ events ∧ pe_kind ev = ToolResult ∧
    ∃ p, decode_tool_result (V:=V) ToolResult (pe_payload ev) = Ok p ∧ tr_ordinal p = o.
Proof.
  revert results. induction events as [|ev events IH]; intros results; cbn [result_ordinals];
    [intros [= <-]; set_solver|].
  case_bool_decide as Hk.
  - rewrite Hk. destruct (decode_tool_result _ _) as [p|] eqn:Hd; [|done].
    destruct (result_ordinals events) as [rs|] eqn:Hrs; [|done]. intros [= <-].
    intros [->|Hin]%elem_of_cons; [exists ev; split; [left|by eauto]|].
    destruct (IH _ eq_refl Hin) as (ev' & ? & ?). exists ev'. split; [by right|done].
  - intros Hrs Hin. destruct (IH _ Hrs Hin) as (ev' & ? & ?). exists ev'. split; [by right|done].
Qed.

(** C4: tool pairing.  Whatever batch is committed, the events written keep
    the batch in order and are numbered consecutively after the base; every
    [tool_use] among them has a [tool_result] with its ordinal in the same
    commit (a synthesized cancellation where the batch had none); and nothing
    else is added: at most one event per batch event. *)
Theorem tool_use_paired c base now events out :
  enforce_tool_pairing (V:=V) c base now events = Ok out →
  events `sublist_of` map as_pending out ∧ numbered c now (next_seq base) out ∧
  (length out ≤ 2 * length events)%nat ∧
  ∀ ev, ev ∈ out → er_kind ev = ToolUse →
    ∃ o r, use_ordinal ev = Some o ∧ r ∈ out ∧ result_ordinal r = Some o.
Proof.
  unfold enforce_tool_pairing. destruct (result_ordinals events) as [results|] eqn:Hr; [|done].
  intros Hm. split_and!.
  - by eapply materialize_keeps.
  - by eapply materialize_numbered.
  - by eapply materialize_length.
  - intros ev Hin Hk. destruct (materialize_paired _ _ _ _ _ _ Hm ev Hin Hk) as (o & Ho & Hres).
    assert (o ∈ omap result_ordinal out) as (r & Hr' & Hro)%list_elem_of_omap; [|by exists o, r].
    destruct Hres as [Hres|]; [|done]. eapply materialize_results; [done|].
    by eapply result_ordinals_spec.
Qed.
End Pairing.

(** ** The commit *)

Section Commit.
Context `{HmacLaws} `{MsgPackLaws V}.

(** [d'] differs from [d] in the events of [c] only. *)
Definition only_events (c : string) (d d' : Db) : Prop :=
  (∃ f, d' = set_events f d) ∧ ∀ c', c' ≠ c → events_of c' d' = events_of c' d.

Lemma only_events_refl c d : only_events c d d.
Proof. split; [exists id; by destruct d|done]. Qed.

Lemma only_events_trans c d1 d2 d3 : only_events c d1 d2 → only_events c d2 d3 → only_events c d1 d3.
Proof.
  intros [[f ->] Hf] [[g ->] Hg]. split; [by exists (g ∘ f)|].
  intros c' Hc. by rewrite Hg, Hf.
Qed.

Lemma numbered_seq c now s evs : numbered c now s evs → s + Z.of_nat (length evs) - 1 ≤ i64_max →
  1 ≤ s → Forall (λ ev, er_conversation_id ev = c ∧ s ≤ er_seq ev ≤ i64_max) evs.
Proof.
  revert s. induction evs as [|ev evs IH]; intros s; cbn [numbered length]; [constructor|].
  intros (Hc & _ & Hs & Hn) Hmax Hpos. constructor; [split; [done|lia]|].
  destruct evs as [|ev' evs]; [constructor|]. cbn [length] in *.
  unfold next_seq in Hn. rewrite i64_add_id in Hn by int_lia.
  eapply Forall_impl; [apply (IH _ Hn); lia|]. cbn. intros e [? ?]. split; [done|lia].
Qed.

(** A run of signed appends extends a verified log by its events. *)
Lemma append_all_ok ring key c evs h d now :
  log_head ring c d h → current_key ring = Some key →
  numbered c now (head_seq h + 1) evs →
  head_seq h + Z.of_nat (length evs) ≤ i64_max →
  ∃ h' d', append_all (Some ring) c evs h d = Ok (h', d') ∧ log_head ring c d' h' ∧
    only_events c d d' ∧
    map ir_event (load_integrity_rows c d') = map ir_event (load_integrity_rows c d) ++ evs.
Proof.
  intros Hh Hkey. revert h d Hh. induction evs as [|ev evs IH]; intros h d Hh Hn Hmax.
  - exists h, d. split_and!; [done..|apply only_events_refl|]. by rewrite app_nil_r.
  - cbn [numbered length] in *. destruct Hn as (Hc & _ & Hs & Hn).
    pose proof (log_head_seq_range _ _ _ _ Hh) as Hrange.
    destruct (append_chained_ok "commit" ring key c ev h d Hh Hkey Hc Hs) as (Happ & Hh' & Hload);
      [lia|].
    set (d1 := set_events _ d) in *. set (h1 := signed_head _ _ _ _ _) in *.
    destruct evs as [|ev' evs'].
    { exists h1, d1. split_and!; [by cbn; unfold tx_bind; rewrite Happ|done| |].
      - split; [by eexists|]. intros. by apply events_of_insert_ne.
      - rewrite Hload, map_app. cbn [map]. unfold signed_row. by rewrite load_chained_row. }
    unfold next_seq in Hn. rewrite i64_add_id in Hn by (cbn [length] in Hmax; int_lia).
    destruct (IH h1 d1 Hh') as (h' & d' & Hrest & Hh'' & Honly & Hmap).
    { cbn [h1 signed_head head_seq]. by rewrite Hs. }
    { cbn [h1 signed_head head_seq length] in *. lia. }
    exists h', d'. split_and!; [|done| |].
    + cbn [append_all]. unfold tx_bind at 1. rewrite Happ. done.
    + eapply only_events_trans; [|done]. split; [by eexists|]. intros. by apply events_of_insert_ne.
    + rewrite Hmap, Hload, map_app. cbn [map]. unfold signed_row. rewrite load_chained_row by done.
      by rewrite <-(assoc_L (++)).
Qed.

Lemma numbered_shift c now s delta evs :
  numbered c now s evs → numbered c now (i64_add s delta) (map (shift_seq delta) evs).
Proof.
  revert s. induction evs as [|ev evs IH]; intros s; cbn; [done|].
  intros (Hc & Ht & Hs & Hn). split_and!; [done..|by rewrite Hs|].
  apply IH in Hn. unfold next_seq, i64_add in *.
  rewrite wrap_i64_add_l in Hn |- *. by rewrite <-Z.add_assoc, (Z.add_comm delta), Z.add_assoc.
Qed.

(** The release of staged sends touches the outbox only. *)
Lemma release_effects c evs d :
  ∃ f, release_staged_transport_effects (V:=V) c evs d = Ok ((), set_outbox f d).
Proof.
  unfold release_staged_transport_effects.
  assert (∃ f, set_outbox f d = d) as [f Hf] by (exists id; by destruct d).
  set (src := match active_run_source c d with Some s => Some s | None => _ end).
  destruct src as [src|]; [|exists f; by rewrite Hf].
  cbv zeta. set (l := List.filter _ _).
  enough (∀ d, ∃ f, foldl (λ d o, set_outbox (map (release_row (mint c src o))) d) d l = set_outbox f d)
    as Hg by (destruct (Hg d) as [g ->]; by exists g).
  clear. induction l as [|o l IH]; intros d; cbn; [exists id; by destruct d|].
  destruct (IH (set_outbox (map (release_row (mint c src o))) d)) as [g ->]. by exists (g ∘ map (release_row (mint c src o))).
Qed.
(** The batch as committed: moved past the actual end of the log. *)
Definition rebased (d : Db) (c : string) (base : Z) (out : list EventRecord) : list EventRecord :=
  let delta := i64_sub (last_ev_seq (events_of c d)) base in
  if 0 <? delta then map (shift_seq delta) out else out.

Lemma rebased_numbered d c now base out :
  numbered c now (next_seq base) out → 0 ≤ base ≤ last_ev_seq (events_of c d) →
  last_ev_seq (events_of c d) < i64_max →
  numbered c now (last_ev_seq (events_of c d) + 1) (rebased d c base out).
Proof.
  intros Hn Hb Hmax. unfold rebased. rewrite i64_sub_id by int_lia. unfold next_seq in Hn.
  rewrite i64_add_id in Hn by int_lia.
  destruct (Z.ltb_spec 0 (last_ev_seq (events_of c d) - base)) as [Hlt|Hle].
  - apply (numbered_shift _ _ _ (last_ev_seq (events_of c d) - base)) in Hn.
    rewrite i64_add_id in Hn by int_lia.
    by replace (last_ev_seq (events_of c d) + 1)
      with (base + 1 + (last_ev_seq (events_of c d) - base)) by lia.
  - by replace (last_ev_seq (events_of c d)) with base by lia.
Qed.

Lemma rebased_pending d c base out : map as_pending (rebased d c base out) = map as_pending out.
Proof.
  unfold rebased. destruct (0 <? _); [|done]. rewrite map_map. by apply map_ext.
Qed.

Lemma rebased_length d c base out : length (rebased d c base out) = length out.
Proof. by rewrite <-(length_map as_pending), rebased_pending, length_map. Qed.

Lemma log_inv_outbox ring c d f : log_inv ring d c → log_inv ring (set_outbox f d) c.
Proof. apply same_log_inv. by split. Qed.

(** The final step of a keyed commit: head, projection, staged sends. *)
Lemma commit_tail ring c h evs (release : bool) d :
  log_head ring c d h →
  ∃ f, (write_integrity_head c h ;;* tx_ret () ;;*
        (if release then release_staged_transport_effects (V:=V) c evs else tx_ret ()) ;;*
        tx_ret evs) d = Ok (evs, set_outbox f (set_heads <[c := h]> d)).
Proof.
  intros Hh. unfold tx_bind at 1.
  rewrite write_head_ok by eauto using log_head_tag, log_head_checkpoint.
  destruct release.
  - destruct (release_effects c evs (set_heads <[c:=h]> d)) as [f Hf]. exists f.
    unfold tx_bind, tx_ret. by rewrite Hf.
  - exists id. unfold tx_bind, tx_ret. by destruct d.
Qed.

(** C3: a commit extends the log.  On a conversation whose log satisfies the
    invariant, a keyed [commit_turn] of a well-formed batch succeeds even when
    the caller's base sequence is stale (another commit landed first): the
    batch lands, unchanged apart from its sequence numbers, directly after the
    last event; replay verifies and returns the earlier events followed by
    the committed ones; the invariant is re-established and no other
    conversation changes. *)
Theorem commit_extends_log ring key now c base events out d evs :
  log_inv ring d c → current_key ring = Some key →
  enforce_tool_pairing (V:=V) c base now events = Ok out →
  0 ≤ base ≤ last_ev_seq (events_of c d) →
  last_ev_seq (events_of c d) + Z.of_nat (length out) ≤ i64_max →
  last_ev_seq (events_of c d) < i64_max →
  replay_since (Some ring) c 0 d = Ok evs →
  ∃ out' d', commit_turn (V:=V) (Some ring) now c base events d = (Ok out', d') ∧
    map as_pending out' = map as_pending out ∧
    numbered c now (last_ev_seq (events_of c d) + 1) out' ∧
    replay_since (Some ring) c 0 d' = Ok (evs ++ out') ∧
    log_inv ring d' c ∧ ∀ c', c' ≠ c → same_log c' d d'.
Proof.
  intros Hinv Hkey Hout Hbase Hlen Hmax Hev.
  assert (numbered c now (next_seq base) out) as Hn.
  { revert Hout. unfold enforce_tool_pairing. destruct (result_ordinals events); [|done].
    apply materialize_numbered. }
  destruct (current_head_ok ring key c d Hinv Hkey Hmax) as (h & Hcur & Hh).
  pose proof (rebased_numbered d c now base out Hn Hbase Hmax) as Hre.
  destruct (append_all_ok ring key c (rebased d c base out) h d now Hh Hkey)
    as (h' & d1 & Happ & Hh' & [[fe Hfe] Honly] & Hmap).
  { by rewrite (lh_head _ _ _ _ Hh). }
  { by rewrite rebased_length, (lh_head _ _ _ _ Hh). }
  destruct (commit_tail ring c h' (rebased d c base out)
    (existsb (λ ev, bool_decide (er_kind ev = ToolResult)) out) d1 Hh') as [f Htail].
  exists (rebased d c base out), (set_outbox f (set_heads <[c:=h']> d1)).
  split; [|split; [|split; [|split; [|split]]]].
  - apply transaction_ok. unfold commit_turn_with_projection.
    unfold tx_bind at 1. rewrite Hout. cbn [tx_lift]. unfold tx_bind at 1, tx_get.
    rewrite last_seq_of_loaded. fold (rebased d c base out).
    unfold tx_bind at 1. rewrite Hcur. cbn [tx_lift].
    unfold tx_bind at 1, has_current_key. cbn [option_bind mbind]. rewrite Hkey. cbn [tx_guard tx_ret].
    unfold tx_bind at 1. rewrite Happ. exact Htail.
  - apply rebased_pending.
  - done.
  - rewrite log_inv_replay_all in Hev by done. apply Ok_inj in Hev as <-.
    rewrite log_inv_replay_all by (apply log_inv_outbox, log_inv_stored, Hh'). by f_equal.
  - by apply log_inv_outbox, log_inv_stored.
  - intros c' Hc. split; [by apply Honly|]. cbn. rewrite lookup_insert_ne by done.
    by rewrite Hfe.
Qed.
(** a batch computed against a base ahead of the log is refused by a keyed
    log, and nothing is written: no gap ever opens in a signed log. *)
Theorem commit_ahead_refused ring key now c base events ev out d :
  log_inv ring d c → current_key ring = Some key →
  enforce_tool_pairing (V:=V) c base now events = Ok (ev :: out) →
  last_ev_seq (events_of c d) < base < i64_max →
  commit_turn (V:=V) (Some ring) now c base events d =
    (Err (Invariant ("v2 commit for " +:+ c +:+ " expected seq " +:+
       pretty (last_ev_seq (events_of c d) + 1) +:+ ", got " +:+ pretty (base + 1))), d).
Proof.
  intros Hinv Hkey Hout Hbase.
  pose proof (last_ev_seq_range _ (proj2 (log_inv_seqs _ _ _ Hinv))) as Hrange.
  destruct (current_head_ok ring key c d Hinv Hkey) as (h & Hcur & Hh); [lia|].
  assert (er_seq ev = base + 1) as Hseq.
  { revert Hout. unfold enforce_tool_pairing. destruct (result_ordinals events); [|done].
    intros Hm%materialize_numbered. destruct Hm as (_ & _ & -> & _). unfold next_seq.
    rewrite i64_add_id; int_lia. }
  unfold commit_turn, transaction, commit_turn_with_projection.
  unfold tx_bind at 1. rewrite Hout. cbn [tx_lift]. unfold tx_bind at 1, tx_get.
  rewrite last_seq_of_loaded, i64_sub_id by int_lia.
  destruct (Z.ltb_spec 0 (last_ev_seq (events_of c d) - base)); [lia|].
  unfold tx_bind at 1. rewrite Hcur. cbn [tx_lift].
  unfold tx_bind at 1, has_current_key. cbn [option_bind mbind]. rewrite Hkey. cbn [tx_guard tx_ret].
  cbn [append_all]. unfold tx_bind at 1, tx_bind at 1, append_chained.
  rewrite (lh_head _ _ _ _ Hh), i64_add_id, Hseq by int_lia.
  by rewrite (proj2 (Z.eqb_neq _ _)) by lia.
Qed.
End Commit.

(** ** A closed instance

    A codec satisfying the law, a one-key ring, and a log with one committed
    turn, for the closed examples. *)
#[local] Existing Instance toy_hmac.
#[local] Existing Instance toy_hmac_laws.

Definition toy_encode (p : ToolResultPayload unit) : result string bytes :=
  if bool_decide (0 ≤ tr_ordinal p ≤ u32_max) then
    Ok (u32_le (tr_ordinal p) ++
        match tr_outcome p with Ok _ => [] | Err s => nul :: as_bytes s end)
  else Err "ordinal".

Definition toy_decode (bs : bytes) : result string (ToolResultPayload unit) :=
  Ok (mkToolResult (le_value (take 4 bs))
        (match drop 4 bs with
         | [] => Ok ()
         | _ :: s => Err (String.string_of_list_byte s)
         end)).

#[global] Instance toy_msgpack : MsgPack unit := {|
  to_vec_tool_result := toy_encode;
  from_slice_tool_use bs := Ok (mkToolUse (le_value (take 4 bs)) "tool" ());
  from_slice_tool_result := toy_decode
|}.

#[global] Instance toy_msgpack_laws : MsgPackLaws unit.
Proof.
  intros [o outcome] bs. unfold to_vec_tool_result, from_slice_tool_result, toy_msgpack, toy_encode.
  cbn [tr_ordinal tr_outcome]. case_bool_decide as Ho; [|done].
  intros <-%Ok_inj. unfold toy_decode. f_equal.
  rewrite take_app_length', drop_app_length' by (symmetry; apply (length_u32_le o)).
  f_equal.
  - unfold u32_le. rewrite le_value_le_bytes. apply Z.mod_small. int_lia.
  - destruct outcome as [[]|e]; [done|]. by rewrite string_of_as_bytes.
Qed.

Definition toy_batch : list PendingEvent :=
  [mkPending UserMsg (as_bytes "hi") (Some "user"); mkPending ToolUse (u32_le 3) None].
Definition toy_commit (base : Z) (d : Db) : result DbError (list EventRecord) * Db :=
  commit_turn (V:=unit) (Some toy_ring) 1000 "c" base toy_batch d.

Definition toy_out (base : Z) : list EventRecord :=
  match enforce_tool_pairing (V:=unit) "c" base 1000 toy_batch with Ok out => out | Err _ => [] end.

Lemma tool_use_paired_witness :
  events_of "c" empty_db = [] ∧
  ∃ o r, use_ordinal (V:=unit) (mkEvent "c" 2 ToolUse (u32_le 3) 1000 None) = Some o ∧
         r ∈ toy_out 0 ∧ result_ordinal (V:=unit) r = Some o.
Proof.
  split; [reflexivity|].
  apply (tool_use_paired (V:=unit) "c" 0 1000 toy_batch (toy_out 0)).
  - vm_compute. reflexivity.
  - vm_compute. right. left.
  - reflexivity.
Defined.

Lemma commit_extends_log_witness :
  ∃ out' d', toy_commit 0 empty_db = (Ok out', d') ∧
    replay_since (Some toy_ring) "c" 0 d' = Ok ([] ++ out').
Proof.
  destruct (commit_extends_log (V:=unit) toy_ring (as_bytes "k") 1000 "c" 0 toy_batch (toy_out 0)
              empty_db []) as (out' & d' & Hc & _ & _ & Hr & _).
  - apply log_inv_empty.
  - vm_compute. reflexivity.
  - vm_compute. reflexivity.
  - vm_compute. split; discriminate.
  - vm_compute. discriminate.
  - vm_compute. reflexivity.
  - vm_compute. reflexivity.
  - exists out', d'. split; [exact Hc|exact Hr].
Defined.

Lemma commit_ahead_refused_witness :
  toy_commit 5 empty_db =
    (Err (Invariant ("v2 commit for " +:+ "c" +:+ " expected seq " +:+
       pretty (last_ev_seq (events_of "c" empty_db) + 1) +:+ ", got " +:+ pretty (5 + 1))), empty_db).
Proof.
  refine (commit_ahead_refused (V:=unit) toy_ring (as_bytes "k") 1000 "c" 5 toy_batch
    (hd (mkEvent "" 0 Other [] 0 None) (toy_out 5)) (tl (toy_out 5)) empty_db _ _ _ _).
  - apply log_inv_empty.
  - vm_compute. reflexivity.
  - vm_compute. reflexivity.
  - vm_compute. split; reflexivity.
Defined.
