(* ===== verification/ServiceBase.v ===== *)
(** * Operations of the service stores

    A store that is not a single transaction runs its statements in turn and
    keeps those that succeeded before an error; [act] is that sequence, over
    any state and any error.  Also the SQL functions the stores' constraints
    use. *)

From Stdlib Require Import Strings.Ascii.
From S2P Require Import Prelude Wire Text.

(** ** Sequences of statements *)

Definition act (S E A : Type) : Type := S → result E A * S.

Section Act.
Context {S E : Type}.

Definition act_ret {A} (a : A) : act S E A := λ s, (Ok a, s).
Definition act_err {A} (e : E) : act S E A := λ s, (Err e, s).
Definition act_lift {A} (r : result E A) : act S E A := λ s, (r, s).
Definition act_get {A} (f : S → A) : act S E A := λ s, (Ok (f s), s).
Definition act_bind {A B} (m : act S E A) (k : A → act S E B) : act S E B := λ s,
  match m s with (Ok a, s) => k a s | (Err e, s) => (Err e, s) end.
Definition act_guard (b : bool) (e : E) : act S E () := if b then act_ret () else act_err e.
End Act.

(** A closure under [Database::with_conn] of one statement, or under
    [Database::transaction]. *)
Definition act_tx {S A} (m : tx S A) : act S DbError A := transaction m.

Notation "'let!' x ':=' m 'in' k" := (act_bind m (λ x, k))
  (at level 10, x binder, m at level 100, k at level 200) : execlaw_scope.

(** ** SQL *)

Fixpoint before_nul (s : string) : string :=
  match s with
  | EmptyString => EmptyString
  | String c s => if Ascii.eqb c Ascii.zero then EmptyString else String c (before_nul s)
  end.

(** SQLite's [length(X)] of a text: its characters up to the first NUL. *)
Definition sql_length (s : string) : Z := Z.of_nat (char_count (before_nul s)).

(** An [INTEGER] column read as [i64]: SQLite turns a sum that leaves 64 bits
    into a [REAL], which rusqlite refuses to convert. *)
Definition read_i64 (z : Z) : result DbError Z :=
  if (i64_min <=? z) && (z <=? i64_max) then Ok z else Err (Sqlite "Invalid column type Real").

(** [u64::try_from(v).ok()] of an [i64], and back. *)
Definition u64_of_i64 (z : Z) : option Z := if 0 <=? z then Some z else None.
Definition i64_of_u64 (z : Z) : option Z := if z <=? i64_max then Some z else None.
(** [try_into().unwrap_or(u32::MAX)] *)
Definition u32_or_max (z : Z) : Z := if (0 <=? z) && (z <=? u32_max) then z else u32_max.


(** [s.bytes().all(p)] *)
Definition bytes_all (p : Ascii.ascii → bool) (s : string) : bool := forallb p (String.list_ascii_of_string s).
(** [s.trim().is_empty()] *)
Definition blank (s : string) : bool := String.eqb (trim s) "".

(** ** Facts *)

Lemma act_bind_ok {S E A B} (m : act S E A) (k : A → act S E B) s b s'' :
  act_bind m k s = (Ok b, s'') ↔ ∃ a s', m s = (Ok a, s') ∧ k a s' = (Ok b, s'').
Proof.
  unfold act_bind. destruct (m s) as [[a|e] s1]; split.
  - intros Hk. by exists a, s1.
  - intros (a' & s2 & [= <- <-] & Hk). done.
  - done.
  - by intros (? & ? & ? & ?).
Qed.

Lemma act_bind_step {S E A B} (m : act S E A) (k : A → act S E B) s a s' :
  m s = (Ok a, s') → act_bind m k s = k a s'.
Proof. unfold act_bind. by intros ->. Qed.

Lemma act_bind_stop {S E A B} (m : act S E A) (k : A → act S E B) s e s' :
  m s = (Err e, s') → act_bind m k s = (Err e, s').
Proof. unfold act_bind. by intros ->. Qed.

Lemma act_tx_ok {S A} (m : tx S A) s a s' : act_tx m s = (Ok a, s') ↔ m s = Ok (a, s').
Proof. apply transaction_ok. Qed.

Lemma act_tx_err {S A} (m : tx S A) s e s' : act_tx m s = (Err e, s') → s' = s.
Proof. apply transaction_err. Qed.

(** What holds of every state an operation passes through holds at its end. *)
Definition act_preserves {S E A} (P : S → S → Prop) (m : act S E A) : Prop :=
  ∀ s r s', m s = (r, s') → P s s'.

Section Preserves.
Context {S E : Type} (P : S → S → Prop) `{!PreOrder P}.

Lemma act_preserves_ret {A} (a : A) : act_preserves P (act_ret a : act S E A).
Proof. by intros s r s' [= _ <-]. Qed.
Lemma act_preserves_err {A} e : act_preserves P (act_err e : act S E A).
Proof. by intros s r s' [= _ <-]. Qed.
Lemma act_preserves_lift {A} (x : result E A) : act_preserves P (act_lift x).
Proof. by intros s r s' [= _ <-]. Qed.
Lemma act_preserves_get {A} (f : S → A) : act_preserves P (act_get f : act S E A).
Proof. by intros s r s' [= _ <-]. Qed.
Lemma act_preserves_bind {A B} (m : act S E A) (k : A → act S E B) :
  act_preserves P m → (∀ a, act_preserves P (k a)) → act_preserves P (act_bind m k).
Proof.
  intros Hm Hk s r s'. unfold act_bind. destruct (m s) as [[a|e] s1] eqn:Hs.
  - intros H2%Hk. apply Hm in Hs. by etransitivity.
  - intros [= _ <-]. by apply Hm in Hs.
Qed.
End Preserves.

Lemma act_preserves_tx {S A} (P : S → S → Prop) `{!PreOrder P} (m : tx S A) :
  (∀ s a s', m s = Ok (a, s') → P s s') → act_preserves P (act_tx m).
Proof.
  intros Hm s r s'. unfold act_tx, transaction. destruct (m s) as [[a s1]|e] eqn:Hs; intros [= _ <-]; [|done].
  by eapply Hm.
Qed.

Create HintDb act.
#[export] Hint Resolve act_preserves_ret act_preserves_err act_preserves_lift act_preserves_get : act.
