(* ===== verification/Procs.v ===== *)
(** * Requests served at the same time

    The server answers many requests at once: between two statements of one
    handler the statements of any other may run.  A handler is a [proc], a
    sequence of atomic statements on a shared state; [run_proc] serves it
    alone, [pool_step] one statement at a time among others.  [keeps P] says
    that a handler preserves [P] whatever ran in between, and [pool_keeps]
    that what every handler keeps is an invariant of the server. *)

From stdpp Require Import relations.
From S2P Require Import Prelude ServiceBase.

#[local] Unset Elimination Schemes.

(** ** Handlers *)

Inductive proc (S R : Type) : Type :=
| Finish (r : R)
| Atomic (X : Type) (stmt : S → X * S) (k : X → proc S R).

Arguments Finish {S R} r.
Arguments Atomic {S R X} stmt k.

(** The induction principle with the hypothesis for every answer of the
    statement. *)
Fixpoint proc_ind {S R} (P : proc S R → Prop) (Hf : ∀ r, P (Finish r))
    (Ha : ∀ X (stmt : S → X * S) k, (∀ x, P (k x)) → P (Atomic stmt k)) (p : proc S R) : P p :=
  match p with
  | Finish r => Hf r
  | Atomic stmt k => Ha _ stmt k (λ x, proc_ind P Hf Ha (k x))
  end.

Section Proc.
Context {S : Type}.

Fixpoint run_proc {R} (p : proc S R) (s : S) : R * S :=
  match p with
  | Finish r => (r, s)
  | Atomic stmt k => let '(x, s) := stmt s in run_proc (k x) s
  end.

Fixpoint proc_bind {A B} (p : proc S A) (q : A → proc S B) : proc S B :=
  match p with
  | Finish r => q r
  | Atomic stmt k => Atomic stmt (λ x, proc_bind (k x) q)
  end.

(** A handler that may stop with an error, and its sequencing by [?]. *)
Definition ok {E A} (a : A) : proc S (result E A) := Finish (Ok a).
Definition fail {E A} (e : E) : proc S (result E A) := Finish (Err e).
Definition try_bind {E A B} (p : proc S (result E A)) (q : A → proc S (result E B)) : proc S (result E B) :=
  proc_bind p (λ r, match r with Ok a => q a | Err e => fail e end).

(** A call of a store that is one statement, its error turned into the
    handler's. *)
Definition call {E E' A} (from : E' → E) (m : act S E' A) : proc S (result E A) :=
  Atomic m (λ r, Finish (match r with Ok a => Ok a | Err e => Err (from e) end)).
(** A statement that only reads. *)
Definition peek {E A} (f : S → A) : proc S (result E A) := Atomic (λ s, (f s, s)) ok.

(** ** Facts *)

Lemma run_proc_bind {A B} (p : proc S A) (q : A → proc S B) s :
  run_proc (proc_bind p q) s = let '(a, s) := run_proc p s in run_proc (q a) s.
Proof.
  revert s. induction p as [r|X stmt k IH] using proc_ind; intros s; cbn; [done|].
  destruct (stmt s) as [x s']. apply IH.
Qed.

Lemma run_try_bind {E A B} (p : proc S (result E A)) (q : A → proc S (result E B)) s :
  run_proc (try_bind p q) s =
  match run_proc p s with (Ok a, s) => run_proc (q a) s | (Err e, s) => (Err e, s) end.
Proof. unfold try_bind. rewrite run_proc_bind. by destruct (run_proc p s) as [[a|e] s']. Qed.

Lemma try_ok {E A B} (a : A) (q : A → proc S (result E B)) : try_bind (ok a) q = q a.
Proof. done. Qed.

Lemma run_call {E E' A} (from : E' → E) (m : act S E' A) s :
  run_proc (call from m) s =
  match m s with (Ok a, s) => (Ok a, s) | (Err e, s) => (Err (from e), s) end.
Proof. cbn. by destruct (m s) as [[a|e] s']. Qed.

(** ** What a handler keeps, whatever else runs *)

Fixpoint keeps {R} (P : S → Prop) (p : proc S R) : Prop :=
  match p with
  | Finish _ => True
  | Atomic stmt k => ∀ s, P s → P (stmt s).2 ∧ keeps P (k (stmt s).1)
  end.

Lemma keeps_run {R} (P : S → Prop) (p : proc S R) s : keeps P p → P s → P (run_proc p s).2.
Proof.
  revert s. induction p as [r|X stmt k IH] using proc_ind; intros s; cbn; [done|].
  intros Hk Hs. destruct (Hk s Hs) as [H1 H2]. destruct (stmt s) as [x s']. by apply IH.
Qed.

Lemma proc_keeps_bind {A B} (P : S → Prop) (p : proc S A) (q : A → proc S B) :
  keeps P p → (∀ a, keeps P (q a)) → keeps P (proc_bind p q).
Proof.
  intros Hp Hq. revert Hp. induction p as [r|X stmt k IH] using proc_ind; cbn; [done|].
  intros Hk s Hs. destruct (Hk s Hs) as [H1 H2]. split; [done|]. by apply IH.
Qed.

Lemma keeps_try {E A B} (P : S → Prop) (p : proc S (result E A)) (q : A → proc S (result E B)) :
  keeps P p → (∀ a, keeps P (q a)) → keeps P (try_bind p q).
Proof. intros Hp Hq. apply proc_keeps_bind; [done|]. by intros [a|e]; [apply Hq|]. Qed.

(** What a handler may answer, whatever that keeps [P] ran in between. *)
Fixpoint answers {R} (P : S → Prop) (Q : R → Prop) (p : proc S R) : Prop :=
  match p with
  | Finish r => Q r
  | Atomic stmt k => ∀ s, P s → answers P Q (k (stmt s).1)
  end.

Lemma answers_bind {A B} (P : S → Prop) (Q : A → Prop) (Q' : B → Prop) (p : proc S A) (q : A → proc S B) :
  answers P Q p → (∀ a, Q a → answers P Q' (q a)) → answers P Q' (proc_bind p q).
Proof.
  intros Hp Hq. revert Hp. induction p as [r|X stmt k IH] using proc_ind; cbn; [by apply Hq|].
  intros Hk s Hs. by apply IH, Hk.
Qed.

Lemma answers_mono {A} (P : S → Prop) (Q Q' : A → Prop) (p : proc S A) :
  (∀ a, Q a → Q' a) → answers P Q p → answers P Q' p.
Proof.
  intros Himp. induction p as [r|X stmt k IH] using proc_ind; cbn; [by apply Himp|].
  intros Hk s Hs. by apply IH, Hk.
Qed.

Lemma answers_try {E A B} (P : S → Prop) (Q : result E B → Prop) (p : proc S (result E A)) (q : A → proc S (result E B)) :
  (∀ e, Q (Err e)) → (∀ a, answers P Q (q a)) → answers P Q (try_bind p q).
Proof.
  intros He Hq. eapply (answers_bind _ (λ _, True)).
  - induction p as [r|X stmt k IH] using proc_ind; cbn; auto.
  - intros [a|e] _; [apply Hq|apply He].
Qed.

Lemma answers_run {A} (P : S → Prop) (Q : A → Prop) (p : proc S A) s :
  keeps P p → answers P Q p → P s → Q (run_proc p s).1.
Proof.
  revert s. induction p as [r|X stmt k IH] using proc_ind; intros s; cbn; [done|].
  intros Hk Ha Hs. destruct (Hk s Hs) as [H1 H2]. specialize (Ha s Hs).
  destruct (stmt s) as [x s']. by apply IH.
Qed.

(** The answer of the first part may be used for the rest. *)
Lemma keeps_bind_answer {A B} (P : S → Prop) (Q : A → Prop) (p : proc S A) (q : A → proc S B) :
  keeps P p → answers P Q p → (∀ a, Q a → keeps P (q a)) → keeps P (proc_bind p q).
Proof.
  intros Hp Ha Hq. revert Hp Ha. induction p as [r|X stmt k IH] using proc_ind; cbn; [by intros _; apply Hq|].
  intros Hk Ha s Hs. destruct (Hk s Hs) as [H1 H2]. split; [done|]. by apply IH, Ha.
Qed.

Lemma keeps_try_answer {E A B} (P : S → Prop) (Q : A → Prop) (p : proc S (result E A)) (q : A → proc S (result E B)) :
  keeps P p → answers P (λ r, ∀ a, r = Ok a → Q a) p → (∀ a, Q a → keeps P (q a)) → keeps P (try_bind p q).
Proof.
  intros Hp Ha Hq. eapply keeps_bind_answer; [done|exact Ha|].
  intros [a|e] Hr; [by apply Hq, Hr|done].
Qed.

Lemma keeps_call {E E' A} (P : S → Prop) (from : E' → E) (m : act S E' A) :
  (∀ s, P s → P (m s).2) → keeps P (call from m).
Proof. intros Hm s Hs. split; [by apply Hm|done]. Qed.

Lemma keeps_peek {E A} (P : S → Prop) (f : S → A) : keeps P (peek (E := E) f).
Proof. by intros s Hs. Qed.

(** ** The server *)

(** A state and the handlers in flight.  The environment changes the state by
    [env] (the clock, other processes) and submits the requests [accepts]
    describes. *)
Section Pool.
Context {R : Type} (env : S → S → Prop) (accepts : S → proc S R → Prop).

Inductive pool_step : S * list (proc S R) → S * list (proc S R) → Prop :=
| step_env s s' ps : env s s' → pool_step (s, ps) (s', ps)
| step_accept s ps p : accepts s p → pool_step (s, ps) (s, ps ++ [p])
| step_run s ps i X (stmt : S → X * S) k :
    ps !! i = Some (Atomic stmt k) →
    pool_step (s, ps) ((stmt s).2, <[i := k (stmt s).1]> ps).

Lemma pool_keeps (P : S → Prop) c c' :
  rtc pool_step c c' →
  (∀ s s', env s s' → P s → P s') → (∀ s p, accepts s p → keeps P p) →
  P c.1 → Forall (keeps P) c.2 → P c'.1 ∧ Forall (keeps P) c'.2.
Proof.
  intros Hc Henv Hacc. induction Hc as [c|c c1 c2 Hstep _ IH]; [done|].
  intros Hs Hps. apply IH; destruct Hstep as [s s' ps He|s ps p Ha|s ps i X stmt k Hi]; cbn in *.
  - by eapply Henv.
  - done.
  - eapply Forall_lookup_1 in Hps; [|done]. by apply (Hps s Hs).
  - done.
  - apply Forall_app. split; [done|]. apply Forall_singleton. by eapply Hacc.
  - apply Forall_insert; [done|]. eapply Forall_lookup_1 in Hps; [|done]. by apply (Hps s Hs).
Qed.

(** A handler may run to its end with nothing in between. *)
Lemma run_alone_steps s ps p :
  rtc pool_step (s, ps ++ [p]) ((run_proc p s).2, ps ++ [Finish (run_proc p s).1]).
Proof.
  revert s. induction p as [r|X stmt k IH] using proc_ind; intros s; cbn; [done|].
  assert ((ps ++ [Atomic stmt k]) !! length ps = Some (Atomic stmt k)) as Hi by by apply list_lookup_middle.
  pose proof (step_run s _ (length ps) X stmt k Hi) as Hstep.
  rewrite insert_app_r_alt, Nat.sub_diag in Hstep by done. cbn in Hstep.
  destruct (stmt s) as [x s']. eapply rtc_l; [exact Hstep|apply IH].
Qed.

(** One interleaving, chosen by a schedule: whose statement runs next. *)
Definition step_at (i : nat) (c : S * list (proc S R)) : S * list (proc S R) :=
  match c.2 !! i with
  | Some (Atomic stmt k) => let '(x, s) := stmt c.1 in (s, <[i := k x]> c.2)
  | _ => c
  end.
Fixpoint run_schedule (schedule : list nat) (c : S * list (proc S R)) : S * list (proc S R) :=
  match schedule with [] => c | i :: schedule => run_schedule schedule (step_at i c) end.

Lemma run_schedule_steps schedule c : rtc pool_step c (run_schedule schedule c).
Proof.
  revert c. induction schedule as [|i schedule IH]; intros [s ps]; cbn; [done|].
  unfold step_at. cbn. destruct (ps !! i) as [[r|X stmt k]|] eqn:Hi; [apply IH| |apply IH].
  pose proof (step_run s ps i X stmt k Hi) as Hstep. destruct (stmt s) as [x s']. by eapply rtc_l, IH.
Qed.
End Pool.

(** ** Rely and guarantee *)

(** A handler that keeps the invariant [I], changes the state only by [R] and
    may rely on the others doing the same: what it knows between two statements
    is stable under [R].  [spec Pre p Q] says so of [p] started when [Pre]
    holds, with [Q] at its end. *)
Section Rely.
Context (I : S → Prop) (R : S → S → Prop).

Definition stable (T : S → Prop) : Prop := ∀ s s', R s s' → T s → T s'.

Fixpoint spec {A} (Pre : S → Prop) (p : proc S A) (Q : A → S → Prop) : Prop :=
  match p with
  | Finish r => ∀ s, I s → Pre s → Q r s
  | Atomic stmt k => ∀ s, I s → Pre s →
      I (stmt s).2 ∧ R s (stmt s).2 ∧ ∃ Post, stable Post ∧ Post (stmt s).2 ∧ spec Post (k (stmt s).1) Q
  end.

(** What a fallible handler establishes when it succeeds. *)
Definition on_ok {E A} (Q : A → S → Prop) (r : result E A) (s : S) : Prop :=
  match r with Ok a => Q a s | Err _ => True end.

Lemma spec_pre {A} (Pre Pre' : S → Prop) (p : proc S A) Q :
  (∀ s, I s → Pre s → Pre' s) → spec Pre' p Q → spec Pre p Q.
Proof. intros Hpre. destruct p as [r|X stmt k]; cbn; intros Hp s Hs Hs'; apply Hp; auto. Qed.

Lemma spec_post {A} Pre (p : proc S A) (Q Q' : A → S → Prop) :
  (∀ a s, Q a s → Q' a s) → spec Pre p Q → spec Pre p Q'.
Proof.
  intros HQ. revert Pre. induction p as [r|X stmt k IH] using proc_ind; intros Pre; cbn.
  - intros Hp s Hs Hpre. by apply HQ, Hp.
  - intros Hp s Hs Hpre. destruct (Hp s Hs Hpre) as (HI & HR & Post & Hst & Hpost & Hk).
    split_and!; [done..|]. exists Post. split_and!; [done..|]. by apply IH.
Qed.

Lemma spec_bind {A B} Pre (p : proc S A) (q : A → proc S B) Q Q' :
  spec Pre p Q → (∀ a, spec (Q a) (q a) Q') → spec Pre (proc_bind p q) Q'.
Proof.
  intros Hp Hq. revert Pre Hp. induction p as [r|X stmt k IH] using proc_ind; intros Pre Hp; cbn.
  - eapply spec_pre; [|apply Hq]. exact Hp.
  - intros s Hs Hpre. destruct (Hp s Hs Hpre) as (HI & HR & Post & Hst & Hpost & Hk).
    split_and!; [done..|]. exists Post. split_and!; [done..|]. by apply IH.
Qed.

Lemma spec_try {E A B} Pre (p : proc S (result E A)) (q : A → proc S (result E B)) Q Q' :
  spec Pre p (on_ok Q) → (∀ a, spec (Q a) (q a) (on_ok Q')) → spec Pre (try_bind p q) (on_ok Q').
Proof. intros Hp Hq. eapply spec_bind; [exact Hp|]. intros [a|e]; [apply Hq|done]. Qed.

(** A statement. *)
Lemma spec_call {E E' A} (Pre : S → Prop) (from : E' → E) (m : act S E' A) Q :
  (∀ a, stable (Q a)) →
  (∀ s, I s → Pre s → I (m s).2 ∧ R s (m s).2 ∧ on_ok Q (m s).1 (m s).2) →
  spec Pre (call from m) (on_ok Q).
Proof.
  intros Hst Hm s Hs Hpre. destruct (Hm s Hs Hpre) as (HI & HR & HQ). split_and!; [done..|].
  exists (on_ok Q (m s).1). split_and!; [|done|].
  - destruct (m s).1; [apply Hst|done].
  - cbn. by destruct (m s).1.
Qed.

Lemma spec_peek {E A} Pre (f : S → A) Q :
  Reflexive R → (∀ a, stable (Q a)) → (∀ s, I s → Pre s → Q (f s) s) → spec Pre (peek (E := E) f) (on_ok Q).
Proof.
  intros Hrefl Hst Hf s Hs Hpre. cbn. split_and!; [done..|]. exists (Q (f s)). split_and!; [done|by apply Hf|done].
Qed.

(** A part that is no statement. *)
Lemma spec_pure {A} Pre (r : A) Q : (∀ s, I s → Pre s → Q r s) → spec Pre (Finish r) Q.
Proof. done. Qed.

(** A handler in flight, at a point where what it knows holds. *)
Definition going {T} (s : S) (p : proc S T) : Prop := ∃ Pre, stable Pre ∧ Pre s ∧ spec Pre p (λ _ _, True).

Lemma going_mono {T} s s' (ps : list (proc S T)) : R s s' → Forall (going s) ps → Forall (going s') ps.
Proof.
  intros HR Hall. eapply Forall_impl; [exact Hall|]. intros p (Pre & Hst & Hpre & Hp).
  exists Pre. split_and!; [done|by eapply Hst|done].
Qed.

Lemma going_start {T} s (p : proc S T) : spec (λ _, True) p (λ _ _, True) → going s p.
Proof. intros Hp. by exists (λ _, True). Qed.

Lemma going_finished {T} s (r : T) : going s (Finish r).
Proof. exists (λ _, True). by split_and!. Qed.

Section Step.
Context {T : Type} (env : S → S → Prop) (accepts : S → proc S T → Prop).
Context (Hrefl : Reflexive R) (Henv : ∀ s s', env s s' → I s → I s' ∧ R s s').
Context (Hacc : ∀ s p, accepts s p → I s → going s p).

Lemma pool_step_rely c c' :
  pool_step env accepts c c' → I c.1 → Forall (going c.1) c.2 →
  I c'.1 ∧ R c.1 c'.1 ∧ Forall (going c'.1) c'.2.
Proof.
  intros Hstep Hs Hgo. destruct Hstep as [s s' ps He|s ps p Ha|s ps i X stmt k Hi]; cbn in *.
  - destruct (Henv s s' He Hs) as [HI HR]. split_and!; [done..|by eapply going_mono].
  - split_and!; [done..|]. apply Forall_app. split; [done|]. apply Forall_singleton.
    by apply Hacc.
  - pose proof Hgo as Hk. eapply Forall_lookup_1 in Hk as (Pre & Hst & Hpre & Hp); [|done].
    destruct (Hp s Hs Hpre) as (HI & HR & Post & Hst' & Hpost & Hk). split_and!; [done..|].
    apply Forall_insert; [by eapply going_mono|]. by exists Post.
Qed.

(** In a reached state the invariant holds and every handler in flight is
    still going; each further step is one of [R]. *)
Lemma pool_always c c' :
  rtc (pool_step env accepts) c c' → I c.1 → Forall (going c.1) c.2 → I c'.1 ∧ Forall (going c'.1) c'.2.
Proof.
  induction 1 as [c|c c1 c2 Hstep _ IH]; [done|]. intros Hs Hgo.
  destruct (pool_step_rely _ _ Hstep Hs Hgo) as (HI & _ & Hgo1). by apply IH.
Qed.
End Step.

Section Served.
Context {T : Type} (env : S → S → Prop) (accepts : S → proc S T → Prop).
Context (Hpo : PreOrder R) (Henv : ∀ s s', env s s' → I s → I s' ∧ R s s').
Context (Hacc : ∀ s p, accepts s p → spec (λ _, True) p (λ _ _, True)).

Lemma started s p : accepts s p → I s → going s p.
Proof. intros Ha _. by eapply going_start, Hacc. Qed.

Lemma pool_rely_going c c' :
  rtc (pool_step env accepts) c c' → I c.1 → Forall (going c.1) c.2 →
  I c'.1 ∧ R c.1 c'.1 ∧ Forall (going c'.1) c'.2.
Proof.
  induction 1 as [c|c c1 c2 Hstep _ IH]; [done|]. intros Hs Hgo.
  destruct (pool_step_rely env accepts _ Henv started _ _ Hstep Hs Hgo) as (HI & HR & Hgo1).
  destruct (IH HI Hgo1) as (? & ? & ?). split_and!; [done|by etrans|done].
Qed.

Lemma pool_rely c c' :
  rtc (pool_step env accepts) c c' → I c.1 → c.2 = [] → I c'.1 ∧ R c.1 c'.1.
Proof. intros Hc Hs Hps. edestruct pool_rely_going as (? & ? & _); [done..|by rewrite Hps|done]. Qed.

(** What a handler in flight establishes when it ends, whatever ran in
    between. *)
Lemma pool_spec c c' i p Pre (Q : T → S → Prop) r :
  rtc (pool_step env accepts) c c' → I c.1 → Forall (going c.1) c.2 →
  c.2 !! i = Some p → stable Pre → Pre c.1 → spec Pre p Q →
  c'.2 !! i = Some (Finish r) → Q r c'.1.
Proof.
  intros Hc. revert p Pre. induction Hc as [c|c c1 c2 Hstep _ IH]; intros p Pre Hs Hgo Hi Hst Hpre Hp Hr.
  { rewrite Hi in Hr. injection Hr as ->. by apply Hp. }
  destruct (pool_step_rely env accepts _ Henv started _ _ Hstep Hs Hgo) as (HI & HR & Hgo1).
  destruct Hstep as [s s' ps He|s ps p' Ha|s ps j X stmt k Hj]; cbn in *.
  - eapply IH; [exact HI|exact Hgo1|exact Hi|exact Hst|by eapply Hst|exact Hp|exact Hr].
  - eapply IH; [exact HI|exact Hgo1|by apply lookup_app_l_Some|exact Hst|by eapply Hst|exact Hp|exact Hr].
  - destruct (decide (i = j)) as [->|Hij].
    + rewrite Hj in Hi. injection Hi as <-. destruct (Hp s Hs Hpre) as (_ & _ & Post & Hst' & Hpost & Hk).
      eapply IH; [exact HI|exact Hgo1| |exact Hst'|exact Hpost|exact Hk|exact Hr].
      apply list_lookup_insert_eq. by eapply lookup_lt_Some.
    + eapply IH; [exact HI|exact Hgo1| |exact Hst|by eapply Hst|exact Hp|exact Hr]. by rewrite list_lookup_insert_ne.
Qed.
End Served.
End Rely.

(** ** Spending a shared budget *)

(** [cost] is what was spent of a shared budget less what was put into it.  A
    handler that [pays n] never spends more than it put in itself and [n];
    [Q] says what is left over at its end. *)
Section Pays.
Context (I : S → Prop) (cost : S → Z).

Fixpoint pays {A} (n : Z) (p : proc S A) (Q : A → Z → Prop) : Prop :=
  match p with
  | Finish r => Q r n
  | Atomic stmt k => ∀ s, I s →
      I (stmt s).2 ∧ ∃ m, 0 ≤ m ∧ cost (stmt s).2 + m ≤ cost s + n ∧ pays m (k (stmt s).1) Q
  end.

Lemma pays_post {A} n (p : proc S A) (Q Q' : A → Z → Prop) :
  (∀ a m, Q a m → Q' a m) → pays n p Q → pays n p Q'.
Proof.
  intros HQ. revert n. induction p as [r|X stmt k IH] using proc_ind; intros n; cbn; [apply HQ|].
  intros Hp s Hs. destruct (Hp s Hs) as (HI & m & ? & ? & Hk). split; [done|]. exists m. auto.
Qed.

Lemma pays_bind {A B} n (p : proc S A) (q : A → proc S B) Q Q' :
  pays n p Q → (∀ a m, Q a m → pays m (q a) Q') → pays n (proc_bind p q) Q'.
Proof.
  intros Hp Hq. revert n Hp. induction p as [r|X stmt k IH] using proc_ind; intros n Hp; cbn; [by apply Hq|].
  intros s Hs. destruct (Hp s Hs) as (HI & m & ? & ? & Hk). split; [done|]. exists m. auto.
Qed.

(** A fallible first part that leaves everything over. *)
Lemma pays_try {E A B} n (p : proc S (result E A)) (q : A → proc S (result E B)) Q :
  pays n p (λ _ m, m = n) → (∀ e, Q (Err e) n) → (∀ a, pays n (q a) Q) → pays n (try_bind p q) Q.
Proof. intros Hp He Hq. eapply pays_bind; [exact Hp|]. intros [a|e] m ->; [apply Hq|apply He]. Qed.

Fixpoint total (ns : list Z) : Z := match ns with [] => 0 | n :: ns => n + total ns end.

Lemma total_insert ns i n m : ns !! i = Some n → total (<[i := m]> ns) = total ns - n + m.
Proof.
  revert i. induction ns as [|x ns IH]; intros [|i]; cbn; [done..| |].
  - intros [= ->]. lia.
  - intros Hi%IH. change (x + total (<[i := m]> ns) = x + total ns - n + m). lia.
Qed.
Lemma total_snoc ns n : total (ns ++ [n]) = total ns + n.
Proof. induction ns as [|x ns IH]; cbn; lia. Qed.
Lemma total_nonneg ns : Forall (λ n, 0 ≤ n) ns → 0 ≤ total ns.
Proof. induction 1; cbn; lia. Qed.

(** Handlers that pay for themselves never spend more than they put in,
    however they are interleaved. *)
Lemma pool_pays {T} (env : S → S → Prop) (accepts : S → proc S T → Prop) c c' :
  (∀ s s', env s s' → I s → I s' ∧ cost s' ≤ cost s) →
  (∀ s p, accepts s p → pays 0 p (λ _ _, True)) →
  rtc (pool_step env accepts) c c' → I c.1 → c.2 = [] → I c'.1 ∧ cost c'.1 ≤ cost c.1.
Proof.
  intros Henv Hacc Hc. set (funded ns (ps : list (proc S T)) := Forall2 (λ n p, 0 ≤ n ∧ pays n p (λ _ _, True)) ns ps).
  assert (∀ c c', rtc (pool_step env accepts) c c' → ∀ ns, I c.1 → funded ns c.2 →
    ∃ ns', I c'.1 ∧ funded ns' c'.2 ∧ cost c'.1 + total ns' ≤ cost c.1 + total ns) as Hall.
  { clear c c' Hc. induction 1 as [c|c c1 c2 Hstep _ IH]; intros ns Hs Hf; [by exists ns|].
    assert (∃ ns1, I c1.1 ∧ funded ns1 c1.2 ∧ cost c1.1 + total ns1 ≤ cost c.1 + total ns) as (ns1 & Hs1 & Hf1 & Hle1).
    { destruct Hstep as [s s' ps He|s ps p Ha|s ps i X stmt k Hi]; cbn in *.
      - destruct (Henv s s' He Hs) as [HI Hle]. exists ns. split_and!; [done..|lia].
      - exists (ns ++ [0]). split_and!; [done| |rewrite total_snoc; lia].
        apply Forall2_app; [done|]. constructor; [|constructor]. split; [done|]. by eapply Hacc.
      - destruct (Forall2_lookup_r _ _ _ _ _ Hf Hi) as (n & Hn & Hn0 & Hp).
        destruct (Hp s Hs) as (HI & m & Hm & Hle & Hk). exists (<[i := m]> ns). split_and!; [done| |].
        + by apply Forall2_insert.
        + rewrite (total_insert _ _ _ _ Hn). lia. }
    destruct (IH ns1 Hs1 Hf1) as (ns2 & Hs2 & Hf2 & Hle2). exists ns2. split_and!; [done..|lia]. }
  intros Hs Hps. destruct (Hall c c' Hc []) as (ns & HI & Hf & Hle); [done|rewrite Hps; constructor|].
  split; [done|]. assert (0 ≤ total ns); [|cbn in Hle; lia]. apply total_nonneg.
  clear -Hf. induction Hf as [|n p ns ps [? _] _ IH]; by constructor.
Qed.
End Pays.
End Proc.

Notation "'let^' x ':=' p 'in' q" := (try_bind p (λ x, q))
  (at level 10, x binder, p at level 100, q at level 200) : execlaw_scope.
