(* ===== verification/Maintenance.v ===== *)
(** * The maintenance passes

    [EventLog::backfill_null_tags], [resign_all_with_current_key] and
    [backfill_v2_checkpoints] (crates/core/src/events.rs): sequences of
    statements, each under its own [Database::with_conn] or transaction, so
    that other writers may run between any two of them.  What a tag pass does
    alone, that a second one does nothing, and the one class of rows it signs
    in a way replay rejects; what may run at the same time is the matter of
    [LogSafety]. *)

From S2P Require Import Prelude Wire Text EventKind EventHmac Schema EventLog Chain ServiceBase Procs.

(** ** Definitions *)

Record BackfillReport : Type := mkReport {
  rp_signed : Z;
  rp_skipped : Z;
  rp_null_remaining : Z
}.

Definition null_tag (r : EventRow) : bool := bool_decide (ev_tag r = None).

Section Passes.
Context {HM : Hmac}.

Definition log_op (A : Type) : Type := proc Db (result DbError A).
Definition log_stmt {A} (m : act Db DbError A) : log_op A := call id m.

(** The [SELECT] of the rows a pass signs; it states no order. *)
Definition select_rows (p : EventRow → bool) (d : Db) : list (string * EventRow) :=
  concat (map (λ cr, map (pair cr.1) (List.filter p cr.2)) (map_to_list (state_events d))).

(** The v1 tag of a row as it was read; the kind is the stored string, not the
    parsed kind. *)
Definition row_tag (key : bytes) (c : string) (r : EventRow) : bytes :=
  sign_event key (canonical_bytes c (ev_seq r) (ev_kind r) (ev_committed_at r) (ev_actor r) (ev_payload r)).

Definition with_tag (tag : bytes) (key_id : Z) (r : EventRow) : EventRow :=
  mkEventRow (ev_seq r) (ev_kind r) (ev_payload r) (ev_committed_at r) (ev_actor r) (Some tag)
    key_id (ev_integrity_version r) (ev_prev_tag r).

(** [UPDATE state_events SET tag, key_id WHERE conversation_id AND seq] *)
Definition update_tag (c : string) (seq : Z) (tag : bytes) (key_id : Z) (d : Db) : Db :=
  update_rows (λ c' r, if String.eqb c' c && (ev_seq r =? seq) then with_tag tag key_id r else r) d.

(** The loop of both passes: one [UPDATE] per selected row. *)
Fixpoint sign_rows (key : bytes) (key_id : Z) (rows : list (string * EventRow)) (signed : Z) : log_op Z :=
  match rows with
  | [] => ok signed
  | (c, r) :: rows =>
      let^ _ := log_stmt (λ d, (Ok (), update_tag c (ev_seq r) (row_tag key c r) key_id d)) in
      sign_rows key key_id rows (signed + 1)
  end.

Definition checkpoint_count (d : Db) : Z := Z.of_nat (size (integrity_heads d)).
Definition count_rows (p : EventRow → bool) (d : Db) : Z := vec_len (List.filter p (all_rows d)).

(** [EventLog::backfill_null_tags] *)
Definition backfill_null_tags (kr : option KeyRing) : log_op BackfillReport :=
  match kr with
  | None => fail (Config "backfill_null_tags requires a KeyRing — attach via with_key_ring or with_hmac_key")
  | Some ring =>
      match current_key ring with
      | None => fail (Config "KeyRing has no key registered for current_id")
      | Some key =>
          let^ count := peek checkpoint_count in
          if 0 <? count then fail (Invariant "cannot rewrite legacy tags after v2 checkpoints exist")
          else
            let^ rows := peek (select_rows null_tag) in
            let^ signed := sign_rows key (current_id ring) rows 0 in
            let^ null_remaining := peek (count_rows null_tag) in
            let^ signed_total := peek (count_rows (λ r, negb (null_tag r))) in
            ok (mkReport signed (usize_saturating_sub signed_total signed) null_remaining)
      end
  end.

(** [EventLog::resign_all_with_current_key] *)
Definition resign_all_with_current_key (kr : option KeyRing) : log_op BackfillReport :=
  match kr with
  | None => fail (Config "resign_all_with_current_key requires a KeyRing")
  | Some ring =>
      match current_key ring with
      | None => fail (Config "KeyRing has no key registered for current_id")
      | Some key =>
          let^ count := peek checkpoint_count in
          if 0 <? count
          then fail (Invariant "destructive re-signing is disabled after v2 checkpoints exist; retain old keys")
          else
            let^ rows := peek (select_rows (λ _, true)) in
            let^ signed := sign_rows key (current_id ring) rows 0 in
            ok (mkReport signed 0 0)
      end
  end.

(** The loop of [EventLog::backfill_v2_checkpoints]: one transaction per
    conversation, and an error leaves the earlier ones committed. *)
Fixpoint backfill_loop (kr : option KeyRing) (ids : list string) (established : Z) : log_op Z :=
  match ids with
  | [] => ok established
  | c :: ids =>
      let^ b := log_stmt (transaction (establish_v2_checkpoint kr c)) in
      backfill_loop kr ids (if b : bool then established + 1 else established)
  end.

(** [EventLog::backfill_v2_checkpoints] *)
Definition backfill_v2_checkpoints (kr : option KeyRing) : log_op Z :=
  let^ ids := peek conversation_ids in
  backfill_loop kr ids 0.
End Passes.

(** ** What a tag pass does alone *)

Section Maintenance.
Context {HM : Hmac} {HL : HmacLaws}.

Lemma all_rows_elem d r : r ∈ all_rows d ↔ ∃ c rows, state_events d !! c = Some rows ∧ r ∈ rows.
Proof.
  unfold all_rows. rewrite list_elem_of_In, in_concat. split.
  - intros (rows & Hrows & Hr). apply list_elem_of_In, list_elem_of_fmap in Hrows as ([c rows'] & -> & Hc).
    apply elem_of_map_to_list in Hc. exists c, rows'. split; [done|]. by apply list_elem_of_In.
  - intros (c & rows & Hc & Hr). exists rows. split; [|by apply list_elem_of_In].
    apply list_elem_of_In, list_elem_of_fmap. exists (c, rows). split; [done|]. by apply elem_of_map_to_list.
Qed.

Lemma update_rows_elem f d r :
  r ∈ all_rows (update_rows f d) ↔ ∃ c r', r = f c r' ∧ ∃ rows, state_events d !! c = Some rows ∧ r' ∈ rows.
Proof.
  rewrite all_rows_elem. unfold update_rows. cbn. split.
  - intros (c & rows & Hc & Hr). rewrite map_lookup_imap in Hc.
    destruct (state_events d !! c) as [rows'|] eqn:Hd; cbn in Hc; [|done]. simplify_eq.
    apply list_elem_of_fmap in Hr as (r' & -> & Hr'). eauto 10.
  - intros (c & r' & -> & rows & Hc & Hr). exists c, (map (f c) rows). split.
    + by rewrite map_lookup_imap, Hc.
    + by apply list_elem_of_fmap_2.
Qed.

Lemma update_rows_id f d :
  (∀ c rows r, state_events d !! c = Some rows → r ∈ rows → f c r = r) → update_rows f d = d.
Proof.
  intros Hf. unfold update_rows, set_events. destruct d as [ev]. cbn in *. f_equal.
  apply map_eq. intros c. rewrite map_lookup_imap. destruct (ev !! c) as [rows|] eqn:Hc; cbn; [|done].
  f_equal. apply map_id_elem. eauto.
Qed.

Lemma events_of_update f c d : events_of c (update_rows f d) = map (f c) (events_of c d).
Proof.
  unfold events_of, update_rows. cbn. rewrite map_lookup_imap.
  by destruct (state_events d !! c).
Qed.

Lemma ascending_map f l : (∀ r, ev_seq (f r) = ev_seq r) → ascending l → ascending (map f l).
Proof.
  intros Hf Hasc i j x y Hij. rewrite !list_lookup_fmap, !fmap_Some.
  intros (a & Ha & ->) (b & Hb & ->). rewrite !Hf. eauto.
Qed.

(** The rows a pass reads. *)
Lemma select_rows_elem p d c r :
  (c, r) ∈ select_rows p d ↔ (∃ rows, state_events d !! c = Some rows ∧ r ∈ rows) ∧ p r = true.
Proof.
  unfold select_rows. rewrite list_elem_of_In, in_concat. split.
  - intros (l & Hl & Hin). apply list_elem_of_In, list_elem_of_fmap in Hl as ([c' rows] & -> & Hc).
    apply list_elem_of_In, list_elem_of_fmap in Hin as (r' & [= -> ->] & [Hr Hp]%list_elem_of_In%filter_In).
    apply elem_of_map_to_list in Hc. split; [|done]. exists rows. by rewrite list_elem_of_In.
  - intros ((rows & Hc & Hr) & Hp). exists (map (pair c) (List.filter p rows)). split.
    + apply list_elem_of_In, list_elem_of_fmap. exists (c, rows). split; [done|]. by apply elem_of_map_to_list.
    + apply list_elem_of_In, list_elem_of_fmap_2, list_elem_of_In, filter_In. by rewrite <-list_elem_of_In.
Qed.

(** Signing the selected rows one by one is one update of all of them. *)
Definition sign_selected (key : bytes) (key_id : Z) (rows : list (string * EventRow)) (c : string) (r : EventRow)
    : EventRow :=
  foldl (λ r x, if String.eqb c x.1 && (ev_seq r =? ev_seq x.2) then with_tag (row_tag key x.1 x.2) key_id r else r)
    r rows.

Lemma update_rows_comp f g d : update_rows g (update_rows f d) = update_rows (λ c r, g c (f c r)) d.
Proof.
  unfold update_rows, set_events. destruct d as [ev]. cbn. f_equal. apply map_eq. intros c.
  rewrite !map_lookup_imap. destruct (ev !! c) as [rows|]; cbn; [|done]. by rewrite map_map.
Qed.

Lemma sign_rows_run key key_id rows n d :
  run_proc (sign_rows key key_id rows n) d
  = (Ok (n + vec_len rows), update_rows (sign_selected key key_id rows) d).
Proof.
  revert n d. induction rows as [|[c r] rows IH]; intros n d; cbn [sign_rows].
  - cbn. rewrite update_rows_id by done. by rewrite Z.add_0_r.
  - rewrite run_try_bind. unfold log_stmt. rewrite run_call. cbn [id]. rewrite IH. unfold update_tag.
    rewrite update_rows_comp. f_equal. f_equal. unfold vec_len. cbn [length]. lia.
Qed.

(** Two rows of one place with the same text get the same tag. *)
Definition same_text (r r' : EventRow) : Prop :=
  ev_seq r' = ev_seq r ∧ ev_kind r' = ev_kind r ∧ ev_payload r' = ev_payload r ∧
  ev_committed_at r' = ev_committed_at r ∧ ev_actor r' = ev_actor r.

Lemma row_tag_text key c r r' : same_text r r' → row_tag key c r' = row_tag key c r.
Proof. unfold row_tag. by intros (-> & -> & -> & -> & ->). Qed.

(** A signed row. *)
Definition resigned_row (key : bytes) (key_id : Z) (c : string) (r : EventRow) : EventRow :=
  with_tag (row_tag key c r) key_id r.

Lemma sign_selected_spec key key_id rows c r :
  (∀ x, (c, x) ∈ rows → ev_seq x = ev_seq r → same_text x r) →
  sign_selected key key_id rows c r
  = if existsb (λ x, String.eqb c x.1 && (ev_seq r =? ev_seq x.2)) rows then resigned_row key key_id c r else r.
Proof.
  revert r. unfold sign_selected. induction rows as [|[c' x] rows IH]; intros r Hx; cbn [foldl existsb]; [done|].
  cbn [fst snd]. destruct (String.eqb_spec c c') as [<-|Hne]; cbn [andb].
  2: { apply IH. intros y Hy. apply Hx. by right. }
  destruct (Z.eqb_spec (ev_seq r) (ev_seq x)) as [Hs|Hne]; cbn [orb].
  2: { apply IH. intros y Hy. apply Hx. by right. }
  assert (same_text x r) as Htext by (apply Hx; [by left|done]).
  rewrite <-(row_tag_text key c x r) by done. fold (resigned_row key key_id c r).
  rewrite IH; [by case_match|]. intros y Hy Hseq. apply (Hx y); [by right|done].
Qed.

(** The rows of a conversation have numbers of their own. *)
Definition keyed_rows (d : Db) : Prop := ∀ c, ascending (events_of c d).

Lemma events_of_elem c rows d r : state_events d !! c = Some rows → r ∈ rows → r ∈ events_of c d.
Proof. unfold events_of. by intros ->. Qed.

Lemma ascending_unique l x y : ascending l → x ∈ l → y ∈ l → ev_seq x = ev_seq y → x = y.
Proof.
  intros Hasc [i Hi]%list_elem_of_lookup [j Hj]%list_elem_of_lookup Heq.
  destruct (decide (i < j)%nat) as [Hlt|]; [specialize (Hasc i j x y Hlt Hi Hj); lia|].
  destruct (decide (j < i)%nat) as [Hlt|]; [specialize (Hasc j i y x Hlt Hj Hi); lia|].
  assert (i = j) as -> by lia. congruence.
Qed.

Lemma sign_selected_all key key_id p d :
  keyed_rows d →
  update_rows (sign_selected key key_id (select_rows p d)) d
  = update_rows (λ c r, if p r then resigned_row key key_id c r else r) d.
Proof.
  intros Hd. unfold update_rows, set_events. f_equal. apply map_eq. intros c. rewrite !map_lookup_imap.
  destruct (state_events d !! c) as [rows|] eqn:Hc; cbn; [|done]. f_equal.
  apply map_ext_in. intros r Hr%list_elem_of_In. pose proof (events_of_elem _ _ _ _ Hc Hr) as Hin.
  assert (∀ x, (c, x) ∈ select_rows p d → ev_seq x = ev_seq r → x = r ∧ p x = true) as Hsel.
  { intros x ((rows' & Hc' & Hx) & Hp)%select_rows_elem Hs. split; [|done].
    eapply ascending_unique; [apply (Hd c)| |exact Hin|done]. by eapply events_of_elem. }
  rewrite sign_selected_spec by (intros x Hx Hs; by destruct (Hsel x Hx Hs) as [-> _]).
  destruct (existsb _ _) eqn:He.
  - apply existsb_exists in He as ([c' x] & Hx%list_elem_of_In & Hb).
    apply andb_true_iff in Hb as [->%String.eqb_eq Hs%Z.eqb_eq]. cbn in Hs.
    destruct (Hsel x Hx) as [-> ->]; done.
  - destruct (p r) eqn:Hp; [|done]. exfalso. apply not_true_iff_false in He. apply He, existsb_exists.
    exists (c, r). split; [|cbn; by rewrite String.eqb_refl, Z.eqb_refl].
    apply list_elem_of_In, select_rows_elem. eauto.
Qed.

Lemma count_select p d : vec_len (select_rows p d) = count_rows p d.
Proof.
  unfold count_rows, select_rows, all_rows, vec_len. f_equal.
  induction (map_to_list (state_events d)) as [|[c rows] l IH]; [done|].
  cbn. rewrite List.filter_app, !length_app, length_map, IH. done.
Qed.

Lemma no_checkpoints d : (0 <? checkpoint_count d) = false ↔ integrity_heads d = ∅.
Proof.
  unfold checkpoint_count. rewrite Z.ltb_ge, <-map_size_empty_iff. lia.
Qed.

(** What the two passes do alone on a log without checkpoints. *)
Lemma backfill_run ring key d :
  keyed_rows d → current_key ring = Some key → integrity_heads d = ∅ →
  let d' := update_rows (λ c r, if null_tag r then resigned_row key (current_id ring) c r else r) d in
  run_proc (backfill_null_tags (Some ring)) d
  = (Ok (mkReport (count_rows null_tag d)
       (usize_saturating_sub (count_rows (λ r, negb (null_tag r)) d') (count_rows null_tag d))
       (count_rows null_tag d')), d').
Proof.
  intros Hd Hkey Hh d'. unfold backfill_null_tags. rewrite Hkey. rewrite run_try_bind. cbn [run_proc peek ok].
  rewrite (proj2 (no_checkpoints d) Hh). rewrite run_try_bind. cbn [run_proc peek ok].
  rewrite run_try_bind, sign_rows_run, sign_selected_all, count_select by done. fold d'. done.
Qed.

Lemma resign_run ring key d :
  keyed_rows d → current_key ring = Some key → integrity_heads d = ∅ →
  run_proc (resign_all_with_current_key (Some ring)) d
  = (Ok (mkReport (count_rows (λ _, true) d) 0 0), update_rows (resigned_row key (current_id ring)) d).
Proof.
  intros Hd Hkey Hh. unfold resign_all_with_current_key. rewrite Hkey. rewrite run_try_bind. cbn [run_proc peek ok].
  rewrite (proj2 (no_checkpoints d) Hh). rewrite run_try_bind. cbn [run_proc peek ok].
  by rewrite run_try_bind, sign_rows_run, sign_selected_all, count_select by done.
Qed.

(** the tag back-fill.  A pass that runs alone and succeeds signs exactly the
    rows that had no tag: it reports their number, leaves none behind, touches
    no signed row, and running it again signs nothing and changes nothing. *)
Theorem backfill_signs_every_row ring d rep d' :
  keyed_rows d → run_proc (backfill_null_tags (Some ring)) d = (Ok rep, d') →
  rp_signed rep = count_rows null_tag d ∧
  rp_null_remaining rep = 0 ∧
  (∀ c r, r ∈ events_of c d → null_tag r = false → r ∈ events_of c d') ∧
  ∃ skipped, run_proc (backfill_null_tags (Some ring)) d' = (Ok (mkReport 0 skipped 0), d').
Proof.
  intros Hd Hrun. destruct (current_key ring) as [key|] eqn:Hkey.
  2: { unfold backfill_null_tags in Hrun. rewrite Hkey in Hrun. done. }
  destruct (decide (integrity_heads d = ∅)) as [Hh|Hh].
  2: { exfalso. revert Hrun. unfold backfill_null_tags. rewrite Hkey, run_try_bind. cbn [run_proc peek ok].
       destruct (0 <? checkpoint_count d) eqn:Hc; [done|]. by apply no_checkpoints in Hc. }
  rewrite (backfill_run ring key d Hd Hkey Hh) in Hrun.
  set (f := λ c r, if null_tag r then resigned_row key (current_id ring) c r else r) in Hrun.
  set (d1 := update_rows f d) in Hrun. injection Hrun as <- <-. cbn [rp_signed rp_null_remaining].
  assert (∀ r, r ∈ all_rows d1 → null_tag r = false) as Hnone.
  { intros r (c & r' & -> & _)%update_rows_elem. unfold f. destruct (null_tag r') eqn:Hr; [|done].
    done. }
  assert (count_rows null_tag d1 = 0) as Hzero by (unfold count_rows; by rewrite (filter_none _ _ Hnone)).
  assert (update_rows f d1 = d1) as Hid.
  { apply update_rows_id. intros c rows r Hc Hr. unfold f. rewrite (Hnone r); [done|].
    apply all_rows_elem. eauto. }
  assert (keyed_rows d1) as Hd1.
  { intros c. unfold d1. rewrite events_of_update. apply ascending_map; [|apply Hd].
    intros r. unfold f. by destruct (null_tag r). }
  split_and!; [done..| |].
  - intros c r Hr Hn. unfold d1. rewrite events_of_update. apply list_elem_of_fmap. exists r.
    split; [|done]. unfold f. by rewrite Hn.
  - rewrite (backfill_run ring key d1 Hd1 Hkey Hh). fold f. rewrite Hid, Hzero. by eexists.
Qed.

(** a row of a kind this version does not know, signed by the back-fill
    over its stored kind string, is then rejected by replay as tampered with
    (unless the MAC collides on the two encodings), although the kinds are
    documented as additive and replay as tolerant of unknown ones. *)
Theorem unknown_kind_rejected ring key c r :
  current_key ring = Some key → ¬ known (ev_kind r) →
  sign_event key (canonical_bytes c (ev_seq r) (ev_kind r) (ev_committed_at r) (ev_actor r) (ev_payload r))
    ≠ sign_event key (canonical_bytes c (ev_seq r) "other" (ev_committed_at r) (ev_actor r) (ev_payload r)) →
  let row := load_row c (resigned_row key (current_id ring) c r) in
  verify (Some ring) (ir_event row) (ir_tag row) (ir_key_id row) =
    Err (TamperDetected (ev_name c (ev_seq r) +:+ " failed HMAC verification")).
Proof.
  intros Hkey Hk Hne. cbn. unfold key_for, current_key, row_tag in *. rewrite Hkey.
  rewrite bool_decide_true by apply length_sign_event. cbn [negb].
  destruct (verify_event _ _ _) eqn:Hv; [|done]. exfalso. apply Hne.
  apply verify_event_true in Hv. rewrite Hv. unfold v1_canonical. cbn.
  by rewrite unknown_parses_to_Other.
Qed.
End Maintenance.

#[local] Existing Instance toy_hmac.
#[local] Existing Instance toy_hmac_laws.

Definition future_row : EventRow := mkEventRow 1 "future_kind" [] 1000 None None 0 1 None.
Definition future_db : Db := set_events <["c" := [future_row]]> empty_db.
Definition future_signed : Db := (run_proc (backfill_null_tags (Some toy_ring)) future_db).2.

Lemma backfill_signs_every_row_witness :
  count_rows null_tag future_db = 1 ∧
  ∃ skipped, run_proc (backfill_null_tags (Some toy_ring)) future_signed = (Ok (mkReport 0 skipped 0), future_signed).
Proof.
  split; [vm_compute; reflexivity|].
  apply (backfill_signs_every_row toy_ring future_db (mkReport 1 0 0) future_signed); [|vm_compute; reflexivity].
  intros c. unfold events_of, future_db. cbn. destruct (decide (c = "c")) as [->|Hne].
  - rewrite lookup_insert_eq. cbn. intros i j x y Hij Hx Hy. destruct i as [|i], j as [|j]; [lia|discriminate Hy|discriminate Hx|discriminate Hx].
  - rewrite lookup_insert_ne, lookup_empty by done. apply ascending_nil.
Defined.

Lemma unknown_kind_rejected_witness :
  let row := load_row "c" (resigned_row (as_bytes "k") 7 "c" future_row) in
  verify (Some toy_ring) (ir_event row) (ir_tag row) (ir_key_id row) =
    Err (TamperDetected (ev_name "c" 1 +:+ " failed HMAC verification")).
Proof.
  apply (unknown_kind_rejected toy_ring (as_bytes "k") "c" future_row).
  - vm_compute. reflexivity.
  - intros [k Hk]. destruct k; discriminate Hk.
  - vm_compute. discriminate.
Defined.
