(* ===== verification/LogSafety.v ===== *)
(** * No false alarms

    Every operation of the event log (append, commit, checkpointing, the
    maintenance passes, key registration and rotation) preserves the log
    invariant of every conversation, so a log that only these operations have
    written always replays: [TamperDetected] is never raised by the log's own
    behaviour, as long as nothing with a key writes while a tag pass runs.
    The statements of tag passes interleave with each other, with unkeyed
    appends and with changes of the key ring; what goes wrong when a keyed
    append comes in between is shown at the end. *)

From stdpp Require Import relations.
From S2P Require Import Prelude Wire Text EventKind EventHmac Schema EventLog Chain Commit ServiceBase Procs Maintenance.

Section Safety.
Context {HM : Hmac} {HL : HmacLaws} {V : Type} {MP : MsgPack V} {ML : MsgPackLaws V}.
Implicit Types (ring : KeyRing) (d : Db) (c : string).

(** ** The invariant of the whole log *)

Definition conv_ok ring d c : Prop :=
  log_inv ring d c ∧ Forall (λ r, known (ev_kind r)) (events_of c d).

Definition log_ok ring d : Prop := is_Some (current_key ring) ∧ ∀ c, conv_ok ring d c.

Lemma conv_ok_same ring d d' c : same_log c d d' → conv_ok ring d c → conv_ok ring d' c.
Proof.
  intros Hs [Hinv Hk]. split; [by eapply same_log_inv|]. destruct Hs as [-> _]. done.
Qed.

(** ** Growing the key ring *)

Lemma legacy_signed_mono ring ring' row :
  keys ring ⊆ keys ring' → legacy_signed ring row → legacy_signed ring' row.
Proof.
  intros Hsub. unfold legacy_signed. destruct (ir_tag row); [|done].
  intros (key & Hk & ?). exists key. split; [by eapply lookup_weaken|done].
Qed.

Lemma chained_mono ring ring' p s rows p' s' :
  keys ring ⊆ keys ring' → chained ring p s rows p' s' → chained ring' p s rows p' s'.
Proof.
  intros Hsub. induction 1; [constructor|]. econstructor; eauto. by eapply lookup_weaken.
Qed.

Lemma verified_mono ring ring' c rows h :
  keys ring ⊆ keys ring' → verified ring c rows h → verified ring' c rows h.
Proof.
  intros Hsub [Hl Hs [gk Hg] (e & Hc & He) (ck & Hck & Hcp)].
  assert (key_for ring' (genesis_key_id h) = Some gk) as Hg' by (by eapply lookup_weaken).
  split; [| done | by eexists | |].
  - eapply Forall_impl; [exact Hl|]. intros row. by apply legacy_signed_mono.
  - exists e. split; [|done]. unfold genesis_of in *. rewrite Hg'. rewrite Hg in Hc.
    by eapply chained_mono.
  - exists ck. split; [by eapply lookup_weaken|done].
Qed.

Lemma log_inv_mono ring ring' d c : keys ring ⊆ keys ring' → log_inv ring d c → log_inv ring' d c.
Proof.
  intros Hsub. unfold log_inv. destruct (integrity_heads d !! c).
  - intros []. split; try done. by eapply verified_mono.
  - intros (? & ? & Hl). do 2 (split; [done|]). eapply Forall_impl; [exact Hl|].
    intros row. by apply legacy_signed_mono.
Qed.

Lemma log_ok_ring ring ring' d :
  keys ring ⊆ keys ring' → is_Some (current_key ring') → log_ok ring d → log_ok ring' d.
Proof.
  intros Hsub Hc [_ Hok]. split; [done|]. intros c. destruct (Hok c). split; [by eapply log_inv_mono|done].
Qed.

(** ** Signed appends, from their success *)

Lemma append_chained_inv what ring c ev h d h' d' :
  log_head ring c d h → append_chained what (Some ring) c ev h d = Ok (h', d') →
  er_conversation_id ev = c → 1 ≤ er_seq ev → er_seq ev ≤ i64_max →
  log_head ring c d' h' ∧ only_events c d d' ∧
  ∃ r, events_of c d' = events_of c d ++ [r] ∧ known (ev_kind r).
Proof.
  intros Hh Happ Hcv H1 Hmax. pose proof Happ as Happ0. unfold append_chained in Happ.
  pose proof (log_head_seq_range _ _ _ _ Hh) as Hrange.
  destruct (Z.eqb_spec (er_seq ev) (i64_add (head_seq h) 1)) as [Hseq|]; [|done].
  destruct (current_key ring) as [key|] eqn:Hkey; [|done]. clear Happ.
  assert (er_seq ev = head_seq h + 1) as Hs.
  { destruct (decide (head_seq h = i64_max)) as [He|]; [|rewrite i64_add_id in Hseq; int_lia].
    rewrite He in Hseq. change (i64_add i64_max 1) with i64_min in Hseq. int_lia. }
  destruct (append_chained_ok what ring key c ev h d Hh Hkey Hcv Hs Hmax) as (Heq & Hh' & _).
  rewrite Heq in Happ0. simplify_eq. split_and!; [done|split; [by eexists|]|].
  - intros. by apply events_of_insert_ne.
  - rewrite events_of_insert. eexists; split; [done|]. by exists (er_kind ev).
Qed.

Lemma append_all_inv ring c evs h d h' d' :
  log_head ring c d h → append_all (Some ring) c evs h d = Ok (h', d') →
  Forall (λ ev, er_conversation_id ev = c ∧ 1 ≤ er_seq ev ≤ i64_max) evs →
  log_head ring c d' h' ∧ only_events c d d' ∧
  (Forall (λ r, known (ev_kind r)) (events_of c d) → Forall (λ r, known (ev_kind r)) (events_of c d')).
Proof.
  intros Hh. revert h d Hh. induction evs as [|ev evs IH]; intros h d Hh Happ Hall.
  - unfold append_all, tx_ret in Happ. simplify_eq. split_and!; [done|apply only_events_refl|done].
  - apply Forall_cons in Hall as [(Hcv & H1 & Hmax) Hall]. cbn [append_all] in Happ.
    apply tx_bind_ok in Happ as (h1 & d1 & Hstep & Happ).
    apply append_chained_inv in Hstep as (Hh1 & Ho & r & Hr & Hk); try done.
    apply IH in Happ as (? & ? & Hks); try done. split_and!; [done|by eapply only_events_trans|].
    intros Hall'. apply Hks. rewrite Hr. apply Forall_app_2; [done|]. by apply Forall_singleton.
Qed.

Lemma conv_ok_stored ring c d d1 h :
  only_events c d d1 → log_head ring c d1 h → Forall (λ r, known (ev_kind r)) (events_of c d1) →
  (∀ c', conv_ok ring d c') → ∀ c', conv_ok ring (set_heads <[c := h]> d1) c'.
Proof.
  intros [[f Hf] Ho] Hh Hk Hok c'. destruct (decide (c' = c)) as [->|Hne].
  - split; [by apply log_inv_stored|done].
  - eapply conv_ok_same, (Hok c'). split; [by apply Ho|]. cbn. rewrite lookup_insert_ne by done. by rewrite Hf.
Qed.

Lemma write_head_inv c h d d' : write_integrity_head c h d = Ok ((), d') → d' = set_heads <[c := h]> d.
Proof. unfold write_integrity_head, upsert_head. destruct (_ && _); congruence. Qed.

(** The range of a rebased batch. *)
Lemma rebased_in_range c now base events out d :
  enforce_tool_pairing (V:=V) c base now events = Ok out → 0 ≤ base →
  0 ≤ last_ev_seq (events_of c d) →
  Z.max base (last_ev_seq (events_of c d)) + 2 * Z.of_nat (length events) < i64_max →
  Forall (λ ev, er_conversation_id ev = c ∧ 1 ≤ er_seq ev ≤ i64_max) (rebased d c base out).
Proof.
  unfold enforce_tool_pairing. destruct (result_ordinals events); [|done]. intros Hm Hb Hl Hmax.
  pose proof (materialize_numbered _ _ _ _ _ _ Hm) as Hn.
  pose proof (materialize_length _ _ _ _ _ _ Hm) as Hlen.
  assert (∃ s, 1 ≤ s ≤ Z.max base (last_ev_seq (events_of c d)) + 1 ∧
            numbered c now s (rebased d c base out)) as (s & Hs & Hnum).
  { destruct (decide (base ≤ last_ev_seq (events_of c d))).
    - exists (last_ev_seq (events_of c d) + 1). split; [lia|]. apply rebased_numbered; [done|lia|lia].
    - exists (base + 1). split; [lia|]. unfold rebased. rewrite i64_sub_id by int_lia.
      destruct (Z.ltb_spec 0 (last_ev_seq (events_of c d) - base)); [lia|].
      unfold next_seq in Hn. by rewrite i64_add_id in Hn by int_lia. }
  eapply Forall_impl; [apply (numbered_seq _ _ _ _ Hnum); rewrite ?rebased_length; lia|].
  cbn. intros e (? & ? & ?). split; [done|lia].
Qed.

(** ** The operations *)

Lemma append_preserves ring ev d :
  log_ok ring d → 1 ≤ er_seq ev ≤ i64_max →
  last_ev_seq (events_of (er_conversation_id ev) d) < i64_max →
  log_ok ring (append (Some ring) ev d).2.
Proof.
  intros [[key Hkey] Hok] [Hlo Hhi] Hlast. unfold append, transaction.
  destruct (append_tx (Some ring) ev d) as [[[] d']|] eqn:Happ; [|by split; eauto].
  set (c := er_conversation_id ev) in *. destruct (Hok c) as [Hinv Hk].
  destruct (current_head_ok ring key c d Hinv Hkey Hlast) as (h & Hcur & Hh).
  unfold append_tx in Happ. fold c in Happ.
  rewrite tx_get_bind, Hcur, tx_lift_bind in Happ.
  apply tx_bind_ok in Happ as (h1 & d1 & Happ & Hw). apply write_head_inv in Hw as ->.
  apply append_chained_inv in Happ as (Hh1 & Ho & r & Hr & Hkr); try done.
  split; [by eexists|]. eapply conv_ok_stored; try done. rewrite Hr.
  apply Forall_app_2; [done|by apply Forall_singleton].
Qed.

Lemma log_ok_set_outbox ring d f : log_ok ring d → log_ok ring (set_outbox f d).
Proof. intros [? Hok]. split; [done|]. intros c. by apply (conv_ok_same ring d). Qed.

Lemma commit_preserves ring now c base events d :
  log_ok ring d → 0 ≤ base →
  Z.max base (last_ev_seq (events_of c d)) + 2 * Z.of_nat (length events) < i64_max →
  log_ok ring (commit_turn (V:=V) (Some ring) now c base events d).2.
Proof.
  intros [[key Hkey] Hok] Hbase Hmax. unfold commit_turn, transaction.
  destruct (commit_turn_with_projection _ _ _ _ _ _ d) as [[out' d']|] eqn:Hc; [|by split; eauto].
  destruct (Hok c) as [Hinv Hk].
  destruct (current_head_ok ring key c d Hinv Hkey) as (h & Hcur & Hh); [lia|].
  unfold commit_turn_with_projection in Hc.
  apply tx_bind_ok in Hc as (out & d0 & [Hout ->]%tx_lift_ok & Hc).
  rewrite tx_get_bind, last_seq_of_loaded in Hc. fold (rebased d c base out) in Hc.
  rewrite Hcur, tx_lift_bind in Hc.
  apply tx_bind_ok in Hc as ([] & d1 & [_ ->]%tx_guard_ok & Hc).
  apply tx_bind_ok in Hc as (h1 & d1 & Happ & Hc).
  apply append_all_inv in Happ as (Hh1 & Ho & Hks); [|done|].
  2: { eapply rebased_in_range; eauto. apply last_ev_seq_range, (log_inv_seqs _ _ _ Hinv). }
  destruct (commit_tail ring c h1 (rebased d c base out)
    (existsb (λ ev, bool_decide (er_kind ev = ToolResult)) out) d1 Hh1) as [f Htail].
  assert (Ok (out', d') = Ok (rebased d c base out, set_outbox f (set_heads <[c := h1]> d1)))
    as [= -> ->] by (rewrite <-Hc; exact Htail).
  apply log_ok_set_outbox. split; [by eexists|]. eapply conv_ok_stored; eauto.
Qed.

Lemma establish_preserves ring c d :
  log_ok ring d → last_ev_seq (events_of c d) < i64_max →
  log_ok ring (transaction (establish_v2_checkpoint (Some ring) c) d).2.
Proof.
  intros [[key Hkey] Hok] Hlast. destruct (Hok c) as [Hinv Hk].
  unfold transaction, establish_v2_checkpoint, load_integrity_head.
  pose proof Hinv as Hinv'. unfold log_inv in Hinv'. destruct (integrity_heads d !! c) as [h|].
  { destruct (verify_integrity _ _ _ _); by split; eauto. }
  destruct (initial_head_ok ring key c d Hinv' Hkey Hlast) as (h & -> & Hh & Hcp).
  unfold tx_bind. rewrite write_head_ok by eauto using log_head_tag.
  split; [by eexists|]. eapply conv_ok_stored; eauto using only_events_refl.
Qed.
(** An unkeyed append on a conversation without a head. *)
Lemma unkeyed_append_preserves ring ev d :
  log_ok ring d → 1 ≤ er_seq ev ≤ i64_max → log_ok ring (append None ev d).2.
Proof.
  intros [Hkey Hok] Hseq. unfold append, transaction.
  destruct (append_tx None ev d) as [[[] d']|] eqn:Happ; [|by split; eauto].
  set (c := er_conversation_id ev) in *. unfold append_tx in Happ. rewrite tx_get_bind in Happ.
  fold c in Happ. destruct (load_integrity_head c d) as [h|] eqn:Hh; [done|].
  unfold insert_event_row in Happ. destruct (insert_event _ _) as [l|] eqn:Hins; [|done].
  apply Ok_inj in Happ. simplify_eq. cbn [snd]. split; [done|]. intros c'.
  destruct (decide (c' = c)) as [->|Hne].
  2: { eapply conv_ok_same, (Hok c'). split; [by apply events_of_insert_ne|done]. }
  destruct (Hok c) as [Hinv Hk]. unfold log_inv in Hinv. unfold load_integrity_head in Hh.
  rewrite Hh in Hinv. destruct Hinv as ([Hasc Hpos] & Hv1 & Hsig).
  pose proof (insert_event_perm _ _ _ Hins) as Hperm. unfold conv_ok, log_inv.
  change (integrity_heads (set_events <[c:=l]> d)) with (integrity_heads d). rewrite Hh. unfold legacy_log,
    load_integrity_rows.
  rewrite events_of_insert. split; [split; [split|split]|].
  - by eapply insert_event_ascending.
  - rewrite Hperm. constructor; [done|done].
  - rewrite Hperm. by constructor.
  - rewrite (Permutation_map (load_row c) Hperm). cbn. by constructor.
  - rewrite Hperm. constructor; [by exists (er_kind ev)|done].
Qed.

(** The maintenance passes re-sign legacy rows. *)
Definition same_place (r r' : EventRow) : Prop :=
  ev_seq r' = ev_seq r ∧ ev_integrity_version r' = ev_integrity_version r ∧ ev_kind r' = ev_kind r.

Lemma update_preserves ring d f :
  log_ok ring d → integrity_heads d = ∅ → (∀ c r, same_place r (f c r)) →
  (∀ c r, r ∈ events_of c d → known (ev_kind r) → legacy_signed ring (load_row c r) →
     legacy_signed ring (load_row c (f c r))) →
  log_ok ring (update_rows f d).
Proof.
  intros [Hkey Hok] Hheads Hplace Hsigned. split; [done|]. intros c.
  destruct (Hok c) as [Hinv Hk]. unfold conv_ok, log_inv in *. cbn. rewrite Hheads, lookup_empty in *.
  destruct Hinv as ([Hasc Hpos] & Hv1 & Hsig). unfold legacy_log, load_integrity_rows in *.
  rewrite events_of_update. split; [split; [split|split]|].
  - apply ascending_map; [apply Hplace|done].
  - apply List.Forall_map. eapply Forall_impl; [exact Hpos|]. intros r. by rewrite (proj1 (Hplace c r)).
  - apply List.Forall_map. eapply Forall_impl; [exact Hv1|]. intros r.
    by rewrite (proj1 (proj2 (Hplace c r))).
  - apply List.Forall_map.
    apply List.Forall_map. apply List.Forall_forall. intros r Hr. cbn.
    rewrite List.Forall_forall in Hk, Hsig. apply Hsigned; [by apply list_elem_of_In|by apply Hk|apply Hsig, in_map, Hr].
  - apply List.Forall_map. eapply Forall_impl; [exact Hk|]. intros r.
    by rewrite (proj2 (proj2 (Hplace c r))).
Qed.

Lemma resigned_row_signed ring key id c r :
  key_for ring id = Some key → known (ev_kind r) → legacy_signed ring (load_row c (resigned_row key id c r)).
Proof.
  intros Hkey [k Hk]. unfold legacy_signed. cbn. exists key. split; [done|].
  unfold v1_canonical, row_tag. cbn. by rewrite Hk, parse_as_str.
Qed.

(** One [UPDATE] of a pass, with the tag of the row as the pass has read it. *)
Lemma update_tag_preserves ring key id c r r' d :
  log_ok ring d → integrity_heads d = ∅ → key_for ring id = Some key →
  r' ∈ events_of c d → same_text r r' → log_ok ring (update_tag c (ev_seq r) (row_tag key c r) id d).
Proof.
  intros Hok Hheads Hkey Hin Htext. apply update_preserves; [done..| |].
  - intros c0 r0. unfold same_place. by destruct (_ && _).
  - intros c0 r0 Hin0 Hk Hs. destruct (String.eqb_spec c0 c) as [->|]; cbn [andb]; [|done].
    destruct (Z.eqb_spec (ev_seq r0) (ev_seq r)) as [Hseq|]; [|done].
    assert (r0 = r') as ->.
    { eapply ascending_unique; [|exact Hin0|exact Hin|]; [apply (log_inv_seqs ring), Hok|].
      by rewrite Hseq, (proj1 Htext). }
    rewrite <-(row_tag_text key c r r' Htext). by apply resigned_row_signed.
Qed.

Lemma establish_events kr c d c' :
  events_of c' (transaction (establish_v2_checkpoint kr c) d).2 = events_of c' d.
Proof.
  unfold transaction, establish_v2_checkpoint, load_integrity_head.
  destruct (integrity_heads d !! c); [by destruct (verify_integrity _ _ _ _)|].
  destruct (initial_integrity_head _ _ _) as [h|]; [|done].
  unfold tx_bind, write_integrity_head, upsert_head. by destruct (_ && _).
Qed.

(** ** Every sequence of operations *)

(** Room for the next sequence number. *)
Definition room c d (n : Z) : Prop := last_ev_seq (events_of c d) + n < i64_max.

(** A statement of a pass, on the database beside the key ring. *)
Fixpoint on_log {A} (p : proc Db A) : proc (KeyRing * Db) A :=
  match p with
  | Finish r => Finish r
  | Atomic stmt k => Atomic (λ s, ((stmt s.2).1, (s.1, (stmt s.2).2))) (λ x, on_log (k x))
  end.

(** What may happen at any time: appends without a key, and changes of the key
    ring, in which a registered key is never replaced. *)
Inductive free_step : KeyRing * Db → KeyRing * Db → Prop :=
| step_unkeyed_append ring d ev :
    1 ≤ er_seq ev ≤ i64_max →
    free_step (ring, d) (ring, (append None ev d).2)
| step_add_key ring d id key :
    keys ring !! id = None → free_step (ring, d) (kr_add ring id key, d)
| step_set_current ring ring' d id :
    kr_set_current ring id = Ok ring' → free_step (ring, d) (ring', d)
| step_rotate ring d id key :
    keys ring !! id = None → free_step (ring, d) ((kr_rotate ring id key).2, d).

(** What signs with the key; sequence numbers are positive and far from
    overflow.  A checkpoint pass is a series of [step_establish]. *)
Inductive keyed_step : KeyRing * Db → KeyRing * Db → Prop :=
| step_append ring d ev :
    1 ≤ er_seq ev ≤ i64_max → room (er_conversation_id ev) d 0 →
    keyed_step (ring, d) (ring, (append (Some ring) ev d).2)
| step_commit ring d now c base events :
    0 ≤ base → base + 2 * Z.of_nat (length events) < i64_max →
    room c d (2 * Z.of_nat (length events)) →
    keyed_step (ring, d) (ring, (commit_turn (V:=V) (Some ring) now c base events d).2)
| step_establish ring d c :
    room c d 0 →
    keyed_step (ring, d) (ring, (transaction (establish_v2_checkpoint (Some ring) c) d).2).

(** A tag pass, started with the ring as it is. *)
Inductive tag_pass : KeyRing * Db → proc (KeyRing * Db) (result DbError BackfillReport) → Prop :=
| pass_backfill ring d : tag_pass (ring, d) (on_log (backfill_null_tags (Some ring)))
| pass_resign ring d : tag_pass (ring, d) (on_log (resign_all_with_current_key (Some ring))).

(** The key ring, the database and the tag passes in flight.  The statements
    of the passes run in any order among what may happen at any time; what
    signs with the key runs when no pass is under way. *)
Definition log_config : Type := KeyRing * Db * list (proc (KeyRing * Db) (result DbError BackfillReport)).

Definition finished {S A} (p : proc S A) : Prop := ∃ r, p = Finish r.

Inductive log_step : log_config → log_config → Prop :=
| log_free x x' : pool_step free_step tag_pass x x' → log_step x x'
| log_keyed s s' ps : keyed_step s s' → Forall finished ps → log_step (s, ps) (s', ps).

(** *** What a pass relies on *)

Definition all_ok (s : KeyRing * Db) : Prop := log_ok s.1 s.2.

(** Keys stay, no checkpoint appears, and a row keeps its text. *)
Definition grows (s s' : KeyRing * Db) : Prop :=
  keys s.1 ⊆ keys s'.1 ∧ (integrity_heads s.2 = ∅ → integrity_heads s'.2 = ∅) ∧
  ∀ c r, r ∈ events_of c s.2 → ∃ r', r' ∈ events_of c s'.2 ∧ same_text r r'.

Lemma same_text_refl r : same_text r r.
Proof. done. Qed.

Lemma same_text_trans r1 r2 r3 : same_text r1 r2 → same_text r2 r3 → same_text r1 r3.
Proof. unfold same_text. intuition congruence. Qed.

#[local] Instance grows_refl : Reflexive grows.
Proof. intros s. split_and!; [done..|]. intros c r Hr. by exists r. Qed.

Lemma grows_ring ring ring' d : keys ring ⊆ keys ring' → grows (ring, d) (ring', d).
Proof. intros Hsub. split_and!; [done..|]. intros c r Hr. by exists r. Qed.

Lemma log_ok_register ring d id key ring' :
  log_ok ring d → keys ring !! id = None → keys ring' = <[id := key]> (keys ring) →
  current_id ring' = current_id ring ∨ current_id ring' = id → log_ok ring' d ∧ grows (ring, d) (ring', d).
Proof.
  intros Hok Hfresh Hkeys Hcur.
  assert (keys ring ⊆ keys ring') as Hsub by (rewrite Hkeys; by apply insert_subseteq).
  split; [|by apply grows_ring]. eapply log_ok_ring; [exact Hsub| |done]. destruct (proj1 Hok) as [k Hk].
  unfold current_key in *. destruct Hcur as [->| ->].
  - exists k. by eapply lookup_weaken.
  - exists key. by rewrite Hkeys, lookup_insert_eq.
Qed.

Lemma unkeyed_append_grows ring ev d : grows (ring, d) (ring, (append None ev d).2).
Proof.
  unfold append, transaction. destruct (append_tx None ev d) as [[[] d']|] eqn:Happ; [|reflexivity].
  unfold append_tx in Happ. rewrite tx_get_bind in Happ.
  destruct (load_integrity_head (er_conversation_id ev) d) as [h|] eqn:Hh; [done|].
  unfold insert_event_row in Happ. destruct (insert_event _ _) as [l|] eqn:Hins; [|done].
  apply Ok_inj in Happ. simplify_eq. cbn [snd]. split_and!; [done..|]. cbn [snd]. intros c r Hr.
  exists r. split; [|done]. destruct (decide (c = er_conversation_id ev)) as [->|Hne].
  - rewrite events_of_insert, (insert_event_perm _ _ _ Hins). by right.
  - by rewrite events_of_insert_ne.
Qed.

Lemma free_step_ok s s' : free_step s s' → all_ok s → all_ok s' ∧ grows s s'.
Proof.
  unfold all_ok.
  intros Hstep Hok. destruct Hstep as [ring d ev Hs|?? id key Hf|ring ring' d id Hset|?? id key Hf]; cbn [fst snd] in *.
  - split; [by apply unkeyed_append_preserves|apply unkeyed_append_grows].
  - eapply log_ok_register; eauto.
  - unfold kr_set_current in Hset. destruct (keys ring !! id) as [k|] eqn:Hk; [|done].
    apply Ok_inj in Hset as <-. split; [|by apply grows_ring]. eapply log_ok_ring; [|by exists k|done]. done.
  - eapply log_ok_register; eauto.
Qed.

(** *** The passes *)

Lemma spec_on_bind {A B} Pre (p : proc Db A) (q : A → proc Db B) Q Q' :
  spec all_ok grows Pre (on_log p) Q → (∀ a, spec all_ok grows (Q a) (on_log (q a)) Q') →
  spec all_ok grows Pre (on_log (proc_bind p q)) Q'.
Proof.
  intros Hp Hq. revert Pre Hp. induction p as [r|X stmt k IH] using proc_ind; intros Pre Hp; cbn.
  - eapply spec_pre; [|apply Hq]. exact Hp.
  - intros s Hs Hpre. destruct (Hp s Hs Hpre) as (HI & HR & Post & Hst & Hpost & Hk).
    split_and!; [done..|]. exists Post. split_and!; [done..|]. by apply IH.
Qed.

(** A read, followed by what uses it. *)
Lemma spec_on_peek {A B} Pre (f : Db → A) (q : A → log_op B) Post Q :
  (∀ a, stable grows (Post a)) → (∀ s, all_ok s → Pre s → Post (f s.2) s) →
  (∀ a, spec all_ok grows (Post a) (on_log (q a)) Q) →
  spec all_ok grows Pre (on_log (try_bind (peek f) q)) Q.
Proof.
  intros Hst Hf Hq [ring d] Hs Hpre. split_and!; [done|reflexivity|]. exists (Post (f d)).
  split_and!; [done|by apply (Hf (ring, d))|apply Hq].
Qed.

(** Before an update: the pass's key is on the ring, there is no checkpoint, and
    the rows still to be signed are stored with the text it has read. *)
Definition ready ring0 (rows : list (string * EventRow)) (s : KeyRing * Db) : Prop :=
  keys ring0 ⊆ keys s.1 ∧ integrity_heads s.2 = ∅ ∧
  Forall (λ x, ∃ r, r ∈ events_of x.1 s.2 ∧ same_text x.2 r) rows.

Lemma ready_stable ring0 rows : stable grows (ready ring0 rows).
Proof.
  intros s s' (Hk & Hh & Hrows) (Hk0 & Hh0 & Hall). split_and!; [by etrans|by apply Hh|].
  eapply Forall_impl; [exact Hall|]. intros x (r & Hr & Ht). destruct (Hrows _ _ Hr) as (r' & ? & ?).
  exists r'. split; [done|by eapply same_text_trans].
Qed.

Lemma update_tag_grows ring c seq tag id d : grows (ring, d) (ring, update_tag c seq tag id d).
Proof.
  split_and!; [done..|]. cbn [snd]. intros c' r Hr. unfold update_tag. rewrite events_of_update.
  eexists. split; [by apply list_elem_of_fmap_2|]. by destruct (_ && _).
Qed.

Lemma spec_sign_rows ring0 key rows n :
  current_key ring0 = Some key →
  spec all_ok grows (ready ring0 rows) (on_log (sign_rows key (current_id ring0) rows n)) (λ _ _, True).
Proof.
  intros Hkey. revert n. induction rows as [|[c r] rows IH]; intros n; [done|].
  intros [ring d] Hok (Hsub & Hheads & Hrows). cbn [fst snd] in *.
  apply Forall_cons in Hrows as [(r' & Hin & Htext) Hrows]. cbn [fst snd] in *.
  pose proof (update_tag_grows ring c (ev_seq r) (row_tag key c r) (current_id ring0) d) as Hg.
  split_and!; [|exact Hg|].
  - eapply update_tag_preserves; [done..|by eapply lookup_weaken|exact Hin|done].
  - exists (ready ring0 rows). split_and!; [apply ready_stable| |apply IH].
    by apply (ready_stable ring0 rows _ _ Hg).
Qed.

(** Before the count: the pass's key is on the ring. *)
Definition held ring0 (s : KeyRing * Db) : Prop := keys ring0 ⊆ keys s.1.

Lemma held_stable ring0 : stable grows (held ring0).
Proof. intros s s' [Hk _] ?. unfold held in *. by etrans. Qed.

Lemma selected_ready ring0 p s :
  held ring0 s → integrity_heads s.2 = ∅ → ready ring0 (select_rows p s.2) s.
Proof.
  intros Hh Hheads. split_and!; [done..|]. apply Forall_forall. intros [c r] ((rows & Hc & Hr) & _)%select_rows_elem.
  exists r. split; [by eapply events_of_elem|done].
Qed.

(** The part the two passes have in common. *)
Lemma spec_pass {B} ring0 key p e (q : Z → log_op B) :
  current_key ring0 = Some key → (∀ n, spec all_ok grows (λ _, True) (on_log (q n)) (λ _ _, True)) →
  spec all_ok grows (held ring0)
    (on_log (try_bind (peek checkpoint_count) (λ count,
       if 0 <? count then fail e
       else try_bind (peek (select_rows p)) (λ rows, try_bind (sign_rows key (current_id ring0) rows 0) q))))
    (λ _ _, True).
Proof.
  intros Hkey Hq.
  apply spec_on_peek with (λ n s, held ring0 s ∧ ((0 <? n) = false → integrity_heads s.2 = ∅)).
  - intros n s s' HR [Hh Hn]. split; [by eapply held_stable|]. intros Hz. by apply HR, Hn.
  - intros s _ Hh. split; [done|]. apply no_checkpoints.
  - intros count. destruct (0 <? count); [done|].
    apply spec_on_peek with (ready ring0); [intros rows; apply ready_stable| |].
    + intros s _ [Hh Hn]. apply selected_ready; [done|by apply Hn].
    + intros rows. apply spec_on_bind with (λ _ _, True); [by apply spec_sign_rows|]. intros [n|]; [apply Hq|done].
Qed.

(** A read whose answer is not relied on. *)
Lemma spec_on_count {B} (f : Db → Z) (q : Z → log_op B) :
  (∀ n, spec all_ok grows (λ _, True) (on_log (q n)) (λ _ _, True)) →
  spec all_ok grows (λ _, True) (on_log (try_bind (peek f) q)) (λ _ _, True).
Proof. intros Hq. by apply spec_on_peek with (λ _ _, True). Qed.

Lemma tag_pass_going s p : tag_pass s p → all_ok s → going all_ok grows s p.
Proof.
  intros Hp Hok. destruct Hp as [ring d|ring d]; destruct (proj1 Hok) as [key Hkey]; cbn in Hkey;
    exists (held ring); (split_and!; [apply held_stable|unfold held; reflexivity|]).
  - unfold backfill_null_tags. rewrite Hkey. apply spec_pass; [done|]. intros n.
    by do 2 (apply spec_on_count; intros ?).
  - unfold resign_all_with_current_key. rewrite Hkey. by apply spec_pass.
Qed.

(** *** The invariant of every configuration *)

Definition config_ok (x : log_config) : Prop := all_ok x.1 ∧ Forall (going all_ok grows x.1) x.2.

Lemma keyed_step_ok s s' : keyed_step s s' → all_ok s → all_ok s'.
Proof.
  unfold all_ok. intros Hstep Hok.
  destruct Hstep as [?? ev Hs Hr|ring d now c base events Hb Hm Hr|?? c Hr]; cbn [fst snd] in *; unfold room in *.
  - apply append_preserves; [done..|lia].
  - apply commit_preserves; [done..|lia].
  - apply establish_preserves; [done|lia].
Qed.

Lemma log_step_ok x x' : log_step x x' → config_ok x → config_ok x'.
Proof.
  intros [y y' Hstep|s s' ps Hstep Hfin] [Hok Hgo].
  - destruct (pool_step_rely all_ok grows free_step tag_pass _ free_step_ok tag_pass_going _ _ Hstep Hok Hgo)
      as (? & _ & ?). done.
  - split; [by eapply keyed_step_ok|]. eapply Forall_impl; [exact Hfin|]. intros p [r ->]. apply going_finished.
Qed.

(** A checkpoint pass alone is such a series. *)
Lemma backfill_loop_steps ring ids n d ps :
  Forall finished ps → (∀ c, room c d 0) →
  rtc log_step (ring, d, ps) (ring, (run_proc (backfill_loop (Some ring) ids n) d).2, ps).
Proof.
  intros Hfin. revert n d. induction ids as [|c ids IH]; intros n d Hroom; cbn [backfill_loop]; [done|].
  rewrite run_try_bind. unfold log_stmt. rewrite run_call. cbn [id].
  pose proof (log_keyed _ _ ps (step_establish ring d c (Hroom c)) Hfin) as Hstep.
  pose proof (establish_events (Some ring) c d) as Hev.
  destruct (transaction _ d) as [[b|e] d']; cbn [snd] in *; [|by apply rtc_once].
  eapply rtc_l; [exact Hstep|]. apply IH. intros c'. unfold room. rewrite Hev. apply Hroom.
Qed.

(** C2: no false alarms.  Start from an empty database and a ring with a
    current key.  Let keyed and unkeyed appends, commits and checkpointing on
    any conversations, and registration, promotion and rotation of keys happen
    in any order, and let tag back-fills and re-signing passes run statement
    by statement among them, any number at a time, interleaved with each
    other, with unkeyed appends and with key changes; only the operations that
    sign with a key wait while a tag pass is under way.  Then at every moment,
    also in the middle of a pass, every replay of every conversation verifies:
    [TamperDetected] only reports a change that did not go through the log.
    Without the wait this is false: [keyed_append_races_backfill]. *)
Theorem replay_never_false_alarm ring x :
  is_Some (current_key ring) → rtc log_step (ring, empty_db, []) x →
  ∀ c after, replay_since (Some x.1.1) c after x.1.2 =
    Ok (map ir_event (List.filter (λ row, after <? er_seq (ir_event row))
                        (load_integrity_rows c x.1.2))).
Proof.
  intros Hkey Hrun c after. enough (config_ok x) as [[_ Hok] _] by apply log_inv_replay, Hok.
  assert (config_ok (ring, empty_db, [])) as Hstart.
  { split; [|constructor]. split; [done|]. intros c'. split; [apply log_inv_empty|constructor]. }
  clear Hkey. revert Hstart. induction Hrun as [|y y1 y2 Hstep _ IH]; intros Hy; [done|].
  apply IH. by eapply log_step_ok.
Qed.
End Safety.

#[local] Existing Instance toy_hmac.
#[local] Existing Instance toy_hmac_laws.

(** ** A pass among unkeyed appends *)

Definition toy_late : EventRecord := mkEvent "c" 2 UserMsg (as_bytes "late") 1001 (Some "user").
Definition toy_unkeyed : Db := (append None toy_event empty_db).2.
(** The back-fill has read the first row when a second one arrives. *)
Definition toy_reading : log_config :=
  run_schedule [0; 0]%nat (toy_ring, toy_unkeyed, [on_log (backfill_null_tags (Some toy_ring))]).
Definition toy_arrived : log_config := ((toy_ring, (append None toy_late toy_reading.1.2).2), toy_reading.2).
Definition toy_passed : log_config := run_schedule [0; 0; 0]%nat toy_arrived.

Lemma toy_passed_steps : rtc (log_step (V:=unit)) (toy_ring, empty_db, []) toy_passed.
Proof.
  assert (∀ sched y, rtc (log_step (V:=unit)) y (run_schedule sched y)) as Hsched.
  { intros sched y. eapply (rtc_congruence id); [|apply (run_schedule_steps free_step tag_pass)].
    intros a b. apply log_free. }
  eapply rtc_l; [apply log_free, step_env, (step_unkeyed_append toy_ring empty_db toy_event);
    vm_compute; split; discriminate|].
  eapply rtc_l; [apply log_free, step_accept, pass_backfill|].
  etrans; [apply (Hsched [0; 0]%nat)|]. fold toy_unkeyed. change (rtc (log_step (V:=unit)) toy_reading toy_passed).
  eapply rtc_l; [|apply (Hsched [0; 0; 0]%nat toy_arrived)].
  rewrite (surjective_pairing toy_reading). apply log_free, step_env.
  assert (toy_reading.1 = (toy_ring, toy_reading.1.2)) as -> by reflexivity.
  apply step_unkeyed_append. vm_compute. split; discriminate.
Qed.

Lemma replay_never_false_alarm_witness :
  Forall finished toy_passed.2 ∧ count_rows null_tag toy_passed.1.2 = 1 ∧
  replay_since (Some toy_passed.1.1) "c" 0 toy_passed.1.2 =
  Ok (map ir_event (List.filter (λ row, 0 <? er_seq (ir_event row))
                      (load_integrity_rows "c" toy_passed.1.2))).
Proof.
  split; [|split; [vm_compute; reflexivity|]].
  - assert (∃ r, toy_passed.2 = [Finish r]) as [r ->] by (eexists; vm_compute; reflexivity).
    constructor; [by exists r|constructor].
  - apply (replay_never_false_alarm (V:=unit) toy_ring toy_passed); [|apply toy_passed_steps].
    vm_compute. eexists. reflexivity.
Defined.

(** ** A pass among keyed appends *)

Definition racing : Db * list (proc Db (result DbError ())) :=
  (toy_unkeyed, [let^ _ := backfill_null_tags (Some toy_ring) in ok ();
                 log_stmt (append (Some toy_ring) toy_late)]).
(** The pass finds no checkpoint and reads the row; the append anchors the row
    without its tag in the genesis of a new chain; the pass writes the tag. *)
Definition raced : Db * list (proc Db (result DbError ())) := run_schedule [0; 0; 1; 0; 0; 0]%nat racing.

(** A keyed append between the check and the update of a back-fill: both
    succeed, and every replay of the conversation reports tampering. *)
Lemma keyed_append_races_backfill :
  raced.2 = [Finish (Ok ()); Finish (Ok ())] ∧
  match replay_since (Some toy_ring) "c" 0 raced.1 with Err (TamperDetected _) => True | _ => False end.
Proof. split; vm_compute; [reflexivity|exact I]. Qed.
