(* ===== verification/Snapshots.v ===== *)
(** * Snapshots

    [EventLog::build_snapshot] and [EventLog::hydrate]
    (crates/core/src/events.rs): reading a conversation through a snapshot
    gives what replaying the whole log gives. *)

From S2P Require Import Prelude Wire Text EventKind EventHmac Schema EventLog.

Section Snapshots.
Context {HM : Hmac}.

(** Splitting an ascending list at a bound. *)
Lemma ascending_split l n :
  ascending l →
  List.filter (λ r, ev_seq r <=? n) l ++ List.filter (λ r, n <? ev_seq r) l = l.
Proof.
  induction l as [|r l IH]; cbn; [done|]. intros [Hall Hasc]%ascending_cons.
  destruct (Z.leb_spec (ev_seq r) n) as [Hle|Hgt].
  - rewrite (proj2 (Z.ltb_ge _ _)) by lia. cbn. by rewrite IH.
  - rewrite (proj2 (Z.ltb_lt _ _)) by lia.
    assert (List.filter (λ r, ev_seq r <=? n) l = []) as ->.
    { rewrite (filter_ext_elem _ (λ _, false)).
      - clear. by induction l.
      - intros x Hx. rewrite Forall_forall in Hall. specialize (Hall x Hx). apply Z.leb_gt. lia. }
    cbn. f_equal. rewrite <-(IH Hasc) at 2.
    assert (List.filter (λ r, ev_seq r <=? n) l = []) as ->; [|done].
    rewrite (filter_ext_elem _ (λ _, false)).
    + clear. by induction l.
    + intros x Hx. rewrite Forall_forall in Hall. specialize (Hall x Hx). apply Z.leb_gt. lia.
Qed.

Definition record_of (c : string) (r : EventRow) : EventRecord := ir_event (load_row c r).

Lemma replay_unkeyed c after d :
  replay_since None c after d =
  Ok (map (record_of c) (List.filter (λ r, after <? ev_seq r) (events_of c d))).
Proof.
  unfold replay_since, load_integrity_rows. cbn [verify_integrity].
  rewrite filter_map_comm, map_map. done.
Qed.

(** hydration through a snapshot.  Take a snapshot of an unkeyed
    conversation at any sequence number, let any rows with later numbers be
    added, and let the stored blob decode to the snapshot: [hydrate] returns
    exactly the replay of the whole log.  When the blob does not decode, or
    was taken for another conversation or number, it does so for every log;
    and a keyed log never reads the snapshot at all. *)
Theorem hydrate_is_replay decode blob c up_to now d d' snap :
  build_snapshot None c up_to now d = Ok snap → decode blob = Some snap →
  0 ≤ up_to → ascending (events_of c d') →
  List.filter (λ r, ev_seq r <=? up_to) (events_of c d') =
    List.filter (λ r, ev_seq r <=? up_to) (events_of c d) →
  hydrate decode None c (Some blob) (Some up_to) d' = replay_since None c 0 d'.
Proof.
  intros Hs Hd Hup Hasc' Hold. unfold hydrate. rewrite Hd.
  unfold build_snapshot in Hs. rewrite replay_unkeyed in Hs. apply Ok_inj in Hs as <-.
  cbn [sn_conversation_id sn_up_to_seq sn_events]. rewrite bool_decide_true, Z.eqb_refl by done.
  cbn [andb]. rewrite !replay_unkeyed. f_equal.
  rewrite filter_map_comm, <-map_app. f_equal.
  assert (ascending (List.filter (λ r, 0 <? ev_seq r) (events_of c d'))) as Hasc0.
  { clear -Hasc'. induction (events_of c d') as [|r l IH]; cbn; [apply ascending_nil|].
    apply ascending_cons in Hasc' as [Hall Hasc]. specialize (IH Hasc).
    destruct (0 <? ev_seq r); [|done]. apply ascending_cons. split; [|done].
    apply List.Forall_forall. intros x [Hx _]%filter_In. rewrite List.Forall_forall in Hall. auto. }
  rewrite <-(ascending_split _ up_to Hasc0). f_equal.
  - rewrite (filter_swap _ _ (events_of c d')), Hold. apply filter_swap.
  - rewrite filter_filter. apply filter_ext_elem. intros x _. cbn.
    destruct (Z.ltb_spec up_to (ev_seq x)); [|by rewrite andb_false_r].
    by rewrite (proj2 (Z.ltb_lt 0 _)) by lia.
Qed.

Lemma hydrate_keyed decode ring c blob seq d :
  hydrate decode (Some ring) c blob seq d = replay_since (Some ring) c 0 d.
Proof. done. Qed.
End Snapshots.

#[local] Existing Instance toy_hmac.

Definition plain (seq : Z) : EventRow := unsigned_row (mkEvent "c" seq UserMsg [] 1000 None).
Definition plain_log (n : nat) : Db :=
  set_events <["c" := map (λ i, plain (Z.of_nat i + 1)) (seq 0 n)]> empty_db.

Lemma hydrate_is_replay_witness :
  let snap := mkSnapshot "c" 2 [record_of "c" (plain 1); record_of "c" (plain 2)] 5 in
  hydrate (λ _, Some snap) None "c" (Some []) (Some 2) (plain_log 4) = replay_since None "c" 0 (plain_log 4).
Proof.
  intros snap. apply (hydrate_is_replay (λ _, Some snap) [] "c" 2 5 (plain_log 3) (plain_log 4) snap).
  - vm_compute. reflexivity.
  - reflexivity.
  - lia.
  - vm_compute events_of. repeat (apply ascending_cons; split; [repeat constructor|]). apply ascending_nil.
  - vm_compute. reflexivity.
Defined.
