(* ===== verification/Freshness.v ===== *)
(** * Freshness manifests

    The signed record of conversation heads kept outside the database
    (crates/core/src/events.rs, [export_freshness_manifest],
    [verify_freshness_manifest], [compare_freshness_manifest]): it detects
    that a whole, internally consistent database was rolled back. *)

From stdpp Require Import sorting.
From S2P Require Import Prelude Wire Text EventKind EventHmac Schema EventLog Chain.

(** ** Definitions *)

Record FreshnessHead : Type := mkFresh {
  fh_conversation_id : string;
  fh_sequence : Z;
  fh_tag : bytes
}.

Record FreshnessManifest : Type := mkManifest {
  format_version : Z;
  generated_at : Z;
  fm_key_id : Z;
  fm_heads : list FreshnessHead;
  signature : bytes
}.

Inductive FreshnessComparison : Type :=
| Matches
| DatabaseAdvanced (conversations : list string)
| RollbackDetected (conversations : list string)
| Diverged (conversations : list string).

#[global] Instance FreshnessHead_eq_dec : EqDecision FreshnessHead.
Proof. solve_decision. Defined.

Definition head_bytes (h : FreshnessHead) : bytes :=
  sized (as_bytes (fh_conversation_id h)) ++ i64_le (fh_sequence h) ++ sized (fh_tag h).

(** [canonical_freshness] *)
Definition canonical_freshness (version at_ key_id : Z) (heads : list FreshnessHead) : bytes :=
  as_bytes "execlaw/external-freshness/v1" ++ nul :: u32_le version ++ i64_le at_ ++
  i64_le key_id ++ u64_le (vec_len heads) ++ concat (map head_bytes heads).

Section Freshness.
Context {HM : Hmac}.

(** [SELECT conversation_id, head_seq, head_tag ... ORDER BY conversation_id] *)
Definition key_before (x y : string * IntegrityHead) : Prop := Is_true (String.leb x.1 y.1).
#[global] Instance key_before_dec x y : Decision (key_before x y).
Proof. unfold key_before. apply _. Defined.

Definition stored_heads (d : Db) : list FreshnessHead :=
  map (λ ch, mkFresh ch.1 (head_seq ch.2) (head_tag ch.2))
    (merge_sort key_before (map_to_list (integrity_heads d))).

(** The verification loop of the export. *)
Fixpoint verify_conversations (kr : option KeyRing) (ids : list string) (d : Db) : result DbError () :=
  match ids with
  | [] => Ok ()
  | c :: ids =>
      match verify_integrity kr c (load_integrity_rows c d) (load_integrity_head c d) with
      | Err e => Err e
      | Ok _ => verify_conversations kr ids d
      end
  end.

(** [EventLog::export_freshness_manifest] *)
Definition export_freshness_manifest (kr : option KeyRing) (at_ : Z) (d : Db)
    : result DbError FreshnessManifest :=
  match kr with
  | None => Err (Config "freshness export requires the event integrity key ring")
  | Some ring =>
      let ids := conversation_ids d in
      match verify_conversations kr ids d with
      | Err e => Err e
      | Ok _ =>
          let heads := stored_heads d in
          if negb (vec_len heads =? vec_len ids)
          then Err (Invariant "freshness export refused because one or more event chains lack a signed head")
          else match current_key ring with
          | None => Err (Config "freshness export key ring has no current key")
          | Some key =>
              let canonical := canonical_freshness 1 at_ (current_id ring) heads in
              Ok (mkManifest 1 at_ (current_id ring) heads (sign_event key canonical))
          end
      end
  end.

Definition ids_not_ascending (h1 h2 : FreshnessHead) : bool :=
  String.leb (fh_conversation_id h2) (fh_conversation_id h1).

(** [EventLog::verify_freshness_manifest] *)
Definition verify_freshness_manifest (kr : option KeyRing) (m : FreshnessManifest) : result DbError () :=
  if negb (format_version m =? 1)
  then Err (Config ("unsupported freshness manifest version " +:+ pretty (format_version m)))
  else if negb (bool_decide (length (signature m) = tag_len))
          || any_adjacent ids_not_ascending (fm_heads m)
          || existsb (λ h, (fh_sequence h <? 0) || negb (bool_decide (length (fh_tag h) = tag_len)))
               (fm_heads m)
  then Err (TamperDetected "malformed freshness manifest")
  else match kr with
  | None => Err (Config "freshness verification requires the event integrity key ring")
  | Some ring =>
      match key_for ring (fm_key_id m) with
      | None => Err (TamperDetected ("freshness manifest uses unknown key_id " +:+ pretty (fm_key_id m)))
      | Some key =>
          let canonical := canonical_freshness (format_version m) (generated_at m) (fm_key_id m) (fm_heads m) in
          if negb (bool_decide (sign_event key canonical = signature m))
          then Err (TamperDetected "freshness manifest signature mismatch")
          else Ok ()
      end
  end.

(** The comparison loop: (rollback, diverged, advanced). *)
Fixpoint classify (current : gmap string FreshnessHead) (refs : list FreshnessHead)
    : list string * list string * list string :=
  match refs with
  | [] => ([], [], [])
  | r :: refs =>
      let id := fh_conversation_id r in
      let '(rollback, diverged, advanced) := classify current refs in
      match current !! id with
      | None => (id :: rollback, diverged, advanced)
      | Some head =>
          if fh_sequence head <? fh_sequence r then (id :: rollback, diverged, advanced)
          else if (fh_sequence head =? fh_sequence r) && negb (bool_decide (fh_tag head = fh_tag r))
          then (rollback, id :: diverged, advanced)
          else if fh_sequence r <? fh_sequence head then (rollback, diverged, id :: advanced)
          else (rollback, diverged, advanced)
      end
  end.

Definition by_id (heads : list FreshnessHead) : gmap string FreshnessHead :=
  list_to_map (map (λ h, (fh_conversation_id h, h)) heads).

(** [EventLog::compare_freshness_manifest] *)
Definition compare_freshness_manifest (kr : option KeyRing) (m : FreshnessManifest) (d : Db)
    : result DbError FreshnessComparison :=
  match verify_freshness_manifest kr m with
  | Err e => Err e
  | Ok _ =>
      match export_freshness_manifest kr (generated_at m) d with
      | Err e => Err e
      | Ok current =>
          let '(rollback, diverged, advanced) := classify (by_id (fm_heads current)) (fm_heads m) in
          let advanced := advanced ++
            map fh_conversation_id
              (List.filter (λ h, negb (bool_decide
                 (fh_conversation_id h ∈ map fh_conversation_id (fm_heads m)))) (fm_heads current)) in
          match rollback, diverged, advanced with
          | _ :: _, _, _ => Ok (RollbackDetected rollback)
          | [], _ :: _, _ => Ok (Diverged diverged)
          | [], [], _ :: _ => Ok (DatabaseAdvanced advanced)
          | [], [], [] => Ok Matches
          end
      end
  end.
End Freshness.

(** ** What the comparison reports *)

Section Properties.
Context {HM : Hmac} {HL : HmacLaws}.

(** How the stored head of a conversation stands to the recorded one: it is
    missing or has a lower number; it has the same number and another tag; it
    has a higher number. *)
Definition lost (d : Db) (r : FreshnessHead) : Prop :=
  ∀ i, integrity_heads d !! fh_conversation_id r = Some i → head_seq i < fh_sequence r.
Definition replaced (d : Db) (r : FreshnessHead) : Prop :=
  ∃ i, integrity_heads d !! fh_conversation_id r = Some i ∧
    head_seq i = fh_sequence r ∧ head_tag i ≠ fh_tag r.
Definition extended (d : Db) (r : FreshnessHead) : Prop :=
  ∃ i, integrity_heads d !! fh_conversation_id r = Some i ∧ fh_sequence r < head_seq i.

(** The stored heads the manifest does not record, in the order of their ids. *)
Definition unrecorded (d : Db) (m : FreshnessManifest) (news : list string) : Prop :=
  StronglySorted String.le news ∧ NoDup news ∧
  ∀ c, c ∈ news ↔ is_Some (integrity_heads d !! c) ∧ c ∉ map fh_conversation_id (fm_heads m).

Definition ids (l : list FreshnessHead) : list string := map fh_conversation_id l.

#[global] Instance lost_dec d r : Decision (lost d r).
Proof.
  unfold lost. destruct (integrity_heads d !! fh_conversation_id r) as [i|].
  - destruct (decide (head_seq i < fh_sequence r)); [left; by intros ? [= <-]|right; auto].
  - by left.
Defined.
#[global] Instance replaced_dec d r : Decision (replaced d r).
Proof.
  unfold replaced. destruct (integrity_heads d !! fh_conversation_id r) as [i|].
  - destruct (decide (head_seq i = fh_sequence r ∧ head_tag i ≠ fh_tag r)); [left; by exists i|right].
    intros (? & [= <-] & ?). done.
  - right. by intros (? & ? & _).
Defined.
#[global] Instance extended_dec d r : Decision (extended d r).
Proof.
  unfold extended. destruct (integrity_heads d !! fh_conversation_id r) as [i|].
  - destruct (decide (fh_sequence r < head_seq i)); [left; by exists i|right].
    intros (? & [= <-] & ?). done.
  - right. by intros (? & ? & _).
Defined.

(** What a comparison should say of the database [d] and the manifest [m]. *)
Definition standing (m : FreshnessManifest) (d : Db) (r : FreshnessComparison) : Prop :=
  match r with
  | RollbackDetected l => l = ids (filter (lost d) (fm_heads m)) ∧ l ≠ []
  | Diverged l =>
      Forall (λ h, ¬ lost d h) (fm_heads m) ∧
      l = ids (filter (replaced d) (fm_heads m)) ∧ l ≠ []
  | DatabaseAdvanced l =>
      Forall (λ h, ¬ lost d h ∧ ¬ replaced d h) (fm_heads m) ∧ l ≠ [] ∧
      ∃ news, unrecorded d m news ∧ l = ids (filter (extended d) (fm_heads m)) ++ news
  | Matches =>
      (∀ h, h ∈ fm_heads m →
         ∃ i, integrity_heads d !! fh_conversation_id h = Some i ∧
              head_seq i = fh_sequence h ∧ head_tag i = fh_tag h) ∧
      (∀ c, is_Some (integrity_heads d !! c) → c ∈ ids (fm_heads m))
  end.

Lemma stored_heads_elem d r :
  r ∈ stored_heads d ↔
  ∃ h, integrity_heads d !! fh_conversation_id r = Some h ∧ r = mkFresh (fh_conversation_id r) (head_seq h) (head_tag h).
Proof.
  unfold stored_heads. rewrite list_elem_of_fmap. split.
  - intros ([c h] & -> & Hin). rewrite merge_sort_Permutation in Hin.
    apply elem_of_map_to_list in Hin. by exists h.
  - intros (h & Hh & Hr). exists (fh_conversation_id r, h). split; [done|].
    rewrite merge_sort_Permutation. by apply elem_of_map_to_list.
Qed.

Lemma stored_ids_perm d : ids (stored_heads d) ≡ₚ (map_to_list (integrity_heads d)).*1.
Proof.
  unfold ids, stored_heads. rewrite map_map. cbn. apply Permutation_map, merge_sort_Permutation.
Qed.

Lemma stored_ids_NoDup d : NoDup (ids (stored_heads d)).
Proof. rewrite stored_ids_perm. apply NoDup_fst_map_to_list. Qed.

Lemma by_id_stored d c :
  by_id (stored_heads d) !! c = (λ h, mkFresh c (head_seq h) (head_tag h)) <$> integrity_heads d !! c.
Proof.
  assert (∀ r, by_id (stored_heads d) !! c = Some r ↔ r ∈ stored_heads d ∧ fh_conversation_id r = c) as Hin.
  { intros r. unfold by_id. rewrite <-elem_of_list_to_map.
    - rewrite list_elem_of_fmap. split; [intros (r' & ? & ?); by simplify_eq|intros [? <-]; by exists r].
    - rewrite <-list_fmap_compose. apply stored_ids_NoDup. }
  destruct (integrity_heads d !! c) as [h|] eqn:Hh; cbn.
  - apply Hin. split; [|done]. apply stored_heads_elem. cbn. by exists h.
  - apply eq_None_not_Some. intros [r Hr]. apply Hin in Hr as [(h & Hh' & _)%stored_heads_elem <-]. congruence.
Qed.

Lemma classify_spec d refs :
  classify (by_id (stored_heads d)) refs =
  (ids (filter (lost d) refs), ids (filter (replaced d) refs), ids (filter (extended d) refs)).
Proof.
  induction refs as [|r refs IH]; [done|]. cbn [classify]. rewrite IH, by_id_stored, !filter_cons.
  destruct (decide (lost d r)) as [Hl|Hl], (decide (replaced d r)) as [Hr|Hr],
    (decide (extended d r)) as [He|He]; unfold lost, replaced, extended in Hl, Hr, He;
    destruct (integrity_heads d !! fh_conversation_id r) as [i|]; cbn [fmap option_fmap option_map];
    cbn [fh_sequence fh_tag];
    repeat case_bool_decide; repeat case_match; naive_solver lia.
Qed.

Lemma export_ok ring at_ d m :
  export_freshness_manifest (Some ring) at_ d = Ok m →
  ∃ key, current_key ring = Some key ∧ fm_heads m = stored_heads d ∧
    m = mkManifest 1 at_ (current_id ring) (stored_heads d)
          (sign_event key (canonical_freshness 1 at_ (current_id ring) (stored_heads d))).
Proof.
  unfold export_freshness_manifest. destruct (verify_conversations _ _ _); [|done].
  destruct (negb _); [done|]. destruct (current_key ring) as [key|]; [|done].
  intros <-%Ok_inj. by exists key.
Qed.

Lemma ids_nil l : ids l = [] ↔ l = [].
Proof. by destruct l. Qed.

#[local] Instance key_before_trans : Transitive key_before.
Proof. intros [a ?] [b ?] [c ?]. exact (transitivity (R := String.le) (x := a) (y := b) (z := c)). Qed.
#[local] Instance key_before_total : Total key_before.
Proof. intros [a ?] [b ?]. exact (total String.le a b). Qed.

Lemma stored_ids_sorted d : StronglySorted String.le (ids (stored_heads d)).
Proof.
  unfold ids, stored_heads. rewrite map_map.
  refine (StronglySorted_fmap _ _ _ _ _ (StronglySorted_merge_sort key_before _)). by intros [] [].
Qed.

Lemma StronglySorted_filter_fmap {A} (f : A → string) (P : A → bool) l :
  StronglySorted String.le (f <$> l) → StronglySorted String.le (f <$> List.filter P l).
Proof.
  induction l as [|x l IH]; [done|]. cbn. rewrite StronglySorted_cons. intros [Hx Hl].
  destruct (P x); cbn; [|by auto]. apply StronglySorted_cons. split; [|by auto].
  rewrite Forall_forall in *. intros y (z & -> & [Hz _]%list_elem_of_In%filter_In)%list_elem_of_fmap.
  apply Hx, list_elem_of_fmap. exists z. by rewrite list_elem_of_In.
Qed.

Lemma NoDup_filter_fmap {A B} (f : A → B) (P : A → bool) l :
  NoDup (f <$> l) → NoDup (f <$> List.filter P l).
Proof.
  induction l as [|x l IH]; [done|]. cbn. rewrite NoDup_cons. intros [Hx Hl].
  destruct (P x); cbn; [|by auto]. apply NoDup_cons. split; [|by auto].
  intros (z & Hz & [Hin _]%list_elem_of_In%filter_In)%list_elem_of_fmap.
  apply Hx, list_elem_of_fmap. exists z. by rewrite list_elem_of_In.
Qed.

(** The code's list of the heads beyond the manifest. *)
Definition new_ids (d : Db) (m : FreshnessManifest) : list string :=
  ids (List.filter (λ h, negb (bool_decide (fh_conversation_id h ∈ map fh_conversation_id (fm_heads m))))
         (stored_heads d)).

Lemma new_ids_unrecorded d m : unrecorded d m (new_ids d m).
Proof.
  unfold new_ids, ids. split_and!.
  - apply StronglySorted_filter_fmap, stored_ids_sorted.
  - apply NoDup_filter_fmap, stored_ids_NoDup.
  - intros c. rewrite list_elem_of_fmap. setoid_rewrite list_elem_of_In. setoid_rewrite filter_In.
    setoid_rewrite <-list_elem_of_In. setoid_rewrite negb_true_iff. setoid_rewrite bool_decide_eq_false. split.
    + intros (h & -> & (i & Hi & _)%stored_heads_elem & Hn). by split; [exists i|].
    + intros [[i Hi] Hn]. exists (mkFresh c (head_seq i) (head_tag i)). split_and!; [done| |done].
      apply stored_heads_elem. by exists i.
Qed.

Lemma unrecorded_unique d m l1 l2 : unrecorded d m l1 → unrecorded d m l2 → l1 = l2.
Proof.
  intros (Hs1 & Hd1 & H1) (Hs2 & Hd2 & H2). apply (StronglySorted_unique String.le); [done..|].
  apply NoDup_Permutation; [done..|]. intros c. by rewrite H1, H2.
Qed.

Lemma filtered_ids_nil (P : FreshnessHead → Prop) `{∀ h, Decision (P h)} hs :
  ids (filter P hs) = [] ↔ Forall (λ h, ¬ P h) hs.
Proof.
  induction hs as [|h hs IH]; [by split|]. rewrite filter_cons, Forall_cons.
  case_decide; cbn; [by split; [|intros []]|]. rewrite IH. naive_solver.
Qed.

Lemma Forall_not_both (P Q : FreshnessHead → Prop) hs :
  Forall (λ h, ¬ P h ∧ ¬ Q h) hs ↔ Forall (λ h, ¬ P h) hs ∧ Forall (λ h, ¬ Q h) hs.
Proof. apply Forall_and. Qed.

(** The three lists of the comparison. *)
Definition lost_ids d m := ids (filter (lost d) (fm_heads m)).
Definition replaced_ids d m := ids (filter (replaced d) (fm_heads m)).
Definition advanced_ids d m := ids (filter (extended d) (fm_heads m)) ++ new_ids d m.

Lemma matches_iff m d :
  standing m d Matches ↔ lost_ids d m = [] ∧ replaced_ids d m = [] ∧ advanced_ids d m = [].
Proof.
  unfold lost_ids, replaced_ids, advanced_ids. rewrite app_nil, !filtered_ids_nil.
  destruct (new_ids_unrecorded d m) as (_ & _ & Hn). cbn. unfold ids. rewrite !Forall_forall. split.
  - intros [Hall Hin]. split_and!.
    + intros h Hh Hl. destruct (Hall h Hh) as (i & Hi & ? & _). specialize (Hl i Hi). lia.
    + intros h Hh (j & Hj & _ & Hne). destruct (Hall h Hh) as (i & Hi & ? & ?). by simplify_eq.
    + intros h Hh (j & Hj & ?). destruct (Hall h Hh) as (i & Hi & ? & ?). simplify_eq. lia.
    + apply elem_of_nil_inv. intros c [Hc Hno]%Hn. by apply Hno, Hin.
  - intros (Hl & Hr & He & Hnil). split.
    + intros h Hh. specialize (Hl h Hh). specialize (Hr h Hh). specialize (He h Hh).
      unfold lost, replaced, extended in *. destruct (integrity_heads d !! _) as [i|]; [|by destruct Hl].
      exists i. split; [done|]. destruct (decide (head_seq i = fh_sequence h)) as [Hq|Hq].
      * split; [done|]. destruct (decide (head_tag i = fh_tag h)); [done|]. destruct Hr. by exists i.
      * destruct He. exists i. split; [done|]. destruct (decide (head_seq i < fh_sequence h)); [|lia].
        destruct Hl. by intros ? [= <-].
    + intros c Hc. destruct (decide (c ∈ map fh_conversation_id (fm_heads m))) as [|Hno]; [done|].
      assert (c ∈ new_ids d m) as Hin by by apply Hn. by rewrite Hnil in Hin; apply not_elem_of_nil in Hin.
Qed.

Lemma advanced_iff m d l :
  standing m d (DatabaseAdvanced l) ↔
  lost_ids d m = [] ∧ replaced_ids d m = [] ∧ l = advanced_ids d m ∧ l ≠ [].
Proof.
  unfold lost_ids, replaced_ids, advanced_ids. cbn. rewrite Forall_not_both, !filtered_ids_nil. split.
  - intros ([? ?] & ? & news & Hu & ->). split_and!; try done.
    by rewrite (unrecorded_unique d m _ _ Hu (new_ids_unrecorded d m)).
  - intros (? & ? & -> & ?). split_and!; try done. exists (new_ids d m).
    split; [apply new_ids_unrecorded|done].
Qed.

Lemma diverged_iff m d l :
  standing m d (Diverged l) ↔ lost_ids d m = [] ∧ l = replaced_ids d m ∧ l ≠ [].
Proof. unfold lost_ids. by rewrite filtered_ids_nil. Qed.

(** The answer the three lists determine. *)
Lemma standing_iff m d r :
  standing m d r ↔
  r = match lost_ids d m, replaced_ids d m, advanced_ids d m with
      | _ :: _, _, _ => RollbackDetected (lost_ids d m)
      | [], _ :: _, _ => Diverged (replaced_ids d m)
      | [], [], _ :: _ => DatabaseAdvanced (advanced_ids d m)
      | [], [], [] => Matches
      end.
Proof.
  destruct r as [|l|l|l]; [rewrite matches_iff|rewrite advanced_iff| |rewrite diverged_iff];
    [| |cbn [standing]; fold (lost_ids d m)|];
    destruct (lost_ids d m), (replaced_ids d m), (advanced_ids d m); naive_solver.
Qed.

(** C6: rollback detection.  When an authenticated manifest is compared with a
    database whose logs verify, the comparison answers exactly what the
    stored heads say: [RollbackDetected] with the conversations whose head is
    missing or older than the recorded one, when there is one; else
    [Diverged] with those whose head has the recorded number and another tag,
    when there is one; else [DatabaseAdvanced] with those whose head is
    newer, followed by the stored conversations the manifest does not record
    in the order of their ids, when there is one of either; and [Matches]
    exactly when the database has the recorded heads and no others. *)
Theorem rollback_detected ring m d r :
  compare_freshness_manifest (Some ring) m d = Ok r →
  ∀ r', standing m d r' ↔ r' = r.
Proof.
  intros Hcmp r'. rewrite standing_iff. assert (∀ x, r = x → (r' = x ↔ r' = r)) as Heq by (by intros ? ->).
  apply Heq. clear Heq. revert Hcmp.
  unfold compare_freshness_manifest. destruct (verify_freshness_manifest _ _); [|done].
  destruct (export_freshness_manifest _ _ _) as [cur|] eqn:Hex; [|done].
  apply export_ok in Hex as (key & _ & -> & _). rewrite classify_spec.
  fold (ids (List.filter (λ h, negb (bool_decide
    (fh_conversation_id h ∈ map fh_conversation_id (fm_heads m)))) (stored_heads d))).
  fold (new_ids d m) (lost_ids d m) (replaced_ids d m) (advanced_ids d m).
  repeat case_match; intros ?%Ok_inj; congruence.
Qed.
End Properties.

(** ** Authenticity *)
Section Authenticity.
Context {HM : Hmac} {HL : HmacLaws}.

(** The machine-width fields of a manifest. *)
Record manifest_wf (m : FreshnessManifest) : Prop := {
  mw_version : in_u32 (format_version m);
  mw_at : in_i64 (generated_at m);
  mw_key : in_i64 (fm_key_id m);
  mw_heads : fits_u64 (fm_heads m);
  mw_head : Forall (λ h, fits_u64 (as_bytes (fh_conversation_id h)) ∧ in_i64 (fh_sequence h)
                         ∧ fits_u64 (fh_tag h)) (fm_heads m)
}.

Definition manifest_message (m : FreshnessManifest) : bytes :=
  canonical_freshness (format_version m) (generated_at m) (fm_key_id m) (fm_heads m).

Lemma head_bytes_inj hs1 hs2 :
  Forall (λ h, fits_u64 (as_bytes (fh_conversation_id h)) ∧ in_i64 (fh_sequence h) ∧ fits_u64 (fh_tag h)) hs1 →
  Forall (λ h, fits_u64 (as_bytes (fh_conversation_id h)) ∧ in_i64 (fh_sequence h) ∧ fits_u64 (fh_tag h)) hs2 →
  length hs1 = length hs2 → concat (map head_bytes hs1) = concat (map head_bytes hs2) → hs1 = hs2.
Proof.
  intros Hw1. revert hs2. induction Hw1 as [|[c1 s1 t1] hs1 (Hc1 & Hs1 & Ht1) _ IH];
    intros [|[c2 s2 t2] hs2] Hw2 Hlen; try done.
  apply Forall_cons in Hw2 as [(Hc2 & Hs2 & Ht2) Hw2]. cbn in Hc1, Hs1, Ht1, Hc2, Hs2, Ht2.
  cbn [map concat]. unfold head_bytes at 1. unfold head_bytes at 2.
  cbn [fh_conversation_id fh_sequence fh_tag].
  rewrite <-!(assoc_L (++)). intros Heq.
  apply sized_field_inj in Heq as [->%(inj as_bytes) Heq]; [|done..].
  apply i64_field_inj in Heq as [-> Heq]; [|done..].
  apply sized_field_inj in Heq as [-> Heq]; [|done..].
  f_equal. apply IH; [done|by injection Hlen|done].
Qed.

Lemma manifest_message_inj m1 m2 :
  manifest_wf m1 → manifest_wf m2 → manifest_message m1 = manifest_message m2 →
  format_version m1 = format_version m2 ∧ generated_at m1 = generated_at m2 ∧
  fm_key_id m1 = fm_key_id m2 ∧ fm_heads m1 = fm_heads m2.
Proof.
  intros [Hv1 Ha1 Hk1 Hn1 Hh1] [Hv2 Ha2 Hk2 Hn2 Hh2]. unfold manifest_message, canonical_freshness.
  intros Heq. apply app_inv_head, nul_cons_inv in Heq.
  apply u32_field_inj in Heq as [-> Heq]; [|done..].
  apply i64_field_inj in Heq as [-> Heq]; [|done..].
  apply i64_field_inj in Heq as [-> Heq]; [|done..].
  apply u64_field_inj in Heq as [Hlen Heq]; [|done..].
  split_and!; [done..|]. apply head_bytes_inj; try done. unfold vec_len in Hlen. lia.
Qed.

Lemma verify_freshness_ok ring m :
  verify_freshness_manifest (Some ring) m = Ok () →
  format_version m = 1 ∧ any_adjacent ids_not_ascending (fm_heads m) = false ∧
  ∃ key, key_for ring (fm_key_id m) = Some key ∧ signature m = sign_event key (manifest_message m).
Proof.
  unfold verify_freshness_manifest. destruct (Z.eqb_spec (format_version m) 1); cbn [negb]; [|done].
  destruct (negb (bool_decide _)); cbn [orb]; [done|].
  destruct (any_adjacent _ _); cbn [orb]; [done|]. destruct (existsb _ _); [done|].
  destruct (key_for ring (fm_key_id m)) as [key|]; [|done].
  case_bool_decide as Hs; cbn [negb]; [|done]. intros _. split_and!; [done..|]. by exists key.
Qed.

(** a manifest cannot be altered under its signature.  Two manifests that
    verify under one ring with equal signatures are equal in every field,
    unless the MAC collides on their two encodings: the length-prefixed
    encoding leaves no room to move bytes between heads. *)
Theorem freshness_authentic ring m1 m2 :
  manifest_wf m1 → manifest_wf m2 →
  verify_freshness_manifest (Some ring) m1 = Ok () →
  verify_freshness_manifest (Some ring) m2 = Ok () →
  no_collision [(default [] (key_for ring (fm_key_id m1)), manifest_message m1)]
               [(default [] (key_for ring (fm_key_id m2)), manifest_message m2)] →
  signature m1 = signature m2 → m1 = m2.
Proof.
  intros Hw1 Hw2 (_ & _ & k1 & Hk1 & Hs1)%verify_freshness_ok (_ & _ & k2 & Hk2 & Hs2)%verify_freshness_ok
    Hno Hsig.
  rewrite Hk1, Hk2 in Hno. cbn [default from_option id] in Hno.
  assert ((k1, manifest_message m1) = (k2, manifest_message m2)) as Heq.
  { apply Hno; [left|left|]. cbn [fst snd]. exact (eq_trans (eq_sym Hs1) (eq_trans Hsig Hs2)). }
  apply (f_equal snd) in Heq. cbn [snd] in Heq.
  apply manifest_message_inj in Heq as (? & ? & ? & ?); [|done..].
  destruct m1, m2. cbn in *. congruence.
Qed.
End Authenticity.

(** ** Closed examples: a database rolled back by one event *)
#[local] Existing Instance toy_hmac.
#[local] Existing Instance toy_hmac_laws.

Definition toy_log_later : Db :=
  (append (Some toy_ring) (mkEvent "c" 2 UserMsg (as_bytes "more") 1001 (Some "user")) toy_log).2.
Definition ok_value {E A} (a : A) (r : result E A) : A := match r with Ok x => x | Err _ => a end.
Definition toy_manifest : FreshnessManifest :=
  ok_value (mkManifest 0 0 0 [] []) (export_freshness_manifest (Some toy_ring) 99 toy_log_later).

Lemma rollback_detected_witness :
  compare_freshness_manifest (Some toy_ring) toy_manifest toy_log = Ok (RollbackDetected ["c"]) ∧
  standing toy_manifest toy_log (RollbackDetected ["c"]).
Proof.
  split; [vm_compute; reflexivity|].
  apply (rollback_detected toy_ring toy_manifest toy_log (RollbackDetected ["c"])); [|reflexivity].
  vm_compute. reflexivity.
Defined.

Lemma freshness_authentic_witness : length (fm_heads toy_manifest) = 1%nat ∧ toy_manifest = toy_manifest.
Proof.
  split; [vm_compute; reflexivity|].
  apply (freshness_authentic toy_ring toy_manifest toy_manifest).
  1-2: split; [vm_compute; split; discriminate..|];
    let l := eval vm_compute in (fm_heads toy_manifest) in
    replace (fm_heads toy_manifest) with l by (vm_compute; reflexivity);
    repeat constructor; vm_compute; discriminate.
  1-2: vm_compute; reflexivity.
  - apply no_collision_b_ok. vm_compute. reflexivity.
  - reflexivity.
Defined.
