(* ===== verification/Outbox.v ===== *)
(** * The outbox

    [crates/core/src/outbox.rs] and [crates/core/src/job_redrive.rs]: the
    durable queue of external effects, with its delivery timeline.  [now] is
    the clock reading of the operation. *)

From S2P Require Import Prelude Wire Text Schema.

(** ** Data *)

Inductive OutboxStatus : Type := Pending | InFlight | Delivered | Failed | DeadLetter | Unknown.

#[global] Instance OutboxStatus_eq_dec : EqDecision OutboxStatus.
Proof. solve_decision. Defined.

(** [OutboxStatus::as_str] and [::parse] *)
Definition status_str (s : OutboxStatus) : string :=
  match s with
  | Pending => "pending"
  | InFlight => "in_flight"
  | Delivered => "delivered"
  | Failed => "failed"
  | DeadLetter => "dead_letter"
  | Unknown => "unknown"
  end.

Definition status_parse (s : string) : option OutboxStatus :=
  if String.eqb s "pending" then Some Pending
  else if String.eqb s "in_flight" then Some InFlight
  else if String.eqb s "delivered" then Some Delivered
  else if String.eqb s "failed" then Some Failed
  else if String.eqb s "dead_letter" then Some DeadLetter
  else if String.eqb s "unknown" then Some Unknown
  else None.

Record OutboxRow : Type := mkOutboxRow {
  or_id : option Z;
  or_idempotency_key : string;
  or_conversation_id : string;
  or_effect_kind : string;
  or_payload : bytes;
  or_status : OutboxStatus;
  or_attempts : Z;
  or_next_attempt_at : option Z;
  or_last_error : option string;
  or_enqueued_seq : Z
}.

(** [row_to_outbox] *)
Definition row_to_outbox (r : OutboxDbRow) : OutboxRow :=
  mkOutboxRow (Some (ob_id r)) (ob_idempotency_key r) (ob_conversation_id r) (ob_effect_kind r)
    (ob_payload r) (default Pending (status_parse (ob_status r))) (ob_attempts r)
    (ob_next_attempt_at r) (ob_last_error r) (ob_enqueued_seq r).

(** [bounded_reason] *)
Definition bounded_reason (reason : string) : string := trim (take_chars 1024 reason).

(** [validate_resolution_actor] *)
Definition validate_resolution_actor (actor : string) : result DbError string :=
  let actor := trim actor in
  if (str_len actor =? 0) || (128 <? str_len actor)
  then Err (Invariant "unknown outcome resolution needs a bounded actor id")
  else Ok actor.

(** [validate_redrive_request] *)
Definition validate_redrive_request (actor reason : string) : result DbError (string * string) :=
  let actor := trim actor in
  let reason := trim reason in
  if (str_len actor =? 0) || (128 <? str_len actor) || existsb is_control (chars actor)
     || (str_len reason =? 0) || (512 <? str_len reason) || existsb is_control (chars reason)
  then Err (Invariant "redrive requires a bounded operator identity and reason")
  else Ok (actor, reason).

Inductive RedriveKind : Type := RedriveOutbox | RedriveMemoryExtraction | RedriveAutomation.

Definition redrive_kind_str (k : RedriveKind) : string :=
  match k with
  | RedriveOutbox => "outbox"
  | RedriveMemoryExtraction => "memory_extraction"
  | RedriveAutomation => "automation"
  end.

(** [append_redrive_event] *)
Definition append_redrive_event (kind : RedriveKind) (job_id identity actor reason : string)
    (prior_attempt occurred_at : Z) : tx Db () :=
  tx_modify (add_redrive (mkRedrive (redrive_kind_str kind) job_id identity actor reason
                            prior_attempt occurred_at)).

(** ** SQL on the table *)

(** [SELECT ... WHERE id = ?]: [Err no_rows] when nothing matches [p]. *)
Definition query_row (p : OutboxDbRow → bool) : tx Db OutboxDbRow := λ d,
  match List.find p (state_outbox d) with
  | Some r => Ok (r, d)
  | None => Err no_rows
  end.

(** [UPDATE state_outbox SET f WHERE p]; the number of rows changed. *)
Definition update_where (p : OutboxDbRow → bool) (f : OutboxDbRow → OutboxDbRow) : tx Db Z := λ d,
  Ok (vec_len (List.filter p (state_outbox d)),
      set_outbox (map (λ r, if p r then f r else r)) d).

Definition record_transition (id : Z) (transition : string) (occurred_at attempt : Z)
    (detail external_receipt actor : option string) : tx Db () :=
  tx_modify (add_delivery (mkDelivery id transition occurred_at attempt detail external_receipt actor)).

Definition has_id (id : Z) (r : OutboxDbRow) : bool := ob_id r =? id.
Definition has_status (s : string) (r : OutboxDbRow) : bool := String.eqb (ob_status r) s.

(** Setters of the columns the operations assign. *)
Definition with_status (s : string) (r : OutboxDbRow) : OutboxDbRow :=
  mkOutboxDbRow (ob_id r) (ob_idempotency_key r) (ob_conversation_id r) (ob_effect_kind r)
    (ob_payload r) s (ob_attempts r) (ob_next_attempt_at r) (ob_last_error r) (ob_enqueued_seq r)
    (ob_lease_owner r) (ob_lease_expires_at r) (ob_ownership_scope_key r) (ob_ownership_generation r).
Definition with_error (e : option string) (r : OutboxDbRow) : OutboxDbRow :=
  mkOutboxDbRow (ob_id r) (ob_idempotency_key r) (ob_conversation_id r) (ob_effect_kind r)
    (ob_payload r) (ob_status r) (ob_attempts r) (ob_next_attempt_at r) e (ob_enqueued_seq r)
    (ob_lease_owner r) (ob_lease_expires_at r) (ob_ownership_scope_key r) (ob_ownership_generation r).
Definition with_attempts (n : Z) (r : OutboxDbRow) : OutboxDbRow :=
  mkOutboxDbRow (ob_id r) (ob_idempotency_key r) (ob_conversation_id r) (ob_effect_kind r)
    (ob_payload r) (ob_status r) n (ob_next_attempt_at r) (ob_last_error r) (ob_enqueued_seq r)
    (ob_lease_owner r) (ob_lease_expires_at r) (ob_ownership_scope_key r) (ob_ownership_generation r).
Definition with_next_attempt (t : option Z) (r : OutboxDbRow) : OutboxDbRow :=
  mkOutboxDbRow (ob_id r) (ob_idempotency_key r) (ob_conversation_id r) (ob_effect_kind r)
    (ob_payload r) (ob_status r) (ob_attempts r) t (ob_last_error r) (ob_enqueued_seq r)
    (ob_lease_owner r) (ob_lease_expires_at r) (ob_ownership_scope_key r) (ob_ownership_generation r).
Definition with_lease (owner : option string) (expires : option Z) (r : OutboxDbRow) : OutboxDbRow :=
  mkOutboxDbRow (ob_id r) (ob_idempotency_key r) (ob_conversation_id r) (ob_effect_kind r)
    (ob_payload r) (ob_status r) (ob_attempts r) (ob_next_attempt_at r) (ob_last_error r)
    (ob_enqueued_seq r) owner expires (ob_ownership_scope_key r) (ob_ownership_generation r).

(** ** Enqueueing *)

(** [INSERT INTO state_outbox] under the unique key and the autoincremented
    id, followed by the [enqueued] transition. *)
Definition insert_row (now : Z) (row : OutboxRow) (scope : option string) (generation : option Z)
    : tx Db Z := λ d,
  if existsb (λ r, String.eqb (ob_idempotency_key r) (or_idempotency_key row)) (state_outbox d)
  then Err constraint_failed
  else
    let id := outbox_last_id d + 1 in
    let r := mkOutboxDbRow id (or_idempotency_key row) (or_conversation_id row)
      (or_effect_kind row) (or_payload row) (status_str (or_status row)) (or_attempts row)
      (or_next_attempt_at row) (or_last_error row) (or_enqueued_seq row) None None scope generation in
    (record_transition id "enqueued" now (or_attempts row) None None None ;;* tx_ret id)
      (set_outbox_last_id id (set_outbox (λ rows, rows ++ [r]) d)).

(** [OutboxStore::enqueue] *)
Definition enqueue (now : Z) (row : OutboxRow) : tx Db Z := insert_row now row None None.

(** The ownership check of an automatic enqueue. *)
Definition owner_is_current (owner : string * string * Z) (d : Db) : bool :=
  let '(scope, agent_id, generation) := owner in
  match agent_ownership d !! scope with
  | Some o =>
      String.eqb (ow_owner_kind o) "agent"
      && match ow_agent_id o with Some id => String.eqb id agent_id | None => false end
      && (ow_generation o =? generation)
  | None => false
  end.

(** [OutboxStore::enqueue_idempotent_guarded] *)
Definition enqueue_idempotent_guarded (now : Z) (row : OutboxRow)
    (owner : option (string * string * Z)) : tx Db (Z * bool) :=
  let* d := tx_get in
  tx_guard (match owner with Some o => owner_is_current o d | None => true end)
    (Invariant "automatic agent lost transport ownership") ;;*
  match List.find (λ r, String.eqb (ob_idempotency_key r) (or_idempotency_key row)) (state_outbox d) with
  | Some r =>
      if String.eqb (ob_conversation_id r) (or_conversation_id row)
         && String.eqb (ob_effect_kind r) (or_effect_kind row)
         && bool_decide (ob_payload r = or_payload row)
      then
        if has_status "unknown" r || has_status "dead_letter" r || has_status "failed" r
        then tx_err (Invariant ("outbox key '" +:+ or_idempotency_key row +:+
               "' requires explicit outcome resolution before replay"))
        else tx_ret (ob_id r, false)
      else tx_err (Invariant ("outbox idempotency key '" +:+ or_idempotency_key row +:+
             "' was reused for a different effect"))
  | None =>
      let* id := insert_row now row ((λ o, o.1.1) <$> owner) ((λ o, o.2) <$> owner) in
      tx_ret (id, true)
  end.

(** [OutboxStore::enqueue_idempotent] and [::enqueue_idempotent_for_agent] *)
Definition enqueue_idempotent (now : Z) (row : OutboxRow) : tx Db (Z * bool) :=
  enqueue_idempotent_guarded now row None.
Definition enqueue_idempotent_for_agent (now : Z) (row : OutboxRow) (scope agent_id : string)
    (generation : Z) : tx Db (Z * bool) :=
  enqueue_idempotent_guarded now row (Some (scope, agent_id, generation)).

(** [OutboxStore::mark_status] *)
Definition mark_status (id : Z) (status : OutboxStatus) (last_error : option string)
    (next_attempt_at : option Z) : tx Db () :=
  let* _ := update_where (has_id id)
    (λ r, with_attempts (ob_attempts r + 1)
            (with_next_attempt next_attempt_at
               (with_error last_error (with_status (status_str status) r)))) in
  tx_ret ().

(** [OutboxStore::inbox_record_if_new] *)
Definition inbox_record_if_new (now : Z) (key : string) : tx Db bool := λ d,
  match state_inbox d !! key with
  | Some _ => Ok (false, d)
  | None => Ok (true, set_inbox <[key := now]> d)
  end.

(** ** Claiming and delivering *)

Definition expired (now : Z) (r : OutboxDbRow) : bool :=
  match ob_lease_expires_at r with Some t => t <=? now | None => false end.

Definition is_ready (now : Z) (r : OutboxDbRow) : bool :=
  (has_status "pending" r
   && match ob_next_attempt_at r with Some t => t <=? now | None => true end)
  || (has_status "in_flight" r && expired now r).

(** [LIMIT n]: a negative limit is no limit. *)
Definition sql_limit {A} (limit : Z) (l : list A) : list A :=
  if limit <? 0 then l else take (Z.to_nat limit) l.

(** [OutboxStore::ready_pending]; rows are kept in id order. *)
Definition ready_pending (now limit : Z) (d : Db) : list OutboxRow :=
  map row_to_outbox (sql_limit limit (List.filter (is_ready now) (state_outbox d))).

Definition claimable (now : Z) (r : OutboxDbRow) : bool :=
  has_status "pending" r || (has_status "in_flight" r && expired now r).

(** [OutboxStore::claim_with_lease] *)
Definition claim_with_lease (id : Z) (owner : string) (now_ts lease_secs : Z) : tx Db bool :=
  let* d := tx_get in
  let previous_status := ob_status <$> List.find (has_id id) (state_outbox d) in
  let* n := update_where (λ r, has_id id r && claimable now_ts r)
    (λ r, with_lease (Some owner) (Some (i64_saturating_add now_ts (Z.max lease_secs 1)))
            (with_status "in_flight" r)) in
  (if n =? 1 then
     let* r := query_row (has_id id) in
     record_transition id
       (if bool_decide (previous_status = Some "in_flight") then "lease_reclaimed" else "send_requested")
       now_ts (ob_attempts r + 1) None None None
   else tx_ret ()) ;;*
  tx_ret (n =? 1).

(** [OutboxStore::claim] *)
Definition claim (now id : Z) : tx Db bool := claim_with_lease id "legacy-relay" now 120.

(** [OutboxStore::mark_delivered_with_receipt] *)
Definition mark_delivered_with_receipt (now id : Z) (receipt : option string) : tx Db () :=
  let* _ := update_where (has_id id)
    (λ r, with_lease None None (with_error None (with_status "delivered" r))) in
  let* r := query_row (has_id id) in
  record_transition id "delivered" now (ob_attempts r + 1) None receipt None.

(** [OutboxStore::mark_delivered] *)
Definition mark_delivered (now id : Z) : tx Db () := mark_delivered_with_receipt now id None.

(** [OutboxStore::mark_unknown] *)
Definition mark_unknown (now id : Z) (reason : string) : tx Db () :=
  let detail := bounded_reason reason in
  let p r := has_id id r && has_status "in_flight" r in
  let* r := query_row p in
  let attempt := ob_attempts r + 1 in
  let* _ := update_where p
    (λ r, with_lease None None (with_attempts attempt
            (with_error (Some detail) (with_status "unknown" r)))) in
  record_transition id "outcome_unknown" now attempt (Some detail) None None.

(** [OutboxStore::record_failure] *)
Definition record_failure (now id : Z) (error : string) (retry_budget_max backoff_secs : Z)
    : tx Db bool :=
  let* r := query_row (has_id id) in
  let new_attempts := i64_add (ob_attempts r) 1 in
  let retrying := as_u32 new_attempts <? retry_budget_max in
  let* _ :=
    (if negb retrying
     then update_where (has_id id)
       (λ r, with_lease None None (with_attempts new_attempts
               (with_error (Some error) (with_status "dead_letter" r))))
     else update_where (has_id id)
       (λ r, with_lease None None (with_next_attempt (Some (i64_add now backoff_secs))
               (with_attempts new_attempts (with_error (Some error) (with_status "pending" r)))))) in
  record_transition id (if retrying then "retry_scheduled" else "dead_letter") now new_attempts
    (Some error) None None ;;*
  tx_ret retrying.

(** ** Operator resolution *)

(** [OutboxStore::authorize_unknown_retry] *)
Definition authorize_unknown_retry (now id : Z) (actor reason : string) : tx Db () :=
  let* actor := tx_lift (validate_resolution_actor actor) in
  let detail := bounded_reason reason in
  tx_guard (negb (str_len detail =? 0))
    (Invariant "unknown outcome retry requires an operator reason") ;;*
  let p r := has_id id r && has_status "unknown" r in
  let* r := query_row p in
  let* _ := update_where p
    (λ r, with_next_attempt None (with_error (Some detail) (with_status "pending" r))) in
  record_transition id "retry_authorized" now (ob_attempts r) (Some detail) None (Some actor).

(** [OutboxStore::confirm_unknown_delivered] *)
Definition confirm_unknown_delivered (now id : Z) (actor receipt : string) : tx Db () :=
  let* actor := tx_lift (validate_resolution_actor actor) in
  let receipt := bounded_reason receipt in
  tx_guard (negb (str_len receipt =? 0))
    (Invariant "unknown outcome confirmation requires a receipt reference") ;;*
  let p r := has_id id r && has_status "unknown" r in
  let* r := query_row p in
  let* _ := update_where p (λ r, with_error None (with_status "delivered" r)) in
  record_transition id "operator_confirmed_delivered" now (ob_attempts r) (Some receipt)
    (Some receipt) (Some actor).

(** [OutboxStore::redrive_dead_letter] *)
Definition redrive_dead_letter (now id : Z) (actor reason : string) : tx Db () :=
  let* ar := tx_lift (validate_redrive_request actor reason) in
  let p r := has_id id r && has_status "dead_letter" r in
  let* r := query_row p in
  tx_guard (negb (str_len (trim (ob_idempotency_key r)) =? 0))
    (Invariant "dead-lettered effect has no stable idempotency identity") ;;*
  let* changed := update_where p
    (λ r, with_lease None None (with_next_attempt None (with_status "pending" r))) in
  tx_guard (changed =? 1) (Invariant "dead-letter status changed during redrive") ;;*
  record_transition id "operator_redrive" now (ob_attempts r) (Some ar.2) None (Some ar.1) ;;*
  append_redrive_event RedriveOutbox (pretty id) (ob_idempotency_key r) ar.1 ar.2 (ob_attempts r) now.

(** ** Reads *)

(** [OutboxStore::delivery_timeline]: rows are appended in id order. *)
Definition delivery_timeline (id : Z) (d : Db) : list DeliveryRow :=
  List.filter (λ e, de_outbox_id e =? id) (delivery_events d).

(** [OutboxStore::dead_letter_count] *)
Definition dead_letter_count (d : Db) : Z :=
  vec_len (List.filter (has_status "dead_letter") (state_outbox d)).

(** [limit.clamp(lo, hi)] *)
Definition clamp (lo hi n : Z) : Z := Z.max lo (Z.min hi n).

(** [OutboxStore::dead_letters] and [::unknown_effects]: the rows whose
    payload-free summary is returned. *)
Definition dead_letters (limit : Z) (d : Db) : list OutboxDbRow :=
  take (Z.to_nat (clamp 1 200 limit)) (List.filter (has_status "dead_letter") (state_outbox d)).
Definition unknown_effects (limit : Z) (d : Db) : list OutboxDbRow :=
  take (Z.to_nat (clamp 1 200 limit)) (List.filter (has_status "unknown") (state_outbox d)).
Definition unknown_effect (id : Z) (d : Db) : option OutboxDbRow :=
  List.find (λ r, has_id id r && has_status "unknown" r) (state_outbox d).

(** ** The table's invariant *)

Lemma status_parse_str s : status_parse (status_str s) = Some s.
Proof. by destruct s. Qed.

Record outbox_wf (d : Db) : Prop := {
  ow_ids : NoDup (map ob_id (state_outbox d));
  ow_bound : Forall (λ r, ob_id r ≤ outbox_last_id d) (state_outbox d);
  ow_keys : NoDup (map ob_idempotency_key (state_outbox d));
  ow_status : Forall (λ r, is_Some (status_parse (ob_status r))) (state_outbox d)
}.

(** The columns no operation changes: what the effect is and who caused it. *)
Definition same_effect (r r' : OutboxDbRow) : Prop :=
  ob_id r' = ob_id r ∧ ob_idempotency_key r' = ob_idempotency_key r ∧
  ob_conversation_id r' = ob_conversation_id r ∧ ob_effect_kind r' = ob_effect_kind r ∧
  ob_payload r' = ob_payload r ∧ ob_enqueued_seq r' = ob_enqueued_seq r ∧
  ob_ownership_scope_key r' = ob_ownership_scope_key r ∧
  ob_ownership_generation r' = ob_ownership_generation r.

#[global] Instance same_effect_preorder : PreOrder same_effect.
Proof. split; unfold same_effect; [intros r; tauto|]. intros r1 r2 r3. intuition congruence. Qed.

(** [evolves d d']: every effect of [d] is still there, unchanged in its
    identity, in place; effects are only added at the end; the delivery
    timeline only grows; and the invariant is kept. *)
Record evolves (d d' : Db) : Prop := {
  ev_rows : ∃ rows new, state_outbox d' = rows ++ new ∧ Forall2 same_effect (state_outbox d) rows;
  ev_timeline : ∃ new, delivery_events d' = delivery_events d ++ new;
  ev_wf : outbox_wf d → outbox_wf d'
}.

#[global] Instance evolves_preorder : PreOrder evolves.
Proof.
  split.
  - intros d. split; [|exists []; by rewrite app_nil_r|done].
    exists (state_outbox d), []. rewrite app_nil_r. split; [done|]. by apply Forall_Forall2_diag, Forall_true.
  - intros d1 d2 d3 [(r1 & n1 & H1 & F1) (t1 & T1) W1] [(r2 & n2 & H2 & F2) (t2 & T2) W2]. split.
    + rewrite H1 in F2. apply Forall2_app_inv_l in F2 as (r2a & r2b & Fa & Fb & ->).
      exists r2a, (r2b ++ n2). rewrite H2, (assoc_L (++)). split; [done|].
      by transitivity r1.
    + exists (t1 ++ t2). by rewrite T2, T1, (assoc_L (++)).
    + auto.
Qed.

(** A row update that keeps the identity and leaves a legal status. *)
Definition keeps_effect (f : OutboxDbRow → OutboxDbRow) : Prop :=
  ∀ r, same_effect r (f r) ∧ is_Some (status_parse (ob_status (f r))).

Lemma update_evolves p f d n d' :
  keeps_effect f → update_where p f d = Ok (n, d') → evolves d d'.
Proof.
  intros Hf [= <- <-]. set (g := λ r, if p r then f r else r).
  assert (∀ r, same_effect r (g r)) as Hg.
  { intros r. unfold g. destruct (p r); [apply Hf|reflexivity]. }
  split; cbn.
  - exists (map g (state_outbox d)), []. rewrite app_nil_r. split; [done|].
    induction (state_outbox d); cbn; constructor; auto.
  - exists []. by rewrite app_nil_r.
  - intros [H1 H2 H3 H4]. split; cbn.
    + rewrite map_map. erewrite map_ext; [exact H1|]. intros r. apply Hg.
    + apply List.Forall_map. eapply Forall_impl; [exact H2|]. intros r Hr. by rewrite (proj1 (Hg r)).
    + rewrite map_map. erewrite map_ext; [exact H3|]. intros r. apply Hg.
    + apply List.Forall_map. eapply Forall_impl; [exact H4|]. intros r Hr. unfold g.
      destruct (p r); [apply Hf|done].
Qed.

Lemma record_evolves id t at_ n a b c d d' :
  record_transition id t at_ n a b c d = Ok ((), d') → evolves d d'.
Proof.
  intros [= <-]. split; cbn; [|by eexists|by intros []].
  exists (state_outbox d), []. rewrite app_nil_r. split; [done|]. by apply Forall_Forall2_diag, Forall_true.
Qed.

Lemma insert_row_ok now row scope gen d id d' :
  insert_row now row scope gen d = Ok (id, d') →
  id = outbox_last_id d + 1 ∧
  Forall (λ r, ob_idempotency_key r ≠ or_idempotency_key row) (state_outbox d) ∧
  state_outbox d' = state_outbox d ++
    [mkOutboxDbRow id (or_idempotency_key row) (or_conversation_id row) (or_effect_kind row)
       (or_payload row) (status_str (or_status row)) (or_attempts row) (or_next_attempt_at row)
       (or_last_error row) (or_enqueued_seq row) None None scope gen] ∧
  outbox_last_id d' = id ∧
  delivery_events d' = delivery_events d ++ [mkDelivery id "enqueued" now (or_attempts row) None None None] ∧
  agent_ownership d' = agent_ownership d.
Proof.
  unfold insert_row. destruct (existsb _ _) eqn:He; [done|]. intros [= <- <-]. split_and!; try done.
  rewrite existsb_False in He. apply Forall_forall. intros r Hr. specialize (He r Hr). cbn in He.
  intros Heq. rewrite Heq, String.eqb_refl in He. done.
Qed.

Lemma insert_evolves now row scope gen d id d' :
  insert_row now row scope gen d = Ok (id, d') → evolves d d'.
Proof.
  intros (-> & Hkeys & Hrows & Hlast & Htl & _)%insert_row_ok. split.
  - rewrite Hrows. eexists _, _. split; [done|]. by apply Forall_Forall2_diag, Forall_true.
  - rewrite Htl. by eexists.
  - intros [H1 H2 H3 H4]. split; rewrite Hrows, ?Hlast, ?map_app; cbn.
    + apply NoDup_app. split_and!; [done| |apply NoDup_singleton].
      intros i (r & -> & Hr)%list_elem_of_fmap Hi%list_elem_of_singleton.
      rewrite Forall_forall in H2. specialize (H2 r Hr). cbn in H2. lia.
    + apply Forall_app_2; [|apply Forall_singleton; cbn; lia].
      eapply Forall_impl; [exact H2|]. cbn. lia.
    + apply NoDup_app. split_and!; [done| |apply NoDup_singleton].
      intros k (r & -> & Hr)%list_elem_of_fmap Hk%list_elem_of_singleton.
      rewrite Forall_forall in Hkeys. by apply (Hkeys r Hr).
    + apply Forall_app_2; [done|]. apply Forall_singleton. cbn. by rewrite status_parse_str.
Qed.

(** ** Every operation evolves the table *)

Lemma keeps_intro f :
  (∀ r, same_effect r (f r)) → (∀ r, is_Some (status_parse (ob_status (f r)))) → keeps_effect f.
Proof. intros H1 H2 r. by split. Qed.

Ltac keeps := apply keeps_intro; [intros r; unfold same_effect; cbn; tauto|intros r; cbn; by eexists].

Lemma query_row_ok p d r d' :
  query_row p d = Ok (r, d') → d' = d ∧ List.find p (state_outbox d) = Some r.
Proof. unfold query_row. destruct (List.find p _) as [x|]; [|done]. by intros [= -> ->]. Qed.

(** Split a successful operation into its steps and compose their effects. *)
Ltac evolve H :=
  tx_inv H;
  repeat match goal with
  | [ Hs : query_row _ _ = Ok _ |- _ ] => apply query_row_ok in Hs as [-> _]
  | [ Hs : tx_guard _ _ _ = Ok _ |- _ ] => apply tx_guard_ok in Hs as [_ ->]
  | [ Hs : tx_lift _ _ = Ok _ |- _ ] => apply tx_lift_ok in Hs as [_ ->]
  | [ Hs : update_where _ _ _ = Ok _ |- _ ] => apply update_evolves in Hs; [|by keeps]
  | [ Hs : record_transition _ _ _ _ _ _ _ _ = Ok (?u, _) |- _ ] => destruct u; apply record_evolves in Hs
  end.

Lemma claim_evolves id owner now secs d b d' :
  claim_with_lease id owner now secs d = Ok (b, d') → evolves d d'.
Proof.
  unfold claim_with_lease. rewrite tx_get_bind. intros Hc. tx_inv Hc.
  apply update_evolves in Hs; [|by keeps].
  destruct (a =? 1); [|unfold tx_ret in *; simplify_eq; done].
  evolve Hs0. by etransitivity.
Qed.

Lemma delivered_evolves now id receipt d d' :
  mark_delivered_with_receipt now id receipt d = Ok ((), d') → evolves d d'.
Proof. unfold mark_delivered_with_receipt. intros Hc. evolve Hc. by etransitivity. Qed.

Lemma unknown_evolves now id reason d d' : mark_unknown now id reason d = Ok ((), d') → evolves d d'.
Proof. unfold mark_unknown. intros Hc. evolve Hc. by etransitivity. Qed.

Lemma failure_evolves now id e budget backoff d b d' :
  record_failure now id e budget backoff d = Ok (b, d') → evolves d d'.
Proof.
  unfold record_failure. intros Hc. tx_inv Hc.
  apply query_row_ok in Hs as [-> _]. destruct a1; apply record_evolves in Hs1.
  etransitivity; [|exact Hs1]. destruct (negb _); apply update_evolves in Hs0; try done; by keeps.
Qed.

Lemma authorize_evolves now id actor reason d d' :
  authorize_unknown_retry now id actor reason d = Ok ((), d') → evolves d d'.
Proof. unfold authorize_unknown_retry. intros Hc. evolve Hc. by etransitivity. Qed.

Lemma confirm_evolves now id actor receipt d d' :
  confirm_unknown_delivered now id actor receipt d = Ok ((), d') → evolves d d'.
Proof. unfold confirm_unknown_delivered. intros Hc. evolve Hc. by etransitivity. Qed.

Lemma redrive_evolves now id actor reason d d' :
  redrive_dead_letter now id actor reason d = Ok ((), d') → evolves d d'.
Proof.
  unfold redrive_dead_letter. intros Hc. evolve Hc.
  etransitivity; [eassumption|]. etransitivity; [eassumption|].
  unfold append_redrive_event in Hc. tx_inv Hc. split; [|exists []; by rewrite app_nil_r|by intros []].
  eexists _, []. rewrite app_nil_r. split; [done|]. by apply Forall_Forall2_diag, Forall_true.
Qed.

Lemma enqueue_evolves now row owner d id b d' :
  enqueue_idempotent_guarded now row owner d = Ok ((id, b), d') → evolves d d'.
Proof.
  unfold enqueue_idempotent_guarded. rewrite tx_get_bind. intros Hc. tx_inv Hc.
  apply tx_guard_ok in Hs as [_ ->]. destruct (List.find _ _) as [r|].
  - destruct (_ && _); [|done]. destruct (_ || _); [done|]. unfold tx_ret in Hc. by simplify_eq.
  - tx_inv Hc. by apply insert_evolves in Hs.
Qed.

(** The operations of the store that change it. *)
Inductive outbox_op : Type :=
| OpEnqueue (now : Z) (row : OutboxRow)
| OpEnqueueIdempotent (now : Z) (row : OutboxRow)
| OpEnqueueForAgent (now : Z) (row : OutboxRow) (scope agent_id : string) (generation : Z)
| OpMarkStatus (id : Z) (status : OutboxStatus) (last_error : option string) (next : option Z)
| OpClaim (id : Z) (owner : string) (now lease_secs : Z)
| OpDelivered (now id : Z) (receipt : option string)
| OpUnknown (now id : Z) (reason : string)
| OpFailure (now id : Z) (error : string) (budget backoff_secs : Z)
| OpAuthorizeRetry (now id : Z) (actor reason : string)
| OpConfirmDelivered (now id : Z) (actor receipt : string)
| OpRedrive (now id : Z) (actor reason : string).

Definition discard {A} (m : tx Db A) : tx Db () := let* _ := m in tx_ret ().

Definition outbox_run (op : outbox_op) : tx Db () :=
  match op with
  | OpEnqueue now row => discard (enqueue now row)
  | OpEnqueueIdempotent now row => discard (enqueue_idempotent now row)
  | OpEnqueueForAgent now row s a g => discard (enqueue_idempotent_for_agent now row s a g)
  | OpMarkStatus id st e n => mark_status id st e n
  | OpClaim id o now l => discard (claim_with_lease id o now l)
  | OpDelivered now id r => mark_delivered_with_receipt now id r
  | OpUnknown now id r => mark_unknown now id r
  | OpFailure now id e b s => discard (record_failure now id e b s)
  | OpAuthorizeRetry now id a r => authorize_unknown_retry now id a r
  | OpConfirmDelivered now id a r => confirm_unknown_delivered now id a r
  | OpRedrive now id a r => redrive_dead_letter now id a r
  end.

Lemma outbox_run_evolves op d d' : outbox_run op d = Ok ((), d') → evolves d d'.
Proof.
  destruct op as [|now row|now row s a g| | | | | | | |]; cbn [outbox_run]; unfold discard.
  - intros Hc. tx_inv Hc. unfold enqueue in *. eauto using insert_evolves.
  - intros Hc. tx_inv Hc. destruct a. unfold enqueue_idempotent in *. eauto using enqueue_evolves.
  - intros Hc. tx_inv Hc. destruct a0. unfold enqueue_idempotent_for_agent in *. eauto using enqueue_evolves.
  - unfold mark_status. intros Hc. tx_inv Hc. apply update_evolves in Hs; [done|].
    apply keeps_intro; [intros r; unfold same_effect; cbn; tauto|].
    intros r. cbn. rewrite status_parse_str. by eexists.
  - intros Hc. tx_inv Hc. eauto using claim_evolves.
  - apply delivered_evolves.
  - apply unknown_evolves.
  - intros Hc. tx_inv Hc. eauto using failure_evolves.
  - apply authorize_evolves.
  - apply confirm_evolves.
  - apply redrive_evolves.
Qed.

(** Run a list of operations, each in its own transaction. *)
Definition outbox_runs (ops : list outbox_op) (d : Db) : Db :=
  foldl (λ d op, (transaction (outbox_run op) d).2) d ops.

(** the outbox table under any sequence of its operations, failing ones
    included: row ids and idempotency keys stay unique, statuses stay legal,
    no effect is ever lost or changed in its identity (key, conversation,
    kind, payload, sequence number, ownership), and the delivery timeline is
    append-only. *)
Theorem outbox_evolves ops d :
  outbox_wf d →
  outbox_wf (outbox_runs ops d) ∧
  (∃ rows new, state_outbox (outbox_runs ops d) = rows ++ new ∧
               Forall2 same_effect (state_outbox d) rows) ∧
  (∃ new, delivery_events (outbox_runs ops d) = delivery_events d ++ new).
Proof.
  intros Hwf. enough (evolves d (outbox_runs ops d)) as [H1 H2 H3] by auto. clear Hwf.
  revert d. induction ops as [|op ops IH]; intros d; cbn; [reflexivity|].
  etransitivity; [|apply IH]. unfold transaction.
  destruct (outbox_run op d) as [[[] d1]|e] eqn:Hr; cbn; [|reflexivity].
  by eapply outbox_run_evolves.
Qed.

(** ** Looking rows up *)

Lemma find_unique id l r :
  NoDup (map ob_id l) → r ∈ l → ob_id r = id → List.find (has_id id) l = Some r.
Proof.
  induction l as [|x l IH]; cbn; [set_solver|]. intros [Hx Hnd]%NoDup_cons Hr Hid.
  apply elem_of_cons in Hr as [->|Hr]; unfold has_id at 1.
  - by rewrite (proj2 (Z.eqb_eq _ _)).
  - destruct (Z.eqb_spec (ob_id x) id); [|by apply IH]. exfalso. apply Hx.
    apply list_elem_of_fmap. exists r. split; [congruence|done].
Qed.

Lemma find_has_id id l r : List.find (has_id id) l = Some r → r ∈ l ∧ ob_id r = id.
Proof.
  intros Hf. apply find_some in Hf as [Hin Hid]. split; [by apply list_elem_of_In|].
  by apply Z.eqb_eq in Hid.
Qed.

(** With unique ids, at most one row satisfies a condition on one id. *)
Lemma filter_id_unique id q l :
  NoDup (map ob_id l) →
  List.filter (λ r, has_id id r && q r) l =
    match List.find (has_id id) l with
    | Some r => if q r then [r] else []
    | None => []
    end.
Proof.
  induction l as [|x l IH]; cbn; [done|]. intros [Hx Hnd]%NoDup_cons.
  change (has_id id x) with (ob_id x =? id).
  destruct (Z.eqb_spec (ob_id x) id) as [Hid|Hne]; cbn.
  - assert (List.filter (λ r, has_id id r && q r) l = []) as Hnil.
    { rewrite IH by done. destruct (List.find (has_id id) l) as [r|] eqn:Hf; [|done].
      exfalso. apply find_has_id in Hf as [Hr Hid']. apply Hx. apply list_elem_of_fmap.
      exists r. split; [congruence|done]. }
    rewrite Hnil. by destruct (q x).
  - by apply IH.
Qed.

(** The row of an id. *)
Definition row_of (id : Z) (d : Db) : option OutboxDbRow := List.find (has_id id) (state_outbox d).

Lemma row_of_update p f d n d' id :
  update_where p f d = Ok (n, d') → (∀ r, ob_id (f r) = ob_id r) →
  row_of id d' = (λ r, if p r then f r else r) <$> row_of id d.
Proof.
  intros [= <- <-] Hf. unfold row_of. cbn. induction (state_outbox d) as [|x l IH]; cbn; [done|].
  assert (has_id id (if p x then f x else x) = has_id id x) as -> by
    (unfold has_id; destruct (p x); by rewrite ?Hf).
  by destruct (has_id id x).
Qed.

Lemma row_of_record id t at_ n a b c d d' i :
  record_transition id t at_ n a b c d = Ok ((), d') → row_of i d' = row_of i d.
Proof. by intros [= <-]. Qed.

(** ** Claims *)

Definition leased (owner : string) (expires : Z) (r : OutboxDbRow) : OutboxDbRow :=
  with_lease (Some owner) (Some expires) (with_status "in_flight" r).

Definition lease_end (now secs : Z) : Z := i64_saturating_add now (Z.max secs 1).

(** A claim succeeds exactly on a claimable row, and leases only that row. *)
Lemma claim_spec id owner now secs d :
  outbox_wf d →
  let won := match row_of id d with Some r => claimable now r | None => false end in
  ∃ d', claim_with_lease id owner now secs d = Ok (won, d') ∧
    (∀ i, row_of i d' =
       if won && (i =? id) then leased owner (lease_end now secs) <$> row_of i d else row_of i d).
Proof.
  intros Hwf won. unfold claim_with_lease. rewrite tx_get_bind. unfold tx_bind at 1.
  set (p := λ r, has_id id r && claimable now r).
  set (f := λ r, with_lease (Some owner) (Some (i64_saturating_add now (Z.max secs 1))) _).
  destruct (update_where p f d) as [[n d1]|] eqn:Hu; [|done].
  assert (n = if won then 1 else 0) as ->.
  { injection Hu as <- _. unfold p, vec_len. rewrite (filter_id_unique id (claimable now)) by apply Hwf.
    fold (row_of id d). unfold won. destruct (row_of id d) as [r|]; [|done]. by destruct (claimable now r). }
  pose proof (row_of_update _ _ _ _ _ id Hu ltac:(done)) as Hid.
  assert (∀ i, row_of i d1 = if won && (i =? id) then leased owner (lease_end now secs) <$> row_of i d
                             else row_of i d) as Hrows.
  { intros i. rewrite (row_of_update _ _ _ _ _ i Hu) by done. unfold p.
    destruct (row_of i d) as [r|] eqn:Hr; [|by destruct (_ && _)]. cbn.
    pose proof (find_has_id _ _ _ Hr) as [_ <-]. unfold has_id at 1.
    destruct (Z.eqb_spec (ob_id r) id) as [<-|]; [|by rewrite andb_false_r].
    unfold won. rewrite Hr, andb_true_r. cbn [andb]. by destruct (claimable now r). }
  destruct won eqn:Hwon; [change (1 =? 1) with true|change (0 =? 1) with false]; cbv iota.
  - unfold won in Hwon. destruct (row_of id d) as [r|] eqn:Hr; [|done].
    assert (query_row (has_id id) d1 = Ok (leased owner (lease_end now secs) r, d1)) as Hq.
    { unfold query_row. fold (row_of id d1). by rewrite Hrows, Hr, Z.eqb_refl. }
    unfold tx_bind. rewrite Hq. eexists. split; [reflexivity|]. intros i. by rewrite <-Hrows.
  - exists d1. split; [done|]. intros i. by rewrite Hrows.
Qed.

(** The claims of several relays, in the order the database serializes them. *)
Record claim_request : Type := mkClaim {
  cq_id : Z;
  cq_owner : string;
  cq_now : Z;
  cq_secs : Z
}.

Definition claim_step (d : Db) (q : claim_request) : result DbError bool * Db :=
  transaction (claim_with_lease (cq_id q) (cq_owner q) (cq_now q) (cq_secs q)) d.

Fixpoint claim_all (qs : list claim_request) (d : Db) : list (result DbError bool) * Db :=
  match qs with
  | [] => ([], d)
  | q :: qs =>
      let '(b, d) := claim_step d q in
      let '(bs, d) := claim_all qs d in (b :: bs, d)
  end.

(** Row [id] is leased until [t]. *)
Definition leased_until (id t : Z) (d : Db) : Prop :=
  ∃ r, row_of id d = Some r ∧ ob_status r = "in_flight" ∧ ob_lease_expires_at r = Some t.

Lemma leased_claim id t d q :
  outbox_wf d → leased_until id t d → cq_now q < t →
  ∃ b d', claim_step d q = (Ok b, d') ∧ (cq_id q = id → b = false) ∧
          outbox_wf d' ∧ leased_until id t d' ∧ row_of id d' = row_of id d.
Proof.
  intros Hwf (r & Hr & Hs & Hl) Hnow. unfold claim_step.
  destruct (claim_spec (cq_id q) (cq_owner q) (cq_now q) (cq_secs q) d Hwf) as (d' & Hc & Hrows).
  set (won := match row_of (cq_id q) d with Some _ => _ | None => false end) in *.
  assert (cq_id q = id → won = false) as Hwon.
  { intros Hid. unfold won. rewrite Hid, Hr. unfold claimable, has_status, expired. rewrite Hs, Hl.
    cbn. by apply Z.leb_gt. }
  assert (row_of id d' = row_of id d) as Hsame.
  { rewrite Hrows. destruct (Z.eqb_spec id (cq_id q)) as [He|]; [|by rewrite andb_false_r].
    by rewrite Hwon. }
  exists won, d'. split_and!; [by apply transaction_ok|done| | |done].
  - by eapply ev_wf; [eapply claim_evolves|].
  - exists r. by rewrite Hsame.
Qed.

(** C30: a claim is exclusive until its lease ends.  After a successful claim of
    a row, whatever claims of this or other rows follow, by any owners and in
    any order, every claim of the row made before the lease's end fails, the
    row stays leased to the first owner, and no claim errors. *)
Theorem claim_exclusive id owner now secs d d1 qs :
  outbox_wf d → claim_with_lease id owner now secs d = Ok (true, d1) →
  Forall (λ q, cq_now q < lease_end now secs) qs →
  let '(bs, d2) := claim_all qs d1 in
  Forall2 (λ q b, is_ok b = true ∧ (cq_id q = id → b = Ok false)) qs bs ∧
  ∃ r, row_of id d2 = Some r ∧ ob_status r = "in_flight" ∧ ob_lease_owner r = Some owner ∧
       ob_lease_expires_at r = Some (lease_end now secs).
Proof.
  intros Hwf Hc Hqs.
  destruct (claim_spec id owner now secs d Hwf) as (d' & Hc' & Hrows).
  rewrite Hc' in Hc. apply Ok_inj in Hc. injection Hc as Hwon ->.
  assert (Hrow : ∃ r, row_of id d1 = Some r ∧ ob_status r = "in_flight" ∧ ob_lease_owner r = Some owner ∧
                   ob_lease_expires_at r = Some (lease_end now secs)).
  { destruct (row_of id d) as [r|] eqn:Hr; [|done]. exists (leased owner (lease_end now secs) r).
    rewrite Hrows, Hr, Hwon, Z.eqb_refl. done. }
  assert (outbox_wf d1) as Hwf1 by (eapply ev_wf; [by eapply claim_evolves|done]).
  assert (leased_until id (lease_end now secs) d1) as Hl by (destruct Hrow as (r & ? & ? & ? & ?); by exists r).
  clear Hc' Hrows Hwon. revert d1 Hwf1 Hl Hrow. induction Hqs as [|q qs Hq _ IH]; intros d1 Hwf1 Hl Hrow;
    cbn [claim_all]; [by split|].
  destruct (leased_claim id _ d1 q Hwf1 Hl Hq) as (b & d2 & Hs & Hb & Hwf2 & Hl2 & Hsame).
  rewrite Hs. rewrite <-Hsame in Hrow. specialize (IH d2 Hwf2 Hl2 Hrow).
  destruct (claim_all qs d2) as [bs d3]. destruct IH as [IH1 IH2]. split; [|done].
  constructor; [|done]. split; [done|]. intros Hid. by rewrite Hb.
Qed.

(** ** Idempotent enqueue *)

Definition find_key (k : string) (d : Db) : option OutboxDbRow :=
  List.find (λ r, String.eqb (ob_idempotency_key r) k) (state_outbox d).

Definition same_request (r : OutboxDbRow) (row : OutboxRow) : bool :=
  String.eqb (ob_conversation_id r) (or_conversation_id row)
  && String.eqb (ob_effect_kind r) (or_effect_kind row)
  && bool_decide (ob_payload r = or_payload row).

Definition needs_resolution (r : OutboxDbRow) : bool :=
  has_status "unknown" r || has_status "dead_letter" r || has_status "failed" r.

Lemma find_key_none k d :
  find_key k d = None → existsb (λ r, String.eqb (ob_idempotency_key r) k) (state_outbox d) = false.
Proof.
  intros Hf. apply existsb_False. intros r Hr. unfold find_key in Hf.
  apply (find_none _ _ Hf). by apply list_elem_of_In.
Qed.

Lemma find_app_none {A} p (l : list A) x : List.find p l = None → p x = true → List.find p (l ++ [x]) = Some x.
Proof.
  induction l as [|y l IH]; cbn; [by intros _ ->|]. destruct (p y); [done|]. apply IH.
Qed.

(** enqueueing is idempotent in the framework key.  A first enqueue
    appends one row and its [enqueued] transition; enqueueing the same
    request again, at any time, returns the first row's id and changes
    nothing; a request that reuses the key for a different conversation,
    effect or payload is refused and changes nothing. *)
Theorem enqueue_idempotent_spec now row d :
  find_key (or_idempotency_key row) d = None →
  ∃ id d', enqueue_idempotent now row d = Ok ((id, true), d') ∧
    (∃ r, state_outbox d' = state_outbox d ++ [r] ∧ ob_id r = id ∧ same_request r row = true ∧
          ob_status r = status_str (or_status row)) ∧
    (or_status row ∈ [Pending; InFlight; Delivered] →
       ∀ now' row', or_idempotency_key row' = or_idempotency_key row →
         enqueue_idempotent now' row' d' =
           if String.eqb (or_conversation_id row) (or_conversation_id row')
              && String.eqb (or_effect_kind row) (or_effect_kind row')
              && bool_decide (or_payload row = or_payload row')
           then Ok ((id, false), d')
           else Err (Invariant ("outbox idempotency key '" +:+ or_idempotency_key row' +:+
                       "' was reused for a different effect"))).
Proof.
  intros Hnone. set (id := outbox_last_id d + 1).
  set (r := mkOutboxDbRow id (or_idempotency_key row) (or_conversation_id row) (or_effect_kind row)
       (or_payload row) (status_str (or_status row)) (or_attempts row) (or_next_attempt_at row)
       (or_last_error row) (or_enqueued_seq row) None None None None).
  set (d' := add_delivery (mkDelivery id "enqueued" now (or_attempts row) None None None)
       (set_outbox_last_id id (set_outbox (λ rows, rows ++ [r]) d))).
  exists id, d'. split_and!.
  - unfold enqueue_idempotent, enqueue_idempotent_guarded. rewrite tx_get_bind.
    unfold tx_bind at 1. cbn [tx_guard tx_ret]. fold (find_key (or_idempotency_key row) d). rewrite Hnone.
    unfold tx_bind at 1, insert_row. by rewrite (find_key_none _ _ Hnone).
  - exists r. split_and!; try done. unfold same_request. cbn. by rewrite !String.eqb_refl, bool_decide_true.
  - intros Hst now' row' Hk. unfold enqueue_idempotent, enqueue_idempotent_guarded. rewrite tx_get_bind.
    unfold tx_bind at 1. cbn [tx_guard tx_ret]. rewrite Hk.
    assert (List.find (λ r, String.eqb (ob_idempotency_key r) (or_idempotency_key row)) (state_outbox d')
            = Some r) as ->.
    { apply find_app_none; [done|]. apply String.eqb_refl. }
    cbn [r ob_conversation_id ob_effect_kind ob_payload ob_id].
    destruct (_ && _ && _); [|done].
    assert (has_status "unknown" r || has_status "dead_letter" r || has_status "failed" r = false) as ->;
      [|done].
    unfold has_status. cbn [r ob_status]. set_unfold in Hst.
    by destruct Hst as [->|[->|[->|[]]]].
Qed.

(** ** Unknown outcomes *)

Lemma find_id_and id q l r :
  List.find (has_id id) l = Some r → q r = true → List.find (λ r, has_id id r && q r) l = Some r.
Proof.
  induction l as [|x l IH]; cbn; [done|]. destruct (has_id id x); cbn; [|apply IH].
  intros [= ->] ->. done.
Qed.

Lemma query_row_id id q d r :
  row_of id d = Some r → q r = true → query_row (λ r, has_id id r && q r) d = Ok (r, d).
Proof. intros Hr Hq. unfold query_row. by rewrite (find_id_and id q _ r). Qed.

Lemma has_id_of id d r : row_of id d = Some r → has_id id r = true.
Proof. intros [_ <-]%find_has_id. apply Z.eqb_refl. Qed.

(** an uncertain effect is resent only when an operator says so.  For a row
    whose outcome is unknown: it is never offered to a relay; it cannot be
    claimed; re-enqueueing its key fails; and the operator's two resolutions,
    and only with a bounded actor and a non-blank reason or receipt, move it
    to [pending] or [delivered], recording who did so. *)
Theorem unknown_needs_operator d id r actor reason now :
  outbox_wf d → row_of id d = Some r → ob_status r = "unknown" →
  (∀ t limit q, q ∈ ready_pending t limit d → or_id q ≠ Some id) ∧
  (∀ o t secs, ∃ d', claim_with_lease id o t secs d = Ok (false, d') ∧ row_of id d' = Some r) ∧
  match validate_resolution_actor actor with
  | Err e => authorize_unknown_retry now id actor reason d = Err e ∧
             confirm_unknown_delivered now id actor reason d = Err e
  | Ok who =>
      if str_len (bounded_reason reason) =? 0
      then ∃ e1 e2, authorize_unknown_retry now id actor reason d = Err e1 ∧
                    confirm_unknown_delivered now id actor reason d = Err e2
      else
        let why := bounded_reason reason in
        (∃ d', authorize_unknown_retry now id actor reason d = Ok ((), d') ∧
           row_of id d' = Some (with_next_attempt None (with_error (Some why) (with_status "pending" r))) ∧
           delivery_events d' = delivery_events d ++
             [mkDelivery id "retry_authorized" now (ob_attempts r) (Some why) None (Some who)]) ∧
        (∃ d', confirm_unknown_delivered now id actor reason d = Ok ((), d') ∧
           row_of id d' = Some (with_error None (with_status "delivered" r)) ∧
           delivery_events d' = delivery_events d ++
             [mkDelivery id "operator_confirmed_delivered" now (ob_attempts r) (Some why) (Some why) (Some who)])
  end.
Proof.
  intros Hwf Hr Hst. split; [|split].
  - intros t limit q Hq Hid. unfold ready_pending in Hq.
    apply list_elem_of_fmap in Hq as (x & -> & Hx). cbn in Hid.
    assert (x ∈ List.filter (is_ready t) (state_outbox d)) as Hx'.
    { revert Hx. unfold sql_limit. destruct (limit <? 0); [done|].
      intros Hx. rewrite <-(take_drop (Z.to_nat limit)). apply elem_of_app. by left. }
    apply list_elem_of_In, filter_In in Hx' as [Hx' Hready]. apply list_elem_of_In in Hx'.
    injection Hid as Hid. unfold row_of in Hr. rewrite (find_unique id _ x) in Hr by (done || apply Hwf).
    simplify_eq. unfold is_ready, has_status in Hready. by rewrite Hst in Hready.
  - intros o t secs. destruct (claim_spec id o t secs d Hwf) as (d' & Hc & Hrows).
    rewrite Hr in Hc, Hrows. unfold claimable, has_status in Hc, Hrows. rewrite Hst in Hc, Hrows.
    exists d'. split; [done|]. by rewrite Hrows.
  - destruct (validate_resolution_actor actor) as [who|e] eqn:Ha.
    2: { unfold authorize_unknown_retry, confirm_unknown_delivered, tx_bind, tx_lift. by rewrite Ha. }
    unfold authorize_unknown_retry, confirm_unknown_delivered. rewrite Ha, !tx_lift_bind.
    destruct (str_len (bounded_reason reason) =? 0); cbn [negb tx_guard]; [by eexists _, _|].
    assert (has_status "unknown" r = true) as Hq by (unfold has_status; by rewrite Hst).
    split; (eexists; split; [unfold tx_ret, tx_bind at 1; unfold tx_bind at 1;
      rewrite (query_row_id id _ d r Hr Hq); unfold tx_bind; reflexivity|]; split; [|done]).
    + erewrite row_of_record by reflexivity. erewrite row_of_update by done.
      rewrite Hr. cbn. by rewrite (has_id_of _ _ _ Hr), Hq.
    + erewrite row_of_record by reflexivity. erewrite row_of_update by done.
      rewrite Hr. cbn. by rewrite (has_id_of _ _ _ Hr), Hq.
Qed.

(** ** Closed examples *)

Lemma outbox_wf_empty : outbox_wf empty_db.
Proof. split; constructor. Qed.

Definition toy_send : OutboxRow :=
  mkOutboxRow None "c:1:0" "c" "transport.send" [] Pending 0 None None 1.
Definition toy_queue : Db := outbox_runs [OpEnqueue 100 toy_send] empty_db.
Definition toy_unknown : Db :=
  outbox_runs [OpClaim 1 "relay" 100 30; OpUnknown 101 1 "timeout"] toy_queue.

Lemma toy_queue_wf : outbox_wf toy_queue.
Proof.
  apply (ev_wf empty_db); [|apply outbox_wf_empty].
  apply (outbox_run_evolves (OpEnqueue 100 toy_send)). reflexivity.
Qed.

Definition toy_unknown_row : OutboxDbRow :=
  default (mkOutboxDbRow 0 "" "" "" [] "" 0 None None 0 None None None None) (row_of 1 toy_unknown).

Lemma outbox_evolves_witness : length (state_outbox toy_unknown) = 1%nat ∧ outbox_wf toy_unknown.
Proof.
  split; [vm_compute; reflexivity|].
  apply (outbox_evolves [OpEnqueue 100 toy_send; OpClaim 1 "relay" 100 30; OpUnknown 101 1 "timeout"]
           empty_db outbox_wf_empty).
Defined.

Lemma claim_exclusive_witness :
  let d1 := (transaction (claim_with_lease 1 "a" 100 30) toy_queue).2 in
  let '(bs, d2) := claim_all [mkClaim 1 "b" 120 30; mkClaim 2 "b" 121 30; mkClaim 1 "c" 129 30] d1 in
  Forall2 (λ q b, is_ok b = true ∧ (cq_id q = 1 → b = Ok false))
    [mkClaim 1 "b" 120 30; mkClaim 2 "b" 121 30; mkClaim 1 "c" 129 30] bs ∧
  ∃ r, row_of 1 d2 = Some r ∧ ob_status r = "in_flight" ∧ ob_lease_owner r = Some "a" ∧
       ob_lease_expires_at r = Some (lease_end 100 30).
Proof.
  apply (claim_exclusive 1 "a" 100 30 toy_queue).
  - apply toy_queue_wf.
  - vm_compute. reflexivity.
  - repeat constructor.
Defined.

Lemma enqueue_idempotent_spec_witness :
  ∃ id d', enqueue_idempotent 100 toy_send empty_db = Ok ((id, true), d') ∧
    ∃ r, state_outbox d' = [] ++ [r] ∧ ob_id r = id.
Proof.
  destruct (enqueue_idempotent_spec 100 toy_send empty_db) as (id & d' & He & (r & Hr & Hid & _) & _).
  - reflexivity.
  - exists id, d'. split; [exact He|]. exists r. split; [exact Hr|exact Hid].
Defined.

Lemma unknown_needs_operator_witness :
  ∃ r, row_of 1 toy_unknown = Some r ∧
    ∀ o t secs, ∃ d', claim_with_lease 1 o t secs toy_unknown = Ok (false, d') ∧ row_of 1 d' = Some r.
Proof.
  exists toy_unknown_row. split; [vm_compute; reflexivity|].
  destruct (unknown_needs_operator toy_unknown 1 toy_unknown_row "op" "checked" 200) as (_ & Hclaim & _);
    [| | |exact Hclaim].
  - apply (ev_wf toy_queue); [|apply toy_queue_wf].
    apply (transitivity (y := (transaction (outbox_run (OpClaim 1 "relay" 100 30)) toy_queue).2)).
    + apply (outbox_run_evolves (OpClaim 1 "relay" 100 30)). vm_compute. reflexivity.
    + apply (outbox_run_evolves (OpUnknown 101 1 "timeout")). vm_compute. reflexivity.
  - vm_compute. reflexivity.
  - reflexivity.
Defined.
