(* ===== verification/Ownership.v ===== *)
(** * Transport ownership

    [crates/core/src/agent_ownership.rs]: which agent or controller may send
    on a conversation's channel to a recipient, and how a controller's
    takeover fences the sends an agent already queued. *)

From stdpp Require Import sorting.
From S2P Require Import Prelude Wire Text Schema Outbox.

Section Ownership.
(** SHA-256 in lower-case hexadecimal (the [sha2] and [hex] crates). *)
Context (sha256_hex : bytes → string).

Record AgentOwnership : Type := mkAgentOwnership {
  ao_conversation_id : string;
  ao_owner_kind : string;
  ao_agent_id : option string;
  ao_previous_agent_id : option string;
  ao_generation : Z;
  ao_updated_at : Z
}.

Definition unit_separator : string := String (Ascii.ascii_of_nat 31) EmptyString.

(** [scope_key] *)
Definition scope_message (conversation_id channel recipient : string) : string :=
  conversation_id +:+ unit_separator +:+ channel +:+ unit_separator +:+ recipient.
Definition scope_key (conversation_id channel recipient : string) : string :=
  sha256_hex (as_bytes (scope_message conversation_id channel recipient)).

Definition to_ownership (r : OwnershipRow) : AgentOwnership :=
  mkAgentOwnership (ow_conversation_id r) (ow_owner_kind r) (ow_agent_id r)
    (ow_previous_agent_id r) (ow_generation r) (ow_updated_at r).

(** [AgentOwnershipStore::get] *)
Definition get (conversation_id channel recipient : string) (d : Db) : option AgentOwnership :=
  to_ownership <$> agent_ownership d !! scope_key conversation_id channel recipient.

(** [AgentOwnershipStore::assign_agent]: an insert that does nothing on
    conflict, then a read. *)
Definition assign_agent (conversation_id channel recipient agent_id : string) (now : Z) (d : Db)
    : result DbError AgentOwnership * Db :=
  let key := scope_key conversation_id channel recipient in
  let d :=
    match agent_ownership d !! key with
    | Some _ => d
    | None => set_ownership <[key := mkOwnership conversation_id "agent" (Some agent_id) None 1 now]> d
    end in
  (ok_or (Invariant "owner disappeared") (get conversation_id channel recipient d), d).

(** [INSERT INTO state_agent_handoff_events], append-only with a primary key. *)
Definition handoff_exists (h : HandoffRow) (d : Db) : bool :=
  existsb (λ x, String.eqb (ho_scope_key x) (ho_scope_key h) && (ho_generation x =? ho_generation h)
                && String.eqb (ho_event_id x) (ho_event_id h)) (handoff_events d).
Definition insert_handoff (h : HandoffRow) : tx Db () := λ d,
  if handoff_exists h d then Err constraint_failed
  else Ok ((), set_handoffs (λ l, l ++ [h]) d).

(** The effects a takeover fences: queued under an earlier generation of the
    scope and not yet finished. *)
Definition fenced (key : string) (generation : Z) (r : OutboxDbRow) : bool :=
  match ob_ownership_scope_key r, ob_ownership_generation r with
  | Some k, Some g => String.eqb k key && (g <? generation)
  | _, _ => false
  end && (has_status "pending" r || has_status "in_flight" r).

(** The loop over the fenced effects. *)
Fixpoint fence_rows (now : Z) (rows : list OutboxDbRow) : tx Db () :=
  match rows with
  | [] => tx_ret ()
  | r :: rows =>
      let '(next_status, transition) :=
        if has_status "pending" r then ("failed", "cancelled_by_takeover")
        else ("unknown", "takeover_outcome_unknown") in
      let* _ := update_where (has_id (ob_id r))
        (λ x, with_lease None None
                (with_error (Some "operator takeover requires delivery reconciliation")
                   (with_status next_status x))) in
      record_transition (ob_id r) transition now (ob_attempts r)
        (Some "ownership_generation_changed") None None ;;*
      fence_rows now rows
  end.

(** The upsert of a takeover. *)
Definition taken_over (conversation_id : string) (generation now : Z) (o : option OwnershipRow) : OwnershipRow :=
  match o with
  | None => mkOwnership conversation_id "controller" None None generation now
  | Some r =>
      mkOwnership (ow_conversation_id r) "controller" None
        (match ow_agent_id r with Some a => Some a | None => ow_previous_agent_id r end)
        generation now
  end.

Definition next_generation (key : string) (d : Db) : Z :=
  match agent_ownership d !! key with Some r => ow_generation r + 1 | None => 1 end.

Definition takeover_tx (conversation_id channel recipient : string) (now : Z) : tx Db () :=
  let key := scope_key conversation_id channel recipient in
  let* d := tx_get in
  let generation := next_generation key d in
  tx_modify (set_ownership
    <[key := taken_over conversation_id generation now (agent_ownership d !! key)]>) ;;*
  insert_handoff (mkHandoff key generation "takeover" ("takeover:" +:+ pretty generation) None "{}" now) ;;*
  let* d := tx_get in
  fence_rows now (List.filter (fenced key generation) (state_outbox d)).

(** [AgentOwnershipStore::takeover] *)
Definition takeover (conversation_id channel recipient : string) (now : Z) (d : Db)
    : result DbError AgentOwnership * Db :=
  match transaction (takeover_tx conversation_id channel recipient now) d with
  | (Err e, d) => (Err e, d)
  | (Ok _, d) => (ok_or (Invariant "takeover disappeared") (get conversation_id channel recipient d), d)
  end.


(** ** Fencing *)

Definition fence_as (r x : OutboxDbRow) : OutboxDbRow :=
  with_lease None None
    (with_error (Some "operator takeover requires delivery reconciliation")
       (with_status (if has_status "pending" r then "failed" else "unknown") x)).

Lemma fence_rows_ok now rows d :
  NoDup (map ob_id rows) →
  ∃ d', fence_rows now rows d = Ok ((), d') ∧ evolves d d' ∧
    agent_ownership d' = agent_ownership d ∧ handoff_events d' = handoff_events d ∧
    ∀ id, row_of id d' = match List.find (has_id id) rows with
                         | Some r => fence_as r <$> row_of id d
                         | None => row_of id d
                         end.
Proof.
  revert d. induction rows as [|r rows IH]; intros d; cbn [map fence_rows].
  { intros _. exists d. by split_and!. }
  intros [Hr Hnd]%NoDup_cons. specialize (IH).
  set (status := if has_status "pending" r then "failed" else "unknown").
  set (transition := if has_status "pending" r then "cancelled_by_takeover" else "takeover_outcome_unknown").
  assert (∃ d1, (let* _ := update_where (has_id (ob_id r)) (fence_as r) in
                 record_transition (ob_id r) transition now (ob_attempts r)
                   (Some "ownership_generation_changed") None None) d = Ok ((), d1) ∧ evolves d d1 ∧
            agent_ownership d1 = agent_ownership d ∧ handoff_events d1 = handoff_events d ∧
            ∀ id, row_of id d1 = (λ x, if has_id (ob_id r) x then fence_as r x else x) <$> row_of id d)
    as (d1 & Hstep & Hev & Ho & Hh & Hrows).
  { unfold tx_bind. destruct (update_where _ _ d) as [[n du]|] eqn:Hu; [|done].
    eexists. split; [reflexivity|]. split_and!.
    - transitivity du.
      + eapply update_evolves; [|exact Hu]. apply keeps_intro; [intros x; unfold same_effect; cbn; tauto|].
        intros x. cbn. destruct (has_status "pending" r); by eexists.
      + by eapply record_evolves.
    - injection Hu as _ <-. done.
    - injection Hu as _ <-. done.
    - intros id. erewrite row_of_record by reflexivity. by eapply row_of_update. }
  destruct (IH d1 Hnd) as (d' & Hrest & Hev' & Ho' & Hh' & Hrows').
  exists d'. split_and!.
  - unfold tx_bind, update_where, record_transition, tx_modify, fence_as, status, transition in *.
    injection Hstep as <-. by destruct (has_status "pending" r).
  - by transitivity d1.
  - by rewrite Ho'.
  - by rewrite Hh'.
  - intros id. rewrite Hrows', Hrows. cbn [List.find].
    assert (has_id id r = (ob_id r =? id)) as -> by done.
    destruct (Z.eqb_spec (ob_id r) id) as [He|Hne].
    + assert (List.find (has_id id) rows = None) as ->.
      { destruct (List.find (has_id id) rows) as [x|] eqn:Hf; [|done]. exfalso.
        apply find_has_id in Hf as [Hx Hid]. apply Hr. apply list_elem_of_fmap.
        exists x. split; [congruence|done]. }
      destruct (row_of id d) as [x|] eqn:Hx; cbn; [|done]. f_equal.
      rewrite <-He in Hx. by rewrite (has_id_of _ _ _ Hx).
    + assert ((λ x, if has_id (ob_id r) x then fence_as r x else x) <$> row_of id d = row_of id d) as ->.
      { destruct (row_of id d) as [x|] eqn:Hx; cbn; [|done]. f_equal.
        apply find_has_id in Hx as [_ Hid]. unfold has_id. by rewrite (proj2 (Z.eqb_neq _ _)) by congruence. }
      done.
Qed.
Lemma find_filter_id id q l r :
  NoDup (map ob_id l) → List.find (has_id id) l = Some r →
  List.find (has_id id) (List.filter q l) = if q r then Some r else None.
Proof.
  intros Hnd Hf. pose proof (find_has_id _ _ _ Hf) as [Hr Hid].
  destruct (List.find (has_id id) (List.filter q l)) as [x|] eqn:Hx.
  - apply find_has_id in Hx as [Hx Hidx]. apply list_elem_of_In, filter_In in Hx as [Hx Hq].
    apply list_elem_of_In in Hx. rewrite (find_unique id l x) in Hf by done. simplify_eq. by rewrite Hq.
  - destruct (q r) eqn:Hq; [|done]. exfalso.
    assert (In r (List.filter q l)) as Hin by (apply filter_In; split; [by apply list_elem_of_In|done]).
    pose proof (find_none _ _ Hx r Hin) as Hn. unfold has_id in Hn. by rewrite Hid, Z.eqb_refl in Hn.
Qed.

Lemma NoDup_filter_ids q l : NoDup (map ob_id l) → NoDup (map ob_id (List.filter q l)).
Proof.
  induction l as [|x l IH]; cbn; [done|]. intros [Hx Hnd]%NoDup_cons.
  destruct (q x); cbn; [|by apply IH]. apply NoDup_cons. split; [|by apply IH].
  intros (y & Hy & Hin)%list_elem_of_fmap. apply Hx, list_elem_of_fmap. exists y. split; [done|].
  apply list_elem_of_In, filter_In in Hin as [Hin _]. by apply list_elem_of_In.
Qed.

Lemma fence_not_fenced key g r : fenced key g (fence_as r r) = false.
Proof.
  unfold fenced, fence_as, has_status. cbn.
  destruct (ob_ownership_scope_key r), (ob_ownership_generation r); try done.
  destruct (String.eqb (ob_status r) "pending"); cbn; by rewrite andb_false_r.
Qed.

(** a takeover fences the agent.  After a successful takeover the
    controller owns the scope under the next generation; every effect queued
    under an earlier generation that was still pending is failed and every
    one in flight is marked unknown, no other effect is touched, and none of
    the scope remains sendable; and every later automatic enqueue for the
    scope is refused, whatever agent and generation it names. *)
Theorem takeover_fences conversation channel recipient now d o d' :
  outbox_wf d → takeover conversation channel recipient now d = (Ok o, d') →
  let key := scope_key conversation channel recipient in
  let g := next_generation key d in
  ao_owner_kind o = "controller" ∧ ao_generation o = g ∧ outbox_wf d' ∧
  (∀ id r, row_of id d = Some r →
     row_of id d' = Some (if fenced key g r then fence_as r r else r)) ∧
  (∀ id r, row_of id d = Some r → ∃ r', row_of id d' = Some r' ∧ fenced key g r' = false) ∧
  (∀ now' row agent gen, enqueue_idempotent_for_agent now' row key agent gen d' =
     Err (Invariant "automatic agent lost transport ownership")).
Proof.
  intros Hwf Ht key g. unfold takeover, transaction in Ht.
  destruct (takeover_tx _ _ _ _ d) as [[[] d2]|] eqn:Htx; [|done].
  unfold takeover_tx in Htx. fold key in Htx. rewrite tx_get_bind in Htx. fold g in Htx.
  unfold tx_bind at 1, tx_modify in Htx.
  set (own := taken_over conversation g now (agent_ownership d !! key)) in Htx.
  set (d1 := set_ownership <[key:=own]> d) in Htx.
  unfold tx_bind at 1, insert_handoff in Htx. destruct (handoff_exists _ _); [done|].
  set (d1h := set_handoffs _ d1) in Htx. rewrite tx_get_bind in Htx.
  destruct (fence_rows_ok now (List.filter (fenced key g) (state_outbox d1h)) d1h)
    as (d3 & Hf & Hev & Ho & _ & Hrows); [apply NoDup_filter_ids, Hwf|].
  rewrite Hf in Htx. injection Htx as <-. injection Ht as Hget <-.
  assert (agent_ownership d3 !! key = Some own) as Hown by (rewrite Ho; apply lookup_insert_eq).
  unfold get in Hget. fold key in Hget. rewrite Hown in Hget. cbn in Hget. apply Ok_inj in Hget as <-.
  assert (ow_owner_kind own = "controller" ∧ ow_generation own = g) as [Hkind Hgen].
  { unfold own, taken_over. by destruct (agent_ownership d !! key). }
  assert (∀ id r, row_of id d = Some r →
     row_of id d3 = Some (if fenced key g r then fence_as r r else r)) as Hfence.
  { intros id r Hr. rewrite Hrows. change (state_outbox d1h) with (state_outbox d).
    rewrite (find_filter_id id _ _ r) by (done || apply Hwf). change (row_of id d1h) with (row_of id d).
    rewrite Hr. by destruct (fenced key g r). }
  split_and!; [done|done| |done| |].
  - apply (ev_wf d1h); [done|]. destruct Hwf. by split.
  - intros id r Hr. eexists. split; [by apply Hfence|].
    destruct (fenced key g r) eqn:Hfr; [apply fence_not_fenced|done].
  - intros now' row agent gen. unfold enqueue_idempotent_for_agent, enqueue_idempotent_guarded.
    rewrite tx_get_bind. unfold owner_is_current. rewrite Hown, Hkind. done.
Qed.

End Ownership.

(** ** Handing back *)
Section Handback.
Context (sha256_hex : bytes → string).
(** The JSON text of [serde_json]. *)
Context {Value : Type} (json_parse : string → option Value) (json_null : Value)
  (json_string : list Value → result string string) (json_value_string : Value → result string string).
#[local] Abbreviation scope_key := (scope_key sha256_hex).
#[local] Abbreviation takeover_tx := (takeover_tx sha256_hex).
#[local] Abbreviation takeover := (takeover sha256_hex).

(** [ORDER BY conversation_seq, event_id]; NULL sorts first. *)
Definition action_before (x y : HandoffRow) : Prop :=
  Is_true (match ho_conversation_seq x, ho_conversation_seq y with
           | None, None => String.leb (ho_event_id x) (ho_event_id y)
           | None, Some _ => true
           | Some _, None => false
           | Some a, Some b => (a <? b) || ((a =? b) && String.leb (ho_event_id x) (ho_event_id y))
           end).
#[global] Instance action_before_dec x y : Decision (action_before x y).
Proof. unfold action_before. apply _. Defined.

Definition operator_actions (key : string) (generation : Z) (d : Db) : list Value :=
  map (λ h, default json_null (json_parse (ho_payload h)))
    (merge_sort action_before
       (List.filter (λ h, String.eqb (ho_scope_key h) key && (ho_generation h =? generation)
                          && String.eqb (ho_event_kind h) "operator_action") (handoff_events d))).

Definition controller_at (generation : Z) (r : OwnershipRow) : bool :=
  String.eqb (ow_owner_kind r) "controller" && (ow_generation r =? generation).

(** [AgentOwnershipStore::handback_with_context]; [now] is SQL's [unixepoch()]. *)
Definition handback_with_context (conversation_id channel recipient : string) (generation now : Z)
    : tx Db (option string * list Value) :=
  let key := scope_key conversation_id channel recipient in
  let* d := tx_get in
  let held := match agent_ownership d !! key with
              | Some r => if controller_at generation r then Some r else None
              | None => None
              end in
  let previous_agent := held ≫= ow_previous_agent_id in
  let actions := operator_actions key generation d in
  match held with
  | None => tx_err (Invariant "ownership changed before handback")
  | Some r =>
      tx_modify (set_ownership
        (match previous_agent with
         | Some agent => <[key := mkOwnership (ow_conversation_id r) "agent" (Some agent) None
                                    (ow_generation r + 1) now]>
         | None => delete key
         end)) ;;*
      match json_string actions with
      | Err e => tx_err (Invariant e)
      | Ok text =>
          insert_handoff (mkHandoff key generation "handback" ("handback:" +:+ pretty generation) None text now) ;;*
          tx_ret (previous_agent, actions)
      end
  end.

(** [AgentOwnershipStore::handback] *)
Definition handback (conversation_id channel recipient : string) (generation now : Z) : tx Db () :=
  let* _ := handback_with_context conversation_id channel recipient generation now in tx_ret ().

(** [AgentOwnershipStore::record_operator_action] *)
Definition record_operator_action (conversation_id channel recipient event_id : string)
    (conversation_seq : Z) (payload : Value) (now : Z) : tx Db bool :=
  let key := scope_key conversation_id channel recipient in
  match json_value_string payload with
  | Err e => tx_err (Invariant e)
  | Ok encoded => λ d,
      match agent_ownership d !! key with
      | Some r =>
          if String.eqb (ow_owner_kind r) "controller" then
            let h := mkHandoff key (ow_generation r) "operator_action" event_id (Some conversation_seq)
                       encoded now in
            if handoff_exists h d then Ok (false, d) else Ok (true, set_handoffs (λ l, l ++ [h]) d)
          else Ok (false, d)
      | None => Ok (false, d)
      end
  end.

(** A scope that was never owned. *)
Definition untouched (key : string) (d : Db) : Prop :=
  agent_ownership d !! key = None ∧ ∀ h, h ∈ handoff_events d → ho_scope_key h ≠ key.

Definition takeover_event (key : string) (now : Z) : HandoffRow :=
  mkHandoff key 1 "takeover" ("takeover:" +:+ pretty 1) None "{}" now.

Lemma handoff_exists_other key d h f :
  (∀ x, x ∈ handoff_events d → ho_scope_key x ≠ key) → ho_scope_key h = key →
  handoff_exists h (set_ownership f d) = false.
Proof.
  intros Hfresh Hh. apply existsb_False. intros x Hx. rewrite Hh.
  by rewrite (proj2 (String.eqb_neq _ _)) by (by apply Hfresh).
Qed.

(** The first takeover of an untouched scope. *)
Lemma takeover_untouched conversation channel recipient now d :
  let key := scope_key conversation channel recipient in
  outbox_wf d → untouched key d →
  ∃ d1, takeover_tx conversation channel recipient now d = Ok ((), d1) ∧
    agent_ownership d1 !! key = Some (mkOwnership conversation "controller" None None 1 now) ∧
    handoff_events d1 = handoff_events d ++ [takeover_event key now].
Proof.
  intros key Hwf [Hnone Hfresh].
  set (own := mkOwnership conversation "controller" None None 1 now).
  set (d0 := set_handoffs (λ l, l ++ [takeover_event key now]) (set_ownership <[key:=own]> d)).
  destruct (fence_rows_ok now (List.filter (fenced key 1) (state_outbox d0)) d0)
    as (d1 & Hf & _ & Ho1 & Hh1 & _); [apply NoDup_filter_ids, Hwf|].
  exists d1. split_and!; [|rewrite Ho1; apply lookup_insert_eq|by rewrite Hh1].
  unfold takeover_tx. fold key. rewrite tx_get_bind.
  unfold next_generation. rewrite Hnone. unfold tx_bind at 1, tx_modify. cbn [taken_over].
  unfold tx_bind at 1, insert_handoff. fold (takeover_event key now).
  rewrite (handoff_exists_other key) by done. rewrite tx_get_bind. exact Hf.
Qed.

(** Handing back after it removes the owner and keeps the takeover event. *)
Lemma handback_unowned conversation channel recipient now1 now2 d d1 text :
  let key := scope_key conversation channel recipient in
  untouched key d → json_string [] = Ok text →
  agent_ownership d1 !! key = Some (mkOwnership conversation "controller" None None 1 now1) →
  handoff_events d1 = handoff_events d ++ [takeover_event key now1] →
  ∃ d2, handback conversation channel recipient 1 now2 d1 = Ok ((), d2) ∧
    agent_ownership d2 !! key = None ∧ takeover_event key now1 ∈ handoff_events d2.
Proof.
  intros key [_ Hfresh] Htext Hown Hev.
  set (h2 := mkHandoff key 1 "handback" ("handback:" +:+ pretty 1) None text now2).
  exists (set_handoffs (λ l, l ++ [h2]) (set_ownership (delete key) d1)). split_and!.
  - unfold handback, handback_with_context. fold key.
    unfold tx_bind at 1. rewrite tx_get_bind, Hown. cbn [controller_at].
    assert (operator_actions key 1 d1 = []) as ->.
    { unfold operator_actions. rewrite Hev, List.filter_app. cbn. rewrite andb_false_r, app_nil_r.
      rewrite (proj2 (filter_nil_iff _ _)); [done|]. intros h Hh.
      by rewrite (proj2 (String.eqb_neq _ _)) by (by apply Hfresh). }
    assert (∀ f, handoff_exists h2 (set_ownership f d1) = false) as Hno2.
    { intros f. unfold handoff_exists. cbn [handoff_events set_ownership]. rewrite Hev, existsb_app.
      pose proof (handoff_exists_other key d h2 id Hfresh eq_refl) as Hn. unfold handoff_exists in Hn.
      cbn [handoff_events set_ownership] in Hn. rewrite Hn. cbn. by rewrite andb_false_r. }
    unfold controller_at. cbn [ow_owner_kind ow_generation]. rewrite String.eqb_refl, Z.eqb_refl.
    cbn [andb mbind option_bind ow_previous_agent_id]. rewrite Htext.
    unfold tx_bind, tx_modify, insert_handoff. by rewrite Hno2.
  - apply lookup_delete_eq.
  - cbn. rewrite Hev. apply elem_of_app. left. apply elem_of_app. right. by left.
Qed.

(** A takeover that starts at a generation already logged fails. *)
Lemma takeover_logged conversation channel recipient now1 now3 d2 :
  let key := scope_key conversation channel recipient in
  agent_ownership d2 !! key = None → takeover_event key now1 ∈ handoff_events d2 →
  takeover conversation channel recipient now3 d2 = (Err constraint_failed, d2).
Proof.
  intros key Hnone Hin. unfold takeover, transaction, takeover_tx. fold key. rewrite tx_get_bind.
  unfold next_generation. rewrite Hnone. unfold tx_bind at 1, tx_modify, tx_bind at 1, insert_handoff.
  assert (∀ f, handoff_exists (mkHandoff key 1 "takeover" ("takeover:" +:+ pretty 1) None "{}" now3)
    (set_ownership f d2) = true) as Hyes; [|by rewrite Hyes].
  intros f. apply existsb_True. exists (takeover_event key now1). split; [done|].
  cbn [ho_scope_key ho_generation ho_event_id takeover_event]. by rewrite !String.eqb_refl.
Qed.

(** a controller can take over an unowned scope only once.  From a scope
    without owner and history, a takeover succeeds with generation 1 and the
    handback succeeds and removes the ownership row; the next takeover starts
    again at generation 1, hits the primary key of the append-only handoff
    log, and fails, as does every takeover after it. *)
Theorem second_takeover_fails conversation channel recipient now1 now2 now3 d text :
  let key := scope_key conversation channel recipient in
  outbox_wf d → untouched key d → json_string [] = Ok text →
  ∃ d1 d2, transaction (takeover_tx conversation channel recipient now1) d = (Ok (), d1) ∧
    transaction (handback conversation channel recipient 1 now2) d1 = (Ok (), d2) ∧
    agent_ownership d2 !! key = None ∧
    takeover conversation channel recipient now3 d2 = (Err constraint_failed, d2).
Proof.
  intros key Hwf Hun Htext.
  destruct (takeover_untouched conversation channel recipient now1 d Hwf Hun) as (d1 & H1 & Hown & Hev).
  destruct (handback_unowned conversation channel recipient now1 now2 d d1 text Hun Htext Hown Hev)
    as (d2 & H2 & Hnone & Hin).
  exists d1, d2. split_and!; [by apply transaction_ok..|done|].
  by apply (takeover_logged _ _ _ now1).
Qed.
End Handback.

(** ** A late failure report

    The relay reports the outcome of a dispatch by row id alone. *)

(** [record_failure] does not look at the row's status.  Whatever became of
    the row since it was claimed (a takeover marked it [unknown] or [failed],
    an operator confirmed it delivered), a failure reported within the retry
    budget puts it back to [pending], and it is offered to the relays again
    once the backoff has passed, under the same ownership generation and
    without the ownership being consulted.  So a relay whose dispatch is
    refused after a takeover un-fences the agent's send. *)
Theorem late_failure_resends now id e budget backoff d r t :
  outbox_wf d → row_of id d = Some r →
  0 ≤ ob_attempts r → ob_attempts r + 1 < budget → budget ≤ u32_max →
  in_i64 (now + backoff) → now + backoff ≤ t →
  ∃ d' r', record_failure now id e budget backoff d = Ok (true, d') ∧
    row_of id d' = Some r' ∧ same_effect r r' ∧ ob_status r' = "pending" ∧ is_ready t r' = true ∧
    agent_ownership d' = agent_ownership d.
Proof.
  intros Hwf Hr H0 Hb Hb' Hin Ht. unfold record_failure.
  assert (query_row (has_id id) d = Ok (r, d)) as Hq
    by (unfold query_row; fold (row_of id d); by rewrite Hr).
  unfold tx_bind at 1. rewrite Hq. rewrite (i64_add_id (ob_attempts r) 1) by int_lia.
  rewrite as_u32_id by int_lia. rewrite (proj2 (Z.ltb_lt _ _)) by done. cbn [negb].
  unfold tx_bind at 1. destruct (update_where _ _ d) as [[n d1]|] eqn:Hu; [|done].
  pose proof (row_of_update _ _ _ _ _ id Hu ltac:(done)) as Hrow. rewrite Hr in Hrow. cbn [fmap option_fmap option_map] in Hrow.
  rewrite (has_id_of _ _ _ Hr) in Hrow.
  eexists _, _. split_and!; [reflexivity|exact Hrow| | | |].
  - unfold same_effect. cbn. tauto.
  - done.
  - unfold is_ready, has_status. cbn. rewrite i64_add_id by done. by rewrite (proj2 (Z.leb_le _ _)).
  - injection Hu as _ <-. done.
Qed.

(** ** Closed examples *)

(** The string of a byte list, in place of a digest. *)
Definition toy_hash (bs : bytes) : string := String.string_of_list_byte bs.
Definition toy_json (_ : list unit) : result string string := Ok "[]".
Definition toy_key : string := scope_key toy_hash "c" "mail" "bob".

(** An agent's send, claimed by a relay while the agent owned the scope. *)
Definition toy_owned : Db := (assign_agent toy_hash "c" "mail" "bob" "agent-1" 90 empty_db).2.
Definition toy_sending : Db :=
  outbox_runs [OpEnqueueForAgent 100 toy_send toy_key "agent-1" 1; OpClaim 1 "relay" 101 30] toy_owned.
Definition toy_taken : Db := (takeover toy_hash "c" "mail" "bob" 102 toy_sending).2.

Lemma toy_sending_wf : outbox_wf toy_sending.
Proof.
  apply (ev_wf toy_owned); [|split; constructor].
  transitivity (transaction (outbox_run (OpEnqueueForAgent 100 toy_send toy_key "agent-1" 1)) toy_owned).2.
  - apply (outbox_run_evolves (OpEnqueueForAgent 100 toy_send toy_key "agent-1" 1)). vm_compute. reflexivity.
  - apply (outbox_run_evolves (OpClaim 1 "relay" 101 30)). vm_compute. reflexivity.
Qed.

Lemma takeover_fences_witness :
  ob_status <$> row_of 1 toy_taken = Some "unknown" ∧
  enqueue_idempotent_for_agent 103 toy_send toy_key "agent-1" 1 toy_taken =
    Err (Invariant "automatic agent lost transport ownership").
Proof.
  split; [vm_compute; reflexivity|].
  destruct (takeover_fences toy_hash "c" "mail" "bob" 102 toy_sending
    (mkAgentOwnership "c" "controller" None (Some "agent-1") 2 102) toy_taken) as (_ & _ & _ & _ & _ & Hr).
  - apply toy_sending_wf.
  - vm_compute. reflexivity.
  - apply Hr.
Defined.

Lemma toy_taken_wf : outbox_wf toy_taken.
Proof.
  split; cbn.
  - vm_compute. repeat constructor; set_solver.
  - vm_compute. repeat constructor; discriminate.
  - vm_compute. repeat constructor; set_solver.
  - vm_compute. repeat constructor. by eexists.
Qed.

Lemma late_failure_resends_witness :
  ∃ r, row_of 1 toy_taken = Some r ∧ ob_status r = "unknown" ∧
    ∃ d' r', record_failure 103 1 "refused" 5 2 toy_taken = Ok (true, d') ∧ row_of 1 d' = Some r' ∧
      same_effect r r' ∧ ob_status r' = "pending" ∧ is_ready 105 r' = true ∧
      agent_ownership d' = agent_ownership toy_taken.
Proof.
  eexists. split; [vm_compute; reflexivity|]. split; [vm_compute; reflexivity|].
  apply (late_failure_resends 103 1 "refused" 5 2 toy_taken).
  - apply toy_taken_wf.
  - vm_compute. reflexivity.
  - vm_compute. discriminate.
  - vm_compute. reflexivity.
  - vm_compute. discriminate.
  - vm_compute. split; discriminate.
  - vm_compute. discriminate.
Defined.

Lemma second_takeover_fails_witness :
  ∃ d1 d2, transaction (takeover_tx toy_hash "c" "mail" "bob" 1) empty_db = (Ok (), d1) ∧
    transaction (handback toy_hash (λ _, Some ()) () toy_json "c" "mail" "bob" 1 2) d1 = (Ok (), d2) ∧
    agent_ownership d2 !! toy_key = None ∧
    takeover toy_hash "c" "mail" "bob" 3 d2 = (Err constraint_failed, d2).
Proof.
  apply (second_takeover_fails toy_hash (λ _, Some ()) () toy_json "c" "mail" "bob" 1 2 3 empty_db "[]").
  - apply outbox_wf_empty.
  - split; [reflexivity|]. intros h Hh. inversion Hh.
  - reflexivity.
Defined.
