(* ===== verification/Relay.v ===== *)
(** * The effect relay

    [crates/outbox/src/lib.rs] and [crates/outbox/src/scheduler.rs]: the
    backoff schedule, one pass of the drain loop over the outbox, and the
    heap of wakeup deadlines. *)

From stdpp Require Import sorting.
From S2P Require Import Prelude Wire Text EventKind EventHmac Schema EventLog Outbox.

(** ** Backoff and retry budget *)

(** [1u64.checked_shl(n)]: [None] from 64 on. *)
Definition checked_shl_one (n : Z) : option Z :=
  if n <? 64 then Some (Z.shiftl 1 n mod 2 ^ 64) else None.

(** [exp_backoff], in milliseconds. *)
Definition BASE_MS : Z := 1000.
Definition CAP_MS : Z := 10 * 60 * 1000.
Definition exp_backoff (attempt : Z) : Z :=
  let ms := u64_saturating_mul BASE_MS (default 1 (checked_shl_one (Z.min attempt 15))) in
  Z.min ms CAP_MS.

(** [Duration::as_secs] *)
Definition as_secs (ms : Z) : Z := ms / 1000.

Record RetryBudget : Type := mkBudget { max_attempts : Z }.
Definition default_budget : RetryBudget := mkBudget 5.
Definition should_dead_letter (b : RetryBudget) (attempts : Z) : bool := max_attempts b <=? attempts.

(** ** Dispatchers *)

Inductive DeliverySafety : Type := IdempotencyKey | StatusLookup | NoGuarantee.

Record DispatchReceipt : Type := mkReceipt { external_receipt : option string }.

Inductive DispatchError : Type :=
| NotAccepted (error : string)
| OutcomeUnknown (error : string).

Inductive ReconciliationResult : Type :=
| RecDelivered (receipt : DispatchReceipt)
| RecNotDelivered
| RecUnknown (reason : string).

(** [trait Dispatcher]: a sink answers a dispatch and a status lookup.  Both are
    asynchronous: the database they return is the one the relay finds when
    the answer arrives, after whatever the sink itself (the wakeup sink
    appends to the event log) and other tasks did meanwhile. *)
Record Dispatcher : Type := mkDispatcher {
  delivery_safety : DeliverySafety;
  dispatch : OutboxRow → Db → result DispatchError DispatchReceipt * Db;
  reconcile : OutboxRow → Db → result string ReconciliationResult * Db
}.

(** [DispatcherRegistry] *)
Definition DispatcherRegistry : Type := gmap string Dispatcher.

Record DrainConfig : Type := mkDrain {
  batch_size : Z;
  retry_budget : RetryBudget
}.

(** ** One pass of the drain loop *)

(** What happened to one ready row. *)
Inductive row_outcome : Type :=
| Skipped
| NotRegistered
| Processed.

(** [.map_err(|e| format!("what: {e}"))] on an operation run in its own
    transaction. *)
Definition run_store {A} (what : string) (m : tx Db A) (d : Db) : result string A * Db :=
  match transaction m d with
  | (Ok a, d) => (Ok a, d)
  | (Err e, d) => (Err (what +:+ ": " +:+ display_error e), d)
  end.

Definition then_ok {A} (r : result string A * Db) (o : row_outcome) : result string row_outcome * Db :=
  match r with
  | (Ok _, d) => (Ok o, d)
  | (Err e, d) => (Err e, d)
  end.

Definition attempt_of (row : OutboxRow) : Z := as_u32 (i64_add (or_attempts row) 1).
Definition backoff_of (row : OutboxRow) : Z := as_secs (exp_backoff (attempt_of row)).

Definition deliver (what : string) (now id : Z) (receipt : DispatchReceipt) (d : Db)
    : result string row_outcome * Db :=
  then_ok (run_store what (mark_delivered_with_receipt now id (external_receipt receipt)) d) Processed.
Definition fail_row (cfg : DrainConfig) (now id : Z) (row : OutboxRow) (error : string) (d : Db)
    : result string row_outcome * Db :=
  then_ok (run_store "record_failure"
    (record_failure now id error (max_attempts (retry_budget cfg)) (backoff_of row)) d) Processed.
Definition mark_lost (what : string) (now id : Z) (reason : string) (d : Db)
    : result string row_outcome * Db :=
  then_ok (run_store what (mark_unknown now id reason) d) Processed.

(** The three ways a dispatch ends. *)
Definition finish_dispatch (cfg : DrainConfig) (disp : Dispatcher) (now id : Z)
    (row : OutboxRow) (d : Db) : result string row_outcome * Db :=
  match dispatch disp row d with
  | (Ok receipt, d) => deliver "mark_delivered" now id receipt d
  | (Err (NotAccepted error), d) => fail_row cfg now id row error d
  | (Err (OutcomeUnknown error), d) =>
      match delivery_safety disp with
      | IdempotencyKey => fail_row cfg now id row error d
      | StatusLookup =>
          match reconcile disp row d with
          | (Ok (RecDelivered receipt), d) => deliver "mark_delivered" now id receipt d
          | (Ok RecNotDelivered, d) => fail_row cfg now id row error d
          | (Ok (RecUnknown reason), d) =>
              mark_lost "mark_unknown" now id (error +:+ "; reconciliation: " +:+ reason) d
          | (Err reason, d) =>
              mark_lost "mark_unknown" now id (error +:+ "; reconciliation failed: " +:+ reason) d
          end
      | NoGuarantee => mark_lost "mark_unknown" now id error d
      end
  end.

(** The dispatch of a claimed row.  A row that was in flight with an expired
    lease has its earlier attempt resolved first. *)
Definition dispatch_claimed (cfg : DrainConfig) (disp : Dispatcher) (now id : Z) (row : OutboxRow)
    (d : Db) : result string row_outcome * Db :=
  if bool_decide (or_status row = InFlight) then
    match delivery_safety disp with
    | IdempotencyKey => finish_dispatch cfg disp now id row d
    | NoGuarantee =>
        mark_lost "mark expired no-guarantee effect unknown" now id
          "relay restarted with an in-flight effect and the sink has no deduplication or status lookup" d
    | StatusLookup =>
        match reconcile disp row d with
        | (Ok (RecDelivered receipt), d) => deliver "record reconciled delivery" now id receipt d
        | (Ok RecNotDelivered, d) => finish_dispatch cfg disp now id row d
        | (Ok (RecUnknown reason), d) | (Err reason, d) =>
            mark_lost "mark unresolved expired effect unknown" now id
              ("expired in-flight effect reconciliation: " +:+ reason) d
        end
    end
  else finish_dispatch cfg disp now id row d.

(** The body of the loop for one ready row. *)
Definition drain_row (registry : DispatcherRegistry) (cfg : DrainConfig) (owner : string)
    (now : Z) (row : OutboxRow) (d : Db) : result string row_outcome * Db :=
  match or_id row with
  | None => (Ok Skipped, d)
  | Some id =>
      match run_store "claim" (claim_with_lease id owner now 120) d with
      | (Err e, d) => (Err e, d)
      | (Ok false, d) => (Ok Skipped, d)
      | (Ok true, d) =>
          match registry !! or_effect_kind row with
          | None =>
              (Ok NotRegistered,
               (transaction (record_failure now id
                  ("no dispatcher for '" +:+ or_effect_kind row +:+ "'") 1 0) d).2)
          | Some disp => dispatch_claimed cfg disp now id row d
          end
      end
  end.

Fixpoint drain_rows (registry : DispatcherRegistry) (cfg : DrainConfig) (owner : string)
    (now : Z) (rows : list OutboxRow) (processed : Z) (d : Db) : result string Z * Db :=
  match rows with
  | [] => (Ok processed, d)
  | row :: rows =>
      match drain_row registry cfg owner now row d with
      | (Err e, d) => (Err e, d)
      | (Ok o, d) =>
          drain_rows registry cfg owner now rows
            (match o with Processed => processed + 1 | _ => processed end) d
      end
  end.

(** [drain_once] *)
Definition drain_once (registry : DispatcherRegistry) (cfg : DrainConfig) (pid now : Z) (d : Db)
    : result string Z * Db :=
  drain_rows registry cfg ("relay:" +:+ pretty pid +:+ ":" +:+ pretty now) now
    (ready_pending now (batch_size cfg) d) 0 d.

(** ** The wakeup dispatcher *)

(** [WakeupDispatcher::dispatch]; [decodes] is the MessagePack check of the
    payload. *)
Definition wakeup_dispatch `{Hmac} (kr : option KeyRing) (decodes : bytes → result string ()) (now : Z)
    (row : OutboxRow) (d : Db) : result DispatchError DispatchReceipt * Db :=
  let c := or_conversation_id row in
  let seq := next_seq (last_seq c d) in
  match decodes (or_payload row) with
  | Err e => (Err (NotAccepted ("decode wakeup: " +:+ e)), d)
  | Ok _ =>
      let ev := mkEvent c seq Wakeup (or_payload row) now (Some "system") in
      match append kr ev d with
      | (Err e, d) => (Err (OutcomeUnknown ("append wakeup: " +:+ display_error e)), d)
      | (Ok _, d) => (Ok (mkReceipt None), d)
      end
  end.

(** ** The scheduler's heap

    [BinaryHeap<Reverse<HeapEntry>>] as the ascending list of its entries. *)
Record HeapEntry : Type := mkEntry { fire_at_ts : Z; he_conversation_id : string }.

Fixpoint heap_push (e : HeapEntry) (heap : list HeapEntry) : list HeapEntry :=
  match heap with
  | [] => [e]
  | x :: heap => if fire_at_ts e <=? fire_at_ts x then e :: x :: heap else x :: heap_push e heap
  end.

(** [WakeupScheduler::schedule] *)
Definition schedule (at_ : Z) (c : string) (heap : list HeapEntry) : list HeapEntry :=
  heap_push (mkEntry at_ c) heap.

(** [WakeupScheduler::hydrate_from_outbox] *)
Definition hydrate_from_outbox (now : Z) (d : Db) (heap : list HeapEntry) : Z * list HeapEntry :=
  let rows := List.filter (λ r, String.eqb (or_effect_kind r) "schedule.wakeup")
                (ready_pending (i64_add now (365 * 24 * 3600)) 10000 d) in
  (vec_len rows,
   foldl (λ heap r, schedule (default now (or_next_attempt_at r)) (or_conversation_id r) heap) heap rows).

(** The popping loop of [WakeupScheduler::fire_due]. *)
Fixpoint pop_due (now : Z) (heap : list HeapEntry) (popped : nat) : nat * list HeapEntry :=
  match heap with
  | [] => (popped, [])
  | e :: rest => if now <? fire_at_ts e then (popped, heap) else pop_due now rest (S popped)
  end.

(** [WakeupScheduler::fire_due]: a drain pass when anything was due. *)
Definition fire_due (registry : DispatcherRegistry) (cfg : DrainConfig) (pid now : Z)
    (heap : list HeapEntry) (d : Db) : list HeapEntry * Db :=
  match pop_due now heap 0 with
  | (O, heap) => (heap, d)
  | (_, heap) => (heap, (drain_once registry cfg pid now d).2)
  end.

(** ** Backoff *)

(** the backoff schedule.  For every attempt number of the [u32] range the
    delay is exactly 1s doubled per attempt and capped at ten minutes: the
    shift never overflows and the saturating product never saturates. *)
Theorem exp_backoff_spec attempt :
  in_u32 attempt → exp_backoff attempt = Z.min (1000 * 2 ^ attempt) 600000.
Proof.
  intros Ha. unfold exp_backoff, checked_shl_one.
  destruct (Z.leb_spec attempt 15) as [Hle|Hgt].
  - rewrite (Z.min_l attempt 15) by lia. rewrite (proj2 (Z.ltb_lt attempt 64)) by lia.
    assert (forallb (λ a, Z.min (u64_saturating_mul BASE_MS (Z.shiftl 1 a mod 2 ^ 64)) CAP_MS
                          =? Z.min (1000 * 2 ^ a) 600000) (seqZ 0 16) = true) as Hall
      by (vm_compute; reflexivity).
    rewrite forallb_forall in Hall. apply Z.eqb_eq, Hall, list_elem_of_In, elem_of_seqZ. int_lia.
  - rewrite (Z.min_r attempt 15) by lia.
    change (Z.min (u64_saturating_mul BASE_MS (default 1 (if 15 <? 64 then Some (Z.shiftl 1 15 mod 2 ^ 64) else None))) CAP_MS)
      with 600000.
    assert (2 ^ 16 ≤ 2 ^ attempt) by (apply Z.pow_le_mono_r; lia). lia.
Qed.

Lemma exp_backoff_spec_witness : exp_backoff 3 = 8000 ∧ exp_backoff 3 = Z.min (1000 * 2 ^ 3) 600000.
Proof. split; [vm_compute; reflexivity|apply exp_backoff_spec]. vm_compute. split; discriminate. Defined.

(** ** Settling a row *)

(** What the relay concludes about a dispatched row. *)
Inductive verdict : Type :=
| VDelivered (receipt : DispatchReceipt)
| VRetry (error : string)
| VUnknown (reason : string).

Definition settled (cfg : DrainConfig) (now : Z) (row : OutboxRow) (r : OutboxDbRow) (v : verdict)
    : OutboxDbRow :=
  match v with
  | VDelivered _ => with_lease None None (with_error None (with_status "delivered" r))
  | VRetry e =>
      let n := i64_add (ob_attempts r) 1 in
      if as_u32 n <? max_attempts (retry_budget cfg)
      then with_lease None None (with_next_attempt (Some (i64_add now (backoff_of row)))
             (with_attempts n (with_error (Some e) (with_status "pending" r))))
      else with_lease None None (with_attempts n (with_error (Some e) (with_status "dead_letter" r)))
  | VUnknown s =>
      with_lease None None (with_attempts (ob_attempts r + 1)
        (with_error (Some (bounded_reason s)) (with_status "unknown" r)))
  end.

Lemma transaction_of {A} (m : tx Db A) d a d' : m d = Ok (a, d') → transaction m d = (Ok a, d').
Proof. unfold transaction. by intros ->. Qed.

Lemma deliver_settles cfg what now id receipt row d r :
  row_of id d = Some r →
  ∃ d', deliver what now id receipt d = (Ok Processed, d') ∧ evolves d d' ∧
        row_of id d' = Some (settled cfg now row r (VDelivered receipt)).
Proof.
  intros Hr. unfold deliver, run_store, then_ok.
  destruct (mark_delivered_with_receipt now id (external_receipt receipt) d) as [[[] d']|e] eqn:Hm.
  - rewrite (transaction_of _ _ _ _ Hm). exists d'. split_and!; [done|by eapply delivered_evolves|].
    unfold mark_delivered_with_receipt in Hm.
    apply tx_bind_ok in Hm as (n & d1 & Hu & Hm). apply tx_bind_ok in Hm as (x & d2 & Hq & Hm).
    apply query_row_ok in Hq as [-> _]. rewrite (row_of_record _ _ _ _ _ _ _ _ _ id Hm).
    rewrite (row_of_update _ _ _ _ _ id Hu) by done. rewrite Hr. cbn. by rewrite (has_id_of _ _ _ Hr).
  - exfalso. revert Hm. unfold mark_delivered_with_receipt, tx_bind.
    destruct (update_where _ _ d) as [[n d1]|] eqn:Hu; [|done].
    pose proof (row_of_update _ _ _ _ _ id Hu ltac:(done)) as Hrow. rewrite Hr in Hrow.
    unfold query_row. fold (row_of id d1). by rewrite Hrow.
Qed.

Lemma fail_settles cfg now id row error d r :
  row_of id d = Some r →
  ∃ d', fail_row cfg now id row error d = (Ok Processed, d') ∧ evolves d d' ∧
        row_of id d' = Some (settled cfg now row r (VRetry error)).
Proof.
  intros Hr. unfold fail_row, run_store, then_ok.
  destruct (record_failure now id error (max_attempts (retry_budget cfg)) (backoff_of row) d)
    as [[b d']|e] eqn:Hm.
  - rewrite (transaction_of _ _ _ _ Hm). exists d'. split_and!; [done|by eapply failure_evolves|].
    unfold record_failure in Hm. apply tx_bind_ok in Hm as (x & d1 & Hq & Hm).
    apply query_row_ok in Hq as [-> Hx]. fold (row_of id d) in Hx. simplify_eq.
    apply tx_bind_ok in Hm as (n & d1 & Hu & Hm). apply tx_bind_ok in Hm as ([] & d2 & Ht & Hm).
    unfold tx_ret in Hm. apply Ok_inj in Hm. injection Hm as _ <-.
    rewrite (row_of_record _ _ _ _ _ _ _ _ _ id Ht). unfold settled.
    destruct (as_u32 _ <? _); cbn [negb] in Hu;
      rewrite (row_of_update _ _ _ _ _ id Hu) by done; rewrite Hr; cbn; by rewrite (has_id_of _ _ _ Hr).
  - exfalso. revert Hm. unfold record_failure, tx_bind, query_row. fold (row_of id d). rewrite Hr.
    by destruct (as_u32 _ <? _).
Qed.

Lemma mark_lost_settles cfg what now id row reason d r :
  row_of id d = Some r → ob_status r = "in_flight" →
  ∃ d', mark_lost what now id reason d = (Ok Processed, d') ∧ evolves d d' ∧
        row_of id d' = Some (settled cfg now row r (VUnknown reason)).
Proof.
  intros Hr Hst. unfold mark_lost, run_store, then_ok.
  assert (has_status "in_flight" r = true) as Hq by (unfold has_status; by rewrite Hst).
  destruct (mark_unknown now id reason d) as [[[] d']|e] eqn:Hm.
  - rewrite (transaction_of _ _ _ _ Hm). exists d'. split_and!; [done|by eapply unknown_evolves|].
    unfold mark_unknown in Hm. apply tx_bind_ok in Hm as (x & d1 & Hx & Hm).
    rewrite (query_row_id id _ d r Hr Hq) in Hx. apply Ok_inj in Hx. injection Hx as <- <-.
    apply tx_bind_ok in Hm as (n & d1 & Hu & Hm). rewrite (row_of_record _ _ _ _ _ _ _ _ _ id Hm).
    rewrite (row_of_update _ _ _ _ _ id Hu) by done. rewrite Hr. cbn. by rewrite (has_id_of _ _ _ Hr), Hq.
  - exfalso. revert Hm. unfold mark_unknown, tx_bind. by rewrite (query_row_id id _ d r Hr Hq).
Qed.

(** A sink that leaves the claimed row to the relay: what it and other tasks do
    while the relay waits evolves the database but does not touch row [id]. *)
Record quiet (disp : Dispatcher) (id : Z) : Prop := {
  q_dispatch : ∀ row d, evolves d (dispatch disp row d).2 ∧ row_of id (dispatch disp row d).2 = row_of id d;
  q_reconcile : ∀ row d, evolves d (reconcile disp row d).2 ∧ row_of id (reconcile disp row d).2 = row_of id d
}.

(** What the sink's answers amount to. *)
Definition dispatch_verdict (disp : Dispatcher) (row : OutboxRow) (d : Db) : verdict :=
  match dispatch disp row d with
  | (Ok receipt, _) => VDelivered receipt
  | (Err (NotAccepted e), _) => VRetry e
  | (Err (OutcomeUnknown e), d) =>
      match delivery_safety disp with
      | IdempotencyKey => VRetry e
      | NoGuarantee => VUnknown e
      | StatusLookup =>
          match (reconcile disp row d).1 with
          | Ok (RecDelivered receipt) => VDelivered receipt
          | Ok RecNotDelivered => VRetry e
          | Ok (RecUnknown why) => VUnknown (e +:+ "; reconciliation: " +:+ why)
          | Err why => VUnknown (e +:+ "; reconciliation failed: " +:+ why)
          end
      end
  end.

Definition claimed_verdict (disp : Dispatcher) (row : OutboxRow) (d : Db) : verdict :=
  if bool_decide (or_status row = InFlight) then
    match delivery_safety disp with
    | IdempotencyKey => dispatch_verdict disp row d
    | NoGuarantee => VUnknown
        "relay restarted with an in-flight effect and the sink has no deduplication or status lookup"
    | StatusLookup =>
        match reconcile disp row d with
        | (Ok (RecDelivered receipt), _) => VDelivered receipt
        | (Ok RecNotDelivered, d) => dispatch_verdict disp row d
        | (Ok (RecUnknown why), _) | (Err why, _) =>
            VUnknown ("expired in-flight effect reconciliation: " +:+ why)
        end
    end
  else dispatch_verdict disp row d.

Lemma finish_settles cfg disp now id row d r :
  quiet disp id → row_of id d = Some r → ob_status r = "in_flight" →
  ∃ d', finish_dispatch cfg disp now id row d = (Ok Processed, d') ∧ evolves d d' ∧
        row_of id d' = Some (settled cfg now row r (dispatch_verdict disp row d)).
Proof.
  intros Hq Hr Hst. unfold finish_dispatch, dispatch_verdict.
  destruct (q_dispatch _ _ Hq row d) as [Hev Hsame].
  destruct (dispatch disp row d) as [[receipt|[e|e]] d1]; cbn [snd] in *; rewrite Hr in Hsame.
  - destruct (deliver_settles cfg "mark_delivered" now id receipt row d1 r Hsame) as (d2 & ? & ? & ?).
    exists d2. split_and!; [done|by etransitivity|done].
  - destruct (fail_settles cfg now id row e d1 r Hsame) as (d2 & ? & ? & ?).
    exists d2. split_and!; [done|by etransitivity|done].
  - destruct (delivery_safety disp).
    + destruct (fail_settles cfg now id row e d1 r Hsame) as (d2 & ? & ? & ?).
      exists d2. split_and!; [done|by etransitivity|done].
    + destruct (q_reconcile _ _ Hq row d1) as [Hev2 Hsame2].
      destruct (reconcile disp row d1) as [[[receipt| |why]|why] d2]; cbn [fst snd] in *; rewrite Hsame in Hsame2.
      * destruct (deliver_settles cfg "mark_delivered" now id receipt row d2 r Hsame2) as (d3 & ? & ? & ?).
        exists d3. split_and!; [done|do 2 (etransitivity; [eassumption|]); done|done].
      * destruct (fail_settles cfg now id row e d2 r Hsame2) as (d3 & ? & ? & ?).
        exists d3. split_and!; [done|do 2 (etransitivity; [eassumption|]); done|done].
      * destruct (mark_lost_settles cfg "mark_unknown" now id row (e +:+ "; reconciliation: " +:+ why) d2 r Hsame2 Hst)
          as (d3 & ? & ? & ?).
        exists d3. split_and!; [done|do 2 (etransitivity; [eassumption|]); done|done].
      * destruct (mark_lost_settles cfg "mark_unknown" now id row (e +:+ "; reconciliation failed: " +:+ why) d2 r Hsame2 Hst)
          as (d3 & ? & ? & ?).
        exists d3. split_and!; [done|do 2 (etransitivity; [eassumption|]); done|done].
    + destruct (mark_lost_settles cfg "mark_unknown" now id row e d1 r Hsame Hst) as (d2 & ? & ? & ?).
      exists d2. split_and!; [done|by etransitivity|done].
Qed.

Lemma claimed_settles cfg disp now id row d r :
  quiet disp id → row_of id d = Some r → ob_status r = "in_flight" →
  ∃ d', dispatch_claimed cfg disp now id row d = (Ok Processed, d') ∧ evolves d d' ∧
        row_of id d' = Some (settled cfg now row r (claimed_verdict disp row d)).
Proof.
  intros Hq Hr Hst. unfold dispatch_claimed, claimed_verdict.
  case_bool_decide; [|by apply finish_settles]. destruct (delivery_safety disp).
  - by apply finish_settles.
  - destruct (q_reconcile _ _ Hq row d) as [Hev Hsame].
    destruct (reconcile disp row d) as [[[receipt| |why]|why] d1]; cbn [snd] in *; rewrite Hr in Hsame.
    + destruct (deliver_settles cfg "record reconciled delivery" now id receipt row d1 r Hsame) as (d2 & ? & ? & ?).
      exists d2. split_and!; [done|by etransitivity|done].
    + destruct (finish_settles cfg disp now id row d1 r Hq Hsame Hst) as (d2 & ? & ? & ?).
      exists d2. split_and!; [done|by etransitivity|done].
    + destruct (mark_lost_settles cfg "mark unresolved expired effect unknown" now id row
        ("expired in-flight effect reconciliation: " +:+ why) d1 r Hsame Hst) as (d2 & ? & ? & ?).
      exists d2. split_and!; [done|by etransitivity|done].
    + destruct (mark_lost_settles cfg "mark unresolved expired effect unknown" now id row
        ("expired in-flight effect reconciliation: " +:+ why) d1 r Hsame Hst) as (d2 & ? & ? & ?).
      exists d2. split_and!; [done|by etransitivity|done].
  - by apply mark_lost_settles.
Qed.

(** the relay settles what it claims.  For a ready row whose kind has a
    sink, one pass of the loop body succeeds and leaves the row in exactly
    the state the sink's answers call for: delivered; pending again with one
    more attempt, the backoff of that attempt and no lease, or dead-lettered
    when the budget is spent; or unknown with the reason.  It is never left
    in flight, and the table's invariant is kept. *)
Theorem drain_row_settles registry cfg owner now d id r disp :
  outbox_wf d → row_of id d = Some r → claimable now r = true →
  registry !! ob_effect_kind r = Some disp → quiet disp id →
  ∃ d1 d' r', drain_row registry cfg owner now (row_to_outbox r) d = (Ok Processed, d') ∧
    claim_with_lease id owner now 120 d = Ok (true, d1) ∧
    row_of id d1 = Some (leased owner (lease_end now 120) r) ∧
    row_of id d' = Some r' ∧
    r' = settled cfg now (row_to_outbox r) (leased owner (lease_end now 120) r)
           (claimed_verdict disp (row_to_outbox r) d1) ∧
    ob_status r' ≠ "in_flight" ∧ ob_lease_owner r' = None ∧ outbox_wf d'.
Proof.
  intros Hwf Hr Hc Hreg Hq.
  destruct (claim_spec id owner now 120 d Hwf) as (d1 & Hclaim & Hrows).
  rewrite Hr, Hc in Hclaim, Hrows. pose proof (Hrows id) as Hrow. rewrite Hr, Z.eqb_refl in Hrow. cbn in Hrow.
  destruct (claimed_settles cfg disp now id (row_to_outbox r) d1 _ Hq Hrow) as (d2 & Hd & Hev & Hfinal); [done|].
  exists d1, d2. eexists. split_and!; [|done|done|exact Hfinal|done| | |].
  - unfold drain_row. change (or_id (row_to_outbox r)) with (Some (ob_id r)).
    change (or_effect_kind (row_to_outbox r)) with (ob_effect_kind r).
    pose proof (find_has_id _ _ _ Hr) as [_ ->].
    unfold run_store. rewrite (transaction_of _ _ _ _ Hclaim). by rewrite Hreg.
  - unfold settled. destruct (claimed_verdict _ _ _); [done| |done]. by destruct (_ <? _).
  - unfold settled. destruct (claimed_verdict _ _ _); [done| |done]. by destruct (_ <? _).
  - eapply ev_wf; [exact Hev|]. eapply ev_wf; [by eapply claim_evolves|done].
Qed.

(** no blind resend.  When a lease expired with the effect in flight and
    the sink offers neither deduplication nor status lookup, the relay does
    not call the sink at all: whatever the sink would answer, the outcome is
    the same, and the row ends unknown. *)
Theorem no_blind_resend registry cfg owner now d id r disp f g :
  outbox_wf d → row_of id d = Some r → claimable now r = true → ob_status r = "in_flight" →
  registry !! ob_effect_kind r = Some disp → delivery_safety disp = NoGuarantee → quiet disp id →
  drain_row registry cfg owner now (row_to_outbox r) d =
    drain_row (<[ob_effect_kind r := mkDispatcher NoGuarantee f g]> registry) cfg owner now (row_to_outbox r) d ∧
  ∃ d' r', drain_row registry cfg owner now (row_to_outbox r) d = (Ok Processed, d') ∧
    row_of id d' = Some r' ∧ ob_status r' = "unknown".
Proof.
  intros Hwf Hr Hc Hst Hreg Hsafe Hq.
  assert (or_status (row_to_outbox r) = InFlight) as Hs by (cbn; by rewrite Hst). split.
  - unfold drain_row. change (or_effect_kind (row_to_outbox r)) with (ob_effect_kind r).
    change (or_id (row_to_outbox r)) with (Some (ob_id r)).
    cbv iota beta. destruct (run_store "claim" (claim_with_lease (ob_id r) owner now 120) d) as [[[]|] d1]; try done.
    assert (<[ob_effect_kind r := mkDispatcher NoGuarantee f g]> registry !! ob_effect_kind r =
      Some (mkDispatcher NoGuarantee f g)) as -> by apply (lookup_insert_eq registry).
    rewrite Hreg. unfold dispatch_claimed.
    rewrite bool_decide_true by done. by rewrite Hsafe.
  - destruct (claim_spec id owner now 120 d Hwf) as (d1 & Hclaim & Hrows).
    rewrite Hr, Hc in Hclaim, Hrows. pose proof (Hrows id) as Hrow. rewrite Hr, Z.eqb_refl in Hrow. cbn in Hrow.
    destruct (claimed_settles cfg disp now id (row_to_outbox r) d1 _ Hq Hrow) as (d2 & Hd & _ & Hfinal); [done|].
    exists d2. eexists. split_and!; [|exact Hfinal|].
    + unfold drain_row. change (or_id (row_to_outbox r)) with (Some (ob_id r)).
    change (or_effect_kind (row_to_outbox r)) with (ob_effect_kind r).
    pose proof (find_has_id _ _ _ Hr) as [_ ->].
      unfold run_store. rewrite (transaction_of _ _ _ _ Hclaim). by rewrite Hreg.
    + unfold claimed_verdict. rewrite bool_decide_true by done. by rewrite Hsafe.
Qed.

(** ** The retry budget *)

(** A row whose every dispatch is refused: [k] failures in a row, with the
    clock readings and backoffs of each. *)
Fixpoint fail_times (id budget : Z) (fails : list (Z * string * Z)) (d : Db) : list (result DbError bool) * Db :=
  match fails with
  | [] => ([], d)
  | (now, e, backoff) :: fails =>
      let '(b, d) := transaction (record_failure now id e budget backoff) d in
      let '(bs, d) := fail_times id budget fails d in (b :: bs, d)
  end.

Lemma failure_row now id e budget backoff d r :
  row_of id d = Some r → 0 ≤ ob_attempts r < u32_max →
  let n := ob_attempts r + 1 in
  ∃ d' r', record_failure now id e budget backoff d = Ok (n <? budget, d') ∧ row_of id d' = Some r' ∧
    ob_attempts r' = n ∧ ob_status r' = (if n <? budget then "pending" else "dead_letter").
Proof.
  intros Hr Ha n. unfold record_failure.
  assert (query_row (has_id id) d = Ok (r, d)) as Hq
    by (unfold query_row; fold (row_of id d); by rewrite Hr).
  unfold tx_bind at 1. rewrite Hq. rewrite (i64_add_id (ob_attempts r) 1) by int_lia. fold n.
  rewrite as_u32_id by (unfold n; int_lia).
  destruct (n <? budget); cbn [negb]; unfold tx_bind at 1;
    (destruct (update_where _ _ d) as [[c d1]|] eqn:Hu; [|done]);
    pose proof (row_of_update _ _ _ _ _ id Hu ltac:(done)) as Hrow; rewrite Hr in Hrow;
    cbn [fmap option_fmap option_map] in Hrow; rewrite (has_id_of _ _ _ Hr) in Hrow;
    eexists _, _; (split; [reflexivity|]); (split; [exact Hrow|]); done.
Qed.

(** the retry budget.  A fresh row that fails [budget] times is retried
    after each of the first [budget - 1] failures and dead-lettered by the
    last one; until then it is pending with the number of failures counted.
    So an effect is attempted at most [budget] times before an operator must
    act. *)
Theorem budget_exhausts id budget fails d r :
  row_of id d = Some r → ob_attempts r = 0 →
  Z.of_nat (length fails) ≤ budget → budget ≤ u32_max → fails ≠ [] →
  let '(bs, d') := fail_times id budget fails d in
  bs = map (λ k, Ok (Z.of_nat k <? budget)) (seq 1 (length fails)) ∧
  ∃ r', row_of id d' = Some r' ∧ ob_attempts r' = Z.of_nat (length fails) ∧
        ob_status r' = (if Z.of_nat (length fails) <? budget then "pending" else "dead_letter").
Proof.
  assert (∀ k r d, row_of id d = Some r → ob_attempts r = Z.of_nat k →
    Z.of_nat (k + length fails) ≤ budget → budget ≤ u32_max → fails ≠ [] →
    let '(bs, d') := fail_times id budget fails d in
    bs = map (λ k, Ok (Z.of_nat k <? budget)) (seq (S k) (length fails)) ∧
    ∃ r', row_of id d' = Some r' ∧ ob_attempts r' = Z.of_nat (k + length fails) ∧
          ob_status r' = (if Z.of_nat (k + length fails) <? budget then "pending" else "dead_letter")) as Hgen.
  { clear d r. induction fails as [|[[now e] backoff] fails IH]; intros k r d Hr Ha Hb Hu Hne; [done|].
    cbn [fail_times length map seq] in *.
    destruct (failure_row now id e budget backoff d r Hr) as (d1 & r1 & Hf & Hr1 & Ha1 & Hs1); [int_lia|].
    assert (ob_attempts r + 1 = Z.of_nat (S k)) as Hk by lia.
    rewrite (transaction_of _ _ _ _ Hf). destruct fails as [|f fails].
    { cbn [fail_times length map seq]. rewrite Nat.add_1_r. rewrite Hk in *. split; [done|]. by exists r1. }
    specialize (IH (S k) r1 d1 Hr1). destruct (fail_times id budget (f :: fails) d1) as [bs d2].
    destruct IH as (Hbs & r2 & Hr2 & Ha2 & Hs2); [lia|cbn [length] in *; lia|done|done|].
    rewrite <-plus_n_Sm. rewrite Hk, Hbs. split; [done|]. by exists r2. }
  intros Hr Ha Hb Hu Hne. apply (Hgen 0%nat r d Hr); [done|lia|done|done].
Qed.

(** ** The scheduler *)

Definition due_order (x y : HeapEntry) : Prop := fire_at_ts x ≤ fire_at_ts y.

Lemma heap_push_perm e heap : heap_push e heap ≡ₚ e :: heap.
Proof.
  induction heap as [|x heap IH]; cbn; [done|]. destruct (_ <=? _); [done|].
  rewrite IH. apply perm_swap.
Qed.

Lemma heap_push_sorted e heap : StronglySorted due_order heap → StronglySorted due_order (heap_push e heap).
Proof.
  induction 1 as [|x heap Hs IH Hall]; cbn; [by repeat constructor|].
  destruct (Z.leb_spec (fire_at_ts e) (fire_at_ts x)) as [Hle|Hgt].
  - constructor; [by constructor|]. constructor; [done|]. eapply Forall_impl; [exact Hall|].
    unfold due_order. cbn. lia.
  - constructor; [done|]. rewrite heap_push_perm. constructor; [unfold due_order; lia|done].
Qed.

Lemma pop_due_sorted now heap n :
  StronglySorted due_order heap →
  pop_due now heap n =
    (Nat.add n (length (List.filter (λ e, fire_at_ts e <=? now) heap)),
     List.filter (λ e, now <? fire_at_ts e) heap).
Proof.
  intros Hs. revert n. induction Hs as [|x heap Hs IH Hall]; intros n; cbn; [by rewrite Nat.add_0_r|].
  destruct (Z.ltb_spec now (fire_at_ts x)) as [Hlt|Hge].
  - rewrite (proj2 (Z.leb_gt _ _)) by done.
    assert (∀ e, e ∈ heap → now < fire_at_ts e) as Hlater.
    { intros e He. rewrite Forall_forall in Hall. specialize (Hall e He). unfold due_order in Hall. lia. }
    rewrite (filter_none _ heap) by (intros e He; apply Z.leb_gt; auto).
    rewrite (filter_all _ heap); [by rewrite Nat.add_0_r|].
    apply Forall_forall. intros e He. apply Z.ltb_lt. auto.
  - rewrite (proj2 (Z.leb_le _ _)) by done. rewrite IH. f_equal. cbn. lia.
Qed.

(** the wakeup heap.  After any sequence of [schedule] calls, firing at
    [now] pops exactly the wakeups whose deadline has passed, in any order of
    scheduling, and keeps exactly the later ones, the earliest first. *)
Theorem scheduler_fires_exactly_due calls now :
  let heap := foldl (λ h c, schedule c.1 c.2 h) [] calls in
  let entries := map (λ c, mkEntry c.1 c.2) calls in
  let '(popped, rest) := pop_due now heap 0 in
  popped = length (List.filter (λ e, fire_at_ts e <=? now) entries) ∧
  rest ≡ₚ List.filter (λ e, now <? fire_at_ts e) entries ∧ StronglySorted due_order rest.
Proof.
  intros heap entries.
  assert (∀ calls h, StronglySorted due_order h →
    StronglySorted due_order (foldl (λ h c, schedule c.1 c.2 h) h calls) ∧
    foldl (λ h c, schedule c.1 c.2 h) h calls ≡ₚ map (λ c, mkEntry c.1 c.2) calls ++ h) as Hfold.
  { clear. induction calls as [|c calls IH]; intros h Hh; cbn; [done|].
    destruct (IH (schedule c.1 c.2 h)) as [Hs Hp]; [by apply heap_push_sorted|]. split; [done|].
    rewrite Hp. unfold schedule. rewrite heap_push_perm. by rewrite <-Permutation_middle. }
  destruct (Hfold calls [] ltac:(constructor)) as [Hs Hp]. rewrite app_nil_r in Hp.
  rewrite pop_due_sorted by done. fold entries in Hp. fold heap in Hs, Hp.
  assert (∀ p, List.filter p heap ≡ₚ List.filter p entries) as Hperm.
  { intros p. clear -Hp. induction Hp as [|x l l' _ IH|x y l|l1 l2 l3 _ IH1 _ IH2]; cbn; [done| | |].
    - destruct (p x); [by constructor|done].
    - destruct (p x), (p y); try done. apply perm_swap.
    - by transitivity (List.filter p l2). }
  split_and!.
  - rewrite Nat.add_0_l. apply Permutation_length, Hperm.
  - apply Hperm.
  - clear -Hs. induction Hs as [|x h Hs IH Hall]; cbn; [constructor|].
    destruct (now <? fire_at_ts x); [|done]. constructor; [done|]. by apply Forall_filter_bool.
Qed.

Definition year : Z := 365 * 24 * 3600.

(** hydration is not complete.  A wakeup that is pending with a deadline
    more than a year ahead is not put on the heap at startup, although the
    code says that every pending row is, regardless of its deadline. *)
Theorem hydrate_skips_far_wakeups now d heap :
  in_i64 (now + year) →
  (∀ r, r ∈ state_outbox d → ob_status r = "pending" ∧
     ∃ t, ob_next_attempt_at r = Some t ∧ now + year < t) →
  hydrate_from_outbox now d heap = (0, heap).
Proof.
  intros Hin Hfar. unfold hydrate_from_outbox. change (365 * 24 * 3600) with year.
  rewrite i64_add_id by done. unfold ready_pending.
  rewrite (filter_none (is_ready (now + year)) (state_outbox d)); [done|].
  intros r Hr. destruct (Hfar r Hr) as (Hs & t & Ht & Hlt). unfold is_ready, has_status, expired.
  rewrite Hs, Ht. cbn. rewrite orb_false_r. by apply Z.leb_gt.
Qed.

(** ** Closed examples *)

Definition toy_sink (answer : result DispatchError DispatchReceipt) (safety : DeliverySafety) : Dispatcher :=
  mkDispatcher safety (λ _ d, (answer, d)) (λ _ d, (Err "no lookup", d)).

Lemma toy_sink_quiet answer safety id : quiet (toy_sink answer safety) id.
Proof. by split. Qed.

Definition toy_registry (answer : result DispatchError DispatchReceipt) : DispatcherRegistry :=
  {["transport.send" := toy_sink answer NoGuarantee]}.
Definition toy_cfg : DrainConfig := mkDrain 32 default_budget.

Lemma drain_row_settles_witness :
  ∃ r d' r', row_of 1 toy_queue = Some r ∧
    drain_row (toy_registry (Err (NotAccepted "busy"))) toy_cfg "relay:1:200" 200 (row_to_outbox r) toy_queue
      = (Ok Processed, d') ∧ row_of 1 d' = Some r' ∧ ob_status r' ≠ "in_flight".
Proof.
  destruct (row_of 1 toy_queue) as [r|] eqn:Hr; [|discriminate Hr].
  destruct (drain_row_settles (toy_registry (Err (NotAccepted "busy"))) toy_cfg "relay:1:200" 200 toy_queue 1 r
    (toy_sink (Err (NotAccepted "busy")) NoGuarantee)) as (d1 & d' & r' & Hd & _ & _ & Hr' & _ & Hs & _).
  - apply toy_queue_wf.
  - exact Hr.
  - vm_compute in Hr. injection Hr as <-. reflexivity.
  - vm_compute in Hr. injection Hr as <-. vm_compute. reflexivity.
  - apply toy_sink_quiet.
  - exists r, d', r'. split; [reflexivity|]. split; [exact Hd|]. split; [exact Hr'|exact Hs].
Defined.

(** A send whose relay died: in flight, with its lease over at 200. *)
Definition toy_abandoned : Db := outbox_runs [OpClaim 1 "relay" 100 30] toy_queue.

Lemma toy_abandoned_wf : outbox_wf toy_abandoned.
Proof.
  apply (ev_wf toy_queue); [|apply toy_queue_wf].
  apply (outbox_run_evolves (OpClaim 1 "relay" 100 30)). vm_compute. reflexivity.
Qed.

Lemma no_blind_resend_witness :
  ∃ r, row_of 1 toy_abandoned = Some r ∧
    ∃ d' r', drain_row (toy_registry (Ok (mkReceipt None))) toy_cfg "relay:2:200" 200 (row_to_outbox r)
      toy_abandoned = (Ok Processed, d') ∧ row_of 1 d' = Some r' ∧ ob_status r' = "unknown".
Proof.
  destruct (row_of 1 toy_abandoned) as [r|] eqn:Hr; [|discriminate Hr]. exists r. split; [reflexivity|].
  refine (proj2 (no_blind_resend (toy_registry (Ok (mkReceipt None))) toy_cfg "relay:2:200" 200 toy_abandoned
    1 r (toy_sink (Ok (mkReceipt None)) NoGuarantee) (λ _ d, (Ok (mkReceipt None), d))
    (λ _ d, (Ok RecNotDelivered, d)) _ _ _ _ _ _ _)).
  - apply toy_abandoned_wf.
  - exact Hr.
  - vm_compute in Hr. injection Hr as <-. vm_compute. reflexivity.
  - vm_compute in Hr. injection Hr as <-. reflexivity.
  - vm_compute in Hr. injection Hr as <-. vm_compute. reflexivity.
  - reflexivity.
  - apply toy_sink_quiet.
Defined.

Lemma budget_exhausts_witness :
  let '(bs, d') := fail_times 1 3 [(1, "a", 2); (5, "b", 4); (9, "c", 8)] toy_queue in
  bs = [Ok true; Ok true; Ok false] ∧
  ∃ r', row_of 1 d' = Some r' ∧ ob_attempts r' = 3 ∧ ob_status r' = "dead_letter".
Proof.
  destruct (row_of 1 toy_queue) as [r|] eqn:Hr; [|discriminate Hr].
  refine (budget_exhausts 1 3 [(1, "a", 2); (5, "b", 4); (9, "c", 8)] toy_queue r Hr _ _ _ _).
  - vm_compute in Hr. injection Hr as <-. reflexivity.
  - cbn. lia.
  - vm_compute. discriminate.
  - discriminate.
Defined.

Definition far_wakeup : OutboxRow :=
  mkOutboxRow None "c:2:0" "c" "schedule.wakeup" [] Pending 0 (Some 40000000) None 2.

Lemma hydrate_skips_far_wakeups_witness :
  length (state_outbox (outbox_runs [OpEnqueue 1 far_wakeup] empty_db)) = 1%nat ∧
  hydrate_from_outbox 1 (outbox_runs [OpEnqueue 1 far_wakeup] empty_db) [] = (0, []).
Proof.
  split; [reflexivity|]. apply hydrate_skips_far_wakeups.
  - vm_compute. split; discriminate.
  - intros r Hr. vm_compute in Hr. apply list_elem_of_singleton in Hr as ->.
    split; [reflexivity|]. exists 40000000. split; [reflexivity|]. vm_compute. reflexivity.
Defined.
