(* ===== verification/Session.v ===== *)
(** * The session state machine

    [crates/session/src/lib.rs]: the states and events of a conversation
    session, [Session::transition], and the protocol it refines. *)

From S2P Require Import Prelude.

(** [crates/core/src/conversation.rs], [enum Modality]. *)
Inductive Modality : Type := Text | Voice.

Inductive SessionState : Type :=
| Idle
| Active
| AwaitingApproval
| Completing
| Closed.

Inductive SessionEvent : Type :=
| TurnStarted
| ApprovalRequired
| ApprovalResolved
| TurnCompleted
| ConversationClosed.

#[global] Instance SessionState_eq_dec : EqDecision SessionState.
Proof. solve_decision. Defined.
#[global] Instance SessionEvent_eq_dec : EqDecision SessionEvent.
Proof. solve_decision. Defined.

Record SessionError : Type := mkSessionError {
  err_state : SessionState;
  err_event : SessionEvent
}.

Record Session : Type := mkSession {
  conversation_id : string;
  modality : Modality;
  state : SessionState
}.

Definition new (conversation_id : string) (modality : Modality) : Session :=
  mkSession conversation_id modality Idle.

Definition set_state (s : Session) (next : SessionState) : Session :=
  mkSession (conversation_id s) (modality s) next.

(** [Session::transition].  On an error the session is left as it was. *)
Definition transition (s : Session) (event : SessionEvent) : result SessionError () * Session :=
  match state s, event with
  | Idle, TurnStarted => (Ok (), set_state s Active)
  | Idle, ConversationClosed => (Ok (), set_state s Closed)
  | Active, ApprovalRequired => (Ok (), set_state s AwaitingApproval)
  | Active, TurnCompleted => (Ok (), set_state s Idle)
  | Active, ConversationClosed => (Ok (), set_state s Closed)
  | AwaitingApproval, ApprovalResolved => (Ok (), set_state s Active)
  | AwaitingApproval, ConversationClosed => (Ok (), set_state s Closed)
  | Completing, ConversationClosed => (Ok (), set_state s Closed)
  | _, _ => (Err (mkSessionError (state s) event), s)
  end.

(** Drive the machine with a sequence of events, collecting the answers. *)
Fixpoint run (s : Session) (es : list SessionEvent) : list (result SessionError ()) * Session :=
  match es with
  | [] => ([], s)
  | e :: es =>
      let '(r, s1) := transition s e in
      let '(rs, s2) := run s1 es in (r :: rs, s2)
  end.

(** ** The protocol, stated without the state enumeration

    Three independent facts describe a conversation: whether it is closed,
    whether a turn is open, and whether that turn waits for an approval. *)
Record Protocol : Type := mkProtocol {
  closed : bool;
  turn_open : bool;
  approval_open : bool
}.

Definition fresh : Protocol := mkProtocol false false false.

Definition permitted (p : Protocol) (e : SessionEvent) : bool :=
  negb (closed p) &&
  match e with
  | TurnStarted => negb (turn_open p)
  | ApprovalRequired => turn_open p && negb (approval_open p)
  | ApprovalResolved => turn_open p && approval_open p
  | TurnCompleted => turn_open p && negb (approval_open p)
  | ConversationClosed => true
  end.

Definition effect (p : Protocol) (e : SessionEvent) : Protocol :=
  if permitted p e then
    match e with
    | TurnStarted => mkProtocol false true false
    | ApprovalRequired => mkProtocol false true true
    | ApprovalResolved => mkProtocol false true false
    | TurnCompleted => mkProtocol false false false
    | ConversationClosed => mkProtocol true false false
    end
  else p.

(** The state that represents a protocol position. *)
Definition represents (p : Protocol) (st : SessionState) : Prop :=
  match st with
  | Idle => p = mkProtocol false false false
  | Active => p = mkProtocol false true false
  | AwaitingApproval => p = mkProtocol false true true
  | Closed => p = mkProtocol true false false
  | Completing => False
  end.

Fixpoint protocol_run (p : Protocol) (es : list SessionEvent) : list bool * Protocol :=
  match es with
  | [] => ([], p)
  | e :: es =>
      let '(bs, p') := protocol_run (effect p e) es in (permitted p e :: bs, p')
  end.

(** ** Refinement *)

Lemma transition_simulates p s e :
  represents p (state s) →
  is_ok (transition s e).1 = permitted p e ∧
  represents (effect p e) (state (transition s e).2) ∧
  conversation_id (transition s e).2 = conversation_id s ∧
  modality (transition s e).2 = modality s.
Proof.
  destruct s as [c m st]; destruct st; cbn; intros Hp; try done; subst p;
    destruct e; done.
Qed.

Lemma transition_error_details s e err s' :
  transition s e = (Err err, s') →
  err = mkSessionError (state s) e ∧ s' = s.
Proof.
  destruct s as [c m st]; destruct st, e; cbn; intros H; by simplify_eq.
Qed.

Lemma run_simulates es p s :
  represents p (state s) →
  map is_ok (run s es).1 = (protocol_run p es).1 ∧
  represents (protocol_run p es).2 (state (run s es).2) ∧
  conversation_id (run s es).2 = conversation_id s ∧
  modality (run s es).2 = modality s.
Proof.
  revert p s. induction es as [|e es IH]; intros p s Hp; [done|].
  destruct (transition_simulates p s e Hp) as (Hok & Hrep & Hc & Hm). cbn.
  destruct (transition s e) as [r s1]. cbn in *.
  destruct (IH _ _ Hrep) as (IHok & IHrep & IHc & IHm).
  destruct (run s1 es) as [rs s2], (protocol_run (effect p e) es) as [bs p2]. cbn in *.
  repeat split; congruence.
Qed.

(** the session machine implements the conversation protocol: started in
    [Session::new] and fed any sequence of events, legal or not, it accepts
    exactly the events the protocol permits (a turn opens only when none is
    open, completes only with no approval pending, nothing is accepted after
    the close), ends in the state that represents the protocol's position,
    and keeps the conversation and modality it was created with.  Since no
    protocol position is represented by [Completing], that state is never
    entered. *)
Theorem session_refines_protocol c m es :
  map is_ok (run (new c m) es).1 = (protocol_run fresh es).1 ∧
  represents (protocol_run fresh es).2 (state (run (new c m) es).2) ∧
  state (run (new c m) es).2 ≠ Completing ∧
  conversation_id (run (new c m) es).2 = c ∧
  modality (run (new c m) es).2 = m.
Proof.
  destruct (run_simulates es fresh (new c m) eq_refl) as (Hok & Hrep & Hc & Hm).
  repeat split; [done..| |done|done].
  intros Hst. by rewrite Hst in Hrep.
Qed.
