(* ===== verification/TransitionModel.v ===== *)
(** * The critical transition contract

    [crates/core/src/transition_model.rs]: the bounded executable contract
    for run, approval, lease and outbox ownership, and the breadth-first
    exploration that checks it. *)

From S2P Require Import Prelude.

Inductive Action : Type :=
| ClaimA | ClaimB | ExpireLease | Restart | Approve | Deny
| Enqueue | Deliver | Cancel | Finish | CompleteA | CompleteB.

Inductive Work : Type := WPending | ClaimedA | ClaimedB | Completed | Cancelled.
Inductive Approval : Type := APending | Approved | Denied.
Inductive Effect : Type := Absent | EPending | Delivered.

#[global] Instance Action_eq_dec : EqDecision Action. Proof. solve_decision. Defined.
#[global] Instance Work_eq_dec : EqDecision Work. Proof. solve_decision. Defined.
#[global] Instance Approval_eq_dec : EqDecision Approval. Proof. solve_decision. Defined.
#[global] Instance Effect_eq_dec : EqDecision Effect. Proof. solve_decision. Defined.

Record State : Type := mkState {
  work : Work;
  lease_live : bool;
  approval : Approval;
  effect : Effect;
  terminal : bool;
  cancelled : bool
}.
#[global] Instance State_eq_dec : EqDecision State. Proof. solve_decision. Defined.

Definition initial : State := mkState WPending false APending Absent false false.

Definition with_claim (s : State) (w : Work) : State :=
  mkState w true (approval s) (effect s) (terminal s) (cancelled s).

(** [State::complete_by] *)
Definition complete_by (s : State) (worker : Work) : option State :=
  if terminal s || cancelled s || negb (lease_live s) || bool_decide (work s ≠ worker)
  then None
  else Some (mkState Completed false (approval s) (effect s) (terminal s) (cancelled s)).

Definition claimable (s : State) : bool :=
  negb (terminal s) && negb (cancelled s) && negb (lease_live s).

(** [State::step].  The source consumes [self] in [complete_by(..).unwrap_or(self)]. *)
Definition step (s : State) (a : Action) : State :=
  match a with
  | CompleteA => default s (complete_by s ClaimedA)
  | CompleteB => default s (complete_by s ClaimedB)
  | ClaimA => if claimable s then with_claim s ClaimedA else s
  | ClaimB => if claimable s then with_claim s ClaimedB else s
  | ExpireLease =>
      if lease_live s
      then mkState (work s) false (approval s) (effect s) (terminal s) (cancelled s)
      else s
  | Restart => s
  | Approve =>
      if bool_decide (approval s = APending)
      then mkState (work s) (lease_live s) Approved (effect s) (terminal s) (cancelled s)
      else s
  | Deny =>
      if bool_decide (approval s = APending)
      then mkState (work s) (lease_live s) Denied (effect s) (terminal s) (cancelled s)
      else s
  | Enqueue =>
      if negb (terminal s) && negb (cancelled s) && bool_decide (approval s = Approved)
         && bool_decide (work s = Completed) && bool_decide (effect s = Absent)
      then mkState (work s) (lease_live s) (approval s) EPending (terminal s) (cancelled s)
      else s
  | Deliver =>
      if bool_decide (effect s = EPending)
      then mkState (work s) (lease_live s) (approval s) Delivered (terminal s) (cancelled s)
      else s
  | Cancel =>
      if negb (terminal s)
      then mkState (if bool_decide (work s = Completed) then work s else Cancelled)
             false (approval s) (effect s) (terminal s) true
      else s
  | Finish =>
      if negb (cancelled s) && bool_decide (work s = Completed)
         && bool_decide (approval s = Approved)
         && bool_decide (effect s = Absent ∨ effect s = Delivered)
      then mkState (work s) (lease_live s) (approval s) (effect s) true (cancelled s)
      else s
  end.

(** [State::is_safe] *)
Definition is_safe (s : State) : bool :=
  let unresolved :=
    bool_decide (work s ≠ Completed) || bool_decide (approval s ≠ Approved)
    || bool_decide (effect s = EPending) in
  negb (terminal s) || negb unresolved.

(** ** The exploration *)

Record TransitionModelReport : Type := mkReport {
  explored_states : nat;
  explored_transitions : nat;
  max_depth : nat
}.

Definition actions : list Action :=
  [ClaimA; ClaimB; ExpireLease; Restart; Approve; Deny;
   Enqueue; Deliver; Cancel; Finish; CompleteA; CompleteB].

(** What the exploration reports instead of a report: the unsafe trace. *)
Definition Counterexample : Type := list Action * State.

Record Frontier : Type := mkFrontier {
  queue : list (State * list Action);
  seen : list State;
  transitions : nat
}.

(** The inner loop over [actions] for one popped state. *)
Fixpoint expand (s : State) (trace : list Action) (acts : list Action) (f : Frontier)
    : result Counterexample Frontier :=
  match acts with
  | [] => Ok f
  | a :: acts =>
      let next := step s a in
      let transitions := S (transitions f) in
      if negb (is_safe next) then Err (trace ++ [a], next)
      else if bool_decide (next ∈ seen f)
      then expand s trace acts (mkFrontier (queue f) (seen f) transitions)
      else expand s trace acts
             (mkFrontier (queue f ++ [(next, trace ++ [a])]) (next :: seen f) transitions)
  end.

(** The outer loop; [None] is running out of fuel. *)
Fixpoint explore (fuel : nat) (depth_limit : nat) (f : Frontier)
    : option (result Counterexample Frontier) :=
  match queue f with
  | [] => Some (Ok f)
  | (s, trace) :: rest =>
      match fuel with
      | O => None
      | S fuel =>
          if negb (is_safe s) then Some (Err (trace, s))
          else if (depth_limit <=? length trace)%nat
          then explore fuel depth_limit (mkFrontier rest (seen f) (transitions f))
          else match expand s trace actions (mkFrontier rest (seen f) (transitions f)) with
               | Ok f' => explore fuel depth_limit f'
               | Err e => Some (Err e)
               end
      end
  end.

Definition start : Frontier := mkFrontier [(initial, [])] [initial] 0.

Definition check_critical_transitions (fuel depth_limit : nat)
    : option (result Counterexample TransitionModelReport) :=
  match explore fuel depth_limit start with
  | Some (Ok f) => Some (Ok (mkReport (length (seen f)) (transitions f) depth_limit))
  | Some (Err e) => Some (Err e)
  | None => None
  end.

(** Every state there is: the fuel bound. *)
Definition all_states : list State :=
  w ← [WPending; ClaimedA; ClaimedB; Completed; Cancelled];
  l ← [true; false]; a ← [APending; Approved; Denied];
  e ← [Absent; EPending; Delivered]; t ← [true; false]; c ← [true; false];
  [mkState w l a e t c].

Definition exploration_fuel : nat := 360.

(** ** Safety of every reachable state *)

Ltac decide_step :=
  repeat match goal with
  | |- context [bool_decide ?P] => destruct (bool_decide_reflect P)
  end.

Lemma all_states_complete s : s ∈ all_states.
Proof.
  destruct s as [w l a e t c]. unfold all_states.
  apply list_elem_of_bind. exists w. split; [|destruct w; set_solver].
  apply list_elem_of_bind. exists l. split; [|destruct l; set_solver].
  apply list_elem_of_bind. exists a. split; [|destruct a; set_solver].
  apply list_elem_of_bind. exists e. split; [|destruct e; set_solver].
  apply list_elem_of_bind. exists t. split; [|destruct t; set_solver].
  apply list_elem_of_bind. exists c. split; [|destruct c; set_solver].
  set_solver.
Qed.

Lemma actions_complete a : a ∈ actions.
Proof. destruct a; unfold actions; set_solver. Qed.

(** A boolean fact about every state, or every state and action, holds when
    it holds on the enumeration. *)
Lemma for_all_states (p : State → bool) s : forallb p all_states = true → p s = true.
Proof.
  rewrite forallb_forall. intros H. apply H, list_elem_of_In, all_states_complete.
Qed.

Lemma for_all_steps (p : State → Action → bool) s a :
  forallb (λ s, forallb (p s) actions) all_states = true → p s a = true.
Proof.
  intros H%(for_all_states (λ s, forallb (p s) actions) s). rewrite forallb_forall in H.
  apply H, list_elem_of_In, actions_complete.
Qed.

Lemma step_safe s a : is_safe s = true → is_safe (step s a) = true.
Proof.
  rewrite <-implb_true_iff.
  apply (for_all_steps (λ s a, implb (is_safe s) (is_safe (step s a)))). by vm_compute.
Qed.

Definition reachable (s : State) : Prop := ∃ trace, s = foldl step initial trace.

Lemma reachable_step s a : reachable s → reachable (step s a).
Proof. intros [trace ->]. exists (trace ++ [a]). by rewrite foldl_app. Qed.

Lemma foldl_step_safe trace s : is_safe s = true → is_safe (foldl step s trace) = true.
Proof. revert s. induction trace as [|a tr IH]; cbn; auto using step_safe. Qed.

Lemma reachable_safe s : reachable s → is_safe s = true.
Proof. intros [trace ->]. by apply foldl_step_safe. Qed.

(** ** The exploration terminates and finds nothing *)

Record frontier_ok (f : Frontier) : Prop := {
  fo_nodup : NoDup (seen f);
  fo_seen : Forall reachable (seen f);
  fo_queue : Forall (λ st, st.1 = foldl step initial st.2) (queue f)
}.

Definition budget (f : Frontier) : nat := length (queue f) + (360 - length (seen f)).

Lemma seen_bounded f : frontier_ok f → (length (seen f) ≤ 360)%nat.
Proof.
  intros Hf. change 360%nat with (length all_states).
  apply submseteq_length, NoDup_submseteq; [apply Hf|].
  intros s _. apply all_states_complete.
Qed.

Lemma expand_ok s trace acts f :
  s = foldl step initial trace → frontier_ok f →
  ∃ f', expand s trace acts f = Ok f' ∧ frontier_ok f' ∧ (budget f' ≤ budget f)%nat ∧
        transitions f' = (transitions f + length acts)%nat.
Proof.
  intros Hs. revert f. induction acts as [|a acts IH]; intros f Hf; cbn [expand length].
  { exists f. repeat split; [apply Hf..|lia|lia]. }
  assert (step s a = foldl step initial (trace ++ [a])) as Hnext
    by (rewrite foldl_app; cbn; by rewrite <-Hs).
  assert (reachable (step s a)) as Hr by (exists (trace ++ [a]); done).
  rewrite (reachable_safe _ Hr). cbn [negb].
  case_bool_decide as Hin.
  - destruct (IH (mkFrontier (queue f) (seen f) (S (transitions f)))) as (f' & He & Hf' & Hb & Ht).
    { destruct Hf. by constructor. }
    exists f'. cbn in Ht. repeat split; [done|apply Hf'..|done|lia].
  - assert (frontier_ok (mkFrontier (queue f ++ [(step s a, trace ++ [a])])
             (step s a :: seen f) (S (transitions f)))) as Hf1.
    { destruct Hf. constructor; cbn.
      - by apply NoDup_cons.
      - by apply Forall_cons.
      - apply Forall_app. by rewrite Forall_singleton. }
    destruct (IH _ Hf1) as (f' & He & Hf' & Hb & Ht).
    exists f'. cbn in Ht. repeat split; [done|apply Hf'..| |lia].
    pose proof (seen_bounded _ Hf1) as Hbound.
    unfold budget in *. cbn in Hb, Hbound. rewrite length_app in Hb. cbn in Hb. lia.
Qed.

Lemma explore_nil fuel depth_limit sn t :
  explore fuel depth_limit (mkFrontier [] sn t) = Some (Ok (mkFrontier [] sn t)).
Proof. by destruct fuel. Qed.

Lemma explore_cons fuel depth_limit s trace rest sn t :
  is_safe s = true →
  explore (S fuel) depth_limit (mkFrontier ((s, trace) :: rest) sn t) =
  if (depth_limit <=? length trace)%nat
  then explore fuel depth_limit (mkFrontier rest sn t)
  else match expand s trace actions (mkFrontier rest sn t) with
       | Ok f' => explore fuel depth_limit f'
       | Err e => Some (Err e)
       end.
Proof. intros Hs. lazy beta iota delta [explore queue seen transitions]. by rewrite Hs. Qed.

Lemma explore_ok fuel depth_limit f :
  frontier_ok f → (budget f ≤ fuel)%nat →
  ∃ f', explore fuel depth_limit f = Some (Ok f') ∧ frontier_ok f'.
Proof.
  revert f. induction fuel as [|fuel IH]; intros [q sn t] Hf Hb;
    (destruct q as [|[s trace] rest]; [rewrite explore_nil; by eexists|]).
  { unfold budget in Hb. cbn in Hb. lia. }
  destruct Hf as [Hnd Hs Hq]. apply Forall_cons in Hq as [Hst Hrest].
  rewrite explore_cons by (apply reachable_safe; by exists trace).
  assert (frontier_ok (mkFrontier rest sn t)) as Hf1 by by constructor.
  assert (budget (mkFrontier rest sn t) ≤ fuel)%nat as Hb1
    by (unfold budget in *; cbn in *; lia).
  destruct (depth_limit <=? length trace)%nat; [by apply IH|].
  destruct (expand_ok s trace actions _ Hst Hf1) as (f' & -> & Hf' & Hb' & _).
  apply IH; [done|lia].
Qed.

(** the exploration of the transition contract always terminates and never
    produces a counterexample, whatever the requested depth: popping at most
    [exploration_fuel] states (the number of states of the contract) it
    returns a report, and the contract's safety condition (a run is terminal
    only when its work is completed, its approval granted and its effect not
    pending) holds after every sequence of actions of any length, beyond the
    depth that was explored. *)
Theorem check_critical_transitions_ok depth_limit :
  (∃ report, check_critical_transitions exploration_fuel depth_limit = Some (Ok report) ∧
     max_depth report = depth_limit ∧ (explored_states report ≤ 360)%nat) ∧
  ∀ trace, is_safe (foldl step initial trace) = true.
Proof.
  split.
  - assert (frontier_ok start) as Hstart.
    { constructor; cbn; repeat constructor; [set_solver|]. by exists []. }
    destruct (explore_ok exploration_fuel depth_limit start Hstart) as (f & Hf & Hok).
    { unfold budget, exploration_fuel. cbn. lia. }
    unfold check_critical_transitions. rewrite Hf. eexists. repeat split.
    by apply seen_bounded.
  - intros trace. by apply foldl_step_safe.
Qed.

(** ** Lease ownership along a trace *)

Definition worker_claim (w : Work) : option Action :=
  match w with ClaimedA => Some ClaimA | ClaimedB => Some ClaimB | _ => None end.

Definition worker_complete (w : Work) : option Action :=
  match w with ClaimedA => Some CompleteA | ClaimedB => Some CompleteB | _ => None end.

(** The worker the latest effective claim of [trace] belongs to, while its
    lease has neither expired nor been withdrawn by a completion or a
    cancellation. *)
Definition holder (s : State) : option Work :=
  if lease_live s && negb (terminal s) && negb (cancelled s) then Some (work s) else None.

Definition next_holder (h : option Work) (s : State) (a : Action) : option Work :=
  match a with
  | ClaimA => if claimable s then Some ClaimedA else h
  | ClaimB => if claimable s then Some ClaimedB else h
  | ExpireLease => None
  | Cancel => if terminal s then h else None
  | CompleteA => if bool_decide (h = Some ClaimedA) then None else h
  | CompleteB => if bool_decide (h = Some ClaimedB) then None else h
  | _ => h
  end.

Fixpoint owner_after (h : option Work) (s : State) (trace : list Action) : option Work :=
  match trace with
  | [] => h
  | a :: trace => owner_after (next_holder h s a) (step s a) trace
  end.

(** Leases are only live on claimed work of an open run. *)
Definition lease_inv (s : State) : bool :=
  implb (lease_live s)
    ((bool_decide (work s = ClaimedA) || bool_decide (work s = ClaimedB))
     && negb (terminal s) && negb (cancelled s)).

Lemma step_lease_inv s a : lease_inv s = true → lease_inv (step s a) = true.
Proof.
  rewrite <-implb_true_iff.
  apply (for_all_steps (λ s a, implb (lease_inv s) (lease_inv (step s a)))). by vm_compute.
Qed.

Definition holder_agrees (s : State) (a : Action) : bool :=
  implb (lease_inv s) (bool_decide (holder (step s a) = next_holder (holder s) s a)).

Definition completion_agrees (w : Work) (s : State) : bool :=
  implb (lease_inv s) (bool_decide (is_Some (complete_by s w) ↔ holder s = Some w)).

Lemma holder_step s a :
  lease_inv s = true → holder (step s a) = next_holder (holder s) s a.
Proof.
  assert (holder_agrees s a = true) as H by (apply for_all_steps; by vm_compute).
  unfold holder_agrees in H. rewrite implb_true_iff in H.
  intros Hs. by eapply bool_decide_eq_true_1, H.
Qed.

Lemma owner_after_holder trace s :
  lease_inv s = true → owner_after (holder s) s trace = holder (foldl step s trace).
Proof.
  revert s. induction trace as [|a tr IH]; intros s Hs; cbn; [done|].
  rewrite <-holder_step by done. apply IH. by apply step_lease_inv.
Qed.

Lemma complete_by_holder s w :
  (w = ClaimedA ∨ w = ClaimedB) → lease_inv s = true →
  is_Some (complete_by s w) ↔ holder s = Some w.
Proof.
  intros Hw Hs.
  assert (completion_agrees w s = true) as H.
  { apply for_all_states. destruct Hw as [-> | ->]; by vm_compute. }
  unfold completion_agrees in H. rewrite implb_true_iff in H.
  by eapply bool_decide_eq_true_1, H.
Qed.

(** the lease fences workers: after any sequence of actions (duplicate
    claims, expiries, restarts, cancellation, in any order) a worker can
    complete the work if and only if it is the owner by the claim history,
    that is, its claim was the last effective one and has since been neither
    expired, completed nor cancelled.  In particular a worker whose lease
    expired and was taken over cannot complete. *)
Theorem completion_requires_current_lease trace w :
  w = ClaimedA ∨ w = ClaimedB →
  is_Some (complete_by (foldl step initial trace) w) ↔
  owner_after None initial trace = Some w.
Proof.
  intros Hw. change None with (holder initial) at 1.
  rewrite owner_after_holder by done. apply complete_by_holder; [done|].
  assert (∀ tr s, lease_inv s = true → lease_inv (foldl step s tr) = true) as H.
  { induction tr as [|a tr IH]; cbn; auto using step_lease_inv. }
  by apply H.
Qed.

Lemma completion_requires_current_lease_witness :
  is_Some (complete_by (foldl step initial [ClaimA; ExpireLease; ClaimB]) ClaimedB) ↔
  owner_after None initial [ClaimA; ExpireLease; ClaimB] = Some ClaimedB.
Proof.
  apply (completion_requires_current_lease [ClaimA; ExpireLease; ClaimB] ClaimedB).
  by right.
Defined.
