(* ===== verification/Information.v ===== *)
(** * Information labels

    [crates/core/src/information.rs]: the labels carried beside data, how they
    are combined when a model's output has several inputs, and which
    destinations a label permits.  A [BTreeSet<String>] is a [gset string]. *)

From Stdlib Require Import Strings.Ascii.
From S2P Require Import Prelude Wire Text.

(** ** Data *)

Inductive Sensitivity : Type := Public | Internal | Sensitive | Secret.

#[global] Instance Sensitivity_eq_dec : EqDecision Sensitivity.
Proof. solve_decision. Defined.

Record ProvenanceEntry : Type := mkEntry {
  source_kind : string;
  source_id : string;
  entry_owner_id : option string;
  trust_class : string;
  transformation : option string
}.

#[global] Instance ProvenanceEntry_eq_dec : EqDecision ProvenanceEntry.
Proof. solve_decision. Defined.

Record DeclassificationRecord : Type := mkDeclass {
  actor_id : string;
  destination : string;
  scope : string;
  authorized_at : Z
}.

Record InformationLabel : Type := mkLabel {
  sensitivity : Sensitivity;
  owner_id : option string;
  source_trust_class : string;
  allowed_destinations : gset string;
  provenance : list ProvenanceEntry;
  declassification : option DeclassificationRecord;
  authority_principal_id : option string;
  authority_fingerprint : option string;
  authority_policy_revision : option Z
}.

(** ** Operations *)

(** The derived [Ord] of [Sensitivity] and its [max]. *)
Definition sens_rank (s : Sensitivity) : Z :=
  match s with Public => 0 | Internal => 1 | Sensitive => 2 | Secret => 3 end.
Definition sens_max (a b : Sensitivity) : Sensitivity :=
  if sens_rank a <=? sens_rank b then b else a.

Definition trust_rank (class : string) : Z :=
  if String.eqb class "Controller" then 5
  else if String.eqb class "Delegated" then 4
  else if String.eqb class "KnownTrusted" then 3
  else if String.eqb class "KnownLimited" then 2
  else if String.eqb class "UnknownPending" then 1
  else 0.

Definition observed (sens : Sensitivity) (owner : option string) (class kind id : string)
    (dests : list string) : InformationLabel :=
  mkLabel sens owner class (list_to_set dests) [mkEntry kind id owner class None]
    None None None None.

Definition with_authority (l : InformationLabel) (principal fingerprint : string) : InformationLabel :=
  mkLabel (sensitivity l) (owner_id l) (source_trust_class l) (allowed_destinations l) (provenance l)
    (declassification l) (Some principal) (Some fingerprint) (authority_policy_revision l).

Definition with_policy_revision (l : InformationLabel) (revision : Z) : InformationLabel :=
  mkLabel (sensitivity l) (owner_id l) (source_trust_class l) (allowed_destinations l) (provenance l)
    (declassification l) (authority_principal_id l) (authority_fingerprint l) (Some revision).

(** [entry.transformation = Some(operation.clone())] *)
Definition stamp (op : string) (e : ProvenanceEntry) : ProvenanceEntry :=
  mkEntry (source_kind e) (source_id e) (entry_owner_id e) (trust_class e) (Some op).

Definition transformed (l : InformationLabel) (op : string) : InformationLabel :=
  mkLabel (sensitivity l) (owner_id l) (source_trust_class l) (allowed_destinations l)
    (map (stamp op) (provenance l)) None
    (authority_principal_id l) (authority_fingerprint l) (authority_policy_revision l).

(** The destination two patterns contribute to the intersection. *)
Definition meet (first second : string) : option string :=
  let by_second :=
    match strip_suffix_char "*" second with
    | Some prefix => if starts_with first prefix then Some first else None
    | None => None
    end in
  if String.eqb first second then Some first
  else match strip_suffix_char "*" first with
       | Some prefix => if starts_with second prefix then Some second else by_second
       | None => by_second
       end.

Definition destination_intersection (left right : gset string) : gset string :=
  list_to_set (flat_map (λ first, omap (meet first) (elements right)) (elements left)).

(** [if !combined.provenance.contains(entry) { push }] *)
Definition push_new (acc : list ProvenanceEntry) (e : ProvenanceEntry) : list ProvenanceEntry :=
  if bool_decide (e ∈ acc) then acc else acc ++ [e].

(** One iteration of the loop in [combine]. *)
Definition join (c l : InformationLabel) : InformationLabel :=
  mkLabel (sens_max (sensitivity c) (sensitivity l))
    (if bool_decide (owner_id c ≠ owner_id l) then None else owner_id c)
    (if trust_rank (source_trust_class l) <? trust_rank (source_trust_class c)
     then source_trust_class l else source_trust_class c)
    (destination_intersection (allowed_destinations c) (allowed_destinations l))
    (foldl push_new (provenance c) (provenance l))
    (declassification c) (authority_principal_id c) (authority_fingerprint c)
    (authority_policy_revision c).

(** [(left == right).then_some(left).flatten()] *)
Definition same_revision (left right : option Z) : option Z :=
  if bool_decide (left = right) then left else None.

Definition combine (labels : list InformationLabel) (op : string) : option InformationLabel :=
  match labels with
  | [] => None
  | l :: ls =>
      let c := foldl join l ls in
      Some (mkLabel (sensitivity c) (owner_id c) (source_trust_class c) (allowed_destinations c)
        (map (stamp op) (provenance c)) None
        (authority_principal_id c) (authority_fingerprint c)
        (foldl same_revision (authority_policy_revision l) (map authority_policy_revision ls)))
  end.

(** The test of one allowed destination. *)
Definition allows (allowed dest : string) : bool :=
  String.eqb allowed dest
  || match strip_suffix_char "*" allowed with
     | Some prefix => starts_with dest prefix
     | None => false
     end.

Definition declassified_for (l : InformationLabel) (dest : string) : bool :=
  match declassification l with
  | Some record => String.eqb (destination record) dest
  | None => false
  end.

Definition permits_destination (l : InformationLabel) (dest : string) : bool :=
  existsb (λ allowed, allows allowed dest) (elements (allowed_destinations l))
  || declassified_for l dest.

Definition declassify (l : InformationLabel) (actor dest scp : string) (at_ : Z) :
    result string unit * InformationLabel :=
  if String.eqb actor "" || String.eqb dest "" || String.eqb scp ""
  then (Err "declassification requires actor, destination, and scope", l)
  else (Ok (),
    mkLabel (sensitivity l) (owner_id l) (source_trust_class l) (allowed_destinations l)
      (provenance l) (Some (mkDeclass actor dest scp at_))
      (authority_principal_id l) (authority_fingerprint l) (authority_policy_revision l)).

(** ** Destination patterns *)

Lemma allows_spec a d :
  allows a d = true ↔ d = a ∨ ∃ p r, a = p +:+ "*" ∧ d = p +:+ r.
Proof.
  unfold allows. rewrite orb_true_iff, String.eqb_eq. split; (intros [?|H]; [by left|right]).
  - destruct (strip_suffix_char "*" a) as [p|] eqn:Hp; [|done].
    apply strip_suffix_char_Some in Hp. apply starts_with_spec in H as [r Hr]. by exists p, r.
  - destruct H as (p & r & Hp & Hr). apply strip_suffix_char_Some in Hp. rewrite Hp.
    apply starts_with_spec. by exists r.
Qed.

(** Patterns that do not end in two stars. *)
Definition single_star (a : string) : Prop := ∀ q, a ≠ q +:+ "**".

Lemma star_below p r d :
  single_star (p +:+ "*") → allows (p +:+ r) d = true → allows (p +:+ "*") d = true.
Proof.
  intros Hss. rewrite !allows_spec. intros [->|(q & z & Heq & ->)]; right; [by exists p, r|].
  destruct (append_eq_cases _ _ _ _ Heq) as [(x & -> & Hx)|(x & -> & _)].
  - destruct x as [|c x].
    + exists q, z. by rewrite append_empty_r.
    + exfalso. rewrite append_cons in Hx. injection Hx as <- Hx. destruct x; [|done].
      apply (Hss q). by rewrite append_assoc.
  - exists p, (x +:+ z). by rewrite append_assoc.
Qed.

(** [b] starts with what [a] has before its final star. *)
Definition below (a b : string) : bool :=
  match strip_suffix_char "*" a with Some p => starts_with b p | None => false end.

Lemma below_spec a b : below a b = true ↔ ∃ p r, a = p +:+ "*" ∧ b = p +:+ r.
Proof.
  unfold below. destruct (strip_suffix_char "*" a) as [p|] eqn:Hp.
  - apply strip_suffix_char_Some in Hp as ->. rewrite starts_with_spec. split.
    + intros [r ->]. by exists p, r.
    + intros (q & r & Hq & ->). exists r. f_equal.
      by apply (f_equal (strip_suffix_char "*")) in Hq;
        rewrite !(proj2 (strip_suffix_char_Some _ _ _) eq_refl) in Hq; injection Hq.
  - split; [done|]. intros (q & r & Hq%strip_suffix_char_Some & _). congruence.
Qed.

Lemma allows_below a d : allows a d = String.eqb a d || below a d.
Proof. done. Qed.

Lemma meet_eq first second :
  meet first second =
    if String.eqb first second then Some first
    else if below first second then Some second
    else if below second first then Some first else None.
Proof.
  unfold meet, below. destruct (String.eqb first second); [done|].
  destruct (strip_suffix_char "*" first) as [p|]; [destruct (starts_with second p)|];
    destruct (strip_suffix_char "*" second) as [q|]; try destruct (starts_with first q); done.
Qed.

Lemma meet_Some first second m :
  meet first second = Some m →
  (first = second ∧ m = first) ∨ (m = second ∧ below first second = true)
  ∨ (m = first ∧ below second first = true).
Proof.
  rewrite meet_eq. destruct (String.eqb_spec first second) as [->|_]; [intros [= ->]; by left|].
  destruct (below first second); [intros [= ->]; auto|].
  destruct (below second first); [intros [= ->]; auto|done].
Qed.

Lemma meet_sound first second m d :
  single_star first → single_star second → meet first second = Some m → allows m d = true →
  allows first d = true ∧ allows second d = true.
Proof.
  intros H1 H2 [[-> ->]|[(-> & (p & r & -> & ->)%below_spec)|(-> & (p & r & -> & ->)%below_spec)]]%meet_Some
    Hd; eauto using star_below.
Qed.

(** The intersection loses nothing, whatever the patterns. *)
Lemma meet_complete first second d :
  allows first d = true → allows second d = true →
  ∃ m, meet first second = Some m ∧ allows m d = true.
Proof.
  intros H1 H2. rewrite meet_eq. destruct (String.eqb first second) eqn:He; [by exists first|].
  destruct (below first second) eqn:Hfs; [by exists second|].
  destruct (below second first) eqn:Hsf; [by exists first|]. exfalso.
  rewrite allows_below in H1, H2.
  apply orb_true_iff in H1 as [H1%String.eqb_eq|H1], H2 as [H2%String.eqb_eq|H2]; subst.
  - by rewrite String.eqb_refl in He.
  - congruence.
  - congruence.
  - apply below_spec in H1 as (p & r & -> & ->), H2 as (q & z & -> & Hd).
    apply not_true_iff_false in Hfs, Hsf. rewrite below_spec in Hfs, Hsf.
    destruct (append_eq_cases _ _ _ _ Hd) as [(x & -> & _)|(x & -> & _)].
    + apply Hsf. exists q, (x +:+ "*"). by rewrite append_assoc.
    + apply Hfs. exists p, (x +:+ "*"). by rewrite append_assoc.
Qed.

Lemma meet_single first second m :
  single_star first → single_star second → meet first second = Some m → single_star m.
Proof. by intros ? ? [[-> ->]|[(-> & _)|(-> & _)]]%meet_Some. Qed.

(** ** Destination sets *)

Definition permits_in (ds : gset string) (d : string) : bool :=
  existsb (λ allowed, allows allowed d) (elements ds).
Definition single_stars (ds : gset string) : Prop := set_Forall single_star ds.

Lemma permits_in_spec ds d : permits_in ds d = true ↔ ∃ a, a ∈ ds ∧ allows a d = true.
Proof. unfold permits_in. rewrite existsb_True. by setoid_rewrite elem_of_elements. Qed.

Lemma elem_of_intersection_spec left right m :
  m ∈ destination_intersection left right ↔
  ∃ f s, f ∈ left ∧ s ∈ right ∧ meet f s = Some m.
Proof.
  unfold destination_intersection. rewrite elem_of_list_to_set, list_elem_of_In, in_flat_map.
  setoid_rewrite <-list_elem_of_In. setoid_rewrite list_elem_of_omap.
  setoid_rewrite elem_of_elements. split.
  - intros (f & Hf & s & Hs & Hm). by exists f, s.
  - intros (f & s & Hf & Hs & Hm). exists f. split; [done|]. by exists s.
Qed.

(** The condition as a check. *)
Definition single_starb (a : string) : bool :=
  match strip_suffix_char "*" a with
  | Some p => match strip_suffix_char "*" p with Some _ => false | None => true end
  | None => true
  end.

Lemma single_stars_check ds : forallb single_starb (elements ds) = true → single_stars ds.
Proof.
  rewrite forallb_forall. intros Hall a Ha%elem_of_elements%list_elem_of_In%Hall q ->.
  revert Ha. unfold single_starb. change "**" with ("*" +:+ "*"). rewrite <-append_assoc.
  by rewrite !(proj2 (strip_suffix_char_Some _ _ _) eq_refl).
Qed.

Lemma intersection_single left right :
  single_stars left → single_stars right → single_stars (destination_intersection left right).
Proof.
  intros Hl Hr m (f & s & Hf & Hs & Hm)%elem_of_intersection_spec.
  eapply meet_single; [by apply Hl|by apply Hr|done].
Qed.

Lemma intersection_permits left right d :
  single_stars left → single_stars right →
  permits_in (destination_intersection left right) d = permits_in left d && permits_in right d.
Proof.
  intros Hl Hr. apply eq_true_iff_eq. rewrite andb_true_iff, !permits_in_spec.
  setoid_rewrite elem_of_intersection_spec. split.
  - intros (m & (f & s & Hf & Hs & Hm) & Hd).
    destruct (meet_sound f s m d) as [? ?]; [by apply Hl|by apply Hr|done..|]. split; eauto.
  - intros [(f & Hf & Hfd) (s & Hs & Hsd)].
    destruct (meet_complete f s d Hfd Hsd) as (m & Hm & Hmd). exists m. eauto 10.
Qed.

(** A pattern with two stars at its end breaks this: "a**" permits what
    starts with "a*", "a*" what starts with "a", and the intersection keeps
    the second. *)
Lemma intersection_widens :
  let left : gset string := {["a**"]} in
  let right : gset string := {["a*"]} in
  permits_in left "ab" = false ∧
  permits_in (destination_intersection left right) "ab" = true.
Proof. by vm_compute. Qed.

(** What holds of any patterns: [d] starts with what [a] has before its final
    stars, of which there is at least one. *)
Fixpoint stars (n : nat) : string := match n with O => "" | S n => String "*" (stars n) end.
Definition reaches (a d : string) : Prop :=
  a = d ∨ ∃ p n rest, a = p +:+ stars (S n) ∧ d = p +:+ rest.

Lemma stars_add n m : stars n +:+ stars m = stars (n + m).
Proof. induction n as [|n IH]; [done|]. cbn. by rewrite append_cons, IH. Qed.

Lemma stars_split n x r : stars n = x +:+ r → ∃ i j, x = stars i ∧ r = stars j.
Proof.
  revert x. induction n as [|n IH]; intros [|c x]; rewrite ?append_nil, ?append_cons; cbn.
  - intros <-. by exists 0%nat, 0%nat.
  - done.
  - intros <-. by exists 0%nat, (S n).
  - intros [= <- (i & j & -> & ->)%IH]. by exists (S i), j.
Qed.

Lemma allows_reaches a d : allows a d = true → reaches a d.
Proof. intros [->|(p & r & -> & ->)]%allows_spec; [by left|right]. by exists p, 0%nat, r. Qed.

Lemma reaches_trans a b d : reaches a b → reaches b d → reaches a d.
Proof.
  intros [->|(p & n & r & -> & ->)] Hb; [done|]. destruct Hb as [<-|(q & m & z & Heq & ->)].
  { right. by exists p, n, r. }
  right. destruct (append_eq_cases _ _ _ _ Heq) as [(x & -> & Hx)|(x & -> & _)].
  - apply stars_split in Hx as (i & j & -> & _). exists q, (i + n)%nat, z. split; [|done].
    rewrite append_assoc, stars_add. do 2 f_equal. lia.
  - exists p, n, (x +:+ z). by rewrite append_assoc.
Qed.

Lemma meet_reaches first second m : meet first second = Some m → reaches first m ∧ reaches second m.
Proof.
  assert (∀ a b, below a b = true → reaches a b) as Hb.
  { intros a b (p & r & -> & ->)%below_spec. right. by exists p, 0%nat, r. }
  intros [[-> ->]|[(-> & H)|(-> & H)]]%meet_Some; split; try (by left); by apply Hb.
Qed.

Lemma join_reaches l ls m x :
  m ∈ allowed_destinations (foldl join l ls) → x ∈ l :: ls →
  ∃ a, a ∈ allowed_destinations x ∧ reaches a m.
Proof.
  revert l x. induction ls as [|y ls IH]; intros l x Hm Hx.
  { apply list_elem_of_singleton in Hx as ->. exists m. split; [done|by left]. }
  assert (∀ z, z ∈ join l y :: ls → ∃ a, a ∈ allowed_destinations z ∧ reaches a m) as Hall by (intros; by eapply IH).
  assert (x ∈ ls ∨ x = l ∨ x = y) as [Hin|Hxy]; [set_solver|apply Hall; by right|].
  destruct (Hall (join l y)) as (b & Hb & Hbm); [by left|].
  apply elem_of_intersection_spec in Hb as (f & s & Hf & Hs & [Hfb Hsb]%meet_reaches).
  destruct Hxy as [->| ->]; [exists f|exists s]; eauto using reaches_trans.
Qed.

(** The intersection never loses what every input allows. *)
Lemma join_loses_nothing l ls d :
  (∀ x, x ∈ l :: ls → permits_in (allowed_destinations x) d = true) →
  permits_in (allowed_destinations (foldl join l ls)) d = true.
Proof.
  revert l. induction ls as [|y ls IH]; intros l Hall; [apply Hall; by left|]. apply IH.
  intros x [->|Hx]%elem_of_cons; [|apply Hall; by do 2 right]. cbn.
  destruct (proj1 (permits_in_spec _ _) (Hall l ltac:(left))) as (f & Hf & Hfd).
  destruct (proj1 (permits_in_spec _ _) (Hall y ltac:(right; left))) as (s & Hs & Hsd).
  destruct (meet_complete f s d Hfd Hsd) as (m & Hm & Hmd).
  apply permits_in_spec. exists m. split; [|done]. apply elem_of_intersection_spec. eauto.
Qed.

(** ** Combining labels *)

Lemma sens_max_rank a b : sens_rank (sens_max a b) = Z.max (sens_rank a) (sens_rank b).
Proof. by destruct a, b. Qed.

Lemma push_new_elem acc es e : e ∈ foldl push_new acc es ↔ e ∈ acc ∨ e ∈ es.
Proof.
  revert acc. induction es as [|x es IH]; intros acc; cbn; [set_solver|].
  rewrite IH. unfold push_new. case_bool_decide; set_solver.
Qed.

Lemma join_sens l ls x :
  x ∈ l :: ls → sens_rank (sensitivity x) ≤ sens_rank (sensitivity (foldl join l ls)).
Proof.
  revert l x. induction ls as [|y ls IH]; intros l x Hx; cbn.
  - apply list_elem_of_singleton in Hx as ->. done.
  - assert (∀ z, z ∈ join l y :: ls → sens_rank (sensitivity z) ≤
        sens_rank (sensitivity (foldl join (join l y) ls))) as Hall by (intros; by apply IH).
    pose proof (Hall (join l y) ltac:(left)) as Hj. cbn in Hj. rewrite sens_max_rank in Hj.
    apply elem_of_cons in Hx as [->|[->|Hx]%elem_of_cons]; [lia..|]. apply Hall. by right.
Qed.

Lemma join_trust l ls x :
  x ∈ l :: ls → trust_rank (source_trust_class (foldl join l ls)) ≤ trust_rank (source_trust_class x).
Proof.
  revert l x. induction ls as [|y ls IH]; intros l x Hx; cbn.
  - by apply list_elem_of_singleton in Hx as ->.
  - pose proof (IH (join l y) (join l y) ltac:(left)) as Hj. cbn in Hj.
    assert (trust_rank (source_trust_class (foldl join (join l y) ls)) ≤
      Z.min (trust_rank (source_trust_class l)) (trust_rank (source_trust_class y))).
    { destruct (Z.ltb_spec (trust_rank (source_trust_class y)) (trust_rank (source_trust_class l))); lia. }
    apply elem_of_cons in Hx as [->|[->|Hx]%elem_of_cons]; [lia..|]. apply IH. by right.
Qed.

Lemma join_provenance l ls e :
  e ∈ provenance (foldl join l ls) ↔ ∃ x, x ∈ l :: ls ∧ e ∈ provenance x.
Proof.
  revert l. induction ls as [|y ls IH]; intros l; cbn.
  - setoid_rewrite list_elem_of_singleton. naive_solver.
  - rewrite IH. split.
    + intros (x & [->|Hx]%elem_of_cons & He).
      * cbn in He. apply push_new_elem in He as [?|?]; [exists l|exists y]; set_solver.
      * exists x. set_solver.
    + intros (x & [->|[->|Hx]%elem_of_cons]%elem_of_cons & He).
      * exists (join l y). split; [by left|]. cbn. apply push_new_elem. by left.
      * exists (join l y). split; [by left|]. cbn. apply push_new_elem. by right.
      * exists x. set_solver.
Qed.

Lemma join_destinations l ls :
  (∀ x, x ∈ l :: ls → single_stars (allowed_destinations x)) →
  ∀ d, permits_in (allowed_destinations (foldl join l ls)) d =
       forallb (λ x, permits_in (allowed_destinations x) d) (l :: ls).
Proof.
  revert l. induction ls as [|y ls IH]; intros l Hs d; cbn; [by rewrite andb_true_r|].
  rewrite IH; cbn.
  - rewrite intersection_permits; [by rewrite andb_assoc|..]; apply Hs; [left|right; left].
  - intros x [->|Hx]%elem_of_cons; [cbn|apply Hs; by do 2 right].
    apply intersection_single; apply Hs; [left|right; left].
Qed.

Lemma join_sens_attained l ls :
  ∃ x, x ∈ l :: ls ∧ sensitivity x = sensitivity (foldl join l ls).
Proof.
  revert l. induction ls as [|y ls IH]; intros l; cbn; [exists l; by split; [left|]|].
  destruct (IH (join l y)) as (x & [->|Hx]%elem_of_cons & Heq); [|exists x; by split; [do 2 right|]].
  cbn in Heq. unfold sens_max in Heq. destruct (_ <=? _); [exists y|exists l]; set_solver.
Qed.

Lemma join_trust_attained l ls :
  ∃ x, x ∈ l :: ls ∧ source_trust_class x = source_trust_class (foldl join l ls).
Proof.
  revert l. induction ls as [|y ls IH]; intros l; cbn; [exists l; by split; [left|]|].
  destruct (IH (join l y)) as (x & [->|Hx]%elem_of_cons & Heq); [|exists x; by split; [do 2 right|]].
  cbn in Heq. destruct (_ <? _); [exists y|exists l]; set_solver.
Qed.

Lemma same_revision_foldl (a : option Z) rs r :
  foldl same_revision a rs = Some r ↔ ∀ x, x ∈ a :: rs → x = Some r.
Proof.
  revert a. induction rs as [|b rs IH]; intros a; cbn.
  - setoid_rewrite list_elem_of_singleton. naive_solver.
  - rewrite IH. unfold same_revision. setoid_rewrite elem_of_cons. split.
    + intros Hall x Hx. pose proof (Hall _ (or_introl eq_refl)) as Hab. case_bool_decide; [|done].
      subst. destruct Hx as [->|[->|Hx]%elem_of_cons]; [done..|]. apply Hall. by right.
    + intros Hall x [->|Hx].
      * rewrite (Hall a), (Hall b); [|by right; left|by left]. by rewrite bool_decide_true.
      * apply Hall. right. by right.
Qed.

(** C27: [combine] is conservative: over non-empty inputs it succeeds with a label
    whose sensitivity is at least and whose trust at most that of every
    input, reached by some input; whose lineage is exactly the inputs'
    stamped with the operation; which keeps no declassification, so that a
    destination an input permits by its declassification alone is not kept;
    and whose policy revision is the one all inputs share, or none.  It
    permits every destination that the allowed lists of all inputs permit.
    It permits exactly those when no allowed destination ends in two stars;
    a pattern with more final stars may be widened ([intersection_widens]),
    at most to what starts with its text before them. *)
Theorem combine_conservative l ls op :
  ∃ c, combine (l :: ls) op = Some c ∧
    (∀ x, x ∈ l :: ls → sens_rank (sensitivity x) ≤ sens_rank (sensitivity c) ∧
                        trust_rank (source_trust_class c) ≤ trust_rank (source_trust_class x)) ∧
    (∃ x, x ∈ l :: ls ∧ sensitivity x = sensitivity c) ∧
    (∃ x, x ∈ l :: ls ∧ source_trust_class x = source_trust_class c) ∧
    (∀ e, e ∈ provenance c ↔ ∃ x s, x ∈ l :: ls ∧ s ∈ provenance x ∧ e = stamp op s) ∧
    declassification c = None ∧
    (∀ r, authority_policy_revision c = Some r ↔
          ∀ x, x ∈ l :: ls → authority_policy_revision x = Some r) ∧
    (∀ d, (∀ x, x ∈ l :: ls → permits_in (allowed_destinations x) d = true) → permits_destination c d = true) ∧
    (∀ d x, permits_destination c d = true → x ∈ l :: ls →
       ∃ a, a ∈ allowed_destinations x ∧ reaches a d) ∧
    ((∀ x, x ∈ l :: ls → single_stars (allowed_destinations x)) →
     ∀ d, permits_destination c d = true ↔ ∀ x, x ∈ l :: ls → permits_in (allowed_destinations x) d = true).
Proof.
  eexists. split; [reflexivity|]. cbn.
  assert (∀ c d, declassification c = None →
    permits_destination c d = permits_in (allowed_destinations c) d) as Hpd.
  { intros c d Hc. unfold permits_destination, declassified_for. rewrite Hc. apply orb_false_r. }
  split_and!.
  - intros x Hx. by split; [apply join_sens|apply join_trust].
  - apply join_sens_attained.
  - apply join_trust_attained.
  - intros e. rewrite list_elem_of_In, in_map_iff. setoid_rewrite <-list_elem_of_In.
    setoid_rewrite join_provenance. naive_solver.
  - done.
  - intros r. rewrite same_revision_foldl. setoid_rewrite elem_of_cons.
    setoid_rewrite list_elem_of_In. setoid_rewrite in_map_iff. naive_solver.
  - intros d Hall. rewrite Hpd by done. by apply join_loses_nothing.
  - intros d x. rewrite Hpd by done. intros (m & Hm & Hd%allows_reaches)%permits_in_spec Hx.
    destruct (join_reaches l ls m x Hm Hx) as (a & Ha & Ham). eauto using reaches_trans.
  - intros Hs d. rewrite Hpd by done.
    change (permits_in (allowed_destinations (foldl join l ls)) d = true ↔
      ∀ x, x ∈ l :: ls → permits_in (allowed_destinations x) d = true).
    rewrite join_destinations, forallb_forall by done. by setoid_rewrite list_elem_of_In.
Qed.

Definition mail_label : InformationLabel :=
  with_policy_revision (observed Sensitive (Some "ana") "Controller" "email" "m1" ["signal:*"; "email:ana"]) 4.
Definition web_label : InformationLabel :=
  with_policy_revision (observed Public None "UnknownPending" "web" "w1" ["signal:ana"; "email:*"]) 4.

Lemma combine_conservative_witness :
  ∃ c, combine [mail_label; web_label] "summarise" = Some c ∧
    sensitivity c = Sensitive ∧ source_trust_class c = "UnknownPending" ∧
    authority_policy_revision c = Some 4 ∧
    permits_destination c "signal:ana" = true ∧ permits_destination c "signal:bob" = false.
Proof.
  destruct (combine_conservative mail_label [web_label] "summarise") as (c & Hc & _ & _ & _ & _ & _ & _ & _ & _ & Hd).
  assert (∀ d, permits_destination c d = true ↔
    ∀ x, x ∈ [mail_label; web_label] → permits_in (allowed_destinations x) d = true) as _.
  { apply Hd. intros x [->|[->|Hx]%elem_of_cons]%elem_of_cons; [by apply single_stars_check..|].
    by apply elem_of_nil in Hx. }
  exists c. split; [done|]. revert Hc. vm_compute. by intros [= <-].
Defined.
