(* ===== verification/Outbound.v ===== *)
(** * Outbound inspection

    [crates/policy/src/outbound.rs]: the deterministic checks on data that
    crosses a sink boundary.  The three detectors search the text for a
    marker and look at what follows; their search loops run on fuel one
    larger than the text, and are shown equal to the plain question whether
    the marker occurs with such a continuation. *)

From Stdlib Require Import Strings.Ascii Strings.Byte.
From S2P Require Import Prelude Wire Text Information.

(** ** Definitions *)

Record OutboundDecision : Type := mkDecision {
  allowed : bool;
  findings : list string
}.

(** [while let Some(index) = rest.find(key)]: [hit] judges the text after the
    occurrence, [next] is where the search resumes in the text from it on. *)
Fixpoint scan (fuel : nat) (key : string) (hit : string → bool) (next : string → string)
    (rest : string) : bool :=
  match fuel with
  | O => false
  | S fuel =>
      match find_rest key rest with
      | None => false
      | Some at_ =>
          if hit (String.substring (String.length key) (String.length at_) at_) then true
          else scan fuel key hit next (next at_)
      end
  end.

(** [&rest[index + key.len()..]] *)
Definition after_key (key at_ : string) : string :=
  String.substring (String.length key) (String.length at_) at_.

(** [&rest[index + skip..]], [skip] the width of the first character. *)
Definition after_char (at_ : string) : string :=
  match chars at_ with
  | [] => EmptyString
  | w :: _ => String.substring (String.length w) (String.length at_) at_
  end.

(** A character of the text that is one ASCII character satisfying [p]. *)
Definition ascii_char (p : Ascii.ascii → bool) (w : string) : bool :=
  match w with String c EmptyString => p c | _ => false end.

Definition is_code (n : Z) (c : Ascii.ascii) : bool := code c =? n.

(** ['='], [':'], the single and the double quote. *)
Definition is_separator (c : Ascii.ascii) : bool :=
  is_ascii_whitespace c || is_code 61 c || is_code 58 c || is_code 39 c || is_code 34 c.

(** [','], [';'], ['}'] and the quotes. *)
Definition ends_value (c : Ascii.ascii) : bool :=
  is_ascii_whitespace c || is_code 44 c || is_code 59 c || is_code 125 c || is_code 34 c || is_code 39 c.

Definition is_token (c : Ascii.ascii) : bool :=
  is_ascii_alphanumeric c || is_code 46 c || is_code 95 c || is_code 45 c || is_code 126 c.

Definition is_key_char (c : Ascii.ascii) : bool :=
  is_ascii_alphanumeric c || is_code 95 c || is_code 45 c.

Definition assignment_value (rest : string) : bool :=
  let value := drop_while (ascii_char is_separator) (chars rest) in
  (8 <=? vec_len (take_while (λ w, negb (ascii_char ends_value w)) value)).

Definition assignment_keys : list string :=
  ["api_key"; "api-key"; "secret"; "password"; "credential"; "access_token"].

Definition contains_assignment_secret (lower : string) : bool :=
  existsb (λ key, scan (S (String.length lower)) key assignment_value (after_key key) lower)
    assignment_keys.

Definition bearer_value (rest : string) : bool :=
  16 <=? vec_len (take_while (ascii_char is_token) (chars rest)).

Definition contains_bearer_token (text : string) : bool :=
  let lower := to_ascii_lowercase text in
  scan (S (String.length lower)) "bearer " bearer_value (after_key "bearer ") lower.

Definition key_suffix (suffix_len : Z) (suffix : string) : bool :=
  suffix_len <=? vec_len (take_while (ascii_char is_key_char) (chars suffix)).

Definition contains_prefixed_key (text prefix : string) (suffix_len : Z) : bool :=
  let lower := to_ascii_lowercase text in
  scan (S (String.length lower)) prefix (key_suffix suffix_len) after_char lower.

Definition secret_indicators (text : string) : list string :=
  let lower := to_ascii_lowercase text in
  (if contains lower "-----begin private key-----" || contains lower "-----begin rsa private key-----"
      || contains lower "-----begin openssh private key-----" then ["private_key_block"] else [])
  ++ (if contains_assignment_secret lower then ["credential_assignment"] else [])
  ++ (if contains_bearer_token text then ["bearer_token"] else [])
  ++ (if contains_prefixed_key text "sk-" 20 then ["sk_key"] else [])
  ++ (if contains_prefixed_key text "akia" 16 then ["aws_access_key"] else []).

(** The findings before sorting. *)
Definition raw_findings (content : bytes) (label : option InformationLabel) (dest : string) : list string :=
  let text := String.string_of_list_byte (from_utf8_lossy content) in
  let operator_authorized_export :=
    match label with Some l => declassified_for l dest | None => false end in
  (if operator_authorized_export then [] else secret_indicators text)
  ++ match label with
     | None => []
     | Some l =>
         (if negb (permits_destination l dest) then ["destination_not_authorized_by_label"] else [])
         ++ (if bool_decide (sensitivity l = Secret) && negb (declassified_for l dest)
             then ["secret_data_requires_explicit_export"] else [])
     end.

Definition inspect_outbound (content : bytes) (label : option InformationLabel) (dest : string) :
    OutboundDecision :=
  let fs := dedup (sort_strings (raw_findings content label dest)) in
  mkDecision (bool_decide (fs = [])) fs.

(** ** The search loops *)

(** [key] occurs with a continuation that [hit] accepts. *)
Definition occurs_with (key : string) (hit : string → bool) (s : string) : Prop :=
  ∃ a z, s = a +:+ (key +:+ z) ∧ hit z = true.

Lemma substring_full (s : string) n : (String.length s ≤ n)%nat → String.substring 0 n s = s.
Proof.
  revert n. induction s as [|c s IH]; intros [|n] Hn; cbn in *; [done|done|lia|].
  f_equal. apply IH. lia.
Qed.

Lemma substring_after (k z : string) n :
  (String.length z ≤ n)%nat → String.substring (String.length k) n (k +:+ z) = z.
Proof.
  intros Hn. induction k as [|c k IH]; [by apply substring_full|].
  rewrite append_cons. cbn [String.length String.substring]. apply IH.
Qed.

Lemma after_key_spec key z : after_key key (key +:+ z) = z.
Proof. apply substring_after. rewrite string_length_app. lia. Qed.

(** Keys no proper suffix of which begins the key again: their occurrences do
    not overlap. *)
Fixpoint no_border (key : string) (tail : string) : bool :=
  match tail with
  | EmptyString => true
  | String _ t => negb (starts_with key tail) && no_border key t
  end.

Definition unbordered (key : string) : bool :=
  match key with EmptyString => false | String _ t => no_border key t end.

Lemma no_border_suffix key x w :
  no_border key (x +:+ w) = true → w ≠ EmptyString → starts_with key w = false.
Proof.
  induction x as [|c x IH]; rewrite ?append_nil, ?append_cons.
  - destruct w; [done|]. cbn [no_border]. rewrite andb_true_iff, negb_true_iff. by intros [? _].
  - cbn [no_border]. rewrite andb_true_iff. intros [_ ?]. auto.
Qed.

Lemma unbordered_spec key x y z :
  unbordered key = true → key +:+ z = x +:+ (key +:+ y) → x ≠ EmptyString → ∃ w, x = key +:+ w.
Proof.
  intros Hu Heq Hx. destruct (append_eq_cases _ _ _ _ Heq) as [(w & Hk & Hw)|(w & -> & _)]; [|eauto].
  destruct w as [|e w']; [exists ""; by rewrite Hk, append_empty_r, append_empty_r|].
  exfalso. destruct x as [|c x]; [done|].
  assert (starts_with key (String e w') = false) as Hf.
  { apply (no_border_suffix key x); [|done]. rewrite Hk in Hu at 1. rewrite append_cons in Hu.
    cbn [unbordered] in Hu. by rewrite append_cons in Hk; rewrite <-Hk in Hu. }
  apply not_true_iff_false in Hf. apply Hf, starts_with_spec.
  destruct (append_eq_cases _ _ _ _ Hw) as [(v & Hv & _)|(v & Hv & _)].
  - by exists v.
  - (* the tail would be longer than the key *)
    apply (f_equal String.length) in Hk, Hv. rewrite string_length_app in Hk, Hv.
    exfalso. cbn [String.length] in *. lia.
Qed.

Lemma scan_after key hit fuel s :
  unbordered key = true → (String.length s < fuel)%nat →
  scan fuel key hit (after_key key) s = true ↔ occurs_with key hit s.
Proof.
  intros Hu. revert s. induction fuel as [|fuel IH]; intros s Hf; [lia|]. cbn [scan].
  destruct (find_rest key s) as [t|] eqn:Ht.
  2:{ split; [done|]. intros (a & z & Heq & _). by destruct (find_rest_None _ _ Ht a z). }
  apply find_rest_Some in Ht as (a & z & -> & -> & Hfirst).
  fold (after_key key (key +:+ z)). rewrite after_key_spec.
  destruct (hit z) eqn:Hz; [split; [intros _; by exists a, z|done]|].
  assert (0 < String.length key)%nat by (destruct key; [done|cbn; lia]).
  rewrite !string_length_app in Hf. rewrite IH by lia. split.
  - intros (b & y & -> & Hy). exists (a +:+ (key +:+ b)), y. by rewrite !append_assoc.
  - intros (a' & z' & Heq & Hz'). destruct (Hfirst _ _ Heq) as (x & -> & Hx).
    destruct (decide (x = EmptyString)) as [->|Hne].
    + rewrite append_nil in Hx. apply append_inv_head in Hx. congruence.
    + destruct (unbordered_spec _ _ _ _ Hu Hx Hne) as [w ->].
      rewrite append_assoc in Hx. apply append_inv_head in Hx. by exists w, z'.
Qed.

Lemma after_char_spec c d s :
  is_cont_ascii d = false → after_char (String c (String d s)) = String d s.
Proof.
  intros Hd. unfold after_char. assert (∃ ws, chars (String c (String d s)) = String c EmptyString :: ws) as [ws ->].
  { assert (∃ v vs, chars (String d s) = String d v :: vs) as (v & vs & Hv).
    { cbn. destruct (chars s) as [|[|e w] ws]; [eauto..|]. destruct (is_cont_ascii e); eauto. }
    change (chars (String c (String d s))) with
      (match chars (String d s) with
       | (String d _ as w) :: ws =>
           if is_cont_ascii d then String c w :: ws else String c EmptyString :: w :: ws
       | ws => String c EmptyString :: ws
       end). rewrite Hv, Hd. eauto. }
  cbn. f_equal. apply substring_full. lia.
Qed.

(** Resuming one character further misses nothing either. *)
Lemma scan_char c d k hit fuel s :
  is_cont_ascii d = false → (String.length s < fuel)%nat →
  scan fuel (String c (String d k)) hit after_char s = true ↔ occurs_with (String c (String d k)) hit s.
Proof.
  intros Hd. set (key := String c (String d k)). revert s.
  induction fuel as [|fuel IH]; intros s Hf; [lia|]. cbn [scan].
  destruct (find_rest key s) as [t|] eqn:Ht.
  2:{ split; [done|]. intros (a & z & Heq & _). by destruct (find_rest_None _ _ Ht a z). }
  apply find_rest_Some in Ht as (a & z & -> & -> & Hfirst).
  fold (after_key key (key +:+ z)). rewrite after_key_spec.
  destruct (hit z) eqn:Hz; [split; [intros _; by exists a, z|done]|].
  unfold key at 2. rewrite !append_cons, after_char_spec by done.
  rewrite string_length_app in Hf. unfold key in Hf. rewrite !append_cons in Hf. cbn [String.length] in Hf.
  rewrite IH by (cbn; lia). split.
  - intros (b & y & Heq & Hy). exists (a +:+ (String c b)), y. split; [|done].
    unfold key at 1. by rewrite !append_cons, Heq, append_assoc, append_cons.
  - intros (a' & z' & Heq & Hz'). destruct (Hfirst _ _ Heq) as ([|e x] & -> & Hx).
    + rewrite append_nil in Hx. apply append_inv_head in Hx. congruence.
    + unfold key at 1 in Hx. rewrite !append_cons in Hx. injection Hx as <- Hx.
      exists x, z'. by rewrite Hx.
Qed.

(** ** What the detectors look for *)

(** A key of the list, then separators, then eight characters of value. *)
Definition assigns_secret (lower : string) : Prop :=
  ∃ key, key ∈ assignment_keys ∧ occurs_with key assignment_value lower.

Lemma contains_assignment_secret_spec lower :
  contains_assignment_secret lower = true ↔ assigns_secret lower.
Proof.
  unfold contains_assignment_secret. rewrite existsb_True. unfold assigns_secret.
  assert (∀ key, key ∈ assignment_keys → unbordered key = true) as Hu.
  { intros key Hk. repeat (apply elem_of_cons in Hk as [->|Hk]; [done|]). by apply elem_of_nil in Hk. }
  split; intros (key & Hk & Hs); exists key; (split; [done|]); revert Hs;
    rewrite scan_after; auto.
Qed.

Lemma contains_bearer_token_spec text :
  contains_bearer_token text = true ↔ occurs_with "bearer " bearer_value (to_ascii_lowercase text).
Proof. unfold contains_bearer_token. by apply scan_after; [|lia]. Qed.

Lemma contains_sk_key_spec text :
  contains_prefixed_key text "sk-" 20 = true ↔ occurs_with "sk-" (key_suffix 20) (to_ascii_lowercase text).
Proof. unfold contains_prefixed_key. by apply scan_char; [|lia]. Qed.

Lemma contains_aws_key_spec text :
  contains_prefixed_key text "akia" 16 = true ↔ occurs_with "akia" (key_suffix 16) (to_ascii_lowercase text).
Proof. unfold contains_prefixed_key. by apply scan_char; [|lia]. Qed.

Definition private_key_markers : list string :=
  ["-----begin private key-----"; "-----begin rsa private key-----"; "-----begin openssh private key-----"].

(** The detectors as a specification: a detector and when it fires. *)
Inductive leaks (lower : string) : string → Prop :=
| leaks_private_key m a z :
    m ∈ private_key_markers → lower = a +:+ (m +:+ z) → leaks lower "private_key_block"
| leaks_assignment : assigns_secret lower → leaks lower "credential_assignment"
| leaks_bearer : occurs_with "bearer " bearer_value lower → leaks lower "bearer_token"
| leaks_sk : occurs_with "sk-" (key_suffix 20) lower → leaks lower "sk_key"
| leaks_akia : occurs_with "akia" (key_suffix 16) lower → leaks lower "aws_access_key".

Lemma elem_of_if {A} (b : bool) (x y : A) : x ∈ (if b then [y] else []) ↔ b = true ∧ x = y.
Proof. destruct b; set_solver. Qed.

(** the detectors' search loops terminate with the answer to the plain
    question: a detector is reported exactly when its marker occurs anywhere
    in the text, compared without case, with a continuation of the kind it
    asks for, although the loops resume only after the previous occurrence. *)
Theorem secret_indicators_spec text d :
  d ∈ secret_indicators text ↔ leaks (to_ascii_lowercase text) d.
Proof.
  unfold secret_indicators. cbv zeta. rewrite !elem_of_app, !elem_of_if.
  rewrite !orb_true_iff, contains_assignment_secret_spec, contains_bearer_token_spec,
    contains_sk_key_spec, contains_aws_key_spec, !contains_spec.
  split.
  - intros [[[[(a & z & H)|(a & z & H)]|(a & z & H)] ->]|[[? ->]|[[? ->]|[[? ->]|[? ->]]]]];
      [..|by constructor|by constructor|by constructor|by constructor];
      (eapply leaks_private_key; [|exact H]); set_solver.
  - intros [m a z Hm H|?|?|?|?]; [|by right; left|by do 2 right; left|by do 3 right; left|by do 4 right].
    left. split; [|done].
    repeat (apply elem_of_cons in Hm as [->|Hm]); [..|by apply elem_of_nil in Hm]; eauto.
Qed.

(** ** The gate *)

(** The text the detectors see. *)
Definition seen_text (content : bytes) : string := String.string_of_list_byte (from_utf8_lossy content).

Definition exported (label : option InformationLabel) (dest : string) : bool :=
  match label with Some l => declassified_for l dest | None => false end.

Lemma dedup_sort_nil l : dedup (sort_strings l) = [] ↔ ∀ x, x ∉ l.
Proof.
  split.
  - intros Hd x Hx. apply elem_of_sort_strings, elem_of_dedup in Hx. rewrite Hd in Hx. set_solver.
  - intros Hl. destruct (dedup (sort_strings l)) as [|x xs] eqn:Hd; [done|]. exfalso.
    apply (Hl x), elem_of_sort_strings, elem_of_dedup. rewrite Hd. by left.
Qed.

(** content crosses the boundary exactly when it shows no credential (unless
    an operator declassified it for this very destination), the label, when
    there is one, permits the destination, and secret data was declassified
    for it; a refusal names a detector. *)
Theorem inspect_outbound_gate content label dest :
  (allowed (inspect_outbound content label dest) = true ↔
    (exported label dest = false → ∀ d, ¬ leaks (to_ascii_lowercase (seen_text content)) d) ∧
    (∀ l, label = Some l →
      (declassified_for l dest = true ∨ permits_in (allowed_destinations l) dest = true) ∧
      (sensitivity l = Secret → declassified_for l dest = true))) ∧
  (allowed (inspect_outbound content label dest) = false ↔
    findings (inspect_outbound content label dest) ≠ []).
Proof.
  unfold inspect_outbound. cbn [allowed findings]. split.
  2:{ by rewrite bool_decide_eq_false. }
  rewrite bool_decide_eq_true.
  rewrite dedup_sort_nil. unfold raw_findings. fold (seen_text content). cbv zeta. fold (exported label dest).
  pose proof (secret_indicators_spec (seen_text content)) as Hind. revert Hind.
  generalize (secret_indicators (seen_text content)) as ind. intros ind Hind.
  setoid_rewrite <-Hind. setoid_rewrite elem_of_app. split.
  - intros Hno. split.
    + intros He d Hd. apply (Hno d). left. by rewrite He.
    + intros l ->. unfold permits_destination in Hno. fold (permits_in (allowed_destinations l) dest) in Hno.
      cbn [exported] in Hno. destruct (declassified_for l dest); [by split; [left|]|].
      destruct (permits_in (allowed_destinations l) dest).
      * split; [by right|]. intros HS. exfalso. apply (Hno "secret_data_requires_explicit_export").
        right. rewrite HS. cbn. set_solver.
      * exfalso. apply (Hno "destination_not_authorized_by_label"). right. cbn. set_solver.
  - intros [Hleak Hl] x [Hx|Hx].
    + destruct (exported label dest); [set_solver|]. by apply (Hleak eq_refl x).
    + destruct label as [l|]; [|set_solver]. destruct (Hl l eq_refl) as [Hp HS].
      unfold permits_destination in Hx. fold (permits_in (allowed_destinations l) dest) in Hx.
      replace (permits_in (allowed_destinations l) dest || declassified_for l dest) with true in Hx
        by (symmetry; apply orb_true_iff; tauto).
      apply elem_of_app in Hx as [Hx|Hx]; [set_solver|].
      apply elem_of_if in Hx as [[HS'%bool_decide_eq_true Hd%negb_true_iff]%andb_true_iff _].
      specialize (HS HS'). congruence.
Qed.
