(* ===== verification/HistoryBudget.v ===== *)
(** * The history token budget

    [crates/core/src/history_budget.rs]: which of the earlier messages of a
    conversation are sent along with a turn.  Sizes are [usize] in the source;
    the text of a conversation is far below the address space, so they are
    natural numbers here. *)

From S2P Require Import Prelude Wire Text.

(** ** Definitions *)

Definition MIN_HISTORY_TOKENS : Z := 1000.
Definition DEFAULT_HISTORY_TOKENS : Z := 8000.
Definition MIN_KEPT_MESSAGES : nat := 4.
Definition CHARS_PER_TOKEN : nat := 4.

Inductive HistoryRole : Type := User | Assistant.

#[global] Instance HistoryRole_eq_dec : EqDecision HistoryRole.
Proof. solve_decision. Defined.

Record HistoryMessage : Type := mkMessage { role : HistoryRole; text : string }.

Record TruncationOutput : Type := mkOutput {
  kept : list HistoryMessage;
  dropped_count : nat;
  kept_tokens_estimate : nat
}.

(** [usize::div_ceil] *)
Definition div_ceil (a b : nat) : nat := ((a + b - 1) / b)%nat.

Definition estimate_tokens (t : string) : nat :=
  Nat.max (div_ceil (char_count t) CHARS_PER_TOKEN) 1.

(** The backward walk: [l] holds the messages still to be visited with their
    indices, the most recent first. *)
Fixpoint walk (total budget : nat) (l : list (nat * HistoryMessage)) (tokens cutoff : nat) : nat * nat :=
  match l with
  | [] => (tokens, cutoff)
  | (i, msg) :: l =>
      let msg_tokens := estimate_tokens (text msg) in
      let kept_so_far := (total - i)%nat in
      if (budget <? tokens + msg_tokens)%nat && (MIN_KEPT_MESSAGES <? kept_so_far)%nat
      then (tokens, cutoff)
      else walk total budget l (tokens + msg_tokens)%nat i
  end.

Definition truncate_to_budget (messages : list HistoryMessage) (max_history_tokens : nat) :
    TruncationOutput :=
  match messages with
  | [] => mkOutput [] 0 0
  | _ =>
      let total := length messages in
      let '(tokens, cutoff) :=
        walk total max_history_tokens (reverse (imap pair messages)) 0 total in
      let '(tokens, cutoff) :=
        match messages !! cutoff with
        | Some m =>
            if bool_decide (role m = Assistant)
            then ((tokens - estimate_tokens (text m))%nat, S cutoff)
            else (tokens, cutoff)
        | None => (tokens, cutoff)
        end in
      mkOutput (drop cutoff messages) cutoff tokens
  end.

(** [load_max_history_tokens], given the stored column ([None] when the row, the
    column or the value is missing). *)
Definition load_max_history_tokens (raw : option Z) : Z :=
  match raw with
  | Some n => if 0 <? n then Z.max (as_u32 n) MIN_HISTORY_TOKENS else DEFAULT_HISTORY_TOKENS
  | None => DEFAULT_HISTORY_TOKENS
  end.

(** ** The longest suffix that fits *)

Definition tokens_of (l : list HistoryMessage) : nat := sum_list_with (λ m, estimate_tokens (text m)) l.

Lemma tokens_of_cons m l : tokens_of (m :: l) = (estimate_tokens (text m) + tokens_of l)%nat.
Proof. done. Qed.

(** What the budget allows: the estimate within it, or few messages. *)
Definition fits (budget : nat) (l : list HistoryMessage) : Prop :=
  (tokens_of l ≤ budget ∨ length l ≤ MIN_KEPT_MESSAGES)%nat.

Lemma tokens_of_app l k : tokens_of (l ++ k) = (tokens_of l + tokens_of k)%nat.
Proof. apply sum_list_with_app. Qed.

Lemma fits_suffix budget l k : fits budget (l ++ k) → fits budget k.
Proof. unfold fits. rewrite tokens_of_app, length_app. lia. Qed.

Lemma fits_budget b b' l : (b ≤ b')%nat → fits b l → fits b' l.
Proof. unfold fits. lia. Qed.

Lemma walk_snoc total budget (pre : list HistoryMessage) m tokens cutoff :
  walk total budget (reverse (imap pair (pre ++ [m]))) tokens cutoff =
    if (budget <? tokens + estimate_tokens (text m))%nat && (MIN_KEPT_MESSAGES <? total - length pre)%nat
    then (tokens, cutoff)
    else walk total budget (reverse (imap pair pre)) (tokens + estimate_tokens (text m))%nat (length pre).
Proof.
  rewrite imap_app, reverse_app. cbn [imap]. unfold compose. rewrite Nat.add_0_r. done.
Qed.

(** [pre] is still to be visited, [post] is already kept. *)
Lemma walk_spec budget pre post :
  fits budget post →
  ∃ a b, pre = a ++ b ∧ fits budget (b ++ post) ∧
    (∀ m a', a = a' ++ [m] → ¬ fits budget (m :: b ++ post)) ∧
    walk (length (pre ++ post)) budget (reverse (imap pair pre)) (tokens_of post) (length pre)
      = (tokens_of (b ++ post), length a).
Proof.
  revert post. induction pre as [|m pre IH] using rev_ind; intros post Hfit.
  - exists [], []. split_and!; [done..| |done]. intros m [|? ?]; done.
  - rewrite walk_snoc.
    replace (length ((pre ++ [m]) ++ post) - length pre)%nat with (S (length post))
      by (rewrite !length_app; cbn; lia).
    destruct ((budget <? tokens_of post + estimate_tokens (text m))%nat
              && (MIN_KEPT_MESSAGES <? S (length post))%nat) eqn:Hstop.
    + apply andb_true_iff in Hstop as [Hb%Nat.ltb_lt Hk%Nat.ltb_lt].
      exists (pre ++ [m]), []. split_and!; [by rewrite app_nil_r|done| |done].
      intros m' a' [_ ->]%app_inj_tail. unfold fits. cbn [app length]. rewrite tokens_of_cons. lia.
    + destruct (IH (m :: post)) as (a & b & -> & Hf & Hmax & Hw).
      { apply andb_false_iff in Hstop. rewrite !Nat.ltb_ge in Hstop.
        unfold fits. cbn [length]. rewrite tokens_of_cons. lia. }
      exists a, (b ++ [m]). rewrite <-!app_assoc. rewrite <-app_assoc in Hw.
      split_and!; [done..|]. cbn [app] in *. rewrite <-Hw, tokens_of_cons. f_equal. lia.
Qed.

(** The suffix before the repair: the longest one that fits. *)
Definition longest_fitting (budget : nat) (messages suffix : list HistoryMessage) : Prop :=
  ∃ dropped, messages = dropped ++ suffix ∧ fits budget suffix ∧
    ∀ a b, dropped = a ++ b → b ≠ [] → ¬ fits budget (b ++ suffix).

Definition is_assistant (m : HistoryMessage) : bool := bool_decide (role m = Assistant).

(** An assistant message in front is left out. *)
Definition repair (l : list HistoryMessage) : list HistoryMessage :=
  match l with m :: rest => if is_assistant m then rest else l | [] => [] end.

Lemma walk_longest messages budget :
  ∃ a b, messages = a ++ b ∧ longest_fitting budget messages b ∧
    walk (length messages) budget (reverse (imap pair messages)) 0 (length messages) = (tokens_of b, length a).
Proof.
  destruct (walk_spec budget messages []) as (a & b & -> & Hf & Hmax & Hw); [left; cbn; lia|].
  rewrite !app_nil_r in *. exists a, b. split_and!; [done| |done].
  exists a. split_and!; [done..|]. intros c d -> Hd Hfits.
  destruct (exists_last Hd) as (d' & m & ->). apply (Hmax m (c ++ d')); [by rewrite app_assoc|].
  rewrite <-app_assoc in Hfits. by apply fits_suffix in Hfits.
Qed.

Lemma drop_length_app {A} (a b : list A) : drop (length a) (a ++ b) = b.
Proof. by rewrite drop_app_length. Qed.

Lemma truncate_eq messages budget :
  ∃ a b, messages = a ++ b ∧ longest_fitting budget messages b ∧
    truncate_to_budget messages budget =
      mkOutput (repair b) (length a + (length b - length (repair b)))%nat (tokens_of (repair b)).
Proof.
  destruct (walk_longest messages budget) as (a & b & Heq & Hl & Hw). exists a, b. split_and!; [done..|].
  destruct messages as [|m0 ms].
  { by destruct a, b. }
  unfold truncate_to_budget. rewrite Hw, Heq. rewrite lookup_app_r, Nat.sub_diag by lia.
  destruct b as [|m b]; cbn [lookup list_lookup repair]; [by rewrite drop_length_app, Nat.add_0_r|].
  unfold is_assistant. case_bool_decide.
  - f_equal.
    + rewrite (drop_app_ge a) by lia. by replace (S (length a) - length a)%nat with 1%nat by lia.
    + cbn [length]. lia.
    + rewrite tokens_of_cons. lia.
  - rewrite drop_length_app, Nat.sub_diag. f_equal. lia.
Qed.

Lemma repair_suffix l : ∃ front, l = front ++ repair l ∧ (length front ≤ 1)%nat.
Proof.
  destruct l as [|m l]; [by exists []; cbn; split; [|lia]|]. cbn.
  destruct (is_assistant m); [exists [m]|exists []]; cbn; split; (done || lia).
Qed.

(** what is sent is the longest run of most recent messages whose estimate is
    within the budget, or the last four when those are already too many,
    less an assistant message in front; the number dropped and the estimate
    are those of the messages returned. *)
Theorem truncate_longest_suffix messages budget :
  let out := truncate_to_budget messages budget in
  ∃ suffix, longest_fitting budget messages suffix ∧
    kept out = repair suffix ∧
    messages = take (dropped_count out) messages ++ kept out ∧
    length messages = (dropped_count out + length (kept out))%nat ∧
    kept_tokens_estimate out = tokens_of (kept out).
Proof.
  destruct (truncate_eq messages budget) as (a & b & -> & Hl & ->). exists b. cbn.
  destruct (repair_suffix b) as (front & Hb & _). split_and!; [done..| | |done].
  - rewrite Hb at 2. rewrite Hb at 4. rewrite Hb at 1.
    rewrite length_app. replace (_ + (_ + _ - _))%nat with (length (a ++ front)) by (rewrite length_app; lia).
    rewrite app_assoc, take_app_length. by rewrite <-app_assoc.
  - rewrite Hb at 1 2. rewrite !length_app. lia.
Qed.

Lemma repair_suffix_mono s s' : s `suffix_of` s' → repair s `suffix_of` repair s'.
Proof.
  intros [front ->]. destruct front as [|m front]; [done|]. cbn.
  destruct (repair_suffix s) as (f & Hs & _).
  assert (repair s `suffix_of` front ++ s) as Hsuf by (exists (front ++ f); by rewrite Hs at 1; rewrite app_assoc).
  destruct (is_assistant m); [done|]. by apply suffix_cons_r.
Qed.

Lemma longest_fitting_mono b b' l s s' :
  (b ≤ b')%nat → longest_fitting b l s → longest_fitting b' l s' → s `suffix_of` s'.
Proof.
  intros Hb (d & -> & Hf & _) (d' & Heq & _ & Hmax).
  apply (fits_budget b b') in Hf; [|done].
  apply app_eq_inv in Heq as [(k & -> & ->)|(k & -> & ->)].
  - by exists k.
  - destruct k as [|m k]; [done|]. exfalso. by apply (Hmax d (m :: k)).
Qed.

(** The roles alternate, as turns do. *)
Definition alternates (l : list HistoryMessage) : Prop :=
  ∀ i m m', l !! i = Some m → l !! S i = Some m' → role m ≠ role m'.

(** Every assistant message follows a user message. *)
Definition coherent (l : list HistoryMessage) : Prop :=
  ∀ i m, l !! i = Some m → role m = Assistant → ∃ j u, i = S j ∧ l !! j = Some u ∧ role u = User.

Lemma repair_coherent d s : alternates (d ++ s) → coherent (repair s).
Proof.
  intros Halt. assert (alternates (repair s)) as Hr.
  { destruct (repair_suffix s) as (f & Hs & _). intros i m m' Hm Hm'. rewrite Hs in Halt.
    apply (Halt (length d + length f + i)%nat).
    - rewrite app_assoc, lookup_app_r, length_app by (rewrite length_app; lia). rewrite <-Hm. f_equal. lia.
    - rewrite app_assoc, lookup_app_r, length_app by (rewrite length_app; lia). rewrite <-Hm'. f_equal. lia. }
  intros [|i] m Hm Ha.
  - exfalso. destruct s as [|x s]; [done|]. cbn in Hm. unfold is_assistant in Hm. case_bool_decide as Hx.
    + apply (Halt (length d) x m); [by rewrite list_lookup_middle| |by rewrite Hx].
      rewrite lookup_app_r by lia. by replace (S (length d) - length d)%nat with 1%nat by lia.
    + by injection Hm as ->.
  - destruct (lookup_lt_is_Some_2 (repair s) i) as [u Hu]; [apply lookup_lt_Some in Hm; lia|].
    exists i, u. split_and!; [done..|]. specialize (Hr i u m Hu Hm). destruct (role u); [done|congruence].
Qed.

Lemma longest_fitting_length b l s :
  longest_fitting b l s → (Nat.min MIN_KEPT_MESSAGES (length l) ≤ length s)%nat.
Proof.
  intros (d & -> & _ & Hmax). destruct (decide (d = [])) as [->|(d' & m & ->)%exists_last]; [cbn [app]; lia|].
  specialize (Hmax d' [m] eq_refl ltac:(done)). unfold fits in Hmax. cbn [app length] in Hmax. lia.
Qed.

Lemma kept_repair messages budget :
  ∃ s, longest_fitting budget messages s ∧ kept (truncate_to_budget messages budget) = repair s.
Proof. destruct (truncate_eq messages budget) as (a & s & _ & Hl & ->). by exists s. Qed.

(** a larger budget keeps every message a smaller one kept; the last three
    messages survive any budget; and in a conversation whose roles
    alternate every kept reply keeps the message it answers. *)
Theorem truncate_invariants messages budget budget' :
  (budget ≤ budget')%nat →
  kept (truncate_to_budget messages budget) `suffix_of` kept (truncate_to_budget messages budget') ∧
  (4 ≤ length messages → 3 ≤ length (kept (truncate_to_budget messages budget)))%nat ∧
  (alternates messages → coherent (kept (truncate_to_budget messages budget))).
Proof.
  intros Hb. destruct (kept_repair messages budget) as (s & Hs & ->).
  destruct (kept_repair messages budget') as (s' & Hs' & ->).
  pose proof (longest_fitting_length _ _ _ Hs) as Hlen. destruct (repair_suffix s) as (f & Hf & Hf1).
  apply (f_equal length) in Hf. rewrite length_app in Hf. unfold MIN_KEPT_MESSAGES in Hlen.
  split_and!; [|lia|].
  - apply repair_suffix_mono. exact (longest_fitting_mono _ _ _ _ _ Hb Hs Hs').
  - destruct Hs as (d & -> & _). apply repair_coherent.
Qed.

Definition exchange (q a : string) : list HistoryMessage := [mkMessage User q; mkMessage Assistant a].

Lemma truncate_invariants_witness :
  let l := exchange "hello there" "hi" ++ exchange "what is new" "not much" ++ exchange "ok" "bye" in
  kept (truncate_to_budget l 3) `suffix_of` kept (truncate_to_budget l 100) ∧
  length (kept (truncate_to_budget l 3)) = 4%nat ∧ length (kept (truncate_to_budget l 100)) = 6%nat.
Proof.
  intros l. split; [|by vm_compute].
  apply (truncate_invariants l 3 100). lia.
Defined.

(** When the roles do not alternate, as after replies without a message of
    their own, the repair leaves out one reply and sends the others without
    the message they answer. *)
Lemma repair_keeps_orphans :
  let m r := mkMessage r "x" in
  let l := [m User; m Assistant; m Assistant; m Assistant; m Assistant; m Assistant] in
  kept (truncate_to_budget l 1) = [m Assistant; m Assistant; m Assistant].
Proof. by vm_compute. Qed.

(** The loaded budget is at least the floor, and the stored value when that is
    in range; a larger stored value is cut to 32 bits first. *)
Lemma load_max_history_tokens_range raw : MIN_HISTORY_TOKENS ≤ load_max_history_tokens raw ≤ u32_max.
Proof.
  unfold load_max_history_tokens, MIN_HISTORY_TOKENS, DEFAULT_HISTORY_TOKENS, as_u32, u32_max.
  destruct raw as [n|]; [|lia]. destruct (0 <? n); [|lia].
  pose proof (Z.mod_pos_bound n (2 ^ 32) ltac:(lia)). lia.
Qed.

Lemma load_max_history_tokens_wraps : load_max_history_tokens (Some (2 ^ 32)) = MIN_HISTORY_TOKENS.
Proof. by vm_compute. Qed.
