(* ===== verification/ContextWindow.v ===== *)
(** * The context window

    [crates/context-window/src/lib.rs]: fitting a request to the model's
    context by dropping the oldest turns, and the older trimming policies;
    the message types are of [crates/inference-api/src/lib.rs].  The size of
    the JSON encoding is a parameter. *)

From Stdlib Require Import Strings.Ascii.
From S2P Require Import Prelude Wire Text.

(** ** Messages *)

Inductive Role : Type := System | User | Assistant | Tool.

#[global] Instance Role_eq_dec : EqDecision Role.
Proof. solve_decision. Defined.

Inductive ContentPart : Type := PartText (text : string) | PartImageUrl (url : string).

Inductive MessageContent : Type := ContentText (text : string) | ContentParts (parts : list ContentPart).

Record ToolCall : Type := mkCall { call_id : string; call_kind : string; call_name : string; call_arguments : string }.

Record ChatMessage : Type := mkChat {
  role : Role;
  content : option MessageContent;
  reasoning_content : option string;
  tool_call_id : option string;
  name : option string;
  tool_calls : list ToolCall
}.

Definition msg_of (r : Role) (t : string) : ChatMessage :=
  mkChat r (Some (ContentText t)) None None None [].

Definition part_text (p : ContentPart) : option string :=
  match p with PartText t => Some t | PartImageUrl _ => None end.

(** [as_text] *)
Definition as_text (c : MessageContent) : string :=
  match c with
  | ContentText t => t
  | ContentParts parts => String.concat (String (Ascii.ascii_of_nat 10) "") (omap part_text parts)
  end.

(** ** Fitting a request *)

(** [u32::clamp(1_000, 3_000)] and the ceiling division in [u128], where
    nothing saturates for a [usize] number of bytes. *)
Definition estimate_tokens_from_bytes (bytes bytes_per_token_milli : Z) : Z :=
  let ratio := Z.max 1000 (Z.min 3000 bytes_per_token_milli) in
  Z.min ((bytes * 1000 + (ratio - 1)) / ratio) u64_max.

Definition is_compaction_receipt (m : ChatMessage) : bool :=
  bool_decide (role m = User)
  && match content m with
     | Some c => starts_with (as_text c) "Untrusted history summary "
     | None => false
     end.

Definition real_user (m : ChatMessage) : bool :=
  bool_decide (role m = User) && negb (is_compaction_receipt m).

Section Fit.
Context (estimate : list ChatMessage → result string Z) (budget : Z).

(** The trimming loop; the messages it leaves and the estimator's error. *)
Fixpoint fit_loop (fuel : nat) (messages : list ChatMessage) : list ChatMessage * result string unit :=
  match fuel with
  | O => (messages, Ok ())
  | S fuel =>
      match estimate messages with
      | Err e => (messages, Err e)
      | Ok n =>
          if (budget <? n) && (2 <? vec_len messages) then
            match position real_user messages with
            | None => (messages, Ok ())
            | Some first_user =>
                match position real_user (drop (S first_user) messages) with
                | None => (messages, Ok ())
                | Some k =>
                    let next_user := (S first_user + k)%nat in
                    fit_loop fuel (take first_user messages ++ drop next_user messages)
                end
            end
          else (messages, Ok ())
      end
  end.

(** Each round removes a message, so the number of messages is fuel enough. *)
Definition fit_with (over_budget : Z → string) (messages : list ChatMessage) :
    list ChatMessage * result string Z :=
  match fit_loop (S (length messages)) messages with
  | (messages', Err e) => (messages', Err e)
  | (messages', Ok _) =>
      match estimate messages' with
      | Err e => (messages', Err e)
      | Ok final_estimate =>
          if budget <? final_estimate then (messages', Err (over_budget final_estimate))
          else (messages', Ok final_estimate)
      end
  end.
End Fit.

Section Requests.
(** The length of [serde_json::to_vec] of a whole request, as a function of its
    messages; of a list of messages; and of the tool declarations. *)
Context (request_bytes messages_bytes : list ChatMessage → result string Z) (tools_bytes : result string Z).

Definition input_budget (context_tokens output_reserve : Z) : Z :=
  usize_saturating_sub context_tokens output_reserve.

Definition request_estimate (bytes_per_token_milli : Z) (messages : list ChatMessage) : result string Z :=
  match request_bytes messages with
  | Ok bytes => Ok (estimate_tokens_from_bytes bytes bytes_per_token_milli)
  | Err e => Err e
  end.

Definition request_over (budget n : Z) : string :=
  "mandatory serialized model request exceeds context budget: estimated " +:+ pretty n
  +:+ ", budget " +:+ pretty budget.

Definition fit_chat_request (messages : list ChatMessage)
    (context_tokens output_reserve bytes_per_token_milli : Z) : list ChatMessage * result string Z :=
  let budget := input_budget context_tokens output_reserve in
  fit_with (request_estimate bytes_per_token_milli) budget (request_over budget) messages.

Definition round_estimate (bytes_per_token_milli : Z) (messages : list ChatMessage) : result string Z :=
  match messages_bytes messages with
  | Ok m =>
      match tools_bytes with
      | Ok t => Ok (estimate_tokens_from_bytes (Z.min u64_max (m + t)) bytes_per_token_milli)
      | Err e => Err e
      end
  | Err e => Err e
  end.

Definition round_over (budget n : Z) : string :=
  "mandatory model request block exceeds context budget: estimated " +:+ pretty n
  +:+ ", budget " +:+ pretty budget.

Definition fit_model_round (messages : list ChatMessage)
    (context_tokens output_reserve bytes_per_token_milli : Z) : list ChatMessage * result string Z :=
  let budget := input_budget context_tokens output_reserve in
  fit_with (round_estimate bytes_per_token_milli) budget (round_over budget) messages.
End Requests.

(** ** Policies *)

Inductive ContextWindowPolicy : Type :=
| FullReplay
| SlidingTurns (max_turns : Z)
| TokenBudget (max_tokens reserve_for_reply : Z).

Definition part_chars (p : ContentPart) : Z :=
  match p with PartText t => str_len t | PartImageUrl _ => 256 end.

Definition content_chars (c : option MessageContent) : Z :=
  match c with
  | Some (ContentText t) => str_len t
  | Some (ContentParts parts) => foldr (λ p n, part_chars p + n) 0 parts
  | None => 0
  end.

Definition estimate_tokens (messages : list ChatMessage) : Z :=
  foldr (λ m n, 4 + content_chars (content m) / 4 + n) 0 messages.

Definition non_system (m : ChatMessage) : bool := bool_decide (role m ≠ System).

(** The walk from the tail: [l] holds the remaining indices and messages, most
    recent first; the index to keep from and the turns counted. *)
Fixpoint count_turns (max_turns : Z) (l : list (nat * ChatMessage)) (turns_counted : Z) (keep_from : nat) :
    nat * Z :=
  match l with
  | [] => (keep_from, turns_counted)
  | (i, m) :: l =>
      let turns_counted := if bool_decide (role m = User) then turns_counted + 1 else turns_counted in
      if turns_counted =? max_turns then (i, turns_counted)
      else count_turns max_turns l turns_counted keep_from
  end.

Definition sliding (max_turns : Z) (messages : list ChatMessage) : list ChatMessage :=
  if max_turns =? 0 then take 1 messages
  else
    let conversation_start := default 0%nat (position non_system messages) in
    let '(keep_from, turns_counted) :=
      count_turns max_turns (reverse (drop conversation_start (imap pair messages))) 0 (length messages) in
    if (conversation_start <? keep_from)%nat && (max_turns <=? turns_counted)
    then take conversation_start messages ++ drop keep_from messages
    else messages.

(** The loop of [TokenBudget]: the oldest message after the prompt goes. *)
Fixpoint budget_loop (fuel : nat) (budget : Z) (trim_up_to : nat) (messages : list ChatMessage) :
    list ChatMessage :=
  match fuel with
  | O => messages
  | S fuel =>
      if estimate_tokens messages <=? budget then messages
      else if (length messages - 1 <=? trim_up_to)%nat then messages
      else budget_loop fuel budget trim_up_to (delete trim_up_to messages)
  end.

Definition apply (policy : ContextWindowPolicy) (messages : list ChatMessage) : list ChatMessage :=
  if (length messages <=? 1)%nat then messages
  else
    match policy with
    | FullReplay => messages
    | SlidingTurns max_turns => sliding max_turns messages
    | TokenBudget max_tokens reserve_for_reply =>
        let budget := usize_saturating_sub max_tokens reserve_for_reply in
        let conversation_start := default (length messages) (position non_system messages) in
        budget_loop (length messages) budget conversation_start messages
    end.

(** [parse_policy] *)
Definition parse_sliding (s : string) : option ContextWindowPolicy :=
  match strip_prefix "sliding:" s with
  | Some rest => SlidingTurns <$> parse_usize rest
  | None => None
  end.

Definition parse_token_budget (s : string) : option ContextWindowPolicy :=
  match strip_prefix "token_budget:" s with
  | Some rest =>
      match split_once ":" rest with
      | Some (a, b) =>
          match parse_usize a, parse_usize b with
          | Some max, Some reserve => Some (TokenBudget max reserve)
          | _, _ => None
          end
      | None => None
      end
  | None => None
  end.

Definition parse_policy (s : string) : ContextWindowPolicy :=
  if String.eqb s "full_replay" then FullReplay
  else match parse_sliding s with
       | Some p => p
       | None => match parse_token_budget s with Some p => p | None => FullReplay end
       end.

(** ** Whole turns *)

(** A list of messages as what precedes the first message of the user, and the
    turns, each starting with such a message. *)
Fixpoint turns (l : list ChatMessage) : list ChatMessage * list (list ChatMessage) :=
  match l with
  | [] => ([], [])
  | m :: l => let '(h, ts) := turns l in if real_user m then ([], (m :: h) :: ts) else (m :: h, ts)
  end.

Definition quiet (l : list ChatMessage) : Prop := Forall (λ m, real_user m = false) l.

Inductive is_turn : list ChatMessage → Prop :=
| is_turn_intro m rest : real_user m = true → quiet rest → is_turn (m :: rest).

Lemma turns_spec l :
  l = (turns l).1 ++ concat (turns l).2 ∧ quiet (turns l).1 ∧ Forall is_turn (turns l).2.
Proof.
  induction l as [|m l (Heq & Hq & Ht)]; cbn; [by repeat constructor|].
  destruct (turns l) as [h ts]. cbn in *. destruct (real_user m) eqn:Hm; cbn.
  - split_and!; [by rewrite <-Heq|constructor|]. by repeat constructor.
  - split_and!; [by rewrite <-Heq|by constructor|done].
Qed.

Lemma position_quiet h m l :
  quiet h → real_user m = true → position real_user (h ++ m :: l) = Some (length h).
Proof. intros Hq Hm. induction Hq as [|x h Hx _ IH]; cbn; [by rewrite Hm|]. by rewrite Hx, IH. Qed.

Lemma position_quiet_none h : quiet h → position real_user h = None.
Proof. apply position_None. Qed.

Section FitProofs.
Context (estimate : list ChatMessage → result string Z) (budget : Z).

Definition too_large (l : list ChatMessage) : Prop := ∃ n, estimate l = Ok n ∧ budget < n.

(** The loop dropped the first [j] turns, each while the list was too large,
    and stopped for a reason. *)
Definition dropped_turns (h : list ChatMessage) (ts : list (list ChatMessage)) (j : nat)
    (out : list ChatMessage * result string unit) : Prop :=
  (j = 0 ∨ j < length ts)%nat ∧
  (∀ i, (i < j)%nat → too_large (h ++ concat (drop i ts))) ∧
  out.1 = h ++ concat (drop j ts) ∧
  match out.2 with
  | Err e => estimate out.1 = Err e
  | Ok _ => too_large out.1 → vec_len out.1 ≤ 2 ∨ (length ts ≤ S j)%nat
  end.

Lemma fit_loop_spec fuel h ts :
  quiet h → Forall is_turn ts → (length ts < fuel)%nat →
  ∃ j, dropped_turns h ts j (fit_loop estimate budget fuel (h ++ concat ts)).
Proof.
  intros Hq. revert ts. induction fuel as [|fuel IH]; intros ts Ht Hf; [lia|]. cbn [fit_loop].
  assert (∀ r : result string unit,
    match r with
    | Err e => estimate (h ++ concat ts) = Err e
    | Ok _ => too_large (h ++ concat ts) → vec_len (h ++ concat ts) ≤ 2 ∨ (length ts ≤ 1)%nat
    end → ∃ j, dropped_turns h ts j (h ++ concat ts, r)) as Hstop.
  { intros r Hr. exists 0%nat. split_and!; [by left|lia|done|]. by destruct r. }
  destruct (estimate (h ++ concat ts)) as [n|e] eqn:He; [|by apply Hstop].
  destruct (Z.ltb_spec budget n) as [Hn|Hn]; cbn [andb].
  2:{ apply Hstop. intros (n' & Hn' & ?). rewrite He in Hn'. simplify_eq. lia. }
  destruct (Z.ltb_spec 2 (vec_len (h ++ concat ts))) as [Hl|Hl]; [|apply Hstop; by left].
  destruct ts as [|t ts].
  { cbn [concat]. rewrite app_nil_r, position_quiet_none by done. rewrite app_nil_r in Hstop. apply Hstop.
    right. cbn. lia. }
  apply Forall_cons in Ht as [Hturn Hts]. destruct Hturn as [m rest Hm Hrest]. cbn [concat].
  rewrite <-app_comm_cons, position_quiet by done.
  replace (drop (S (length h)) (h ++ m :: rest ++ concat ts)) with (rest ++ concat ts)
    by (rewrite (cons_middle m h), (app_assoc h), drop_app_length'; [done|rewrite length_app; cbn; lia]).
  destruct ts as [|t2 ts].
  { cbn [concat]. rewrite app_nil_r, position_quiet_none by done.
    cbn [concat] in Hstop. rewrite app_nil_r in Hstop. apply Hstop. right. cbn. lia. }
  pose proof Hts as Hts2. apply Forall_cons in Hts2 as [Hturn2 _].
  destruct Hturn2 as [m' rest' Hm' _]. cbn [concat]. rewrite <-app_comm_cons.
  rewrite position_quiet by done.
  rewrite take_app_length.
  replace (drop (S (length h) + length rest) (h ++ m :: rest ++ m' :: rest' ++ concat ts))
    with (concat ((m' :: rest') :: ts)).
  2:{ rewrite (cons_middle m h), (app_assoc h), app_assoc, drop_app_length'; [done|].
      rewrite !length_app. cbn. lia. }
  destruct (IH ((m' :: rest') :: ts) Hts) as (j & Hj & Hbefore & Heq & Hres); [cbn in *; lia|].
  exists (S j). split_and!; [right; cbn in *; lia| |done|].
  - intros [|i] Hi; [|apply Hbefore; lia]. exists n. split; [|done]. by rewrite <-He.
  - destruct (fit_loop _ _ _ _).2; [|done]. intros HL. destruct (Hres HL) as [?|?]; [by left|].
    right. cbn in *. lia.
Qed.

(** The outcome of fitting, in terms of whole turns: the messages before the
    first turn stay, the first [j] turns are dropped, never the last one and
    none that need not be, and the answer is the size of what is left when
    that fits, an error when it does not and no more can be dropped. *)
Definition keeps_newest_turns (over : Z → string) (messages : list ChatMessage)
    (out : list ChatMessage * result string Z) : Prop :=
  let h := (turns messages).1 in
  let ts := (turns messages).2 in
  ∃ j, (j = 0 ∨ j < length ts)%nat ∧
    (∀ i, (i < j)%nat → too_large (h ++ concat (drop i ts))) ∧
    out.1 = h ++ concat (drop j ts) ∧
    match out.2 with
    | Ok n => estimate out.1 = Ok n ∧ n ≤ budget
    | Err e =>
        estimate out.1 = Err e ∨
        (∃ n, estimate out.1 = Ok n ∧ budget < n ∧ e = over n ∧
              (vec_len out.1 ≤ 2 ∨ (length ts ≤ S j)%nat))
    end.

Lemma length_concat_turns ts : Forall is_turn ts → (length ts ≤ length (concat ts))%nat.
Proof. induction 1 as [|t ts [m rest _ _] _ IH]; cbn; [lia|]. rewrite length_app. lia. Qed.

Lemma fit_with_spec over messages :
  keeps_newest_turns over messages (fit_with estimate budget over messages).
Proof.
  destruct (turns_spec messages) as (Heq & Hq & Ht). unfold keeps_newest_turns. cbv zeta.
  set (h := (turns messages).1) in *. set (ts := (turns messages).2) in *. clearbody h ts. subst messages.
  destruct (fit_loop_spec (S (length (h ++ concat ts))) h ts Hq Ht) as (j & Hj & Hbefore & Hfst & Hsnd).
  { rewrite length_app. pose proof (length_concat_turns ts Ht). lia. }
  exists j. unfold fit_with.
  destruct (fit_loop estimate budget _ _) as [final r]; cbn in Hfst, Hsnd; subst final.
  destruct r as [u|e]; [|by split_and!; [..|left]].
  destruct (estimate _) as [n|e] eqn:He; [|by split_and!; [..|left]].
  destruct (Z.ltb_spec budget n); cbn; [|done]. split_and!; [done..|].
  right. exists n. split_and!; [done..|]. apply Hsnd. by exists n.
Qed.
End FitProofs.

Section RequestProofs.
Context (request_bytes messages_bytes : list ChatMessage → result string Z) (tools_bytes : result string Z).

(** fitting a request, or the messages and tools of one model round, drops
    the oldest whole turns of the user and nothing else, only while the
    request is too large, and never the newest turn; the loop ends, and the
    answer is the estimate of what is left when it is within the budget, and
    otherwise an error after which only two messages or one turn are left. *)
Theorem fit_keeps_newest_turns messages context_tokens output_reserve ratio :
  let budget := input_budget context_tokens output_reserve in
  keeps_newest_turns (request_estimate request_bytes ratio) budget (request_over budget) messages
    (fit_chat_request request_bytes messages context_tokens output_reserve ratio) ∧
  keeps_newest_turns (round_estimate messages_bytes tools_bytes ratio) budget (round_over budget) messages
    (fit_model_round messages_bytes tools_bytes messages context_tokens output_reserve ratio).
Proof. split; apply fit_with_spec. Qed.
End RequestProofs.

(** The estimate is a third to all of the bytes, rounded up. *)
Lemma estimate_tokens_bounds bytes ratio :
  0 ≤ bytes ≤ u64_max →
  bytes ≤ 3 * estimate_tokens_from_bytes bytes ratio ∧ estimate_tokens_from_bytes bytes ratio ≤ bytes.
Proof.
  intros Hb. unfold estimate_tokens_from_bytes. set (r := Z.max 1000 (Z.min 3000 ratio)).
  assert (1000 ≤ r ≤ 3000) as Hr by lia. clearbody r.
  pose proof (Z.div_mod (bytes * 1000 + (r - 1)) r ltac:(lia)).
  pose proof (Z.mod_pos_bound (bytes * 1000 + (r - 1)) r ltac:(lia)).
  set (q := (bytes * 1000 + (r - 1)) / r) in *. unfold u64_max in *. nia.
Qed.

(** ** The trimming policies *)

(** The messages before the first that is not of the system role. *)
Definition system_prefix (l : list ChatMessage) : nat := default (length l) (position non_system l).

Lemma system_prefix_split l :
  ∃ p r, l = p ++ r ∧ length p = system_prefix l ∧ Forall (λ m, role m = System) p ∧
    match r with [] => True | m :: _ => role m ≠ System end.
Proof.
  unfold system_prefix. induction l as [|m l (p & r & Heq & Hlen & Hp & Hr)]; cbn.
  - by exists [], [].
  - unfold non_system at 1. case_bool_decide as Hm; cbn.
    + exists [], (m :: l). by repeat constructor.
    + assert (role m = System) as Hs by (destruct (decide (role m = System)); [done|by destruct Hm]).
      exists (m :: p), r. split_and!; [by rewrite Heq| |by constructor|done].
      cbn. rewrite Hlen. by destruct (position non_system l).
Qed.

Lemma position_system p m r :
  Forall (λ m, role m = System) p → role m ≠ System → position non_system (p ++ m :: r) = Some (length p).
Proof.
  intros Hp Hm. induction Hp as [|x p Hx _ IH]; cbn; unfold non_system at 1.
  - by rewrite bool_decide_true.
  - by rewrite bool_decide_false, IH by (by intros ?).
Qed.

(** One pass of a policy: nothing is removed but a stretch directly after the
    system prompt. *)
Definition trims_front (s : nat) (before after : list ChatMessage) : Prop :=
  ∃ k, (s ≤ k)%nat ∧ after = take s before ++ drop k before.

Lemma trims_front_refl s l : trims_front s l l.
Proof. exists s. split; [done|]. by rewrite take_drop. Qed.

(** *** [TokenBudget] *)

Lemma budget_loop_spec fuel budget p l :
  (length l ≤ fuel)%nat →
  ∃ k, budget_loop fuel budget (length p) (p ++ l) = p ++ drop k l ∧
    (∀ i, (i < k)%nat → budget < estimate_tokens (p ++ drop i l)) ∧
    (estimate_tokens (p ++ drop k l) ≤ budget ∨ (length l ≤ S k)%nat) ∧ (k = 0 ∨ k < length l)%nat.
Proof.
  revert l. induction fuel as [|fuel IH]; intros l Hf.
  { exists 0%nat. split_and!; [done|lia|right; lia|by left]. }
  cbn [budget_loop].
  destruct (Z.leb_spec (estimate_tokens (p ++ l)) budget) as [Hle|Hgt].
  { exists 0%nat. split_and!; [done|lia|by left|by left]. }
  destruct (Nat.leb_spec (length (p ++ l) - 1) (length p)) as [Hlen|Hlen]; rewrite length_app in Hlen.
  { exists 0%nat. split_and!; [done|lia|right; lia|by left]. }
  destruct l as [|m l]; [cbn in Hlen; lia|]. rewrite delete_middle.
  destruct (IH l) as (k & -> & Hb & Hres & Hk); [cbn in Hf; lia|]. exists (S k).
  split_and!; [done| |destruct Hres; [by left|right; cbn; lia]|cbn in *; lia].
  intros [|i] Hi; [done|]. apply Hb. lia.
Qed.

(** *** [SlidingTurns] *)

Definition is_user (m : ChatMessage) : bool := bool_decide (role m = User).
Definition users (l : list ChatMessage) : Z := vec_len (List.filter is_user l).

Lemma users_app l k : users (l ++ k) = users l + users k.
Proof. unfold users, vec_len. rewrite List.filter_app, length_app. lia. Qed.

Lemma users_nonneg l : 0 ≤ users l.
Proof. unfold users, vec_len. lia. Qed.

Lemma users_cons m l : users (m :: l) = (if bool_decide (role m = User) then users l + 1 else users l).
Proof.
  unfold users, vec_len. cbn. change (is_user m) with (bool_decide (role m = User)).
  case_bool_decide; cbn [length]; lia.
Qed.

(** The walk over [pre], after which [post] has been visited. *)
Lemma count_turns_spec max_turns off pre post total :
  users post < max_turns →
  match count_turns max_turns (reverse (imap (λ i m, (off + i, m)%nat) pre)) (users post) total with
  | (keep_from, n) =>
      (n = users (pre ++ post) ∧ n < max_turns ∧ keep_from = total) ∨
      (n = max_turns ∧ ∃ a u b, pre = a ++ u :: b ∧ role u = User ∧ keep_from = (off + length a)%nat ∧
         users (u :: b ++ post) = max_turns)
  end.
Proof.
  revert post. induction pre as [|m pre IH] using rev_ind; intros post Hpost.
  { left. by cbn. }
  rewrite imap_app, reverse_app. cbn [imap reverse rev_append app count_turns]. unfold compose. rewrite Nat.add_0_r.
  set (n := if bool_decide (role m = User) then users post + 1 else users post).
  assert (n = users (m :: post)) as Hn by (by rewrite users_cons).
  destruct (Z.eqb_spec n max_turns) as [He|He].
  - right. split; [done|]. exists pre, m, []. split_and!; [done| |done|by rewrite <-He, Hn].
    unfold n in He. case_bool_decide; [done|lia].
  - assert (n < max_turns) as Hlt by (unfold n in *; case_bool_decide; lia).
    rewrite Hn in *. specialize (IH (m :: post) Hlt). rewrite <-app_assoc. cbn [app].
    destruct (count_turns _ _ _ _) as [kf c]. destruct IH as [?|(Hc & a & u & b & -> & Hu & Hk & Hus)]; [by left|].
    right. split; [done|]. exists a, u, (b ++ [m]). rewrite <-!app_assoc. by split_and!.
Qed.

(** With the leading system messages [p] set apart: everything is kept when
    there are fewer turns, else [p] and the last [max_turns] turns. *)
Lemma sliding_spec max_turns p l :
  0 < max_turns → Forall (λ m, role m = System) p → match l with [] => True | m :: _ => role m ≠ System end →
  (sliding max_turns (p ++ l) = p ++ l ∧ users l < max_turns) ∨
  (∃ a u b, l = a ++ u :: b ∧ role u = User ∧ users (u :: b) = max_turns ∧
     sliding max_turns (p ++ l) = p ++ u :: b).
Proof.
  intros Hmax Hp Hl. unfold sliding. destruct (Z.eqb_spec max_turns 0); [lia|]. clear n.
  assert (∃ q r, p ++ l = q ++ r ∧ default 0%nat (position non_system (p ++ l)) = length q ∧
    (q = p ∧ r = l ∨ q = [] ∧ l = [])) as (q & r & Heq & Hpos & Hqr).
  { destruct l as [|m l].
    - exists [], p. rewrite app_nil_r. split_and!; [done| |by right].
      replace (position non_system p) with (@None nat); [done|]. symmetry. apply position_None.
      eapply Forall_impl; [done|]. intros m Hm. cbn in Hm. unfold non_system. by rewrite Hm.
    - exists p, (m :: l). rewrite position_system by done. split_and!; [done..|by left]. }
  rewrite Heq, <-Heq, Hpos, Heq.
  assert (drop (length q) (imap pair (q ++ r)) = imap (λ i m, (length q + i, m)%nat) r) as ->.
  { rewrite imap_app, drop_app_length'; [done|]. by rewrite length_imap. }
  pose proof (count_turns_spec max_turns (length q) r [] (length (q ++ r))) as Hc.
  change (users []) with 0 in Hc. specialize (Hc Hmax).
  destruct (count_turns _ _ _ _) as [keep_from n].
  destruct Hc as [(-> & Hn & ->)|(-> & a & u & b & -> & Hu & -> & Hus)].
  - left. rewrite app_nil_r in Hn |- *. rewrite (proj2 (Z.leb_gt _ _)) by lia. rewrite andb_false_r.
    split; [done|]. destruct Hqr as [[-> ->]|[-> ->]]; [done|]. unfold users, vec_len; cbn; lia.
  - rewrite app_nil_r in Hus. destruct Hqr as [[-> <-]|[-> ->]].
    + right. exists a, u, b. split_and!; [done..|].
      rewrite Z.leb_refl, andb_true_r. destruct (Nat.ltb_spec (length p) (length p + length a)).
      * rewrite take_app_length, drop_app_ge, Nat.add_sub' by lia. by rewrite drop_app_length.
      * destruct a; [done|cbn in *; lia].
    + exfalso. rewrite app_nil_r in Heq. subst p. cbn [app] in Hp.
      apply Forall_app in Hp as [_ Hp]. apply Forall_cons in Hp as [Hs _]. congruence.
Qed.

(** The configured numbers are [usize]. *)
Definition policy_ok (policy : ContextWindowPolicy) : Prop :=
  match policy with
  | FullReplay => True
  | SlidingTurns n => 0 ≤ n
  | TokenBudget m r => 0 ≤ m ∧ 0 ≤ r
  end.

Lemma apply_short policy l : (length l ≤ 1)%nat → apply policy l = l.
Proof. intros Hl. unfold apply. by rewrite (proj2 (Nat.leb_le _ _) Hl). Qed.

Lemma apply_long policy l :
  (1 < length l)%nat →
  apply policy l =
    match policy with
    | FullReplay => l
    | SlidingTurns n => sliding n l
    | TokenBudget m r => budget_loop (length l) (usize_saturating_sub m r) (system_prefix l) l
    end.
Proof.
  intros Hl. unfold apply. rewrite (proj2 (Nat.leb_gt _ _) Hl). by destruct policy.
Qed.

Lemma apply_budget m r l :
  ∃ k, apply (TokenBudget m r) l = take (system_prefix l) l ++ drop (system_prefix l + k) l ∧
    (k = 0 ∨ system_prefix l + k < length l)%nat ∧
    (∀ i, (i < k)%nat → usize_saturating_sub m r <
       estimate_tokens (take (system_prefix l) l ++ drop (system_prefix l + i) l)) ∧
    (estimate_tokens (apply (TokenBudget m r) l) ≤ usize_saturating_sub m r ∨
     (length (apply (TokenBudget m r) l) ≤ system_prefix l + 1)%nat).
Proof.
  destruct (decide (length l ≤ 1)%nat) as [Hs|Hl].
  { rewrite apply_short by done. exists 0%nat. rewrite Nat.add_0_r, take_drop.
    split_and!; [done|by left|lia|right; lia]. }
  rewrite apply_long by lia. destruct (system_prefix_split l) as (p & q & -> & Hlen & _).
  rewrite <-Hlen. destruct (budget_loop_spec (length (p ++ q)) (usize_saturating_sub m r) p q) as (k & -> & Hb & Hres & Hk).
  { rewrite length_app. lia. }
  rewrite take_app_length. setoid_rewrite drop_app_add. exists k.
  split_and!; [done|rewrite length_app; lia|done|]. destruct Hres as [?|?]; [by left|right].
  rewrite length_app, length_drop. lia.
Qed.

Lemma apply_sliding n l :
  0 < n →
  (apply (SlidingTurns n) l = l) ∨
  (∃ a u b, l = take (system_prefix l) l ++ a ++ u :: b ∧ role u = User ∧ users (u :: b) = n ∧
     apply (SlidingTurns n) l = take (system_prefix l) l ++ u :: b).
Proof.
  intros Hn. destruct (decide (length l ≤ 1)%nat) as [Hs|Hl]; [left; by apply apply_short|].
  rewrite apply_long by lia. destruct (system_prefix_split l) as (p & q & Heq & Hlen & Hp & Hq).
  rewrite <-Hlen. clear Hlen Hl. subst l. destruct (sliding_spec n p q Hn Hp Hq) as [[-> _]|(a & u & b & -> & Hu & Hus & ->)].
  - by left.
  - right. exists a, u, b. rewrite take_app_length. by split_and!.
Qed.

Lemma users_user u b : role u = User → users (u :: b) = users b + 1.
Proof. intros Hu. rewrite users_cons. by rewrite bool_decide_true. Qed.

Lemma apply_sliding_idem n l : 0 < n → apply (SlidingTurns n) (apply (SlidingTurns n) l) = apply (SlidingTurns n) l.
Proof.
  intros Hn. destruct (apply_sliding n l Hn) as [Heq|(a & u & b & Hl & Hu & Hus & Heq)]; rewrite Heq; [done|].
  set (p := take (system_prefix l) l) in *.
  destruct (apply_sliding n (p ++ u :: b) Hn) as [?|(a' & u' & b' & Hl' & Hu' & Hus' & ->)]; [done|].
  assert (Forall (λ m, role m = System) p ∧ system_prefix (p ++ u :: b) = length p) as [Hp Hsp].
  { destruct (system_prefix_split l) as (q & r & Hq & Hlen & Hs & _).
    assert (p = q) as -> by (unfold p; rewrite <-Hlen, Hq; apply take_app_length).
    split; [done|]. unfold system_prefix. rewrite position_system; [done..|]. by rewrite Hu. }
  rewrite Hsp, take_app_length in Hl' |- *. f_equal. apply app_inv_head in Hl'.
  destruct a' as [|x a']; [done|]. injection Hl' as <- Hb. exfalso.
  rewrite (users_user u) in Hus by done. rewrite Hb, users_app, Hus' in Hus.
  pose proof (users_nonneg a'). lia.
Qed.

Lemma apply_budget_idem m r l :
  apply (TokenBudget m r) (apply (TokenBudget m r) l) = apply (TokenBudget m r) l.
Proof.
  destruct (apply_budget m r l) as (k & Heq & Hk & _ & Hres).
  set (out := apply (TokenBudget m r) l) in *.
  assert (system_prefix l ≤ system_prefix out)%nat as Hsp.
  { destruct (system_prefix_split l) as (p & q & Hl & Hlen & Hp & _).
    rewrite Heq. clear -Hl Hlen Hp. subst l. rewrite <-Hlen, take_app_length. clear Hlen. unfold system_prefix. induction Hp as [|x p Hx _ IH]; [cbn; lia|].
    cbn. unfold non_system at 1. rewrite bool_decide_false by (by intros ?). cbn.
    destruct (position non_system (p ++ _)); cbn in *; lia. }
  destruct (apply_budget m r out) as (k' & -> & Hk' & Hbefore & _).
  assert (k' = 0)%nat as ->; [|by rewrite Nat.add_0_r, take_drop].
  destruct (decide (k' = 0%nat)) as [|Hne]; [done|exfalso].
  specialize (Hbefore 0%nat ltac:(lia)). rewrite Nat.add_0_r, take_drop in Hbefore. lia.
Qed.

Lemma length_system_prefix l : length (take (system_prefix l) l) = system_prefix l.
Proof.
  rewrite length_take. apply Nat.min_l. unfold system_prefix.
  destruct (position non_system l) eqn:Hp; cbn; [|lia].
  apply position_Some in Hp as (? & Hp & _). apply lookup_lt_Some in Hp. lia.
Qed.

Lemma drop_split {A} (n : nat) (l p a r : list A) :
  length p = n → l = p ++ a ++ r → r = drop (n + length a) l.
Proof. intros <- ->. by rewrite drop_app_add, drop_app_length. Qed.

(** the trimming policies. A policy removes nothing but a stretch directly
    after the system prompt (for the policy of zero turns: when the prompt is
    one message), applying it again changes nothing, a token budget is met
    unless a single message is left beside the prompt, and a number of turns
    keeps everything or exactly that many of the newest turns. *)
Theorem apply_trims_front policy l :
  policy_ok policy →
  (policy ≠ SlidingTurns 0 ∨ system_prefix l = 1%nat →
     trims_front (system_prefix l) l (apply policy l)) ∧
  apply policy (apply policy l) = apply policy l ∧
  match policy with
  | FullReplay => apply policy l = l
  | TokenBudget m r =>
      estimate_tokens (apply policy l) ≤ usize_saturating_sub m r ∨
      (length (apply policy l) ≤ system_prefix l + 1)%nat
  | SlidingTurns n =>
      0 < n → apply policy l = l ∨
      ∃ u b, apply policy l = take (system_prefix l) l ++ u :: b ∧ role u = User ∧ users (u :: b) = n
  end.
Proof.
  intros Hok. destruct policy as [|n|m r]; cbn in Hok.
  - assert (∀ l, apply FullReplay l = l) as Hid by (intros l'; unfold apply; by destruct (_ <=? _)%nat).
    rewrite !Hid. split_and!; [intros _; apply trims_front_refl|done|done].
  - destruct (decide (n = 0)) as [->|Hn].
    + assert (apply (SlidingTurns 0) l = take 1 l) as Hz.
      { destruct (decide (length l ≤ 1)%nat); [by rewrite apply_short, take_ge by done|].
        by rewrite apply_long by lia. }
      split_and!; [|by rewrite apply_short by (rewrite Hz, length_take; lia)|lia].
      intros [?|Hs]; [done|]. rewrite Hs, Hz. exists (length l).
      destruct l as [|x l]; [done|]. split; [cbn; lia|]. by rewrite drop_all, app_nil_r.
    + destruct (apply_sliding n l) as [Heq|(a & u & b & Hl & Hu & Hus & Heq)]; [lia|..].
      * rewrite !Heq. split_and!; [intros _; apply trims_front_refl|done|by left].
      * split_and!; [intros _|apply apply_sliding_idem; lia|right; exists u, b; by rewrite Heq].
        exists (system_prefix l + length a)%nat. split; [lia|]. rewrite Heq. f_equal.
        by apply (drop_split _ _ (take (system_prefix l) l)); [apply length_system_prefix|].
  - destruct (apply_budget m r l) as (k & Heq & _ & _ & Hres).
    split_and!; [intros _|apply apply_budget_idem|done]. exists (system_prefix l + k)%nat.
    split; [lia|done].
Qed.

Definition window_messages : list ChatMessage :=
  [msg_of System "you are"; msg_of User "a"; msg_of Assistant "b"; msg_of User "c"; msg_of Assistant "d"].

Lemma apply_trims_front_witness :
  apply (SlidingTurns 1) (apply (SlidingTurns 1) window_messages) = apply (SlidingTurns 1) window_messages ∧
  apply (SlidingTurns 1) window_messages = [msg_of System "you are"; msg_of User "c"; msg_of Assistant "d"].
Proof.
  split; [|by vm_compute].
  apply (apply_trims_front (SlidingTurns 1) window_messages). cbn. lia.
Defined.

(** Zero turns without a system prompt: the oldest message is kept, and the
    newest are the ones removed. *)
Lemma sliding_zero_keeps_oldest :
  apply (SlidingTurns 0) [msg_of User "old"; msg_of Assistant "reply"; msg_of User "new"] = [msg_of User "old"].
Proof. by vm_compute. Qed.

Lemma parse_policy_examples :
  parse_policy "sliding:12" = SlidingTurns 12 ∧ parse_policy "token_budget:4096:512" = TokenBudget 4096 512 ∧
  parse_policy "full_replay" = FullReplay ∧ parse_policy "sliding:x" = FullReplay.
Proof. by vm_compute. Qed.
