(* ===== verification/TurnControls.v ===== *)
(** * Turn controls

    [crates/core/src/turn_controls.rs]: the durable queue of steering, pause,
    resume, cancel and next-turn requests, with the lifecycle of each; and
    [append_queued_turn_message] of [crates/server/src/chats.rs], which
    commits a queued message to the event log and applies its control in one
    transaction. *)

From stdpp Require Import sorting.
From S2P Require Import Prelude Wire Text EventKind EventHmac Schema EventLog.

(** ** Kinds and states *)

Inductive TurnControlKind : Type := QueueNextTurn | Steer | Pause | Resume | Cancel.

#[global] Instance TurnControlKind_eq_dec : EqDecision TurnControlKind.
Proof. solve_decision. Defined.

Definition kind_str (k : TurnControlKind) : string :=
  match k with
  | QueueNextTurn => "queue_next_turn"
  | Steer => "steer"
  | Pause => "pause"
  | Resume => "resume"
  | Cancel => "cancel"
  end.

Definition kind_parse (s : string) : option TurnControlKind :=
  if String.eqb s "queue_next_turn" then Some QueueNextTurn
  else if String.eqb s "steer" then Some Steer
  else if String.eqb s "pause" then Some Pause
  else if String.eqb s "resume" then Some Resume
  else if String.eqb s "cancel" then Some Cancel
  else None.

Inductive TurnControlStatus : Type := Accepted | Delivered | Applied | Acknowledged | Cancelled | Failed.

#[global] Instance TurnControlStatus_eq_dec : EqDecision TurnControlStatus.
Proof. solve_decision. Defined.

Definition status_str (s : TurnControlStatus) : string :=
  match s with
  | Accepted => "accepted"
  | Delivered => "delivered"
  | Applied => "applied"
  | Acknowledged => "acknowledged"
  | Cancelled => "cancelled"
  | Failed => "failed"
  end.

(** The match of [map_record]. *)
Definition status_parse (s : string) : option TurnControlStatus :=
  if String.eqb s "accepted" then Some Accepted
  else if String.eqb s "delivered" then Some Delivered
  else if String.eqb s "applied" then Some Applied
  else if String.eqb s "acknowledged" then Some Acknowledged
  else if String.eqb s "cancelled" then Some Cancelled
  else if String.eqb s "failed" then Some Failed
  else None.

Inductive TurnControlError : Type :=
| ControlDb (e : DbError)
| IdempotencyConflict
| TransitionError (msg : string).

(** serde_json and the digest, and the JSON objects the store builds. *)
Class Json (J : Type) : Type := {
  json_to_string : J → result string string;
  json_from_str : string → option J;
  json_null : J;
  json_event_seq : Z → J
}.

Section Controls.
Context {J : Type} {JJ : Json J} (sha256_hex : bytes → string).

Record TurnControlRecord : Type := mkRecord {
  control_id : string;
  conversation_id : string;
  turn_id : option string;
  kind : TurnControlKind;
  payload : J;
  status : TurnControlStatus;
  acknowledgement : option J;
  created_at : Z;
  updated_at : Z;
  acknowledged_at : option Z
}.

(** [rusqlite::Error::InvalidQuery] *)
Definition invalid_query : DbError := Sqlite "Query is not read-only".

Definition map_record (r : ControlRow) : result DbError TurnControlRecord :=
  match kind_parse (tc_kind r), status_parse (tc_status r), json_from_str (tc_payload_json r) with
  | Some k, Some s, Some p =>
      Ok (mkRecord (tc_control_id r) (tc_conversation_id r) (tc_turn_id r) k p s
            ((λ v, default json_null (json_from_str v)) <$> tc_acknowledgement_json r)
            (tc_created_at r) (tc_updated_at r) (tc_acknowledged_at r))
  | _, _, _ => Err invalid_query
  end.

(** [query_map(..)?.collect::<Result<Vec<_>, _>>()] *)
Fixpoint map_records (rows : list ControlRow) : result DbError (list TurnControlRecord) :=
  match rows with
  | [] => Ok []
  | r :: rows =>
      match map_record r with
      | Err e => Err e
      | Ok x => match map_records rows with Err e => Err e | Ok xs => Ok (x :: xs) end
      end
  end.

(** ** SQL on the tables *)

Definition has_control (id : string) (r : ControlRow) : bool := String.eqb (tc_control_id r) id.

(** [SELECT ... WHERE control_id = ?] with [.optional()] *)
Definition find_control (id : string) (d : Db) : option ControlRow :=
  List.find (has_control id) (turn_controls d).

Definition same_request (c : string) (request : option string) (r : ControlRow) : bool :=
  String.eqb (tc_conversation_id r) c
  && match request, tc_client_request_id r with
     | Some a, Some b => String.eqb a b
     | _, _ => false
     end.

(** [INSERT INTO state_turn_controls] *)
Definition insert_control (r : ControlRow) : tx Db () := λ d,
  if existsb (λ x, has_control (tc_control_id r) x
                   || same_request (tc_conversation_id r) (tc_client_request_id r) x) (turn_controls d)
  then Err constraint_failed
  else Ok ((), set_controls (λ l, l ++ [r]) d).

(** [INSERT INTO state_turn_control_transitions] *)
Definition insert_transition (t : ControlTransitionRow) : tx Db () := λ d,
  if existsb (λ x, String.eqb (ct_control_id x) (ct_control_id t) && (ct_ordinal x =? ct_ordinal t))
       (control_transitions d)
  then Err constraint_failed
  else Ok ((), add_control_transition t d).

(** [SELECT COALESCE(MAX(ordinal),-1)+1] *)
Definition next_ordinal (id : string) (d : Db) : Z :=
  foldr (λ t n, if String.eqb (ct_control_id t) id then Z.max (ct_ordinal t) n else n) (-1)
    (control_transitions d) + 1.

(** [UPDATE state_turn_controls SET f WHERE p]; the number of rows. *)
Definition update_controls (p : ControlRow → bool) (f : ControlRow → ControlRow) : tx Db Z := λ d,
  Ok (vec_len (List.filter p (turn_controls d)), set_controls (map (λ r, if p r then f r else r)) d).

(** The columns a transition assigns. *)
Definition moved (next : TurnControlStatus) (ack : option string) (now : Z) (r : ControlRow) : ControlRow :=
  mkControlRow (tc_control_id r) (tc_conversation_id r) (tc_turn_id r) (tc_kind r) (tc_payload_json r)
    (status_str next)
    (match ack with Some a => Some a | None => tc_acknowledgement_json r end)
    (tc_created_at r) now
    (if bool_decide (next = Acknowledged) then Some now else tc_acknowledged_at r)
    (tc_client_request_id r) (tc_request_body_sha256 r).

Definition created_before (a b : ControlRow) : Prop :=
  Is_true ((tc_created_at a <? tc_created_at b)
           || ((tc_created_at a =? tc_created_at b) && String.leb (tc_control_id a) (tc_control_id b))).

#[global] Instance created_before_dec : RelDecision created_before.
Proof. intros a b. unfold created_before. apply _. Defined.

(** [ORDER BY created_at, control_id] *)
Definition by_creation (l : list ControlRow) : list ControlRow := merge_sort created_before l.

Definition clamp (lo hi n : Z) : Z := Z.max lo (Z.min hi n).

(** ** Operations *)

Definition get (id : string) (d : Db) : result TurnControlError (option TurnControlRecord) :=
  match find_control id d with
  | None => Ok None
  | Some r => match map_record r with Ok x => Ok (Some x) | Err e => Err (ControlDb e) end
  end.

(** The read at the end of the operations that write. *)
Definition get_or (missing id : string) (d : Db) : result TurnControlError TurnControlRecord :=
  match get id d with
  | Err e => Err e
  | Ok None => Err (TransitionError missing)
  | Ok (Some x) => Ok x
  end.

Definition bad_turn_id (t : option string) : bool :=
  match t with Some v => (str_len v =? 0) || (128 <? str_len v) | None => false end.

Definition new_row (id c : string) (turn : option string) (k : TurnControlKind) (payload_json : string)
    (now : Z) (request hash : option string) : ControlRow :=
  mkControlRow id c turn (kind_str k) payload_json "accepted" None now now None request hash.

Definition enqueue_tx (row : ControlRow) (now : Z) : tx Db () :=
  insert_control row ;;*
  insert_transition (mkControlTransition (tc_control_id row) 0 "accepted" None now).

(** [enqueue]; [proposed_id] is the fresh UUID. *)
Definition enqueue (proposed_id c : string) (turn : option string) (k : TurnControlKind) (v : J) (now : Z)
    (d : Db) : result TurnControlError TurnControlRecord * Db :=
  match json_to_string v with
  | Err e => (Err (TransitionError ("encode payload: " +:+ e)), d)
  | Ok payload_json =>
      if (str_len c =? 0) || (128 <? str_len c) || (64 * 1024 <? str_len payload_json)
      then (Err (TransitionError "conversation or payload exceeds its bounds"), d)
      else if bad_turn_id turn then (Err (TransitionError "turn id is empty or oversized"), d)
      else
        match transaction (enqueue_tx (new_row proposed_id c turn k payload_json now None None) now) d with
        | (Err e, d) => (Err (ControlDb e), d)
        | (Ok _, d) => (get_or "control disappeared after insertion" proposed_id d, d)
        end
  end.

Definition nul_str : string := String (Ascii.ascii_of_nat 0) EmptyString.

Definition request_hash (k : TurnControlKind) (payload_json : string) : string :=
  sha256_hex (as_bytes (kind_str k +:+ nul_str +:+ payload_json)).

Definition conflict_message : string := "turn-control idempotency key was reused with a different intent".

Definition enqueue_idempotent_tx (proposed_id c : string) (turn : option string) (k : TurnControlKind)
    (payload_json request hash : string) (now : Z) : tx Db (string * bool) := λ d,
  match List.find (same_request c (Some request)) (turn_controls d) with
  | Some r =>
      if negb (bool_decide (tc_request_body_sha256 r = Some hash))
      then Err (Invariant conflict_message)
      else Ok ((tc_control_id r, false), d)
  | None =>
      (enqueue_tx (new_row proposed_id c turn k payload_json now (Some request) (Some hash)) now ;;*
       tx_ret (proposed_id, true)) d
  end.

(** [(0x21..=0x7e).contains(&byte)] for every byte. *)
Definition printable (s : string) : bool :=
  forallb (λ b, (33 <=? byte_to_Z b) && (byte_to_Z b <=? 126)) (as_bytes s).

Definition enqueue_idempotent (proposed_id c : string) (turn : option string) (k : TurnControlKind) (v : J)
    (request : string) (now : Z) (d : Db) : result TurnControlError (TurnControlRecord * bool) * Db :=
  match json_to_string v with
  | Err e => (Err (TransitionError ("encode payload: " +:+ e)), d)
  | Ok payload_json =>
      if (str_len c =? 0) || (128 <? str_len c) || (64 * 1024 <? str_len payload_json)
         || (str_len request =? 0) || (128 <? str_len request) || negb (printable request)
      then (Err (TransitionError "conversation, payload, or idempotency key exceeds its bounds"), d)
      else if bad_turn_id turn then (Err (TransitionError "turn id is empty or oversized"), d)
      else
        let hash := request_hash k payload_json in
        match transaction (enqueue_idempotent_tx proposed_id c turn k payload_json request hash now) d with
        | (Err e, d) =>
            (Err (if bool_decide (e = Invariant conflict_message) then IdempotencyConflict else ControlDb e), d)
        | (Ok (id, is_new), d) =>
            match get_or "control disappeared after insertion" id d with
            | Err e => (Err e, d)
            | Ok x => (Ok (x, is_new), d)
            end
        end
  end.

(** The lifecycle match of [transition_in_transaction]. *)
Definition allowed (current : string) (next : TurnControlStatus) : bool :=
  match status_parse current, next with
  | Some Accepted, (Delivered | Applied | Acknowledged | Cancelled | Failed) => true
  | Some Delivered, (Applied | Acknowledged | Cancelled | Failed) => true
  | Some Applied, (Acknowledged | Cancelled | Failed) => true
  | _, _ => false
  end.

Definition terminal (s : string) : bool :=
  String.eqb s "acknowledged" || String.eqb s "cancelled" || String.eqb s "failed".

Definition transition_in_transaction (id : string) (next : TurnControlStatus) (ack : option J) (now : Z) :
    tx Db () :=
  let* ack_json := tx_lift
    (match ack with
     | None => Ok None
     | Some v => match json_to_string v with
                 | Ok s => Ok (Some s)
                 | Err e => Err (Serde ("encode acknowledgement: " +:+ e))
                 end
     end) in
  tx_guard (negb (match ack_json with Some v => 16 * 1024 <? str_len v | None => false end))
    (Invariant "turn-control acknowledgement exceeds 16 KiB") ;;*
  let* d := tx_get in
  match find_control id d with
  | None => tx_err (Invariant "turn control was not found")
  | Some r =>
      let current := tc_status r in
      if String.eqb current (status_str next) then tx_ret ()
      else if terminal current
      then tx_err (Invariant ("terminal control state '" +:+ current +:+ "' cannot transition"))
      else if negb (allowed current next)
      then tx_err (Invariant ("invalid control transition " +:+ current +:+ " -> " +:+ status_str next))
      else
        let ordinal := next_ordinal id d in
        let* _ := update_controls (has_control id) (moved next ack_json now) in
        insert_transition (mkControlTransition id ordinal (status_str next) ack_json now)
  end.

Definition transition (id : string) (next : TurnControlStatus) (ack : option J) (now : Z) (d : Db) :
    result TurnControlError TurnControlRecord * Db :=
  match transaction (transition_in_transaction id next ack now) d with
  | (Err e, d) => (Err (ControlDb e), d)
  | (Ok _, d) => (get_or "control disappeared after transition" id d, d)
  end.

(** [UPDATE .. SET status='delivered', updated_at=?2] *)
Definition delivered (now : Z) (r : ControlRow) : ControlRow :=
  mkControlRow (tc_control_id r) (tc_conversation_id r) (tc_turn_id r) (tc_kind r) (tc_payload_json r)
    "delivered" (tc_acknowledgement_json r) (tc_created_at r) now (tc_acknowledged_at r)
    (tc_client_request_id r) (tc_request_body_sha256 r).

(** The text of a JSON object, between its braces, with single quotes for the
    quotes of JSON. *)
Definition quote_json (s : string) : string :=
  map_string (λ c, if code c =? 39 then Ascii.ascii_of_nat 34 else c) s.
Definition dispatch_claimed_json : string := quote_json "{'dispatch_claimed':true}".

Definition claim_delivery_tx (id : string) (now : Z) : tx Db bool :=
  let* changed := update_controls (λ r, has_control id r && String.eqb (tc_status r) "accepted") (delivered now) in
  if changed =? 0 then tx_ret false
  else
    let* d := tx_get in
    insert_transition (mkControlTransition id (next_ordinal id d) "delivered" (Some dispatch_claimed_json) now) ;;*
    tx_ret true.

Definition claim_delivery (id : string) (now : Z) (d : Db) : result TurnControlError bool * Db :=
  match transaction (claim_delivery_tx id now) d with
  | (Err e, d) => (Err (ControlDb e), d)
  | (Ok b, d) => (Ok b, d)
  end.

Definition apply_queued_message_in_transaction (id c : string) (event_seq now : Z) : tx Db () :=
  let* d := tx_get in
  match find_control id d with
  | None => tx_err (Invariant "queued turn control was not found")
  | Some r =>
      if negb (String.eqb (tc_conversation_id r) c) || negb (String.eqb (tc_kind r) (kind_str QueueNextTurn))
      then tx_err (Invariant "queued turn control scope mismatch")
      else if negb (String.eqb (tc_status r) "accepted" || String.eqb (tc_status r) "delivered")
      then tx_err (Invariant ("queued turn control is already " +:+ tc_status r))
      else transition_in_transaction id Applied (Some (json_event_seq event_seq)) now
  end.

(** ** Queries *)

Definition is_queued (r : ControlRow) : bool :=
  String.eqb (tc_kind r) "queue_next_turn"
  && (String.eqb (tc_status r) "accepted" || String.eqb (tc_status r) "delivered").

Definition select (rows : list ControlRow) : result TurnControlError (list TurnControlRecord) :=
  match map_records rows with Ok xs => Ok xs | Err e => Err (ControlDb e) end.

Definition queued_messages (c : string) (d : Db) : result TurnControlError (list TurnControlRecord) :=
  select (by_creation (List.filter (λ r, String.eqb (tc_conversation_id r) c && is_queued r) (turn_controls d))).

Definition is_reconnectable (r : ControlRow) : bool :=
  (String.eqb (tc_kind r) "steer" || String.eqb (tc_kind r) "pause" || String.eqb (tc_kind r) "resume")
  && (String.eqb (tc_status r) "accepted" || String.eqb (tc_status r) "delivered"
      || String.eqb (tc_status r) "applied").

Definition reconnectable (c : string) (limit : Z) (d : Db) : result TurnControlError (list TurnControlRecord) :=
  select (take (Z.to_nat (clamp 1 500 limit))
    (by_creation (List.filter (λ r, String.eqb (tc_conversation_id r) c && is_reconnectable r) (turn_controls d)))).

Definition pending_queue_controls (limit : Z) (d : Db) : result TurnControlError (list TurnControlRecord) :=
  select (take (Z.to_nat (clamp 1 500 limit)) (by_creation (List.filter is_queued (turn_controls d)))).

Definition list_controls (c : string) (after_created_at limit : Z) (d : Db) :
    result TurnControlError (list TurnControlRecord) :=
  select (take (Z.to_nat (clamp 1 200 limit))
    (by_creation (List.filter (λ r, String.eqb (tc_conversation_id r) c && (after_created_at <=? tc_created_at r))
       (turn_controls d)))).
End Controls.

(** ** The lifecycle *)

(** The transitions recorded for a control, oldest first. *)
Definition transitions_of (id : string) (d : Db) : list ControlTransitionRow :=
  List.filter (λ t, String.eqb (ct_control_id t) id) (control_transitions d).

Definition history (id : string) (d : Db) : list string := map ct_status (transitions_of id d).

(** A history from acceptance to the current state, every step allowed. *)
Inductive lifecycle : list string → string → Prop :=
| lifecycle_new : lifecycle ["accepted"] "accepted"
| lifecycle_step l s next :
    lifecycle l s → allowed s next = true → lifecycle (l ++ [status_str next]) (status_str next).

(** What the two tables keep: unique ids, unique request keys, and for every
    control a numbered history that ends in its state. *)
Record controls_wf (d : Db) : Prop := {
  cw_ids : NoDup (map tc_control_id (turn_controls d));
  cw_known : ∀ t, t ∈ control_transitions d → ct_control_id t ∈ map tc_control_id (turn_controls d);
  cw_ordinals : ∀ id, map ct_ordinal (transitions_of id d) = seqZ 0 (vec_len (transitions_of id d));
  cw_history : ∀ r, r ∈ turn_controls d → lifecycle (history (tc_control_id r) d) (tc_status r)
}.

(** The writes the operations make. *)
Inductive control_step (d : Db) : Db → Prop :=
| step_new row now :
    (∀ x, x ∈ turn_controls d → tc_control_id x ≠ tc_control_id row) → tc_status row = "accepted" →
    control_step d
      (add_control_transition (mkControlTransition (tc_control_id row) 0 "accepted" None now)
         (set_controls (λ l, l ++ [row]) d))
| step_move id r f next detail now :
    find_control id d = Some r → allowed (tc_status r) next = true →
    (∀ x, tc_control_id (f x) = tc_control_id x ∧ tc_conversation_id (f x) = tc_conversation_id x ∧
          tc_kind (f x) = tc_kind x ∧ tc_payload_json (f x) = tc_payload_json x ∧
          tc_client_request_id (f x) = tc_client_request_id x ∧
          tc_request_body_sha256 (f x) = tc_request_body_sha256 x ∧ tc_status (f x) = status_str next) →
    control_step d
      (add_control_transition (mkControlTransition id (next_ordinal id d) (status_str next) detail now)
         (set_controls (map (λ x, if has_control id x then f x else x)) d)).

Lemma allowed_status_str s next : allowed s next = true → next ≠ Accepted ∧ terminal s = false.
Proof.
  unfold allowed, status_parse, terminal. intros H. split; [by intros ->; repeat case_match|].
  repeat case_match; try done;
    repeat match goal with H : String.eqb _ _ = true |- _ => apply String.eqb_eq in H; subst end; done.
Qed.

Lemma find_control_Some id d r : find_control id d = Some r → r ∈ turn_controls d ∧ tc_control_id r = id.
Proof. intros [Hin Hid%String.eqb_eq]%List.find_some. by rewrite list_elem_of_In. Qed.

Lemma find_control_None id d : find_control id d = None → ∀ r, r ∈ turn_controls d → tc_control_id r ≠ id.
Proof.
  intros Hn r Hr Hid. apply list_elem_of_In in Hr. apply (List.find_none _ _ Hn) in Hr.
  unfold has_control in Hr. by apply String.eqb_neq in Hr.
Qed.

Lemma transitions_of_add id t f d :
  transitions_of id (add_control_transition t (set_controls f d)) =
    transitions_of id d ++ (if String.eqb (ct_control_id t) id then [t] else []).
Proof. unfold transitions_of. cbn. rewrite List.filter_app. cbn. by destruct (String.eqb _ _). Qed.

Lemma foldr_max_seqZ (ts : list ControlTransitionRow) id :
  map ct_ordinal (List.filter (λ t, String.eqb (ct_control_id t) id) ts)
    = seqZ 0 (vec_len (List.filter (λ t, String.eqb (ct_control_id t) id) ts)) →
  foldr (λ t n, if String.eqb (ct_control_id t) id then Z.max (ct_ordinal t) n else n) (-1) ts + 1
    = vec_len (List.filter (λ t, String.eqb (ct_control_id t) id) ts).
Proof.
  intros Hs. set (l := List.filter _ ts) in *.
  assert (foldr (λ t n, if String.eqb (ct_control_id t) id then Z.max (ct_ordinal t) n else n) (-1) ts
    = foldr Z.max (-1) (map ct_ordinal l)) as ->.
  { unfold l. clear. induction ts as [|t ts IH]; cbn; [done|]. rewrite IH. by destruct (String.eqb _ _). }
  rewrite Hs. assert (0 ≤ vec_len l) as Hpos by (unfold vec_len; lia).
  clear Hs. revert Hpos. generalize (vec_len l). clear l.
  apply (natlike_ind (λ n, foldr Z.max (-1) (seqZ 0 n) + 1 = n)); [done|].
  intros n Hn IH. unfold Z.succ. rewrite seqZ_app by lia. cbn. rewrite Z.add_0_l.
  change (seqZ n 1) with ([Z.of_nat 0 + n]). rewrite foldr_app. cbn [foldr].
  assert (∀ a l, foldr Z.max a l = Z.max a (foldr Z.max (-1) l) ∨ a < -1) as Hfold.
  { intros a l. destruct (decide (a < -1)); [by right|left]. induction l as [|x l IHl]; cbn; lia. }
  destruct (Hfold (Z.max (Z.of_nat 0 + n) (-1)) (seqZ 0 n)); lia.
Qed.

Lemma next_ordinal_length id d :
  controls_wf d → next_ordinal id d = vec_len (transitions_of id d).
Proof. intros Hwf. apply foldr_max_seqZ. apply (cw_ordinals d Hwf). Qed.

Lemma map_control_ids id f l :
  (∀ x : ControlRow, tc_control_id (f x) = tc_control_id x) →
  map tc_control_id (map (λ x, if has_control id x then f x else x) l) = map tc_control_id l.
Proof. intros Hf. rewrite map_map. apply map_ext. intros x. by destruct (has_control id x). Qed.

Lemma has_control_spec id r : has_control id r = true ↔ tc_control_id r = id.
Proof. apply String.eqb_eq. Qed.

Lemma control_unique d r r' :
  controls_wf d → r ∈ turn_controls d → r' ∈ turn_controls d → tc_control_id r = tc_control_id r' → r = r'.
Proof.
  intros Hwf Hr Hr' Heq. pose proof (cw_ids d Hwf) as Hnd. revert Hr Hr'.
  induction (turn_controls d) as [|x l IH]; [set_solver|]. cbn in Hnd. apply NoDup_cons in Hnd as [Hx Hnd].
  intros [->|Hr]%elem_of_cons [->|Hr']%elem_of_cons; [done|..|by apply IH]; exfalso; apply Hx.
  - rewrite Heq. by apply list_elem_of_fmap_2.
  - rewrite <-Heq. by apply list_elem_of_fmap_2.
Qed.

Lemma seqZ_one n : seqZ n 1 = [n].
Proof. rewrite seqZ_cons by lia. done. Qed.

Lemma control_step_wf d d' : control_step d d' → controls_wf d → controls_wf d'.
Proof.
  intros [row now Hfresh Hst|id r f next detail now Hfind Hal Hf] Hwf.
  - assert (tc_control_id row ∉ map tc_control_id (turn_controls d)) as Hni.
    { intros (x & Hx & Hin)%list_elem_of_fmap. by destruct (Hfresh x Hin). }
    assert (transitions_of (tc_control_id row) d = []) as Hno.
    { apply filter_none. intros t Ht. apply String.eqb_neq. intros Heq. apply Hni. rewrite <-Heq.
      by apply (cw_known d Hwf). }
    split; cbn [turn_controls control_transitions add_control_transition set_controls].
    + rewrite map_app. apply NoDup_app. split_and!; [apply (cw_ids d Hwf)| |apply NoDup_singleton].
      intros x Hx ->%list_elem_of_singleton. done.
    + intros t [Ht| ->%list_elem_of_singleton]%elem_of_app; rewrite map_app, elem_of_app; [left|right; left].
      by apply (cw_known d Hwf).
    + intros id. rewrite transitions_of_add. cbn [ct_control_id].
      destruct (String.eqb_spec (tc_control_id row) id) as [<-|Hne]; [by rewrite Hno|].
      rewrite app_nil_r. apply (cw_ordinals d Hwf).
    + intros x Hx. unfold history. rewrite transitions_of_add. cbn [ct_control_id].
      apply elem_of_app in Hx as [Hx| ->%list_elem_of_singleton].
      * rewrite (proj2 (String.eqb_neq _ _)), app_nil_r by (intros Heq; by apply (Hfresh x)).
        by apply (cw_history d Hwf).
      * rewrite Hno, String.eqb_refl, Hst. constructor.
  - assert (∀ x : ControlRow, tc_control_id (f x) = tc_control_id x) as Hfid by (intros x; apply Hf).
    destruct (find_control_Some _ _ _ Hfind) as [Hr Hid].
    split; cbn [turn_controls control_transitions add_control_transition set_controls].
    + rewrite map_control_ids by done. apply (cw_ids d Hwf).
    + rewrite map_control_ids by done. intros t [Ht| ->%list_elem_of_singleton]%elem_of_app; cbn.
      * by apply (cw_known d Hwf).
      * rewrite <-Hid. by apply list_elem_of_fmap_2.
    + intros i. rewrite transitions_of_add. cbn [ct_control_id].
      destruct (String.eqb_spec id i) as [<-|Hne]; [|rewrite app_nil_r; apply (cw_ordinals d Hwf)].
      rewrite map_app, (cw_ordinals d Hwf). cbn. rewrite next_ordinal_length by done.
      unfold vec_len. rewrite length_app, Nat2Z.inj_add. cbn. rewrite seqZ_app by lia. rewrite Z.add_0_l.
      by rewrite seqZ_one.
    + intros x' Hx'. apply list_elem_of_fmap in Hx' as (x & -> & Hx). unfold history. rewrite transitions_of_add. cbn [ct_control_id].
      destruct (has_control id x) eqn:Hxid.
      * apply has_control_spec in Hxid. assert (x = r) as -> by (eapply control_unique; [done..|]; congruence).
        destruct (Hf r) as (-> & _ & _ & _ & _ & _ & ->). rewrite Hid, String.eqb_refl, map_app. cbn.
        apply (lifecycle_step _ (tc_status r)); [|done]. rewrite <-Hid. by apply (cw_history d Hwf).
      * apply not_true_iff_false in Hxid. rewrite has_control_spec in Hxid.
        rewrite (proj2 (String.eqb_neq _ _)), app_nil_r by done. by apply (cw_history d Hwf).
Qed.

(** ** The operations as steps *)

Section Steps.
Context {J : Type} {JJ : Json J} (sha256_hex : bytes → string).

Lemma enqueue_step row now d d' :
  tc_status row = "accepted" → enqueue_tx row now d = Ok ((), d') → control_step d d'.
Proof.
  intros Hst H. unfold enqueue_tx in H. apply tx_bind_ok in H as ([] & d1 & Hi & Ht).
  unfold insert_control in Hi. destruct (existsb _ _) eqn:He; [done|]. apply Ok_inj in Hi. simplify_eq.
  unfold insert_transition in Ht. destruct (existsb _ (control_transitions _)); [done|]. apply Ok_inj in Ht.
  injection Ht as <-. apply step_new; [|done].
  intros x Hx Heq. apply (proj1 (existsb_False _ _) He) in Hx. unfold has_control in Hx.
  by rewrite Heq, String.eqb_refl in Hx.
Qed.

Lemma transition_tx_step id next ack now d d' :
  transition_in_transaction id next ack now d = Ok ((), d') → d' = d ∨ control_step d d'.
Proof.
  unfold transition_in_transaction. intros H. apply tx_bind_ok in H as (aj & d1 & Ha & H).
  apply tx_lift_ok in Ha as [_ ->]. apply tx_bind_ok in H as ([] & d1 & Hg & H).
  apply tx_guard_ok in Hg as [_ ->]. rewrite tx_get_bind in H.
  destruct (find_control id d) as [r|] eqn:Hf; [|done].
  destruct (String.eqb _ _); [unfold tx_ret in H; left; congruence|].
  destruct (terminal _); [done|]. destruct (allowed (tc_status r) next) eqn:Hal; [|done]. cbn in H.
  right. unfold tx_bind, update_controls, insert_transition in H.
  destruct (existsb _ _); [done|]. apply Ok_inj in H. injection H as <-.
  apply (step_move d id r); [done..|]. intros x. by split_and!.
Qed.

Lemma find_in_filter id p d r :
  controls_wf d → find_control id d = Some r → p r = true →
  List.filter (λ x, has_control id x && p x) (turn_controls d) = [r].
Proof.
  intros Hwf Hf Hp. destruct (find_control_Some _ _ _ Hf) as [Hr Hid].
  pose proof (cw_ids d Hwf) as Hnd. revert Hr Hnd. clear Hf Hwf. induction (turn_controls d) as [|x l IH]; [set_solver|].
  intros [->|Hr]%elem_of_cons Hnd; apply NoDup_cons in Hnd as [Hx Hnd]; cbn.
  - rewrite (proj2 (has_control_spec id x) Hid), Hp. cbn. f_equal. apply filter_none. intros y Hy.
    apply andb_false_iff. left. apply not_true_iff_false. rewrite has_control_spec. intros Hyid.
    apply Hx. cbn. rewrite Hid, <-Hyid. by apply list_elem_of_fmap_2.
  - replace (has_control id x) with false; [by apply IH|]. symmetry. apply not_true_iff_false.
    rewrite has_control_spec. intros Hxid. apply Hx. rewrite Hxid, <-Hid. by apply list_elem_of_fmap_2.
Qed.

(** A claim succeeds exactly on an accepted control. *)
Definition claims (id : string) (r : ControlRow) : bool :=
  has_control id r && String.eqb (tc_status r) "accepted".

Lemma claims_none id d :
  (∀ r, find_control id d = Some r → tc_status r ≠ "accepted") → controls_wf d →
  List.filter (claims id) (turn_controls d) = [].
Proof.
  intros Hno Hwf. apply filter_none. intros x Hx. unfold claims. apply andb_false_iff.
  destruct (find_control id d) as [r|] eqn:Hf.
  - destruct (has_control id x) eqn:Hid; [right|by left]. apply has_control_spec in Hid.
    destruct (find_control_Some _ _ _ Hf) as [Hr Hrid].
    rewrite (control_unique d x r Hwf Hx Hr) by congruence. by apply String.eqb_neq, Hno.
  - left. apply not_true_iff_false. rewrite has_control_spec. by apply (find_control_None _ d).
Qed.

Lemma update_none p f d :
  List.filter p (turn_controls d) = [] → set_controls (map (λ r, if p r then f r else r)) d = d.
Proof.
  intros Hp. destruct d. unfold set_controls. cbn in *. f_equal. apply map_id_elem.
  intros x Hx. rewrite filter_nil_iff in Hp. by rewrite Hp.
Qed.

Lemma claim_refused id now d :
  (∀ r, find_control id d = Some r → tc_status r ≠ "accepted") → controls_wf d →
  claim_delivery id now d = (Ok false, d).
Proof.
  intros Hno Hwf. pose proof (claims_none id d Hno Hwf) as Hnil.
  unfold claim_delivery, transaction, claim_delivery_tx, tx_bind, update_controls. fold (claims id).
  rewrite Hnil. cbn [vec_len length Z.of_nat Z.eqb]. rewrite (update_none (claims id)) by done. done.
Qed.

Lemma next_ordinal_set id f d : next_ordinal id (set_controls f d) = next_ordinal id d.
Proof. done. Qed.

Lemma ordinal_fresh id d :
  controls_wf d →
  existsb (λ x, String.eqb (ct_control_id x) id && (ct_ordinal x =? next_ordinal id d)) (control_transitions d) = false.
Proof.
  intros Hwf. apply existsb_False. intros t Ht. apply andb_false_iff.
  destruct (String.eqb_spec (ct_control_id t) id) as [Hid|]; [right|by left].
  apply Z.eqb_neq. intros Ho.
  assert (ct_ordinal t ∈ map ct_ordinal (transitions_of id d)) as Hin.
  { apply list_elem_of_fmap_2. unfold transitions_of. apply list_elem_of_In, filter_In.
    split; [by apply list_elem_of_In|by apply String.eqb_eq]. }
  rewrite (cw_ordinals d Hwf), elem_of_seqZ, Ho, next_ordinal_length in Hin by done. lia.
Qed.

Lemma claim_granted id now d r :
  controls_wf d → find_control id d = Some r → tc_status r = "accepted" →
  ∃ d', claim_delivery id now d = (Ok true, d') ∧ control_step d d' ∧ delivered now r ∈ turn_controls d'.
Proof.
  intros Hwf Hf Hst. destruct (find_control_Some _ _ _ Hf) as [Hr Hid].
  assert (List.filter (claims id) (turn_controls d) = [r]) as Hone.
  { apply (find_in_filter id (λ x, String.eqb (tc_status x) "accepted") d); [done..|]. by rewrite Hst. }
  assert (map (λ x, if claims id x then delivered now x else x) (turn_controls d)
          = map (λ x, if has_control id x then delivered now x else x) (turn_controls d)) as Hmap.
  { apply map_ext_in. intros x Hx%list_elem_of_In. unfold claims. destruct (has_control id x) eqn:Hxid; [|done].
    apply has_control_spec in Hxid. rewrite (control_unique d x r Hwf Hx Hr) by congruence. by rewrite Hst. }
  eexists. split; [|split].
  - unfold claim_delivery, transaction, claim_delivery_tx, tx_bind, update_controls. fold (claims id).
    rewrite Hone. change (vec_len [r] =? 0) with false. cbv beta iota delta [tx_get insert_transition].
    cbn [ct_control_id ct_ordinal]. rewrite next_ordinal_set.
    change (control_transitions (set_controls _ d)) with (control_transitions d).
    rewrite ordinal_fresh by done. reflexivity.
  - assert (set_controls (map (λ x, if has_control id x && String.eqb (tc_status x) "accepted"
                                      then delivered now x else x)) d
            = set_controls (map (λ x, if has_control id x then delivered now x else x)) d) as ->
      by (unfold set_controls; by rewrite <-Hmap).
    apply (step_move d id r (delivered now) Delivered); [done|by rewrite Hst|].
    intros x. by split_and!.
  - cbn. apply list_elem_of_fmap. exists r. split; [|done].
    by rewrite (proj2 (has_control_spec id r) Hid), Hst.
Qed.

(** *** Sequences of operations *)

Inductive control_op : Type :=
| OpEnqueue (id c : string) (turn : option string) (k : TurnControlKind) (v : J) (now : Z)
| OpEnqueueIdempotent (id c : string) (turn : option string) (k : TurnControlKind) (v : J)
    (request : string) (now : Z)
| OpTransition (id : string) (next : TurnControlStatus) (ack : option J) (now : Z)
| OpClaim (id : string) (now : Z).

Definition control_run (op : control_op) (d : Db) : Db :=
  match op with
  | OpEnqueue id c turn k v now => (enqueue id c turn k v now d).2
  | OpEnqueueIdempotent id c turn k v request now =>
      (enqueue_idempotent sha256_hex id c turn k v request now d).2
  | OpTransition id next ack now => (transition id next ack now d).2
  | OpClaim id now => (claim_delivery id now d).2
  end.

Definition control_runs (ops : list control_op) (d : Db) : Db := foldl (λ d op, control_run op d) d ops.

Lemma control_run_step op d : controls_wf d → control_run op d = d ∨ control_step d (control_run op d).
Proof.
  intros Hwf. destruct op as [id c turn k v now|id c turn k v req now|id next ack now|id now]; cbn.
  - unfold enqueue. destruct (json_to_string v) as [p|]; [|by left].
    destruct (_ || _); [by left|]. destruct (bad_turn_id turn); [by left|]. unfold transaction.
    destruct (enqueue_tx _ _ d) as [[[] d']|e] eqn:He; cbn; [right|by left].
    by apply enqueue_step in He.
  - unfold enqueue_idempotent. destruct (json_to_string v) as [p|]; [|by left].
    destruct (_ || _); [by left|]. destruct (bad_turn_id turn); [by left|]. unfold transaction, enqueue_idempotent_tx.
    destruct (List.find _ _) as [r|]; [destruct (negb _); cbn; [by left|]; destruct (get_or _ _ _); by left|].
    unfold tx_bind. destruct (enqueue_tx _ _ d) as [[[] d']|e] eqn:He; cbn; [right|by left].
    apply enqueue_step in He; [|done]. by destruct (get_or _ _ _).
  - unfold transition, transaction. destruct (transition_in_transaction _ _ _ _ d) as [[[] d']|e] eqn:He; cbn; [|by left].
    by apply transition_tx_step in He.
  - destruct (find_control id d) as [r|] eqn:Hf; [destruct (decide (tc_status r = "accepted")) as [Hst|Hst]|].
    + right. destruct (claim_granted id now d r Hwf Hf Hst) as (d' & -> & Hs & _). done.
    + left. rewrite claim_refused; [done| |done]. intros r' Hr'. congruence.
    + left. rewrite claim_refused; [done| |done]. congruence.
Qed.

(** *** What a step keeps *)

(** The intent of a control: what never changes. *)
Definition same_intent (r r' : ControlRow) : Prop :=
  tc_control_id r' = tc_control_id r ∧ tc_conversation_id r' = tc_conversation_id r ∧ tc_kind r' = tc_kind r ∧
  tc_payload_json r' = tc_payload_json r ∧ tc_client_request_id r' = tc_client_request_id r ∧
  tc_request_body_sha256 r' = tc_request_body_sha256 r.

(** How far along the lifecycle a state is. *)
Definition status_rank (s : string) : Z :=
  if String.eqb s "accepted" then 0 else if String.eqb s "delivered" then 1
  else if String.eqb s "applied" then 2 else 3.

Lemma allowed_rank s next : allowed s next = true → status_rank s < status_rank (status_str next).
Proof.
  unfold allowed, status_parse, status_rank. intros H.
  repeat match goal with
  | _ : context [String.eqb s ?x] |- _ => destruct (String.eqb s x)
  end; destruct next; cbn in *; (done || lia).
Qed.

Definition controls_grow (d d' : Db) : Prop :=
  ∀ r, r ∈ turn_controls d → ∃ r', r' ∈ turn_controls d' ∧ same_intent r r' ∧
    status_rank (tc_status r) ≤ status_rank (tc_status r') ∧
    history (tc_control_id r) d `prefix_of` history (tc_control_id r) d'.

#[global] Instance controls_grow_preorder : PreOrder controls_grow.
Proof.
  split.
  - intros d r Hr. exists r. split_and!; [done..|lia|done].
  - intros d1 d2 d3 H12 H23 r Hr. destruct (H12 r Hr) as (r2 & Hr2 & Hi2 & Hs2 & Hp2).
    destruct (H23 r2 Hr2) as (r3 & Hr3 & Hi3 & Hs3 & Hp3). exists r3.
    unfold same_intent in *. split_and!; try (destruct_and!; congruence); [lia|].
    destruct Hi2 as [Hid _]. rewrite Hid in Hp3. by transitivity (history (tc_control_id r) d2).
Qed.

Lemma control_step_grows d d' : controls_wf d → control_step d d' → controls_grow d d'.
Proof.
  intros Hwf [row now Hfresh Hst|id r f next detail now Hfind Hal Hf] x Hx.
  - exists x. split_and!; [by apply elem_of_app; left|by split_and!|lia|].
    unfold history. rewrite transitions_of_add, map_app. by eexists.
  - exists (if has_control id x then f x else x).
    assert (history (tc_control_id x) d `prefix_of` history (tc_control_id x)
      (add_control_transition (mkControlTransition id (next_ordinal id d) (status_str next) detail now)
        (set_controls (map (λ x, if has_control id x then f x else x)) d))) as Hp.
    { unfold history. rewrite transitions_of_add, map_app. by eexists. }
    split_and!; [by apply (list_elem_of_fmap_2 (λ x, if has_control id x then f x else x))| | |done].
    + destruct (Hf x) as (? & ? & ? & ? & ? & ? & _). by destruct (has_control id x).
    + destruct (has_control id x) eqn:Hxid; [|lia]. apply has_control_spec in Hxid.
      destruct (find_control_Some _ _ _ Hfind) as [Hr Hid].
      rewrite (control_unique d x r Hwf Hx Hr) by congruence.
      destruct (Hf r) as (_ & _ & _ & _ & _ & _ & ->). apply allowed_rank in Hal. lia.
Qed.

Lemma control_runs_grow ops d :
  controls_wf d → controls_wf (control_runs ops d) ∧ controls_grow d (control_runs ops d).
Proof.
  revert d. induction ops as [|op ops IH]; intros d Hwf; cbn; [by split|].
  destruct (control_run_step op d Hwf) as [Hsame|Hstep].
  - change (foldl _ (control_run op d) ops) with (control_runs ops (control_run op d)). rewrite Hsame. by apply IH.
  - destruct (IH (control_run op d)) as [Hwf' Hg]; [by eapply control_step_wf|]. split; [done|].
    etransitivity; [by apply control_step_grows|done].
Qed.

Lemma lifecycle_length l s : lifecycle l s → (Z.of_nat (length l) ≤ status_rank s + 1)%Z.
Proof.
  induction 1 as [|l s next _ IH Hal]; [done|]. apply allowed_rank in Hal. rewrite length_app. cbn. lia.
Qed.

Lemma status_rank_range s : 0 ≤ status_rank s ≤ 3.
Proof. unfold status_rank. repeat case_match; lia. Qed.

(** the durable history of turn controls. Whatever operations run, each
    control keeps its intent, its recorded transitions only grow and form a
    lifecycle path numbered without gaps from acceptance to its current
    state, so at most four are ever recorded, and its state never moves
    back. *)
Theorem control_lifecycle ops d r :
  controls_wf d → r ∈ turn_controls d →
  let d' := control_runs ops d in
  controls_wf d' ∧
  ∃ r', find_control (tc_control_id r) d' = Some r' ∧ same_intent r r' ∧
    status_rank (tc_status r) ≤ status_rank (tc_status r') ∧
    history (tc_control_id r) d `prefix_of` history (tc_control_id r) d' ∧
    lifecycle (history (tc_control_id r) d') (tc_status r') ∧
    (length (history (tc_control_id r) d') ≤ 4)%nat.
Proof.
  intros Hwf Hr d'. destruct (control_runs_grow ops d Hwf) as [Hwf' Hg]. fold d' in Hwf', Hg.
  split; [done|]. destruct (Hg r Hr) as (r' & Hr' & Hi & Hs & Hp). exists r'.
  pose proof (proj1 Hi) as Hid. pose proof (cw_history d' Hwf' r' Hr') as Hl. rewrite Hid in Hl.
  split_and!; [|done..|].
  - destruct (find_control (tc_control_id r) d') as [q|] eqn:Hf.
    + destruct (find_control_Some _ _ _ Hf) as [Hq Hqid]. f_equal. apply (control_unique d'); [done..|congruence].
    + exfalso. by apply (find_control_None _ _ Hf r').
  - apply lifecycle_length in Hl. pose proof (status_rank_range (tc_status r')). lia.
Qed.

(** one dispatch per control. A claim succeeds exactly on an accepted
    control, and after it no further claim of that control succeeds, whatever
    operations run in between. *)
Theorem claim_delivery_once id now d ops now' :
  controls_wf d →
  (claim_delivery id now d).1 =
    Ok (match find_control id d with Some r => String.eqb (tc_status r) "accepted" | None => false end) ∧
  ((claim_delivery id now d).1 = Ok true →
   let d2 := control_runs ops (claim_delivery id now d).2 in
   claim_delivery id now' d2 = (Ok false, d2)).
Proof.
  intros Hwf. destruct (find_control id d) as [r|] eqn:Hf.
  2:{ rewrite claim_refused by (done || congruence). by split. }
  destruct (String.eqb_spec (tc_status r) "accepted") as [Hst|Hst].
  2:{ rewrite claim_refused; [by split| |done]. intros r' ?. congruence. }
  destruct (claim_granted id now d r Hwf Hf Hst) as (d1 & Hc & Hstep & Hin). rewrite Hc. split; [done|].
  intros _. cbn [snd]. set (d2 := control_runs ops d1). cbv zeta.
  pose proof (control_step_wf _ _ Hstep Hwf) as Hwf1.
  destruct (control_runs_grow ops d1 Hwf1) as [Hwf2 Hg]. fold d2 in Hwf2, Hg.
  apply claim_refused; [|done]. intros q Hq Hacc.
  destruct (Hg _ Hin) as (q' & Hq' & Hi & Hrank & _). destruct (find_control_Some _ _ _ Hq) as [Hqin Hqid].
  assert (q = q') as -> by (apply (control_unique d2); [done..|]; destruct Hi as [-> _]; cbn;
    destruct (find_control_Some _ _ _ Hf); congruence).
  rewrite Hacc in Hrank. done.
Qed.
End Steps.

Lemma controls_wf_empty : controls_wf empty_db.
Proof.
  split; cbn; [constructor|set_solver| |set_solver]. intros id. done.
Qed.

(** ** A concrete store *)

Definition toy_json : Json string := {|
  json_to_string := λ s, Ok s;
  json_from_str := λ s, Some s;
  json_null := "null";
  json_event_seq := λ n, pretty n
|}.
#[local] Existing Instance toy_json.

Definition toy_ops : list (control_op (J:=string)) :=
  [OpEnqueue "k1" "conv" None QueueNextTurn "hello" 10; OpEnqueue "k2" "conv" (Some "turn") Steer "left" 11].
Definition toy_store : Db := control_runs (λ _, "digest") toy_ops empty_db.

Lemma toy_store_wf : controls_wf toy_store.
Proof. apply control_runs_grow, controls_wf_empty. Qed.

Definition toy_control : ControlRow := new_row "k2" "conv" (Some "turn") Steer "left" 11 None None.

Lemma toy_control_stored : toy_control ∈ turn_controls toy_store.
Proof. right. left. Qed.

Lemma control_lifecycle_witness :
  ∃ r', find_control "k2" (control_runs (λ _, "digest")
          [OpClaim "k2" 12; OpTransition "k2" Applied None 13; OpTransition "k2" Acknowledged (Some "ok") 14] toy_store)
        = Some r' ∧ tc_status r' = "acknowledged".
Proof.
  destruct (control_lifecycle (λ _, "digest")
    [OpClaim "k2" 12; OpTransition "k2" Applied None 13; OpTransition "k2" Acknowledged (Some "ok") 14]
    toy_store toy_control toy_store_wf toy_control_stored) as (_ & r' & Hr' & _).
  exists r'. split; [exact Hr'|]. revert Hr'. vm_compute. by intros [= <-].
Defined.

Lemma claim_delivery_once_witness :
  (claim_delivery "k2" 12 toy_store).1 = Ok true ∧
  claim_delivery "k2" 13 (claim_delivery "k2" 12 toy_store).2 = (Ok false, (claim_delivery "k2" 12 toy_store).2).
Proof.
  destruct (claim_delivery_once (JJ:=toy_json) (λ _, "digest") "k2" 12 toy_store [] 13 toy_store_wf) as [H1 H2].
  assert ((claim_delivery "k2" 12 toy_store).1 = Ok true) as H by (rewrite H1; reflexivity).
  split; [exact H|exact (H2 H)].
Defined.
