(* ===== verification/QueuedMessages.v ===== *)
(** * Queued messages

    [append_queued_turn_message] of [crates/server/src/chats.rs]: the message
    of a queue-next-turn control enters the event log and the control is
    applied in one transaction.  Composes the commit of [EventLog] with the
    store of [TurnControls]. *)

From S2P Require Import Prelude Wire Text EventKind EventHmac Schema EventLog Chain Commit TurnControls.

Section Queued.
Context {HM : Hmac} {V : Type} {MP : MsgPack V} {J : Type} {JJ : Json J}.
(** The MessagePack encoding of the event's JSON object, from its text and
    control id. *)
Context (user_msg_body : string → string → result string bytes).

(** [ensure_conversation] of [crates/server/src/chats/helpers.rs], on the columns modelled. *)
Definition ensure_conversation (c : string) (now : Z) (d : Db) : Db :=
  match conversations d !! c with
  | Some _ => d
  | None => set_conversations <[c := mkConversationCols 0 now "Controller"]> d
  end.

(** [UPDATE state_conversations SET last_seq=?2,last_activity_at=?3] *)
Definition update_cursor (c : string) (seq now : Z) : tx Db () :=
  tx_modify (set_conversations (alter (λ r, mkConversationCols seq now (cv_trust_class r)) c)).

Definition queued_projection (c control : string) (now : Z) (events : list EventRecord) : tx Db () :=
  match events with
  | [] => tx_err (Invariant "queued user message event was not committed")
  | event :: _ =>
      update_cursor c (er_seq event) now ;;*
      apply_queued_message_in_transaction control c (er_seq event) now
  end.

Definition append_queued_turn_message (kr : option KeyRing) (now : Z) (c text control : string) (d : Db) :
    result string Z * Db :=
  let d := ensure_conversation c now d in
  let base_seq := last_seq c d in
  match encode_versioned_payload UserMsg (user_msg_body text control) with
  | Err e => (Err ("encode queued user message: " +:+ display_error e), d)
  | Ok payload =>
      match transaction (commit_turn_with_projection (V:=V) kr now c base_seq
               [mkPending UserMsg payload (Some "controller")] (queued_projection c control now)) d with
      | (Err e, d) => (Err ("commit queued turn message and control: " +:+ display_error e), d)
      | (Ok (event :: _), d) => (Ok (er_seq event), d)
      | (Ok [], d) => (Err "queued turn message committed without an event", d)
      end
  end.

(** ** What a commit writes *)

Definition row_of_event (row : EventRow) (ev : EventRecord) : Prop :=
  ev_seq row = er_seq ev ∧ ev_kind row = as_str (er_kind ev) ∧ ev_payload row = er_payload ev.

(** The events were inserted and, but for the integrity head, nothing else
    changed. *)
Definition inserted (c : string) (evs : list EventRecord) (d d' : Db) : Prop :=
  (∃ rows, Forall2 row_of_event rows evs ∧ events_of c d' ≡ₚ rows ++ events_of c d) ∧
  turn_controls d' = turn_controls d ∧ control_transitions d' = control_transitions d ∧
  (∀ c', c' ≠ c → events_of c' d' = events_of c' d).

Lemma inserted_nil c d : inserted c [] d d.
Proof. split_and!; [|done..]. by exists []. Qed.

Lemma insert_row_inserted c row ev d d' :
  row_of_event row ev → insert_event_row c row d = Ok ((), d') → inserted c [ev] d d'.
Proof.
  intros Hrow. unfold insert_event_row. destruct (insert_event row _) as [l|] eqn:Hi; [|done].
  intros H. apply Ok_inj in H. injection H as <-. split_and!; [|done..|].
  - exists [row]. split; [by constructor; [|constructor]|]. rewrite events_of_insert. by apply insert_event_perm.
  - intros c' Hc. by rewrite events_of_insert_ne.
Qed.

Lemma inserted_cons c ev evs d1 d2 d3 :
  inserted c [ev] d1 d2 → inserted c evs d2 d3 → inserted c (ev :: evs) d1 d3.
Proof.
  intros ((rows & Hr & Hp) & Hc & Ht & Ho) ((rows' & Hr' & Hp') & Hc' & Ht' & Ho').
  split_and!; [|congruence..|].
  - apply Forall2_cons_inv_r in Hr as (row & rest & Hrow & Hrest & ->). apply Forall2_nil_inv_r in Hrest as ->.
    exists (row :: rows'). split; [by constructor|]. rewrite Hp', Hp. cbn. by rewrite Permutation_middle.
  - intros c' Hne. by rewrite Ho', Ho.
Qed.

Lemma insert_unsigned_inserted c evs d d' : insert_unsigned c evs d = Ok ((), d') → inserted c evs d d'.
Proof.
  revert d. induction evs as [|ev evs IH]; intros d; cbn.
  - unfold tx_ret. intros H. apply Ok_inj in H. injection H as <-. apply inserted_nil.
  - intros ([] & d1 & H1 & H2)%tx_bind_ok. eapply inserted_cons; [|by apply IH].
    by apply (insert_row_inserted c (unsigned_row ev)).
Qed.

Lemma append_chained_inserted what kr c ev h d h' d' :
  append_chained what kr c ev h d = Ok (h', d') → inserted c [ev] d d'.
Proof.
  unfold append_chained. destruct (negb _); [done|]. destruct kr as [ring|]; [|done].
  destruct (current_key ring) as [key|]; [|done].
  intros (p & d1 & Hp & H)%tx_bind_ok. apply tx_lift_ok in Hp as [_ ->].
  apply tx_bind_ok in H as ([] & d2 & Hi & H). apply tx_lift_ok in H as [_ ->].
  by apply (insert_row_inserted _ _ ev) in Hi.
Qed.

Lemma append_all_inserted kr c evs h d h' d' :
  append_all kr c evs h d = Ok (h', d') → inserted c evs d d'.
Proof.
  revert h d. induction evs as [|ev evs IH]; intros h d; cbn.
  - unfold tx_ret. intros H. apply Ok_inj in H. injection H as _ <-. apply inserted_nil.
  - intros (h1 & d1 & H1 & H2)%tx_bind_ok. eapply inserted_cons; [|by eapply IH].
    by eapply append_chained_inserted.
Qed.

Lemma write_head_frame c h d u d' :
  write_integrity_head c h d = Ok (u, d') →
  state_events d' = state_events d ∧ turn_controls d' = turn_controls d ∧
  control_transitions d' = control_transitions d.
Proof.
  unfold write_integrity_head, upsert_head. destruct (_ && _); [|done].
  intros H. apply Ok_inj in H. by injection H as _ <-.
Qed.

(** A successful commit ran its projection between the inserts and the end. *)
Lemma commit_projection_inv kr now c base events proj d evs d' :
  commit_turn_with_projection (V:=V) kr now c base events proj d = Ok (evs, d') →
  ∃ out d1 d2 f delta, enforce_tool_pairing (V:=V) c base now events = Ok out ∧
    (evs = out ∨ evs = map (shift_seq delta) out) ∧
    inserted c evs d d1 ∧ proj evs d1 = Ok ((), d2) ∧ d' = set_outbox f d2.
Proof.
  unfold commit_turn_with_projection. intros (out & d0 & Hout & H)%tx_bind_ok.
  apply tx_lift_ok in Hout as [Hout ->]. rewrite tx_get_bind in H.
  set (delta := i64_sub _ base) in H. set (fin := if 0 <? delta then map (shift_seq delta) out else out) in H.
  assert (fin = out ∨ fin = map (shift_seq delta) out) as Hfin by (unfold fin; destruct (0 <? delta); auto).
  assert (∀ d1 (b : bool) r, (proj fin ;;* (if b then release_staged_transport_effects (V:=V) c fin else tx_ret ()) ;;*
            tx_ret fin) d1 = Ok r → r = (evs, d') → inserted c fin d d1 →
    ∃ out d1 d2 f delta, enforce_tool_pairing (V:=V) c base now events = Ok out ∧
      (evs = out ∨ evs = map (shift_seq delta) out) ∧
      inserted c evs d d1 ∧ proj evs d1 = Ok ((), d2) ∧ d' = set_outbox f d2) as Htail.
  { intros d1 b [evs' d''] Hr [= -> ->] Hins. apply tx_bind_ok in Hr as ([] & d2 & Hproj & Hr).
    apply tx_bind_ok in Hr as ([] & d3 & Hrel & Hr). unfold tx_ret in Hr. apply Ok_inj in Hr. injection Hr as <- <-.
    destruct b.
    - destruct (release_effects c fin d2) as [f Hf]. rewrite Hf in Hrel. apply Ok_inj in Hrel. injection Hrel as <-.
      exists out, d1, d2, f, delta. by split_and!.
    - unfold tx_ret in Hrel. apply Ok_inj in Hrel. injection Hrel as <-.
      exists out, d1, d2, id, delta. split_and!; [done..|]. by destruct d2. }
  destruct kr as [ring|].
  - apply tx_bind_ok in H as (h & d1 & Hh & H). apply tx_lift_ok in Hh as [_ ->].
    apply tx_bind_ok in H as ([] & d1 & Hg & H). apply tx_guard_ok in Hg as [_ ->].
    apply tx_bind_ok in H as (h' & d1 & Ha & H). apply tx_bind_ok in H as (u & d2 & Hw & H).
    eapply Htail; [exact H|done|]. apply append_all_inserted in Ha. apply write_head_frame in Hw as (He & Hc & Ht).
    destruct Ha as ((rows & Hr & Hp) & Hc' & Ht' & Ho). unfold inserted, events_of in *. rewrite He, Hc, Ht.
    split_and!; [by exists rows|done..].
  - destruct (load_integrity_head c d); [done|]. apply tx_bind_ok in H as ([] & d1 & Ha & H).
    eapply Htail; [exact H|done|]. by apply insert_unsigned_inserted.
Qed.

Lemma single_message_materializes c base now payload out :
  enforce_tool_pairing (V:=V) c base now [mkPending UserMsg payload (Some "controller")] = Ok out →
  ∃ seq, out = [mkEvent c seq UserMsg payload now (Some "controller")].
Proof.
  unfold enforce_tool_pairing. cbn. rewrite !bool_decide_false by done. intros H. apply Ok_inj in H as <-. eauto.
Qed.

(** The update of the row by a granted transition. *)
Lemma find_moved id f t d r :
  controls_wf d → find_control id d = Some r → (∀ x : ControlRow, tc_control_id (f x) = tc_control_id x) →
  find_control id (add_control_transition t (set_controls (map (λ x, if has_control id x then f x else x)) d)) = Some (f r).
Proof.
  intros _ Hf Hid. unfold find_control in *. cbn. revert Hf.
  induction (turn_controls d) as [|x l IH]; cbn; [done|].
  destruct (has_control id x) eqn:Hx; cbn; [|by rewrite Hx].
  intros [= <-]. unfold has_control in *. by rewrite Hid, Hx.
Qed.

Lemma apply_queued_ok control c seq now d d' :
  controls_wf d → apply_queued_message_in_transaction control c seq now d = Ok ((), d') →
  ∃ r ack, find_control control d = Some r ∧ tc_conversation_id r = c ∧ tc_kind r = "queue_next_turn" ∧
    (tc_status r = "accepted" ∨ tc_status r = "delivered") ∧ json_to_string (json_event_seq seq) = Ok ack ∧
    find_control control d' = Some (moved Applied (Some ack) now r) ∧
    control_step d d' ∧ state_events d' = state_events d.
Proof.
  intros Hwf H. unfold apply_queued_message_in_transaction in H. rewrite tx_get_bind in H.
  destruct (find_control control d) as [r|] eqn:Hf; [|done].
  destruct (negb (String.eqb (tc_conversation_id r) c) || negb (String.eqb (tc_kind r) (kind_str QueueNextTurn))) eqn:Hs; [done|].
  apply orb_false_iff in Hs as [Hc%negb_false_iff%String.eqb_eq Hk%negb_false_iff%String.eqb_eq].
  destruct (String.eqb (tc_status r) "accepted" || String.eqb (tc_status r) "delivered") eqn:Hst; [|done].
  apply orb_true_iff in Hst. rewrite !String.eqb_eq in Hst. cbn in H.
  unfold transition_in_transaction in H. apply tx_bind_ok in H as (aj & d1 & Ha & H).
  apply tx_lift_ok in Ha as [Ha ->]. destruct (json_to_string (json_event_seq seq)) as [ack|e] eqn:Hj; [|done].
  apply Ok_inj in Ha as <-. apply tx_bind_ok in H as ([] & d1 & Hg & H). apply tx_guard_ok in Hg as [_ ->].
  rewrite tx_get_bind, Hf in H.
  assert (String.eqb (tc_status r) (status_str Applied) = false ∧ terminal (tc_status r) = false ∧
          allowed (tc_status r) Applied = true) as (Hne & Hterm & Hal) by (by destruct Hst as [-> | ->]).
  rewrite Hne, Hterm, Hal in H. cbn [negb] in H.
  unfold tx_bind, update_controls, insert_transition in H. destruct (existsb _ _); [done|].
  apply Ok_inj in H. injection H as <-. exists r, ack. split_and!; try done.
  - by apply find_moved.
  - apply (step_move d control r (moved Applied (Some ack) now) Applied); [done..|]. intros x. by split_and!.
Qed.

Lemma ensure_frame c now d :
  state_events (ensure_conversation c now d) = state_events d ∧
  turn_controls (ensure_conversation c now d) = turn_controls d ∧
  control_transitions (ensure_conversation c now d) = control_transitions d.
Proof. unfold ensure_conversation. by destruct (conversations d !! c). Qed.

(** The control tables decide these. *)
Lemma same_tables_wf d d' :
  turn_controls d' = turn_controls d → control_transitions d' = control_transitions d →
  controls_wf d → controls_wf d'.
Proof.
  intros Hc Ht [H1 H2 H3 H4]. split; unfold history, transitions_of in *; rewrite ?Hc, ?Ht; done.
Qed.

Lemma same_tables_find id d d' : turn_controls d' = turn_controls d → find_control id d' = find_control id d.
Proof. unfold find_control. by intros ->. Qed.

(** What a successful append did. *)
Lemma append_queued_ok kr now c text control d seq d' :
  controls_wf d → append_queued_turn_message kr now c text control d = (Ok seq, d') →
  (∃ r ack, find_control control d = Some r ∧ tc_conversation_id r = c ∧ tc_kind r = "queue_next_turn" ∧
    (tc_status r = "accepted" ∨ tc_status r = "delivered") ∧ json_to_string (json_event_seq seq) = Ok ack ∧
    find_control control d' = Some (moved Applied (Some ack) now r)) ∧
  (∃ row, events_of c d' ≡ₚ row :: events_of c d ∧ ev_seq row = seq ∧ ev_kind row = "user_msg") ∧
  controls_wf d'.
Proof.
  intros Hwf H. unfold append_queued_turn_message in H. destruct (ensure_frame c now d) as (He & Hc & Ht).
  set (d0 := ensure_conversation c now d) in *.
  destruct (encode_versioned_payload UserMsg _) as [payload|e]; [|done].
  unfold transaction in H. destruct (commit_turn_with_projection _ _ _ _ _ _ d0) as [[evs d1]|e] eqn:Hcommit; [|done].
  apply commit_projection_inv in Hcommit as (out & d2 & d3 & f & delta & Hout & Hevs & Hins & Hproj & ->).
  apply single_message_materializes in Hout as [s ->].
  assert (∃ ev, evs = [ev] ∧ er_kind ev = UserMsg) as (ev & -> & Hkind)
    by (destruct Hevs as [->| ->]; eexists; by split).
  injection H as <- <-. cbn [queued_projection] in Hproj.
  apply tx_bind_ok in Hproj as ([] & d2' & Hcur & Happly). unfold update_cursor, tx_modify in Hcur.
  apply Ok_inj in Hcur. injection Hcur as <-.
  destruct Hins as ((rows & Hrows & Hperm) & Hc2 & Ht2 & _).
  apply Forall2_cons_inv_r in Hrows as (row & rest & (Hs & Hk & _) & Hrest & ->). apply Forall2_nil_inv_r in Hrest as ->.
  apply apply_queued_ok in Happly as (r & ack & Hf & Hrc & Hrk & Hrs & Hj & Hf' & Hstep & Hev).
  2:{ apply (same_tables_wf d); [cbn; congruence..|done]. }
  rewrite (same_tables_find control d) in Hf by (cbn; congruence). split_and!.
  - exists r, ack. by split_and!.
  - exists row. split_and!; [|done|by rewrite Hk, Hkind].
    unfold events_of in *. cbn in *. rewrite Hev, Hperm. cbn. by rewrite He.
  - apply (same_tables_wf d3); [done..|]. eapply control_step_wf; [done|].
    apply (same_tables_wf d); [cbn; congruence..|done].
Qed.

Lemma append_queued_failed kr now c text control d e d' :
  append_queued_turn_message kr now c text control d = (Err e, d') → d' = ensure_conversation c now d.
Proof.
  unfold append_queued_turn_message. destruct (encode_versioned_payload UserMsg _) as [payload|e1]; [|by intros [= _ <-]].
  destruct (transaction _ _) as [[evs|e1] d1] eqn:Ht.
  - (* the projection refuses an empty commit *)
    destruct evs as [|ev evs]; [|done]. intros _. exfalso.
    apply transaction_ok, commit_projection_inv in Ht as (out & d2 & d3 & f & delta & Hout & Hevs & _).
    apply single_message_materializes in Hout as [s ->]. by destruct Hevs.
  - apply transaction_err in Ht as ->. by intros [= _ <-].
Qed.

(** a queued message reaches the log once. When the append of a queued
    message succeeds, its control was a queue-next-turn request of that
    conversation not yet applied, exactly one row, a user message with the
    returned sequence number, was added to the conversation, and the control
    is applied with that number; from then on, whatever happens to the
    controls and whatever else the database holds, appending it again fails.
    A failed append leaves the log and the controls as they were. *)
Theorem queued_message_once kr now c text control d seq d1 :
  controls_wf d → append_queued_turn_message kr now c text control d = (Ok seq, d1) →
  (∃ r, find_control control d = Some r ∧ tc_conversation_id r = c ∧ tc_kind r = "queue_next_turn" ∧
    (tc_status r = "accepted" ∨ tc_status r = "delivered")) ∧
  (∃ row, events_of c d1 ≡ₚ row :: events_of c d ∧ ev_seq row = seq ∧ ev_kind row = "user_msg") ∧
  (∃ r ack, find_control control d1 = Some r ∧ tc_status r = "applied" ∧
    json_to_string (json_event_seq seq) = Ok ack ∧ tc_acknowledgement_json r = Some ack) ∧
  (∀ d2 kr' now' c' text', controls_wf d2 → controls_grow d1 d2 →
    ∃ e d3, append_queued_turn_message kr' now' c' text' control d2 = (Err e, d3) ∧
      state_events d3 = state_events d2 ∧ turn_controls d3 = turn_controls d2).
Proof.
  intros Hwf Happ. destruct (append_queued_ok _ _ _ _ _ _ _ _ Hwf Happ) as ((r & ack & Hf & Hc & Hk & Hs & Hj & Hf') & Hrow & Hwf1).
  split_and!; [by exists r|done| |].
  - eexists _, ack. split_and!; [exact Hf'|done..].
  - intros d2 kr' now' c' text' Hwf2 Hg.
    destruct (append_queued_turn_message kr' now' c' text' control d2) as [[seq'|e] d3] eqn:H2.
    + exfalso. destruct (append_queued_ok _ _ _ _ _ _ _ _ Hwf2 H2) as ((q & ack' & Hq & _ & _ & Hqs & _) & _).
      destruct (find_control_Some _ _ _ Hf') as [Hin Hid]. destruct (Hg _ Hin) as (q' & Hq' & Hi & Hrank & _).
      destruct (find_control_Some _ _ _ Hq) as [Hqin Hqid].
      assert (q = q') as -> by (apply (control_unique d2); [done..|]; destruct Hi as [-> _]; congruence).
      cbn in Hrank. by destruct Hqs as [Hq2|Hq2]; rewrite Hq2 in Hrank.
    + apply append_queued_failed in H2 as ->. destruct (ensure_frame c' now' d2) as (? & ? & _). by exists e, (ensure_conversation c' now' d2).
Qed.
End Queued.

#[local] Existing Instance toy_json.
#[local] Existing Instance toy_hmac.

Definition toy_body (text control : string) : result string bytes := Ok (as_bytes (text +:+ control)).

Definition toy_append (d : Db) : result string Z * Db :=
  append_queued_turn_message (V:=unit) toy_body None 20 "conv" "hello" "k1" d.

Lemma toy_append_ok : toy_append toy_store = (Ok 1, (toy_append toy_store).2).
Proof. vm_compute. reflexivity. Qed.

Lemma queued_message_once_witness :
  (toy_append toy_store).1 = Ok 1 ∧
  ∃ e d3, toy_append (toy_append toy_store).2 = (Err e, d3) ∧
    state_events d3 = state_events (toy_append toy_store).2.
Proof.
  destruct (queued_message_once (V:=unit) toy_body None 20 "conv" "hello" "k1" toy_store 1 (toy_append toy_store).2
              toy_store_wf toy_append_ok) as (_ & _ & _ & Hagain).
  split; [by rewrite toy_append_ok|].
  destruct (Hagain (toy_append toy_store).2 None 20 "conv" "hello") as (e & d3 & H & Hev & _).
  - eapply append_queued_ok; [apply toy_store_wf|exact toy_append_ok].
  - reflexivity.
  - exists e, d3. split; [exact H|exact Hev].
Defined.
