(* ===== verification/InformationStore.v ===== *)
(** * The information label store

    [crates/core/src/information_store.rs]: the append-only history of the
    labels attached to stored content.  A subject is labelled once when it is
    observed or derived; an operator may add a declassification.  The JSON
    codec of a label and the fresh event identifiers are parameters. *)

From Stdlib Require Import Strings.Ascii.
From stdpp Require Import relations.
From S2P Require Import Prelude Wire Text RunSchema Schema Information.

(** ** Data *)

Record InformationSubject : Type := mkSubject {
  subj_kind : string;
  subj_id : string;
  subj_sha256 : string
}.

#[global] Instance InformationSubject_eq_dec : EqDecision InformationSubject.
Proof. solve_decision. Defined.

(** serde_json on [InformationLabel]; the law is that of its derived
    [Serialize] and [Deserialize]. *)
Class LabelCodec : Type := {
  label_to_string : InformationLabel → result string string;
  label_from_str : string → result string InformationLabel
}.

Class LabelCodecLaws `{LabelCodec} : Prop :=
  label_from_to : ∀ l j, label_to_string l = Ok j → label_from_str j = Ok l.

(** ** Validation *)

Definition is_ascii_hexdigit (c : Ascii.ascii) : bool :=
  is_ascii_digit c || ((65 <=? code c) && (code c <=? 70)) || ((97 <=? code c) && (code c <=? 102)).

(** [s.bytes().all(p)] *)
Definition all_bytes (p : Ascii.ascii → bool) (s : string) : bool :=
  forallb p (String.list_ascii_of_string s).

(** [value.trim().is_empty()] *)
Definition blank (s : string) : bool := String.eqb (trim s) "".

Definition validate_subject (s : InformationSubject) : result DbError () :=
  if blank (subj_kind s) || (64 <? str_len (subj_kind s))
     || blank (subj_id s) || (256 <? str_len (subj_id s))
     || negb (str_len (subj_sha256 s) =? 64)
     || negb (all_bytes is_ascii_hexdigit (subj_sha256 s))
  then Err (Invariant "information subject is invalid") else Ok ().

Definition validate_actor (actor : string) : result DbError () :=
  if blank actor || (128 <? str_len actor)
  then Err (Invariant "information label actor is invalid") else Ok ().

(** ** The store *)

Section Store.
Context `{LabelCodec}.

Definition same_identity (kind id : string) (r : LabelEventRow) : bool :=
  String.eqb (le_subject_kind r) kind && String.eqb (le_subject_id r) id.

(** [subject_kind=?1 AND subject_id=?2 AND content_sha256=?3] *)
Definition same_subject (s : InformationSubject) (r : LabelEventRow) : bool :=
  same_identity (subj_kind s) (subj_id s) r && String.eqb (le_content_sha256 r) (subj_sha256 s).

(** [ORDER BY rowid DESC LIMIT 1] *)
Definition latest_row (p : LabelEventRow → bool) (d : Db) : option LabelEventRow :=
  last (List.filter p (label_events d)).

Definition append_event (id : string) (s : InformationSubject) (op : string) (l : InformationLabel)
    (actor : string) (scp : option string) (at_ : Z) : tx Db () :=
  match label_to_string l with
  | Err e => tx_err (Serde ("encode information label: " +:+ e))
  | Ok json =>
      let* d := tx_get in
      if existsb (λ r, String.eqb (le_event_id r) id) (label_events d)
      then tx_err constraint_failed
      else tx_modify (add_label_event
        (mkLabelEvent id (subj_kind s) (subj_id s) (subj_sha256 s) op json actor scp at_))
  end.

Definition decode_label (json : string) : result DbError InformationLabel :=
  match label_from_str json with
  | Ok l => Ok l
  | Err e => Err (Serde ("decode information label: " +:+ e))
  end.

Definition get (s : InformationSubject) (d : Db) : result DbError (option InformationLabel) :=
  match validate_subject s with
  | Err e => Err e
  | Ok _ =>
      match latest_row (same_subject s) d with
      | None => Ok None
      | Some r => match decode_label (le_label_json r) with Ok l => Ok (Some l) | Err e => Err e end
      end
  end.

Definition latest_for_identity (kind id : string) (d : Db) :
    result DbError (option (InformationSubject * InformationLabel)) :=
  if blank kind || (64 <? str_len kind) || blank id || (256 <? str_len id)
  then Err (Invariant "information identity is invalid")
  else match latest_row (same_identity kind id) d with
       | None => Ok None
       | Some r =>
           match decode_label (le_label_json r) with
           | Ok l => Ok (Some (mkSubject kind id (le_content_sha256 r), l))
           | Err e => Err e
           end
       end.

(** The insert of a subject that must have no history yet. *)
Definition append_first (id : string) (s : InformationSubject) (op : string) (l : InformationLabel)
    (actor : string) (scp : option string) (at_ : Z) (taken : string) : tx Db () :=
  let* d := tx_get in
  if existsb (same_subject s) (label_events d)
  then tx_err (Invariant taken)
  else append_event id s op l actor scp at_.

Definition observe (id : string) (s : InformationSubject) (l : InformationLabel) (actor : string)
    (at_ : Z) (d : Db) : result DbError () * Db :=
  match validate_subject s, validate_actor actor with
  | Err e, _ | Ok _, Err e => (Err e, d)
  | Ok _, Ok _ =>
      if sens_rank (sensitivity l) <? sens_rank Internal
      then (Err (Invariant "observed runtime information cannot be labelled below Internal"), d)
      else transaction (append_first id s "observed" l actor None at_
             "information subject already has a label history") d
  end.

(** [iter().map(|s| self.get(s)).collect::<Result<Vec<_>, _>>()] *)
Fixpoint get_all (ss : list InformationSubject) (d : Db) :
    result DbError (list (option InformationLabel)) :=
  match ss with
  | [] => Ok []
  | s :: ss =>
      match get s d with
      | Err e => Err e
      | Ok l => match get_all ss d with Err e => Err e | Ok ls => Ok (l :: ls) end
      end
  end.

Definition transform (id : string) (out : InformationSubject) (sources : list InformationSubject)
    (op actor : string) (at_ : Z) (d : Db) : result DbError InformationLabel * Db :=
  match validate_subject out, validate_actor actor with
  | Err e, _ | Ok _, Err e => (Err e, d)
  | Ok _, Ok _ =>
      if blank op || (128 <? str_len op) || bool_decide (sources = [])
      then (Err (Invariant "information transformation needs a bounded operation and source"), d)
      else
        match get_all sources d with
        | Err e => (Err e, d)
        | Ok source_labels =>
            match mapM (λ l, l) source_labels with
            | None => (Err (Invariant "information transformation source label is missing"), d)
            | Some labels =>
                match combine labels op with
                | None => (Err (Invariant "information transformation has no sources"), d)
                | Some l =>
                    match transaction (append_first id out "transformed" l actor (Some op) at_
                            "transformed information subject already has a label history") d with
                    | (Err e, d) => (Err e, d)
                    | (Ok _, d) => (Ok l, d)
                    end
                end
            end
        end
  end.

Definition declassify (id : string) (s : InformationSubject) (actor dest scp : string)
    (at_ : Z) (d : Db) : result DbError InformationLabel * Db :=
  match validate_subject s, validate_actor actor with
  | Err e, _ | Ok _, Err e => (Err e, d)
  | Ok _, Ok _ =>
      match get s d with
      | Err e => (Err e, d)
      | Ok None => (Err (Invariant "information label does not exist"), d)
      | Ok (Some l) =>
          match Information.declassify l actor dest scp at_ with
          | (Err e, _) => (Err (Invariant e), d)
          | (Ok _, l) =>
              match transaction (append_event id s "declassified" l actor (Some scp) at_) d with
              | (Err e, d) => (Err e, d)
              | (Ok _, d) => (Ok l, d)
              end
          end
      end
  end.
End Store.

(** ** The label of a subject *)

Section Labels.
Context `{LabelCodecLaws}.

Definition label_of (s : InformationSubject) (d : Db) : option InformationLabel :=
  match latest_row (same_subject s) d with
  | None => None
  | Some r => match label_from_str (le_label_json r) with Ok l => Some l | Err _ => None end
  end.

Lemma get_label_of s d l : get s d = Ok (Some l) → label_of s d = Some l.
Proof.
  unfold get, label_of, decode_label. destruct (validate_subject s); [|done].
  destruct (latest_row _ d) as [r|]; [|done].
  destruct (label_from_str (le_label_json r)); [|done]. by intros [= <-].
Qed.

Lemma get_all_label_of ss d ls labels :
  get_all ss d = Ok ls → mapM (λ l, l) ls = Some labels →
  Forall2 (λ s l, label_of s d = Some l) ss labels.
Proof.
  revert ls labels. induction ss as [|s ss IH]; intros ls labels; cbn.
  { intros [= <-]. cbn. intros [= <-]. constructor. }
  destruct (get s d) as [o|] eqn:Hg; [|done]. destruct (get_all ss d) as [ls'|]; [|done].
  intros [= <-]. cbn. destruct o as [l|]; [|done]. cbn.
  destruct (mapM _ ls') as [labels'|] eqn:Hm; [|done]. intros [= <-].
  constructor; [by apply get_label_of|by eapply IH].
Qed.

Lemma append_event_inv id s op l actor scp at_ d u d' :
  append_event id s op l actor scp at_ d = Ok (u, d') →
  ∃ json, label_to_string l = Ok json ∧
    d' = add_label_event (mkLabelEvent id (subj_kind s) (subj_id s) (subj_sha256 s) op json actor scp at_) d.
Proof.
  unfold append_event. destruct (label_to_string l) as [json|]; [|done].
  rewrite tx_get_bind. destruct (existsb _ _); [done|]. intros [= <- <-]. by exists json.
Qed.

Lemma append_first_inv id s op l actor scp at_ taken d u d' :
  append_first id s op l actor scp at_ taken d = Ok (u, d') →
  existsb (same_subject s) (label_events d) = false ∧
  append_event id s op l actor scp at_ d = Ok (u, d').
Proof. unfold append_first. rewrite tx_get_bind. by destruct (existsb _ _). Qed.

Lemma same_subject_row s s' id op json actor scp at_ :
  same_subject s' (mkLabelEvent id (subj_kind s) (subj_id s) (subj_sha256 s) op json actor scp at_) =
    bool_decide (s = s').
Proof.
  unfold same_subject, same_identity. cbn. apply eq_true_iff_eq.
  rewrite !andb_true_iff, !String.eqb_eq, bool_decide_eq_true. destruct s, s'; cbn. naive_solver.
Qed.

Lemma label_of_append id s op l actor scp at_ d u d' s' :
  append_event id s op l actor scp at_ d = Ok (u, d') →
  label_of s' d' = if bool_decide (s = s') then Some l else label_of s' d.
Proof.
  intros (json & Hj & ->)%append_event_inv. unfold label_of, latest_row. cbn.
  rewrite List.filter_app. cbn [List.filter]. rewrite same_subject_row. case_bool_decide.
  - rewrite last_snoc. cbn [le_label_json]. by rewrite (label_from_to _ _ Hj).
  - by rewrite app_nil_r.
Qed.

Lemma label_of_untouched s d : existsb (same_subject s) (label_events d) = false → label_of s d = None.
Proof.
  intros Hf. unfold label_of, latest_row. rewrite (filter_none (same_subject s)); [done|].
  by apply existsb_False.
Qed.

(** What a declassification leaves of a label. *)
Definition same_core (a b : InformationLabel) : Prop :=
  sensitivity a = sensitivity b ∧ source_trust_class a = source_trust_class b ∧
  allowed_destinations a = allowed_destinations b ∧ provenance a = provenance b.

(** [a] is at least as restricted as [b]. *)
Definition as_restricted (a b : InformationLabel) : Prop :=
  sens_rank (sensitivity b) ≤ sens_rank (sensitivity a) ∧
  trust_rank (source_trust_class a) ≤ trust_rank (source_trust_class b) ∧
  ∀ d, permits_in (allowed_destinations a) d = true → permits_in (allowed_destinations b) d = true.

#[global] Instance as_restricted_preorder : PreOrder as_restricted.
Proof.
  split.
  - intros a. by split.
  - intros a b c (H1 & H2 & H3) (H4 & H5 & H6). split_and!; [lia..|auto].
Qed.

Lemma as_restricted_core a a' b b' :
  same_core a a' → same_core b b' → as_restricted a b → as_restricted a' b'.
Proof.
  intros (Ha1 & Ha2 & Ha3 & _) (Hb1 & Hb2 & Hb3 & _). unfold as_restricted.
  by rewrite Ha1, Ha2, Ha3, Hb1, Hb2, Hb3.
Qed.

(** ** Every operation *)

Inductive LabelOp : Type :=
| Observe (id : string) (s : InformationSubject) (l : InformationLabel) (actor : string) (at_ : Z)
| Transform (id : string) (out : InformationSubject) (sources : list InformationSubject)
    (op actor : string) (at_ : Z)
| Declassify (id : string) (s : InformationSubject) (actor dest scp : string) (at_ : Z).

(** The database after an operation, and the pairs (result, source) it
    derived. *)
Definition run_op (o : LabelOp) (d : Db) : Db * list (InformationSubject * InformationSubject) :=
  match o with
  | Observe id s l actor at_ => ((observe id s l actor at_ d).2, [])
  | Transform id out sources op actor at_ =>
      match transform id out sources op actor at_ d with
      | (Ok _, d') => (d', map (pair out) sources)
      | (Err _, d') => (d', [])
      end
  | Declassify id s actor dest scp at_ => ((declassify id s actor dest scp at_ d).2, [])
  end.

Fixpoint run_ops (os : list LabelOp) (d : Db) : Db * list (InformationSubject * InformationSubject) :=
  match os with
  | [] => (d, [])
  | o :: os =>
      let '(d, ders) := run_op o d in
      let '(d, ders') := run_ops os d in (d, ders ++ ders')
  end.

Lemma observe_inv id s l actor at_ d :
  (observe id s l actor at_ d).2 = d ∨
  (label_of s d = None ∧ ∃ u, append_event id s "observed" l actor None at_ d = Ok (u, (observe id s l actor at_ d).2)).
Proof.
  unfold observe. destruct (validate_subject s), (validate_actor actor); cbn; [|by left..].
  destruct (_ <? _); cbn; [by left|].
  destruct (transaction _ d) as [[u|e] d'] eqn:Ht; cbn.
  - right. apply transaction_ok in Ht as [Hf Ha]%append_first_inv.
    split; [by apply label_of_untouched|]. by exists u.
  - left. by apply transaction_err in Ht.
Qed.

Lemma transform_inv id out sources op actor at_ d r d' :
  transform id out sources op actor at_ d = (r, d') →
  (d' = d ∧ is_ok r = false) ∨
  (∃ l u labels, r = Ok l ∧ label_of out d = None ∧
     Forall2 (λ s l, label_of s d = Some l) sources labels ∧ combine labels op = Some l ∧
     append_event id out "transformed" l actor (Some op) at_ d = Ok (u, d')).
Proof.
  unfold transform. destruct (validate_subject out); [|intros [= <- <-]; by left].
  destruct (validate_actor actor); [|intros [= <- <-]; by left].
  destruct (_ || _); [intros [= <- <-]; by left|].
  destruct (get_all sources d) as [ls|] eqn:Hg; [|intros [= <- <-]; by left].
  destruct (mapM _ ls) as [labels|] eqn:Hm; [|intros [= <- <-]; by left].
  destruct (combine labels op) as [l|] eqn:Hc; [|intros [= <- <-]; by left].
  destruct (transaction _ d) as [[u|e] d1] eqn:Ht; intros [= <- <-].
  - right. apply transaction_ok in Ht as [Hf Ha]%append_first_inv.
    exists l, u, labels. split_and!; [done|by apply label_of_untouched|by eapply get_all_label_of|done..].
  - left. by apply transaction_err in Ht.
Qed.

Lemma declassify_inv id s actor dest scp at_ d r d' :
  declassify id s actor dest scp at_ d = (r, d') →
  (d' = d ∧ is_ok r = false) ∨
  (∃ l l' u, r = Ok l' ∧ label_of s d = Some l ∧ Information.declassify l actor dest scp at_ = (Ok (), l') ∧
     append_event id s "declassified" l' actor (Some scp) at_ d = Ok (u, d')).
Proof.
  unfold declassify. destruct (validate_subject s) eqn:Hv; [|intros [= <- <-]; by left].
  destruct (validate_actor actor); [|intros [= <- <-]; by left].
  destruct (get s d) as [[l|]|] eqn:Hg; [|intros [= <- <-]; by left..].
  destruct (Information.declassify l actor dest scp at_) as [[[]|e] l'] eqn:Hd; [|intros [= <- <-]; by left].
  destruct (transaction _ d) as [[u|e] d1] eqn:Ht; intros [= <- <-].
  - right. apply transaction_ok in Ht. exists l, l', u. by apply get_label_of in Hg.
  - left. by apply transaction_err in Ht.
Qed.
End Labels.

(** ** Labels over time *)

Section History.
Context `{LabelCodecLaws}.

Lemma declassify_same_core l actor dest scp at_ l' :
  Information.declassify l actor dest scp at_ = (Ok (), l') →
  same_core l l' ∧ declassification l' = Some (mkDeclass actor dest scp at_).
Proof. unfold Information.declassify. destruct (_ || _); [done|]. by intros [= <-]. Qed.

(** The cases of a step that changes the database. *)
Lemma run_op_cases o d :
  (run_op o d = (d, [])) ∨
  (∃ id s ev l actor scp at_ u ders,
     append_event id s ev l actor scp at_ d = Ok (u, (run_op o d).1) ∧ (run_op o d).2 = ders ∧
     match o with
     | Observe _ _ l0 _ _ => l = l0 ∧ label_of s d = None ∧ ders = []
     | Transform _ _ sources op _ _ => label_of s d = None ∧ ders = map (pair s) sources ∧
         ∃ labels, Forall2 (λ s l, label_of s d = Some l) sources labels ∧ combine labels op = Some l
     | Declassify _ _ _ _ _ _ => ders = [] ∧ ∃ l0, label_of s d = Some l0 ∧ same_core l0 l
     end).
Proof.
  destruct o as [id s l actor at_|id out sources op actor at_|id s actor dest scp at_]; cbn [run_op].
  - destruct (observe_inv id s l actor at_ d) as [Hd|(Hn & u & Ha)]; [left; by rewrite Hd|right].
    by exists id, s, "observed", l, actor, None, at_, u, [].
  - destruct (transform id out sources op actor at_ d) as [r d'] eqn:Ht.
    destruct (transform_inv _ _ _ _ _ _ _ _ _ Ht) as [[-> Hr]|(l & u & labels & -> & Hn & Hl & Hc & Ha)].
    + left. by destruct r.
    + right. exists id, out, "transformed", l, actor, (Some op), at_, u, (map (pair out) sources).
      split_and!; [done..|]. by exists labels.
  - destruct (declassify id s actor dest scp at_ d) as [r d'] eqn:Ht. cbn.
    destruct (declassify_inv _ _ _ _ _ _ _ _ _ Ht) as [[-> _]|(l & l' & u & -> & Hl & Hd & Ha)]; [by left|].
    right. exists id, s, "declassified", l', actor, (Some scp), at_, u, [].
    apply declassify_same_core in Hd as [Hc _]. split_and!; [done..|]. by exists l.
Qed.

Lemma run_op_core o d s l :
  label_of s d = Some l → ∃ l', label_of s (run_op o d).1 = Some l' ∧ same_core l l'.
Proof.
  intros Hl. destruct (run_op_cases o d) as [->|(id & s' & ev & l' & actor & scp & at_ & u & ders & Ha & _ & Ho)].
  { by exists l. }
  rewrite (label_of_append _ _ _ _ _ _ _ _ _ _ s Ha). case_bool_decide as Hs; [subst s'|by exists l].
  exists l'. split; [done|]. destruct o; [naive_solver..|].
  destruct Ho as (_ & l0 & Hl0 & Hc). by simplify_eq.
Qed.

Lemma combine_as_restricted labels op c x :
  (∀ y, y ∈ labels → single_stars (allowed_destinations y)) →
  combine labels op = Some c → x ∈ labels → as_restricted c x.
Proof.
  destruct labels as [|l ls]; [done|]. intros Hs [= <-] Hx. unfold as_restricted. cbn. split_and!.
  - by apply join_sens.
  - by apply join_trust.
  - intros d. rewrite join_destinations, forallb_forall by done. intros Hall.
    apply Hall. by apply list_elem_of_In.
Qed.

Lemma combine_single_stars labels op c :
  (∀ y, y ∈ labels → single_stars (allowed_destinations y)) →
  combine labels op = Some c → single_stars (allowed_destinations c).
Proof.
  destruct labels as [|l ls]; [done|]. intros Hs [= <-]. cbn. clear op. revert l Hs.
  induction ls as [|y ls IH]; intros l Hs; cbn; [apply Hs; by left|].
  apply IH. intros z [->|Hz]%elem_of_cons; [cbn|apply Hs; by do 2 right].
  apply intersection_single; apply Hs; [left|right; left].
Qed.

Definition op_single_star (o : LabelOp) : Prop :=
  match o with Observe _ _ l _ _ => single_stars (allowed_destinations l) | _ => True end.

(** What holds after any history, with the derivations made so far. *)
Definition history_inv (d : Db) (ders : list (InformationSubject * InformationSubject)) : Prop :=
  (∀ s l, label_of s d = Some l → single_stars (allowed_destinations l)) ∧
  (∀ out src, (out, src) ∈ ders →
     ∃ lo ls, label_of out d = Some lo ∧ label_of src d = Some ls ∧ as_restricted lo ls).

Lemma derived_persists o d (ders : list (InformationSubject * InformationSubject)) :
  (∀ out src, (out, src) ∈ ders →
     ∃ lo ls, label_of out d = Some lo ∧ label_of src d = Some ls ∧ as_restricted lo ls) →
  ∀ out src, (out, src) ∈ ders →
     ∃ lo ls, label_of out (run_op o d).1 = Some lo ∧ label_of src (run_op o d).1 = Some ls ∧
       as_restricted lo ls.
Proof.
  intros Hd out src Hin. destruct (Hd _ _ Hin) as (lo & ls & Ho & Hs & Hr).
  destruct (run_op_core o _ _ _ Ho) as (lo' & Ho' & Hco).
  destruct (run_op_core o _ _ _ Hs) as (ls' & Hs' & Hcs).
  exists lo', ls'. split_and!; [done..|]. by eapply as_restricted_core.
Qed.

Lemma run_op_inv o d ders :
  op_single_star o → history_inv d ders → history_inv (run_op o d).1 (ders ++ (run_op o d).2).
Proof.
  intros Hok [Hss Hd]. pose proof (derived_persists o _ _ Hd) as Hp.
  destruct (run_op_cases o d) as [He|(id & s & ev & l & actor & scp & at_ & u & ders' & Ha & Hders & Ho)].
  { rewrite He. cbn. by rewrite app_nil_r. }
  rewrite Hders. assert (single_stars (allowed_destinations l)) as Hl.
  { destruct o.
    - by destruct Ho as (-> & _).
    - destruct Ho as (_ & _ & labels & Hls & Hc). eapply combine_single_stars; [|done].
      intros y Hy. apply list_elem_of_lookup in Hy as [i Hi].
      destruct (Forall2_lookup_r _ _ _ _ _ Hls Hi) as (s' & _ & Hs'). by eapply Hss.
    - destruct Ho as (_ & l0 & Hl0 & (_ & _ & Heq & _)). rewrite <-Heq. by eapply Hss. }
  split.
  - intros s' l' Hl'. rewrite (label_of_append _ _ _ _ _ _ _ _ _ _ s' Ha) in Hl'.
    case_bool_decide; [by simplify_eq|by eapply Hss].
  - intros out src [Hin|Hin]%elem_of_app; [by apply Hp|].
    destruct o; [destruct Ho as (_ & _ & ->); by apply elem_of_nil in Hin| |destruct Ho as (-> & _); by apply elem_of_nil in Hin].
    destruct Ho as (Hn & -> & labels & Hls & Hc).
    apply list_elem_of_fmap in Hin as (src' & [= -> ->] & Hin).
    apply list_elem_of_lookup in Hin as [i Hi].
    destruct (Forall2_lookup_l _ _ _ _ _ Hls Hi) as (ls & Hi' & Hsrc).
    exists l, ls. rewrite !(label_of_append _ _ _ _ _ _ _ _ _ _ _ Ha), bool_decide_true by done.
    rewrite bool_decide_false by (intros ->; congruence). split_and!; [done..|].
    eapply combine_as_restricted; [|done|by eapply list_elem_of_lookup_2].
    intros y Hy. apply list_elem_of_lookup in Hy as [j Hj].
    destruct (Forall2_lookup_r _ _ _ _ _ Hls Hj) as (s' & _ & Hs'). by eapply Hss.
Qed.

Lemma run_ops_inv os d ders :
  Forall op_single_star os → history_inv d ders →
  history_inv (run_ops os d).1 (ders ++ (run_ops os d).2).
Proof.
  intros Hos. revert d ders. induction Hos as [|o os Ho _ IH]; intros d ders Hinv; cbn.
  { by rewrite app_nil_r. }
  apply (run_op_inv o) in Hinv; [|done]. destruct (run_op o d) as [d1 ders1]. cbn in Hinv.
  apply IH in Hinv. destruct (run_ops os d1) as [d2 ders2]. cbn in *. by rewrite app_assoc.
Qed.

(** Deriving content never launders its label: after any history of
    observations, transformations and declassifications, whatever of them
    failed, content derived from other content in any number of steps is
    labelled at least as sensitive, at most as trusted, and (of itself) for
    no destination its source is not labelled for.  Observed destinations
    are assumed not to end in two stars. *)
Theorem transform_never_launders os out src :
  Forall op_single_star os →
  tc (λ a b, (a, b) ∈ (run_ops os empty_db).2) out src →
  ∃ lo ls, label_of out (run_ops os empty_db).1 = Some lo ∧
    label_of src (run_ops os empty_db).1 = Some ls ∧ as_restricted lo ls.
Proof.
  intros Hos Htc. destruct (run_ops_inv os empty_db [] Hos) as [_ Hd].
  { split; [done|]. by intros ? ? ?%elem_of_nil. }
  cbn in Hd. induction Htc as [a b Hab|a b c Hab _ IH]; [by apply Hd|].
  destruct (Hd _ _ Hab) as (la & lb & Ha & Hb & Hr), IH as (lb' & lc & Hb' & Hc & Hr').
  exists la, lc. simplify_eq. split_and!; [done..|]. by etransitivity.
Qed.

Lemma label_events_append_only o d : label_events d `prefix_of` label_events (run_op o d).1.
Proof.
  destruct (run_op_cases o d) as [->|(id & s & ev & l & actor & scp & at_ & u & ders & Ha & _)]; [done|].
  apply append_event_inv in Ha as (json & _ & ->). by eexists.
Qed.

(** A successful declassification of a subject opens exactly one more
    destination: its label keeps sensitivity, trust, lineage and allowed
    destinations and permits what they permit and the named one; no other
    subject's label changes and the history only grows. *)
Theorem declassify_opens_one id s actor dest scp at_ d l' d' :
  declassify id s actor dest scp at_ d = (Ok l', d') →
  ∃ l, label_of s d = Some l ∧ label_of s d' = Some l' ∧ same_core l l' ∧
    (∀ x, permits_destination l' x = permits_in (allowed_destinations l) x || String.eqb dest x) ∧
    (∀ s', s' ≠ s → label_of s' d' = label_of s' d) ∧
    label_events d `prefix_of` label_events d'.
Proof.
  intros Hd. pose proof (label_events_append_only (Declassify id s actor dest scp at_) d) as Hpre.
  cbn in Hpre. rewrite Hd in Hpre.
  destruct (declassify_inv _ _ _ _ _ _ _ _ _ Hd) as [[_ ?]|(l & l1 & u & [= <-] & Hl & Hdc & Ha)]; [done|].
  apply declassify_same_core in Hdc as [Hc Hrec]. exists l. split_and!; [done| |done| | |done].
  - rewrite (label_of_append _ _ _ _ _ _ _ _ _ _ s Ha). by rewrite bool_decide_true.
  - intros x. unfold permits_destination, declassified_for. rewrite Hrec. cbn.
    by destruct Hc as (_ & _ & <- & _).
  - intros s' Hs'. rewrite (label_of_append _ _ _ _ _ _ _ _ _ _ s' Ha).
    by rewrite bool_decide_false by congruence.
Qed.
End History.

(** ** A concrete history *)

#[global] Instance DeclassificationRecord_eq_dec : EqDecision DeclassificationRecord.
Proof. solve_decision. Defined.
#[global] Instance InformationLabel_eq_dec : EqDecision InformationLabel.
Proof. solve_decision. Defined.

Definition mail_subject : InformationSubject :=
  mkSubject "mail" "m1" "aaaaaaaaaaaaaaaaaaaaaaaaaaaaaaaaaaaaaaaaaaaaaaaaaaaaaaaaaaaaaaaa".
Definition web_subject : InformationSubject :=
  mkSubject "web" "w1" "bbbbbbbbbbbbbbbbbbbbbbbbbbbbbbbbbbbbbbbbbbbbbbbbbbbbbbbbbbbbbbbb".
Definition summary_subject : InformationSubject :=
  mkSubject "note" "n1" "cccccccccccccccccccccccccccccccccccccccccccccccccccccccccccccccc".
Definition site_label : InformationLabel :=
  observed Internal None "UnknownPending" "web" "w1" ["signal:ana"; "email:*"].
Definition summary_label : InformationLabel := default mail_label (combine [mail_label; site_label] "summarise").
Definition opened_label : InformationLabel := (Information.declassify mail_label "ana" "print:desk" "m1" 9).2.

(** A codec for the four labels of the example. *)
#[local] Instance toy_codec : LabelCodec := {|
  label_to_string := λ l,
    if decide (l = mail_label) then Ok "mail" else if decide (l = site_label) then Ok "site"
    else if decide (l = summary_label) then Ok "summary" else if decide (l = opened_label) then Ok "opened"
    else Err "unsupported";
  label_from_str := λ j,
    if String.eqb j "mail" then Ok mail_label else if String.eqb j "site" then Ok site_label
    else if String.eqb j "summary" then Ok summary_label else if String.eqb j "opened" then Ok opened_label
    else Err "unsupported"
|}.

#[local] Instance toy_codec_laws : LabelCodecLaws.
Proof.
  intros l j. unfold label_to_string, toy_codec.
  repeat (destruct (decide _) as [->|_]; [by intros <-%Ok_inj|]). done.
Qed.

Definition toy_history : list LabelOp :=
  [Observe "e1" mail_subject mail_label "host" 1; Observe "e2" web_subject site_label "host" 2;
   Transform "e3" summary_subject [mail_subject; web_subject] "summarise" "host" 3;
   Declassify "e4" mail_subject "ana" "print:desk" "m1" 9].

Lemma transform_never_launders_witness :
  label_of summary_subject (run_ops toy_history empty_db).1 = Some summary_label ∧
  ∃ lo ls, label_of summary_subject (run_ops toy_history empty_db).1 = Some lo ∧
    label_of mail_subject (run_ops toy_history empty_db).1 = Some ls ∧ as_restricted lo ls.
Proof.
  split; [by vm_compute|]. apply transform_never_launders.
  - unfold toy_history. rewrite !Forall_cons. split_and!; [by apply single_stars_check..|done|done|by constructor].
  - apply tc_once. apply (bool_decide_unpack _). by vm_compute.
Defined.

Definition toy_db : Db := (run_ops (take 3 toy_history) empty_db).1.
Definition toy_db' : Db := (run_ops toy_history empty_db).1.

Lemma toy_declassify :
  declassify "e4" mail_subject "ana" "print:desk" "m1" 9 toy_db = (Ok opened_label, toy_db').
Proof. vm_compute. reflexivity. Qed.

Lemma declassify_opens_one_witness : ∃ l, label_of mail_subject toy_db = Some l ∧ same_core l opened_label.
Proof.
  destruct (declassify_opens_one _ _ _ _ _ _ _ _ _ toy_declassify) as (l & Hl & _ & Hc & _).
  exists l. split; [exact Hl|exact Hc].
Defined.
