(* ===== verification/RunBase.v ===== *)
(** * Durable runs: errors, operations and statements

    What the operations of [crates/core/src/runs.rs] share: the store's error
    type, operations as sequences of transactions, the look-ups by key and the
    [UPDATE] and [INSERT] statements on the run tables under the constraints
    of [RunSchema]. *)

From S2P Require Import Prelude Wire RunSchema Schema.

(** ** Errors and operations *)

Inductive RunStoreError : Type :=
| RDb (e : DbError)
| NotFound (entity id : string)
| InvalidTransition (entity id status operation : string)
| Conflict (msg : string)
| InvalidLease (now lease_expires_at : Z)
| Corrupt (msg : string).

#[global] Instance RunStoreError_eq_dec : EqDecision RunStoreError.
Proof. solve_decision. Defined.

(** A store operation runs several transactions in turn; those that committed
    before an error stay. *)
Definition op (A : Type) : Type := Db → result RunStoreError A * Db.

Definition op_ret {A} (a : A) : op A := λ d, (Ok a, d).
Definition op_err {A} (e : RunStoreError) : op A := λ d, (Err e, d).
Definition op_bind {A B} (m : op A) (f : A → op B) : op B := λ d,
  match m d with (Ok a, d) => f a d | (Err e, d) => (Err e, d) end.

(** A read through [with_conn]. *)
Definition op_get {A} (f : Db → A) : op A := λ d, (Ok (f d), d).

(** [self.db.transaction(..)?], with the error converted by [From<DbError>]. *)
Definition op_tx {A} (m : tx Db A) : op A := λ d,
  match transaction m d with (Ok a, d) => (Ok a, d) | (Err e, d) => (Err (RDb e), d) end.

Notation "'do*' x ':=' m 'in' k" := (op_bind m (λ x, k))
  (at level 10, x binder, m at level 100, k at level 200) : execlaw_scope.

(** ** Look-ups *)

Definition is_run (id : string) (r : RunRecord) : bool := String.eqb (run_id r) id.
Definition is_step (rid sid : string) (s : RunStepRecord) : bool :=
  String.eqb (st_run_id s) rid && String.eqb (st_step_id s) sid.
Definition in_slot (rid : string) (n : Z) (s : RunStepRecord) : bool :=
  String.eqb (st_run_id s) rid && (st_ordinal s =? n).

Definition steps_of (d : Db) : list RunStepRecord := run_steps (run_tables d).
Definition find_run (id : string) (d : Db) : option RunRecord := List.find (is_run id) (state_runs d).
Definition find_step (rid sid : string) (d : Db) : option RunStepRecord :=
  List.find (is_step rid sid) (steps_of d).
Definition step_at (rid : string) (n : Z) (d : Db) : option RunStepRecord :=
  List.find (in_slot rid n) (steps_of d).

Definition get_run (id : string) : op (option RunRecord) := op_get (find_run id).
Definition get_step (rid sid : string) : op (option RunStepRecord) := op_get (find_step rid sid).

Definition required_run (id : string) : op RunRecord := λ d,
  match find_run id d with Some r => (Ok r, d) | None => (Err (NotFound "run" id), d) end.

Definition required_step (rid sid : string) : op RunStepRecord := λ d,
  match find_step rid sid d with
  | Some s => (Ok s, d)
  | None => (Err (NotFound "step" (rid +:+ "/" +:+ sid)), d)
  end.

Definition transition_error {A} (rid sid operation : string) : op A :=
  do* s := required_step rid sid in
  op_err (InvalidTransition "step" (rid +:+ "/" +:+ sid) (step_status_str (st_status s)) operation).

(** ** Statements *)

Definition foreign_key_failed : DbError := Sqlite "FOREIGN KEY constraint failed".
Definition check_failed : DbError := Sqlite "CHECK constraint failed".

Definition update_where {A} (p : A → bool) (f : A → A) (l : list A) : list A :=
  map (λ x, if p x then f x else x) l.
Definition count_where {A} (p : A → bool) (l : list A) : Z := Z.of_nat (length (List.filter p l)).

(** [UPDATE state_runs SET .. WHERE ..]; the result is the number of rows. *)
Definition update_runs (p : RunRecord → bool) (f : RunRecord → RunRecord) : tx Db Z := λ d,
  let l := update_where p f (state_runs d) in
  if forallb run_check l
  then Ok (count_where p (state_runs d), set_runs (λ _, l) d) else Err check_failed.

(** [UPDATE state_run_steps SET .. WHERE ..] *)
Definition update_steps (p : RunStepRecord → bool) (f : RunStepRecord → RunStepRecord) : tx Db Z := λ d,
  let l := update_where p f (steps_of d) in
  if decide (steps_ok l)
  then Ok (count_where p (steps_of d), set_run_tables (set_run_steps (λ _, l)) d)
  else Err constraint_failed.

(** [INSERT OR IGNORE INTO state_run_steps]: a row that violates a check or a
    unique constraint is skipped, a missing run is an error. *)
Definition insert_or_ignore_step (s : RunStepRecord) : tx Db () := λ d,
  let l := steps_of d ++ [s] in
  if decide (steps_ok l)
  then match find_run (st_run_id s) d with
       | Some _ => Ok ((), set_run_tables (set_run_steps (λ _, l)) d)
       | None => Err foreign_key_failed
       end
  else Ok ((), d).

(** [INSERT OR IGNORE INTO state_runs]; the input event and the parent are
    foreign keys. *)
Definition insert_or_ignore_run (r : RunRecord) : tx Db () := λ d,
  if existsb (is_run (run_id r)) (state_runs d) || negb (run_check r) then Ok ((), d)
  else if existsb (λ e, ev_seq e =? run_input_event_seq r) (events_of (run_conversation_id r) d)
          && match run_parent r with
             | Some p => existsb (is_run p) (state_runs d) || String.eqb p (run_id r)
             | None => true
             end
       then Ok ((), set_runs (λ l, l ++ [r]) d)
       else Err foreign_key_failed.

(** ** Facts about the statements *)

Lemma op_bind_ok {A B} (m : op A) (f : A → op B) d b d'' :
  op_bind m f d = (Ok b, d'') ↔ ∃ a d', m d = (Ok a, d') ∧ f a d' = (Ok b, d'').
Proof.
  unfold op_bind. destruct (m d) as [[a|e] d1]; split.
  - intros Hf. by exists a, d1.
  - intros (a' & d2 & [= <- <-] & Hf). done.
  - done.
  - by intros (? & ? & ? & ?).
Qed.

Lemma op_tx_ok {A} (m : tx Db A) d a d' : op_tx m d = (Ok a, d') ↔ m d = Ok (a, d').
Proof.
  unfold op_tx, transaction. destruct (m d) as [[a1 d1]|e]; split; congruence.
Qed.

Lemma op_tx_err {A} (m : tx Db A) d e d' : op_tx m d = (Err e, d') → d' = d.
Proof. unfold op_tx, transaction. destruct (m d) as [[a1 d1]|e1]; congruence. Qed.

Lemma is_run_true id r : is_run id r = true ↔ run_id r = id.
Proof. apply String.eqb_eq. Qed.
Lemma is_step_true rid sid s : is_step rid sid s = true ↔ step_pk s = (rid, sid).
Proof. unfold is_step, step_pk. rewrite andb_true_iff, !String.eqb_eq. naive_solver. Qed.
Lemma in_slot_true rid n s : in_slot rid n s = true ↔ step_slot s = (rid, n).
Proof. unfold in_slot, step_slot. rewrite andb_true_iff, String.eqb_eq, Z.eqb_eq. naive_solver. Qed.

Lemma find_Some_elem {A} (p : A → bool) l x : List.find p l = Some x → x ∈ l ∧ p x = true.
Proof. intros [Hin Hp]%find_some. by split; [apply list_elem_of_In|]. Qed.

Lemma find_None_elem {A} (p : A → bool) l x : List.find p l = None → x ∈ l → p x = false.
Proof. intros Hf Hx%list_elem_of_In. by eapply find_none in Hf. Qed.

(** Rows with unique keys are told apart by them. *)
Lemma NoDup_key_inj {A K} (key : A → K) l x y :
  NoDup (map key l) → x ∈ l → y ∈ l → key x = key y → x = y.
Proof.
  intros Hnd Hx Hy Hk. induction l as [|z l IH]; [by apply elem_of_nil in Hx|]. cbn in Hnd.
  apply NoDup_cons in Hnd as [Hz Hnd].
  apply elem_of_cons in Hx as [->|Hx], Hy as [->|Hy]; auto.
  - destruct Hz. rewrite Hk. by apply list_elem_of_fmap_2.
  - destruct Hz. rewrite <-Hk. by apply list_elem_of_fmap_2.
Qed.

(** The row with a key, when keys are unique. *)
Lemma find_key {A K} `{EqDecision K} (key : A → K) (p : A → bool) k l x :
  (∀ y, p y = true ↔ key y = k) → NoDup (map key l) → x ∈ l → key x = k → List.find p l = Some x.
Proof.
  intros Hp Hnd Hx Hk. induction l as [|y l IH]; [by apply elem_of_nil in Hx|]. cbn in *.
  apply NoDup_cons in Hnd as [Hy Hnd]. destruct (p y) eqn:Hpy.
  - apply Hp in Hpy. apply elem_of_cons in Hx as [->|Hx]; [done|].
    destruct Hy. rewrite Hpy, <-Hk. by apply list_elem_of_fmap_2.
  - apply elem_of_cons in Hx as [->|Hx]; [|by apply IH].
    apply Hp in Hk. congruence.
Qed.

Lemma find_update {A} (p q : A → bool) (f : A → A) l :
  (∀ x, p (if q x then f x else x) = p x) →
  List.find p (update_where q f l) = (λ x, if q x then f x else x) <$> List.find p l.
Proof.
  intros Hp. induction l as [|x l IH]; cbn; [done|]. rewrite Hp. by destruct (p x).
Qed.

Lemma elem_of_update {A} (p : A → bool) (f : A → A) l y :
  y ∈ update_where p f l ↔ ∃ x, x ∈ l ∧ y = if p x then f x else x.
Proof. unfold update_where. rewrite list_elem_of_fmap. naive_solver. Qed.

Lemma map_update {A B} (g : A → B) (p : A → bool) (f : A → A) l :
  (∀ x, p x = true → g (f x) = g x) → map g (update_where p f l) = map g l.
Proof.
  intros Hg. unfold update_where. rewrite map_map. apply map_ext. intros x.
  destruct (p x) eqn:Hx; auto.
Qed.

Lemma count_where_pos {A} (p : A → bool) l : count_where p l ≠ 0 ↔ ∃ x, x ∈ l ∧ p x = true.
Proof.
  unfold count_where. rewrite <-existsb_True. induction l as [|x l IH]; cbn; [done|].
  destruct (p x); cbn; [|done]. split; [done|lia].
Qed.

Lemma count_where_unique {A K} `{EqDecision K} (key : A → K) k (p : A → bool) l :
  NoDup (map key l) → (∀ x, p x = true → key x = k) → 0 ≤ count_where p l ≤ 1.
Proof.
  unfold count_where. intros Hnd Hp. induction l as [|x l IH]; cbn; [lia|].
  apply NoDup_cons in Hnd as [Hx Hnd]. specialize (IH Hnd). destruct (p x) eqn:Hpx; cbn; [|lia].
  rewrite (filter_none p l); [cbn; lia|]. intros y Hy. apply not_true_iff_false. intros Hpy.
  apply Hx. rewrite (Hp x), <-(Hp y) by done. by apply list_elem_of_fmap_2.
Qed.

Lemma update_runs_ok p f d n d' :
  update_runs p f d = Ok (n, d') →
  n = count_where p (state_runs d) ∧ d' = set_runs (λ _, update_where p f (state_runs d)) d ∧
  Forall (λ r, run_check r = true) (state_runs d').
Proof.
  unfold update_runs. destruct (forallb _ _) eqn:Hc; [|done]. intros [= <- <-].
  split_and!; [done..|]. cbn. apply List.Forall_forall. by apply forallb_forall.
Qed.

Lemma update_steps_ok p f d n d' :
  update_steps p f d = Ok (n, d') →
  n = count_where p (steps_of d) ∧
  d' = set_run_tables (set_run_steps (λ _, update_where p f (steps_of d))) d ∧
  steps_ok (steps_of d').
Proof. unfold update_steps. case_decide; [|done]. by intros [= <- <-]. Qed.

Lemma find_run_Some id d r : find_run id d = Some r → r ∈ state_runs d ∧ run_id r = id.
Proof. intros [Hin Hp]%find_Some_elem. by apply is_run_true in Hp. Qed.
Lemma find_step_Some rid sid d s : find_step rid sid d = Some s → s ∈ steps_of d ∧ step_pk s = (rid, sid).
Proof. intros [Hin Hp]%find_Some_elem. by apply is_step_true in Hp. Qed.
Lemma step_at_Some rid n d s : step_at rid n d = Some s → s ∈ steps_of d ∧ step_slot s = (rid, n).
Proof. intros [Hin Hp]%find_Some_elem. by apply in_slot_true in Hp. Qed.
