(* ===== verification/RunBudgets.v ===== *)
(** * Run-wide execution budgets

    The time, retry and effect limits of a durable run
    ([crates/core/src/runs.rs]): created once, consumed under a deadline, with
    the wall clock checked against the last observation. *)

From stdpp Require Import relations.
From S2P Require Import Prelude Wire RunSchema Schema RunBase.

(** ** Data *)

Record RunExecutionBudget : Type := mkBudget {
  time_limit_ms : Z;
  deadline_at_ms : Z;
  retry_limit : Z;
  retries_used : Z;
  effect_limit : Z;
  effects_used : Z
}.

(** [RunClockError::Rollback] in its [Display]. *)
Definition rollback_message (last_observed_ms now_ms : Z) : string :=
  "wall clock moved backward from " +:+ pretty last_observed_ms +:+ " to " +:+ pretty now_ms
    +:+ "; timer validity is unverifiable".

Definition validate_run_clock (last_observed_ms now_ms : Z) : result string () :=
  if now_ms <? last_observed_ms then Err (rollback_message last_observed_ms now_ms) else Ok ().

(** [v.div_euclid(1_000)] *)
Definition seconds (ms : Z) : Z := ms / 1000.
(** [i64::saturating_mul] *)
Definition i64_saturating_mul (a b : Z) : Z := Z.max i64_min (Z.min i64_max (a * b)).

Definition budget_of (rid : string) (d : Db) : option ExecutionBudgetRow :=
  execution_budgets (run_tables d) !! rid.

Definition set_budget (rid : string) (b : ExecutionBudgetRow) (d : Db) : Db :=
  set_run_tables (set_execution_budgets <[rid := b]>) d.

(** The row as the structure the store returns; [.max(0) as u64]. *)
Definition read_budget (b : ExecutionBudgetRow) : RunExecutionBudget :=
  mkBudget (Z.max 0 (eb_time_limit_ms b)) (eb_deadline_at_ms b) (eb_retry_limit b)
    (eb_retries_used b) (eb_effect_limit b) (eb_effects_used b).

Definition observed_at (ms : Z) (b : ExecutionBudgetRow) : ExecutionBudgetRow :=
  mkExecBudget (eb_time_limit_ms b) (eb_deadline_at_ms b) (eb_retry_limit b) (eb_retries_used b)
    (eb_effect_limit b) (eb_effects_used b) ms.

(** ** Operations *)

Definition set_deadline (rid : string) (seconds : Z) : tx Db Z :=
  update_runs (is_run rid) (λ r, mkRun (run_id r) (run_conversation_id r) (run_parent r) (run_status r)
    (run_cursor r) (run_input_event_seq r) (run_started_at r) (run_updated_at r)
    (Some (default seconds (run_deadline_at r)))).

(** The statements run one after the other, each committed by itself. *)
Definition ensure_execution_budget (rid : string) (time_limit_ms retry_limit effect_limit now_ms : Z) :
    op RunExecutionBudget :=
  if time_limit_ms =? 0 then op_err (Conflict "run time budget must be positive")
  else if i64_max <? time_limit_ms then op_err (Conflict "run time budget is too large")
  else
    let deadline_at_ms := i64_saturating_add now_ms time_limit_ms in
    do* _ := op_tx (λ d,
      match budget_of rid d with
      | Some _ => Ok ((), d)
      | None =>
          match find_run rid d with
          | None => Err foreign_key_failed
          | Some _ => Ok ((), set_budget rid
              (mkExecBudget time_limit_ms deadline_at_ms retry_limit 0 effect_limit 0 now_ms) d)
          end
      end) in
    do* stored := op_tx (λ d, match budget_of rid d with
                              | Some b => Ok (b, d) | None => Err no_rows end) in
    if negb (eb_time_limit_ms stored =? time_limit_ms) || negb (eb_retry_limit stored =? retry_limit)
       || negb (eb_effect_limit stored =? effect_limit)
    then op_err (RDb (Invariant "run execution budget changed during a durable run"))
    else
      do* _ := op_tx (set_deadline rid (seconds (eb_deadline_at_ms stored))) in
      op_ret (mkBudget (eb_time_limit_ms stored) (eb_deadline_at_ms stored) (eb_retry_limit stored)
                (eb_retries_used stored) (eb_effect_limit stored) (eb_effects_used stored)).

Definition execution_budget (rid : string) : op (option RunExecutionBudget) :=
  op_get (λ d, read_budget <$> budget_of rid d).

Definition execution_budget_at_tx (rid : string) (now_ms : Z) : tx Db (option RunExecutionBudget) := λ d,
  match budget_of rid d with
  | None => Ok (None, d)
  | Some b =>
      if eb_updated_at_ms b <=? now_ms
      then Ok (Some (read_budget b), set_budget rid (observed_at now_ms b) d)
      else match validate_run_clock (eb_updated_at_ms b) now_ms with
           | Err e => Err (Invariant e)
           | Ok _ => Ok (None, d)
           end
  end.

Definition execution_budget_at (rid : string) (now_ms : Z) : op (option RunExecutionBudget) :=
  op_tx (execution_budget_at_tx rid now_ms).

Definition observe_at_second_tx (rid : string) (now : Z) : tx Db () := λ d,
  match budget_of rid d with
  | None => Ok ((), d)
  | Some b =>
      if now <? seconds (eb_updated_at_ms b)
      then Err (Invariant (rollback_message (eb_updated_at_ms b) (i64_saturating_mul now 1000)))
      else Ok ((), set_budget rid
             (observed_at (Z.max (eb_updated_at_ms b) (i64_saturating_mul now 1000)) b) d)
  end.

Definition observe_execution_budget_at_second (rid : string) (now : Z) : op () :=
  op_tx (observe_at_second_tx rid now).

(** [retries_used<retry_limit AND deadline_at_ms>?2 AND updated_at_ms<=?2] *)
Definition may_retry (now_ms : Z) (b : ExecutionBudgetRow) : bool :=
  (eb_updated_at_ms b <=? now_ms) && (eb_retries_used b <? eb_retry_limit b)
  && (now_ms <? eb_deadline_at_ms b).

Definition consume_retry_tx (rid : string) (now_ms : Z) : tx Db bool := λ d,
  match budget_of rid d with
  | Some b =>
      if may_retry now_ms b
      then Ok (true, set_budget rid (mkExecBudget (eb_time_limit_ms b) (eb_deadline_at_ms b)
             (eb_retry_limit b) (eb_retries_used b + 1) (eb_effect_limit b) (eb_effects_used b) now_ms) d)
      else Ok (false, d)
  | None => Ok (false, d)
  end.

Definition consume_execution_retry (rid : string) (now_ms : Z) : op bool :=
  op_tx (consume_retry_tx rid now_ms).

Definition may_claim_effect (now_ms : Z) (b : ExecutionBudgetRow) : bool :=
  (eb_updated_at_ms b <=? now_ms) && (eb_effects_used b <? eb_effect_limit b)
  && (now_ms <? eb_deadline_at_ms b).

Definition take_effect (now_ms : Z) (b : ExecutionBudgetRow) : ExecutionBudgetRow :=
  mkExecBudget (eb_time_limit_ms b) (eb_deadline_at_ms b) (eb_retry_limit b) (eb_retries_used b)
    (eb_effect_limit b) (eb_effects_used b + 1) now_ms.

Definition claim_effect_tx (rid sid : string) (now_ms : Z) : tx Db bool := λ d,
  match match budget_of rid d with
        | Some b => validate_run_clock (eb_updated_at_ms b) now_ms | None => Ok () end with
  | Err e => Err (Invariant e)
  | Ok _ =>
      if bool_decide (is_Some (effect_claims (run_tables d) !! (rid, sid)))
      then Ok (true, match budget_of rid d with
                     | Some b => if eb_updated_at_ms b <=? now_ms
                                 then set_budget rid (observed_at now_ms b) d else d
                     | None => d
                     end)
      else match budget_of rid d with
           | Some b =>
               if may_claim_effect now_ms b
               then match find_run rid d with
                    | None => Err foreign_key_failed
                    | Some _ => Ok (true, set_run_tables (set_effect_claims <[(rid, sid) := now_ms]>)
                                            (set_budget rid (take_effect now_ms b) d))
                    end
               else Ok (false, d)
           | None => Ok (false, d)
           end
  end.

Definition claim_execution_effect (rid sid : string) (now_ms : Z) : op bool :=
  op_tx (claim_effect_tx rid sid now_ms).

(** ** Facts *)

Lemma budget_of_set rid b d rid' :
  budget_of rid' (set_budget rid b d) = if decide (rid = rid') then Some b else budget_of rid' d.
Proof. unfold budget_of, set_budget. cbn. apply lookup_insert. Qed.
