(* ===== verification/RunStore.v ===== *)
(** * The durable run store

    [crates/core/src/runs.rs], runs and their checkpointed steps: creation,
    leases, completion, waits, the cursor, cancellation, failure and the
    recovery action.  [now] and the other times are the caller's clock
    readings.  Each transaction is a definition of its own ([.._tx]); the
    operation around it performs the reads before and after it. *)

From stdpp Require Import sorting.
From S2P Require Import Prelude Wire Text RunSchema Schema Information InformationStore RunBase RunBudgets.

(** ** Data *)

Record NewRun : Type := mkNewRun {
  nr_conversation_id : string;
  nr_parent_run_id : option string;
  nr_input_event_seq : Z;
  nr_started_at : Z;
  nr_deadline_at : option Z
}.

Record NewRunStep : Type := mkNewStep {
  ns_step_id : string;
  ns_ordinal : Z;
  ns_kind : RunStepKind;
  ns_input_hash : string;
  ns_approval_id : option string;
  ns_outbox_key : option string
}.

Inductive NextSafeAction : Type :=
| Claim (s : RunStepRecord)
| ReclaimExpired (s : RunStepRecord)
| WaitForLease (s : RunStepRecord)
| WaitForApproval (s : RunStepRecord)
| Wait (s : RunStepRecord)
| AdvanceCursor (s : RunStepRecord)
| CompleteRun (cursor : Z)
| IsCompleted
| IsFailed
| IsCancelled.

#[global] Instance NextSafeAction_eq_dec : EqDecision NextSafeAction.
Proof. solve_decision. Defined.

(** ** Row updates *)

Definition run_with (st : RunStatus) (cursor at_ : Z) (r : RunRecord) : RunRecord :=
  mkRun (run_id r) (run_conversation_id r) (run_parent r) st cursor (run_input_event_seq r)
    (run_started_at r) at_ (run_deadline_at r).

(** [SET status = .., updated_at = ..] *)
Definition run_to (st : RunStatus) (at_ : Z) (r : RunRecord) : RunRecord := run_with st (run_cursor r) at_ r.

Definition step_with (st : RunStepStatus) (attempt : Z) (output approval lease : option string)
    (expires started completed : option Z) (s : RunStepRecord) : RunStepRecord :=
  mkStep (st_run_id s) (st_step_id s) (st_ordinal s) (st_kind s) st attempt (st_input_hash s)
    output approval (st_outbox_key s) lease expires started completed.

(** The claim: [attempt + 1], the lease, [COALESCE(started_at, now)]. *)
Definition claimed (owner : string) (now expires : Z) (s : RunStepRecord) : RunStepRecord :=
  step_with StepRunning (st_attempt s + 1) (st_output_ref s) (st_approval_id s) (Some owner) (Some expires)
    (Some (default now (st_started_at s))) (st_completed_at s) s.

(** A terminal status with the lease released. *)
Definition closed (st : RunStepStatus) (output : option string) (at_ : Z) (s : RunStepRecord) : RunStepRecord :=
  step_with st (st_attempt s) output (st_approval_id s) None None (st_started_at s) (Some at_) s.

(** [COALESCE(a, b)] *)
Definition coalesce {A} (a b : option A) : option A := match a with Some _ => a | None => b end.

Definition parked (approval : option string) (s : RunStepRecord) : RunStepRecord :=
  step_with StepWaiting (st_attempt s) (st_output_ref s) (coalesce approval (st_approval_id s)) None None
    (st_started_at s) (st_completed_at s) s.

Definition resumed (s : RunStepRecord) : RunStepRecord :=
  step_with StepPending (st_attempt s) (st_output_ref s) (st_approval_id s) (st_lease_owner s)
    (st_lease_expires_at s) (st_started_at s) (st_completed_at s) s.

(** [status = 'running' AND lease_owner = ?3] *)
Definition leased_by (owner : string) (s : RunStepRecord) : bool :=
  bool_decide (st_status s = StepRunning) && bool_decide (st_lease_owner s = Some owner).

(** [lease_expires_at <= ?5]; no lease never compares. *)
Definition lease_ended (now : Z) (s : RunStepRecord) : bool :=
  match st_lease_expires_at s with Some e => e <=? now | None => false end.

(** ** Creating runs *)

Section Create.
Context `{LabelCodec} (sha256_hex : bytes → string).

Definition new_run_row (id : string) (n : NewRun) : RunRecord :=
  mkRun id (nr_conversation_id n) (nr_parent_run_id n) RunPending 0 (nr_input_event_seq n)
    (nr_started_at n) (nr_started_at n) (nr_deadline_at n).

Definition create_run_tx (id : string) (n : NewRun) : tx Db () :=
  let* d := tx_get in
  let insert := insert_or_ignore_run (new_run_row id n) in
  match nr_parent_run_id n with
  | None => insert
  | Some p =>
      match find_run p d with
      | None => tx_err (Invariant ("parent run '" +:+ p +:+ "' was not found"))
      | Some parent =>
          if negb (String.eqb (run_conversation_id parent) (nr_conversation_id n))
          then tx_err (Invariant "parent and child runs must share a conversation")
          else insert
      end
  end.

Definition same_definition (n : NewRun) (r : RunRecord) : bool :=
  String.eqb (run_conversation_id r) (nr_conversation_id n)
  && bool_decide (run_parent r = nr_parent_run_id n)
  && (run_input_event_seq r =? nr_input_event_seq n)
  && bool_decide (run_deadline_at r = nr_deadline_at n).

(** The input event's payload and the conversation's trust class. *)
Definition run_input (n : NewRun) (d : Db) : option bytes * string :=
  match conversations d !! nr_conversation_id n with
  | None => (None, "UnknownPending")
  | Some c =>
      (ev_payload <$> List.find (λ e, ev_seq e =? nr_input_event_seq n) (events_of (nr_conversation_id n) d),
       cv_trust_class c)
  end.

Definition run_label (n : NewRun) (trust : string) : InformationLabel :=
  observed Sensitive (Some (nr_conversation_id n)) trust "run_input"
    (nr_conversation_id n +:+ ":" +:+ pretty (nr_input_event_seq n))
    (if String.eqb trust "Controller" || String.eqb trust "Delegated" || String.eqb trust "KnownTrusted"
     then ["transport:*"] else []).

Definition label_run (event_id id : string) (n : NewRun) : op () := λ d,
  let '(payload, trust) := run_input n d in
  let subject := mkSubject "run" id (sha256_hex (default (as_bytes id) payload)) in
  match get subject d with
  | Err e => (Err (RDb e), d)
  | Ok (Some _) => (Ok (), d)
  | Ok None =>
      match observe event_id subject (run_label n trust) "runs:store" (nr_started_at n) d with
      | (Ok _, d) => (Ok (), d)
      | (Err e, d) => (Err (RDb e), d)
      end
  end.

Definition create_run_with_id (event_id id : string) (n : NewRun) : op RunRecord :=
  do* _ := op_tx (create_run_tx id n) in
  do* existing := required_run id in
  if negb (same_definition n existing)
  then op_err (Conflict ("run '" +:+ id +:+ "' was retried with a different definition"))
  else do* _ := label_run event_id id n in op_ret existing.

(** With a generated identifier. *)
Definition create_run (event_id id : string) (n : NewRun) : op string :=
  do* _ := create_run_with_id event_id id n in op_ret id.
End Create.

(** ** Steps *)

Definition new_step_row (rid : string) (n : NewRunStep) : RunStepRecord :=
  mkStep rid (ns_step_id n) (ns_ordinal n) (ns_kind n) StepPending 0 (ns_input_hash n) None
    (ns_approval_id n) (ns_outbox_key n) None None None None.

Definition add_step_tx (rid : string) (n : NewRunStep) : tx Db (option RunStepRecord) :=
  let* d := tx_get in
  match find_run rid d with
  | None => tx_err (Invariant ("run '" +:+ rid +:+ "' was not found"))
  | Some r =>
      if negb (run_active r)
      then tx_err (Invariant ("cannot add step to run '" +:+ rid +:+ "' while it is " +:+
                              run_status_str (run_status r)))
      else
        insert_or_ignore_step (new_step_row rid n) ;;*
        let* d := tx_get in tx_ret (find_step rid (ns_step_id n) d)
  end.

Definition same_step_definition (n : NewRunStep) (s : RunStepRecord) : bool :=
  (st_ordinal s =? ns_ordinal n) && bool_decide (st_kind s = ns_kind n)
  && String.eqb (st_input_hash s) (ns_input_hash n)
  && bool_decide (st_approval_id s = ns_approval_id n)
  && bool_decide (st_outbox_key s = ns_outbox_key n).

Definition add_step (rid : string) (n : NewRunStep) : op RunStepRecord :=
  do* result := op_tx (add_step_tx rid n) in
  match result with
  | None => op_err (Conflict ("step '" +:+ ns_step_id n +:+
              "' collides with an existing ordinal, approval id, or outbox key"))
  | Some existing =>
      if same_step_definition n existing then op_ret existing
      else op_err (Conflict ("step '" +:+ ns_step_id n +:+ "' was retried with a different definition"))
  end.

(** The [WHERE] of the claim. *)
Definition claimable (rid sid : string) (now : Z) (d : Db) (s : RunStepRecord) : bool :=
  is_step rid sid s
  && (bool_decide (st_status s = StepPending)
      || (bool_decide (st_status s = StepRunning) && lease_ended now s))
  && match find_run rid d with
     | Some r => run_active r && (st_ordinal s =? run_cursor r)
     | None => false
     end.

Definition claim_step_tx (rid sid owner : string) (now expires : Z) : tx Db bool :=
  let* d := tx_get in
  let* changed := update_steps (claimable rid sid now d) (claimed owner now expires) in
  if changed =? 1
  then update_runs (is_run rid) (run_to RunRunning now) ;;* tx_ret true
  else tx_ret false.

Definition claim_step (rid sid owner : string) (now expires : Z) : op RunStepRecord :=
  do* _ := observe_execution_budget_at_second rid now in
  if expires <=? now then op_err (InvalidLease now expires)
  else
    do* changed := op_tx (claim_step_tx rid sid owner now expires) in
    if changed then required_step rid sid else transition_error rid sid "claim".

Definition finish_step_tx (rid sid owner : string) (st : RunStepStatus) (output : option string)
    (at_ : Z) : tx Db bool :=
  let* changed := update_steps (λ s, is_step rid sid s && leased_by owner s) (closed st output at_) in
  if changed =? 1
  then update_runs (is_run rid)
         (run_to (if bool_decide (st = StepFailed) then RunFailed else RunRunning) at_) ;;* tx_ret true
  else tx_ret false.

Definition finish_step (rid sid owner : string) (st : RunStepStatus) (output : option string)
    (at_ : Z) : op RunStepRecord :=
  do* changed := op_tx (finish_step_tx rid sid owner st output at_) in
  if changed then required_step rid sid else transition_error rid sid (step_status_str st).

Definition complete_step (rid sid owner : string) (output : option string) (at_ : Z) : op RunStepRecord :=
  finish_step rid sid owner StepCompleted output at_.

Definition fail_step (rid sid owner : string) (output : option string) (at_ : Z) : op RunStepRecord :=
  finish_step rid sid owner StepFailed output at_.

Definition wait_step_tx (rid sid owner : string) (approval : option string) (at_ : Z) : tx Db bool :=
  let* changed := update_steps (λ s, is_step rid sid s && leased_by owner s) (parked approval) in
  if changed =? 1
  then update_runs (is_run rid) (run_to RunWaiting at_) ;;* tx_ret true
  else tx_ret false.

Definition wait_step (rid sid owner : string) (approval : option string) (at_ : Z) : op RunStepRecord :=
  do* step := required_step rid sid in
  if bool_decide (st_kind step = ApprovalWait) && bool_decide (coalesce approval (st_approval_id step) = None)
  then op_err (Conflict "approval_wait steps require an approval_id")
  else
    do* changed := op_tx (wait_step_tx rid sid owner approval at_) in
    if changed then required_step rid sid else transition_error rid sid "wait".

(** [status = 'waiting' AND (approval_id IS NULL OR approval_id = ?3)] *)
Definition resumable (approval : option string) (s : RunStepRecord) : bool :=
  bool_decide (st_status s = StepWaiting)
  && match st_approval_id s with
     | None => true
     | Some a => bool_decide (approval = Some a)
     end.

Definition resume_step_tx (rid sid : string) (approval : option string) (at_ : Z) : tx Db bool :=
  let* changed := update_steps (λ s, is_step rid sid s && resumable approval s) resumed in
  if changed =? 1
  then update_runs (is_run rid) (run_to RunPending at_) ;;* tx_ret true
  else tx_ret false.

Definition resume_waiting_step (rid sid : string) (approval : option string) (at_ : Z) : op RunStepRecord :=
  do* changed := op_tx (resume_step_tx rid sid approval at_) in
  if changed then required_step rid sid else transition_error rid sid "resume".

(** ** The cursor *)

Definition advance_cursor_tx (rid : string) (expected at_ : Z) : tx Db bool :=
  let* d := tx_get in
  match step_at rid expected d with
  | Some s =>
      if bool_decide (st_status s = StepCompleted)
      then
        let* changed := update_runs (λ r, is_run rid r && (run_cursor r =? expected) && run_active r)
          (λ r, run_with RunPending (run_cursor r + 1) at_ r) in
        tx_ret (changed =? 1)
      else tx_ret false
  | None => tx_ret false
  end.

Definition run_error {A} (rid operation : string) : op A :=
  do* r := required_run rid in
  op_err (InvalidTransition "run" rid (run_status_str (run_status r)) operation).

Definition advance_cursor (rid : string) (expected at_ : Z) : op RunRecord :=
  do* advanced := op_tx (advance_cursor_tx rid expected at_) in
  if advanced then required_run rid else run_error rid "advance cursor".

Definition complete_run_tx (rid : string) (expected at_ : Z) : tx Db bool :=
  let* d := tx_get in
  let* changed := update_runs (λ r, is_run rid r && (run_cursor r =? expected) && run_active r
      && negb (existsb (in_slot rid expected) (steps_of d))) (run_to RunCompleted at_) in
  tx_ret (changed =? 1).

Definition complete_run (rid : string) (expected at_ : Z) : op RunRecord :=
  do* completed := op_tx (complete_run_tx rid expected at_) in
  if completed then required_run rid else run_error rid "complete".

(** ** Cancelling and failing *)

(** The run ids reachable from [seen] by [child.parent_run_id = parent.run_id]:
    the recursive [UNION]; every round but the last adds a run, so the number
    of runs is enough rounds. *)
Definition children_of (seen : list string) (l : list RunRecord) : list string :=
  map run_id (List.filter (λ r,
    match run_parent r with Some p => bool_decide (p ∈ seen) | None => false end
    && negb (bool_decide (run_id r ∈ seen))) l).

Fixpoint closure (rounds : nat) (l : list RunRecord) (seen : list string) : list string :=
  match rounds with
  | O => seen
  | S n => match children_of seen l with [] => seen | new => closure n l (seen ++ new) end
  end.

(** [descendants] starts from the children of the run, [cancelled_runs] from
    the run itself. *)
Definition descendants (rid : string) (l : list RunRecord) : list string :=
  closure (length l) l (map run_id (List.filter (λ r, bool_decide (run_parent r = Some rid)) l)).
Definition cancelled_runs (rid : string) (l : list RunRecord) : list string := closure (length l) l [rid].

Definition cancel_run_tx (rid : string) (at_ : Z) : tx Db bool :=
  let* d := tx_get in
  match find_run rid d with
  | None => tx_ret false
  | Some prior =>
      let* changed := update_runs (λ r, is_run rid r && run_active r) (run_to RunCancelled at_) in
      if (changed =? 0) && negb (bool_decide (run_status prior = RunCancelled)) then tx_ret false
      else
        let* d := tx_get in
        let* _ := update_runs (λ r, bool_decide (run_id r ∈ descendants rid (state_runs d)) && run_active r)
          (run_to RunCancelled at_) in
        let* d := tx_get in
        let* _ := update_steps (λ s, bool_decide (st_run_id s ∈ cancelled_runs rid (state_runs d)) && step_open s)
          (closed StepFailed (Some "error:cancelled") at_) in
        tx_ret (changed =? 1)
  end.

Definition cancel_run (rid : string) (at_ : Z) : op bool := op_tx (cancel_run_tx rid at_).

(** The open checkpoints of a failed run. *)
Definition fail_open_steps (rid reason : string) (at_ : Z) : tx Db Z :=
  update_steps (λ s, String.eqb (st_run_id s) rid && step_open s)
    (λ s, closed StepFailed (coalesce (st_output_ref s) (Some reason)) at_ s).

Definition fail_run_tx (rid : string) (at_ : Z) : tx Db bool :=
  let* changed := update_runs (λ r, is_run rid r && run_active r) (run_to RunFailed at_) in
  if changed =? 0 then tx_ret false
  else fail_open_steps rid "error:run_failed" at_ ;;* tx_ret true.

Definition fail_run (rid : string) (at_ : Z) : op bool := op_tx (fail_run_tx rid at_).

Definition fail_if_expired_tx (rid : string) (now_ms : Z) : tx Db bool :=
  let* d := tx_get in
  let* changed := update_runs (λ r, is_run rid r && run_active r
      && match budget_of rid d with Some b => eb_deadline_at_ms b <=? now_ms | None => false end)
    (run_to RunFailed (seconds now_ms)) in
  if changed =? 0 then tx_ret false
  else fail_open_steps rid "error:run_budget_expired" (seconds now_ms) ;;* tx_ret true.

Definition fail_run_if_budget_expired (rid : string) (now_ms : Z) : op bool :=
  do* _ := execution_budget_at rid now_ms in
  op_tx (fail_if_expired_tx rid now_ms).

(** ** Recovery *)

(** The decision on the step at the cursor. *)
Definition step_action (now : Z) (s : RunStepRecord) : NextSafeAction :=
  match st_status s with
  | StepPending => Claim s
  | StepRunning => if lease_ended now s then ReclaimExpired s else WaitForLease s
  | StepWaiting => if bool_decide (is_Some (st_approval_id s)) then WaitForApproval s else Wait s
  | StepCompleted => AdvanceCursor s
  | StepFailed => IsFailed
  end.

Definition action_of (now : Z) (r : RunRecord) (d : Db) : NextSafeAction :=
  match run_status r with
  | RunCompleted => IsCompleted
  | RunFailed => IsFailed
  | RunCancelled => IsCancelled
  | RunPending | RunRunning | RunWaiting =>
      match step_at (run_id r) (run_cursor r) d with
      | None => CompleteRun (run_cursor r)
      | Some s => step_action now s
      end
  end.

Definition next_safe_action (rid : string) (now : Z) : op NextSafeAction :=
  do* r := required_run rid in op_get (action_of now r).

(** [ORDER BY started_at, run_id] *)
Definition recovery_order (r1 r2 : RunRecord) : Prop :=
  run_started_at r1 < run_started_at r2 ∨
  (run_started_at r1 = run_started_at r2 ∧ String.leb (run_id r1) (run_id r2) = true).

#[global] Instance recovery_order_dec r1 r2 : Decision (recovery_order r1 r2).
Proof. unfold recovery_order. apply _. Defined.

(** [limit.clamp(lo, hi)] on a [usize]. *)
Definition clamp_nat (lo hi n : nat) : nat := Nat.max lo (Nat.min hi n).

Definition list_recoverable (d : Db) : list RunRecord :=
  merge_sort recovery_order (List.filter run_active (state_runs d)).

(** [runs.into_iter().map(|run| ..).collect::<Result<Vec<_>, _>>()] *)
Fixpoint with_actions (now : Z) (runs : list RunRecord) : op (list (RunRecord * NextSafeAction)) :=
  match runs with
  | [] => op_ret []
  | r :: runs =>
      do* action := next_safe_action (run_id r) now in
      do* rest := with_actions now runs in op_ret ((r, action) :: rest)
  end.

Definition recovery_candidates (now : Z) (limit : nat) : op (list (RunRecord * NextSafeAction)) :=
  do* runs := op_get (λ d, take (clamp_nat 1 500 limit) (list_recoverable d)) in
  with_actions now runs.

Record RunRecoveryTransition : Type := mkTransition {
  rt_run_id : string;
  rt_action : string;
  rt_from_cursor : Z;
  rt_to_cursor : Z;
  rt_resulting_status : RunStatus
}.

(** The inner [loop] on one candidate; [room] is how many transitions may
    still be recorded, and every further round records one. *)
Fixpoint recover_one (room : nat) (now : Z) (run : RunRecord) (action : NextSafeAction) :
    op (list RunRecoveryTransition) :=
  match room with
  | O => op_ret []
  | S room =>
      match action with
      | AdvanceCursor _ =>
          do* run' := advance_cursor (run_id run) (run_cursor run) now in
          do* action' := next_safe_action (run_id run') now in
          do* rest := recover_one room now run' action' in
          op_ret (mkTransition (run_id run') "advance_completed_checkpoint" (run_cursor run)
                    (run_cursor run') (run_status run') :: rest)
      | CompleteRun cursor =>
          do* run' := complete_run (run_id run) cursor now in
          op_ret [mkTransition (run_id run') "complete_empty_cursor" cursor cursor (run_status run')]
      | _ => op_ret []
      end
  end.

Fixpoint recover_all (room : nat) (now : Z) (candidates : list (RunRecord * NextSafeAction)) :
    op (list RunRecoveryTransition) :=
  match candidates with
  | [] => op_ret []
  | (run, action) :: rest =>
      do* done := recover_one room now run action in
      if Nat.leb room (length done) then op_ret done
      else do* more := recover_all (room - length done) now rest in op_ret (done ++ more)
  end.

Definition recover_completed_transitions (now : Z) (candidate_limit transition_limit : nat) :
    op (list RunRecoveryTransition) :=
  do* candidates := recovery_candidates now candidate_limit in
  recover_all (clamp_nat 1 2000 transition_limit) now candidates.
