(* ===== verification/RunInvariant.v ===== *)
(** * The invariant of the durable run store

    Every committed transaction of [RunStore] keeps the tables well formed;
    above all a step that is running or waiting is the step at the cursor of
    an active run.  The invariant is over transactions, so it holds whatever
    operations of different workers are interleaved. *)

From stdpp Require Import relations.
From S2P Require Import Prelude Wire Text RunSchema Schema Information InformationStore RunBase RunBudgets RunStore.

(** ** The recursive queries *)

(** The runs of [l] whose id is not among [seen]. *)
Definition unseen (l : list RunRecord) (seen : list string) : nat :=
  length (List.filter (λ r, negb (bool_decide (run_id r ∈ seen))) l).

Lemma unseen_le l seen new : (unseen l (seen ++ new) ≤ unseen l seen)%nat.
Proof.
  unfold unseen. induction l as [|y l IH]; cbn; [lia|].
  repeat case_bool_decide; cbn; try lia. set_solver.
Qed.

Lemma unseen_lt l seen new r :
  r ∈ l → run_id r ∉ seen → run_id r ∈ new → (unseen l (seen ++ new) < unseen l seen)%nat.
Proof.
  intros Hr Hn Hnew. induction Hr as [r l|x r l Hr IH]; unfold unseen in *; cbn.
  - rewrite (bool_decide_false (run_id r ∈ seen)) by done.
    rewrite bool_decide_true by set_solver. cbn. apply Nat.lt_succ_r, unseen_le.
  - specialize (IH Hn Hnew). repeat case_bool_decide; cbn; try lia. set_solver.
Qed.

Lemma unseen_pos l seen r : r ∈ l → run_id r ∉ seen → unseen l seen ≠ 0%nat.
Proof.
  intros Hr Hn. induction Hr as [r l|x r l Hr IH]; unfold unseen in *; cbn.
  - by rewrite bool_decide_false.
  - specialize (IH Hn). case_bool_decide; cbn; lia.
Qed.

Section Closure.
Context (l : list RunRecord).

Definition child (p c : string) : Prop := ∃ r, r ∈ l ∧ run_id r = c ∧ run_parent r = Some p.

Lemma elem_of_children seen c :
  c ∈ children_of seen l ↔ (∃ p, p ∈ seen ∧ child p c) ∧ c ∉ seen.
Proof.
  unfold children_of, child. rewrite list_elem_of_fmap. setoid_rewrite list_elem_of_In.
  setoid_rewrite filter_In. setoid_rewrite <-list_elem_of_In. split.
  - intros (r & -> & Hr & [Hp Hn]%andb_true_iff). rewrite negb_true_iff, bool_decide_eq_false in Hn.
    destruct (run_parent r) as [p|] eqn:Hpar; [|done]. apply bool_decide_eq_true in Hp.
    split; [|done]. exists p. split; [done|]. by exists r.
  - intros [(p & Hp & r & Hr & <- & Hpar) Hn]. exists r. split_and!; [done..|]. rewrite Hpar.
    by rewrite bool_decide_true, bool_decide_false.
Qed.

Lemma unseen_children seen c new :
  children_of seen l = c :: new → (unseen l (seen ++ c :: new) < unseen l seen)%nat.
Proof.
  intros Hc. assert (c ∈ children_of seen l) as [(p & _ & r & Hr & <- & _) Hn]%elem_of_children
    by (rewrite Hc; left).
  eapply unseen_lt; [done|done|left].
Qed.

Lemma closure_extends n seen x : x ∈ seen → x ∈ closure n l seen.
Proof.
  revert seen. induction n as [|n IH]; intros seen Hx; cbn; [done|].
  destruct (children_of seen l); [done|]. apply IH. set_solver.
Qed.

Lemma closure_sound n seen x : x ∈ closure n l seen → ∃ y, y ∈ seen ∧ rtc child y x.
Proof.
  revert seen. induction n as [|n IH]; intros seen; cbn; [intros Hx; by exists x|].
  destruct (children_of seen l) as [|c new] eqn:Hc; [intros Hx; by exists x|].
  intros (y & Hy & Hr)%IH. apply elem_of_app in Hy as [Hy|Hy]; [by exists y|].
  rewrite <-Hc in Hy. apply elem_of_children in Hy as [(p & Hp & Hpc) _].
  exists p. split; [done|]. by eapply rtc_l.
Qed.

Lemma closure_closed n seen p c :
  (unseen l seen ≤ n)%nat → p ∈ closure n l seen → child p c → c ∈ closure n l seen.
Proof.
  revert seen. induction n as [|n IH]; intros seen Hn Hp Hc; cbn in *.
  - destruct Hc as (r & Hr & <- & Hpar). destruct (decide (run_id r ∈ seen)) as [|Hns]; [done|].
    apply (unseen_pos l seen r) in Hns; [lia|done].
  - destruct (children_of seen l) as [|c' new] eqn:Hch.
    + destruct (decide (c ∈ seen)) as [|Hns]; [done|].
      assert (c ∈ children_of seen l) as Hin by (apply elem_of_children; eauto).
      rewrite Hch in Hin. by apply elem_of_nil in Hin.
    + apply IH; [|done..]. apply unseen_children in Hch. lia.
Qed.

(** [closure] with one round per run is the set of reachable runs. *)
Lemma closure_spec seen x : x ∈ closure (length l) l seen ↔ ∃ y, y ∈ seen ∧ rtc child y x.
Proof.
  split; [apply closure_sound|]. intros (y & Hy & Hr).
  assert (y ∈ closure (length l) l seen) as Hy' by (by apply closure_extends).
  clear Hy. induction Hr as [y|y z x Hyz _ IH]; [done|]. apply IH.
  eapply closure_closed; [apply length_filter_le|done|done].
Qed.

Lemma elem_of_cancelled rid x : x ∈ cancelled_runs rid l ↔ rtc child rid x.
Proof. unfold cancelled_runs. rewrite closure_spec. set_solver. Qed.

Lemma elem_of_descendants rid x : x ∈ descendants rid l ↔ tc child rid x.
Proof.
  unfold descendants. rewrite closure_spec.
  assert (∀ y, y ∈ map run_id (List.filter (λ r, bool_decide (run_parent r = Some rid)) l) ↔ child rid y) as Hy.
  { intros y. unfold child. rewrite list_elem_of_fmap. setoid_rewrite list_elem_of_In.
    setoid_rewrite filter_In. setoid_rewrite <-list_elem_of_In. setoid_rewrite bool_decide_eq_true.
    naive_solver. }
  setoid_rewrite Hy. split.
  - intros (y & Hry & Hyx). eapply tc_rtc_r; [by apply tc_once|done].
  - intros Hc. destruct Hc as [rid x Hx|rid y x Hy' Hr%tc_rtc]; [by exists x|by exists y].
Qed.
End Closure.

(** ** The invariant *)

Definition step_run_ok (s : RunStepRecord) (r : RunRecord) : Prop :=
  match st_status s with
  | StepRunning | StepWaiting => run_active r = true ∧ st_ordinal s = run_cursor r
  | StepFailed => run_active r = false
  | StepPending | StepCompleted => True
  end.

Record run_wf (d : Db) : Prop := {
  wf_runs : NoDup (map run_id (state_runs d));
  wf_run_checks : Forall (λ r, run_check r = true) (state_runs d);
  wf_steps : steps_ok (steps_of d);
  wf_step_run : ∀ s, s ∈ steps_of d →
    ∃ r, r ∈ state_runs d ∧ run_id r = st_run_id s ∧ step_run_ok s r
}.

(** The transactions of the store; every other statement of the program
    leaves both tables alone. *)
Inductive run_tx : ∀ {A}, tx Db A → Prop :=
| rt_create id n : run_tx (create_run_tx id n)
| rt_add rid n : run_tx (add_step_tx rid n)
| rt_claim rid sid owner now expires : run_tx (claim_step_tx rid sid owner now expires)
| rt_finish rid sid owner st output at_ :
    st = StepCompleted ∨ st = StepFailed → run_tx (finish_step_tx rid sid owner st output at_)
| rt_wait rid sid owner approval at_ : run_tx (wait_step_tx rid sid owner approval at_)
| rt_resume rid sid approval at_ : run_tx (resume_step_tx rid sid approval at_)
| rt_advance rid expected at_ : run_tx (advance_cursor_tx rid expected at_)
| rt_complete rid expected at_ : run_tx (complete_run_tx rid expected at_)
| rt_cancel rid at_ : run_tx (cancel_run_tx rid at_)
| rt_fail rid at_ : run_tx (fail_run_tx rid at_)
| rt_fail_expired rid now_ms : run_tx (fail_if_expired_tx rid now_ms)
| rt_deadline rid secs : run_tx (set_deadline rid secs)
| rt_other {A} (m : tx Db A) :
    (∀ d a d', m d = Ok (a, d') → state_runs d' = state_runs d ∧ steps_of d' = steps_of d) → run_tx m.

Inductive run_step (d d' : Db) : Prop :=
| committed {A} (m : tx Db A) a : run_tx m → m d = Ok (a, d') → run_step d d'.

(** ** Preservation *)

Lemma step_pk_run s : st_run_id s = (step_pk s).1.
Proof. done. Qed.

Lemma find_run_wf id d r :
  run_wf d → find_run id d = Some r ↔ r ∈ state_runs d ∧ run_id r = id.
Proof.
  intros Hwf. split; [apply find_run_Some|]. intros [Hr Hid].
  eapply (find_key run_id); [apply is_run_true|apply wf_runs, Hwf|done|done].
Qed.

Lemma find_step_wf rid sid d s :
  run_wf d → find_step rid sid d = Some s ↔ s ∈ steps_of d ∧ step_pk s = (rid, sid).
Proof.
  intros Hwf. split; [apply find_step_Some|]. intros [Hs Hpk].
  eapply (find_key step_pk); [apply is_step_true|apply Hwf|done|done].
Qed.

Lemma step_at_wf rid n d s :
  run_wf d → step_at rid n d = Some s ↔ s ∈ steps_of d ∧ step_slot s = (rid, n).
Proof.
  intros Hwf. split; [apply step_at_Some|]. intros [Hs Hsl].
  eapply (find_key step_slot); [apply in_slot_true|apply Hwf|done|done].
Qed.

(** Two rows with the same key are the same row. *)
Lemma same_run d r1 r2 :
  run_wf d → r1 ∈ state_runs d → r2 ∈ state_runs d → run_id r1 = run_id r2 → r1 = r2.
Proof. intros Hwf. apply NoDup_key_inj, Hwf. Qed.

Lemma same_slot d s1 s2 :
  run_wf d → s1 ∈ steps_of d → s2 ∈ steps_of d → step_slot s1 = step_slot s2 → s1 = s2.
Proof. intros Hwf. apply NoDup_key_inj, Hwf. Qed.

Lemma same_pk d s1 s2 :
  run_wf d → s1 ∈ steps_of d → s2 ∈ steps_of d → step_pk s1 = step_pk s2 → s1 = s2.
Proof. intros Hwf. apply NoDup_key_inj, Hwf. Qed.

(** The rows rewritten one by one. *)
Lemma wf_map d d' fr fs :
  run_wf d → state_runs d' = map fr (state_runs d) → steps_of d' = map fs (steps_of d) →
  (∀ r, run_id (fr r) = run_id r) → (∀ s, st_run_id (fs s) = st_run_id s) →
  Forall (λ r, run_check r = true) (state_runs d') → steps_ok (steps_of d') →
  (∀ s r, s ∈ steps_of d → r ∈ state_runs d → run_id r = st_run_id s → step_run_ok s r →
          step_run_ok (fs s) (fr r)) →
  run_wf d'.
Proof.
  intros Hwf Hr Hs Hid Hsid Hc Hok Hall. split; [|done|done|].
  - rewrite Hr, map_map. erewrite map_ext by apply Hid. apply Hwf.
  - intros s' Hs'. rewrite Hs in Hs'. apply list_elem_of_fmap in Hs' as (s & -> & Hin).
    destruct (wf_step_run d Hwf s Hin) as (r & Hrin & Hrid & Hok').
    exists (fr r). rewrite Hr, Hid, Hsid. split_and!; [by apply list_elem_of_fmap_2|done|by apply Hall].
Qed.

Lemma wf_same d d' :
  state_runs d' = state_runs d → steps_of d' = steps_of d → run_wf d → run_wf d'.
Proof.
  intros Hr Hs Hwf. split; rewrite ?Hr, ?Hs; try apply Hwf.
Qed.

(** Rows of runs rewritten without touching what the invariant reads. *)
Lemma wf_update_runs d d' p f n :
  run_wf d → update_runs p f d = Ok (n, d') → (∀ r, run_id (f r) = run_id r) →
  (∀ s r, s ∈ steps_of d → r ∈ state_runs d → run_id r = st_run_id s → p r = true →
          step_run_ok s r → step_run_ok s (f r)) →
  run_wf d'.
Proof.
  intros Hwf (_ & -> & Hc)%update_runs_ok Hid Hall.
  apply (wf_map d _ (λ r, if p r then f r else r) (λ s, s)); [done|done|by rewrite map_id| |done|done|apply Hwf|].
  - intros r. by destruct (p r).
  - intros s r Hs Hr Hrs Hok. destruct (p r) eqn:Hp; [by apply Hall|done].
Qed.

(** One step's row and its run's row change together. *)
Lemma wf_step_and_run d d1 d' p f pr fr n m :
  run_wf d → update_steps p f d = Ok (n, d1) → update_runs pr fr d1 = Ok (m, d') →
  (∀ s, st_run_id (f s) = st_run_id s) → (∀ r, run_id (fr r) = run_id r) →
  (∀ s r, s ∈ steps_of d → r ∈ state_runs d → run_id r = st_run_id s → step_run_ok s r →
     step_run_ok (if p s then f s else s) (if pr r then fr r else r)) →
  run_wf d'.
Proof.
  intros Hwf (_ & -> & Hok)%update_steps_ok (_ & -> & Hc)%update_runs_ok Hf Hfr Hall.
  apply (wf_map d _ (λ r, if pr r then fr r else r) (λ s, if p s then f s else s)); try done.
  - intros r. by destruct (pr r).
  - intros s. by destruct (p s).
Qed.

Lemma wf_steps_only d d' p f n :
  run_wf d → update_steps p f d = Ok (n, d') → (∀ s, p s = false ∨ f s = s) ∨ n = 0 → run_wf d'.
Proof.
  intros Hwf (Hn & -> & Hok)%update_steps_ok Hc. apply (wf_same d); [done| |done]. cbn.
  apply map_id_elem. intros s Hs. destruct (p s) eqn:Hp; [|done].
  destruct Hc as [Hc|Hc]; [destruct (Hc s); congruence|].
  exfalso. apply (proj2 (count_where_pos p (steps_of d))); [by exists s|lia].
Qed.

(** ** One step and its run *)

(** The shape of claim, finish, wait and resume. *)
Definition step_then_run (rid : string) (p : RunStepRecord → bool) (f : RunStepRecord → RunStepRecord)
    (fr : RunRecord → RunRecord) : tx Db bool :=
  let* changed := update_steps p f in
  if changed =? 1 then update_runs (is_run rid) fr ;;* tx_ret true else tx_ret false.

(** What it did: nothing, or the one step with the key and its run. *)
Lemma step_then_run_cases rid sid p f fr d b d' :
  run_wf d → step_then_run rid p f fr d = Ok (b, d') → (∀ s, p s = true → is_step rid sid s = true) →
  (b = false ∧ state_runs d' = state_runs d ∧ steps_of d' = steps_of d ∧ ∀ s, s ∈ steps_of d → p s = false) ∨
  (b = true ∧ ∃ s0, s0 ∈ steps_of d ∧ p s0 = true ∧ step_pk s0 = (rid, sid) ∧
     steps_of d' = map (λ s, if p s then f s else s) (steps_of d) ∧
     state_runs d' = map (λ r, if is_run rid r then fr r else r) (state_runs d) ∧
     steps_ok (steps_of d') ∧ Forall (λ r, run_check r = true) (state_runs d')).
Proof.
  intros Hwf Htx Hp. unfold step_then_run in Htx. apply tx_bind_ok in Htx as (n & d1 & Hu & Htx).
  apply update_steps_ok in Hu as (Hn & -> & Hok).
  assert (0 ≤ n ≤ 1) as Hn1.
  { rewrite Hn. apply (count_where_unique step_pk (rid, sid)); [apply Hwf|].
    intros s Hs. apply is_step_true. by apply Hp. }
  destruct (Z.eqb_spec n 1) as [H1|H1].
  - right. apply tx_bind_ok in Htx as (m & d2 & Hr & Htx). unfold tx_ret in Htx. simplify_eq.
    apply update_runs_ok in Hr as (_ & -> & Hc). split; [done|].
    destruct (proj1 (count_where_pos p (steps_of d))) as (s0 & Hs0 & Hp0); [lia|].
    exists s0. split_and!; try done. by apply is_step_true, Hp.
  - left. unfold tx_ret in Htx. simplify_eq.
    assert (∀ s, s ∈ steps_of d → p s = false) as Hnone.
    { intros s Hs. apply not_true_iff_false. intros Hps.
      apply (proj2 (count_where_pos p (steps_of d))); [by exists s|lia]. }
    split_and!; [done|done| |done]. cbn. apply map_id_elem. intros s Hs. by rewrite Hnone.
Qed.

Lemma wf_step_then_run rid sid p f fr d b d' :
  run_wf d → step_then_run rid p f fr d = Ok (b, d') → (∀ s, p s = true → is_step rid sid s = true) →
  (∀ s, st_run_id (f s) = st_run_id s) → (∀ r, run_id (fr r) = run_id r) →
  (∀ s r, s ∈ steps_of d → r ∈ state_runs d → p s = true → run_id r = st_run_id s → step_run_ok s r →
     step_run_ok (f s) (fr r) ∧
     ∀ s', s' ∈ steps_of d → s' ≠ s → st_run_id s' = run_id r → step_run_ok s' r → step_run_ok s' (fr r)) →
  run_wf d'.
Proof.
  intros Hwf Htx Hp Hf Hfr Hall.
  destruct (step_then_run_cases rid sid _ _ _ _ _ _ Hwf Htx Hp) as
    [(_ & Hr & Hs & _)|(_ & s0 & Hs0 & Hp0 & Hpk & Hs & Hr & Hok & Hc)]; [by eapply wf_same|].
  assert (∀ s, p s = true → st_run_id s = rid) as Hrid.
  { intros s Hps. apply Hp, is_step_true in Hps. by rewrite step_pk_run, Hps. }
  apply (wf_map d d' (λ r, if is_run rid r then fr r else r) (λ s, if p s then f s else s));
    [done|exact Hr|exact Hs| | |done|done|].
  - intros r. destruct (is_run rid r); [apply Hfr|done].
  - intros s. destruct (p s); [apply Hf|done].
  - intros s r Hs' Hr' Hrs Hok'. destruct (is_run rid r) eqn:Hir.
    + apply is_run_true in Hir. destruct (p s) eqn:Hps; [by apply Hall|].
      destruct (wf_step_run d Hwf s0 Hs0) as (r0 & Hr0 & Hr0id & Hok0).
      assert (r0 = r) as ->. { eapply same_run; [done..|]. rewrite Hr0id, (Hrid s0) by done. done. }
      apply (Hall s0 r); [done..|intros ->; congruence|done|done].
    + destruct (p s) eqn:Hps; [|done]. apply Hrid in Hps.
      assert (is_run rid r = true) by (apply is_run_true; congruence). congruence.
Qed.

(** Keeping the run active at its cursor keeps every step's side condition. *)
Lemma step_run_ok_active s r r' :
  run_active r = true → run_active r' = true → run_cursor r' = run_cursor r →
  step_run_ok s r → step_run_ok s r'.
Proof. unfold step_run_ok. destruct (st_status s); intros Ha Ha' Hc; rewrite ?Ha, ?Ha', ?Hc; tauto. Qed.

Lemma step_ok_running s r : st_status s = StepRunning → step_run_ok s r → run_active r = true ∧ st_ordinal s = run_cursor r.
Proof. unfold step_run_ok. by intros ->. Qed.
Lemma step_ok_waiting s r : st_status s = StepWaiting → step_run_ok s r → run_active r = true ∧ st_ordinal s = run_cursor r.
Proof. unfold step_run_ok. by intros ->. Qed.

(** No other step of the run is running or waiting when one at the cursor is. *)
Lemma alone_at_cursor d s s' r :
  run_wf d → s ∈ steps_of d → s' ∈ steps_of d → s' ≠ s → run_id r = st_run_id s → st_run_id s' = run_id r →
  st_ordinal s = run_cursor r → step_run_ok s' r → st_status s' ≠ StepRunning ∧ st_status s' ≠ StepWaiting.
Proof.
  intros Hwf Hs Hs' Hne Hr Hr' Ho Hok.
  assert (st_ordinal s' ≠ run_cursor r) as Hord.
  { intros Heq. apply Hne. eapply same_slot; [done..|]. unfold step_slot. congruence. }
  split; intros Hst; unfold step_run_ok in Hok; rewrite Hst in Hok; naive_solver.
Qed.

Lemma claimable_spec rid sid now d s :
  claimable rid sid now d s = true ↔
  is_step rid sid s = true ∧
  (st_status s = StepPending ∨ (st_status s = StepRunning ∧ lease_ended now s = true)) ∧
  ∃ r, find_run rid d = Some r ∧ run_active r = true ∧ st_ordinal s = run_cursor r.
Proof.
  unfold claimable. rewrite !andb_true_iff, orb_true_iff, andb_true_iff, !bool_decide_eq_true.
  destruct (find_run rid d) as [r|].
  - rewrite andb_true_iff, Z.eqb_eq. naive_solver.
  - naive_solver.
Qed.

Lemma leased_by_true owner s : leased_by owner s = true ↔ st_status s = StepRunning ∧ st_lease_owner s = Some owner.
Proof. unfold leased_by. by rewrite andb_true_iff, !bool_decide_eq_true. Qed.

Lemma claim_wf rid sid owner now expires d b d' :
  run_wf d → claim_step_tx rid sid owner now expires d = Ok (b, d') → run_wf d'.
Proof.
  intros Hwf Htx. unfold claim_step_tx in Htx. rewrite tx_get_bind in Htx.
  eapply (wf_step_then_run rid sid); [done|exact Htx|by intros s (? & _)%claimable_spec|done|done|].
  intros s r Hs Hr (Hst & _ & r' & Hr' & Ha & Ho)%claimable_spec Hrs Hok.
  assert (r' = r) as ->.
  { apply (find_run_wf _ _ _ Hwf) in Hr' as [Hr' Hid]. eapply same_run; [done..|].
    apply is_step_true in Hst. rewrite Hid, Hrs, step_pk_run, Hst. done. }
  split; [done|]. intros s' _ _ _. by apply step_run_ok_active.
Qed.

Lemma finish_wf rid sid owner st output at_ d b d' :
  st = StepCompleted ∨ st = StepFailed →
  run_wf d → finish_step_tx rid sid owner st output at_ d = Ok (b, d') → run_wf d'.
Proof.
  intros Hst Hwf Htx. eapply (wf_step_then_run rid sid); [done|exact Htx|by intros s [? _]%andb_true_iff|done|done|].
  intros s r Hs Hr [_ [Hrun _]%leased_by_true]%andb_true_iff Hrs Hok.
  apply (step_ok_running _ _ Hrun) in Hok as [Ha Ho]. destruct Hst as [-> | ->]; cbn.
  - split; [done|]. intros s' _ _ _. by apply step_run_ok_active.
  - split; [done|]. intros s' Hs' Hne Hid Hok'.
    destruct (alone_at_cursor d s s' r) as [Hn1 Hn2]; [done..|].
    unfold step_run_ok in *. by destruct (st_status s').
Qed.

Lemma wait_wf rid sid owner approval at_ d b d' :
  run_wf d → wait_step_tx rid sid owner approval at_ d = Ok (b, d') → run_wf d'.
Proof.
  intros Hwf Htx. eapply (wf_step_then_run rid sid); [done|exact Htx|by intros s [? _]%andb_true_iff|done|done|].
  intros s r Hs Hr [_ [Hrun _]%leased_by_true]%andb_true_iff Hrs Hok.
  apply (step_ok_running _ _ Hrun) in Hok as [Ha Ho].
  split; [done|]. intros s' _ _ _. by apply step_run_ok_active.
Qed.

Lemma resume_wf rid sid approval at_ d b d' :
  run_wf d → resume_step_tx rid sid approval at_ d = Ok (b, d') → run_wf d'.
Proof.
  intros Hwf Htx. eapply (wf_step_then_run rid sid); [done|exact Htx|by intros s [? _]%andb_true_iff|done|done|].
  intros s r Hs Hr [_ [Hw _]%andb_true_iff]%andb_true_iff Hrs Hok.
  apply bool_decide_eq_true in Hw. apply (step_ok_waiting _ _ Hw) in Hok as [Ha Ho].
  split; [done|]. intros s' _ _ _. by apply step_run_ok_active.
Qed.

(** ** Creation, the cursor and completion *)

Lemma wf_insert_run r d u d' :
  run_wf d → insert_or_ignore_run r d = Ok (u, d') → run_wf d'.
Proof.
  intros Hwf. unfold insert_or_ignore_run. destruct (existsb _ _ || _) eqn:Hi; [by intros [= _ <-]|].
  destruct (_ && _); [|done]. intros [= _ <-].
  apply orb_false_iff in Hi as [Hnew Hck]. apply negb_false_iff in Hck. rewrite existsb_False in Hnew.
  split; cbn.
  - rewrite map_app, NoDup_app. split_and!; [apply Hwf| |apply NoDup_singleton].
    intros x Hx Hx'. apply list_elem_of_singleton in Hx' as ->. apply list_elem_of_fmap in Hx as (r' & Hid & Hr').
    specialize (Hnew _ Hr'). symmetry in Hid. apply is_run_true in Hid. congruence.
  - apply Forall_app. split; [apply Hwf|by constructor].
  - apply Hwf.
  - intros s Hs. destruct (wf_step_run d Hwf s Hs) as (r' & Hr' & ?). exists r'. set_solver.
Qed.

Lemma create_wf id n d u d' : run_wf d → create_run_tx id n d = Ok (u, d') → run_wf d'.
Proof.
  intros Hwf. unfold create_run_tx. rewrite tx_get_bind. destruct (nr_parent_run_id n) as [p|].
  - destruct (find_run p d); [|done]. destruct (negb _); [done|]. by apply wf_insert_run.
  - by apply wf_insert_run.
Qed.

Lemma insert_step_cases s d u d' :
  insert_or_ignore_step s d = Ok (u, d') →
  d' = d ∨ (steps_ok (steps_of d ++ [s]) ∧ is_Some (find_run (st_run_id s) d) ∧
            d' = set_run_tables (set_run_steps (λ _, steps_of d ++ [s])) d).
Proof.
  unfold insert_or_ignore_step. case_decide; [|intros [= _ <-]; by left].
  destruct (find_run _ d) eqn:Hf; [|done]. intros [= _ <-]. right. by split_and!.
Qed.

Lemma add_wf rid n d a d' : run_wf d → add_step_tx rid n d = Ok (a, d') → run_wf d'.
Proof.
  intros Hwf. unfold add_step_tx. rewrite tx_get_bind. destruct (find_run rid d) as [r|] eqn:Hr; [|done].
  destruct (negb (run_active r)); [done|]. intros Htx. apply tx_bind_ok in Htx as (u & d1 & Hi & Htx).
  rewrite tx_get_bind in Htx. unfold tx_ret in Htx. simplify_eq.
  apply insert_step_cases in Hi as [->|(Hok & _ & ->)]; [done|].
  split; [apply Hwf|apply Hwf|done|]. intros s. cbn. intros [Hs|Hs]%elem_of_app.
  - apply Hwf in Hs as (r' & Hr' & Hs). by exists r'.
  - apply list_elem_of_singleton in Hs as ->. apply find_run_Some in Hr as [Hr Hid]. by exists r.
Qed.

Lemma advance_wf rid expected at_ d b d' :
  run_wf d → advance_cursor_tx rid expected at_ d = Ok (b, d') → run_wf d'.
Proof.
  intros Hwf. unfold advance_cursor_tx. rewrite tx_get_bind.
  destruct (step_at rid expected d) as [s0|] eqn:Hs0; [|by intros [= _ <-]].
  case_bool_decide as Hc; [|by intros [= _ <-]]. intros Htx.
  apply tx_bind_ok in Htx as (n & d1 & Hu & Htx). unfold tx_ret in Htx. simplify_eq.
  eapply wf_update_runs; [done|exact Hu|done|].
  intros s r Hs Hr Hrs [[Hid%is_run_true Hcur%Z.eqb_eq]%andb_true_iff Ha]%andb_true_iff Hok.
  apply (step_at_wf _ _ _ _ Hwf) in Hs0 as [Hs0 Hslot].
  unfold step_run_ok in *. destruct (st_status s) eqn:Hst; try done; cbn.
  - destruct Hok as [_ Ho]. assert (s = s0) as ->; [|congruence].
    eapply same_slot; [done..|]. rewrite Hslot. unfold step_slot. congruence.
  - destruct Hok as [_ Ho]. assert (s = s0) as ->; [|congruence].
    eapply same_slot; [done..|]. rewrite Hslot. unfold step_slot. congruence.
  - congruence.
Qed.

Lemma complete_wf rid expected at_ d b d' :
  run_wf d → complete_run_tx rid expected at_ d = Ok (b, d') → run_wf d'.
Proof.
  intros Hwf. unfold complete_run_tx. rewrite tx_get_bind. intros Htx.
  apply tx_bind_ok in Htx as (n & d1 & Hu & Htx). unfold tx_ret in Htx. simplify_eq.
  eapply wf_update_runs; [done|exact Hu|done|]. intros s r Hs Hr Hrs.
  intros [[[Hid%is_run_true Hcur%Z.eqb_eq]%andb_true_iff Ha]%andb_true_iff Hno]%andb_true_iff Hok.
  apply negb_true_iff in Hno. rewrite existsb_False in Hno. specialize (Hno _ Hs).
  assert (st_ordinal s ≠ run_cursor r) as Hord.
  { intros Heq. assert (in_slot rid expected s = true); [|congruence].
    apply in_slot_true. unfold step_slot. congruence. }
  unfold step_run_ok in *. destruct (st_status s); cbn; naive_solver.
Qed.

Lemma deadline_wf rid secs d n d' : run_wf d → set_deadline rid secs d = Ok (n, d') → run_wf d'.
Proof.
  intros Hwf Hu. eapply wf_update_runs; [done|exact Hu|done|]. intros s r _ _ _ _. done.
Qed.

(** ** Failing and cancelling *)

(** Runs made inactive together with the closing of their open steps. *)
Lemma wf_shut d d1 d' (gone : string → Prop) p f pr fr n m :
  run_wf d → update_runs pr fr d = Ok (n, d1) → update_steps p f d1 = Ok (m, d') →
  (∀ r, run_id (fr r) = run_id r) → (∀ s, st_run_id (f s) = st_run_id s) →
  (∀ r, run_active (fr r) = false) → (∀ s, st_status (f s) = StepFailed) →
  (∀ r, r ∈ state_runs d → pr r = true → gone (run_id r)) →
  (∀ s, s ∈ steps_of d → gone (st_run_id s) → step_open s = true → p s = true) →
  (∀ s r, s ∈ steps_of d → r ∈ state_runs d → run_id r = st_run_id s → p s = true →
     pr r = true ∨ run_active r = false) →
  run_wf d'.
Proof.
  intros Hwf (_ & -> & Hc)%update_runs_ok (_ & -> & Hok)%update_steps_ok Hfr Hf Ha Hst Hgone Hopen Hp.
  apply (wf_map d _ (λ r, if pr r then fr r else r) (λ s, if p s then f s else s)); try done.
  - intros r. destruct (pr r); [apply Hfr|done].
  - intros s. destruct (p s); [apply Hf|done].
  - intros s r Hs Hr Hrs Hok'. destruct (p s) eqn:Hps.
    + unfold step_run_ok. rewrite Hst. destruct (Hp s r) as [-> | Hin]; [done..|apply Ha|].
      by destruct (pr r).
    + destruct (pr r) eqn:Hpr; [|done]. unfold step_run_ok in *.
      assert (step_open s = false) as Ho.
      { apply not_true_iff_false. intros Ho. assert (p s = true); [|congruence].
        apply Hopen; [done| |done]. rewrite <-Hrs. by apply Hgone. }
      unfold step_open in Ho. destruct (st_status s); try done.
Qed.

Lemma fail_tx_wf rid reason at_ at' pr d b d' :
  run_wf d → (∀ r, pr r = true → is_run rid r = true) →
  (let* changed := update_runs pr (run_to RunFailed at_) in
   if changed =? 0 then tx_ret false else (fail_open_steps rid reason at' ;;* tx_ret true)) d = Ok (b, d') →
  run_wf d'.
Proof.
  intros Hwf Hpr Htx. apply tx_bind_ok in Htx as (n & d1 & Hu & Htx). destruct (Z.eqb_spec n 0) as [Hn|Hn].
  - unfold tx_ret in Htx. simplify_eq. eapply wf_update_runs; [done|exact Hu|done|].
    intros s r _ Hr _ Hp. apply update_runs_ok in Hu as (Hn & _).
    exfalso. apply (proj2 (count_where_pos pr (state_runs d))); [by exists r|lia].
  - apply tx_bind_ok in Htx as (m & d2 & Hs & Htx). unfold tx_ret in Htx. simplify_eq.
    pose proof Hu as (Hcount & _)%update_runs_ok.
    destruct (proj1 (count_where_pos pr (state_runs d))) as (r0 & Hr0 & Hp0); [lia|].
    pose proof (Hpr _ Hp0) as Hid0%is_run_true.
    eapply (wf_shut d d1 d' (λ x, x = rid)); [done|exact Hu|exact Hs|done|done|done|done| | |].
    + intros r _ Hp. by apply is_run_true, Hpr.
    + intros s _ Hx Ho. cbv beta. apply andb_true_iff. split; [by apply String.eqb_eq|done].
    + intros s r _ Hr Hrs [Hrid%String.eqb_eq _]%andb_true_iff. left.
      assert (r = r0) as ->; [|done]. eapply same_run; [done..|]. congruence.
Qed.

Lemma fail_wf rid at_ d b d' : run_wf d → fail_run_tx rid at_ d = Ok (b, d') → run_wf d'.
Proof.
  intros Hwf Htx. eapply (fail_tx_wf rid _ _ _ (λ r, is_run rid r && run_active r)); [done| |exact Htx].
  by intros r [? _]%andb_true_iff.
Qed.

Lemma fail_expired_wf rid now_ms d b d' : run_wf d → fail_if_expired_tx rid now_ms d = Ok (b, d') → run_wf d'.
Proof.
  intros Hwf Htx. unfold fail_if_expired_tx in Htx. rewrite tx_get_bind in Htx.
  eapply (fail_tx_wf rid _ _ _ (λ r, is_run rid r && run_active r &&
    match budget_of rid d with Some b => eb_deadline_at_ms b <=? now_ms | None => false end));
    [done| |exact Htx].
  by intros r [[? _]%andb_true_iff _]%andb_true_iff.
Qed.

Lemma child_map (f : RunRecord → RunRecord) l p c :
  (∀ r, run_id (f r) = run_id r) → (∀ r, run_parent (f r) = run_parent r) →
  child (map f l) p c ↔ child l p c.
Proof.
  intros Hid Hpar. unfold child. setoid_rewrite list_elem_of_fmap. split.
  - intros (r & (r' & -> & Hr') & <- & Hp). exists r'. by rewrite Hid, <-Hpar.
  - intros (r & Hr & <- & Hp). exists (f r). rewrite Hid, Hpar. split_and!; [by exists r|done..].
Qed.

Lemma rtc_child_map (f : RunRecord → RunRecord) l p c :
  (∀ r, run_id (f r) = run_id r) → (∀ r, run_parent (f r) = run_parent r) →
  rtc (child (map f l)) p c ↔ rtc (child l) p c.
Proof.
  intros Hid Hpar. split; intros Hr; induction Hr as [|x y z Hxy _ IH]; [done| |done|].
  - eapply rtc_l; [by apply (child_map f)|done].
  - eapply rtc_l; [by apply (child_map f)|done].
Qed.

Lemma tc_child_map (f : RunRecord → RunRecord) l p c :
  (∀ r, run_id (f r) = run_id r) → (∀ r, run_parent (f r) = run_parent r) →
  tc (child (map f l)) p c ↔ tc (child l) p c.
Proof.
  intros Hid Hpar. split; intros Hr; induction Hr as [x y Hxy|x y z Hxy _ IH].
  - by apply tc_once, (child_map f).
  - eapply tc_l; [by apply (child_map f)|done].
  - by apply tc_once, (child_map f).
  - eapply tc_l; [by apply (child_map f)|done].
Qed.

(** What a cancellation does to a run and to a step. *)
Definition run_cancelled (rid : string) (at_ : Z) (l : list RunRecord) (r : RunRecord) : RunRecord :=
  if (bool_decide (run_id r ∈ cancelled_runs rid l)) && run_active r then run_to RunCancelled at_ r else r.

Definition step_cancelled (rid : string) (at_ : Z) (l : list RunRecord) (s : RunStepRecord) : RunStepRecord :=
  if (bool_decide (st_run_id s ∈ cancelled_runs rid l)) && step_open s
  then closed StepFailed (Some "error:cancelled") at_ s else s.

Lemma cancelled_runs_map f rid l x :
  (∀ r, run_id (f r) = run_id r) → (∀ r, run_parent (f r) = run_parent r) →
  x ∈ cancelled_runs rid (map f l) ↔ x ∈ cancelled_runs rid l.
Proof. intros Hid Hpar. rewrite !elem_of_cancelled. by apply rtc_child_map. Qed.

Lemma cancel_two_updates rid at_ l r :
  r ∈ l →
  let l1 := map (λ r, if is_run rid r && run_active r then run_to RunCancelled at_ r else r) l in
  let r1 := if is_run rid r && run_active r then run_to RunCancelled at_ r else r in
  (if bool_decide (run_id r1 ∈ descendants rid l1) && run_active r1 then run_to RunCancelled at_ r1 else r1) =
  run_cancelled rid at_ l r.
Proof.
  intros Hr l1 r1. unfold run_cancelled.
  assert (∀ x, x ∈ descendants rid l1 ↔ tc (child l) rid x) as Hd.
  { intros x. rewrite elem_of_descendants. subst l1.
    apply tc_child_map; intros r'; cbv beta; by destruct (is_run rid r' && run_active r'). }
  destruct (run_active r) eqn:Ha.
  - destruct (is_run rid r) eqn:Hi.
    + apply is_run_true in Hi. rewrite (bool_decide_true (run_id r ∈ cancelled_runs rid l)) by (by rewrite elem_of_cancelled, Hi).
      subst r1. cbn. by rewrite andb_false_r.
    + subst r1. cbn [andb]. rewrite Ha, !andb_true_r.
      rewrite (bool_decide_ext _ (run_id r ∈ cancelled_runs rid l)); [done|].
      rewrite Hd, elem_of_cancelled, rtc_tc. split; [by right|]. intros [Heq|?]; [|done].
      assert (is_run rid r = true) by (by apply is_run_true). congruence.
  - subst r1. by rewrite !andb_false_r, Ha, andb_false_r.
Qed.

(** The rows after a cancellation that found the run. *)
Lemma cancel_cases rid at_ d b d' :
  run_wf d → cancel_run_tx rid at_ d = Ok (b, d') →
  (state_runs d' = state_runs d ∧ steps_of d' = steps_of d) ∨
  (∃ prior, find_run rid d = Some prior ∧ (run_active prior = true ∨ run_status prior = RunCancelled) ∧
   state_runs d' = map (run_cancelled rid at_ (state_runs d)) (state_runs d) ∧
   steps_of d' = map (step_cancelled rid at_ (state_runs d)) (steps_of d) ∧
   steps_ok (steps_of d') ∧ Forall (λ r, run_check r = true) (state_runs d')).
Proof.
  intros Hwf. unfold cancel_run_tx. rewrite tx_get_bind.
  destruct (find_run rid d) as [prior|] eqn:Hprior; [|intros [= _ <-]; by left].
  intros Htx. apply tx_bind_ok in Htx as (n & d1 & Hu & Htx).
  pose proof Hu as (Hn & -> & _)%update_runs_ok.
  destruct ((n =? 0) && _) eqn:Hg.
  { unfold tx_ret in Htx. simplify_eq. left. split; [|done]. cbn. apply map_id_elem. intros r Hr.
    destruct (is_run rid r && run_active r) eqn:Hp; [|done].
    apply andb_true_iff in Hg as [Hn0%Z.eqb_eq _].
    exfalso. apply (proj2 (count_where_pos (λ r, is_run rid r && run_active r) (state_runs d))); [by exists r|done]. }
  right. rewrite tx_get_bind in Htx. apply tx_bind_ok in Htx as (n2 & d2 & Hu2 & Htx).
  apply update_runs_ok in Hu2 as (_ & -> & Hck). rewrite tx_get_bind in Htx.
  apply tx_bind_ok in Htx as (n3 & d3 & Hu3 & Htx). apply update_steps_ok in Hu3 as (_ & -> & Hok).
  unfold tx_ret in Htx. simplify_eq. cbn [state_runs set_runs] in *.
  assert (update_where (λ r, bool_decide (run_id r ∈ descendants rid
      (update_where (λ r, is_run rid r && run_active r) (run_to RunCancelled at_) (state_runs d))) && run_active r)
      (run_to RunCancelled at_) (update_where (λ r, is_run rid r && run_active r) (run_to RunCancelled at_) (state_runs d))
    = map (run_cancelled rid at_ (state_runs d)) (state_runs d)) as Hruns.
  { unfold update_where. rewrite map_map. apply map_ext_in. intros r Hr%list_elem_of_In.
    exact (cancel_two_updates rid at_ (state_runs d) r Hr). }
  exists prior. split; [done|]. split.
  { destruct (run_active prior) eqn:Hap; [by left|right]. apply andb_false_iff in Hg as [Hg|Hg].
    - apply Z.eqb_neq in Hg. exfalso.
      destruct (proj1 (count_where_pos (λ r, is_run rid r && run_active r) (state_runs d)) Hg) as (r & Hr & Hp).
      apply andb_true_iff in Hp as [Hid%is_run_true Ha]. apply (find_run_wf _ _ _ Hwf) in Hprior as [Hp1 Hp2].
      assert (r = prior) as ->; [|congruence]. eapply same_run; [done..|congruence].
    - by apply negb_false_iff, bool_decide_eq_true in Hg. }
  split_and!; [exact Hruns| |done|done]. cbn. unfold update_where at 1. apply map_ext. intros s.
  unfold step_cancelled. rewrite Hruns. rewrite (bool_decide_ext _ (st_run_id s ∈ cancelled_runs rid (state_runs d))); [done|].
  apply cancelled_runs_map; intros r; unfold run_cancelled;
    by destruct (bool_decide (run_id r ∈ cancelled_runs rid (state_runs d)) && run_active r).
Qed.

Lemma cancel_wf rid at_ d b d' : run_wf d → cancel_run_tx rid at_ d = Ok (b, d') → run_wf d'.
Proof.
  intros Hwf Htx. destruct (cancel_cases _ _ _ _ _ Hwf Htx) as [[Hr Hs]|(prior & Hp & _ & Hr & Hs & Hok & Hc)];
    [by eapply wf_same|].
  apply (wf_map d d' (run_cancelled rid at_ (state_runs d)) (step_cancelled rid at_ (state_runs d)));
    [done|exact Hr|exact Hs| | |done|done|].
  - intros r. unfold run_cancelled. by case_match.
  - intros s. unfold step_cancelled. by case_match.
  - intros s r Hs' Hr' Hid Hok'. unfold run_cancelled, step_cancelled. rewrite Hid.
    destruct (bool_decide (st_run_id s ∈ cancelled_runs rid (state_runs d))); cbn [andb]; [|done].
    unfold step_run_ok in *. unfold step_open.
    destruct (st_status s) eqn:Hst, (run_active r) eqn:Ha; cbn; rewrite ?Hst; naive_solver.
Qed.

(** Every transaction keeps the invariant. *)
Lemma run_tx_wf {A} (m : tx Db A) d a d' : run_tx m → run_wf d → m d = Ok (a, d') → run_wf d'.
Proof.
  intros Hm Hwf Hd. destruct Hm.
  - by eapply create_wf.
  - by eapply add_wf.
  - by eapply claim_wf.
  - by eapply finish_wf.
  - by eapply wait_wf.
  - by eapply resume_wf.
  - by eapply advance_wf.
  - by eapply complete_wf.
  - by eapply cancel_wf.
  - by eapply fail_wf.
  - by eapply fail_expired_wf.
  - by eapply deadline_wf.
  - apply H in Hd as [Hr Hs]. by eapply wf_same.
Qed.

Lemma run_step_wf d d' : run_wf d → run_step d d' → run_wf d'.
Proof. intros Hwf [A m a Hm Hd]. by eapply run_tx_wf. Qed.

Lemma run_steps_wf d d' : run_wf d → rtc run_step d d' → run_wf d'.
Proof. intros Hwf. induction 1 as [|d d1 d2 H _ IH]; [done|]. apply IH. by eapply run_step_wf. Qed.

Lemma empty_wf d : state_runs d = [] → steps_of d = [] → run_wf d.
Proof.
  intros Hr Hs. split; rewrite ?Hr, ?Hs; [by constructor..| |by intros s ?%elem_of_nil].
  split; [by constructor|]. split_and!; by constructor.
Qed.

(** ** The operations are sequences of these transactions *)

Definition op_steps {A} (m : op A) : Prop := ∀ d r d', m d = (r, d') → rtc run_step d d'.

Lemma op_steps_ret {A} (a : A) : op_steps (op_ret a).
Proof. by intros d r d' [= _ <-]. Qed.
Lemma op_steps_err {A} e : op_steps (op_err e : op A).
Proof. by intros d r d' [= _ <-]. Qed.
Lemma op_steps_get {A} (f : Db → A) : op_steps (op_get f).
Proof. by intros d r d' [= _ <-]. Qed.
Lemma op_steps_bind {A B} (m : op A) (f : A → op B) :
  op_steps m → (∀ a, op_steps (f a)) → op_steps (op_bind m f).
Proof.
  intros Hm Hf d r d'. unfold op_bind. destruct (m d) as [[a|e] d1] eqn:Hd.
  - intros Hr. apply Hm in Hd. apply Hf in Hr. by etransitivity.
  - intros [= _ <-]. by eapply Hm.
Qed.
Lemma op_steps_tx {A} (m : tx Db A) : run_tx m → op_steps (op_tx m).
Proof.
  intros Hm d r d'. unfold op_tx, transaction. destruct (m d) as [[a d1]|e] eqn:Hd; intros [= _ <-]; [|done].
  apply rtc_once. by econstructor.
Qed.
Lemma op_steps_run rid : op_steps (required_run rid).
Proof. intros d r d'. unfold required_run. destruct (find_run rid d); by intros [= _ <-]. Qed.
Lemma op_steps_step rid sid : op_steps (required_step rid sid).
Proof. intros d r d'. unfold required_step. destruct (find_step rid sid d); by intros [= _ <-]. Qed.

Create HintDb run_ops.
#[export] Hint Resolve op_steps_ret op_steps_err op_steps_get op_steps_bind op_steps_tx op_steps_run
  op_steps_step : run_ops.
#[export] Hint Constructors run_tx : run_ops.

(** Decompose an operation into its transactions. *)
Ltac op_steps_tac :=
  repeat first
    [ progress intros
    | apply op_steps_bind
    | apply op_steps_ret | apply op_steps_err | apply op_steps_get
    | apply op_steps_run | apply op_steps_step
    | apply op_steps_tx; solve [eauto with run_ops]
    | match goal with |- op_steps (if ?b then _ else _) => destruct b end
    | match goal with |- op_steps (match ?x with _ => _ end) => destruct x end ].

Lemma observe_second_run_tx rid now : run_tx (observe_at_second_tx rid now).
Proof.
  apply rt_other. intros d a d'. unfold observe_at_second_tx. destruct (budget_of rid d) as [b|].
  - destruct (_ <? _); [done|]. by intros [= _ <-].
  - by intros [= _ <-].
Qed.

Lemma observe_run_tx rid now_ms : run_tx (execution_budget_at_tx rid now_ms).
Proof.
  apply rt_other. intros d a d'. unfold execution_budget_at_tx. destruct (budget_of rid d) as [b|].
  - destruct (_ <=? _); [by intros [= _ <-]|]. destruct (validate_run_clock _ _); [|done]. by intros [= _ <-].
  - by intros [= _ <-].
Qed.
#[export] Hint Resolve observe_second_run_tx observe_run_tx : run_ops.

Lemma claim_step_steps rid sid owner now expires : op_steps (claim_step rid sid owner now expires).
Proof. unfold claim_step, observe_execution_budget_at_second, transition_error. op_steps_tac. Qed.
Lemma complete_step_steps rid sid owner output at_ : op_steps (complete_step rid sid owner output at_).
Proof. unfold complete_step, finish_step, transition_error. op_steps_tac. Qed.
Lemma fail_step_steps rid sid owner output at_ : op_steps (fail_step rid sid owner output at_).
Proof. unfold fail_step, finish_step, transition_error. op_steps_tac. Qed.
Lemma wait_step_steps rid sid owner approval at_ : op_steps (wait_step rid sid owner approval at_).
Proof. unfold wait_step, transition_error. op_steps_tac. Qed.
Lemma resume_step_steps rid sid approval at_ : op_steps (resume_waiting_step rid sid approval at_).
Proof. unfold resume_waiting_step, transition_error. op_steps_tac. Qed.
Lemma add_step_steps rid n : op_steps (add_step rid n).
Proof. unfold add_step. op_steps_tac. Qed.
Lemma advance_steps rid expected at_ : op_steps (advance_cursor rid expected at_).
Proof. unfold advance_cursor, run_error. op_steps_tac. Qed.
Lemma complete_run_steps rid expected at_ : op_steps (complete_run rid expected at_).
Proof. unfold complete_run, run_error. op_steps_tac. Qed.
Lemma cancel_steps rid at_ : op_steps (cancel_run rid at_).
Proof. unfold cancel_run. op_steps_tac. Qed.
Lemma fail_run_steps rid at_ : op_steps (fail_run rid at_).
Proof. unfold fail_run. op_steps_tac. Qed.
Lemma fail_expired_steps rid now_ms : op_steps (fail_run_if_budget_expired rid now_ms).
Proof. unfold fail_run_if_budget_expired, execution_budget_at. op_steps_tac. Qed.
Lemma next_action_steps rid now : op_steps (next_safe_action rid now).
Proof. unfold next_safe_action. op_steps_tac. Qed.
#[export] Hint Resolve claim_step_steps complete_step_steps fail_step_steps wait_step_steps
  resume_step_steps add_step_steps advance_steps complete_run_steps cancel_steps fail_run_steps
  fail_expired_steps next_action_steps : run_ops.

Lemma recover_one_steps room now run action : op_steps (recover_one room now run action).
Proof.
  revert run action. induction room as [|room IH]; intros run action; cbn; [apply op_steps_ret|].
  destruct action; try apply op_steps_ret.
  - apply op_steps_bind; [auto with run_ops|]. intros run'.
    apply op_steps_bind; [auto with run_ops|]. intros action'.
    apply op_steps_bind; [apply IH|]. intros rest. apply op_steps_ret.
  - apply op_steps_bind; [auto with run_ops|]. intros run'. apply op_steps_ret.
Qed.

Lemma recover_all_steps room now l : op_steps (recover_all room now l).
Proof.
  revert room. induction l as [|[run action] l IH]; intros room; cbn; [apply op_steps_ret|].
  apply op_steps_bind; [apply recover_one_steps|]. intros done.
  destruct (Nat.leb _ _); [apply op_steps_ret|]. apply op_steps_bind; [apply IH|]. intros more. apply op_steps_ret.
Qed.

Lemma with_actions_steps now l : op_steps (with_actions now l).
Proof.
  induction l as [|r l IH]; cbn; [apply op_steps_ret|].
  apply op_steps_bind; [auto with run_ops|]. intros a. apply op_steps_bind; [done|]. intros rest. apply op_steps_ret.
Qed.

Lemma recover_steps now cl tl : op_steps (recover_completed_transitions now cl tl).
Proof.
  unfold recover_completed_transitions, recovery_candidates.
  apply op_steps_bind; [|intros l; apply recover_all_steps].
  apply op_steps_bind; [apply op_steps_get|intros l; apply with_actions_steps].
Qed.
