(* ===== verification/RunSafety.v ===== *)
(** * Safety of durable runs

    What the operations of [RunStore] can never undo, whatever transactions
    of whatever workers are interleaved: checkpoints, terminal runs, leases. *)

From stdpp Require Import relations.
From S2P Require Import Prelude Wire Text RunSchema Schema.
From S2P Require Import Information InformationStore RunBase RunBudgets RunStore RunInvariant.

(** ** Steps of the system: an operation of the store or one transaction *)

Inductive store_call : ∀ {A}, op A → Prop :=
| sc_add rid n : store_call (add_step rid n)
| sc_claim rid sid owner now expires : store_call (claim_step rid sid owner now expires)
| sc_complete_step rid sid owner output at_ : store_call (complete_step rid sid owner output at_)
| sc_fail_step rid sid owner output at_ : store_call (fail_step rid sid owner output at_)
| sc_wait rid sid owner approval at_ : store_call (wait_step rid sid owner approval at_)
| sc_resume rid sid approval at_ : store_call (resume_waiting_step rid sid approval at_)
| sc_advance rid expected at_ : store_call (advance_cursor rid expected at_)
| sc_complete_run rid expected at_ : store_call (complete_run rid expected at_)
| sc_cancel rid at_ : store_call (cancel_run rid at_)
| sc_fail_run rid at_ : store_call (fail_run rid at_)
| sc_fail_expired rid now_ms : store_call (fail_run_if_budget_expired rid now_ms)
| sc_recover now candidates transitions : store_call (recover_completed_transitions now candidates transitions).

Inductive worker_step (d d' : Db) : Prop :=
| ws_call {A} (m : op A) r : store_call m → m d = (r, d') → worker_step d d'
| ws_tx : run_step d d' → worker_step d d'.

Lemma worker_step_run d d' : worker_step d d' → rtc run_step d d'.
Proof.
  intros [A m r Hm Hd|Hs]; [|by apply rtc_once].
  destruct Hm; revert Hd; [apply add_step_steps|apply claim_step_steps|apply complete_step_steps
    |apply fail_step_steps|apply wait_step_steps|apply resume_step_steps|apply advance_steps
    |apply complete_run_steps|apply cancel_steps|apply fail_run_steps|apply fail_expired_steps|apply recover_steps].
Qed.

Lemma worker_steps_run d d' : rtc worker_step d d' → rtc run_step d d'.
Proof. induction 1 as [|d d1 d2 H _ IH]; [done|]. apply worker_step_run in H. by etransitivity. Qed.

(** The new rows of a transaction, as rewritten old rows and added ones. *)
Definition step_le (s s' : RunStepRecord) : Prop :=
  step_pk s' = step_pk s ∧ st_ordinal s' = st_ordinal s ∧ st_kind s' = st_kind s ∧
  st_input_hash s' = st_input_hash s ∧ st_outbox_key s' = st_outbox_key s ∧
  st_attempt s ≤ st_attempt s' ∧ (step_open s = false → s' = s).

Definition run_le (r r' : RunRecord) : Prop :=
  run_id r' = run_id r ∧ run_conversation_id r' = run_conversation_id r ∧ run_parent r' = run_parent r ∧
  run_input_event_seq r' = run_input_event_seq r ∧ run_started_at r' = run_started_at r ∧
  run_cursor r ≤ run_cursor r' ∧
  (run_active r = false → run_status r' = run_status r ∧ run_cursor r' = run_cursor r).

#[global] Instance step_le_preorder : PreOrder step_le.
Proof.
  split; [intros s; unfold step_le; by split_and!|].
  intros s1 s2 s3 (?&?&?&?&?&?&Hf1) (?&?&?&?&?&?&Hf2). unfold step_le. split_and!; try congruence; [lia|].
  intros Hc. rewrite Hf2; [by apply Hf1|]. by rewrite (Hf1 Hc).
Qed.

#[global] Instance run_le_preorder : PreOrder run_le.
Proof.
  split; [intros r; unfold run_le; by split_and!|].
  intros r1 r2 r3 (?&?&?&?&?&?&Hf1) (?&?&?&?&?&?&Hf2). unfold run_le. split_and!; try congruence; [lia|].
  intros Hc. destruct (Hf1 Hc) as [Hst Hcur]. assert (run_active r2 = false) as Hc2.
  { unfold run_active in *. by rewrite Hst. }
  destruct (Hf2 Hc2). split; congruence.
Qed.

Definition rows_le (d d' : Db) : Prop :=
  (∀ s, s ∈ steps_of d → ∃ s', s' ∈ steps_of d' ∧ step_le s s') ∧
  (∀ r, r ∈ state_runs d → ∃ r', r' ∈ state_runs d' ∧ run_le r r').

#[global] Instance rows_le_preorder : PreOrder rows_le.
Proof.
  split; [intros d; split; [intros s; exists s|intros r; exists r]; by split|].
  intros d1 d2 d3 [H1 H2] [H3 H4]. split.
  - intros s (s2 & Hs2 & Hle)%H1. destruct (H3 _ Hs2) as (s3 & ? & ?). exists s3. split; [done|by etransitivity].
  - intros r (r2 & Hr2 & Hle)%H2. destruct (H4 _ Hr2) as (r3 & ? & ?). exists r3. split; [done|by etransitivity].
Qed.

Lemma rows_le_map d d' fr fs :
  state_runs d' = map fr (state_runs d) → steps_of d' = map fs (steps_of d) →
  (∀ r, r ∈ state_runs d → run_le r (fr r)) → (∀ s, s ∈ steps_of d → step_le s (fs s)) → rows_le d d'.
Proof.
  intros Hr Hs Hfr Hfs. split.
  - intros s Hin. exists (fs s). rewrite Hs. split; [by apply list_elem_of_fmap_2|auto].
  - intros r Hin. exists (fr r). rewrite Hr. split; [by apply list_elem_of_fmap_2|auto].
Qed.

Lemma rows_le_same d d' : state_runs d' = state_runs d → steps_of d' = steps_of d → rows_le d d'.
Proof. intros Hr Hs. split; [intros s ?; exists s; by rewrite Hs|intros r ?; exists r; by rewrite Hr]. Qed.

Lemma rows_le_grow d d' :
  (∃ rs, state_runs d' = state_runs d ++ rs) → (∃ ss, steps_of d' = steps_of d ++ ss) → rows_le d d'.
Proof.
  intros [rs Hr] [ss Hs]. split; [intros s ?; exists s|intros r ?; exists r]; (split; [|done]).
  - rewrite Hs. set_solver.
  - rewrite Hr. set_solver.
Qed.

Lemma run_le_active r st cursor at_ :
  run_active r = true → run_cursor r ≤ cursor → run_le r (run_with st cursor at_ r).
Proof. intros Ha Hc. unfold run_le. cbn. split_and!; [done..|congruence]. Qed.

Lemma step_le_open s s' :
  step_open s = true → step_pk s' = step_pk s → st_ordinal s' = st_ordinal s → st_kind s' = st_kind s →
  st_input_hash s' = st_input_hash s → st_outbox_key s' = st_outbox_key s → st_attempt s ≤ st_attempt s' →
  step_le s s'.
Proof. intros Ho **. unfold step_le. split_and!; [done..|congruence]. Qed.

(** A step that a claim, finish, wait or resume finds belongs to an active run. *)
Lemma step_then_run_le rid sid p f st at_ d b d' :
  run_wf d → step_then_run rid p f (run_to st at_) d = Ok (b, d') →
  (∀ s, p s = true → is_step rid sid s = true) →
  (∀ s, s ∈ steps_of d → p s = true → step_open s = true ∧ step_le s (f s) ∧
        ∃ r, find_run rid d = Some r ∧ run_active r = true) →
  rows_le d d'.
Proof.
  intros Hwf Htx Hp Hall. destruct (step_then_run_cases rid sid _ _ _ _ _ _ Hwf Htx Hp) as
    [(_ & Hr & Hs & _)|(_ & s0 & Hs0 & Hp0 & Hpk & Hs & Hr & _)]; [by apply rows_le_same|].
  eapply rows_le_map; [exact Hr|exact Hs| |].
  - intros r Hin. cbv beta. destruct (is_run rid r) eqn:Hir; [|done]. apply run_le_active; [|done].
    destruct (Hall s0 Hs0 Hp0) as (_ & _ & r' & Hr' & Ha).
    apply (find_run_wf _ _ _ Hwf) in Hr' as [Hr' Hid]. apply is_run_true in Hir.
    by assert (r = r') as -> by (eapply same_run; [done..|congruence]).
  - intros s Hin. cbv beta. destruct (p s) eqn:Hps; [|done]. by apply Hall.
Qed.

(** The run of a running or waiting step is active. *)
Lemma active_run_of d s rid sid :
  run_wf d → s ∈ steps_of d → is_step rid sid s = true → st_status s = StepRunning ∨ st_status s = StepWaiting →
  ∃ r, find_run rid d = Some r ∧ run_active r = true ∧ st_ordinal s = run_cursor r.
Proof.
  intros Hwf Hs Hk Hst. destruct (wf_step_run d Hwf s Hs) as (r & Hr & Hid & Hok).
  exists r. apply is_step_true in Hk. unfold step_pk in Hk. injection Hk as Hk1 Hk2.
  split; [apply find_run_wf; [done|]; split; [done|congruence]|].
  destruct Hst as [Hst|Hst]; [by apply step_ok_running in Hok|by apply step_ok_waiting in Hok].
Qed.

Lemma update_runs_le p f d n d' :
  update_runs p f d = Ok (n, d') → (∀ r, p r = true → run_le r (f r)) → rows_le d d'.
Proof.
  intros (_ & -> & _)%update_runs_ok Hf.
  apply (rows_le_map d _ (λ r, if p r then f r else r) id); [done|by rewrite map_id| |done].
  intros r _. destruct (p r) eqn:Hp; [by apply Hf|done].
Qed.

Lemma fail_tx_le rid reason at_ at' pr d b d' :
  (∀ r, pr r = true → run_active r = true) →
  (let* changed := update_runs pr (run_to RunFailed at_) in
   if changed =? 0 then tx_ret false else (fail_open_steps rid reason at' ;;* tx_ret true)) d = Ok (b, d') →
  rows_le d d'.
Proof.
  intros Ha Htx. apply tx_bind_ok in Htx as (n & d1 & Hu & Htx).
  assert (rows_le d d1) as H1.
  { eapply update_runs_le; [exact Hu|]. intros r Hp. by apply run_le_active; [apply Ha|]. }
  destruct (n =? 0); [unfold tx_ret in Htx; by simplify_eq|].
  apply tx_bind_ok in Htx as (m & d2 & Hs & Htx). unfold tx_ret in Htx. simplify_eq.
  etransitivity; [done|]. apply update_steps_ok in Hs as (_ & -> & _).
  eapply (rows_le_map d1 _ id); [by rewrite map_id|reflexivity|done|].
  intros s _. cbv beta. destruct (_ && step_open s) eqn:Hb; [|done].
  apply andb_true_iff in Hb as [_ Ho]. by apply step_le_open.
Qed.

Lemma run_tx_rows {A} (m : tx Db A) d a d' : run_tx m → run_wf d → m d = Ok (a, d') → rows_le d d'.
Proof.
  intros Hm Hwf Hd. destruct Hm as [id n|rid n|rid sid owner now expires|rid sid owner st output at_ Hst
    |rid sid owner approval at_|rid sid approval at_|rid expected at_|rid expected at_|rid at_|rid at_
    |rid now_ms|rid secs|A m Hm].
  - unfold create_run_tx in Hd. rewrite tx_get_bind in Hd.
    assert (∀ u, insert_or_ignore_run (new_run_row id n) d = Ok (u, d') → rows_le d d') as Hins.
    { intros u. unfold insert_or_ignore_run. destruct (_ || _); [by intros [= _ <-]|].
      destruct (_ && _); [|done]. intros [= _ <-]. apply rows_le_grow; [by eexists|exists []; by rewrite app_nil_r]. }
    destruct (nr_parent_run_id n) as [p|]; [|by eapply Hins].
    destruct (find_run p d); [|done]. destruct (negb _); [done|by eapply Hins].
  - unfold add_step_tx in Hd. rewrite tx_get_bind in Hd. destruct (find_run rid d); [|done].
    destruct (negb _); [done|]. apply tx_bind_ok in Hd as (u & d1 & Hi & Hd).
    rewrite tx_get_bind in Hd. unfold tx_ret in Hd. simplify_eq.
    apply insert_step_cases in Hi as [->|(_ & _ & ->)]; [done|].
    apply rows_le_grow; [exists []; by rewrite app_nil_r|by eexists].
  - unfold claim_step_tx in Hd. rewrite tx_get_bind in Hd.
    eapply (step_then_run_le rid sid); [done|exact Hd|by intros s (? & _)%claimable_spec|].
    intros s Hs (_ & Hst & r & Hr & Ha & _)%claimable_spec.
    assert (step_open s = true) as Ho by (unfold step_open; destruct Hst as [-> | [-> _]]; done).
    split; [done|]. split; [apply step_le_open; [done..|cbn; lia]|by exists r].
  - eapply (step_then_run_le rid sid); [done|exact Hd|by intros s [? _]%andb_true_iff|].
    intros s Hs [Hk [Hrun _]%leased_by_true]%andb_true_iff.
    destruct (active_run_of d s rid sid) as (r & Hr & Ha & _); [auto..|].
    assert (step_open s = true) as Ho by (unfold step_open; by rewrite Hrun).
    split; [done|]. split; [by apply step_le_open|by exists r].
  - eapply (step_then_run_le rid sid); [done|exact Hd|by intros s [? _]%andb_true_iff|].
    intros s Hs [Hk [Hrun _]%leased_by_true]%andb_true_iff.
    destruct (active_run_of d s rid sid) as (r & Hr & Ha & _); [auto..|].
    assert (step_open s = true) as Ho by (unfold step_open; by rewrite Hrun).
    split; [done|]. split; [by apply step_le_open|by exists r].
  - eapply (step_then_run_le rid sid); [done|exact Hd|by intros s [? _]%andb_true_iff|].
    intros s Hs [Hk [Hw%bool_decide_eq_true _]%andb_true_iff]%andb_true_iff.
    destruct (active_run_of d s rid sid) as (r & Hr & Ha & _); [auto..|].
    assert (step_open s = true) as Ho by (unfold step_open; by rewrite Hw).
    split; [done|]. split; [by apply step_le_open|by exists r].
  - unfold advance_cursor_tx in Hd. rewrite tx_get_bind in Hd.
    destruct (step_at rid expected d) as [s0|]; [|unfold tx_ret in Hd; by simplify_eq].
    case_bool_decide; [|unfold tx_ret in Hd; by simplify_eq].
    apply tx_bind_ok in Hd as (n & d1 & Hu & Hd). unfold tx_ret in Hd. simplify_eq.
    eapply update_runs_le; [exact Hu|]. intros r [[_ Hc%Z.eqb_eq]%andb_true_iff Ha]%andb_true_iff.
    apply run_le_active; [done|lia].
  - unfold complete_run_tx in Hd. rewrite tx_get_bind in Hd.
    apply tx_bind_ok in Hd as (n & d1 & Hu & Hd). unfold tx_ret in Hd. simplify_eq.
    eapply update_runs_le; [exact Hu|].
    intros r [[_ Ha]%andb_true_iff _]%andb_true_iff. by apply run_le_active.
  - destruct (cancel_cases _ _ _ _ _ Hwf Hd) as [[Hr Hs]|(prior & Hp & _ & Hr & Hs & _)]; [by apply rows_le_same|].
    eapply rows_le_map; [exact Hr|exact Hs| |].
    + intros r _. unfold run_cancelled. destruct (bool_decide _ && run_active r) eqn:Hb; [|done].
      apply andb_true_iff in Hb as [_ Ha]. by apply run_le_active.
    + intros s _. unfold step_cancelled. destruct (bool_decide _ && step_open s) eqn:Hb; [|done].
      apply andb_true_iff in Hb as [_ Ho]. by apply step_le_open.
  - eapply fail_tx_le; [|exact Hd]. by intros r [_ ?]%andb_true_iff.
  - unfold fail_if_expired_tx in Hd. rewrite tx_get_bind in Hd.
    eapply fail_tx_le; [|exact Hd]. by intros r [[_ ?]%andb_true_iff _]%andb_true_iff.
  - eapply update_runs_le; [exact Hd|]. intros r _. unfold run_le. cbn. by split_and!.
  - apply Hm in Hd as [Hr Hs]. by apply rows_le_same.
Qed.

Lemma worker_steps_rows d d' : run_wf d → rtc worker_step d d' → run_wf d' ∧ rows_le d d'.
Proof.
  intros Hwf Hsteps%worker_steps_run. induction Hsteps as [d|d d1 d2 H _ IH]; [done|].
  pose proof H as [A m a Hm Hd]. apply (run_tx_rows m d a d1) in Hd; [|done..].
  apply run_step_wf in H; [|done]. destruct (IH H). split; [done|by etransitivity].
Qed.

(** ** Checkpoints and terminal runs *)

Definition holds_worker (s : RunStepRecord) : Prop := st_status s = StepRunning ∨ st_status s = StepWaiting.

(** C16: At any time a run has at most one step that is running or waiting,
    and it is the step at the cursor of an active run: from a store without
    runs, after any interleaving of the store's operations and of single
    transactions of others, no completed, failed or cancelled run has a step
    in a worker's hands. *)
Theorem one_live_step_per_run d0 d s :
  state_runs d0 = [] → steps_of d0 = [] → rtc worker_step d0 d → s ∈ steps_of d → holds_worker s →
  ∃ r, find_run (st_run_id s) d = Some r ∧ run_active r = true ∧ st_ordinal s = run_cursor r ∧
    step_at (st_run_id s) (run_cursor r) d = Some s ∧
    ∀ s', s' ∈ steps_of d → st_run_id s' = st_run_id s → holds_worker s' → s' = s.
Proof.
  intros Hr0 Hs0 Hsteps Hs Hw.
  destruct (worker_steps_rows d0 d) as [Hwf _]; [by apply empty_wf|done|].
  assert (∀ s', s' ∈ steps_of d → holds_worker s' →
    ∃ r, find_run (st_run_id s') d = Some r ∧ run_active r = true ∧ st_ordinal s' = run_cursor r) as Hall.
  { intros s' Hs' Hw'. apply (active_run_of d s' _ (st_step_id s')); [done..|by apply is_step_true|done]. }
  destruct (Hall s Hs Hw) as (r & Hr & Ha & Ho). exists r.
  split_and!; [done..| |].
  - apply step_at_wf; [done|]. split; [done|]. unfold step_slot. by rewrite Ho.
  - intros s' Hs' Hid Hw'. destruct (Hall s' Hs' Hw') as (r' & Hr' & _ & Ho').
    rewrite Hid, Hr in Hr'. simplify_eq. eapply same_slot; [done..|]. unfold step_slot. congruence.
Qed.

(** Durable progress is never undone: whatever operations follow, every
    run and step is still there with its identity, a completed or failed
    checkpoint keeps its whole row, a terminal run keeps its status and
    cursor, cursors never move back and attempt counts never fall. *)
Theorem checkpoints_are_final d d' :
  run_wf d → rtc worker_step d d' →
  (∀ s, s ∈ steps_of d → ∃ s', find_step (st_run_id s) (st_step_id s) d' = Some s' ∧ step_le s s') ∧
  (∀ r, r ∈ state_runs d → ∃ r', find_run (run_id r) d' = Some r' ∧ run_le r r').
Proof.
  intros Hwf Hsteps. destruct (worker_steps_rows d d' Hwf Hsteps) as [Hwf' [Hs Hr]]. split.
  - intros s (s' & Hs' & Hle)%Hs. exists s'. split; [|done]. apply find_step_wf; [done|].
    split; [done|]. by destruct Hle as [-> _].
  - intros r (r' & Hr' & Hle)%Hr. exists r'. split; [|done]. apply find_run_wf; [done|].
    split; [done|]. by destruct Hle as [-> _].
Qed.

(** ** Leases *)

(** The statement of an update that keeps the keys and satisfies the checks
    goes through. *)
Lemma steps_ok_update p f l :
  steps_ok l →
  (∀ s, s ∈ l → p s = true → step_check (f s) = true ∧ step_pk (f s) = step_pk s ∧ step_slot (f s) = step_slot s ∧
        st_approval_id (f s) = st_approval_id s ∧ st_outbox_key (f s) = st_outbox_key s) →
  steps_ok (update_where p f l).
Proof.
  intros [Hc (H1 & H2 & H3 & H4)] Hf. unfold steps_ok, steps_unique.
  assert (∀ B (g : RunStepRecord → B), (∀ s, s ∈ l → p s = true → g (f s) = g s) →
    map g (update_where p f l) = map g l) as Hmap.
  { intros B g Hg. unfold update_where. rewrite map_map. apply map_ext_in. intros s Hs%list_elem_of_In.
    destruct (p s) eqn:Hp; [by apply Hg|done]. }
  assert (∀ (g : RunStepRecord → option string), (∀ s, s ∈ l → p s = true → g (f s) = g s) →
    omap g (update_where p f l) = omap g l) as Homap.
  { intros g Hg. unfold update_where. clear -Hg. induction l as [|s l IH]; cbn; [done|].
    rewrite IH by (intros s' ?; apply Hg; by right). destruct (p s) eqn:Hp; [by rewrite Hg by (try left; done)|done]. }
  rewrite !Hmap, !Homap; try (intros s Hs Hp; by apply Hf). split; [|done].
  apply Forall_forall. intros s' (s & Hs & ->)%elem_of_update. destruct (p s) eqn:Hp; [by apply Hf|].
  rewrite Forall_forall in Hc. by apply Hc.
Qed.

Lemma run_check_update p f l :
  Forall (λ r, run_check r = true) l → (∀ r, run_check r = true → run_check (f r) = true) →
  forallb run_check (update_where p f l) = true.
Proof.
  intros Hc Hf. apply forallb_forall. intros r' Hin%list_elem_of_In.
  apply elem_of_update in Hin as (r & Hr & ->). rewrite Forall_forall in Hc.
  destruct (p r); auto.
Qed.

Lemma run_to_check st at_ r : run_check r = true → run_check (run_to st at_ r) = true.
Proof. done. Qed.

(** When exactly one step matches, the transaction commits. *)
Lemma step_then_run_commits rid sid p f st at_ d s :
  run_wf d → find_step rid sid d = Some s → p s = true → (∀ s, p s = true → is_step rid sid s = true) →
  step_check (f s) = true → (∀ s, step_pk (f s) = step_pk s) → step_slot (f s) = step_slot s →
  st_approval_id (f s) = st_approval_id s → st_outbox_key (f s) = st_outbox_key s →
  ∃ d', step_then_run rid p f (run_to st at_) d = Ok (true, d') ∧ find_step rid sid d' = Some (f s).
Proof.
  intros Hwf Hfind Hp Hkey Hc Hpk Hsl Hap Hob.
  apply (find_step_wf _ _ _ _ Hwf) in Hfind as [Hs Hk].
  assert (∀ s', s' ∈ steps_of d → p s' = true → s' = s) as Huniq.
  { intros s' Hs' Hps'. eapply same_pk; [done..|]. apply Hkey, is_step_true in Hps'. congruence. }
  assert (steps_ok (update_where p f (steps_of d))) as Hok.
  { apply steps_ok_update; [apply Hwf|]. intros s' Hs' Hps'. by rewrite (Huniq s' Hs' Hps'). }
  assert (count_where p (steps_of d) = 1) as Hcount.
  { assert (count_where p (steps_of d) ≠ 0) by (apply count_where_pos; by exists s).
    assert (0 ≤ count_where p (steps_of d) ≤ 1); [|lia].
    apply (count_where_unique step_pk (rid, sid)); [apply Hwf|].
    intros s' Hps'. by apply is_step_true, Hkey. }
  set (d1 := set_run_tables (set_run_steps (λ _, update_where p f (steps_of d))) d).
  set (d2 := set_runs (λ _, update_where (is_run rid) (run_to st at_) (state_runs d1)) d1).
  exists d2. split.
  - unfold step_then_run, tx_bind at 1, update_steps. rewrite decide_True by done. rewrite Hcount. cbn [Z.eqb Pos.eqb].
    fold d1. unfold tx_bind, update_runs. rewrite run_check_update; [done|apply Hwf|apply run_to_check].
  - subst d2 d1. unfold find_step. cbn. rewrite find_update.
    + change (List.find (is_step rid sid) (steps_of d)) with (find_step rid sid d).
      rewrite (proj2 (find_step_wf rid sid d s Hwf)) by done. cbn. by rewrite Hp.
    + intros s'. destruct (p s'); [|done]. apply eq_true_iff_eq. by rewrite !is_step_true, Hpk.
Qed.

(** What everybody but the holder of a lease may do while it lasts, short of
    cancelling or failing the run: claims at times before its end, finishing
    and parking steps leased to others, and everything that has no owner. *)
Inductive other_tx (k : string * string) (owner : string) (until : Z) : ∀ {A}, tx Db A → Prop :=
| ot_create id n : other_tx k owner until (create_run_tx id n)
| ot_add rid n : other_tx k owner until (add_step_tx rid n)
| ot_claim rid sid o now expires : now < until → other_tx k owner until (claim_step_tx rid sid o now expires)
| ot_finish rid sid o st output at_ :
    (rid, sid) ≠ k ∨ o ≠ owner → st = StepCompleted ∨ st = StepFailed →
    other_tx k owner until (finish_step_tx rid sid o st output at_)
| ot_wait rid sid o approval at_ :
    (rid, sid) ≠ k ∨ o ≠ owner → other_tx k owner until (wait_step_tx rid sid o approval at_)
| ot_resume rid sid approval at_ : other_tx k owner until (resume_step_tx rid sid approval at_)
| ot_advance rid expected at_ : other_tx k owner until (advance_cursor_tx rid expected at_)
| ot_complete rid expected at_ : other_tx k owner until (complete_run_tx rid expected at_)
| ot_deadline rid secs : other_tx k owner until (set_deadline rid secs)
| ot_other {A} (m : tx Db A) :
    (∀ d a d', m d = Ok (a, d') → state_runs d' = state_runs d ∧ steps_of d' = steps_of d) →
    other_tx k owner until m.

Inductive other_step (k : string * string) (owner : string) (until : Z) (d d' : Db) : Prop :=
| os_tx {A} (m : tx Db A) a : other_tx k owner until m → m d = Ok (a, d') → other_step k owner until d d'.

Lemma other_tx_run {A} k owner until (m : tx Db A) : other_tx k owner until m → run_tx m.
Proof. destruct 1; by constructor. Qed.

Definition leased_to (owner : string) (until : Z) (s : RunStepRecord) : Prop :=
  st_status s = StepRunning ∧ st_lease_owner s = Some owner ∧ st_lease_expires_at s = Some until.

Lemma step_then_run_keeps rid sid p f fr d b d' s :
  run_wf d → step_then_run rid p f fr d = Ok (b, d') → (∀ s, p s = true → is_step rid sid s = true) →
  s ∈ steps_of d → p s = false → s ∈ steps_of d'.
Proof.
  intros Hwf Htx Hkey Hs Hp. destruct (step_then_run_cases rid sid _ _ _ _ _ _ Hwf Htx Hkey) as
    [(_ & _ & -> & _)|(_ & s0 & _ & _ & _ & -> & _)]; [done|].
  apply list_elem_of_fmap. exists s. by rewrite Hp.
Qed.

Lemma not_claimable rid sid now d owner until s :
  leased_to owner until s → now < until → claimable rid sid now d s = false.
Proof.
  intros (Hst & _ & He) Hnow. apply not_true_iff_false. intros (_ & [Hp|[_ Hl]] & _)%claimable_spec; [congruence|].
  unfold lease_ended in Hl. rewrite He in Hl. apply Z.leb_le in Hl. lia.
Qed.

Lemma not_leased_step k rid sid owner o s :
  (rid, sid) ≠ k ∨ o ≠ owner → step_pk s = k → st_lease_owner s = Some owner →
  is_step rid sid s && leased_by o s = false.
Proof.
  intros Hne Hpk Hown. apply not_true_iff_false. intros [Hk%is_step_true [_ Ho]%leased_by_true]%andb_true_iff.
  destruct Hne; congruence.
Qed.

Lemma step_then_run_none rid p f fr d :
  steps_ok (steps_of d) → (∀ s, s ∈ steps_of d → p s = false) →
  step_then_run rid p f fr d = Ok (false, set_run_tables (set_run_steps (λ _, steps_of d)) d).
Proof.
  intros Hok Hno. unfold step_then_run, tx_bind, update_steps.
  assert (update_where p f (steps_of d) = steps_of d) as ->.
  { apply map_id_elem. intros s Hs. by rewrite Hno. }
  rewrite decide_True by done. assert (count_where p (steps_of d) = 0) as ->; [|done].
  unfold count_where. by rewrite filter_none.
Qed.

Lemma claim_step_inv rid sid owner now until d s d1 :
  run_wf d → claim_step rid sid owner now until d = (Ok s, d1) →
  run_wf d1 ∧ find_step rid sid d1 = Some s ∧ leased_to owner until s.
Proof.
  intros Hwf Hclaim. assert (run_wf d1) as Hwf1.
  { eapply run_steps_wf; [done|]. by eapply claim_step_steps. }
  split; [done|]. unfold claim_step in Hclaim. apply op_bind_ok in Hclaim as (u & d0 & Hobs & Hclaim).
  assert (run_wf d0) as Hwf0.
  { eapply run_steps_wf; [exact Hwf|]. eapply op_steps_tx; [apply observe_second_run_tx|exact Hobs]. }
  destruct (until <=? now); [done|]. apply op_bind_ok in Hclaim as (b & d2 & Htx%op_tx_ok & Hreq).
  destruct b; cycle 1.
  { unfold transition_error in Hreq. apply op_bind_ok in Hreq as (s' & d3 & _ & Hreq). done. }
  unfold required_step in Hreq. destruct (find_step rid sid d2) as [s'|] eqn:Hs; [|done]. simplify_eq.
  split; [done|]. unfold claim_step_tx in Htx. rewrite tx_get_bind in Htx.
  destruct (step_then_run_cases rid sid _ _ _ _ _ _ Hwf0 Htx) as
    [(? & _)|(_ & s0 & Hs0 & Hp0 & Hpk & Hst & _)]; [by intros s'' (? & _)%claimable_spec|done|].
  apply find_step_Some in Hs as [Hin Hpk']. rewrite Hst in Hin.
  apply list_elem_of_fmap in Hin as (s1 & -> & Hs1).
  destruct (claimable rid sid now d0 s1) eqn:Hc1; [done|].
  assert (s1 = s0) as -> by (eapply same_pk; [exact Hwf0|done|done|congruence]). congruence.
Qed.

(** The holder of a lease may complete its step. *)
Lemma holder_completes rid sid owner until s output at_ d :
  run_wf d → find_step rid sid d = Some s → leased_to owner until s →
  ∃ d3, complete_step rid sid owner output at_ d = (Ok (closed StepCompleted output at_ s), d3).
Proof.
  intros Hwf Hs Hl. pose proof Hl as (Hst & Hown & He). pose proof Hs as [Hin Hpk]%find_step_Some.
  unfold complete_step, finish_step.
  destruct (step_then_run_commits rid sid (λ s, is_step rid sid s && leased_by owner s)
    (closed StepCompleted output at_) RunRunning at_ d s) as (d3 & Htx & Hs3); try done.
  + apply andb_true_iff. split; [by apply is_step_true|]. by apply leased_by_true.
  + by intros s' [? _]%andb_true_iff.
  + destruct (wf_steps d Hwf) as [Hc _]. rewrite Forall_forall in Hc. specialize (Hc _ Hin).
    unfold step_check in *. cbn. by destruct (0 <=? st_ordinal s), (0 <=? st_attempt s).
  + exists d3. unfold op_bind at 1. unfold op_tx, transaction.
    change (finish_step_tx rid sid owner StepCompleted output at_ d) with
      (step_then_run rid (λ s, is_step rid sid s && leased_by owner s) (closed StepCompleted output at_)
        (run_to RunRunning at_) d). rewrite Htx. unfold required_step. by rewrite Hs3.
Qed.

Lemma other_tx_keeps {A} k owner until (m : tx Db A) d a d' s :
  run_wf d → other_tx k owner until m → m d = Ok (a, d') →
  s ∈ steps_of d → step_pk s = k → leased_to owner until s → s ∈ steps_of d'.
Proof.
  intros Hwf Hm Hd Hs Hpk Hl. pose proof Hl as (Hst & Hown & He).
  destruct Hm as [id n|rid n|rid sid o now expires Hnow|rid sid o st output at_ Hne Hst'|rid sid o approval at_ Hne
    |rid sid approval at_|rid expected at_|rid expected at_|rid secs|A m Hm].
  - unfold create_run_tx in Hd. rewrite tx_get_bind in Hd.
    assert (∀ u, insert_or_ignore_run (new_run_row id n) d = Ok (u, d') → s ∈ steps_of d') as Hins.
    { intros u. unfold insert_or_ignore_run. destruct (_ || _); [by intros [= _ <-]|].
      destruct (_ && _); [|done]. by intros [= _ <-]. }
    destruct (nr_parent_run_id n) as [p|]; [|by eapply Hins].
    destruct (find_run p d); [|done]. destruct (negb _); [done|by eapply Hins].
  - unfold add_step_tx in Hd. rewrite tx_get_bind in Hd. destruct (find_run rid d); [|done].
    destruct (negb _); [done|]. apply tx_bind_ok in Hd as (u & d1 & Hi & Hd).
    rewrite tx_get_bind in Hd. unfold tx_ret in Hd. simplify_eq.
    apply insert_step_cases in Hi as [->|(_ & _ & ->)]; [done|]. cbn. set_solver.
  - unfold claim_step_tx in Hd. rewrite tx_get_bind in Hd.
    eapply (step_then_run_keeps rid sid); [done|exact Hd|by intros s' (? & _)%claimable_spec|done|].
    by eapply not_claimable.
  - eapply (step_then_run_keeps rid sid); [done|exact Hd|by intros s' [? _]%andb_true_iff|done|].
    by apply not_leased_step with (k := k) (owner := owner).
  - eapply (step_then_run_keeps rid sid); [done|exact Hd|by intros s' [? _]%andb_true_iff|done|].
    by apply not_leased_step with (k := k) (owner := owner).
  - eapply (step_then_run_keeps rid sid); [done|exact Hd|by intros s' [? _]%andb_true_iff|done|].
    unfold resumable. rewrite (bool_decide_false (st_status s = StepWaiting)) by congruence. by rewrite andb_false_r.
  - unfold advance_cursor_tx in Hd. rewrite tx_get_bind in Hd.
    destruct (step_at rid expected d); [|unfold tx_ret in Hd; by simplify_eq].
    case_bool_decide; [|unfold tx_ret in Hd; by simplify_eq].
    apply tx_bind_ok in Hd as (n & d1 & (_ & -> & _)%update_runs_ok & Hd). unfold tx_ret in Hd. by simplify_eq.
  - unfold complete_run_tx in Hd. rewrite tx_get_bind in Hd.
    apply tx_bind_ok in Hd as (n & d1 & (_ & -> & _)%update_runs_ok & Hd). unfold tx_ret in Hd. by simplify_eq.
  - by apply update_runs_ok in Hd as (_ & -> & _).
  - apply Hm in Hd as [_ ->]. done.
Qed.

Lemma other_steps_keep k owner until d d' s :
  run_wf d → rtc (other_step k owner until) d d' → s ∈ steps_of d → step_pk s = k → leased_to owner until s →
  run_wf d' ∧ s ∈ steps_of d'.
Proof.
  intros Hwf Hsteps. induction Hsteps as [d|d d1 d2 [A m a Hm Hd] _ IH]; [done|]. intros Hs Hpk Hl.
  apply IH; [|by eapply other_tx_keeps|done|done].
  eapply run_tx_wf; [by eapply other_tx_run|done|done].
Qed.

(** A lease excludes: after a successful claim until [until], whatever
    the other workers do, any number of transactions later, the claimed step
    is exactly as the claim left it, every claim of it at a time before
    [until] is refused without effect, and the holder's completion succeeds
    and stores its output. *)
Theorem claim_holds_until_expiry rid sid owner now until d s d1 d2 :
  run_wf d → claim_step rid sid owner now until d = (Ok s, d1) →
  rtc (other_step (rid, sid) owner until) d1 d2 →
  st_lease_owner s = Some owner ∧ find_step rid sid d2 = Some s ∧
  (∀ o now' expires, now' < until → ∃ d3, claim_step_tx rid sid o now' expires d2 = Ok (false, d3) ∧
     state_runs d3 = state_runs d2 ∧ steps_of d3 = steps_of d2) ∧
  (∀ output at_, ∃ d3, complete_step rid sid owner output at_ d2 = (Ok (closed StepCompleted output at_ s), d3)).
Proof.
  intros Hwf Hclaim Hsteps. destruct (claim_step_inv _ _ _ _ _ _ _ _ Hwf Hclaim) as (Hwf1 & Hs & Hl).
  pose proof Hl as (Hst & Hown & He).
  pose proof Hs as [Hin Hpk]%find_step_Some.
  destruct (other_steps_keep _ _ _ _ _ _ Hwf1 Hsteps Hin Hpk Hl) as [Hwf2 Hin2].
  assert (find_step rid sid d2 = Some s) as Hs2 by (by apply find_step_wf).
  split_and!; [done|done| |].
  - intros o now' expires Hnow. unfold claim_step_tx.
    assert (∀ s', s' ∈ steps_of d2 → claimable rid sid now' d2 s' = false) as Hno.
    { intros s' Hs'. apply not_true_iff_false. intros Hc. pose proof Hc as (Hk & _)%claimable_spec.
      apply is_step_true in Hk. assert (s' = s) as -> by (eapply same_pk; [done..|congruence]).
      by rewrite (not_claimable rid sid now' d2 owner until) in Hc. }
    eexists. split; [rewrite tx_get_bind; apply step_then_run_none; [apply Hwf2|exact Hno]|]. done.
  - intros output at_. by apply (holder_completes _ _ _ until).
Qed.

(** ** A concrete run *)

Definition toy_start : Db :=
  set_events (λ _, {["c" := [mkEventRow 1 "user_msg" [] 100 None None 0 1 None]]}) empty_db.
Definition toy_new_run : NewRun := mkNewRun "c" None 1 100 None.
Definition toy_step (sid : string) (n : Z) : NewRunStep :=
  mkNewStep sid n ToolDispatch "h" None (Some ("k" +:+ sid)).

(** Commit a transaction. *)
Definition commit {A} (m : tx Db A) (d : Db) : Db := (transaction m d).2.

Definition toy_created : Db := commit (create_run_tx "r" toy_new_run) toy_start.
Definition toy_steps_db : Db := (add_step "r" (toy_step "s1" 1) (add_step "r" (toy_step "s0" 0) toy_created).2).2.
Definition toy_claim_db : Db := (claim_step "r" "s0" "w1" 110 200 toy_steps_db).2.
Definition toy_claimed : RunStepRecord := claimed "w1" 110 200 (new_step_row "r" (toy_step "s0" 0)).
Definition toy_done : RunStepRecord := closed StepCompleted (Some "out") 120 toy_claimed.
Definition toy_done_db : Db := (complete_step "r" "s0" "w1" (Some "out") 120 toy_claim_db).2.

Lemma call_step {A} (m : op A) d : store_call m → worker_step d (m d).2.
Proof. intros Hm. eapply (ws_call _ _ m (m d).1); [done|apply surjective_pairing]. Qed.

Lemma toy_created_reached : rtc worker_step toy_start toy_created.
Proof.
  apply rtc_once, ws_tx. apply (committed _ _ (create_run_tx "r" toy_new_run) ()); [constructor|by vm_compute].
Qed.

Lemma toy_steps_reached : rtc worker_step toy_created toy_steps_db.
Proof.
  eapply rtc_l; [apply (call_step (add_step "r" (toy_step "s0" 0))), sc_add|].
  apply rtc_once, (call_step (add_step "r" (toy_step "s1" 1))), sc_add.
Qed.

Lemma toy_claim_reached : rtc worker_step toy_steps_db toy_claim_db.
Proof. apply rtc_once, (call_step (claim_step "r" "s0" "w1" 110 200)), sc_claim. Qed.

Lemma toy_steps_wf : run_wf toy_steps_db.
Proof.
  eapply run_steps_wf; [by apply (empty_wf toy_start)|]. apply worker_steps_run.
  etransitivity; [apply toy_created_reached|apply toy_steps_reached].
Qed.

Lemma toy_claim_wf : run_wf toy_claim_db.
Proof. eapply run_steps_wf; [apply toy_steps_wf|]. apply worker_steps_run, toy_claim_reached. Qed.

Lemma one_live_step_per_run_witness :
  st_status toy_claimed = StepRunning ∧
  ∃ r, find_run (st_run_id toy_claimed) toy_claim_db = Some r ∧ run_active r = true ∧ st_ordinal toy_claimed = run_cursor r.
Proof.
  split; [done|]. destruct (one_live_step_per_run toy_start toy_claim_db toy_claimed) as (r & Hr & Ha & Ho & _).
  - done.
  - done.
  - etransitivity; [apply toy_created_reached|]. etransitivity; [apply toy_steps_reached|apply toy_claim_reached].
  - apply (bool_decide_unpack _). by vm_compute.
  - by left.
  - exists r. split; [exact Hr|]. split; [exact Ha|exact Ho].
Defined.

(** The completed checkpoint survives a cancellation of its run. *)
Lemma checkpoints_are_final_witness :
  ∃ s, find_step (st_run_id toy_done) (st_step_id toy_done) (cancel_run "r" 130 toy_done_db).2 = Some s ∧
       s = toy_done.
Proof.
  destruct (checkpoints_are_final toy_done_db (cancel_run "r" 130 toy_done_db).2) as [Hs _].
  - eapply run_steps_wf; [apply toy_claim_wf|]. apply worker_steps_run, rtc_once.
    apply (call_step (complete_step "r" "s0" "w1" (Some "out") 120)), sc_complete_step.
  - apply rtc_once, (call_step (cancel_run "r" 130)), sc_cancel.
  - destruct (Hs toy_done) as (s & Hfind & Hle).
    + apply (bool_decide_unpack _). by vm_compute.
    + exists s. split; [exact Hfind|]. destruct Hle as (_ & _ & _ & _ & _ & _ & Heq). exact (Heq eq_refl).
Defined.

Lemma claim_holds_until_expiry_witness :
  ∃ d3, complete_step "r" "s0" "w1" (Some "out") 150
    (commit (claim_step_tx "r" "s0" "w2" 199 300) toy_claim_db) =
    (Ok (closed StepCompleted (Some "out") 150 toy_claimed), d3).
Proof.
  destruct (claim_holds_until_expiry "r" "s0" "w1" 110 200 toy_steps_db toy_claimed toy_claim_db
    (commit (claim_step_tx "r" "s0" "w2" 199 300) toy_claim_db)) as (_ & _ & _ & Hc).
  - apply toy_steps_wf.
  - by vm_compute.
  - apply rtc_once, (os_tx _ _ _ _ _ (claim_step_tx "r" "s0" "w2" 199 300) false); [by constructor|by vm_compute].
  - apply Hc.
Defined.
