(* ===== verification/RunRecovery.v ===== *)
(** * Recovery of durable runs

    [next_safe_action] names the one transition that is possible at the
    cursor, recovery moves runs on without touching a step, and a worker that
    keeps doing what it is told finishes every run. *)

From stdpp Require Import relations sorting.
From S2P Require Import Prelude Wire Text RunSchema Schema Information.
From S2P Require Import InformationStore RunBase RunBudgets RunStore RunInvariant RunSafety.

(** ** The transactions at a run *)

Definition next_action (rid : string) (now : Z) (d : Db) : option NextSafeAction :=
  (λ r, action_of now r d) <$> find_run rid d.

Lemma next_safe_action_eq rid now d :
  next_safe_action rid now d =
  match next_action rid now d with Some a => (Ok a, d) | None => (Err (NotFound "run" rid), d) end.
Proof. unfold next_safe_action, op_bind, required_run, next_action. by destruct (find_run rid d). Qed.

(** [Claim] and [ReclaimExpired] of a step. *)
Definition claims (a : NextSafeAction) (s : RunStepRecord) : Prop := a = Claim s ∨ a = ReclaimExpired s.

Lemma run_of_id rid d r : find_run rid d = Some r → run_id r = rid.
Proof. by intros [_ ?]%find_run_Some. Qed.

Lemma action_active now r d :
  run_active r = true →
  action_of now r d = match step_at (run_id r) (run_cursor r) d with
                      | None => CompleteRun (run_cursor r) | Some s => step_action now s end.
Proof. unfold run_active, action_of. by destruct (run_status r). Qed.

Lemma action_inactive now r d :
  run_active r = false →
  action_of now r d = IsCompleted ∨ action_of now r d = IsFailed ∨ action_of now r d = IsCancelled.
Proof. unfold run_active, action_of. destruct (run_status r); auto; done. Qed.

Lemma claims_step_action now s s' :
  claims (step_action now s') s ↔
  s' = s ∧ (st_status s = StepPending ∨ (st_status s = StepRunning ∧ lease_ended now s = true)).
Proof.
  unfold claims, step_action. split.
  - destruct (st_status s') eqn:Hst; try (intros [?|?]; discriminate).
    + intros [[= <-]|?]; [auto|done].
    + destruct (lease_ended now s') eqn:Hl; [|intros [?|?]; discriminate].
      intros [?|[= <-]]; [done|auto].
    + case_bool_decide; intros [?|?]; discriminate.
  - intros [-> [Hst|[Hst Hl]]]; rewrite Hst; [by left|]. rewrite Hl. by right.
Qed.

Lemma advances_step_action now s s' :
  step_action now s' = AdvanceCursor s ↔ s' = s ∧ st_status s = StepCompleted.
Proof.
  unfold step_action. split.
  - destruct (st_status s') eqn:Hst; try discriminate.
    + by destruct (lease_ended now s').
    + by case_bool_decide.
    + by intros [= <-].
  - by intros [-> ->].
Qed.

Lemma completes_step_action now s c : step_action now s ≠ CompleteRun c.
Proof.
  unfold step_action. destruct (st_status s); try discriminate.
  - by destruct (lease_ended now s).
  - by case_bool_decide.
Qed.

Lemma claims_step_at now r d s :
  claims (action_of now r d) s ↔
  run_active r = true ∧ step_at (run_id r) (run_cursor r) d = Some s ∧
  (st_status s = StepPending ∨ (st_status s = StepRunning ∧ lease_ended now s = true)).
Proof.
  destruct (run_active r) eqn:Ha.
  - rewrite (action_active _ _ _ Ha). destruct (step_at _ _ d) as [s'|].
    + rewrite claims_step_action. naive_solver.
    + unfold claims. naive_solver.
  - unfold claims. destruct (action_inactive now r d Ha) as [->|[->| ->]]; naive_solver.
Qed.

Lemma advances_step_at now r d s :
  action_of now r d = AdvanceCursor s ↔
  run_active r = true ∧ step_at (run_id r) (run_cursor r) d = Some s ∧ st_status s = StepCompleted.
Proof.
  destruct (run_active r) eqn:Ha.
  - rewrite (action_active _ _ _ Ha). destruct (step_at _ _ d) as [s'|].
    + rewrite advances_step_action. naive_solver.
    + naive_solver.
  - destruct (action_inactive now r d Ha) as [->|[->| ->]]; naive_solver.
Qed.

Lemma completes_step_at now r d c :
  action_of now r d = CompleteRun c ↔
  run_active r = true ∧ step_at (run_id r) (run_cursor r) d = None ∧ c = run_cursor r.
Proof.
  destruct (run_active r) eqn:Ha.
  - rewrite (action_active _ _ _ Ha). destruct (step_at _ _ d) as [s'|].
    + split; [by intros ?%completes_step_action|naive_solver].
    + naive_solver.
  - destruct (action_inactive now r d Ha) as [->|[->| ->]]; naive_solver.
Qed.

Lemma step_check_kept d s : run_wf d → s ∈ steps_of d → step_check s = true.
Proof. intros Hwf Hs. destruct (wf_steps d Hwf) as [Hc _]. rewrite Forall_forall in Hc. by apply Hc. Qed.

Lemma claimed_check owner now expires s :
  step_check s = true → step_open s = true → step_check (claimed owner now expires s) = true.
Proof.
  unfold step_check, step_open. intros Hc Ho. cbn. rewrite !andb_true_iff in Hc.
  destruct Hc as [[[[H1 H2] _] _] H5]. rewrite H1. apply Z.leb_le in H2.
  replace (0 <=? st_attempt s + 1) with true by (symmetry; apply Z.leb_le; lia). cbn.
  destruct (st_status s); try done; cbn in H5; by destruct (bool_decide (st_completed_at s = None)).
Qed.

(** A claim commits with [true] exactly when the action says so. *)
Lemma claim_tx_iff rid sid owner now expires d r :
  run_wf d → find_run rid d = Some r →
  ∃ b d', claim_step_tx rid sid owner now expires d = Ok (b, d') ∧
    (b = true ↔ ∃ s, claims (action_of now r d) s ∧ st_step_id s = sid).
Proof.
  intros Hwf Hr. pose proof (run_of_id _ _ _ Hr) as Hid.
  assert (∀ s, s ∈ steps_of d → claimable rid sid now d s = true ↔
    claims (action_of now r d) s ∧ st_step_id s = sid) as Hiff.
  { intros s Hs. rewrite claimable_spec, claims_step_at, (step_at_wf _ _ _ _ Hwf), is_step_true, Hid, Hr.
    unfold step_pk, step_slot. split.
    - intros ([= H1 H2] & Hst & r' & [= <-] & Ha & Ho). split; [|done]. rewrite H1, Ho. by split_and!.
    - intros [(Ha & (_ & [= H1 H2]) & Hst) <-]. rewrite H1. split; [done|]. split; [done|]. by exists r. }
  destruct (existsb (claimable rid sid now d) (steps_of d)) eqn:He.
  - apply existsb_True in He as (s & Hs & Hc).
    pose proof Hc as (Hk & Hst & _)%claimable_spec.
    assert (step_open s = true) as Ho by (unfold step_open; destruct Hst as [-> | [-> _]]; done).
    destruct (step_then_run_commits rid sid (claimable rid sid now d) (claimed owner now expires) RunRunning now d s)
      as (d' & Htx & _); try done.
    + apply find_step_wf; [done|]. split; [done|by apply is_step_true].
    + by intros s' (? & _)%claimable_spec.
    + apply claimed_check; [by eapply step_check_kept|done].
    + exists true, d'. split; [done|]. split; [|done]. intros _. exists s. by apply Hiff.
  - rewrite existsb_False in He. eexists false, _. split.
    + unfold claim_step_tx. rewrite tx_get_bind. apply step_then_run_none; [apply Hwf|exact He].
    + split; [done|]. intros (s & Hc & Hsid). exfalso.
      pose proof Hc as (_ & [Hs _]%step_at_Some & _)%claims_step_at.
      specialize (He s Hs). assert (claimable rid sid now d s = true) by (by apply Hiff). congruence.
Qed.

Lemma count_run p f rid d r :
  run_wf d → find_run rid d = Some r → (∀ r', p r' = true → run_id r' = rid) →
  (∀ r', run_check r' = true → run_check (f r') = true) →
  ∃ d', update_runs p f d = Ok ((if p r then 1 else 0), d') ∧
    d' = set_runs (λ _, update_where p f (state_runs d)) d.
Proof.
  intros Hwf Hr Hp Hf. unfold update_runs. rewrite run_check_update; [|apply Hwf|done].
  eexists. split; [|done]. do 2 f_equal.
  apply (find_run_wf _ _ _ Hwf) in Hr as [Hr Hid].
  assert (0 ≤ count_where p (state_runs d) ≤ 1) as Hc.
  { apply (count_where_unique run_id rid); [apply Hwf|done]. }
  destruct (p r) eqn:Hpr.
  - assert (count_where p (state_runs d) ≠ 0); [|lia]. apply count_where_pos. by exists r.
  - destruct (decide (count_where p (state_runs d) = 0)) as [|Hne]; [done|].
    apply count_where_pos in Hne as (r' & Hr' & Hp').
    assert (r' = r) as ->; [|congruence]. eapply same_run; [done..|]. by rewrite Hid, (Hp r').
Qed.

Lemma advance_tx_eq rid expected at_ d r :
  run_wf d → find_run rid d = Some r →
  ∃ b d', advance_cursor_tx rid expected at_ d = Ok (b, d') ∧
    (b = true ↔ expected = run_cursor r ∧ run_active r = true ∧
       ∃ s, step_at rid (run_cursor r) d = Some s ∧ st_status s = StepCompleted) ∧
    (b = true → d' = set_runs (λ _, update_where (λ r, is_run rid r && (run_cursor r =? expected) && run_active r)
       (λ r, run_with RunPending (run_cursor r + 1) at_ r) (state_runs d)) d).
Proof.
  intros Hwf Hr. pose proof (run_of_id _ _ _ Hr) as Hid.
  unfold advance_cursor_tx. rewrite tx_get_bind. destruct (step_at rid expected d) as [s|] eqn:Hs.
  - case_bool_decide as Hc.
    + destruct (count_run (λ r, is_run rid r && (run_cursor r =? expected) && run_active r)
        (λ r, run_with RunPending (run_cursor r + 1) at_ r) rid d r) as (d' & Hu & Hd'); [done|done| | |].
      * by intros r' [[?%is_run_true _]%andb_true_iff _]%andb_true_iff.
      * intros r' [H1 H2]%andb_true_iff. apply andb_true_iff. cbn. split; [|done].
        apply Z.leb_le in H1. apply Z.leb_le. lia.
      * unfold tx_bind. rewrite Hu. eexists _, _. split; [reflexivity|].
        replace (is_run rid r) with true by (symmetry; by apply is_run_true). cbn [andb].
        split; [|done]. destruct (Z.eqb_spec (run_cursor r) expected) as [->|]; [|cbn; naive_solver].
        cbn [andb]. destruct (run_active r); cbn; naive_solver.
    + eexists _, _. split; [reflexivity|]. split; [|done]. split; [done|].
      intros (-> & _ & s' & Hs' & Hst). naive_solver.
  - eexists _, _. split; [reflexivity|]. split; [|done]. split; [done|].
    intros (-> & _ & s' & Hs' & Hst). naive_solver.
Qed.

Lemma complete_tx_eq rid expected at_ d r :
  run_wf d → find_run rid d = Some r →
  ∃ b d', complete_run_tx rid expected at_ d = Ok (b, d') ∧
    (b = true ↔ expected = run_cursor r ∧ run_active r = true ∧ step_at rid (run_cursor r) d = None) ∧
    (b = true → find_run rid d' = Some (run_to RunCompleted at_ r) ∧ steps_of d' = steps_of d).
Proof.
  intros Hwf Hr. pose proof (run_of_id _ _ _ Hr) as Hid.
  unfold complete_run_tx. rewrite tx_get_bind.
  assert (existsb (in_slot rid expected) (steps_of d) = false ↔ step_at rid expected d = None) as Hslot.
  { unfold step_at. rewrite existsb_False. split.
    - intros Hno. destruct (List.find _ _) eqn:Hf; [|done]. apply find_Some_elem in Hf as [Hin Hp].
      rewrite Hno in Hp; done.
    - intros Hf s Hs. by eapply find_None_elem. }
  set (p := λ r, _ && negb _).
  destruct (count_run p (run_to RunCompleted at_) rid d r) as (d' & Hu & Hd'); [done|done| |by intros|].
  { by intros r' [[[?%is_run_true _]%andb_true_iff _]%andb_true_iff _]%andb_true_iff. }
  assert (p r = true ↔ expected = run_cursor r ∧ run_active r = true ∧ step_at rid (run_cursor r) d = None) as Hp.
  { subst p. cbv beta. rewrite !andb_true_iff, negb_true_iff, Hslot, is_run_true, Z.eqb_eq. naive_solver. }
  unfold tx_bind. rewrite Hu. eexists _, _. split; [reflexivity|]. split.
  - rewrite <-Hp. by destruct (p r).
  - intros Hb. assert (p r = true) as Hpr by (by destruct (p r)). subst d'. split; [|done].
    unfold find_run. cbn. rewrite find_update.
    + change (List.find (is_run rid) (state_runs d)) with (find_run rid d). rewrite Hr. cbn. by rewrite Hpr.
    + intros r'. by destruct (p r').
Qed.

(** [next_safe_action] is exact: for every run it names the only
    transition of the run that can commit.  A claim of a step succeeds just
    when the action is to claim or reclaim that step, the cursor moves just
    when the action is to advance it, the run completes just when the action
    is to complete it at that cursor; in all other cases the transaction
    commits without effect and reports so. *)
Theorem next_action_exact rid now d r :
  run_wf d → find_run rid d = Some r →
  let a := action_of now r d in
  (∀ sid owner expires, ∃ b d', claim_step_tx rid sid owner now expires d = Ok (b, d') ∧
     (b = true ↔ ∃ s, claims a s ∧ st_step_id s = sid)) ∧
  (∀ expected at_, ∃ b d', advance_cursor_tx rid expected at_ d = Ok (b, d') ∧
     (b = true ↔ expected = run_cursor r ∧ ∃ s, a = AdvanceCursor s)) ∧
  (∀ expected at_, ∃ b d', complete_run_tx rid expected at_ d = Ok (b, d') ∧
     (b = true ↔ a = CompleteRun expected)).
Proof.
  intros Hwf Hr a. pose proof (run_of_id _ _ _ Hr) as Hid. split_and!.
  - intros sid owner expires. by apply claim_tx_iff.
  - intros expected at_. destruct (advance_tx_eq rid expected at_ d r Hwf Hr) as (b & d' & Htx & Hb & _).
    exists b, d'. split; [done|]. rewrite Hb. subst a. setoid_rewrite advances_step_at. rewrite Hid. naive_solver.
  - intros expected at_. destruct (complete_tx_eq rid expected at_ d r Hwf Hr) as (b & d' & Htx & Hb & _).
    exists b, d'. split; [done|]. rewrite Hb. subst a. rewrite completes_step_at, Hid. naive_solver.
Qed.

(** ** Recovery at startup *)

(** No transition is left that recovery could make by itself. *)
Definition settled (a : NextSafeAction) : Prop :=
  match a with AdvanceCursor _ | CompleteRun _ => False | _ => True end.

Lemma find_run_update p f id d :
  (∀ r, run_id (f r) = run_id r) →
  find_run id (set_runs (λ _, update_where p f (state_runs d)) d) =
    (λ r, if p r then f r else r) <$> find_run id d.
Proof.
  intros Hf. unfold find_run. cbn. apply find_update. intros r. destruct (p r); [|done].
  unfold is_run. by rewrite Hf.
Qed.

(** The effect of recovery on one run: nothing else changes. *)
Definition only_run (id : string) (d d' : Db) : Prop :=
  steps_of d' = steps_of d ∧ ∀ id', id' ≠ id → find_run id' d' = find_run id' d.

#[global] Instance only_run_preorder id : PreOrder (only_run id).
Proof.
  split; [by intros d|]. intros d1 d2 d3 [H1 H2] [H3 H4]. split; [congruence|].
  intros id' Hne. by rewrite H4, H2.
Qed.

Lemma advance_ok rid now d r :
  run_wf d → find_run rid d = Some r →
  (∃ s, action_of now r d = AdvanceCursor s) →
  ∃ d', advance_cursor rid (run_cursor r) now d = (Ok (run_with RunPending (run_cursor r + 1) now r), d') ∧
    run_wf d' ∧ only_run rid d d' ∧ find_run rid d' = Some (run_with RunPending (run_cursor r + 1) now r).
Proof.
  intros Hwf Hr [s Ha]. pose proof (run_of_id _ _ _ Hr) as Hid.
  apply advances_step_at in Ha as (Hact & Hs & Hst). rewrite Hid in Hs.
  destruct (advance_tx_eq rid (run_cursor r) now d r Hwf Hr) as (b & d' & Htx & Hb & Hd').
  assert (b = true) as -> by (apply Hb; eauto). specialize (Hd' eq_refl).
  set (p := λ r0 : RunRecord, is_run rid r0 && (run_cursor r0 =? run_cursor r) && run_active r0) in Hd'.
  assert (p r = true) as Hp.
  { subst p. cbv beta. rewrite Z.eqb_refl, Hact, (proj2 (is_run_true rid r)) by done. done. }
  assert (find_run rid d' = Some (run_with RunPending (run_cursor r + 1) now r)) as Hr'.
  { subst d'. rewrite find_run_update, Hr by done. cbn. by rewrite Hp. }
  exists d'. split_and!; [| |split|done].
  - unfold advance_cursor, op_bind, op_tx, transaction. rewrite Htx. unfold required_run. by rewrite Hr'.
  - by eapply advance_wf.
  - by subst d'.
  - intros id' Hne. subst d'. rewrite find_run_update by done.
    destruct (find_run id' d) as [r'|] eqn:Hr1; [|done]. cbn. destruct (p r') eqn:Hp'; [|done].
    exfalso. subst p. cbv beta in Hp'. apply andb_true_iff in Hp' as [[Hi%is_run_true _]%andb_true_iff _].
    apply run_of_id in Hr1. congruence.
Qed.

Lemma complete_ok rid now d r c :
  run_wf d → find_run rid d = Some r → action_of now r d = CompleteRun c →
  ∃ d', complete_run rid c now d = (Ok (run_to RunCompleted now r), d') ∧
    run_wf d' ∧ only_run rid d d' ∧ find_run rid d' = Some (run_to RunCompleted now r).
Proof.
  intros Hwf Hr Ha. pose proof (run_of_id _ _ _ Hr) as Hid.
  apply completes_step_at in Ha as (Hact & Hs & ->). rewrite Hid in Hs.
  destruct (complete_tx_eq rid (run_cursor r) now d r Hwf Hr) as (b & d' & Htx & Hb & Hd').
  assert (b = true) as -> by (by apply Hb). destruct (Hd' eq_refl) as [Hr' Hst'].
  assert (rows_le d d') as [_ Hle] by (eapply run_tx_rows; [apply rt_complete|done|exact Htx]).
  exists d'. split_and!; [|by eapply complete_wf|split; [done|]|done].
  - unfold complete_run, op_bind, op_tx, transaction. rewrite Htx. unfold required_run. by rewrite Hr'.
  - intros id' Hne. unfold complete_run_tx in Htx. rewrite tx_get_bind in Htx.
    apply tx_bind_ok in Htx as (n & d1 & (_ & -> & _)%update_runs_ok & Htx). unfold tx_ret in Htx. simplify_eq.
    rewrite find_run_update by done. destruct (find_run id' d) as [r'|] eqn:Hr1; [|done]. cbn.
    destruct (is_run _ r') eqn:Hi; [|done]. apply is_run_true in Hi. apply run_of_id in Hr1. congruence.
Qed.

Lemma recover_one_spec room now d r :
  run_wf d → find_run (run_id r) d = Some r →
  ∃ ts d', recover_one room now r (action_of now r d) d = (Ok ts, d') ∧
    run_wf d' ∧ only_run (run_id r) d d' ∧ (length ts ≤ room)%nat ∧
    ∃ r', find_run (run_id r) d' = Some r' ∧ ((length ts < room)%nat → settled (action_of now r' d')).
Proof.
  revert d r. induction room as [|room IH]; intros d r Hwf Hr; cbn [recover_one].
  { exists [], d. split_and!; [done..|]. exists r. split; [done|]. cbn. lia. }
  destruct (action_of now r d) as [s|s|s|s|s|s|c| | |] eqn:Ha;
    try (exists [], d; split_and!; [done..|cbn; lia|]; exists r; split; [done|]; intros _; by rewrite Ha).
  - destruct (advance_ok (run_id r) now d r Hwf Hr) as (d1 & Hadv & Hwf1 & Honly & Hr1); [by exists s|].
    set (r1 := run_with RunPending (run_cursor r + 1) now r) in *.
    destruct (IH d1 r1 Hwf1 Hr1) as (ts & d2 & Hrec & Hwf2 & Honly2 & Hlen & r2 & Hr2 & Hset).
    unfold op_bind. rewrite Hadv, next_safe_action_eq. unfold next_action. change (run_id r1) with (run_id r).
    rewrite Hr1. cbn [fmap option_fmap option_map].
    rewrite Hrec. eexists _, d2. split; [reflexivity|]. split; [done|].
    split; [by etransitivity|]. cbn [length]. split; [lia|]. exists r2. split; [done|]. intros ?. apply Hset. lia.
  - destruct (complete_ok (run_id r) now d r c Hwf Hr Ha) as (d1 & Hc & Hwf1 & Honly & Hr1).
    unfold op_bind. rewrite Hc. eexists _, d1. split; [reflexivity|]. split_and!; [done..|cbn; lia|].
    exists (run_to RunCompleted now r). split; [done|]. done.
Qed.

(** The action of a run depends on its row and the steps. *)
Lemma action_of_same now r d d' : steps_of d' = steps_of d → action_of now r d' = action_of now r d.
Proof. intros Hs. unfold action_of, step_at. by rewrite Hs. Qed.

Lemma recover_all_spec room now d rs :
  run_wf d → NoDup (map run_id rs) → (∀ r, r ∈ rs → find_run (run_id r) d = Some r) →
  ∃ ts d', recover_all room now (map (λ r, (r, action_of now r d)) rs) d = (Ok ts, d') ∧
    run_wf d' ∧ steps_of d' = steps_of d ∧ (length ts ≤ room)%nat ∧
    (∀ id, id ∉ map run_id rs → find_run id d' = find_run id d) ∧
    ((length ts < room)%nat → ∀ r, r ∈ rs →
       ∃ r', find_run (run_id r) d' = Some r' ∧ settled (action_of now r' d')).
Proof.
  revert room d. induction rs as [|r rs IH]; intros room d Hwf Hnd Hfind; cbn.
  { exists [], d. split_and!; [done..|cbn; lia|done|]. by intros _ r ?%elem_of_nil. }
  apply NoDup_cons in Hnd as [Hnew Hnd].
  destruct (recover_one_spec room now d r Hwf) as (ts & d1 & Hrec & Hwf1 & [Hst1 Hoth1] & Hlen & r1 & Hr1 & Hset);
    [apply Hfind; by left|].
  unfold op_bind at 1. rewrite Hrec. destruct (Nat.leb_spec room (length ts)) as [Hfull|Hroom].
  { exists ts, d1. split_and!; [done..| |lia]. intros id Hid. apply Hoth1. set_solver. }
  assert (map (λ r, (r, action_of now r d)) rs = map (λ r, (r, action_of now r d1)) rs) as ->.
  { apply map_ext. intros r'. by rewrite (action_of_same now r' d d1). }
  destruct (IH (room - length ts)%nat d1) as (more & d2 & Hrec2 & Hwf2 & Hst2 & Hlen2 & Hoth2 & Hset2); [done|done| |].
  { intros r' Hr'. rewrite Hoth1; [apply Hfind; by right|]. intros Heq. apply Hnew. rewrite <-Heq.
    by apply list_elem_of_fmap_2. }
  unfold op_bind. rewrite Hrec2. exists (ts ++ more), d2. rewrite length_app.
  split_and!; [done|done|congruence|lia| |].
  - intros id Hid. rewrite Hoth2, Hoth1; set_solver.
  - intros Hl r' [->|Hr']%elem_of_cons.
    + exists r1. rewrite Hoth2 by done. split; [done|]. rewrite (action_of_same now r1 d1 d2) by done. apply Hset. lia.
    + apply Hset2; [lia|done].
Qed.

Lemma with_actions_ok now d rs :
  (∀ r, r ∈ rs → find_run (run_id r) d = Some r) →
  with_actions now rs d = (Ok (map (λ r, (r, action_of now r d)) rs), d).
Proof.
  induction rs as [|r rs IH]; intros Hf; cbn; [done|]. unfold op_bind at 1.
  rewrite next_safe_action_eq. unfold next_action. rewrite Hf by left. cbn.
  unfold op_bind. rewrite IH; [done|]. intros r' Hr'. apply Hf. by right.
Qed.

(** C24: Recovery of completed transitions terminates without error and never
    touches a step, so it redispatches nothing: it records at most its limit
    of transitions, leaves every run that is not a candidate as it was, and
    unless the limit is reached leaves no candidate at a completed
    checkpoint or an empty cursor. *)
Theorem recovery_settles now candidate_limit transition_limit d :
  run_wf d →
  let candidates := take (clamp_nat 1 500 candidate_limit) (list_recoverable d) in
  ∃ ts d', recover_completed_transitions now candidate_limit transition_limit d = (Ok ts, d') ∧
    steps_of d' = steps_of d ∧ (length ts ≤ clamp_nat 1 2000 transition_limit)%nat ∧
    (∀ id, id ∉ map run_id candidates → find_run id d' = find_run id d) ∧
    ((length ts < clamp_nat 1 2000 transition_limit)%nat → ∀ r, r ∈ candidates →
       ∃ r', find_run (run_id r) d' = Some r' ∧ settled (action_of now r' d')).
Proof.
  intros Hwf candidates.
  assert (∀ r, r ∈ candidates → r ∈ state_runs d) as Hin.
  { intros r Hr. apply subseteq_take in Hr.
    unfold list_recoverable in Hr. rewrite merge_sort_Permutation in Hr.
    apply list_elem_of_In, filter_In in Hr as [Hr _]. by apply list_elem_of_In. }
  assert (∀ r, r ∈ candidates → find_run (run_id r) d = Some r) as Hf.
  { intros r Hr. apply find_run_wf; [done|]. by split; [apply Hin|]. }
  assert (NoDup (map run_id candidates)) as Hnd.
  { subst candidates. rewrite <-firstn_map. eapply sublist_NoDup; [|apply sublist_take].
    unfold list_recoverable. rewrite merge_sort_Permutation.
    pose proof (wf_runs d Hwf) as Hnd. revert Hnd. generalize (state_runs d) as l. clear.
    intros l. induction l as [|r l IH]; cbn; [done|]. intros [Hr Hnd]%NoDup_cons.
    destruct (run_active r); [|by apply IH]. apply NoDup_cons. split; [|by apply IH].
    intros Hin. apply Hr. apply list_elem_of_fmap in Hin as (r' & Hid & Hin). rewrite Hid.
    apply list_elem_of_fmap_2. apply list_elem_of_In, filter_In in Hin as [Hin _]. by apply list_elem_of_In. }
  destruct (recover_all_spec (clamp_nat 1 2000 transition_limit) now d candidates Hwf Hnd Hf)
    as (ts & d' & Hrec & _ & Hst & Hlen & Hoth & Hset).
  exists ts, d'. split; [|by split_and!].
  unfold recover_completed_transitions, recovery_candidates, op_bind, op_get. fold candidates.
  by rewrite with_actions_ok.
Qed.

(** ** Liveness: a worker that does what it is told *)

(** One round of a worker: it asks for the next safe action of the run and
    performs it; a step it claims, it completes. *)
Definition drive (rid owner : string) (now expires : Z) (output : option string) : op () :=
  do* a := next_safe_action rid now in
  match a with
  | Claim s | ReclaimExpired s =>
      do* _ := claim_step rid (st_step_id s) owner now expires in
      do* _ := complete_step rid (st_step_id s) owner output now in op_ret ()
  | AdvanceCursor _ =>
      do* r := required_run rid in
      do* _ := advance_cursor rid (run_cursor r) now in op_ret ()
  | CompleteRun c => do* _ := complete_run rid c now in op_ret ()
  | _ => op_ret ()
  end.

Fixpoint drive_n (n : nat) (rid owner : string) (now expires : Z) (output : option string) : op () :=
  match n with
  | O => op_ret ()
  | S n => do* _ := drive rid owner now expires output in drive_n n rid owner now expires output
  end.

(** The clock was not observed later than [now]. *)
Definition clock_ok (rid : string) (now : Z) (d : Db) : Prop :=
  0 ≤ now ∧ match budget_of rid d with Some b => seconds (eb_updated_at_ms b) ≤ now | None => True end.

(** The run is active, none of its steps waits for anybody, the leases of lost
    workers on its steps have ended, and the clock is not behind the run's
    budget. *)
Record drivable (rid : string) (now : Z) (d : Db) (r : RunRecord) : Prop := {
  dr_run : find_run rid d = Some r;
  dr_active : run_active r = true;
  dr_clock : clock_ok rid now d;
  dr_steps : ∀ s, s ∈ steps_of d → st_run_id s = rid →
    st_status s ≠ StepWaiting ∧ (st_status s = StepRunning → lease_ended now s = true)
}.

(** What is left to do at a step from a cursor on: run it and pass it, or
    only pass it. *)
Definition work (rid : string) (cursor : Z) (s : RunStepRecord) : nat :=
  if String.eqb (st_run_id s) rid && (cursor <=? st_ordinal s)
  then if bool_decide (st_status s = StepCompleted) then 1%nat else 2%nat else 0%nat.

Definition remaining (rid : string) (r : RunRecord) (d : Db) : nat :=
  sum_list_with (work rid (run_cursor r)) (steps_of d).

Lemma sum_map_le {A} (f g : A → nat) (l : list A) :
  (∀ x, x ∈ l → (g x ≤ f x)%nat) → (sum_list_with g l ≤ sum_list_with f l)%nat.
Proof.
  induction l as [|y l IH]; cbn; intros Hle; [lia|].
  assert (g y ≤ f y)%nat by (apply Hle; by left).
  assert (sum_list_with g l ≤ sum_list_with f l)%nat by (apply IH; intros; apply Hle; by right). lia.
Qed.

Lemma sum_map_lt {A} (f g : A → nat) (l : list A) x :
  (∀ x, x ∈ l → (g x ≤ f x)%nat) → x ∈ l → (g x < f x)%nat →
  (sum_list_with g l < sum_list_with f l)%nat.
Proof.
  intros Hle Hx Hlt. induction Hx as [x l|x y l Hx IH]; cbn.
  - assert (sum_list_with g l ≤ sum_list_with f l)%nat by (apply sum_map_le; intros; apply Hle; by right). lia.
  - assert (g y ≤ f y)%nat by (apply Hle; by left).
    assert (sum_list_with g l < sum_list_with f l)%nat; [|lia]. apply IH; [|done]. intros z Hz. apply Hle. by right.
Qed.

Lemma sum_list_with_map {A B} (f : B → nat) (g : A → B) l :
  sum_list_with f (map g l) = sum_list_with (λ x, f (g x)) l.
Proof. induction l as [|x l IH]; cbn; [done|]. by rewrite IH. Qed.

Lemma observe_second_ok rid now d :
  clock_ok rid now d →
  ∃ d0, observe_execution_budget_at_second rid now d = (Ok (), d0) ∧
    state_runs d0 = state_runs d ∧ steps_of d0 = steps_of d ∧ clock_ok rid now d0.
Proof.
  intros [Hnow Hb]. unfold observe_execution_budget_at_second, op_tx, transaction, observe_at_second_tx.
  destruct (budget_of rid d) as [b|] eqn:Hbud.
  - destruct (Z.ltb_spec now (seconds (eb_updated_at_ms b))); [lia|]. eexists. split; [reflexivity|].
    split; [done|]. split; [done|]. split; [done|]. rewrite budget_of_set, decide_True by done.
    unfold seconds, observed_at, i64_saturating_mul, i64_min, i64_max in *. cbn [eb_updated_at_ms].
    assert (Z.max (eb_updated_at_ms b) (Z.max (- 2 ^ 63) (Z.min (2 ^ 63 - 1) (now * 1000))) < (now + 1) * 1000) as Hlt.
    { assert (eb_updated_at_ms b < (now + 1) * 1000); [|lia].
      pose proof (Z.mul_succ_div_gt (eb_updated_at_ms b) 1000 ltac:(lia)). lia. }
    apply Z.lt_succ_r, Z.div_lt_upper_bound; lia.
  - exists d. split; [done|]. split; [done|]. split; [done|]. split; [done|]. by rewrite Hbud.
Qed.

Lemma clock_ok_same rid now d d' :
  execution_budgets (run_tables d') = execution_budgets (run_tables d) → clock_ok rid now d → clock_ok rid now d'.
Proof. intros Hb. unfold clock_ok, budget_of. by rewrite Hb. Qed.

Lemma step_then_run_budgets rid p f fr d b d' :
  step_then_run rid p f fr d = Ok (b, d') →
  execution_budgets (run_tables d') = execution_budgets (run_tables d).
Proof.
  unfold step_then_run. intros Htx. apply tx_bind_ok in Htx as (n & d1 & (_ & -> & _)%update_steps_ok & Htx).
  destruct (n =? 1); [|unfold tx_ret in Htx; by simplify_eq].
  apply tx_bind_ok in Htx as (m & d2 & (_ & -> & _)%update_runs_ok & Htx). unfold tx_ret in Htx. by simplify_eq.
Qed.

Lemma find_run_map rid (fr : RunRecord → RunRecord) d d' r :
  state_runs d' = map (λ r, if is_run rid r then fr r else r) (state_runs d) →
  (∀ r, run_id (fr r) = run_id r) → find_run rid d = Some r → find_run rid d' = Some (fr r).
Proof.
  intros Hm Hid Hr. unfold find_run. rewrite Hm.
  change (map (λ r, if is_run rid r then fr r else r) (state_runs d)) with
    (update_where (is_run rid) fr (state_runs d)).
  rewrite find_update.
  - change (List.find (is_run rid) (state_runs d)) with (find_run rid d). rewrite Hr. cbn.
    by rewrite (proj2 (is_run_true rid r)) by by apply run_of_id in Hr.
  - intros r'. destruct (is_run rid r') eqn:Hi; [|done]. unfold is_run in *. by rewrite Hid.
Qed.

(** The only step row that changes. *)
Definition rewrites (s s' : RunStepRecord) (d d' : Db) : Prop :=
  ∃ g, steps_of d' = map g (steps_of d) ∧ g s = s' ∧ ∀ x, x ∈ steps_of d → x ≠ s → g x = x.

Lemma rewrites_where (p : RunStepRecord → bool) (f : RunStepRecord → RunStepRecord) s d d' :
  steps_of d' = map (λ x, if p x then f x else x) (steps_of d) → p s = true →
  (∀ x, x ∈ steps_of d → p x = true → x = s) → rewrites s (f s) d d'.
Proof.
  intros Hst Hp Huniq. eexists. split; [exact Hst|]. cbv beta. rewrite Hp. split; [done|].
  intros x Hx Hne. destruct (p x) eqn:Hpx; [|done]. destruct Hne. by apply Huniq.
Qed.

Lemma rewrites_trans s1 s2 s3 d1 d2 d3 :
  run_wf d1 → s1 ∈ steps_of d1 → step_pk s2 = step_pk s1 →
  rewrites s1 s2 d1 d2 → rewrites s2 s3 d2 d3 → rewrites s1 s3 d1 d3.
Proof.
  intros Hwf Hs1 Hpk (g & Hst & Hg & Hsame) (g' & Hst' & Hg' & Hsame').
  exists (λ x, g' (g x)). split; [by rewrite Hst', Hst, map_map|]. split; [congruence|].
  intros x Hx Hne. rewrite Hsame by done. apply Hsame'.
  - rewrite Hst. apply list_elem_of_fmap. exists x. by rewrite Hsame.
  - intros ->. apply Hne. by apply (same_pk d1).
Qed.

(** The claim the worker was told to make goes through. *)
Lemma claim_now rid owner now expires d r s :
  run_wf d → find_run rid d = Some r → clock_ok rid now d → now < expires → claims (action_of now r d) s →
  ∃ d', claim_step rid (st_step_id s) owner now expires d = (Ok (claimed owner now expires s), d') ∧
    run_wf d' ∧ find_run rid d' = Some (run_to RunRunning now r) ∧ clock_ok rid now d' ∧
    rewrites s (claimed owner now expires s) d d'.
Proof.
  intros Hwf Hr Hclk Hexp Hc. set (sid := st_step_id s). pose proof (run_of_id _ _ _ Hr) as Hid.
  pose proof Hc as (_ & Hat & _)%claims_step_at. rewrite Hid in Hat.
  apply (step_at_wf _ _ _ _ Hwf) in Hat as [Hs Hslot].
  assert (step_pk s = (rid, sid)) as Hpk by (unfold step_pk, step_slot in *; subst sid; congruence).
  destruct (observe_second_ok rid now d Hclk) as (d0 & Hobs & Hruns0 & Hst0 & Hclk0).
  assert (run_wf d0) as Hwf0 by (by eapply wf_same).
  assert (find_run rid d0 = Some r) as Hr0 by (unfold find_run; by rewrite Hruns0).
  destruct (claim_tx_iff rid sid owner now expires d0 r Hwf0 Hr0) as (b & d1 & Htx & Hb).
  assert (b = true) as ->.
  { apply Hb. exists s. by rewrite (action_of_same now r d d0). }
  pose proof (step_then_run_budgets _ _ _ _ _ _ _ Htx) as Hbud1.
  destruct (step_then_run_cases rid sid _ _ _ _ _ _ Hwf0 Htx) as
    [(? & _)|(_ & s0 & Hs0 & Hp0 & Hpk0 & Hst1 & Hruns1 & _)]; [by intros s' (? & _)%claimable_spec|done|].
  rewrite Hst0 in Hs0, Hst1. assert (s0 = s) as -> by (eapply (same_pk d); [done..|congruence]).
  assert (run_wf d1) as Hwf1 by (by eapply claim_wf).
  exists d1. split_and!; [|done| |by eapply clock_ok_same|].
  - assert (find_step rid sid d1 = Some (claimed owner now expires s)) as Hf.
    { apply find_step_wf; [done|]. split; [|done]. rewrite Hst1. apply list_elem_of_fmap. exists s. by rewrite Hp0. }
    unfold claim_step. unfold op_bind at 1. rewrite Hobs. destruct (Z.leb_spec expires now); [lia|].
    unfold op_bind, op_tx, transaction. rewrite Htx. unfold required_step. by rewrite Hf.
  - by eapply (find_run_map rid (run_to RunRunning now)).
  - eapply rewrites_where; [exact Hst1|exact Hp0|]. intros x Hx (Hk%is_step_true & _)%claimable_spec.
    apply (same_pk d); [done..|congruence].
Qed.

(** The holder of a lease completes its step. *)
Lemma complete_now rid sid owner now output d r s :
  run_wf d → find_run rid d = Some r → find_step rid sid d = Some s → leased_by owner s = true →
  clock_ok rid now d →
  ∃ d', complete_step rid sid owner output now d = (Ok (closed StepCompleted output now s), d') ∧
    run_wf d' ∧ find_run rid d' = Some (run_to RunRunning now r) ∧ clock_ok rid now d' ∧
    rewrites s (closed StepCompleted output now s) d d'.
Proof.
  intros Hwf Hr Hs Hl Hclk. pose proof Hs as [Hin Hpk]%find_step_Some.
  set (p := λ x : RunStepRecord, is_step rid sid x && leased_by owner x).
  assert (∀ x, p x = true → is_step rid sid x = true) as Hkey by (by intros x [? _]%andb_true_iff).
  assert (p s = true) as Hp by (apply andb_true_iff; split; [by apply is_step_true|done]).
  destruct (step_then_run_commits rid sid p (closed StepCompleted output now) RunRunning now d s)
    as (d' & Htx & Hs'); try done.
  { pose proof (step_check_kept _ _ Hwf Hin) as Hck.
    unfold step_check in *. cbn. by destruct (0 <=? st_ordinal s), (0 <=? st_attempt s). }
  pose proof (step_then_run_budgets _ _ _ _ _ _ _ Htx) as Hbud.
  destruct (step_then_run_cases rid sid _ _ _ _ _ _ Hwf Htx Hkey) as [(? & _)|(_ & s2 & _ & _ & _ & Hst & Hruns & _)];
    [done|].
  exists d'. split_and!; [| | |by eapply clock_ok_same|].
  - unfold complete_step, finish_step, op_bind, op_tx, transaction.
    change (finish_step_tx rid sid owner StepCompleted output now d) with
      (step_then_run rid p (closed StepCompleted output now) (run_to RunRunning now) d).
    rewrite Htx. unfold required_step. by rewrite Hs'.
  - eapply (finish_wf rid sid owner StepCompleted output now); [by left|exact Hwf|exact Htx].
  - by eapply (find_run_map rid (run_to RunRunning now)).
  - eapply rewrites_where; [exact Hst|exact Hp|]. intros x Hx Hk%Hkey%is_step_true.
    apply (same_pk d); [done..|congruence].
Qed.

(** The claim and the completion of the step the worker was told to run. *)
Lemma step_done rid owner now expires output d r s :
  run_wf d → drivable rid now d r → now < expires → claims (action_of now r d) s →
  ∃ d', (do* _ := claim_step rid (st_step_id s) owner now expires in
         do* _ := complete_step rid (st_step_id s) owner output now in op_ret ()) d = (Ok (), d') ∧
    run_wf d' ∧ find_run rid d' = Some (run_to RunRunning now r) ∧ clock_ok rid now d' ∧
    rewrites s (closed StepCompleted output now (claimed owner now expires s)) d d'.
Proof.
  intros Hwf Hdr Hexp Hc. pose proof (run_of_id _ _ _ (dr_run _ _ _ _ Hdr)) as Hid.
  pose proof Hc as (_ & [Hs Hslot]%step_at_Some & _)%claims_step_at. rewrite Hid in Hslot.
  destruct (claim_now rid owner now expires d r s) as (d1 & Hclaim & Hwf1 & Hr1 & Hclk1 & Hrw1);
    [done|apply Hdr|apply Hdr|done..|].
  destruct (claim_step_inv _ _ _ _ _ _ _ _ Hwf Hclaim) as (_ & Hs1 & Hrun1 & Hown1 & _).
  destruct (complete_now rid (st_step_id s) owner now output d1 _ _ Hwf1 Hr1 Hs1) as
    (d2 & Hcomp & Hwf2 & Hr2 & Hclk2 & Hrw2); [by apply leased_by_true|done|].
  exists d2. split; [unfold op_bind; by rewrite Hclaim, Hcomp|]. split; [done|]. split; [done|]. split; [done|].
  eapply rewrites_trans; [exact Hwf|exact Hs| |exact Hrw1|exact Hrw2]. done.
Qed.

Lemma work_map_le rid c s (g : RunStepRecord → RunStepRecord) :
  step_slot (g s) = step_slot s → (st_status s = StepCompleted → st_status (g s) = StepCompleted) →
  (work rid c (g s) ≤ work rid c s)%nat.
Proof.
  unfold work, step_slot. intros [= -> ->] Hst. destruct (String.eqb _ _ && _); [|done].
  do 2 case_bool_decide; try lia. naive_solver.
Qed.

Lemma work_open rid c s :
  step_slot s = (rid, c) → st_status s ≠ StepCompleted → work rid c s = 2%nat.
Proof. unfold work, step_slot. intros [= -> ->] Hst. by rewrite String.eqb_refl, Z.leb_refl, bool_decide_false. Qed.

Lemma work_done rid c s :
  step_slot s = (rid, c) → st_status s = StepCompleted → work rid c s = 1%nat.
Proof. unfold work, step_slot. intros [= -> ->] Hst. by rewrite String.eqb_refl, Z.leb_refl, bool_decide_true. Qed.

(** A claimed and completed step is one unit less to do. *)
Lemma step_done_progress rid owner now expires output d r s :
  run_wf d → drivable rid now d r → now < expires → claims (action_of now r d) s →
  ∃ d' r', (do* _ := claim_step rid (st_step_id s) owner now expires in
            do* _ := complete_step rid (st_step_id s) owner output now in op_ret ()) d = (Ok (), d') ∧
    run_wf d' ∧ drivable rid now d' r' ∧ (remaining rid r' d' < remaining rid r d)%nat.
Proof.
  intros Hwf Hdr Hexp Hc.
  destruct (step_done rid owner now expires output d r s) as
    (d' & Hop & Hwf' & Hr' & Hclk & g & Hg & Hgs & Hsame); [done..|].
  assert (st_status (g s) = StepCompleted) as Hdone by (by rewrite Hgs).
  assert (step_slot (g s) = step_slot s) as Hslot' by (by rewrite Hgs).
  pose proof (run_of_id _ _ _ (dr_run _ _ _ _ Hdr)) as Hid.
  pose proof Hc as (Hact & Hat & Hopen)%claims_step_at. rewrite Hid in Hat.
  pose proof Hat as [Hs Hslot]%step_at_Some.
  exists d', (run_to RunRunning now r). split; [exact Hop|]. split; [done|]. split.
  - split; [done|done|done|]. intros x Hx Hxid. rewrite Hg in Hx.
    apply list_elem_of_fmap in Hx as (y & -> & Hy). destruct (decide (y = s)) as [->|Hne].
    + rewrite Hdone. by split.
    + rewrite (Hsame y Hy Hne) in *. by apply (dr_steps _ _ _ _ Hdr).
  - unfold remaining. cbn [run_cursor run_to run_with]. rewrite Hg, sum_list_with_map.
    apply sum_map_lt with (x := s); [|done|].
    + intros y Hy. destruct (decide (y = s)) as [->|Hne]; [by apply work_map_le|by rewrite (Hsame y Hy Hne)].
    + rewrite (work_open _ _ s) by (done || (destruct Hopen as [-> | [-> _]]; done)).
      rewrite (work_done rid (run_cursor r) (g s)); [lia|congruence|done].
Qed.

Lemma advance_progress rid now d r s :
  run_wf d → drivable rid now d r → action_of now r d = AdvanceCursor s →
  ∃ d' r', (do* r := required_run rid in
            do* _ := advance_cursor rid (run_cursor r) now in op_ret ()) d = (Ok (), d') ∧
    run_wf d' ∧ drivable rid now d' r' ∧ (remaining rid r' d' < remaining rid r d)%nat.
Proof.
  intros Hwf Hdr Ha. pose proof (dr_run _ _ _ _ Hdr) as Hr. pose proof (run_of_id _ _ _ Hr) as Hid.
  pose proof Ha as (Hact & Hat & Hst)%advances_step_at. rewrite Hid in Hat.
  pose proof Hat as [Hs Hslot]%step_at_Some.
  destruct (advance_ok rid now d r Hwf Hr) as (d' & Hadv & Hwf' & [Hsteps _] & Hr'); [by exists s|].
  exists d', (run_with RunPending (run_cursor r + 1) now r). split.
  { unfold op_bind, required_run. rewrite Hr. cbv beta iota. by rewrite Hadv. }
  split; [done|]. split.
  - split; [done|done| |rewrite Hsteps; apply Hdr].
    pose proof (dr_clock _ _ _ _ Hdr) as Hclk. revert Hclk. apply clock_ok_same.
    unfold advance_cursor, op_bind, op_tx, transaction in Hadv.
    destruct (advance_cursor_tx rid (run_cursor r) now d) as [[b d1]|] eqn:Htx; [|done].
    assert (execution_budgets (run_tables d1) = execution_budgets (run_tables d)) as Hb.
    { unfold advance_cursor_tx in Htx. rewrite tx_get_bind in Htx. rewrite Hat, bool_decide_true in Htx by done.
      apply tx_bind_ok in Htx as (n & d2 & (_ & -> & _)%update_runs_ok & Htx). unfold tx_ret in Htx. by simplify_eq. }
    destruct b; [|unfold run_error, op_bind, required_run in Hadv; by destruct (find_run rid d1)].
    unfold required_run in Hadv. destruct (find_run rid d1); by simplify_eq.
  - unfold remaining. cbn [run_cursor run_with]. rewrite Hsteps. apply sum_map_lt with (x := s); [|done|].
    + intros y _. unfold work. destruct (String.eqb _ _); cbn [andb]; [|done].
      destruct (Z.leb_spec (run_cursor r + 1) (st_ordinal y)), (Z.leb_spec (run_cursor r) (st_ordinal y)); lia.
    + rewrite (work_done rid (run_cursor r) s) by done. unfold work. unfold step_slot in Hslot.
      injection Hslot as -> ->. destruct (Z.leb_spec (run_cursor r + 1) (run_cursor r)); [lia|].
      rewrite andb_false_r. lia.
Qed.

(** Every round of the worker completes the run or leaves less to do. *)
Lemma drive_progress rid owner now expires output d r :
  run_wf d → drivable rid now d r → now < expires →
  ∃ d' r', drive rid owner now expires output d = (Ok (), d') ∧ run_wf d' ∧ find_run rid d' = Some r' ∧
    (run_status r' = RunCompleted ∨
     (drivable rid now d' r' ∧ (remaining rid r' d' < remaining rid r d)%nat)).
Proof.
  intros Hwf Hdr Hexp. pose proof (dr_run _ _ _ _ Hdr) as Hr. pose proof (run_of_id _ _ _ Hr) as Hid.
  unfold drive. unfold op_bind at 1. rewrite next_safe_action_eq. unfold next_action. rewrite Hr. cbn [fmap option_fmap option_map].
  destruct (step_at (run_id r) (run_cursor r) d) as [s|] eqn:Hat; cycle 1.
  { assert (action_of now r d = CompleteRun (run_cursor r)) as Ha.
    { apply completes_step_at. split_and!; [apply Hdr|done|done]. }
    destruct (complete_ok rid now d r _ Hwf Hr Ha) as (d' & Hc & Hwf' & _ & Hr').
    exists d', (run_to RunCompleted now r). rewrite Ha. unfold op_bind. rewrite Hc. split_and!; [done..|by left]. }
  assert (action_of now r d = step_action now s) as Ha.
  { rewrite action_active by apply Hdr. by rewrite Hat. }
  rewrite Hid in Hat. pose proof Hat as [Hs Hslot]%step_at_Some.
  assert (st_run_id s = rid) as Hsid by (unfold step_slot in Hslot; congruence).
  destruct (dr_steps _ _ _ _ Hdr s Hs Hsid) as [Hnw Hexpd].
  assert (∀ d', (∃ r', run_wf d' ∧ drivable rid now d' r' ∧ (remaining rid r' d' < remaining rid r d)%nat) →
    ∃ r', run_wf d' ∧ find_run rid d' = Some r' ∧
    (run_status r' = RunCompleted ∨
     (drivable rid now d' r' ∧ (remaining rid r' d' < remaining rid r d)%nat))) as Hwrap.
  { intros d' (r' & ? & Hd & ?). exists r'. split_and!; [done|apply Hd|by right]. }
  assert (claims (action_of now r d) s → ∃ d' r', (do* _ := claim_step rid (st_step_id s) owner now expires in
            do* _ := complete_step rid (st_step_id s) owner output now in op_ret ()) d = (Ok (), d') ∧
    run_wf d' ∧ drivable rid now d' r' ∧ (remaining rid r' d' < remaining rid r d)%nat) as Hclaim.
  { intros Hc. by apply step_done_progress. }
  rewrite Ha in Hclaim |- *. unfold step_action in *. destruct (st_status s) eqn:Hst.
  - destruct Hclaim as (d' & r' & Hop & Hrest); [by left|]. exists d'.
    destruct (Hwrap d') as (r2 & ? & ? & ?); [by exists r'|]. by exists r2.
  - rewrite Hexpd in Hclaim |- * by done. destruct Hclaim as (d' & r' & Hop & Hrest); [by right|]. exists d'.
    destruct (Hwrap d') as (r2 & ? & ? & ?); [by exists r'|]. by exists r2.
  - done.
  - destruct (advance_progress rid now d r s Hwf Hdr Ha) as (d' & r' & Hop & Hrest). exists d'.
    destruct (Hwrap d') as (r2 & ? & ? & ?); [by exists r'|]. by exists r2.
  - exfalso. destruct (wf_step_run d Hwf s Hs) as (r' & Hr'in & Hr'id & Hok).
    assert (r' = r) as -> by (apply find_run_Some in Hr as [? ?]; eapply same_run; [done..|congruence]).
    unfold step_run_ok in Hok. rewrite Hst in Hok. pose proof (dr_active _ _ _ _ Hdr). congruence.
Qed.

Lemma drive_completed rid owner now expires output d r :
  find_run rid d = Some r → run_status r = RunCompleted → drive rid owner now expires output d = (Ok (), d).
Proof.
  intros Hr Hst. unfold drive, op_bind. rewrite next_safe_action_eq. unfold next_action. rewrite Hr. cbn.
  unfold action_of. by rewrite Hst.
Qed.

Definition own_steps (rid : string) (d : Db) : list RunStepRecord :=
  List.filter (λ s, String.eqb (st_run_id s) rid) (steps_of d).

Lemma remaining_bound rid r d : (remaining rid r d ≤ 2 * length (own_steps rid d))%nat.
Proof.
  unfold remaining, own_steps. induction (steps_of d) as [|s l IH]; [done|]. cbn [List.filter sum_list_with].
  unfold work at 1. destruct (String.eqb _ _); cbn [length andb]; [|lia].
  destruct (_ <=? _); [case_bool_decide|]; lia.
Qed.

Lemma drive_completes n rid owner now expires output d r :
  run_wf d → drivable rid now d r → now < expires → (remaining rid r d < n)%nat →
  ∃ d' r', drive_n n rid owner now expires output d = (Ok (), d') ∧
    find_run rid d' = Some r' ∧ run_status r' = RunCompleted.
Proof.
  revert d r. induction n as [|n IH]; intros d r Hwf Hdr Hexp Hn; [lia|]. cbn [drive_n].
  destruct (drive_progress rid owner now expires output d r Hwf Hdr Hexp) as (d1 & r1 & Hd & Hwf1 & Hr1 & Hor).
  unfold op_bind. rewrite Hd. destruct Hor as [Hc|[Hdr1 Hlt]].
  - exists d1, r1. split; [|done]. clear IH Hn Hd. induction n as [|n IHn]; cbn; [done|].
    unfold op_bind. by rewrite (drive_completed rid owner now expires output d1 r1).
  - apply (IH d1 r1); [done..|lia].
Qed.

(** C21: A run that can be driven gets done: from any reachable state in which
    the run is active, none of its steps waits for an approval, the leases of
    lost workers on its steps have ended and the clock is not behind the one
    its budget was charged at, a single worker that repeatedly performs the
    next safe action (completing the steps it claims) needs at most twice the
    number of this run's steps and one more round to bring the run to
    completed, and no operation it performs fails. *)
Theorem worker_completes_run d0 d rid owner now expires output r :
  state_runs d0 = [] → steps_of d0 = [] → rtc worker_step d0 d →
  drivable rid now d r → now < expires →
  ∃ d' r', drive_n (2 * length (own_steps rid d) + 1) rid owner now expires output d = (Ok (), d') ∧
    find_run rid d' = Some r' ∧ run_status r' = RunCompleted.
Proof.
  intros Hr0 Hs0 Hsteps Hdr Hexp. destruct (worker_steps_rows d0 d) as [Hwf _]; [by apply empty_wf|done|].
  eapply drive_completes; [done|done|done|]. pose proof (remaining_bound rid r d). lia.
Qed.

(** ** Concrete runs *)

Definition toy_run : RunRecord := new_run_row "r" toy_new_run.
Definition toy_running : RunRecord := run_to RunRunning 120 toy_run.

Lemma toy_done_wf : run_wf toy_done_db.
Proof.
  eapply run_steps_wf; [apply toy_claim_wf|]. apply worker_steps_run, rtc_once.
  apply (call_step (complete_step "r" "s0" "w1" (Some "out") 120)), sc_complete_step.
Qed.

Lemma toy_drivable : drivable "r" 110 toy_steps_db toy_run.
Proof.
  split; [by vm_compute|done|by split; [|vm_compute]|].
  assert (Forall (λ s, st_status s = StepPending) (steps_of toy_steps_db)) as Hall
    by (apply (bool_decide_unpack _); by vm_compute).
  intros s Hs _. rewrite Forall_forall in Hall. by rewrite (Hall s Hs).
Qed.

(** Once the first step is completed the cursor may move, and only from 0. *)
Lemma next_action_exact_witness :
  ∃ d', advance_cursor_tx "r" 0 130 toy_done_db = Ok (true, d').
Proof.
  destruct (next_action_exact "r" 130 toy_done_db toy_running) as (_ & Hadv & _).
  - apply toy_done_wf.
  - by vm_compute.
  - destruct (Hadv 0 130) as (b & d' & Htx & Hb). exists d'.
    assert (b = true) as ->; [|exact Htx]. apply Hb. split; [done|]. exists toy_done. by vm_compute.
Defined.

(** A restart after the first step moves the cursor to the second. *)
Lemma recovery_settles_witness :
  ∃ ts d', recover_completed_transitions 130 10 10 toy_done_db = (Ok ts, d') ∧
    steps_of d' = steps_of toy_done_db.
Proof.
  destruct (recovery_settles 130 10 10 toy_done_db) as (ts & d' & Hrec & Hst & _).
  - apply toy_done_wf.
  - exists ts, d'. split; [exact Hrec|exact Hst].
Defined.

Lemma worker_completes_run_witness :
  ∃ d' r', drive_n (2 * length (own_steps "r" toy_steps_db) + 1) "r" "w" 110 200 (Some "out") toy_steps_db = (Ok (), d') ∧
    find_run "r" d' = Some r' ∧ run_status r' = RunCompleted.
Proof.
  apply (worker_completes_run toy_start toy_steps_db "r" "w" 110 200 (Some "out") toy_run).
  - done.
  - done.
  - etransitivity; [apply toy_created_reached|apply toy_steps_reached].
  - apply toy_drivable.
  - lia.
Defined.
