(* ===== verification/ChildGraph.v ===== *)
(** * Dependencies between child tasks

    [child_dependency_cycle] ([crates/core/src/runs.rs]): the depth-first
    search that refuses a new child task whose dependencies would close a
    cycle among its siblings. *)

From stdpp Require Import relations.
From S2P Require Import Prelude.

(** ** The search *)

Notation dep_graph := (gmap string (list string)).

Definition deps (g : dep_graph) (n : string) : list string := default [] (g !! n).

(** [graph.contains_key] *)
Definition has_node (g : dep_graph) (n : string) : bool := bool_decide (is_Some (g !! n)).

(** What a call of [visit] leaves: a cycle, or the set [complete].  [active]
    is restored by [pop] on the way out, so it is passed by value. *)
Inductive visited : Type :=
| Cycle (c : list string)
| Done (complete : gset string).

(** The loop over the dependencies of [node], with the recursive call. *)
Fixpoint visit_deps (go : gset string → string → option visited) (g : dep_graph) (node : string)
    (ds : list string) (complete : gset string) : option visited :=
  match ds with
  | [] => Some (Done ({[node]} ∪ complete))
  | d :: ds =>
      if has_node g d
      then match go complete d with
           | Some (Done complete) => visit_deps go g node ds complete
           | r => r
           end
      else visit_deps go g node ds complete
  end.

(** [fuel] bounds the depth of the recursion; [None] is running out of it. *)
Fixpoint visit (fuel : nat) (g : dep_graph) (active : list string) (complete : gset string)
    (node : string) : option visited :=
  match position (λ entry, String.eqb entry node) active with
  | Some i => Some (Cycle (drop i active ++ [node]))
  | None =>
      if bool_decide (node ∈ complete) then Some (Done complete)
      else match fuel with
           | O => None
           | S fuel => visit_deps (visit fuel g (active ++ [node])) g node (deps g node) complete
           end
  end.

(** The loop over [graph.keys()], which a [HashMap] yields in any order. *)
Fixpoint visit_all (fuel : nat) (g : dep_graph) (complete : gset string) (nodes : list string) :
    option (option (list string)) :=
  match nodes with
  | [] => Some None
  | n :: nodes =>
      match visit fuel g [] complete n with
      | None => None
      | Some (Cycle c) => Some (Some c)
      | Some (Done complete) => visit_all fuel g complete nodes
      end
  end.

(** The recursion is never deeper than the number of nodes. *)
Definition child_dependency_cycle (g : dep_graph) (keys : list string) : option (option (list string)) :=
  visit_all (size g) g ∅ keys.

(** ** Paths *)

(** [n] depends on [m], both being tasks of the parent. *)
Definition edge (g : dep_graph) (n m : string) : Prop := m ∈ deps g n ∧ has_node g m = true.

Fixpoint linked (g : dep_graph) (l : list string) : Prop :=
  match l with
  | [] => True
  | n :: l => match l with [] => True | m :: _ => edge g n m end ∧ linked g l
  end.

(** A path of dependencies that ends where it starts. *)
Definition is_cycle (g : dep_graph) (c : list string) : Prop :=
  ∃ n l, c = n :: l ++ [n] ∧ linked g c.

Lemma linked_app g l1 n l2 : linked g (l1 ++ n :: l2) ↔ linked g (l1 ++ [n]) ∧ linked g (n :: l2).
Proof.
  induction l1 as [|m l1 IH]; cbn; [tauto|]. cbn in IH. rewrite IH.
  destruct l1; cbn; tauto.
Qed.

Lemma linked_snoc g l n m : linked g (l ++ [n]) → edge g n m → linked g ((l ++ [n]) ++ [m]).
Proof. intros Hl He. rewrite <-app_assoc. cbn. rewrite linked_app. by split; [|cbn]. Qed.

Lemma linked_tc g n l m : linked g (n :: l ++ [m]) → tc (edge g) n m.
Proof.
  revert n. induction l as [|k l IH]; intros n; cbn.
  - intros [He _]. by apply tc_once.
  - intros [He Hl]. eapply tc_l; [exact He|]. by apply IH.
Qed.

Lemma cycle_tc g c : is_cycle g c → ∃ n, tc (edge g) n n.
Proof. intros (n & l & -> & Hl). exists n. by eapply linked_tc. Qed.

(** ** What a visit leaves behind *)

(** The completed nodes have all their dependencies among them, lie on no
    cycle, and none of them is active. *)
Record completed (g : dep_graph) (active : list string) (complete : gset string) : Prop := {
  cp_closed : ∀ n m, n ∈ complete → edge g n m → m ∈ complete;
  cp_acyclic : ∀ n, n ∈ complete → ¬ tc (edge g) n n;
  cp_inactive : ∀ n, n ∈ active → n ∉ complete
}.

Lemma completed_tc g active complete n m :
  completed g active complete → tc (edge g) n m → n ∈ complete → m ∈ complete.
Proof. intros [Hc _ _]. induction 1; eauto. Qed.

(** [node] can be completed when its dependencies are. *)
Lemma completed_insert g active complete node :
  completed g (active ++ [node]) complete → node ∉ active → (∀ m, edge g node m → m ∈ complete) →
  completed g active ({[node]} ∪ complete).
Proof.
  intros Hcomp Hnew Hdeps. assert (node ∉ complete) as Hout by (apply (cp_inactive _ _ _ Hcomp); set_solver).
  split.
  - intros n m [->%elem_of_singleton|Hn]%elem_of_union He; [set_solver|].
    apply elem_of_union_r. by eapply cp_closed.
  - intros n [->%elem_of_singleton|Hn]%elem_of_union Hcyc; [|by eapply cp_acyclic].
    apply Hout. inversion Hcyc as [? ? He|? m ? He Hm]; subst; [by apply Hdeps|].
    eapply completed_tc; [exact Hcomp|exact Hm|by apply Hdeps].
  - intros n Hn [->%elem_of_singleton|Hc]%elem_of_union; [done|].
    eapply (cp_inactive _ _ _ Hcomp); [|done]. set_solver.
Qed.

(** What the caller of a visit of [node] gets. *)
Definition visit_post (g : dep_graph) (active : list string) (complete : gset string) (node : string)
    (r : option visited) : Prop :=
  match r with
  | None => False
  | Some (Cycle c) => is_cycle g c
  | Some (Done complete') => complete ⊆ complete' ∧ node ∈ complete' ∧ completed g active complete'
  end.

Lemma visit_deps_spec g active node go ds complete :
  (∀ complete d, edge g node d → completed g (active ++ [node]) complete →
     visit_post g (active ++ [node]) complete d (go complete d)) →
  completed g (active ++ [node]) complete → node ∉ active →
  (∀ d, d ∈ ds → d ∈ deps g node) → (∀ m, edge g node m → m ∈ ds ∨ m ∈ complete) →
  visit_post g active complete node (visit_deps go g node ds complete).
Proof.
  intros Hgo. revert complete. induction ds as [|d ds IH]; intros complete Hcomp Hnew Hin Hdeps; cbn.
  - split; [set_solver|]. split; [set_solver|]. apply completed_insert; [done..|].
    intros m He. destruct (Hdeps m He) as [Hm|Hm]; [by apply elem_of_nil in Hm|done].
  - destruct (has_node g d) eqn:Hnode.
    + assert (edge g node d) as He by (split; [apply Hin; by left|done]).
      pose proof (Hgo complete d He Hcomp) as Hpost.
      destruct (go complete d) as [[c|complete']|]; [done| |done].
      destruct Hpost as (Hsub & Hd & Hcomp'). assert (visit_post g active complete' node (visit_deps go g node ds complete')) as Hr.
      { apply IH; [done..|intros; apply Hin; by right|]. intros m Hm. destruct (Hdeps m Hm) as [[->|?]%elem_of_cons|?]; auto. }
      revert Hr. destruct (visit_deps go g node ds complete') as [[c|c'']|]; cbn; [done| |done].
      intros (? & ? & ?). split_and!; [set_solver|done..].
    + apply IH; [done..|intros; apply Hin; by right|]. intros m Hm.
      destruct (Hdeps m Hm) as [[->|?]%elem_of_cons|?]; auto. destruct Hm as [_ Hm]. congruence.
Qed.

Lemma active_bound g active node :
  NoDup active → (∀ n, n ∈ active → has_node g n = true) → has_node g node = true → node ∉ active →
  (length active < size g)%nat.
Proof.
  intros Hnd Hact Hnode Hnew. rewrite <-(size_dom (g : gmap string (list string))).
  assert (size (list_to_set (active ++ [node]) : gset string) ≤ size (dom g))%nat as Hle.
  { apply subseteq_size. intros n Hn%elem_of_list_to_set. apply elem_of_dom.
    apply elem_of_app in Hn as [Hn%Hact| ->%list_elem_of_singleton];
      [by apply bool_decide_eq_true in Hn|by apply bool_decide_eq_true in Hnode]. }
  rewrite size_list_to_set in Hle.
  - rewrite length_app in Hle. cbn [length] in Hle. rewrite Nat.add_1_r in Hle. exact Hle.
  - apply NoDup_app. split; [done|]. split; [set_solver|]. apply NoDup_singleton.
Qed.

Lemma visit_spec fuel g active complete node :
  linked g (active ++ [node]) → NoDup active → (∀ n, n ∈ active → has_node g n = true) →
  has_node g node = true → (size g ≤ fuel + length active)%nat → completed g active complete →
  visit_post g active complete node (visit fuel g active complete node).
Proof.
  revert active complete node. induction fuel as [|fuel IH]; intros active complete node Hl Hnd Hact Hnode Hfuel Hcomp;
    cbn [visit]; destruct (position _ active) as [i|] eqn:Hpos.
  1,3: apply position_Some in Hpos as (x & Hx & ->%String.eqb_eq & _);
    pose proof (drop_S active node i Hx) as Hd;
    exists node, (drop (S i) active); rewrite Hd; split; [done|];
    apply (linked_app g (take i active)); rewrite <-(take_drop i active), Hd, <-app_assoc in Hl; exact Hl.
  - case_bool_decide as Hdone; [by split|].
    assert (node ∉ active) as Hnew.
    { intros Hin. apply position_None in Hpos. rewrite Forall_forall in Hpos. specialize (Hpos node Hin).
      cbn in Hpos. by rewrite String.eqb_refl in Hpos. }
    pose proof (active_bound g active node Hnd Hact Hnode Hnew). lia.
  - case_bool_decide as Hdone; [by split|].
    assert (node ∉ active) as Hnew.
    { intros Hin. apply position_None in Hpos. rewrite Forall_forall in Hpos. specialize (Hpos node Hin).
      cbn in Hpos. by rewrite String.eqb_refl in Hpos. }
    apply visit_deps_spec; [|split; [apply Hcomp..|]|done|done|].
    + intros complete' d He Hcomp'. apply IH; [by apply linked_snoc| | |by destruct He| |done].
      * apply NoDup_app. split; [done|]. split; [set_solver|]. apply NoDup_singleton.
      * intros n [Hn| ->%list_elem_of_singleton]%elem_of_app; auto.
      * rewrite length_app. cbn. lia.
    + intros n [Hn| ->%list_elem_of_singleton]%elem_of_app; [by apply (cp_inactive _ _ _ Hcomp)|done].
    + intros m He. left. by destruct He.
Qed.

(** C23: The cycle check is exact: for every order in which the map yields its
    keys, the search ends within its recursion bound; it reports no cycle
    exactly when no task depends on itself through any chain of siblings, and
    a path it reports is such a chain, closed. *)
Theorem child_dependency_cycle_exact g keys :
  (∀ n, n ∈ keys ↔ is_Some (g !! n)) →
  match child_dependency_cycle g keys with
  | None => False
  | Some None => ∀ n, ¬ tc (edge g) n n
  | Some (Some c) => is_cycle g c ∧ ∃ n, tc (edge g) n n
  end.
Proof.
  intros Hkeys. unfold child_dependency_cycle.
  assert (∀ nodes complete, (∀ n, n ∈ nodes → has_node g n = true) → completed g [] complete →
    match visit_all (size g) g complete nodes with
    | None => False
    | Some (Some c) => is_cycle g c
    | Some None => ∃ complete', complete ⊆ complete' ∧ completed g [] complete' ∧ ∀ n, n ∈ nodes → n ∈ complete'
    end) as Hall.
  { induction nodes as [|n nodes IH]; intros complete Hnodes Hcomp; cbn.
    { exists complete. split_and!; [done..|]. by intros n ?%elem_of_nil. }
    pose proof (visit_spec (size g) g [] complete n) as Hv. cbn in Hv.
    specialize (Hv (conj I I) (NoDup_nil_2) ltac:(by intros ? ?%elem_of_nil) (Hnodes n ltac:(by left)) ltac:(lia) Hcomp).
    destruct (visit _ g [] complete n) as [[c|complete1]|]; [done| |done]. destruct Hv as (Hsub & Hn & Hcomp1).
    specialize (IH complete1 ltac:(intros; apply Hnodes; by right) Hcomp1).
    destruct (visit_all _ g complete1 nodes) as [[c|]|]; [done| |done].
    destruct IH as (complete2 & ? & ? & Hin). exists complete2. split_and!; [set_solver|done|].
    intros m [->|Hm]%elem_of_cons; [set_solver|auto]. }
  specialize (Hall keys ∅). destruct (visit_all _ g ∅ keys) as [[c|]|].
  - assert (is_cycle g c) as Hc; [|split; [done|by eapply cycle_tc]]. apply Hall.
    + intros n Hn%Hkeys. by apply bool_decide_eq_true.
    + split; set_solver.
  - destruct Hall as (complete' & _ & Hcomp & Hin).
    { intros n Hn%Hkeys. by apply bool_decide_eq_true. } { split; set_solver. }
    intros n Hcyc. assert (has_node g n = true) as Hn.
    { clear -Hcyc. revert Hcyc. generalize n at 1. induction 1 as [? ? [_ ?]|]; done. }
    eapply cp_acyclic; [exact Hcomp| |exact Hcyc]. apply Hin, Hkeys. by apply bool_decide_eq_true in Hn.
  - apply Hall; [|split; set_solver]. intros n Hn%Hkeys. by apply bool_decide_eq_true.
Qed.

(** Two tasks that wait for each other. *)
Lemma child_dependency_cycle_exact_witness :
  is_cycle {["a" := ["b"]; "b" := ["a"]]} ["a"; "b"; "a"].
Proof.
  pose proof (child_dependency_cycle_exact {["a" := ["b"]; "b" := ["a"]]} ["a"; "b"]) as H.
  apply H. intros n. rewrite <-(elem_of_dom (D:=gset string)), dom_insert, dom_singleton. set_solver.
Defined.
