(* ===== verification/ChildTasks.v ===== *)
(** * Child tasks and their budgets

    [crates/core/src/runs.rs], [reserve_child_task] to [list_child_tasks]: a
    parent run hands tasks to child runs, each with a share of the parent's
    token, time, retry and effect limits that is charged until it is settled
    from measured use.  [serde_json] and the iteration order of [HashMap] are
    parameters. *)

From stdpp Require Import relations sorting.
From S2P Require Import Prelude Wire Text RunSchema Schema RunBase ChildGraph.

(** ** Data *)

Record ChildExecutionBudget : Type := mkShare {
  tokens : Z;
  time_ms : Z;
  retries : Z;
  effects : Z
}.

Definition MAX_CHILD_TASKS_PER_PARENT : nat := 128.

(** [serde_json] on task values and on [Vec<String>], and the order in which
    a [HashMap] yields its keys. *)
Class ChildCodec : Type := {
  Value : Type;
  value_null : Value;
  value_to_string : Value → result string string;
  value_from_str : string → result string Value;
  deps_to_string : list string → result string string;
  deps_from_str : string → result string (list string);
  key_order : dep_graph → list string
}.

Class ChildCodecLaws `{ChildCodec} : Prop := {
  deps_from_to : ∀ l j, deps_to_string l = Ok j → deps_from_str j = Ok l;
  key_order_spec : ∀ g n, n ∈ key_order g ↔ is_Some (g !! n)
}.

(** A column read as [u32]; rusqlite refuses other integers. *)
Definition row_u32 (z : Z) : result DbError Z :=
  if (0 <=? z) && (z <=? u32_max) then Ok z else Err (Sqlite "Integer out of range").
(** A column read as [i64].  SQLite keeps a sum that leaves 64 bits as a
    floating-point number; here it stays an integer that cannot be read. *)
Definition row_i64 (z : Z) : result DbError Z :=
  if (i64_min <=? z) && (z <=? i64_max) then Ok z else Err (Sqlite "Invalid column type").

Definition u32_saturating_add (a b : Z) : Z := Z.min u32_max (a + b).

(** ** Reserving *)

Section Store.
Context `{ChildCodec}.

Definition budgets_fit (task aggregate : ChildExecutionBudget) : bool :=
  negb ((tokens task =? 0) || (tokens aggregate =? 0) || (tokens aggregate <? tokens task)
        || (time_ms task =? 0) || (time_ms aggregate =? 0) || (time_ms aggregate <? time_ms task)
        || (retries aggregate <? retries task) || (effects aggregate <? effects task)).

Definition dependencies_ok (ds : list string) : bool :=
  negb ((64 <? Z.of_nat (length ds)) || existsb (λ d, 128 <? str_len d) ds
        || negb (bool_decide (NoDup ds))).

(** [WHERE parent_run_id = ?1 ORDER BY child_run_id LIMIT ?2] *)
Definition child_before (a b : ChildTaskRow) : Prop :=
  Is_true (String.leb (ck_child_run_id a) (ck_child_run_id b)).

#[global] Instance child_before_dec a b : Decision (child_before a b).
Proof. unfold child_before. apply _. Defined.

Definition is_child_of (p : string) (c : ChildTaskRow) : bool := String.eqb (ck_parent_run_id c) p.
Definition is_child (id : string) (c : ChildTaskRow) : bool := String.eqb (ck_child_run_id c) id.

Definition tasks_of (d : Db) : list ChildTaskRow := child_tasks (run_tables d).
Definition children_rows (p : string) (d : Db) : list ChildTaskRow :=
  take (MAX_CHILD_TASKS_PER_PARENT + 1)
    (merge_sort child_before (List.filter (is_child_of p) (tasks_of d))).

(** The rows decoded into the map, one after the other. *)
Fixpoint insert_rows (rows : list ChildTaskRow) (g : dep_graph) : result DbError dep_graph :=
  match rows with
  | [] => Ok g
  | r :: rows =>
      match deps_from_str (ck_dependencies_json r) with
      | Err e => Err (Invariant ("stored child dependency list is invalid: " +:+ e))
      | Ok ds => insert_rows rows (<[ck_child_run_id r := ds]> g)
      end
  end.

Definition budget_row (p : string) (d : Db) : option ChildBudgetRow := child_budgets (run_tables d) !! p.
Definition put_budget (p : string) (b : ChildBudgetRow) (d : Db) : Db :=
  set_run_tables (set_child_budgets <[p := b]>) d.

(** [INSERT OR IGNORE INTO state_run_child_budgets] *)
Definition ensure_budget (p : string) (aggregate : ChildExecutionBudget) (now : Z) : tx Db () :=
  tx_modify (λ d, match budget_row p d with
                  | Some _ => d
                  | None => put_budget p (mkChildBudget (tokens aggregate) 0 (time_ms aggregate) 0
                              (retries aggregate) 0 (effects aggregate) 0 now) d
                  end).

(** The row of the parent's limits, with the types it is read at. *)
Definition read_limits (p : string) : tx Db ChildBudgetRow :=
  let* d := tx_get in
  match budget_row p d with
  | None => tx_err no_rows
  | Some b =>
      let* tl := tx_lift (row_u32 (cb_token_limit b)) in
      let* tr := tx_lift (row_u32 (cb_tokens_reserved b)) in
      let* ml := tx_lift (row_i64 (cb_time_limit_ms b)) in
      let* mr := tx_lift (row_i64 (cb_time_reserved_ms b)) in
      let* rl := tx_lift (row_u32 (cb_retry_limit b)) in
      let* rr := tx_lift (row_u32 (cb_retries_reserved b)) in
      let* el := tx_lift (row_u32 (cb_effect_limit b)) in
      let* er := tx_lift (row_u32 (cb_effects_reserved b)) in
      tx_ret b
  end.

(** The contract of a stored child, as compared with a repeated reservation. *)
Definition same_contract (r s : ChildTaskRow) : bool :=
  String.eqb (ck_task_json r) (ck_task_json s) && String.eqb (ck_task_hash r) (ck_task_hash s)
  && String.eqb (ck_trust_ceiling_json r) (ck_trust_ceiling_json s)
  && (ck_budget_tokens r =? ck_budget_tokens s)
  && String.eqb (ck_dependencies_json r) (ck_dependencies_json s)
  && (ck_budget_time_ms r =? ck_budget_time_ms s)
  && (ck_budget_retries r =? ck_budget_retries s) && (ck_budget_effects r =? ck_budget_effects s).

Definition exhausted (b : ChildBudgetRow) (task : ChildExecutionBudget) : bool :=
  (cb_token_limit b <? u32_saturating_add (cb_tokens_reserved b) (tokens task))
  || (cb_time_limit_ms b <? i64_saturating_add (cb_time_reserved_ms b) (time_ms task))
  || (cb_retry_limit b <? u32_saturating_add (cb_retries_reserved b) (retries task))
  || (cb_effect_limit b <? u32_saturating_add (cb_effects_reserved b) (effects task)).

(** [SET tokens_reserved=tokens_reserved+?2, ..] *)
Definition charge_budget (share : ChildExecutionBudget) (now : Z) (b : ChildBudgetRow) : ChildBudgetRow :=
  mkChildBudget (cb_token_limit b) (cb_tokens_reserved b + tokens share)
    (cb_time_limit_ms b) (cb_time_reserved_ms b + time_ms share)
    (cb_retry_limit b) (cb_retries_reserved b + retries share)
    (cb_effect_limit b) (cb_effects_reserved b + effects share) now.

(** [UPDATE state_run_child_budgets .. WHERE parent_run_id=?1] *)
Definition update_budget (p : string) (f : ChildBudgetRow → ChildBudgetRow) : tx Db () :=
  tx_modify (λ d, match budget_row p d with Some b => put_budget p (f b) d | None => d end).

Definition new_child_row (p c task_json task_hash trust_json deps_json : string)
    (share : ChildExecutionBudget) (now : Z) : ChildTaskRow :=
  mkChildTask c p task_json task_hash trust_json (tokens share) None (time_ms share) None
    (retries share) None (effects share) None deps_json None false now now.

Definition contract_refs (p c : string) (d : Db) : bool :=
  existsb (is_run p) (state_runs d) && bool_decide ((find_run c d) ≫= run_parent = Some p).

Definition same_limits (b : ChildBudgetRow) (aggregate : ChildExecutionBudget) : bool :=
  (cb_token_limit b =? tokens aggregate) && (cb_time_limit_ms b =? time_ms aggregate)
  && (cb_retry_limit b =? retries aggregate) && (cb_effect_limit b =? effects aggregate).

(** The path the check reports; the search never runs out of fuel
    ([ChildGraph.child_dependency_cycle_exact]). *)
Definition found_cycle (g : dep_graph) : option (list string) :=
  match child_dependency_cycle g (key_order g) with Some r => r | None => None end.

Definition reserve_tx (row : ChildTaskRow) (task aggregate : ChildExecutionBudget)
    (dependencies : list string) (now : Z) : tx Db bool :=
  let p := ck_parent_run_id row in
  let c := ck_child_run_id row in
  let* d := tx_get in
  if negb (contract_refs p c d)
  then tx_err (Invariant "child contract must reference an existing child and parent run")
  else
    let* g := tx_lift (insert_rows (children_rows p d) ∅) in
    if Nat.leb MAX_CHILD_TASKS_PER_PARENT (size g)
    then tx_err (Invariant ("parent child-task limit (128) reached"))
    else
      let g := <[c := dependencies]> g in
      match found_cycle g with
      | Some cycle => tx_err (Invariant ("child dependency cycle rejected: " +:+ String.concat " -> " cycle))
      | None =>
          ensure_budget p aggregate now ;;*
          let* limits := read_limits p in
          if negb (same_limits limits aggregate)
          then tx_err (Invariant "parent aggregate child budget changed during a run")
          else
            match List.find (is_child c) (tasks_of d) with
            | Some existing =>
                if same_contract existing row then tx_ret false
                else tx_err (Invariant "child run id was reused with a different task contract or budget")
            | None =>
                if exhausted limits task
                then tx_err (Invariant "aggregate child execution budget exhausted")
                else
                  tx_modify (set_run_tables (set_child_tasks (λ l, l ++ [row]))) ;;*
                  update_budget p (charge_budget task now) ;;*
                  tx_ret true
            end
      end.

Definition reserve_child_task_with_budgets (p c : string) (task : Value) (task_hash : string)
    (trust_ceiling : Value) (task_budget aggregate : ChildExecutionBudget) (dependencies : list string)
    (now : Z) : op bool :=
  if negb (budgets_fit task_budget aggregate)
  then op_err (Conflict "child budgets must be positive and fit the parent aggregate limits")
  else if negb (dependencies_ok dependencies)
  then op_err (Conflict "child dependency list exceeds its bounds or repeats an edge")
  else
    match value_to_string task, value_to_string trust_ceiling, deps_to_string dependencies with
    | Err e, _, _ => op_err (Conflict ("encode child task: " +:+ e))
    | Ok _, Err e, _ => op_err (Conflict ("encode child trust ceiling: " +:+ e))
    | Ok _, Ok _, Err e => op_err (Conflict ("encode child dependencies: " +:+ e))
    | Ok task_json, Ok trust_json, Ok deps_json =>
        if (64 * 1024 <? str_len task_json) || (8 * 1024 <? str_len trust_json)
           || negb (str_len task_hash =? 64)
        then op_err (Conflict "child task contract is malformed or oversized")
        else if i64_max <? time_ms task_budget then op_err (Conflict "child time budget is too large")
        else if i64_max <? time_ms aggregate then op_err (Conflict "parent time budget is too large")
        else op_tx (reserve_tx (new_child_row p c task_json task_hash trust_json deps_json task_budget now)
                      task_budget aggregate dependencies now)
    end.

Definition reserve_child_task (p c : string) (task : Value) (task_hash : string) (trust_ceiling : Value)
    (budget_tokens aggregate_limit_tokens : Z) (dependencies : list string) (now : Z) : op bool :=
  reserve_child_task_with_budgets p c task task_hash trust_ceiling
    (mkShare budget_tokens 120000 0 0) (mkShare aggregate_limit_tokens 3600000 64 0) dependencies now.

(** ** Settling *)

Definition or_else {A} (a b : option A) : option A := match a with Some _ => a | None => b end.

(** [MAX(0, reserved - budget + charge)] in each of the four columns. *)
Definition settle_budget (budget charge : ChildExecutionBudget) (now : Z) (b : ChildBudgetRow) : ChildBudgetRow :=
  mkChildBudget (cb_token_limit b) (Z.max 0 (cb_tokens_reserved b - tokens budget + tokens charge))
    (cb_time_limit_ms b) (Z.max 0 (cb_time_reserved_ms b - time_ms budget + time_ms charge))
    (cb_retry_limit b) (Z.max 0 (cb_retries_reserved b - retries budget + retries charge))
    (cb_effect_limit b) (Z.max 0 (cb_effects_reserved b - effects budget + effects charge)) now.

Definition share_of (c : ChildTaskRow) : ChildExecutionBudget :=
  mkShare (ck_budget_tokens c) (ck_budget_time_ms c) (ck_budget_retries c) (ck_budget_effects c).

(** [COALESCE(?3, tokens_used)] with [?3] the measurement or the prior one. *)
Definition settled_row (tu mu ru eu : option Z) (artifact : option string) (now : Z) (c : ChildTaskRow) : ChildTaskRow :=
  mkChildTask (ck_child_run_id c) (ck_parent_run_id c) (ck_task_json c) (ck_task_hash c)
    (ck_trust_ceiling_json c) (ck_budget_tokens c) (or_else tu (ck_tokens_used c))
    (ck_budget_time_ms c) (or_else mu (ck_time_used_ms c))
    (ck_budget_retries c) (or_else ru (ck_retries_used c))
    (ck_budget_effects c) (or_else eu (ck_effects_used c))
    (ck_dependencies_json c) (or_else artifact (ck_result_artifact_id c)) true (ck_created_at c) now.

Definition settle_tx (p c : string) (tu mu ru eu : option Z) (artifact : option string) (now : Z) : tx Db () :=
  let* d := tx_get in
  match List.find (λ r, is_child c r && is_child_of p r) (tasks_of d) with
  | None => tx_err (Invariant "child task contract was not found")
  | Some r =>
      if ck_budget_settled r then tx_ret ()
      else
        let charge := mkShare (default (ck_budget_tokens r) tu) (default (ck_budget_time_ms r) mu)
                        (default (ck_budget_retries r) ru) (default (ck_budget_effects r) eu) in
        update_budget p (settle_budget (share_of r) charge now) ;;*
        tx_modify (set_run_tables (set_child_tasks (update_where (λ r, is_child c r && is_child_of p r)
          (settled_row tu mu ru eu artifact now))))
  end.

Definition settle_child_task_with_usage (p c : string) (tu mu ru eu : option Z) (artifact : option string)
    (now : Z) : op () :=
  if match mu with Some t => i64_max <? t | None => false end
  then op_err (Conflict "child time usage is too large")
  else op_tx (settle_tx p c tu mu ru eu artifact now).

Definition settle_child_task (p c : string) (tu : option Z) (artifact : option string) (now : Z) : op () :=
  settle_child_task_with_usage p c tu None None None artifact now.

(** ** Listing *)

Record ChildTaskRecord : Type := mkChildRecord {
  cr_child_run_id : string;
  cr_parent_run_id : string;
  cr_task : Value;
  cr_task_hash : string;
  cr_trust_ceiling : Value;
  cr_budget : ChildExecutionBudget;
  cr_tokens_used : option Z;
  cr_time_used_ms : option Z;
  cr_retries_used : option Z;
  cr_effects_used : option Z;
  cr_dependencies : list string;
  cr_result_artifact_id : option string;
  cr_status : RunStatus;
  cr_created_at : Z;
  cr_updated_at : Z
}.

Definition unwrap_or {A} (a : A) (r : result string A) : A := match r with Ok x => x | Err _ => a end.

Definition child_record (st : RunStatus) (c : ChildTaskRow) : ChildTaskRecord :=
  mkChildRecord (ck_child_run_id c) (ck_parent_run_id c)
    (unwrap_or value_null (value_from_str (ck_task_json c))) (ck_task_hash c)
    (unwrap_or value_null (value_from_str (ck_trust_ceiling_json c)))
    (mkShare (ck_budget_tokens c) (Z.max 0 (ck_budget_time_ms c)) (ck_budget_retries c) (ck_budget_effects c))
    (ck_tokens_used c) (Z.max 0 <$> ck_time_used_ms c) (ck_retries_used c) (ck_effects_used c)
    (unwrap_or [] (deps_from_str (ck_dependencies_json c))) (ck_result_artifact_id c)
    st (ck_created_at c) (ck_updated_at c).

(** [ORDER BY c.created_at, c.child_run_id] *)
Definition created_before (a b : ChildTaskRow) : Prop :=
  ck_created_at a < ck_created_at b ∨ (ck_created_at a = ck_created_at b ∧ child_before a b).

#[global] Instance created_before_dec a b : Decision (created_before a b).
Proof. unfold created_before. apply _. Defined.

(** The join drops a task whose run is gone. *)
Definition list_child_tasks (p : string) (d : Db) : list ChildTaskRecord :=
  omap (λ c, (λ r, child_record (run_status r) c) <$> find_run (ck_child_run_id c) d)
    (merge_sort created_before (List.filter (is_child_of p) (tasks_of d))).
End Store.
