(* ===== verification/ChildBudgets.v ===== *)
(** * What the budgets of child tasks guarantee

    The operations of [ChildTasks] keep an exact account of what every child
    of a run may still spend, and the children's dependencies free of
    cycles. *)

From stdpp Require Import relations sorting.
From S2P Require Import Prelude Wire Text RunSchema Schema RunBase ChildGraph ChildTasks.

(** ** The four dimensions *)

Record dimension : Type := mkDim {
  d_budget : ChildTaskRow → Z;
  d_used : ChildTaskRow → option Z;
  d_limit : ChildBudgetRow → Z;
  d_reserved : ChildBudgetRow → Z;
  d_share : ChildExecutionBudget → Z;
  d_max : Z
}.

Definition token_dim := mkDim ck_budget_tokens ck_tokens_used cb_token_limit cb_tokens_reserved tokens u32_max.
Definition time_dim := mkDim ck_budget_time_ms ck_time_used_ms cb_time_limit_ms cb_time_reserved_ms time_ms i64_max.
Definition retry_dim := mkDim ck_budget_retries ck_retries_used cb_retry_limit cb_retries_reserved retries u32_max.
Definition effect_dim := mkDim ck_budget_effects ck_effects_used cb_effect_limit cb_effects_reserved effects u32_max.

Inductive is_dim : dimension → Prop :=
| dim_tokens : is_dim token_dim
| dim_time : is_dim time_dim
| dim_retries : is_dim retry_dim
| dim_effects : is_dim effect_dim.

(** What a child costs its parent: its reservation, once settled its use. *)
Definition charge (dm : dimension) (c : ChildTaskRow) : Z :=
  if ck_budget_settled c then default (d_budget dm c) (d_used dm c) else d_budget dm c.

(** What it used beyond its reservation. *)
Definition overrun (dm : dimension) (c : ChildTaskRow) : Z := Z.max 0 (charge dm c - d_budget dm c).

Fixpoint sum_of {A} (f : A → Z) (l : list A) : Z :=
  match l with [] => 0 | x :: l => f x + sum_of f l end.

Definition children (p : string) (d : Db) : list ChildTaskRow := List.filter (is_child_of p) (tasks_of d).

Lemma sum_of_app {A} (f : A → Z) l1 l2 : sum_of f (l1 ++ l2) = sum_of f l1 + sum_of f l2.
Proof. induction l1 as [|x l1 IH]; cbn; [done|]. rewrite IH. lia. Qed.

Lemma sum_of_nonneg {A} (f : A → Z) l : (∀ x, x ∈ l → 0 ≤ f x) → 0 ≤ sum_of f l.
Proof.
  induction l as [|x l IH]; cbn; intros Hf; [done|].
  assert (0 ≤ f x) by (apply Hf; by left). assert (0 ≤ sum_of f l) by (apply IH; intros; apply Hf; by right). lia.
Qed.

Lemma sum_of_elem {A} (f : A → Z) l x : (∀ x, x ∈ l → 0 ≤ f x) → x ∈ l → f x ≤ sum_of f l.
Proof.
  intros Hf Hx. induction Hx as [x l|x y l Hx IH]; cbn.
  - assert (0 ≤ sum_of f l); [|lia]. apply sum_of_nonneg. intros y Hy. apply Hf. by right.
  - assert (0 ≤ f y) by (apply Hf; by left). assert (f x ≤ sum_of f l); [|lia].
    apply IH. intros z Hz. apply Hf. by right.
Qed.

(** The sum after one row of a list with unique keys is rewritten. *)
Lemma sum_of_update {A K} `{EqDecision K} (key : A → K) (f : A → Z) (p : A → bool) (u : A → A) l x :
  NoDup (map key l) → x ∈ l → p x = true → (∀ y, p y = true → key y = key x) →
  sum_of f (update_where p u l) = sum_of f l - f x + f (u x).
Proof.
  intros Hnd Hx Hp Hkey. induction l as [|y l IH]; [by apply elem_of_nil in Hx|].
  cbn in Hnd. apply NoDup_cons in Hnd as [Hy Hnd]. cbn. fold (update_where p u l).
  apply elem_of_cons in Hx as [->|Hx].
  - rewrite Hp. assert (update_where p u l = l) as ->; [|lia].
    apply map_id_elem. intros z Hz. destruct (p z) eqn:Hpz; [|done].
    destruct Hy. rewrite <-(Hkey z Hpz). by apply list_elem_of_fmap_2.
  - rewrite IH by done. destruct (p y) eqn:Hpy; [|lia].
    destruct Hy. rewrite (Hkey y Hpy). by apply list_elem_of_fmap_2.
Qed.

Section Safety.
Context `{ChildCodecLaws}.

(** ** The dependencies of a parent's children *)

Definition task_deps (c : ChildTaskRow) : list string :=
  match deps_from_str (ck_dependencies_json c) with Ok ds => ds | Err _ => [] end.

Definition graph_of (l : list ChildTaskRow) : dep_graph :=
  list_to_map (map (λ c, (ck_child_run_id c, task_deps c)) l).

Lemma graph_of_keys l : (map (λ c, (ck_child_run_id c, task_deps c)) l).*1 = map ck_child_run_id l.
Proof. induction l as [|c l IH]; [done|]. cbn. by f_equal. Qed.

Lemma graph_of_lookup l n ds :
  NoDup (map ck_child_run_id l) →
  graph_of l !! n = Some ds ↔ ∃ c, c ∈ l ∧ ck_child_run_id c = n ∧ task_deps c = ds.
Proof.
  intros Hnd. unfold graph_of. rewrite <-elem_of_list_to_map by (by rewrite graph_of_keys).
  rewrite list_elem_of_fmap. naive_solver.
Qed.

Lemma graph_of_perm l1 l2 : NoDup (map ck_child_run_id l1) → l1 ≡ₚ l2 → graph_of l1 = graph_of l2.
Proof.
  intros Hnd Hp. unfold graph_of. apply list_to_map_proper; [by rewrite graph_of_keys|].
  by apply Permutation_map.
Qed.

Lemma insert_rows_ok l g g' :
  NoDup (map ck_child_run_id l) → insert_rows l g = Ok g' → g' = graph_of l ∪ g.
Proof.
  revert g. induction l as [|c l IH]; intros g Hnd; cbn [insert_rows].
  - intros [= <-]. symmetry. apply (left_id_L ∅ (∪)).
  - cbn in Hnd. apply NoDup_cons in Hnd as [Hc Hnd].
    destruct (deps_from_str (ck_dependencies_json c)) as [ds|e] eqn:Hds; [|done].
    intros ->%IH; [|done].
    assert (graph_of (c :: l) = <[ck_child_run_id c := ds]> (graph_of l)) as ->.
    { unfold graph_of. cbn. unfold task_deps at 1. by rewrite Hds. }
    rewrite <-insert_union_l, insert_union_r; [done|].
    apply not_elem_of_list_to_map. by rewrite graph_of_keys.
Qed.

Lemma size_graph_of l : NoDup (map ck_child_run_id l) → size (graph_of l) = length l.
Proof.
  intros Hnd. rewrite <-(size_dom (graph_of l)). unfold graph_of. rewrite dom_list_to_map_L, graph_of_keys.
  rewrite size_list_to_set by done. apply length_map.
Qed.

(** ** The invariant *)

(** The column is the sum of the charges; below the largest number of its type
    the limit is exceeded only by what settled children overran, and by at
    most one largest number otherwise. *)
Definition accounted (dm : dimension) (l : list ChildTaskRow) (b : ChildBudgetRow) : Prop :=
  d_reserved dm b = sum_of (charge dm) l ∧
  (d_limit dm b < d_max dm → d_reserved dm b ≤ d_limit dm b + sum_of (overrun dm) l) ∧
  d_reserved dm b ≤ d_limit dm b + d_max dm + sum_of (overrun dm) l.

Record child_wf (d : Db) : Prop := {
  cw_unique : NoDup (map ck_child_run_id (tasks_of d));
  cw_rows : ∀ c, c ∈ tasks_of d →
    (∃ ds, deps_from_str (ck_dependencies_json c) = Ok ds) ∧
    ∀ dm, is_dim dm → 0 ≤ charge dm c ∧ (ck_budget_settled c = false → d_used dm c = None);
  cw_account : ∀ p dm, is_dim dm →
    match budget_row p d with
    | Some b => accounted dm (children p d) b
    | None => children p d = []
    end;
  cw_count : ∀ p, (length (children p d) ≤ MAX_CHILD_TASKS_PER_PARENT)%nat;
  cw_acyclic : ∀ p n, ¬ tc (edge (graph_of (children p d))) n n
}.

(** Only the child tables matter. *)
Lemma child_wf_same d d' :
  tasks_of d' = tasks_of d → child_budgets (run_tables d') = child_budgets (run_tables d) →
  child_wf d → child_wf d'.
Proof.
  intros Ht Hb [H1 H2 H3 H4 H5]. split; unfold children, budget_row in *; rewrite ?Ht, ?Hb; assumption.
Qed.

Lemma child_wf_empty d : tasks_of d = [] → child_budgets (run_tables d) = ∅ → child_wf d.
Proof.
  intros Ht Hb. split; unfold children, budget_row; rewrite ?Ht; cbn.
  - constructor.
  - by intros c ?%elem_of_nil.
  - intros p dm _. by rewrite Hb, lookup_empty.
  - intros p. lia.
  - intros p n Hcyc. assert (∃ m, edge ∅ n m) as [m [He _]] by (inversion Hcyc; eauto).
    unfold deps in He. rewrite lookup_empty in He. by apply elem_of_nil in He.
Qed.

Lemma children_unique p d : child_wf d → NoDup (map ck_child_run_id (children p d)).
Proof.
  intros Hwf. pose proof (cw_unique d Hwf) as Hnd. revert Hnd. unfold children.
  generalize (tasks_of d) as l. induction l as [|c l IH]; cbn; [done|]. intros [Hc Hnd]%NoDup_cons.
  destruct (is_child_of p c); [|auto]. cbn. apply NoDup_cons. split; [|auto].
  intros (c' & Hid & Hin)%list_elem_of_fmap. apply Hc. rewrite Hid. apply list_elem_of_fmap_2.
  by apply list_elem_of_In, filter_In, proj1, list_elem_of_In in Hin.
Qed.

(** The limit on the query never cuts anything off. *)
Lemma children_rows_perm p d : child_wf d → children_rows p d ≡ₚ children p d.
Proof.
  intros Hwf. unfold children_rows. rewrite firstn_all2; [apply merge_sort_Permutation|].
  rewrite merge_sort_Permutation. pose proof (cw_count d Hwf p) as Hc. unfold children in Hc. lia.
Qed.

Definition ensured (p : string) (aggregate : ChildExecutionBudget) (now : Z) (d : Db) : ChildBudgetRow :=
  default (mkChildBudget (tokens aggregate) 0 (time_ms aggregate) 0 (retries aggregate) 0 (effects aggregate) 0 now)
    (budget_row p d).

Lemma ensure_budget_ok p aggregate now d :
  ∃ d', ensure_budget p aggregate now d = Ok ((), d') ∧ tasks_of d' = tasks_of d ∧
    state_runs d' = state_runs d ∧
    child_budgets (run_tables d') = <[p := ensured p aggregate now d]> (child_budgets (run_tables d)) ∧
    budget_row p d' = Some (ensured p aggregate now d).
Proof.
  unfold ensure_budget, tx_modify, ensured. destruct (budget_row p d) as [b|] eqn:Hb; cbn;
    eexists; (split; [reflexivity|]); (split; [done|]); (split; [done|]).
  - unfold budget_row in *. rewrite Hb. by rewrite insert_id.
  - unfold budget_row. cbn. split; [done|]. apply lookup_insert_eq.
Qed.

Lemma row_u32_le z n : row_u32 z = Ok n → z ≤ u32_max.
Proof. unfold row_u32. case_match; [|done]. lia. Qed.
Lemma row_i64_le z n : row_i64 z = Ok n → z ≤ i64_max.
Proof. unfold row_i64. case_match; [|done]. lia. Qed.

Lemma read_limits_inv p d b d' :
  read_limits p d = Ok (b, d') →
  d' = d ∧ budget_row p d = Some b ∧ ∀ dm, is_dim dm → d_reserved dm b ≤ d_max dm.
Proof.
  unfold read_limits. rewrite tx_get_bind. destruct (budget_row p d) as [b0|]; [|done]. intros Hr.
  apply tx_bind_ok in Hr as (? & ? & [_ ->]%tx_lift_ok & Hr).
  apply tx_bind_ok in Hr as (? & ? & [Ht ->]%tx_lift_ok & Hr).
  apply tx_bind_ok in Hr as (? & ? & [_ ->]%tx_lift_ok & Hr).
  apply tx_bind_ok in Hr as (? & ? & [Hm ->]%tx_lift_ok & Hr).
  apply tx_bind_ok in Hr as (? & ? & [_ ->]%tx_lift_ok & Hr).
  apply tx_bind_ok in Hr as (? & ? & [Hs ->]%tx_lift_ok & Hr).
  apply tx_bind_ok in Hr as (? & ? & [_ ->]%tx_lift_ok & Hr).
  apply tx_bind_ok in Hr as (? & ? & [He ->]%tx_lift_ok & Hr). unfold tx_ret in Hr. simplify_eq.
  split_and!; [done..|]. intros dm []; cbn; eauto using row_u32_le, row_i64_le.
Qed.

Lemma insert_children_ok p d g :
  child_wf d → insert_rows (children_rows p d) ∅ = Ok g →
  g = graph_of (children p d) ∧ size g = length (children p d).
Proof.
  intros Hwf Hg. pose proof (children_unique p d Hwf) as Hnd.
  assert (NoDup (map ck_child_run_id (children_rows p d))) as Hnd' by (by rewrite (children_rows_perm p d Hwf)).
  apply insert_rows_ok in Hg as ->; [|done]. rewrite (right_id_L ∅ (∪)).
  rewrite (graph_of_perm _ (children p d)) by (done || by apply children_rows_perm).
  split; [done|]. by apply size_graph_of.
Qed.

Lemma found_cycle_None g : found_cycle g = None ↔ ∀ n, ¬ tc (edge g) n n.
Proof.
  unfold found_cycle. pose proof (child_dependency_cycle_exact g (key_order g) (key_order_spec g)) as Hc.
  destruct (child_dependency_cycle g (key_order g)) as [[c|]|]; [|done|done].
  split; [done|]. intros Hno. destruct Hc as [_ [n Hn]]. by destruct (Hno n).
Qed.

(** What a committed reservation did. *)
Lemma reserve_cases row task aggregate ds now d b d' :
  child_wf d → reserve_tx row task aggregate ds now d = Ok (b, d') →
  let p := ck_parent_run_id row in
  let b0 := ensured p aggregate now d in
  contract_refs p (ck_child_run_id row) d = true ∧ same_limits b0 aggregate = true ∧
  state_runs d' = state_runs d ∧
  (length (children p d) < MAX_CHILD_TASKS_PER_PARENT)%nat ∧
  (∀ n, ¬ tc (edge (<[ck_child_run_id row := ds]> (graph_of (children p d)))) n n) ∧
  ((b = false ∧ tasks_of d' = tasks_of d ∧
     child_budgets (run_tables d') = <[p := b0]> (child_budgets (run_tables d))) ∨
   (b = true ∧ (ck_child_run_id row ∉ map ck_child_run_id (tasks_of d)) ∧ exhausted b0 task = false ∧
     (∀ dm, is_dim dm → d_reserved dm b0 ≤ d_max dm) ∧
     tasks_of d' = tasks_of d ++ [row] ∧
     child_budgets (run_tables d') = <[p := charge_budget task now b0]> (child_budgets (run_tables d)))).
Proof.
  intros Hwf Hd p b0. unfold reserve_tx in Hd. rewrite tx_get_bind in Hd. fold p in Hd.
  destruct (contract_refs p _ d); [cbn [negb] in Hd; split; [done|]|done].
  apply tx_bind_ok in Hd as (g & d0 & [Hg ->]%tx_lift_ok & Hd).
  apply insert_children_ok in Hg as [-> Hsize]; [|done].
  destruct (Nat.leb_spec MAX_CHILD_TASKS_PER_PARENT (size (graph_of (children p d)))) as [|Hlt]; [done|].
  rewrite Hsize in Hlt.
  set (g' := <[ck_child_run_id row := ds]> (graph_of (children p d))) in *.
  destruct (found_cycle g') as [c|] eqn:Hnc; [done|]. pose proof (proj1 (found_cycle_None g') Hnc) as Hacyc.
  apply tx_bind_ok in Hd as (u & d1 & He & Hd).
  destruct (ensure_budget_ok p aggregate now d) as (d1' & He' & Ht1 & Hruns1 & Hb1 & Hrow1).
  fold b0 in Hb1, Hrow1. clearbody b0. rewrite He' in He. injection He as <- <-.
  apply tx_bind_ok in Hd as (b1 & d2 & (-> & Hb2 & Hcaps)%read_limits_inv & Hd). rewrite Hrow1 in Hb2. injection Hb2 as <-.
  destruct (same_limits b0 aggregate); [cbn [negb] in Hd; split; [done|]|done].
  destruct (List.find _ (tasks_of d)) as [ex|] eqn:Hf.
  { destruct (same_contract ex row); [|done]. unfold tx_ret in Hd. injection Hd as <- <-.
    split; [done|]. split; [done|]. split; [done|]. by left. }
  destruct (exhausted _ task) eqn:Hex; [done|]. revert Hd.
  unfold tx_bind, tx_modify, update_budget, budget_row. cbn. unfold budget_row in Hrow1. rewrite Hrow1.
  intros [= <- <-]. split; [done|]. split; [done|]. split; [done|]. right. split; [done|]. split; [|split; [done|split; [done|]]].
  - intros (c & Hid & Hin)%list_elem_of_fmap. apply (find_None_elem _ _ c) in Hf; [|done].
    unfold is_child in Hf. by rewrite Hid, String.eqb_refl in Hf.
  - unfold tasks_of in *. cbn. rewrite Ht1, Hb1. split; [done|]. by rewrite insert_insert_eq.
Qed.

(** ** Reservations keep the account *)

Definition share_nonneg (s : ChildExecutionBudget) : Prop := ∀ dm, is_dim dm → 0 ≤ d_share dm s.

Lemma share_of_budget dm c : is_dim dm → d_share dm (share_of c) = d_budget dm c.
Proof. by destruct 1. Qed.

Lemma not_exhausted dm b share :
  is_dim dm → exhausted b share = false → d_limit dm b < d_max dm →
  d_reserved dm b + d_share dm share ≤ d_limit dm b.
Proof.
  intros Hdm Hex. unfold exhausted, u32_saturating_add, i64_saturating_add in Hex.
  rewrite !orb_false_iff, !Z.ltb_ge in Hex. destruct Hdm; cbn; unfold i64_min, i64_max, u32_max in *; lia.
Qed.

Lemma charge_budget_dim dm share now b :
  is_dim dm → d_limit dm (charge_budget share now b) = d_limit dm b ∧
    d_reserved dm (charge_budget share now b) = d_reserved dm b + d_share dm share.
Proof. by destruct 1. Qed.

Lemma same_limits_dim dm b aggregate :
  is_dim dm → same_limits b aggregate = true → d_limit dm b = d_share dm aggregate.
Proof. unfold same_limits. rewrite !andb_true_iff, !Z.eqb_eq. intros [] (((? & ?) & ?) & ?); done. Qed.

Lemma ensured_accounted p aggregate now d dm :
  child_wf d → share_nonneg aggregate → is_dim dm → accounted dm (children p d) (ensured p aggregate now d).
Proof.
  intros Hwf Hagg Hdm. pose proof (cw_account d Hwf p dm Hdm) as Ha. unfold ensured.
  destruct (budget_row p d) as [b|]; [exact Ha|]. rewrite Ha. specialize (Hagg dm Hdm).
  assert (0 ≤ d_max dm) by by destruct Hdm. unfold accounted.
  split_and!; destruct Hdm; cbn in *; [done..| | | | | | | |]; lia.
Qed.

Lemma children_snoc p row l :
  List.filter (is_child_of p) (l ++ [row]) =
  List.filter (is_child_of p) l ++ (if String.eqb (ck_parent_run_id row) p then [row] else []).
Proof. rewrite List.filter_app. cbn. by destruct (is_child_of p row) eqn:Hc; unfold is_child_of in Hc; rewrite Hc. Qed.

Lemma graph_of_snoc l row :
  NoDup (map ck_child_run_id (l ++ [row])) →
  graph_of (l ++ [row]) = <[ck_child_run_id row := task_deps row]> (graph_of l).
Proof. intros Hnd. by rewrite (graph_of_perm (l ++ [row]) (row :: l)) by (done || by rewrite Permutation_app_comm). Qed.

Lemma fresh_charge dm row :
  is_dim dm → ck_budget_settled row = false →
  charge dm row = d_share dm (share_of row) ∧ overrun dm row = 0.
Proof. intros Hdm Hs. unfold overrun, charge. rewrite Hs, share_of_budget by done. lia. Qed.

(** A reservation committed with a fresh, unsettled row. *)
Lemma reserve_wf row aggregate ds now d b d' :
  child_wf d → reserve_tx row (share_of row) aggregate ds now d = Ok (b, d') →
  share_nonneg (share_of row) → share_nonneg aggregate →
  (∀ dm, is_dim dm → d_share dm (share_of row) ≤ d_share dm aggregate) →
  ck_budget_settled row = false → (∀ dm, is_dim dm → d_used dm row = None) →
  deps_from_str (ck_dependencies_json row) = Ok ds → child_wf d'.
Proof.
  intros Hwf Hd Hshare Hagg Hfit Hset Hused Hds.
  destruct (reserve_cases _ _ _ _ _ _ _ _ Hwf Hd) as
    (_ & Hsame & _ & Hlt & Hacyc & [(_ & Ht & Hb)|(_ & Hnew & Hex & Hin & Ht & Hb)]).
  - destruct Hwf as [H1 H2 H3 H4 H5]. split; unfold children in *; rewrite ?Ht; [done..| |done|done].
    intros p dm Hdm. unfold budget_row. rewrite Hb. destruct (decide (p = ck_parent_run_id row)) as [->|Hne].
    + rewrite lookup_insert_eq. by apply ensured_accounted.
    + rewrite lookup_insert_ne by done. by apply H3.
  - assert (NoDup (map ck_child_run_id (tasks_of d'))) as Hnd.
    { rewrite Ht, map_app. apply NoDup_app. split; [apply Hwf|]. split; [|apply NoDup_singleton].
      intros x Hx ->%list_elem_of_singleton. done. }
    assert (∀ p, children p d' = children p d ++ (if String.eqb (ck_parent_run_id row) p then [row] else [])) as Hch.
    { intros p. unfold children. rewrite Ht. apply children_snoc. }
    assert (task_deps row = ds) as Hrow by (unfold task_deps; by rewrite Hds).
    split.
    + done.
    + intros c. rewrite Ht. intros [Hc| ->%list_elem_of_singleton]%elem_of_app; [by apply Hwf|].
      split; [by exists ds|]. intros dm Hdm. split; [|by intros; apply Hused].
      rewrite (proj1 (fresh_charge dm row Hdm Hset)). by apply Hshare.
    + intros p dm Hdm. unfold budget_row. rewrite Hb, Hch.
      destruct (String.eqb_spec (ck_parent_run_id row) p) as [<-|Hne].
      * rewrite lookup_insert_eq.
        destruct (ensured_accounted (ck_parent_run_id row) aggregate now d dm Hwf Hagg Hdm) as (Hr & Hle & _).
        pose proof (same_limits_dim dm _ _ Hdm Hsame) as Heq. specialize (Hfit dm Hdm). specialize (Hin dm Hdm).
        unfold accounted.
        destruct (charge_budget_dim dm (share_of row) now (ensured (ck_parent_run_id row) aggregate now d) Hdm) as [-> ->].
        destruct (fresh_charge dm row Hdm Hset) as [Hc Ho]. rewrite !sum_of_app. cbn. rewrite Hc, Ho.
        assert (0 ≤ sum_of (overrun dm) (children (ck_parent_run_id row) d)).
        { apply sum_of_nonneg. intros c _. unfold overrun. lia. }
        split; [lia|split; [|lia]]. intros Hlim. pose proof (not_exhausted dm _ _ Hdm Hex Hlim). lia.
      * rewrite lookup_insert_ne, app_nil_r by done. by apply (cw_account d Hwf).
    + intros p. rewrite Hch, length_app. pose proof (cw_count d Hwf p).
      destruct (String.eqb_spec (ck_parent_run_id row) p) as [<-|Hne]; cbn; lia.
    + intros p n. rewrite Hch. destruct (String.eqb_spec (ck_parent_run_id row) p) as [<-|Hne].
      * rewrite graph_of_snoc, Hrow; [apply Hacyc|].
        rewrite map_app. apply NoDup_app. split; [by apply children_unique|]. split; [|apply NoDup_singleton].
        intros x Hx ->%list_elem_of_singleton. apply Hnew.
        apply list_elem_of_fmap in Hx as (c & -> & Hc). apply list_elem_of_fmap_2.
        by apply list_elem_of_In, filter_In, proj1, list_elem_of_In in Hc.
      * rewrite app_nil_r. apply (cw_acyclic d Hwf).
Qed.
(** ** Settlements keep the account *)

Lemma filter_update {A} (q p : A → bool) (f : A → A) l :
  (∀ x, q (f x) = q x) → List.filter q (update_where p f l) = update_where p f (List.filter q l).
Proof.
  intros Hq. induction l as [|x l IH]; cbn; [done|]. fold (update_where p f l).
  destruct (p x) eqn:Hp; rewrite ?Hq, IH; (destruct (q x); [|done]); cbn; by rewrite Hp.
Qed.

Lemma map_update_same {A B} (g : A → B) (p : A → bool) (f : A → A) l :
  (∀ x, g (f x) = g x) → map g (update_where p f l) = map g l.
Proof. intros Hg. by apply map_update. Qed.

Lemma graph_of_update p f l :
  (∀ c, ck_child_run_id (f c) = ck_child_run_id c) → (∀ c, task_deps (f c) = task_deps c) →
  graph_of (update_where p f l) = graph_of l.
Proof.
  intros Hid Hds. unfold graph_of. f_equal. apply map_update_same. intros c. by rewrite Hid, Hds.
Qed.

Definition nonneg (o : option Z) : Prop := match o with Some z => 0 ≤ z | None => True end.

Lemma settled_charge dm tu mu ru eu artifact now c :
  is_dim dm → ck_budget_settled c = false → (∀ dm, is_dim dm → d_used dm c = None) →
  charge dm (settled_row tu mu ru eu artifact now c) =
    d_share dm (mkShare (default (ck_budget_tokens c) tu) (default (ck_budget_time_ms c) mu)
                  (default (ck_budget_retries c) ru) (default (ck_budget_effects c) eu)).
Proof.
  intros Hdm Hs Hused. specialize (Hused dm Hdm).
  destruct Hdm; cbn in *; rewrite Hused; [destruct tu|destruct mu|destruct ru|destruct eu]; done.
Qed.

Lemma settle_budget_dim dm budget charge now b :
  is_dim dm → d_limit dm (settle_budget budget charge now b) = d_limit dm b ∧
    d_reserved dm (settle_budget budget charge now b) =
      Z.max 0 (d_reserved dm b - d_share dm budget + d_share dm charge).
Proof. by destruct 1. Qed.

Lemma child_key p c r : is_child c r && is_child_of p r = true ↔ ck_child_run_id r = c ∧ ck_parent_run_id r = p.
Proof. unfold is_child, is_child_of. by rewrite andb_true_iff, !String.eqb_eq. Qed.

Lemma settle_cases p c tu mu ru eu artifact now d u d' :
  settle_tx p c tu mu ru eu artifact now d = Ok (u, d') →
  d' = d ∨
  ∃ r, r ∈ tasks_of d ∧ ck_child_run_id r = c ∧ ck_parent_run_id r = p ∧ ck_budget_settled r = false ∧
    let charge := mkShare (default (ck_budget_tokens r) tu) (default (ck_budget_time_ms r) mu)
                    (default (ck_budget_retries r) ru) (default (ck_budget_effects r) eu) in
    tasks_of d' = update_where (λ r, is_child c r && is_child_of p r) (settled_row tu mu ru eu artifact now) (tasks_of d) ∧
    ∀ p', budget_row p' d' = (if String.eqb p p' then settle_budget (share_of r) charge now <$> budget_row p d
                              else budget_row p' d).
Proof.
  unfold settle_tx. rewrite tx_get_bind. destruct (List.find _ (tasks_of d)) as [r|] eqn:Hf; [|done].
  apply find_Some_elem in Hf as [Hr Hk%child_key]. destruct (ck_budget_settled r) eqn:Hs.
  { intros [= _ <-]. by left. }
  intros Hd. right. exists r. destruct Hk as [Hid Hp]. do 4 (split; [done|]).
  revert Hd. unfold tx_bind, tx_modify, update_budget. intros [= _ <-]. cbv zeta. split.
  - unfold tasks_of. by destruct (budget_row p d).
  - intros p'. unfold budget_row. destruct (child_budgets (run_tables d) !! p) as [b|] eqn:Hb; cbn.
    + destruct (String.eqb_spec p p') as [<-|Hne]; [by rewrite lookup_insert_eq|by rewrite lookup_insert_ne].
    + destruct (String.eqb_spec p p') as [<-|Hne]; [done|done].
Qed.

(** The account of a parent after one of its children is settled. *)
Lemma settle_accounted dm q tu mu ru eu artifact ch now l r b :
  is_dim dm → accounted dm l b → NoDup (map ck_child_run_id l) → r ∈ l → q r = true →
  (∀ x, q x = true → ck_child_run_id x = ck_child_run_id r) → (∀ x, x ∈ l → 0 ≤ charge dm x) →
  ck_budget_settled r = false →
  charge dm (settled_row tu mu ru eu artifact now r) = d_share dm ch → 0 ≤ d_share dm ch →
  accounted dm (update_where q (settled_row tu mu ru eu artifact now) l) (settle_budget (share_of r) ch now b).
Proof.
  intros Hdm (Hres & Hle & Hall) Hnd Hr Hqr Hkey Hpos Hs Hc Hch.
  destruct (settle_budget_dim dm (share_of r) ch now b Hdm) as [Hl' Hr'].
  unfold accounted. rewrite Hl', Hr', !(sum_of_update ck_child_run_id _ q _ l r) by done.
  rewrite Hc, (share_of_budget dm r Hdm).
  assert (charge dm r = d_budget dm r) as Hcr by (unfold charge; by rewrite Hs).
  pose proof (sum_of_elem (charge dm) l r Hpos Hr) as Hsr. rewrite Hcr in *.
  assert (d_budget dm (settled_row tu mu ru eu artifact now r) = d_budget dm r) as Hbud by (by destruct Hdm).
  assert (overrun dm r = 0 ∧ overrun dm (settled_row tu mu ru eu artifact now r)
    = Z.max 0 (d_share dm ch - d_budget dm r)) as [-> ->] by (unfold overrun; rewrite Hc, Hcr, Hbud; lia).
  assert (0 ≤ d_limit dm b + d_max dm + sum_of (overrun dm) l) by (specialize (Hpos r Hr); lia).
  split; [lia|split; [|lia]]. intros Hlim. specialize (Hle Hlim). lia.
Qed.

Lemma settle_wf p c tu mu ru eu artifact now d u d' :
  child_wf d → Forall nonneg [tu; mu; ru; eu] → settle_tx p c tu mu ru eu artifact now d = Ok (u, d') → child_wf d'.
Proof.
  intros Hwf Hnn Hd. destruct (settle_cases _ _ _ _ _ _ _ _ _ _ _ Hd) as [->|(r & Hr & Hid & Hp & Hs & Ht & Hb)]; [done|].
  set (q := λ r, is_child c r && is_child_of p r) in *. set (f := settled_row tu mu ru eu artifact now) in *.
  set (ch := mkShare _ _ _ _) in Hb.
  assert (∀ dm, is_dim dm → d_used dm r = None) as Hused by (intros dm Hdm; by apply (cw_rows d Hwf r Hr)).
  assert (∀ x, x ∈ tasks_of d → q x = true → x = r) as Huniq.
  { intros x Hx [Hxid _]%child_key. eapply (NoDup_key_inj ck_child_run_id); [apply Hwf|done|done|congruence]. }
  assert (∀ dm, is_dim dm → charge dm (f r) = d_share dm ch ∧ 0 ≤ d_share dm ch) as Hch.
  { intros dm Hdm. split; [by apply settled_charge|]. rewrite !Forall_cons in Hnn. destruct Hnn as (? & ? & ? & ? & _).
    destruct (proj2 (cw_rows d Hwf r Hr) dm Hdm) as [Hpos _]. unfold charge in Hpos. rewrite Hs in Hpos.
    destruct Hdm; cbn in *; [destruct tu|destruct mu|destruct ru|destruct eu]; done. }
  assert (∀ p', children p' d' = update_where q f (children p' d)) as Hchild.
  { intros p'. unfold children. rewrite Ht. by apply filter_update. }
  split.
  - rewrite Ht, map_update_same by done. apply Hwf.
  - intros x. rewrite Ht. intros (y & Hy & ->)%elem_of_update. destruct (q y) eqn:Hq; [|by apply Hwf].
    rewrite (Huniq y Hy Hq). split; [by apply (cw_rows d Hwf r Hr)|].
    intros dm Hdm. destruct (Hch dm Hdm) as (-> & ?). by split.
  - intros p' dm Hdm. rewrite Hb, Hchild. destruct (String.eqb_spec p p') as [<-|Hne].
    + pose proof (cw_account d Hwf p dm Hdm) as Ha. destruct (budget_row p d) as [b|]; cbn; [|by rewrite Ha].
      apply settle_accounted; try (done || apply Hch; done).
      * by apply children_unique.
      * apply list_elem_of_In, filter_In. split; [by apply list_elem_of_In|by apply String.eqb_eq].
      * by apply child_key.
      * intros x [-> _]%child_key. done.
      * intros x Hx. apply list_elem_of_In, filter_In, proj1, list_elem_of_In in Hx. by apply (cw_rows d Hwf x Hx).
    + assert (update_where q f (children p' d) = children p' d) as ->; [|by apply (cw_account d Hwf)].
      apply map_id_elem. intros x Hx. destruct (q x) eqn:Hq; [|done].
      apply child_key in Hq as [_ Hq]. apply list_elem_of_In, filter_In, proj2 in Hx.
      unfold is_child_of in Hx. apply String.eqb_eq in Hx. congruence.
  - intros p'. rewrite Hchild. unfold update_where. rewrite length_map. apply Hwf.
  - intros p' n. rewrite Hchild, graph_of_update by done. apply Hwf.
Qed.
(** ** The operations *)

(** Arguments of the machine types: all shares and measurements are unsigned. *)
Definition unsigned (s : ChildExecutionBudget) : Prop :=
  0 ≤ tokens s ∧ 0 ≤ time_ms s ∧ 0 ≤ retries s ∧ 0 ≤ effects s.

Lemma unsigned_share s : unsigned s → share_nonneg s.
Proof. intros (? & ? & ? & ?) dm []; done. Qed.

Inductive child_step (d d' : Db) : Prop :=
| cs_reserve p c task hash trust share aggregate ds now r :
    unsigned share → unsigned aggregate →
    reserve_child_task_with_budgets p c task hash trust share aggregate ds now d = (r, d') → child_step d d'
| cs_settle p c tu mu ru eu artifact now r :
    Forall nonneg [tu; mu; ru; eu] →
    settle_child_task_with_usage p c tu mu ru eu artifact now d = (r, d') → child_step d d'
| cs_other :
    tasks_of d' = tasks_of d → child_budgets (run_tables d') = child_budgets (run_tables d) → child_step d d'.

(** A reservation is refused without effect, or runs its transaction on the
    encoded contract. *)
Lemma reserve_inv p c task hash trust share aggregate ds now d r d' :
  reserve_child_task_with_budgets p c task hash trust share aggregate ds now d = (r, d') →
  (∃ e, r = Err e ∧ d' = d) ∨
  ∃ b task_json trust_json deps_json,
    let row := new_child_row p c task_json hash trust_json deps_json share now in
    r = Ok b ∧ budgets_fit share aggregate = true ∧ deps_from_str deps_json = Ok ds ∧ reserve_tx row share aggregate ds now d = Ok (b, d').
Proof.
  unfold reserve_child_task_with_budgets, op_err.
  destruct (budgets_fit _ _); cbn [negb]; [|intros [= <- <-]; left; by eexists].
  destruct (negb (dependencies_ok _)); [intros [= <- <-]; left; by eexists|].
  destruct (value_to_string task) as [tj|]; [|intros [= <- <-]; left; by eexists].
  destruct (value_to_string trust) as [uj|]; [|intros [= <- <-]; left; by eexists].
  destruct (deps_to_string ds) as [dj|] eqn:Hj; [|intros [= <- <-]; left; by eexists].
  destruct (_ || _); [intros [= <- <-]; left; by eexists|].
  destruct (i64_max <? time_ms share); [intros [= <- <-]; left; by eexists|].
  destruct (i64_max <? time_ms aggregate); [intros [= <- <-]; left; by eexists|].
  intros Hd. destruct r as [b|e].
  - right. exists b, tj, uj, dj. cbv zeta. split; [done|]. split; [done|]. split; [by apply deps_from_to|]. by apply op_tx_ok.
  - left. exists e. split; [done|]. by apply op_tx_err in Hd.
Qed.

Lemma budgets_fit_dim dm share aggregate :
  budgets_fit share aggregate = true → is_dim dm → d_share dm share ≤ d_share dm aggregate.
Proof. unfold budgets_fit. rewrite negb_true_iff, !orb_false_iff, !Z.ltb_ge. intros Hf []; cbn; tauto. Qed.

Lemma child_step_wf d d' : child_wf d → child_step d d' → child_wf d'.
Proof.
  intros Hwf [p c task hash trust share aggregate ds now r Hs Ha Hd|p c tu mu ru eu artifact now r Hn Hd|Ht Hb].
  - destruct (reserve_inv _ _ _ _ _ _ _ _ _ _ _ _ Hd) as [(e & _ & ->)|(b & tj & uj & dj & _ & Hfit & Hj & Htx)]; [done|].
    destruct share as [st sm sr se].
    eapply (reserve_wf _ aggregate ds now d b d' Hwf Htx); [by apply unsigned_share..| |done| |done].
    + intros dm Hdm. by apply (budgets_fit_dim dm (mkShare st sm sr se)).
    + by intros dm [].
  - unfold settle_child_task_with_usage in Hd. destruct (match mu with Some _ => _ | None => _ end);
      [unfold op_err in Hd; by simplify_eq|].
    destruct r as [u|e]; [|apply op_tx_err in Hd; by subst].
    apply op_tx_ok in Hd. by eapply settle_wf.
  - by eapply child_wf_same.
Qed.

Lemma child_steps_wf d d' : child_wf d → rtc child_step d d' → child_wf d'.
Proof. intros Hwf. induction 1 as [|d d1 d2 Hs _ IH]; [done|]. apply IH. by eapply child_step_wf. Qed.

(** C22: The children's account is exact: from a store without child tasks,
    after any sequence of reservations, settlements and operations on other
    tables, each column of a parent's budget row is the sum of what its
    children cost (the reservation of an open child, the measured use of a
    settled one).  It exceeds the parent's limit by no more than what settled
    children used beyond their own reservations when the limit is below the
    largest number of its type.  For any limit that sum may be exceeded once
    by that largest number, and it is when the limit is that number
    ([largest_limit_overcommits]): the check's saturating sum then hides the
    overrun. *)
Theorem child_budgets_exact d0 d p b dm :
  tasks_of d0 = [] → child_budgets (run_tables d0) = ∅ → rtc child_step d0 d →
  budget_row p d = Some b → is_dim dm →
  d_reserved dm b = sum_of (charge dm) (children p d) ∧
  (d_limit dm b < d_max dm → d_reserved dm b ≤ d_limit dm b + sum_of (overrun dm) (children p d)) ∧
  d_reserved dm b ≤ d_limit dm b + d_max dm + sum_of (overrun dm) (children p d).
Proof.
  intros Ht Hb Hsteps Hrow Hdm. assert (child_wf d) as Hwf by (eapply child_steps_wf; [by apply child_wf_empty|done]).
  pose proof (cw_account d Hwf p dm Hdm) as Ha. by rewrite Hrow in Ha.
Qed.

(** C29: Child tasks never wait for each other in a circle: in every reachable
    store a parent has at most 128 of them and no child depends on itself
    through any chain of the parent's children. *)
Theorem children_never_deadlock d0 d p :
  tasks_of d0 = [] → child_budgets (run_tables d0) = ∅ → rtc child_step d0 d →
  (length (children p d) ≤ MAX_CHILD_TASKS_PER_PARENT)%nat ∧ ∀ n, ¬ tc (edge (graph_of (children p d))) n n.
Proof.
  intros Ht Hb Hsteps. assert (child_wf d) as Hwf by (eapply child_steps_wf; [by apply child_wf_empty|done]).
  split; [apply Hwf|apply (cw_acyclic d Hwf)].
Qed.
(** ** Repeating a reservation *)

Lemma insert_rows_total l g :
  (∀ c, c ∈ l → ∃ ds, deps_from_str (ck_dependencies_json c) = Ok ds) → ∃ g', insert_rows l g = Ok g'.
Proof.
  revert g. induction l as [|c l IH]; intros g Hl; cbn [insert_rows]; [by eexists|].
  destruct (Hl c) as [ds ->]; [by left|]. apply IH. intros c' Hc'. apply Hl. by right.
Qed.

Lemma children_rows_ok p d :
  child_wf d → insert_rows (children_rows p d) ∅ = Ok (graph_of (children p d)) ∧
  size (graph_of (children p d)) = length (children p d).
Proof.
  intros Hwf. destruct (insert_rows_total (children_rows p d) ∅) as [g Hg].
  { intros c Hc. rewrite (children_rows_perm p d Hwf) in Hc.
    apply list_elem_of_In, filter_In, proj1, list_elem_of_In in Hc. by apply (cw_rows d Hwf c Hc). }
  destruct (insert_children_ok p d g Hwf Hg) as [-> Hs]. by split.
Qed.

(** The columns of a parent's row are in range. *)
Lemma read_limits_ok p d b :
  budget_row p d = Some b →
  (∀ dm, is_dim dm → 0 ≤ d_limit dm b ≤ d_max dm ∧ 0 ≤ d_reserved dm b ≤ d_max dm) →
  read_limits p d = Ok (b, d).
Proof.
  intros Hb Hr. pose proof (Hr _ dim_tokens) as Ht. pose proof (Hr _ dim_time) as Hm.
  pose proof (Hr _ dim_retries) as Hy. pose proof (Hr _ dim_effects) as He. cbn in Ht, Hm, Hy, He.
  assert (∀ z, 0 ≤ z ≤ u32_max → row_u32 z = Ok z) as H32.
  { intros z Hz. unfold row_u32. destruct (Z.leb_spec 0 z), (Z.leb_spec z u32_max); (done || lia). }
  assert (∀ z, 0 ≤ z ≤ i64_max → row_i64 z = Ok z) as H64.
  { intros z Hz. unfold row_i64, i64_min in *. destruct (Z.leb_spec (- 2 ^ 63) z), (Z.leb_spec z i64_max); (done || lia). }
  unfold read_limits. rewrite tx_get_bind, Hb.
  rewrite !H32, !H64 by lia. by rewrite !tx_lift_bind.
Qed.

Lemma same_contract_row p c tj hash uj dj share now now' :
  same_contract (new_child_row p c tj hash uj dj share now) (new_child_row p c tj hash uj dj share now') = true.
Proof. unfold same_contract. cbn. by rewrite !String.eqb_refl, !Z.eqb_refl. Qed.

(** The parent's limits after a reservation whose limits are not the largest
    numbers. *)
Lemma reserved_in_range share aggregate now b0 dm :
  is_dim dm → same_limits b0 aggregate = true → exhausted b0 share = false →
  d_share dm aggregate < d_max dm → 0 ≤ d_reserved dm b0 → 0 ≤ d_share dm share → 0 ≤ d_share dm aggregate →
  let b := charge_budget share now b0 in
  0 ≤ d_limit dm b ≤ d_max dm ∧ 0 ≤ d_reserved dm b ≤ d_max dm.
Proof.
  intros Hdm Hl Hex Hmax Hnn Hs Ha b. destruct (charge_budget_dim dm share now b0 Hdm) as [Hbl Hbr].
  unfold b. rewrite Hbl, Hbr. pose proof (same_limits_dim dm b0 aggregate Hdm Hl).
  pose proof (not_exhausted dm b0 share Hdm Hex ltac:(lia)). lia.
Qed.

(** A repeated transaction of a stored contract. *)
Lemma replay_tx p c tj hash uj dj share aggregate ds now now' d d1 :
  child_wf d → child_wf d1 → unsigned share → unsigned aggregate →
  (∀ dm, is_dim dm → d_share dm aggregate < d_max dm) → deps_from_str dj = Ok ds →
  reserve_tx (new_child_row p c tj hash uj dj share now) share aggregate ds now d = Ok (true, d1) →
  reserve_tx (new_child_row p c tj hash uj dj share now') share aggregate ds now' d1 =
    if (length (children p d1) <? MAX_CHILD_TASKS_PER_PARENT)%nat then Ok (false, d1)
    else Err (Invariant "parent child-task limit (128) reached").
Proof.
  intros Hwf Hwf1 Hs Ha Hmax Hj Hd. destruct (reserve_cases _ _ _ _ _ _ _ _ Hwf Hd) as
    (Hrefs & Hlim & Hruns & Hlt & Hacyc & [[? _]|(_ & Hnew & Hex & _ & Ht & Hb)]); [done|].
  cbn [ck_parent_run_id ck_child_run_id new_child_row] in Hrefs, Hlim, Hnew, Hex, Hb.
  set (row := new_child_row p c tj hash uj dj share now) in *. set (b0 := ensured p aggregate now d) in *.
  assert (budget_row p d1 = Some (charge_budget share now b0)) as Hrow by (unfold budget_row; rewrite Hb; apply lookup_insert_eq).
  assert (row ∈ tasks_of d1) as Hin by (rewrite Ht; set_solver).
  unfold reserve_tx. cbv zeta. rewrite tx_get_bind. cbn [ck_parent_run_id ck_child_run_id new_child_row].
  assert (contract_refs p c d1 = true) as -> by (unfold contract_refs, find_run in *; by rewrite Hruns).
  destruct (children_rows_ok p d1 Hwf1) as [Hg Hsize]. cbn [negb]. rewrite Hg, tx_lift_bind, Hsize.
  destruct (Nat.leb_spec MAX_CHILD_TASKS_PER_PARENT (length (children p d1))) as [Hfull|Hroom].
  { destruct (Nat.ltb_spec (length (children p d1)) MAX_CHILD_TASKS_PER_PARENT); [lia|done]. }
  destruct (Nat.ltb_spec (length (children p d1)) MAX_CHILD_TASKS_PER_PARENT); [|lia].
  assert (graph_of (children p d1) !! c = Some ds) as Hc.
  { apply graph_of_lookup; [by apply children_unique|]. exists row. split_and!; [|done|unfold task_deps; cbn; by rewrite Hj].
    apply list_elem_of_In, filter_In. split; [by apply list_elem_of_In|]. apply String.eqb_refl. }
  rewrite (insert_id _ _ _ Hc), (proj2 (found_cycle_None _) (cw_acyclic d1 Hwf1 p)).
  assert (ensure_budget p aggregate now' d1 = Ok ((), d1)) as He by (unfold ensure_budget, tx_modify; by rewrite Hrow).
  unfold tx_bind at 1. rewrite He. unfold tx_bind. rewrite (read_limits_ok p d1 _ Hrow).
  - assert (same_limits (charge_budget share now b0) aggregate = true) as -> by exact Hlim. cbn [negb].
    assert (List.find (is_child c) (tasks_of d1) = Some row) as ->; [|by unfold row; rewrite same_contract_row].
    apply (find_key ck_child_run_id _ c); [|apply Hwf1|done|done]. intros x. apply String.eqb_eq.
  - intros dm Hdm. eapply reserved_in_range; [done|exact Hlim|exact Hex|by apply Hmax| |by apply unsigned_share..].
    destruct (ensured_accounted p aggregate now d dm Hwf (unsigned_share _ Ha) Hdm) as [Hacc _].
    fold b0 in Hacc. rewrite Hacc.
    apply sum_of_nonneg. intros x Hx. apply list_elem_of_In, filter_In, proj1, list_elem_of_In in Hx.
    by apply (cw_rows d Hwf x Hx).
Qed.

(** Repeating a reservation charges nothing twice: right after a
    successful reservation the same call, at any later time, reports that it
    made no new one and leaves the store as it is, provided the parent has
    room for another task and its limits are below the largest numbers of
    their types; when the reservation was the parent's 128th, the repetition
    is refused instead of recognised. *)
Theorem reserve_replay p c task hash trust share aggregate ds now now' d d1 :
  child_wf d → unsigned share → unsigned aggregate →
  (∀ dm, is_dim dm → d_share dm aggregate < d_max dm) →
  reserve_child_task_with_budgets p c task hash trust share aggregate ds now d = (Ok true, d1) →
  reserve_child_task_with_budgets p c task hash trust share aggregate ds now' d1 =
    if (length (children p d1) <? MAX_CHILD_TASKS_PER_PARENT)%nat then (Ok false, d1)
    else (Err (RDb (Invariant "parent child-task limit (128) reached")), d1).
Proof.
  intros Hwf Hs Ha Hmax Hd.
  assert (child_wf d1) as Hwf1 by (eapply child_step_wf; [exact Hwf|]; eapply cs_reserve; [exact Hs|exact Ha|exact Hd]).
  revert Hd. unfold reserve_child_task_with_budgets.
  destruct (negb (budgets_fit _ _)); [done|]. destruct (negb (dependencies_ok _)); [done|].
  destruct (value_to_string task) as [tj|]; [|done]. destruct (value_to_string trust) as [uj|]; [|done].
  destruct (deps_to_string ds) as [dj|] eqn:Hj; [|done]. apply deps_from_to in Hj.
  destruct (_ || _); [done|]. destruct (i64_max <? time_ms share); [done|].
  destruct (i64_max <? time_ms aggregate); [done|]. intros Htx%op_tx_ok.
  unfold op_tx, transaction. rewrite (replay_tx p c tj hash uj dj share aggregate ds now now' d d1) by done.
  by destruct (_ <? _)%nat.
Qed.
End Safety.

(** ** A parent with two children *)

Definition toy_codec : ChildCodec := {|
  Value := string;
  value_null := "";
  value_to_string v := Ok v;
  value_from_str j := Ok j;
  deps_to_string l := match l with [] => Ok "" | [x] => Ok ("!" +:+ x) | _ => Err "unsupported" end;
  deps_from_str j := match j with EmptyString => Ok [] | String _ x => Ok [x] end;
  key_order g := (map_to_list g).*1
|}.

Lemma toy_codec_laws : @ChildCodecLaws toy_codec.
Proof.
  split.
  - by intros [|x [|]] j [= <-].
  - intros g n. cbn. rewrite list_elem_of_fmap. split.
    + intros ([k v] & -> & Hin%elem_of_map_to_list). by eexists.
    + intros [v Hv]. exists (n, v). split; [done|]. by apply elem_of_map_to_list.
Qed.

#[local] Existing Instance toy_codec.
#[local] Existing Instance toy_codec_laws.

Definition toy_parent : Db :=
  set_runs (λ _, [mkRun "p" "c" None RunRunning 0 1 100 100 None; mkRun "k1" "c" (Some "p") RunPending 0 1 100 100 None;
                  mkRun "k2" "c" (Some "p") RunPending 0 1 100 100 None]) empty_db.
Definition toy_hash : string := "0123456789012345678901234567890123456789012345678901234567890123".
Definition toy_share : ChildExecutionBudget := mkShare 600 1000 1 0.
Definition toy_limits : ChildExecutionBudget := mkShare 1000 5000 3 0.
Definition toy_value (s : string) : @Value toy_codec := s.
Definition toy_reserve (k : string) (ds : list string) (now : Z) : op bool :=
  reserve_child_task_with_budgets "p" k (toy_value "task") toy_hash (toy_value "ceiling") toy_share toy_limits ds now.

Definition toy_one : Db := (toy_reserve "k1" [] 10 toy_parent).2.
(** The first child used more tokens than its share. *)
Definition toy_settled : Db := (settle_child_task_with_usage "p" "k1" (Some 700) None None None None 20 toy_one).2.

Lemma toy_settled_reached : rtc child_step toy_parent toy_settled.
Proof.
  eapply rtc_l; [|apply rtc_once].
  - apply (cs_reserve _ toy_one "p" "k1" (toy_value "task") toy_hash (toy_value "ceiling") toy_share toy_limits [] 10 (Ok true)).
    + by vm_compute.
    + by vm_compute.
    + by vm_compute.
  - apply (cs_settle _ toy_settled "p" "k1" (Some 700) None None None None 20 (Ok ())).
    + repeat constructor. cbn. lia.
    + by vm_compute.
Qed.

Lemma child_budgets_exact_witness :
  ∃ b, budget_row "p" toy_settled = Some b ∧
    d_reserved token_dim b = sum_of (charge token_dim) (children "p" toy_settled) ∧ d_reserved token_dim b = 700.
Proof.
  exists (mkChildBudget 1000 700 5000 1000 3 1 0 0 20). split; [by vm_compute|]. split; [|done].
  apply (child_budgets_exact toy_parent toy_settled "p" (mkChildBudget 1000 700 5000 1000 3 1 0 0 20) token_dim).
  - done.
  - done.
  - apply toy_settled_reached.
  - by vm_compute.
  - constructor.
Defined.

Lemma children_never_deadlock_witness : ¬ tc (edge (graph_of (children "p" toy_settled))) "k1" "k1".
Proof.
  apply (children_never_deadlock toy_parent toy_settled "p").
  - done.
  - done.
  - apply toy_settled_reached.
Defined.

Lemma reserve_replay_witness : toy_reserve "k1" [] 30 toy_one = (Ok false, toy_one).
Proof.
  apply (reserve_replay "p" "k1" (toy_value "task") toy_hash (toy_value "ceiling") toy_share toy_limits [] 10 30 toy_parent toy_one).
  - by apply child_wf_empty.
  - by vm_compute.
  - by vm_compute.
  - intros dm []; by vm_compute.
  - by vm_compute.
Defined.

(** With the largest token limit two children may reserve all of it each:
    the saturating sum of the check hides the overrun, and the sum then
    stored is no longer read as a [u32], so that a third call fails. *)
Definition toy_reserve_all (k : string) (now : Z) : op bool :=
  reserve_child_task_with_budgets "p" k (toy_value "task") toy_hash (toy_value "ceiling")
    (mkShare u32_max 1 0 0) (mkShare u32_max 1000 0 0) [] now.
Definition toy_both : Db := (toy_reserve_all "k2" 20 (toy_reserve_all "k1" 10 toy_parent).2).2.

Lemma largest_limit_overcommits :
  (cb_tokens_reserved <$> budget_row "p" toy_both) = Some (2 * u32_max) ∧
  (toy_reserve_all "k2" 30 toy_both).1 = Err (RDb (Sqlite "Integer out of range")).
Proof. split; by vm_compute. Qed.
