(* ===== verification/Frames.v ===== *)
(** * Frames: what a transaction leaves alone

    The stores share one database, and most theorems that combine two of them
    need that the operations of one do not touch the tables of the other.
    [keeps f m] says that a successful [m] leaves the part [f] of the database
    as it was; the lemmas and the tactic below derive it from the structure of
    [m], and the two sections apply it to the run store and to the outbox. *)

From S2P Require Import Prelude Wire Text RunSchema Schema Information InformationStore Outbox.
From S2P Require Import RunBase RunBudgets RunStore RunInvariant RunSafety.

(** ** Running the first of two steps *)

Lemma tx_bind_step {S A B} (m : tx S A) (k : A → tx S B) d a d' : m d = Ok (a, d') → tx_bind m k d = k a d'.
Proof. unfold tx_bind. by intros ->. Qed.
Lemma tx_bind_err {S A B} (m : tx S A) (k : A → tx S B) d e : m d = Err e → tx_bind m k d = Err e.
Proof. unfold tx_bind. by intros ->. Qed.
Lemma tx_guard_true {S A} e (k : unit → tx S A) d : tx_bind (tx_guard true e) k d = k () d.
Proof. done. Qed.
Lemma tx_guard_false {S A} e (k : unit → tx S A) d : tx_bind (tx_guard false e) k d = Err e.
Proof. done. Qed.
Lemma op_bind_step {A B} (m : op A) (k : A → op B) d a d' : m d = (Ok a, d') → op_bind m k d = k a d'.
Proof. unfold op_bind. by intros ->. Qed.

(** ** Transactions and operations that keep a part of the database *)

Definition keeps {A B} (f : Db → B) (m : tx Db A) : Prop :=
  ∀ d a d', m d = Ok (a, d') → f d' = f d.
Definition op_keeps {A B} (f : Db → B) (m : op A) : Prop :=
  ∀ d r d', m d = (r, d') → f d' = f d.

Section Keeps.
Context {B : Type} (f : Db → B).

Lemma keeps_ret {A} (a : A) : keeps f (tx_ret a).
Proof. by intros d x d' [= _ <-]. Qed.
Lemma keeps_get : keeps f tx_get.
Proof. by intros d x d' [= _ <-]. Qed.
Lemma keeps_err {A} e : keeps f (tx_err e : tx Db A).
Proof. done. Qed.
Lemma keeps_lift {A} (r : result DbError A) : keeps f (tx_lift r).
Proof. by intros d x d' [_ ->]%tx_lift_ok. Qed.
Lemma keeps_guard b e : keeps f (tx_guard b e).
Proof. by intros d x d' [_ ->]%tx_guard_ok. Qed.
Lemma keeps_bind {A C} (m : tx Db A) (k : A → tx Db C) :
  keeps f m → (∀ a, keeps f (k a)) → keeps f (tx_bind m k).
Proof. intros Hm Hk d c d' (a & d1 & H1%Hm & H2%Hk)%tx_bind_ok. congruence. Qed.
Lemma keeps_modify g : (∀ d, f (g d) = f d) → keeps f (tx_modify g).
Proof. intros Hg d x d' [= _ <-]. apply Hg. Qed.

Lemma op_keeps_ret {A} (a : A) : op_keeps f (op_ret a).
Proof. by intros d r d' [= _ <-]. Qed.
Lemma op_keeps_err {A} e : op_keeps f (op_err e : op A).
Proof. by intros d r d' [= _ <-]. Qed.
Lemma op_keeps_get {A} (g : Db → A) : op_keeps f (op_get g).
Proof. by intros d r d' [= _ <-]. Qed.
Lemma op_keeps_bind {A C} (m : op A) (k : A → op C) :
  op_keeps f m → (∀ a, op_keeps f (k a)) → op_keeps f (op_bind m k).
Proof.
  intros Hm Hk d r d'. unfold op_bind. destruct (m d) as [[a|e] d1] eqn:Hd.
  - intros Hr%Hk. apply Hm in Hd. congruence.
  - intros [= _ <-]. by eapply Hm.
Qed.
Lemma op_keeps_tx {A} (m : tx Db A) : keeps f m → op_keeps f (op_tx m).
Proof.
  intros Hm d r d'. unfold op_tx, transaction. destruct (m d) as [[a d1]|e] eqn:Hd; intros [= _ <-]; [|done].
  by eapply Hm.
Qed.
Lemma op_keeps_run rid : op_keeps f (required_run rid).
Proof. intros d r d'. unfold required_run. destruct (find_run rid d); by intros [= _ <-]. Qed.
Lemma op_keeps_step rid sid : op_keeps f (required_step rid sid).
Proof. intros d r d'. unfold required_step. destruct (find_step rid sid d); by intros [= _ <-]. Qed.
End Keeps.

Create HintDb frames.
#[export] Hint Resolve keeps_ret keeps_get keeps_err keeps_lift keeps_guard op_keeps_ret op_keeps_err
  op_keeps_get op_keeps_run op_keeps_step : frames.

(** Decompose an operation or a transaction; the leaves are in the hint
    database. *)
Ltac keeps_tac :=
  repeat first
    [ progress intros
    | solve [eauto with frames]
    | apply keeps_bind | apply op_keeps_bind | apply op_keeps_tx
    | apply keeps_modify
    | match goal with
      | |- keeps _ (if ?b then _ else _) => destruct b
      | |- op_keeps _ (if ?b then _ else _) => destruct b
      | |- keeps _ (match ?x with _ => _ end) => destruct x
      | |- op_keeps _ (match ?x with _ => _ end) => destruct x
      end
    | done ].

(** ** The run store leaves the outbox alone *)

Definition outbox_part (d : Db) : list OutboxDbRow * Z * list DeliveryRow :=
  (state_outbox d, outbox_last_id d, delivery_events d).

Lemma update_runs_outbox p g : keeps outbox_part (update_runs p g).
Proof. by intros d n d' (_ & -> & _)%update_runs_ok. Qed.
Lemma update_steps_outbox p g : keeps outbox_part (update_steps p g).
Proof. by intros d n d' (_ & -> & _)%update_steps_ok. Qed.
Lemma insert_step_outbox s : keeps outbox_part (insert_or_ignore_step s).
Proof. by intros d n d' [->|(_ & _ & ->)]%insert_step_cases. Qed.
Lemma insert_run_outbox r : keeps outbox_part (insert_or_ignore_run r).
Proof.
  intros d u d'. unfold insert_or_ignore_run. destruct (_ || _); [by intros [= _ <-]|].
  destruct (_ && _); [|done]. by intros [= _ <-].
Qed.
Lemma observe_second_outbox rid now : keeps outbox_part (observe_at_second_tx rid now).
Proof.
  intros d u d'. unfold observe_at_second_tx. destruct (budget_of rid d); [|by intros [= _ <-]].
  destruct (_ <? _); [done|]. by intros [= _ <-].
Qed.
Lemma observe_outbox rid now_ms : keeps outbox_part (execution_budget_at_tx rid now_ms).
Proof.
  intros d u d'. unfold execution_budget_at_tx. destruct (budget_of rid d); [|by intros [= _ <-]].
  destruct (_ <=? _); [by intros [= _ <-]|]. destruct (validate_run_clock _ _); [|done]. by intros [= _ <-].
Qed.
#[export] Hint Resolve update_runs_outbox update_steps_outbox insert_step_outbox insert_run_outbox
  observe_second_outbox observe_outbox : frames.

Lemma finish_step_tx_outbox rid sid owner st output at_ :
  keeps outbox_part (finish_step_tx rid sid owner st output at_).
Proof. unfold finish_step_tx. keeps_tac. Qed.
Lemma next_action_outbox rid now : op_keeps outbox_part (next_safe_action rid now).
Proof. unfold next_safe_action. keeps_tac. Qed.
Lemma advance_outbox rid expected at_ : op_keeps outbox_part (advance_cursor rid expected at_).
Proof. unfold advance_cursor, run_error, advance_cursor_tx. keeps_tac. Qed.
Lemma complete_run_outbox rid expected at_ : op_keeps outbox_part (complete_run rid expected at_).
Proof. unfold complete_run, run_error, complete_run_tx. keeps_tac. Qed.
#[export] Hint Resolve finish_step_tx_outbox next_action_outbox advance_outbox complete_run_outbox : frames.

Lemma recover_one_outbox room now run action : op_keeps outbox_part (recover_one room now run action).
Proof.
  revert run action. induction room as [|room IH]; intros run action; cbn [recover_one]; keeps_tac.
Qed.
#[export] Hint Resolve recover_one_outbox : frames.

Lemma recover_all_outbox room now l : op_keeps outbox_part (recover_all room now l).
Proof. revert room. induction l as [|[run action] l IH]; intros room; cbn [recover_all]; keeps_tac. Qed.

Lemma with_actions_outbox now l : op_keeps outbox_part (with_actions now l).
Proof. induction l as [|r l IH]; cbn [with_actions]; keeps_tac. Qed.
#[export] Hint Resolve recover_all_outbox with_actions_outbox : frames.

(** No operation of the run store touches the outbox. *)
Lemma store_call_outbox {A} (m : op A) : store_call m → op_keeps outbox_part m.
Proof.
  intros Hm. destruct Hm.
  - unfold add_step, add_step_tx. keeps_tac.
  - unfold claim_step, observe_execution_budget_at_second, transition_error, claim_step_tx. keeps_tac.
  - unfold complete_step, finish_step, transition_error. keeps_tac.
  - unfold fail_step, finish_step, transition_error. keeps_tac.
  - unfold wait_step, transition_error, wait_step_tx. keeps_tac.
  - unfold resume_waiting_step, transition_error, resume_step_tx. keeps_tac.
  - keeps_tac.
  - keeps_tac.
  - unfold cancel_run, cancel_run_tx. keeps_tac.
  - unfold fail_run, fail_run_tx, fail_open_steps. keeps_tac.
  - unfold fail_run_if_budget_expired, execution_budget_at, fail_if_expired_tx, fail_open_steps. keeps_tac.
  - unfold recover_completed_transitions, recovery_candidates. keeps_tac.
Qed.

(** ** The outbox leaves the run tables alone *)

Definition runs_part (d : Db) : list RunRecord * RunTables := (state_runs d, run_tables d).

Lemma update_where_runs p g : keeps runs_part (Outbox.update_where p g).
Proof. by intros d n d' [= _ <-]. Qed.
Lemma query_row_runs p : keeps runs_part (query_row p).
Proof. by intros d r d' [-> _]%query_row_ok. Qed.
Lemma record_transition_runs id t at_ n a b c : keeps runs_part (record_transition id t at_ n a b c).
Proof. by intros d u d' [= _ <-]. Qed.
Lemma insert_row_runs now row scope generation : keeps runs_part (insert_row now row scope generation).
Proof. intros d n d'. unfold insert_row. destruct (existsb _ _); [done|]. by intros [= _ <-]. Qed.
Lemma append_redrive_runs k j i a r n t : keeps runs_part (append_redrive_event k j i a r n t).
Proof. by intros d u d' [= _ <-]. Qed.
#[export] Hint Resolve update_where_runs query_row_runs record_transition_runs insert_row_runs
  append_redrive_runs : frames.

(** No operation of the outbox touches the run tables. *)
Lemma outbox_run_runs o : keeps runs_part (outbox_run o).
Proof.
  destruct o; cbn [outbox_run]; unfold discard, enqueue, enqueue_idempotent, enqueue_idempotent_for_agent,
    enqueue_idempotent_guarded, mark_status, claim_with_lease, mark_delivered_with_receipt, mark_unknown,
    record_failure, authorize_unknown_retry, confirm_unknown_delivered, redrive_dead_letter; keeps_tac.
Qed.
