(* ===== verification/RunEffects.v ===== *)
(** * Durable effects and inference attempts

    [crates/core/src/runs.rs]: the call that enqueues an outbox effect and
    completes its step in one transaction, and the attempts of a model step.
    The first half is the operations; the second half composes the run store
    with the outbox: whatever operations of either follow, an effect that was
    enqueued through its step stays enqueued exactly once. *)

From stdpp Require Import relations.
From S2P Require Import Prelude Wire Text RunSchema Schema Information InformationStore Outbox.
From S2P Require Import RunBase RunBudgets RunStore RunInvariant RunSafety Frames.

(** ** Inference attempts *)

Definition attempts (d : Db) : list AttemptRow := inference_attempts (run_tables d).
Definition is_attempt (rid sid : string) (a : AttemptRow) : bool :=
  String.eqb (at_run_id a) rid && String.eqb (at_step_id a) sid.
Definition attempts_of (rid sid : string) (d : Db) : list AttemptRow :=
  List.filter (is_attempt rid sid) (attempts d).

(** [UPDATE state_run_inference_attempts SET .. WHERE ..] *)
Definition update_attempts (p : AttemptRow → bool) (f : AttemptRow → AttemptRow) : tx Db Z := λ d,
  Ok (count_where p (attempts d), set_run_tables (set_attempts (update_where p f)) d).

Definition with_outcome (st : AttemptStatus) (error : option string) (at_ : Z) (a : AttemptRow) : AttemptRow :=
  mkAttempt (at_run_id a) (at_step_id a) (at_no a) st error (at_started_at a) (Some at_).

(** [SELECT EXISTS(.. kind = 'model_request' AND status = 'running' AND lease_owner = ?3)] *)
Definition owns_inference (rid sid owner : string) (d : Db) : bool :=
  existsb (λ s, is_step rid sid s && bool_decide (st_kind s = ModelRequest) && leased_by owner s) (steps_of d).

(** [COALESCE(MAX(attempt_no), 0) + 1]; the numbers are positive. *)
Definition next_attempt (rid sid : string) (d : Db) : Z :=
  foldr Z.max 0 (map at_no (attempts_of rid sid d)) + 1.

Definition start_attempt_tx (rid sid owner : string) (started_at : Z) : tx Db Z :=
  let* d := tx_get in
  tx_guard (owns_inference rid sid owner d)
    (Invariant ("worker does not own inference step '" +:+ rid +:+ "/" +:+ sid +:+ "'")) ;;*
  let* _ := update_attempts (λ a, is_attempt rid sid a && bool_decide (at_status a = AttemptStarted))
    (with_outcome AttemptRetrying (Some "interrupted") started_at) in
  let* d := tx_get in
  let next := next_attempt rid sid d in
  tx_modify (set_run_tables (set_attempts (λ l, l ++ [mkAttempt rid sid next AttemptStarted None started_at None]))) ;;*
  tx_guard (next <=? u32_max) (Invariant "inference attempt counter overflow") ;;*
  tx_ret next.

Definition start_inference_attempt (rid sid owner : string) (started_at : Z) : op Z :=
  op_tx (start_attempt_tx rid sid owner started_at).

Definition not_active {A} (rid sid : string) (n : Z) : op A :=
  op_err (Conflict ("inference attempt '" +:+ rid +:+ "/" +:+ sid +:+ "/" +:+ pretty n +:+ "' is not active")).

Definition finish_inference_attempt (rid sid : string) (n : Z) (succeeded : bool)
    (error_class : option string) (finished_at : Z) : op () :=
  do* changed := op_tx (update_attempts
    (λ a, is_attempt rid sid a && (at_no a =? n)
          && (bool_decide (at_status a = AttemptStarted) || bool_decide (at_status a = AttemptRetrying)))
    (with_outcome (if succeeded then AttemptSucceeded else AttemptFailed) error_class finished_at)) in
  if negb (changed =? 1) then not_active rid sid n else op_ret ().

Definition mark_inference_attempt_retrying (rid sid : string) (n : Z) (error_class : string)
    (finished_at : Z) : op () :=
  do* changed := op_tx (update_attempts
    (λ a, is_attempt rid sid a && (at_no a =? n) && bool_decide (at_status a = AttemptStarted))
    (with_outcome AttemptRetrying (Some error_class) finished_at)) in
  if negb (changed =? 1) then not_active rid sid n else op_ret ().

(** ** Enqueueing an effect *)

Definition has_key (k : string) (r : OutboxDbRow) : bool := String.eqb (ob_idempotency_key r) k.

Definition effect_row (id : Z) (row : OutboxRow) : OutboxDbRow :=
  mkOutboxDbRow id (or_idempotency_key row) (or_conversation_id row) (or_effect_kind row) (or_payload row)
    (status_str (or_status row)) (or_attempts row) (or_next_attempt_at row) (or_last_error row)
    (or_enqueued_seq row) None None None None.

(** [INSERT OR IGNORE INTO state_outbox]: the autoincremented id is taken even
    when the row is ignored. *)
Definition insert_or_ignore_effect (row : OutboxRow) : tx Db () := λ d,
  let id := outbox_last_id d + 1 in
  if existsb (has_key (or_idempotency_key row)) (state_outbox d)
  then Ok ((), set_outbox_last_id id d)
  else Ok ((), set_outbox_last_id id (set_outbox (λ rows, rows ++ [effect_row id row]) d)).

(** The persisted row is the effect asked for. *)
Definition is_effect (row : OutboxRow) (r : OutboxDbRow) : bool :=
  String.eqb (ob_conversation_id r) (or_conversation_id row) && String.eqb (ob_effect_kind r) (or_effect_kind row)
  && bool_decide (ob_payload r = or_payload row) && (ob_enqueued_seq r =? or_enqueued_seq row).

(** The completion after the insertion. *)
Definition complete_effect (rid sid owner : string) (output : option string) (at_ : Z) : tx Db () :=
  let* changed := finish_step_tx rid sid owner StepCompleted output at_ in
  if (changed : bool) then tx_ret ()
  else
    let* d := tx_get in
    let status := st_status <$> find_step rid sid d in
    tx_guard (bool_decide (status = Some StepCompleted))
      (Invariant ("step '" +:+ rid +:+ "/" +:+ sid +:+ "' cannot complete from "
                  +:+ default "missing" (step_status_str <$> status))).

Definition enqueue_effect_tx (rid sid owner : string) (row : OutboxRow) (output : option string) (at_ : Z) :
    tx Db () :=
  insert_or_ignore_effect row ;;*
  let* persisted := query_row (has_key (or_idempotency_key row)) in
  tx_guard (is_effect row persisted)
    (Invariant ("outbox key '" +:+ or_idempotency_key row +:+ "' was already used for a different effect")) ;;*
  complete_effect rid sid owner output at_.

Definition enqueue_outbox_and_complete_step (rid sid owner : string) (row : OutboxRow)
    (output : option string) (at_ : Z) : op RunStepRecord :=
  do* step := required_step rid sid in
  if negb (bool_decide (st_kind step = OutboxEnqueue) || bool_decide (st_kind step = ToolDispatch))
  then op_err (Conflict ("step '" +:+ sid +:+ "' is not an effect-enqueue step"))
  else if negb (bool_decide (st_outbox_key step = Some (or_idempotency_key row)))
  then op_err (Conflict ("step '" +:+ sid +:+ "' does not reserve outbox key '" +:+ or_idempotency_key row +:+ "'"))
  else
    do* run := required_run rid in
    if negb (String.eqb (run_conversation_id run) (or_conversation_id row))
    then op_err (Conflict "run and outbox row must share a conversation")
    else
      do* _ := op_tx (enqueue_effect_tx rid sid owner row output at_) in
      required_step rid sid.

(** ** What the call does *)

Definition inserted (row : OutboxRow) (d : Db) : Db :=
  let d1 := set_outbox_last_id (outbox_last_id d + 1) d in
  if existsb (has_key (or_idempotency_key row)) (state_outbox d) then d1
  else set_outbox (λ rows, rows ++ [effect_row (outbox_last_id d + 1) row]) d1.

(** The outbox row with a key. *)
Definition effect_of (k : string) (d : Db) : option OutboxDbRow := List.find (has_key k) (state_outbox d).

(** The key is free or holds the effect asked for. *)
Definition key_usable (row : OutboxRow) (d : Db) : bool :=
  match effect_of (or_idempotency_key row) d with Some q => is_effect row q | None => true end.

Definition enqueues_effect (s : RunStepRecord) : Prop := st_kind s = OutboxEnqueue ∨ st_kind s = ToolDispatch.

Lemma is_effect_new id row : is_effect row (effect_row id row) = true.
Proof. unfold is_effect. cbn. by rewrite !String.eqb_refl, bool_decide_true, Z.eqb_refl. Qed.

Lemma effect_of_inserted row d :
  key_usable row d = true →
  ∃ q, effect_of (or_idempotency_key row) (inserted row d) = Some q ∧ is_effect row q = true ∧
       (∀ q', effect_of (or_idempotency_key row) d = Some q' → q = q').
Proof.
  unfold key_usable, effect_of, inserted. destruct (List.find _ (state_outbox d)) as [q|] eqn:Hf; intros Hu.
  - exists q. pose proof Hf as [Hin Hk]%find_Some_elem.
    assert (existsb (has_key (or_idempotency_key row)) (state_outbox d) = true) as ->
      by (apply existsb_True; by exists q).
    cbn. split_and!; [done..|]. by intros q' [= ->].
  - assert (existsb (has_key (or_idempotency_key row)) (state_outbox d) = false) as ->.
    { apply existsb_False. intros q. by apply find_None_elem. }
    exists (effect_row (outbox_last_id d + 1) row). split_and!; [|apply is_effect_new|done].
    cbn. apply find_app_none; [done|]. apply String.eqb_refl.
Qed.

Lemma inserted_taken row q d :
  effect_of (or_idempotency_key row) d = Some q → inserted row d = set_outbox_last_id (outbox_last_id d + 1) d.
Proof.
  intros [Hin Hk]%find_Some_elem. unfold inserted.
  assert (existsb (has_key (or_idempotency_key row)) (state_outbox d) = true) as ->; [|done].
  apply existsb_True. by exists q.
Qed.

Lemma inserted_evolves row d : Outbox.evolves d (inserted row d).
Proof.
  unfold inserted. destruct (existsb _ _) eqn:He; split; cbn.
  - exists (state_outbox d), []. rewrite app_nil_r. split; [done|]. by apply Forall_Forall2_diag, Forall_true.
  - exists []. by rewrite app_nil_r.
  - intros [H1 H2 H3 H4]. split; cbn; [done| |done|done]. eapply Forall_impl; [exact H2|]. cbn. lia.
  - eexists _, _. split; [done|]. by apply Forall_Forall2_diag, Forall_true.
  - exists []. by rewrite app_nil_r.
  - rewrite existsb_False in He. intros [H1 H2 H3 H4]. split; cbn; rewrite ?map_app.
    + apply NoDup_app. split_and!; [done| |apply NoDup_singleton].
      intros i (r & -> & Hr)%list_elem_of_fmap Hi%list_elem_of_singleton.
      rewrite Forall_forall in H2. specialize (H2 r Hr). cbn in H2, Hi. lia.
    + apply Forall_app_2; [|apply Forall_singleton; cbn; lia].
      eapply Forall_impl; [exact H2|]. cbn. lia.
    + apply NoDup_app. split_and!; [done| |apply NoDup_singleton].
      intros k (r & -> & Hr)%list_elem_of_fmap Hk%list_elem_of_singleton. cbn in Hk.
      specialize (He r Hr). unfold has_key in He. by rewrite Hk, String.eqb_refl in He.
    + apply Forall_app_2; [done|]. apply Forall_singleton. cbn. by rewrite status_parse_str.
Qed.

Lemma inserted_wf row d : run_wf d → run_wf (inserted row d).
Proof. apply wf_same; unfold inserted; by destruct (existsb _ _). Qed.

Lemma inserted_find row d rid sid :
  find_step rid sid (inserted row d) = find_step rid sid d ∧ find_run rid (inserted row d) = find_run rid d.
Proof. unfold inserted. by destruct (existsb _ _). Qed.

Lemma insert_or_ignore_eq row d : insert_or_ignore_effect row d = Ok ((), inserted row d).
Proof. unfold insert_or_ignore_effect, inserted. by destruct (existsb _ _). Qed.

Lemma same_steps_db d : set_run_tables (set_run_steps (λ _, steps_of d)) d = d.
Proof. by destruct d as [? ? ? ? ? ? ? ? ? ? ? ? ? [] ?]. Qed.

(** Completing a leased step succeeds exactly for the holder of its lease. *)
Lemma finish_tx_exact rid sid owner output at_ d s :
  run_wf d → find_step rid sid d = Some s →
  if leased_by owner s
  then ∃ d', finish_step_tx rid sid owner StepCompleted output at_ d = Ok (true, d') ∧
         find_step rid sid d' = Some (closed StepCompleted output at_ s)
  else finish_step_tx rid sid owner StepCompleted output at_ d = Ok (false, d).
Proof.
  intros Hwf Hs. pose proof Hs as [Hin Hpk]%find_step_Some.
  destruct (leased_by owner s) eqn:Hl.
  - apply (step_then_run_commits rid sid (λ s, is_step rid sid s && leased_by owner s)); try done.
    + apply andb_true_iff. split; [by apply is_step_true|done].
    + by intros s' [? _]%andb_true_iff.
    + pose proof (proj1 (wf_steps d Hwf)) as Hc. rewrite Forall_forall in Hc. specialize (Hc _ Hin).
      unfold step_check in *. cbn. by destruct (0 <=? st_ordinal s), (0 <=? st_attempt s).
  - rewrite <-(same_steps_db d) at 2.
    apply (step_then_run_none rid (λ s, is_step rid sid s && leased_by owner s)); [apply Hwf|].
    intros s' Hs'. apply not_true_iff_false. intros [Hk%is_step_true Hl']%andb_true_iff.
    assert (s' = s) as -> by (eapply same_pk; [done..|congruence]). congruence.
Qed.

(** The step reserves the key, for an effect of its run's conversation. *)
Definition effect_matches (s : RunStepRecord) (r : RunRecord) (row : OutboxRow) : bool :=
  (bool_decide (st_kind s = OutboxEnqueue) || bool_decide (st_kind s = ToolDispatch))
  && bool_decide (st_outbox_key s = Some (or_idempotency_key row))
  && String.eqb (run_conversation_id r) (or_conversation_id row).

Lemma enqueue_tx_eq rid sid owner row output at_ d :
  enqueue_effect_tx rid sid owner row output at_ d =
    if key_usable row d then complete_effect rid sid owner output at_ (inserted row d)
    else Err (Invariant ("outbox key '" +:+ or_idempotency_key row +:+ "' was already used for a different effect")).
Proof.
  unfold enqueue_effect_tx. unfold tx_bind at 1. rewrite insert_or_ignore_eq. unfold tx_bind at 1, query_row.
  fold (effect_of (or_idempotency_key row) (inserted row d)). destruct (key_usable row d) eqn:Hu.
  - destruct (effect_of_inserted row d Hu) as (q & -> & Heff & _). by rewrite Heff.
  - unfold key_usable in Hu. destruct (effect_of (or_idempotency_key row) d) as [q|] eqn:Hq; [|done].
    rewrite (inserted_taken row q d Hq). change (effect_of (or_idempotency_key row) (set_outbox_last_id _ d))
      with (effect_of (or_idempotency_key row) d). rewrite Hq, Hu. done.
Qed.

Lemma complete_effect_eq rid sid owner output at_ d s :
  run_wf d → find_step rid sid d = Some s →
  if leased_by owner s
  then ∃ d', complete_effect rid sid owner output at_ d = Ok ((), d') ∧
         find_step rid sid d' = Some (closed StepCompleted output at_ s) ∧ outbox_part d' = outbox_part d
  else if bool_decide (st_status s = StepCompleted) then complete_effect rid sid owner output at_ d = Ok ((), d)
  else ∃ e, complete_effect rid sid owner output at_ d = Err e.
Proof.
  intros Hwf Hs. pose proof (finish_tx_exact rid sid owner output at_ _ _ Hwf Hs) as Hfin.
  unfold complete_effect, tx_bind. destruct (leased_by owner s).
  - destruct Hfin as (d' & Htx & Hs'). rewrite Htx. exists d'. split_and!; [done..|].
    by eapply (finish_step_tx_outbox rid sid owner StepCompleted output at_ d).
  - rewrite Hfin. cbn [tx_get]. destruct (find_step rid sid d) as [s'|] eqn:He; simplify_eq. cbn.
    destruct (st_status s) eqn:Hst; cbn; try done; by eexists.
Qed.

(** Enqueueing an effect and completing its step happen together or not
    at all.  The call fails without any change when the step does not reserve
    the key for an effect of its run's conversation, when the key already
    stands for another effect, or when the step is neither leased to the
    caller nor completed.  Otherwise it succeeds: the outbox has the one row
    that was asked for, inserted now unless it was there, and the step is
    completed, now by the lease holder or as it already was. *)
Theorem enqueue_effect_exact rid sid owner row output at_ d s r :
  run_wf d → find_step rid sid d = Some s → find_run rid d = Some r →
  let res := enqueue_outbox_and_complete_step rid sid owner row output at_ d in
  if effect_matches s r row && key_usable row d then
    if leased_by owner s
    then ∃ d', res = (Ok (closed StepCompleted output at_ s), d') ∧
           find_step rid sid d' = Some (closed StepCompleted output at_ s) ∧
           outbox_part d' = outbox_part (inserted row d)
    else if bool_decide (st_status s = StepCompleted) then res = (Ok s, inserted row d)
    else ∃ e, res = (Err e, d)
  else ∃ e, res = (Err e, d).
Proof.
  intros Hwf Hs Hr. cbv zeta. unfold enqueue_outbox_and_complete_step, effect_matches.
  assert (required_step rid sid d = (Ok s, d)) as Hreq by (unfold required_step; by rewrite Hs).
  rewrite (op_bind_step _ _ _ _ _ Hreq).
  destruct (_ || _); cbn [negb andb]; [|by eexists].
  destruct (bool_decide (st_outbox_key s = _)); cbn [negb andb]; [|by eexists].
  rewrite (op_bind_step (required_run rid) _ d r d) by (unfold required_run; by rewrite Hr).
  destruct (String.eqb (run_conversation_id r) _); cbn [negb andb]; [|by eexists].
  unfold op_bind, op_tx, transaction. rewrite enqueue_tx_eq.
  destruct (key_usable row d); [|by eexists].
  destruct (inserted_find row d rid sid) as [Hfs _]. rewrite Hs in Hfs.
  pose proof (complete_effect_eq rid sid owner output at_ _ _ (inserted_wf row d Hwf) Hfs) as Hc.
  destruct (leased_by owner s).
  - destruct Hc as (d' & Hc & Hs' & Ho). rewrite Hc. exists d'. unfold required_step. by rewrite Hs'.
  - destruct (bool_decide (st_status s = StepCompleted)).
    + rewrite Hc. unfold required_step. by rewrite Hfs.
    + destruct Hc as [e ->]. by eexists.
Qed.

(** ** The two stores together *)

(** The steps of the whole system that concern runs and effects: operations of
    either store, the calls of this file, and any other transaction that
    leaves runs and steps alone and loses no effect. *)
Inductive system_step (d d' : Db) : Prop :=
| sys_store {A} (m : op A) r : store_call m → m d = (r, d') → system_step d d'
| sys_outbox o r : transaction (outbox_run o) d = (r, d') → system_step d d'
| sys_effect rid sid owner row output at_ r :
    enqueue_outbox_and_complete_step rid sid owner row output at_ d = (r, d') → system_step d d'
| sys_start_attempt rid sid owner at_ r :
    start_inference_attempt rid sid owner at_ d = (r, d') → system_step d d'
| sys_finish_attempt rid sid n succeeded error at_ r :
    finish_inference_attempt rid sid n succeeded error at_ d = (r, d') → system_step d d'
| sys_retry_attempt rid sid n error at_ r :
    mark_inference_attempt_retrying rid sid n error at_ d = (r, d') → system_step d d'
| sys_other {A} (m : tx Db A) a : m d = Ok (a, d') → state_runs d' = state_runs d →
    steps_of d' = steps_of d → Outbox.evolves d d' → system_step d d'.

(** What every one of them does to the rows. *)
Definition store_evolves (d d' : Db) : Prop := rtc run_step d d' ∧ Outbox.evolves d d'.

#[global] Instance store_evolves_preorder : PreOrder store_evolves.
Proof.
  split; [intros d; by split|]. intros d1 d2 d3 [H1 H2] [H3 H4].
  split; [by etransitivity|by transitivity d2].
Qed.

Lemma evolves_same_outbox d d' : outbox_part d' = outbox_part d → Outbox.evolves d d'.
Proof.
  unfold outbox_part. intros [= Hr Hl Ht]. split; rewrite ?Hr, ?Ht.
  - exists (state_outbox d), []. rewrite app_nil_r. split; [done|]. by apply Forall_Forall2_diag, Forall_true.
  - exists []. by rewrite app_nil_r.
  - intros [H1 H2 H3 H4]. by split; rewrite ?Hr, ?Hl.
Qed.

Lemma other_run_step d d' : state_runs d' = state_runs d → steps_of d' = steps_of d → run_step d d'.
Proof.
  intros Hr Hs. apply (committed _ _ (λ x, if decide (state_runs d' = state_runs x ∧ steps_of d' = steps_of x)
                                          then Ok ((), d') else Err no_rows) ()).
  - apply rt_other. intros x a x'. case_decide as Hx; [|done]. by intros [= _ <-].
  - by rewrite decide_True.
Qed.

Lemma update_attempts_outbox p f : keeps outbox_part (update_attempts p f).
Proof. by intros d n d' [= _ <-]. Qed.
Lemma update_attempts_steps p f : keeps (λ d, (state_runs d, steps_of d)) (update_attempts p f).
Proof. by intros d n d' [= _ <-]. Qed.
#[export] Hint Resolve update_attempts_outbox update_attempts_steps : frames.

Lemma kept_evolves {A} (m : op A) :
  op_keeps outbox_part m → op_keeps (λ d, (state_runs d, steps_of d)) m →
  ∀ d r d', m d = (r, d') → store_evolves d d'.
Proof.
  intros Ho Hr d r d' Hd. pose proof (Hr _ _ _ Hd) as [= Hruns Hsteps]. split.
  - apply rtc_once, other_run_step; done.
  - by eapply evolves_same_outbox, Ho.
Qed.

Lemma enqueue_tx_evolves rid sid owner row output at_ d d' :
  enqueue_effect_tx rid sid owner row output at_ d = Ok ((), d') → store_evolves d d'.
Proof.
  rewrite enqueue_tx_eq. destruct (key_usable row d); [|done]. intros Htx.
  transitivity (inserted row d).
  { split; [|apply inserted_evolves]. apply rtc_once, other_run_step; unfold inserted; by destruct (existsb _ _). }
  unfold complete_effect in Htx. apply tx_bind_ok in Htx as (b & d1 & Hf & Htx).
  assert (d' = d1) as ->.
  { destruct b; [by injection Htx|]. rewrite tx_get_bind in Htx. by apply tx_guard_ok in Htx as [_ ->]. }
  split.
  - apply rtc_once. eapply committed, Hf. apply rt_finish. by left.
  - by eapply evolves_same_outbox, finish_step_tx_outbox.
Qed.

Lemma effect_call_evolves rid sid owner row output at_ d r d' :
  enqueue_outbox_and_complete_step rid sid owner row output at_ d = (r, d') → store_evolves d d'.
Proof.
  unfold enqueue_outbox_and_complete_step, op_bind, required_step, required_run, op_err.
  destruct (find_step rid sid d) as [s|]; [|by intros [= _ <-]].
  destruct (negb _); [by intros [= _ <-]|]. destruct (negb _); [by intros [= _ <-]|].
  destruct (find_run rid d) as [rn|]; [|by intros [= _ <-]]. destruct (negb _); [by intros [= _ <-]|].
  unfold op_tx, transaction. destruct (enqueue_effect_tx _ _ _ _ _ _ d) as [[[] d1]|e] eqn:Htx.
  - apply enqueue_tx_evolves in Htx. destruct (find_step rid sid d1); by intros [= _ <-].
  - by intros [= _ <-].
Qed.

Lemma system_step_evolves d d' : system_step d d' → store_evolves d d'.
Proof.
  intros [A m r Hm Hd|o r Hd|rid sid owner row output at_ r Hd|rid sid owner at_ r Hd
    |rid sid n ok error at_ r Hd|rid sid n error at_ r Hd|A m a Hd Hr Hs He].
  - split; [apply worker_step_run; by econstructor|].
    by eapply evolves_same_outbox, (store_call_outbox m).
  - unfold transaction in Hd. destruct (outbox_run o d) as [[[] d1]|e] eqn:Ho; injection Hd as <- <-; [|done].
    split; [|by eapply outbox_run_evolves]. pose proof (outbox_run_runs o d () d1 Ho) as [= Hr Ht].
    apply rtc_once, other_run_step; [done|]. unfold steps_of. by rewrite Ht.
  - by eapply effect_call_evolves.
  - revert Hd. apply kept_evolves; unfold start_inference_attempt, start_attempt_tx; keeps_tac.
  - revert Hd. apply kept_evolves; unfold finish_inference_attempt, not_active; keeps_tac.
  - revert Hd. apply kept_evolves; unfold mark_inference_attempt_retrying, not_active; keeps_tac.
  - split; [by apply rtc_once, other_run_step|done].
Qed.

Lemma system_steps_evolve d d' : rtc system_step d d' → store_evolves d d'.
Proof. induction 1 as [|d d1 d2 H%system_step_evolves _ IH]; [done|]. by transitivity d1. Qed.

Lemma run_steps_rows d d' : run_wf d → rtc run_step d d' → run_wf d' ∧ rows_le d d'.
Proof.
  intros Hwf Hsteps. apply (worker_steps_rows d d' Hwf).
  induction Hsteps as [|d d1 d2 H _ IH]; [done|]. eapply rtc_l; [by apply ws_tx|]. by apply IH, (run_step_wf d).
Qed.

(** An effect keeps its row under its key. *)
Lemma effect_kept k q d d' :
  outbox_wf d → Outbox.evolves d d' → effect_of k d = Some q →
  ∃ q', effect_of k d' = Some q' ∧ same_effect q q' ∧
        ∀ x, x ∈ state_outbox d' → ob_idempotency_key x = k → x = q'.
Proof.
  intros Hwf He Hq. pose proof (ev_wf _ _ He Hwf) as Hwf'. destruct (ev_rows _ _ He) as (rows & new & Hrows & Hall).
  pose proof Hq as [Hin Hk%String.eqb_eq]%find_Some_elem.
  apply list_elem_of_lookup in Hin as [i Hi].
  destruct (Forall2_lookup_l _ _ _ _ _ Hall Hi) as (q' & Hi' & Hsame).
  assert (q' ∈ state_outbox d') as Hin' by (rewrite Hrows; apply elem_of_app; left; by eapply list_elem_of_lookup_2).
  assert (ob_idempotency_key q' = k) as Hk' by (destruct Hsame as (_ & -> & _); done).
  exists q'. split_and!; [|done|].
  - apply (RunBase.find_key ob_idempotency_key _ k); [|apply Hwf'|done|done].
    intros y. apply String.eqb_eq.
  - intros x Hx Hxk. apply (NoDup_key_inj ob_idempotency_key (state_outbox d')); [apply Hwf'|done..|congruence].
Qed.

Lemma is_effect_same row q q' : same_effect q q' → is_effect row q' = is_effect row q.
Proof. intros (_ & _ & H1 & H2 & H3 & H4 & _). unfold is_effect. by rewrite H1, H2, H3, H4. Qed.

Lemma enqueue_ok_inv rid sid owner row output at_ d s d1 :
  run_wf d → enqueue_outbox_and_complete_step rid sid owner row output at_ d = (Ok s, d1) →
  ∃ r, find_run rid d = Some r ∧ effect_matches s r row = true ∧ key_usable row d = true ∧
    st_status s = StepCompleted ∧ find_step rid sid d1 = Some s ∧ outbox_part d1 = outbox_part (inserted row d).
Proof.
  intros Hwf Hd. destruct (find_step rid sid d) as [s0|] eqn:Hs.
  2: { unfold enqueue_outbox_and_complete_step, op_bind, required_step in Hd. by rewrite Hs in Hd. }
  destruct (find_run rid d) as [r|] eqn:Hr.
  2: { unfold enqueue_outbox_and_complete_step, op_bind, required_step, required_run in Hd. rewrite Hs in Hd.
       do 2 (destruct (negb _); [done|]). cbv beta iota in Hd. by rewrite Hr in Hd. }
  pose proof (enqueue_effect_exact rid sid owner row output at_ d s0 r Hwf Hs Hr) as Hex. cbv zeta in Hex.
  exists r. rewrite Hd in Hex.
  destruct (effect_matches s0 r row && key_usable row d) eqn:Hm; [|by destruct Hex as [e Hex]].
  apply andb_true_iff in Hm as [Hm Hu]. destruct (leased_by owner s0).
  - destruct Hex as (d' & [= -> ->] & Hs1 & Ho). by split_and!.
  - destruct (bool_decide (st_status s0 = StepCompleted)) eqn:Hst; [|by destruct Hex as [e Hex]].
    injection Hex as -> ->. apply bool_decide_eq_true in Hst.
    split_and!; try done. by rewrite (proj1 (inserted_find row d rid sid)).
Qed.

(** C7: Once the call has succeeded the effect exists exactly once, for ever:
    after any further operations of any workers, relays and operators, the
    step is still the completed row that was returned, one row of the outbox
    has the key and it is the effect asked for, and repeating the call, from
    whatever worker, returns the same step and leaves all runs, steps, effects
    and deliveries as they are. *)
Theorem effect_exactly_once rid sid owner row output at_ d s d1 d2 :
  run_wf d → outbox_wf d →
  enqueue_outbox_and_complete_step rid sid owner row output at_ d = (Ok s, d1) → rtc system_step d1 d2 →
  st_status s = StepCompleted ∧ find_step rid sid d2 = Some s ∧
  (∃ q, q ∈ state_outbox d2 ∧ ob_idempotency_key q = or_idempotency_key row ∧ is_effect row q = true ∧
     ∀ x, x ∈ state_outbox d2 → ob_idempotency_key x = or_idempotency_key row → x = q) ∧
  ∀ owner' output' at', ∃ d3,
    enqueue_outbox_and_complete_step rid sid owner' row output' at' d2 = (Ok s, d3) ∧
    runs_part d3 = runs_part d2 ∧ state_outbox d3 = state_outbox d2 ∧ delivery_events d3 = delivery_events d2.
Proof.
  intros Hwf Hobw Hcall Hsteps.
  destruct (enqueue_ok_inv _ _ _ _ _ _ _ _ _ Hwf Hcall) as (r & Hr & Hm & Hu & Hst & Hs1 & Ho1).
  destruct (effect_call_evolves _ _ _ _ _ _ _ _ _ Hcall) as [Hr1 He1].
  destruct (system_steps_evolve _ _ Hsteps) as [Hr2 He2].
  destruct (run_steps_rows d d1 Hwf Hr1) as [Hwf1 _]. destruct (run_steps_rows d1 d2 Hwf1 Hr2) as [Hwf2 [Hkeep _]].
  destruct (run_steps_rows d d2 Hwf) as [_ [_ Hkeepr]]; [by etransitivity|].
  assert (find_step rid sid d2 = Some s) as Hs2.
  { pose proof Hs1 as [Hin Hpk]%find_step_Some. destruct (Hkeep s Hin) as (s' & Hin' & Hle).
    assert (s' = s) as -> by (apply Hle; unfold step_open; by rewrite Hst).
    by apply find_step_wf. }
  destruct (effect_of_inserted row d Hu) as (q1 & Hq1 & Heff & _).
  assert (effect_of (or_idempotency_key row) d1 = Some q1) as Hq1'.
  { rewrite <-Hq1. unfold effect_of. unfold outbox_part in Ho1. by injection Ho1 as -> _ _. }
  destruct (effect_kept (or_idempotency_key row) q1 d1 d2) as (q & Hq & Hsame & Huniq); [by eapply ev_wf|done|done|].
  pose proof (is_effect_same row _ _ Hsame) as Heff2. rewrite Heff in Heff2.
  split_and!; [done|done| |].
  - exists q. pose proof Hq as [Hin Hk%String.eqb_eq]%find_Some_elem. by split_and!.
  - intros owner' output' at'.
    destruct (find_run_Some _ _ _ Hr) as [Hrin Hrid]. destruct (Hkeepr r Hrin) as (r2 & Hr2in & Hid2 & Hconv & _).
    assert (find_run rid d2 = Some r2) as Hfr2 by (apply find_run_wf; [done|]; split; [done|congruence]).
    pose proof (enqueue_effect_exact rid sid owner' row output' at' d2 s r2 Hwf2 Hs2 Hfr2) as Hex. cbv zeta in Hex.
    assert (effect_matches s r2 row = true) as Hm2 by (unfold effect_matches in *; by rewrite Hconv).
    assert (key_usable row d2 = true) as Hu2 by (unfold key_usable; by rewrite Hq).
    assert (leased_by owner' s = false) as Hl by (unfold leased_by; by rewrite Hst).
    rewrite Hm2, Hu2, Hl, bool_decide_true in Hex by done. cbn [andb] in Hex.
    exists (inserted row d2). split; [done|]. by rewrite (inserted_taken row q d2 Hq).
Qed.

(** ** Attempts are numbered without gaps *)

(** Steps that start, finish or retry attempts, and all others of the system. *)
Inductive attempt_step (d d' : Db) : Prop :=
| as_start rid sid owner at_ r : start_inference_attempt rid sid owner at_ d = (r, d') → attempt_step d d'
| as_finish rid sid n succeeded error at_ r :
    finish_inference_attempt rid sid n succeeded error at_ d = (r, d') → attempt_step d d'
| as_retry rid sid n error at_ r :
    mark_inference_attempt_retrying rid sid n error at_ d = (r, d') → attempt_step d d'
| as_other : system_step d d' → attempts d' = attempts d → attempt_step d d'.

Definition started (a : AttemptRow) : Prop := at_status a = AttemptStarted.

Definition numbered (l : list AttemptRow) : Prop :=
  map at_no l = seqZ 1 (Z.of_nat (length l)) ∧ ∀ a, a ∈ l → started a → at_no a = Z.of_nat (length l).

Record attempts_ok (d : Db) : Prop := {
  ao_numbered : ∀ rid sid, numbered (attempts_of rid sid d);
  ao_model : ∀ a, a ∈ attempts d →
    ∃ s, s ∈ steps_of d ∧ step_pk s = (at_run_id a, at_step_id a) ∧ st_kind s = ModelRequest
}.

Lemma attempt_max_seqZ n m : 0 ≤ m → 0 < n → foldr Z.max 0 (seqZ m n) = m + n - 1.
Proof.
  intros Hm Hn. assert (∃ k, n = Z.of_nat (S k)) as [k ->] by (exists (Z.to_nat (n - 1)); lia). clear Hn.
  revert m Hm. induction k as [|k IH]; intros m Hm; rewrite seqZ_cons by lia; cbn [foldr].
  - rewrite seqZ_nil by lia. cbn. lia.
  - replace (Z.pred (Z.of_nat (S (S k)))) with (Z.of_nat (S k)) by lia. rewrite IH by lia. lia.
Qed.

Lemma next_attempt_numbered rid sid d :
  numbered (attempts_of rid sid d) → next_attempt rid sid d = Z.of_nat (length (attempts_of rid sid d)) + 1.
Proof.
  intros [Hno _]. unfold next_attempt. rewrite Hno. destruct (attempts_of rid sid d) as [|a l]; [done|].
  rewrite attempt_max_seqZ; cbn [length]; lia.
Qed.

(** An update of attempts that keeps their keys. *)
Lemma attempts_of_update rid sid p f d n d' :
  update_attempts p f d = Ok (n, d') → (∀ a, at_run_id (f a) = at_run_id a ∧ at_step_id (f a) = at_step_id a) →
  attempts_of rid sid d' = map (λ a, if p a then f a else a) (attempts_of rid sid d).
Proof.
  intros [= _ <-] Hf. unfold attempts_of at 1, attempts. cbn. unfold update_where. rewrite filter_map_comm.
  f_equal. apply filter_ext. intros a. destruct (p a); [|done]. destruct (Hf a) as [H1 H2].
  unfold is_attempt. by rewrite H1, H2.
Qed.

Lemma numbered_map (g : AttemptRow → AttemptRow) l :
  (∀ a, at_no (g a) = at_no a) → (∀ a, started (g a) → started a) → numbered l → numbered (map g l).
Proof.
  intros Hno Hst [H1 H2]. split; rewrite length_map.
  - rewrite map_map. erewrite map_ext; [exact H1|exact Hno].
  - intros a' (a & -> & Ha)%list_elem_of_fmap Hs. rewrite Hno. by apply H2; [|apply Hst].
Qed.

Lemma numbered_snoc l a :
  numbered l → (∀ x, x ∈ l → ¬ started x) → at_no a = Z.of_nat (length l) + 1 → numbered (l ++ [a]).
Proof.
  intros [H1 H2] Hno Ha. split; rewrite length_app; cbn [length].
  - rewrite map_app, H1. cbn [map]. rewrite Ha. rewrite Nat2Z.inj_add, seqZ_app by lia. f_equal.
    change (Z.of_nat 1) with 1. rewrite seqZ_cons, seqZ_nil by lia. by rewrite Z.add_comm.
  - intros x [Hx|Hx%list_elem_of_singleton]%elem_of_app; [by intros ?%Hno|subst; lia].
Qed.

Lemma update_attempts_ok p f d n d' :
  attempts_ok d → update_attempts p f d = Ok (n, d') →
  (∀ a, at_run_id (f a) = at_run_id a ∧ at_step_id (f a) = at_step_id a ∧ at_no (f a) = at_no a ∧ ¬ started (f a)) →
  attempts_ok d'.
Proof.
  intros [H1 H2] Hu Hf. split.
  - intros rid sid. rewrite (attempts_of_update rid sid _ _ _ _ _ Hu) by (intros a; by destruct (Hf a) as (? & ? & _)).
    apply numbered_map; [| |apply H1].
    + intros a. destruct (p a); [apply Hf|done].
    + intros a. destruct (p a); [by intros ?%(proj2 (proj2 (proj2 (Hf a))))|done].
  - injection Hu as _ <-. intros a'. unfold attempts. cbn. intros (a & Ha & ->)%elem_of_update.
    destruct (H2 a Ha) as (s & Hs & Hpk & Hk). exists s. split_and!; [done| |done].
    destruct (p a); [|done]. destruct (Hf a) as (-> & -> & _). done.
Qed.

Lemma owns_inference_true rid sid owner d :
  owns_inference rid sid owner d = true ↔
  ∃ s, s ∈ steps_of d ∧ step_pk s = (rid, sid) ∧ st_kind s = ModelRequest ∧ leased_by owner s = true.
Proof.
  unfold owns_inference. rewrite existsb_True. setoid_rewrite andb_true_iff. setoid_rewrite andb_true_iff.
  setoid_rewrite is_step_true. setoid_rewrite bool_decide_eq_true. naive_solver.
Qed.

(** The rows after a start. *)
Definition interrupted (at_ : Z) (a : AttemptRow) : AttemptRow :=
  if bool_decide (at_status a = AttemptStarted) then with_outcome AttemptRetrying (Some "interrupted") at_ a else a.

Lemma start_eq rid sid owner at_ d :
  attempts_ok d →
  let n := Z.of_nat (length (attempts_of rid sid d)) + 1 in
  if owns_inference rid sid owner d && (n <=? u32_max) then
    ∃ d', start_inference_attempt rid sid owner at_ d = (Ok n, d') ∧ attempts_ok d' ∧
      attempts_of rid sid d' = map (interrupted at_) (attempts_of rid sid d)
                                 ++ [mkAttempt rid sid n AttemptStarted None at_ None]
  else ∃ e, start_inference_attempt rid sid owner at_ d = (Err e, d).
Proof.
  intros Hok. cbv zeta. unfold start_inference_attempt, op_tx, transaction, start_attempt_tx. rewrite tx_get_bind.
  destruct (owns_inference rid sid owner d) eqn:Hown; cbn [andb]; [rewrite tx_guard_true|rewrite tx_guard_false; by eexists].
  set (p := λ a, is_attempt rid sid a && bool_decide (at_status a = AttemptStarted)).
  set (f := with_outcome AttemptRetrying (Some "interrupted") at_).
  destruct (update_attempts p f d) as [[n d1]|] eqn:Hu; [|done]. rewrite (tx_bind_step _ _ _ _ _ Hu).
  assert (attempts_ok d1) as Hok1 by (by eapply update_attempts_ok).
  assert (∀ r' s', attempts_of r' s' d1 = map (λ a, if p a then f a else a) (attempts_of r' s' d)) as Hmap
    by (intros r' s'; by eapply attempts_of_update).
  assert (length (attempts_of rid sid d1) = length (attempts_of rid sid d)) as Hlen by (by rewrite Hmap, length_map).
  rewrite tx_get_bind, (next_attempt_numbered rid sid d1), Hlen by apply Hok1.
  erewrite (tx_bind_step (tx_modify _)) by done.
  destruct (_ <=? u32_max); [rewrite tx_guard_true|rewrite tx_guard_false; by eexists].
  set (new := mkAttempt rid sid _ AttemptStarted None at_ None).
  set (d2 := set_run_tables _ d1).
  assert (∀ r' s', attempts_of r' s' d2 = attempts_of r' s' d1 ++ if is_attempt r' s' new then [new] else []) as Hnew.
  { intros r' s'. unfold attempts_of, attempts, d2. cbn. rewrite List.filter_app. cbn. by destruct (is_attempt r' s' new). }
  assert (is_attempt rid sid new = true) as Hself by (unfold is_attempt; cbn; by rewrite !String.eqb_refl).
  exists d2. split; [done|]. split.
  - split.
    + intros r' s'. rewrite Hnew. destruct (is_attempt r' s' new) eqn:Hn; [|rewrite app_nil_r; apply Hok1].
      apply andb_true_iff in Hn as [<-%String.eqb_eq <-%String.eqb_eq]. cbn [at_run_id at_step_id new].
      apply numbered_snoc; [apply Hok1| |by rewrite Hlen].
      intros a. rewrite Hmap. intros (x & -> & Hx)%list_elem_of_fmap.
      apply list_elem_of_In, filter_In in Hx as [_ Hx]. unfold p. rewrite Hx. cbn [andb].
      case_bool_decide; done.
    + intros a [Ha|Ha]%elem_of_app.
      * destruct (ao_model d1 Hok1 a Ha) as (s & ?). by exists s.
      * apply list_elem_of_singleton in Ha as ->. apply owns_inference_true in Hown as (s & Hs & Hpk & Hk & _).
        exists s. split; [|done]. by injection Hu as _ <-.
  - rewrite Hnew, Hself, Hmap. f_equal. apply map_ext_in. intros a [_ Ha]%filter_In. unfold p, interrupted.
    by rewrite Ha.
Qed.

Lemma attempts_ok_same d d' :
  attempts_ok d → attempts d' = attempts d →
  (∀ s, s ∈ steps_of d → ∃ s', s' ∈ steps_of d' ∧ step_le s s') → attempts_ok d'.
Proof.
  intros [H1 H2] Ha Hle. split.
  - intros rid sid. unfold attempts_of. rewrite Ha. apply H1.
  - intros a. rewrite Ha. intros (s & Hs & Hpk & Hk)%H2. destruct (Hle s Hs) as (s' & Hs' & Hl).
    exists s'. destruct Hl as (H3 & _ & H4 & _). split_and!; congruence.
Qed.

Lemma outcome_not_started st error at_ a : st ≠ AttemptStarted → ¬ started (with_outcome st error at_ a).
Proof. done. Qed.

Lemma attempt_step_ok d d' : run_wf d → attempt_step d d' → attempts_ok d → run_wf d' ∧ attempts_ok d'.
Proof.
  intros Hwf Hstep Hok. destruct Hstep as [rid sid owner at_ r Hd|rid sid n ok error at_ r Hd|rid sid n error at_ r Hd|Hs Ha].
  - split.
    + apply (run_steps_rows d d' Hwf), system_step_evolves. by eapply sys_start_attempt.
    + pose proof (start_eq rid sid owner at_ d Hok) as He. cbv zeta in He. rewrite Hd in He.
      destruct (_ && _); [by destruct He as (d1 & [= _ ->] & ? & _)|by destruct He as (e & [= _ ->])].
  - split; [apply (run_steps_rows d d' Hwf), system_step_evolves; by eapply sys_finish_attempt|].
    unfold finish_inference_attempt, op_bind, op_tx, transaction in Hd.
    destruct (update_attempts _ _ d) as [[k d1]|] eqn:Hu; [|done]. apply update_attempts_ok in Hu; [|done|].
    + unfold not_active, op_err, op_ret in Hd. destruct (negb _); by injection Hd as _ <-.
    + intros a. split_and!; [done..|]. apply outcome_not_started. by destruct ok.
  - split; [apply (run_steps_rows d d' Hwf), system_step_evolves; by eapply sys_retry_attempt|].
    unfold mark_inference_attempt_retrying, op_bind, op_tx, transaction in Hd.
    destruct (update_attempts _ _ d) as [[k d1]|] eqn:Hu; [|done]. apply update_attempts_ok in Hu; [|done|].
    + unfold not_active, op_err, op_ret in Hd. destruct (negb _); by injection Hd as _ <-.
    + intros a. by split_and!.
  - destruct (run_steps_rows d d' Hwf) as [Hwf' [Hle _]]; [by apply system_step_evolves|].
    split; [done|]. by eapply attempts_ok_same.
Qed.

Lemma attempt_steps_ok d d' : run_wf d → attempts_ok d → rtc attempt_step d d' → run_wf d' ∧ attempts_ok d'.
Proof.
  intros Hwf Hok Hsteps. revert Hwf Hok. induction Hsteps as [d|d d1 d2 H _ IH]; intros Hwf Hok; [done|].
  destruct (attempt_step_ok d d1 Hwf H Hok). by apply IH.
Qed.

(** The attempts of a step are numbered 1, 2, 3, ... without gaps, whatever
    operations ran before; only the newest can still be in progress; they
    belong to a model request; and a new attempt starts exactly for the
    holder of the step's lease while its number fits 32 bits: it gets the
    next number and an attempt still in progress is closed as interrupted.
    Any other start fails and changes nothing. *)
Theorem inference_attempts_gapless d0 d rid sid owner at_ :
  run_wf d0 → attempts d0 = [] → rtc attempt_step d0 d →
  let l := attempts_of rid sid d in
  let n := Z.of_nat (length l) + 1 in
  map at_no l = seqZ 1 (Z.of_nat (length l)) ∧
  (∀ a, a ∈ l → at_status a = AttemptStarted → at_no a = Z.of_nat (length l)) ∧
  (∀ a, a ∈ l → ∃ s, find_step rid sid d = Some s ∧ st_kind s = ModelRequest) ∧
  if owns_inference rid sid owner d && (n <=? u32_max) then
    ∃ d', start_inference_attempt rid sid owner at_ d = (Ok n, d') ∧
      attempts_of rid sid d' = map (interrupted at_) l ++ [mkAttempt rid sid n AttemptStarted None at_ None]
  else ∃ e, start_inference_attempt rid sid owner at_ d = (Err e, d).
Proof.
  intros Hwf0 Ha0 Hsteps. destruct (attempt_steps_ok d0 d Hwf0) as [Hwf Hok]; [|done|].
  { split; [|by rewrite Ha0; intros a ?%elem_of_nil]. intros r' s'. unfold attempts_of. rewrite Ha0.
    split; [done|]. by intros a ?%elem_of_nil. }
  cbv zeta. destruct (ao_numbered d Hok rid sid) as [Hno Hst]. split_and!; [done|done| |].
  - intros a [Ha Hk]%list_elem_of_In%filter_In. apply list_elem_of_In in Ha.
    destruct (ao_model d Hok a Ha) as (s & Hs & Hpk & Hkind). exists s. split; [|done].
    apply find_step_wf; [done|]. split; [done|]. rewrite Hpk.
    apply andb_true_iff in Hk as [->%String.eqb_eq ->%String.eqb_eq]. done.
  - pose proof (start_eq rid sid owner at_ d Hok) as He. cbv zeta in He.
    destruct (_ && _); [|done]. destruct He as (d' & He & _ & Hl). by exists d'.
Qed.

(** ** Examples *)

(** A run whose first step sends one message and whose second asks a model. *)
Definition toy_send_row : OutboxRow :=
  mkOutboxRow None "c:1:0" "c" "transport.send" [] Pending 0 None None 1.
Definition toy_effect_step : NewRunStep := mkNewStep "e0" 0 OutboxEnqueue "h" None (Some "c:1:0").
Definition toy_effect_start : Db := (claim_step "r" "e0" "w1" 110 200 (add_step "r" toy_effect_step toy_created).2).2.
Definition toy_sent_step : RunStepRecord :=
  closed StepCompleted (Some "sent") 120 (claimed "w1" 110 200 (new_step_row "r" toy_effect_step)).
Definition toy_sent : Db :=
  (enqueue_outbox_and_complete_step "r" "e0" "w1" toy_send_row (Some "sent") 120 toy_effect_start).2.

Lemma toy_effect_wf : run_wf toy_effect_start.
Proof.
  apply (run_steps_wf toy_start); [by apply empty_wf|]. apply worker_steps_run.
  etransitivity; [apply toy_created_reached|].
  eapply rtc_l; [|apply rtc_once].
  - apply (call_step (add_step "r" toy_effect_step)), sc_add.
  - apply (call_step (claim_step "r" "e0" "w1" 110 200)), sc_claim.
Qed.

Lemma toy_effect_outbox : outbox_wf toy_effect_start.
Proof. split; constructor. Qed.

(** A relay claims and delivers the message; another worker repeats the call. *)
Definition toy_delivered : Db :=
  (transaction (outbox_run (OpDelivered 150 1 None))
    (transaction (outbox_run (OpClaim 1 "relay" 140 30)) toy_sent).2).2.

Lemma effect_exactly_once_witness :
  ∃ d3, enqueue_outbox_and_complete_step "r" "e0" "w2" toy_send_row None 160 toy_delivered = (Ok toy_sent_step, d3) ∧
        state_outbox d3 = state_outbox toy_delivered.
Proof.
  destruct (effect_exactly_once "r" "e0" "w1" toy_send_row (Some "sent") 120 toy_effect_start toy_sent_step
    toy_sent toy_delivered) as (_ & _ & _ & Hrep).
  - apply toy_effect_wf.
  - apply toy_effect_outbox.
  - by vm_compute.
  - eapply rtc_l; [|apply rtc_once].
    + eapply (sys_outbox _ _ (OpClaim 1 "relay" 140 30)). by apply surjective_pairing.
    + eapply (sys_outbox _ _ (OpDelivered 150 1 None)). by apply surjective_pairing.
  - destruct (Hrep "w2" None 160) as (d3 & H1 & _ & H2 & _). exists d3. split; [exact H1|exact H2].
Defined.

(** A worker without the lease enqueues nothing. *)
Lemma enqueue_effect_exact_witness :
  ∃ e, enqueue_outbox_and_complete_step "r" "e0" "w2" toy_send_row None 120 toy_effect_start = (Err e, toy_effect_start).
Proof.
  apply (enqueue_effect_exact "r" "e0" "w2" toy_send_row None 120 toy_effect_start
    (claimed "w1" 110 200 (new_step_row "r" toy_effect_step)) (run_to RunRunning 110 (new_run_row "r" toy_new_run))).
  - apply toy_effect_wf.
  - by vm_compute.
  - by vm_compute.
Defined.

Definition toy_model_start : Db :=
  (claim_step "r" "m0" "w1" 110 200
    (add_step "r" (mkNewStep "m0" 0 ModelRequest "h" None None) toy_created).2).2.
Definition toy_attempted : Db := (start_inference_attempt "r" "m0" "w1" 111 toy_model_start).2.

Lemma inference_attempts_gapless_witness :
  ∃ d', start_inference_attempt "r" "m0" "w1" 130 toy_attempted = (Ok 2, d') ∧
    attempts_of "r" "m0" d' =
      [mkAttempt "r" "m0" 1 AttemptRetrying (Some "interrupted") 111 (Some 130);
       mkAttempt "r" "m0" 2 AttemptStarted None 130 None].
Proof.
  destruct (inference_attempts_gapless toy_model_start toy_attempted "r" "m0" "w1" 130) as (_ & _ & _ & Hs).
  - apply (run_steps_wf toy_start); [by apply empty_wf|]. apply worker_steps_run.
    etransitivity; [apply toy_created_reached|].
    eapply rtc_l; [|apply rtc_once].
    + apply (call_step (add_step "r" (mkNewStep "m0" 0 ModelRequest "h" None None))), sc_add.
    + apply (call_step (claim_step "r" "m0" "w1" 110 200)), sc_claim.
  - by vm_compute.
  - apply rtc_once. eapply (as_start _ _ "r" "m0" "w1" 111). by apply surjective_pairing.
  - exact Hs.
Defined.
