(* ===== verification/EndpointPolicy.v ===== *)
(** * Endpoint policies

    [crates/local-endpoint-policy/src/lib.rs]: which addresses an outbound HTTP
    client may be pinned to.  URL parsing (crate [url]), CIDR arithmetic (crate
    [ipnet]) and the HTTP client (crate [reqwest]) are parameters; the laws
    assumed of [ipnet] are what it documents for the literals of the source.
    An address is its number: 32 bits for IPv4, 128 for IPv6. *)

From Stdlib Require Import Ascii.
From stdpp Require Import sorting.
From S2P Require Import Prelude Text.

(** ** Addresses *)

Inductive IpAddr : Type :=
| V4 (a : Z)
| V6 (a : Z).

#[global] Instance IpAddr_eq_dec : EqDecision IpAddr.
Proof. solve_decision. Defined.

Definition ip_ok (ip : IpAddr) : Prop :=
  match ip with V4 a => 0 ≤ a < 2 ^ 32 | V6 a => 0 ≤ a < 2 ^ 128 end.

(** The derived order: IPv4 before IPv6, then by octets. *)
Definition ip_lt (x y : IpAddr) : bool :=
  match x, y with
  | V4 a, V4 b => a <? b
  | V6 a, V6 b => a <? b
  | V4 _, V6 _ => true
  | V6 _, V4 _ => false
  end.

(** [collect::<BTreeSet<_>>()] and its iteration. *)
Fixpoint ip_insert (x : IpAddr) (l : list IpAddr) : list IpAddr :=
  match l with
  | [] => [x]
  | y :: l' => if decide (x = y) then l else if ip_lt x y then x :: l else y :: ip_insert x l'
  end.
Definition ip_set (l : list IpAddr) : list IpAddr := foldl (λ s x, ip_insert x s) [] l.

(** [IpAddr::is_loopback]: 127.0.0.0/8 and ::1. *)
Definition is_loopback (ip : IpAddr) : bool :=
  match ip with V4 a => Z.shiftr a 24 =? 127 | V6 a => a =? 1 end.

(** [Ipv6Addr::to_ipv4_mapped]: ::ffff:0:0/96. *)
Definition to_ipv4_mapped (a : Z) : option Z :=
  if Z.shiftr a 32 =? 65535 then Some (Z.land a (Z.ones 32)) else None.

Definition normalize_mapped_ip (ip : IpAddr) : IpAddr :=
  match ip with
  | V6 a => match to_ipv4_mapped a with Some v4 => V4 v4 | None => V6 a end
  | V4 a => V4 a
  end.

(** ** The host of a raw URL *)

(** The text before the first character satisfying [p]. *)
Fixpoint before (p : Ascii.ascii → bool) (s : string) : string :=
  match s with
  | EmptyString => EmptyString
  | String c s' => if p c then EmptyString else String c (before p s')
  end.


(** [rsplit_once(c).map(|(_, value)| value)] *)
Fixpoint after_last (c : Ascii.ascii) (s : string) : option string :=
  match s with
  | EmptyString => None
  | String d s' =>
      match after_last c s' with
      | Some r => Some r
      | None => if is_char c d then Some s' else None
      end
  end.

(** [chars().all(p)] for a predicate that holds of ASCII characters only. *)
Fixpoint all_chars (p : Ascii.ascii → bool) (s : string) : bool :=
  match s with EmptyString => true | String c s' => p c && all_chars p s' end.

Definition ends_authority (c : Ascii.ascii) : bool :=
  is_char "/"%char c || is_char "?"%char c || is_char "#"%char c.

Definition raw_host (raw_url : string) : string :=
  let authority := before ends_authority (default raw_url (find_rest "://" raw_url ≫= strip_prefix "://")) in
  let host_port := default authority (after_last "@"%char authority) in
  if starts_with host_port "["
  then match split_once "]"%char host_port with Some (value, _) => value +:+ "]" | None => host_port end
  else before (is_char ":"%char) host_port.

(** A dotted part with a leading zero, all of digits. *)
Definition octal_part (part : string) : bool :=
  (1 <? Z.of_nat (String.length part)) && starts_with part "0" && all_chars is_ascii_digit part.

Definition numeric_form (host : string) : bool :=
  let lower := to_ascii_lowercase host in
  (negb (contains lower ".") && all_chars is_ascii_digit lower)
  || (starts_with lower "0x" || existsb octal_part (split_char "."%char lower)).

(** ** Errors and results *)

Inductive EndpointClassification : Type := Loopback | ApprovedCidr | ApprovedDns.

#[global] Instance EndpointClassification_eq_dec : EqDecision EndpointClassification.
Proof. solve_decision. Defined.

Definition classification_str (c : EndpointClassification) : string :=
  match c with Loopback => "loopback" | ApprovedCidr => "approved_cidr" | ApprovedDns => "approved_dns" end.

Inductive PolicyError : Type :=
| InvalidUrl (msg : string)
| Scheme
| Userinfo
| AlternateNumericHost
| UnapprovedDns (name : string)
| UnapprovedAddress (ip : IpAddr)
| ProhibitedPublicAddress (ip : IpAddr)
| EmptyResolution (host : string)
| Resolution (host message : string)
| InvalidCidr (cidr : string)
| ClientError (message : string).

#[global] Instance PolicyError_eq_dec : EqDecision PolicyError.
Proof. solve_decision. Defined.

Definition reject_alternate_numeric_host (raw_url : string) : result PolicyError () :=
  if numeric_form (raw_host raw_url) then Err AlternateNumericHost else Ok ().

(** ** The libraries *)

Inductive Host : Type :=
| HostV4 (a : Z)
| HostV6 (a : Z)
| HostDomain (name : string).

(** The [url] crate. *)
Class UrlLib : Type := {
  Url : Type;
  url_parse : string → result string Url;
  url_scheme : Url → string;
  url_username : Url → string;
  url_password : Url → option string;
  url_host : Url → option Host;
  url_host_str : Url → option string;
  url_port_or_known_default : Url → option Z
}.

(** The [ipnet] crate. *)
Class IpNetLib : Type := {
  IpNet : Type;
  net_parse : string → option IpNet;
  net_contains : IpNet → IpAddr → bool
}.

(** A range of addresses by its base and prefix length. *)
Inductive block : Type :=
| B4 (base prefix : Z)
| B6 (base prefix : Z).

#[global] Instance block_eq_dec : EqDecision block.
Proof. solve_decision. Defined.

Definition in_block (b : block) (ip : IpAddr) : bool :=
  match b, ip with
  | B4 base prefix, V4 a => Z.shiftr a (32 - prefix) =? Z.shiftr base (32 - prefix)
  | B6 base prefix, V6 a => Z.shiftr a (128 - prefix) =? Z.shiftr base (128 - prefix)
  | _, _ => false
  end.

(** [a.b.c.d], and an IPv6 address by its two leading groups. *)
Definition quad (a b c d : Z) : Z := ((a * 256 + b) * 256 + c) * 256 + d.
Definition groups (a b c : Z) : Z := a * 2 ^ 112 + b * 2 ^ 96 + c * 2 ^ 80.

(** What the literals of the source denote. *)
Definition cidr_literals : list (string * block) :=
  [ ("0.0.0.0/8", B4 (quad 0 0 0 0) 8); ("10.0.0.0/8", B4 (quad 10 0 0 0) 8);
    ("100.64.0.0/10", B4 (quad 100 64 0 0) 10); ("127.0.0.0/8", B4 (quad 127 0 0 0) 8);
    ("169.254.0.0/16", B4 (quad 169 254 0 0) 16); ("172.16.0.0/12", B4 (quad 172 16 0 0) 12);
    ("192.0.0.0/24", B4 (quad 192 0 0 0) 24); ("192.0.2.0/24", B4 (quad 192 0 2 0) 24);
    ("192.88.99.0/24", B4 (quad 192 88 99 0) 24); ("192.168.0.0/16", B4 (quad 192 168 0 0) 16);
    ("198.18.0.0/15", B4 (quad 198 18 0 0) 15); ("198.51.100.0/24", B4 (quad 198 51 100 0) 24);
    ("203.0.113.0/24", B4 (quad 203 0 113 0) 24); ("224.0.0.0/4", B4 (quad 224 0 0 0) 4);
    ("240.0.0.0/4", B4 (quad 240 0 0 0) 4);
    ("2000::/3", B6 (groups 8192 0 0) 3); ("2001::/23", B6 (groups 8193 0 0) 23);
    ("2001:db8::/32", B6 (groups 8193 3512 0) 32); ("2002::/16", B6 (groups 8194 0 0) 16);
    ("3fff::/20", B6 (groups 16383 0 0) 20); ("64:ff9b::/96", B6 (groups 100 65435 0) 96);
    ("64:ff9b:1::/48", B6 (groups 100 65435 1) 48) ].

(** [ipnet] parses each of them to the network it denotes, and [contains]
    compares the leading bits. *)
Class IpNetLaws `{IpNetLib} : Prop :=
  net_literals : ∀ text b, (text, b) ∈ cidr_literals →
    ∃ n, net_parse text = Some n ∧ ∀ ip, net_contains n ip = in_block b ip.

(** [Resolver::resolve]: a host and a port to addresses, or an I/O error. *)
Definition Resolver : Type := string → Z → result string (list (IpAddr * Z)).

Section Policy.
Context `{UrlLib} `{IpNetLib}.

(** [cidr.parse::<IpNet>().is_ok_and(|network| network.contains(..))] *)
Definition literal_contains (ip : IpAddr) (cidr : string) : bool :=
  match net_parse cidr with Some n => net_contains n ip | None => false end.

Definition prohibited_v4 : list string :=
  [ "0.0.0.0/8"; "10.0.0.0/8"; "100.64.0.0/10"; "127.0.0.0/8"; "169.254.0.0/16"; "172.16.0.0/12";
    "192.0.0.0/24"; "192.0.2.0/24"; "192.88.99.0/24"; "192.168.0.0/16"; "198.18.0.0/15";
    "198.51.100.0/24"; "203.0.113.0/24"; "224.0.0.0/4"; "240.0.0.0/4" ].
Definition prohibited_v6 : list string :=
  [ "2001::/23"; "2001:db8::/32"; "2002::/16"; "3fff::/20"; "64:ff9b::/96"; "64:ff9b:1::/48" ].

Definition is_globally_routable (address : IpAddr) : bool :=
  match normalize_mapped_ip address with
  | V4 a => negb (existsb (literal_contains (V4 a)) prohibited_v4)
  | V6 a => literal_contains (V6 a) "2000::/3" && negb (existsb (literal_contains (V6 a)) prohibited_v6)
  end.

(** ** Public egress *)

Record PublicEgressResolution : Type := mkPublic {
  pe_url : Url;
  pe_addresses : list IpAddr
}.

(** [matches!(url.scheme(), "http" | "https")] and the absence of userinfo. *)
Definition check_url (url : Url) : result PolicyError () :=
  if negb (String.eqb (url_scheme url) "http" || String.eqb (url_scheme url) "https") then Err Scheme
  else if negb (String.eqb (url_username url) "") || bool_decide (is_Some (url_password url)) then Err Userinfo
  else Ok ().

(** The parsed URL with its host and port. *)
Definition open_url (raw_url : string) : result PolicyError (Url * Host * Z) :=
  match reject_alternate_numeric_host raw_url with
  | Err e => Err e
  | Ok _ =>
      match url_parse raw_url with
      | Err m => Err (InvalidUrl m)
      | Ok url =>
          match check_url url with
          | Err e => Err e
          | Ok _ =>
              match url_host url with
              | None => Err (InvalidUrl "missing host")
              | Some host =>
                  match url_port_or_known_default url with
                  | None => Err (InvalidUrl "missing port")
                  | Some port => Ok (url, host, port)
                  end
              end
          end
      end
  end.

(** The first address that is not acceptable decides the error. *)
Fixpoint check_addresses (ok : IpAddr → bool) (e : IpAddr → PolicyError) (l : list IpAddr) : result PolicyError () :=
  match l with
  | [] => Ok ()
  | ip :: l => if negb (ok ip) then Err (e ip) else check_addresses ok e l
  end.

Definition resolve_with (raw_url : string) (resolver : Resolver) : result PolicyError PublicEgressResolution :=
  match open_url raw_url with
  | Err e => Err e
  | Ok (url, host, port) =>
      match match host with
            | HostV4 a => Ok [V4 a]
            | HostV6 a => Ok [normalize_mapped_ip (V6 a)]
            | HostDomain name =>
                match resolver name port with
                | Err m => Err (Resolution name m)
                | Ok sockets => Ok (ip_set (map (λ s, normalize_mapped_ip s.1) sockets))
                end
            end with
      | Err e => Err e
      | Ok addresses =>
          if bool_decide (addresses = []) then Err (EmptyResolution (default "" (url_host_str url)))
          else match check_addresses is_globally_routable ProhibitedPublicAddress addresses with
               | Err e => Err e
               | Ok _ => Ok (mkPublic url addresses)
               end
      end
  end.

(** ** Local endpoints *)

Record EndpointResolution : Type := mkEndpoint {
  er_url : Url;
  er_classification : EndpointClassification;
  er_addresses : list IpAddr
}.

Record LocalEndpointPolicy : Type := mkPolicy {
  approved_cidrs : list IpNet;
  approved_dns_names : list string
}.

(** [trim_end_matches('.').to_ascii_lowercase()] *)
Fixpoint trim_end_dots (s : string) : string :=
  match s with
  | EmptyString => EmptyString
  | String c s' =>
      match trim_end_dots s' with
      | EmptyString => if is_char "."%char c then EmptyString else String c EmptyString
      | r => String c r
      end
  end.
Definition normalize_name (name : string) : string := to_ascii_lowercase (trim_end_dots name).

(** [collect::<Result<Vec<_>, _>>()] stops at the first bad CIDR. *)
Fixpoint parse_cidrs (cidrs : list string) : result PolicyError (list IpNet) :=
  match cidrs with
  | [] => Ok []
  | cidr :: rest =>
      match net_parse cidr with
      | None => Err (InvalidCidr cidr)
      | Some n => match parse_cidrs rest with Ok l => Ok (n :: l) | Err e => Err e end
      end
  end.

(** [LocalEndpointPolicy::new] *)
Definition new_policy (cidrs dns_names : list string) : result PolicyError LocalEndpointPolicy :=
  match parse_cidrs cidrs with
  | Err e => Err e
  | Ok nets => Ok (mkPolicy nets (List.filter (λ n, negb (String.eqb n "")) (map normalize_name dns_names)))
  end.

Definition loopback_only : LocalEndpointPolicy := mkPolicy [] [].

Definition approved_address (p : LocalEndpointPolicy) (ip : IpAddr) : bool :=
  is_loopback ip || existsb (λ n, net_contains n ip) (approved_cidrs p).

Definition validate_addresses (p : LocalEndpointPolicy) (url : Url) (addresses : list IpAddr) (dns : bool) :
    result PolicyError EndpointResolution :=
  let addresses := ip_set (map normalize_mapped_ip addresses) in
  if bool_decide (addresses = []) then Err (EmptyResolution (default "" (url_host_str url)))
  else match check_addresses (approved_address p) UnapprovedAddress addresses with
       | Err e => Err e
       | Ok _ =>
           Ok (mkEndpoint url
                 (if dns then ApprovedDns else if forallb is_loopback addresses then Loopback else ApprovedCidr)
                 addresses)
       end.

Definition validate_with (p : LocalEndpointPolicy) (raw_url : string) (resolver : Resolver) :
    result PolicyError EndpointResolution :=
  match open_url raw_url with
  | Err e => Err e
  | Ok (url, host, port) =>
      match host with
      | HostV4 a => validate_addresses p url [V4 a] false
      | HostV6 a => validate_addresses p url [V6 a] false
      | HostDomain name =>
          let normalized := normalize_name name in
          if negb (String.eqb normalized "localhost") && negb (bool_decide (normalized ∈ approved_dns_names p))
          then Err (UnapprovedDns normalized)
          else match resolver name port with
               | Err m => Err (Resolution name m)
               | Ok sockets => validate_addresses p url (ip_set (map fst sockets)) true
               end
      end
  end.
End Policy.

(** ** Pinned clients *)

(** The [reqwest] client builder. *)
Class HttpLib : Type := {
  Builder : Type;
  Client : Type;
  new_builder : Builder;
  resolve_to_addrs : string → list (IpAddr * Z) → Builder → Builder;
  no_proxy : Builder → Builder;
  no_redirects : Builder → Builder;
  build : Builder → result string Client
}.

(** A call returns or panics ([expect]). *)
Inductive outcome (A : Type) : Type :=
| Returned (a : A)
| Panicked.
Arguments Returned {A} a.
Arguments Panicked {A}.

Section Clients.
Context `{UrlLib} `{IpNetLib} `{HttpLib}.

(** The common end of both [reqwest_client]s: pin a domain, then forbid
    proxies and redirects. *)
Definition pinned_client (url : Url) (addresses : list IpAddr) (configure : Builder → Builder) :
    outcome (result PolicyError Client) :=
  let finish b := match build (no_redirects (no_proxy b)) with
                  | Ok c => Returned (Ok c) | Err m => Returned (Err (ClientError m)) end in
  let builder := configure new_builder in
  match url_host url with
  | Some (HostDomain _) =>
      match url_host_str url, url_port_or_known_default url with
      | Some host, Some port => finish (resolve_to_addrs host (map (λ ip, (ip, port)) addresses) builder)
      | _, _ => Panicked
      end
  | _ => finish builder
  end.

(** [PublicEgressPolicy::reqwest_client] *)
Definition public_client (r : PublicEgressResolution) (configure : Builder → Builder) :
    outcome (result PolicyError Client) :=
  match check_url (pe_url r) with
  | Err e => Returned (Err e)
  | Ok _ =>
      if bool_decide (pe_addresses r = []) then Returned (Err (EmptyResolution (default "" (url_host_str (pe_url r)))))
      else match check_addresses is_globally_routable ProhibitedPublicAddress (pe_addresses r) with
           | Err e => Returned (Err e)
           | Ok _ => pinned_client (pe_url r) (pe_addresses r) configure
           end
  end.

(** [LocalEndpointPolicy::reqwest_client] *)
Definition local_client (r : EndpointResolution) (configure : Builder → Builder) :
    outcome (result PolicyError Client) :=
  pinned_client (er_url r) (er_addresses r) configure.
End Clients.

(** ** Sets of addresses *)

Lemma ip_lt_trans x y z : ip_lt x y = true → ip_lt y z = true → ip_lt x z = true.
Proof. destruct x, y, z; cbn; try done; rewrite !Z.ltb_lt; lia. Qed.

Lemma ip_lt_total x y : x ≠ y → ip_lt x y = false → ip_lt y x = true.
Proof.
  destruct x as [a|a], y as [b|b]; cbn; try done; rewrite Z.ltb_ge, Z.ltb_lt; intros Hne Hle;
    assert (a ≠ b) by congruence; lia.
Qed.

Definition ip_sorted (l : list IpAddr) : Prop := StronglySorted (λ x y, ip_lt x y = true) l.

Lemma elem_of_ip_insert x y l : y ∈ ip_insert x l ↔ y = x ∨ y ∈ l.
Proof.
  induction l as [|z l IH]; cbn; [set_solver|]. case_decide as Hz; [set_solver|].
  destruct (ip_lt x z); [set_solver|]. rewrite !elem_of_cons, IH. tauto.
Qed.

Lemma ip_insert_sorted x l : ip_sorted l → ip_sorted (ip_insert x l).
Proof.
  unfold ip_sorted. induction 1 as [|z l Hs IH Hz]; cbn; [by repeat constructor|].
  case_decide as Hxz; [by constructor|]. destruct (ip_lt x z) eqn:Hlt.
  - constructor; [by constructor|]. constructor; [done|]. eapply Forall_impl; [exact Hz|].
    intros y Hy. by eapply ip_lt_trans.
  - constructor; [done|]. apply Forall_forall. intros y [->|Hy]%elem_of_ip_insert.
    + by apply ip_lt_total.
    + by eapply Forall_forall in Hz.
Qed.

Lemma ip_set_spec l : ip_sorted (ip_set l) ∧ ∀ x, x ∈ ip_set l ↔ x ∈ l.
Proof.
  unfold ip_set. enough (∀ s, ip_sorted s →
    ip_sorted (foldl (λ s x, ip_insert x s) s l) ∧ ∀ x, x ∈ foldl (λ s x, ip_insert x s) s l ↔ x ∈ s ∨ x ∈ l) as Hall.
  { destruct (Hall []) as [H1 H2]; [constructor|]. split; [done|]. intros x. rewrite H2. set_solver. }
  induction l as [|y l IH]; intros s Hs; cbn; [split; [done|set_solver]|].
  destruct (IH (ip_insert y s)) as [H1 H2]; [by apply ip_insert_sorted|].
  split; [done|]. intros x. rewrite H2, elem_of_ip_insert, elem_of_cons. tauto.
Qed.

Lemma ip_set_nil l : ip_set l = [] ↔ l = [].
Proof.
  destruct (ip_set_spec l) as [_ Hel]. split; [|by intros ->]. intros Hn. destruct l as [|x l]; [done|].
  specialize (Hel x). rewrite Hn in Hel. set_solver.
Qed.

Lemma check_addresses_spec ok e l :
  match check_addresses ok e l with
  | Ok _ => ∀ x, x ∈ l → ok x = true
  | Err er => ∃ x, x ∈ l ∧ ok x = false ∧ er = e x
  end.
Proof.
  induction l as [|x l IH]; cbn; [by intros x ?%elem_of_nil|]. destruct (ok x) eqn:Hx; cbn.
  - destruct (check_addresses ok e l) as [u|er].
    + intros y [->|Hy]%elem_of_cons; auto.
    + destruct IH as (y & Hy & ? & ?). exists y. set_solver.
  - exists x. set_solver.
Qed.

Lemma normalize_idem ip : normalize_mapped_ip (normalize_mapped_ip ip) = normalize_mapped_ip ip.
Proof.
  destruct ip as [a|a]; [done|]. cbn. destruct (to_ipv4_mapped a) eqn:Ha; [done|]. cbn. by rewrite Ha.
Qed.

(** ** Blocks are ranges *)

Lemma shiftr_range base k a : 0 ≤ k → base mod 2 ^ k = 0 →
  Z.shiftr a k = Z.shiftr base k ↔ base ≤ a < base + 2 ^ k.
Proof.
  intros Hk Hbase. rewrite !Z.shiftr_div_pow2 by lia. pose proof (Z.pow_pos_nonneg 2 k ltac:(lia) Hk) as Hp.
  pose proof (Z.div_mod base (2 ^ k) ltac:(lia)). pose proof (Z.div_mod a (2 ^ k) ltac:(lia)).
  pose proof (Z.mod_pos_bound a (2 ^ k) Hp). split.
  - intros Heq. nia.
  - intros Hr. assert (base / 2 ^ k * 2 ^ k ≤ a < (base / 2 ^ k + 1) * 2 ^ k) as Hb by lia.
    symmetry. apply (Z.div_unique a (2 ^ k) (base / 2 ^ k) (a - base / 2 ^ k * 2 ^ k)); lia.
Qed.

(** The special-purpose ranges, by first and last address. *)
Definition special_v4 : list (Z * Z) :=
  [ (quad 0 0 0 0, quad 0 255 255 255);           (* this network *)
    (quad 10 0 0 0, quad 10 255 255 255);         (* private *)
    (quad 100 64 0 0, quad 100 127 255 255);      (* carrier-grade NAT *)
    (quad 127 0 0 0, quad 127 255 255 255);       (* loopback *)
    (quad 169 254 0 0, quad 169 254 255 255);     (* link local, metadata services *)
    (quad 172 16 0 0, quad 172 31 255 255);       (* private *)
    (quad 192 0 0 0, quad 192 0 0 255);           (* protocol assignments *)
    (quad 192 0 2 0, quad 192 0 2 255);           (* documentation *)
    (quad 192 88 99 0, quad 192 88 99 255);       (* 6to4 relay *)
    (quad 192 168 0 0, quad 192 168 255 255);     (* private *)
    (quad 198 18 0 0, quad 198 19 255 255);       (* benchmarking *)
    (quad 198 51 100 0, quad 198 51 100 255);     (* documentation *)
    (quad 203 0 113 0, quad 203 0 113 255);       (* documentation *)
    (quad 224 0 0 0, quad 255 255 255 255) ].     (* multicast, reserved, broadcast *)

(** Global unicast is 2000:: to 3fff:ffff:.., without these. *)
Definition special_v6 : list (Z * Z) :=
  [ (groups 8193 0 0, groups 8193 512 0 - 1);     (* 2001::/23, Teredo and others *)
    (groups 8193 3512 0, groups 8193 3513 0 - 1); (* 2001:db8::/32, documentation *)
    (groups 8194 0 0, groups 8195 0 0 - 1);       (* 2002::/16, 6to4 *)
    (groups 16383 0 0, groups 16383 4096 0 - 1) ]. (* 3fff::/20, documentation *)

Definition outside (ranges : list (Z * Z)) (a : Z) : Prop := ∀ lo hi, (lo, hi) ∈ ranges → ¬ lo ≤ a ≤ hi.

Definition public_ip (ip : IpAddr) : Prop :=
  match ip with
  | V4 a => outside special_v4 a
  | V6 a => groups 8192 0 0 ≤ a < groups 16384 0 0 ∧ outside special_v6 a
  end.

Section Facts.
Context `{UrlLib} `{IpNetLaws}.

Lemma literal_block text b ip : (text, b) ∈ cidr_literals → literal_contains ip text = in_block b ip.
Proof.
  intros Hin. destruct (net_literals text b Hin) as (n & Hp & Hc). unfold literal_contains. by rewrite Hp.
Qed.

Lemma block4_range base p a : 0 ≤ p ≤ 32 → base mod 2 ^ (32 - p) = 0 →
  in_block (B4 base p) (V4 a) = true ↔ base ≤ a < base + 2 ^ (32 - p).
Proof. intros Hp Hb. cbn. rewrite Z.eqb_eq. apply shiftr_range; [lia|done]. Qed.

Lemma block6_range base p a : 0 ≤ p ≤ 128 → base mod 2 ^ (128 - p) = 0 →
  in_block (B6 base p) (V6 a) = true ↔ base ≤ a < base + 2 ^ (128 - p).
Proof. intros Hp Hb. cbn. rewrite Z.eqb_eq. apply shiftr_range; [lia|done]. Qed.

(** The blocks that the texts denote. *)
Definition blocks (texts : list string) : list block :=
  omap (λ t, snd <$> List.find (λ l, String.eqb l.1 t) cidr_literals) texts.

Lemma literals_any texts ip :
  Forall (λ t, is_Some (List.find (λ l, String.eqb l.1 t) cidr_literals)) texts →
  existsb (literal_contains ip) texts = existsb (λ b, in_block b ip) (blocks texts).
Proof.
  unfold blocks. induction 1 as [|t texts [[t' b] Hf] _ IH]; cbn [existsb omap list_omap]; [done|].
  rewrite Hf. cbn [fmap option_fmap option_map snd existsb]. rewrite IH. f_equal.
  apply find_some in Hf as [Hin%list_elem_of_In Ht%String.eqb_eq]. cbn in Ht. subst t'. by apply literal_block.
Qed.

Lemma outside_cons lo hi l a : outside ((lo, hi) :: l) a ↔ ¬ lo ≤ a ≤ hi ∧ outside l a.
Proof.
  unfold outside. split.
  - intros Ho. split; [apply Ho; left|]. intros lo' hi' Hin. apply Ho. by right.
  - intros [Ha Ho] lo' hi' [[= -> ->]|Hin]%elem_of_cons; [done|by apply Ho].
Qed.

Lemma outside_nil a : outside [] a.
Proof. by intros lo hi ?%elem_of_nil. Qed.

Lemma v4_exact a : existsb (literal_contains (V4 a)) prohibited_v4 = false ↔ outside special_v4 a.
Proof.
  rewrite literals_any by (apply (bool_decide_unpack _); by vm_compute).
  set (l := blocks prohibited_v4). vm_compute in l. subst l. cbn [existsb].
  rewrite !orb_false_iff. rewrite <-!not_true_iff_false. rewrite !block4_range by (lia || done).
  unfold special_v4. rewrite !outside_cons. pose proof (outside_nil a).
  repeat match goal with |- context [quad ?x ?y ?z ?w] =>
    let v := eval vm_compute in (quad x y z w) in change (quad x y z w) with v end.
  repeat match goal with |- context [2 ^ ?x] => let v := eval vm_compute in (2 ^ x) in change (2 ^ x) with v end.
  split; [intros Hall|intros Hall].
  - repeat match goal with Hx : _ ∧ _ |- _ => destruct Hx end. split_and!; try done; lia.
  - repeat match goal with Hx : _ ∧ _ |- _ => destruct Hx end. split_and!; try done; lia.
Qed.

Lemma v6_exact a :
  literal_contains (V6 a) "2000::/3" && negb (existsb (literal_contains (V6 a)) prohibited_v6) = true ↔
  groups 8192 0 0 ≤ a < groups 16384 0 0 ∧ outside special_v6 a.
Proof.
  rewrite (literal_block "2000::/3" (B6 (groups 8192 0 0) 3)) by (apply (bool_decide_unpack _); by vm_compute).
  rewrite literals_any by (apply (bool_decide_unpack _); by vm_compute).
  set (l := blocks prohibited_v6). vm_compute in l. subst l. cbn [existsb].
  rewrite andb_true_iff, negb_true_iff, !orb_false_iff. rewrite <-!not_true_iff_false.
  rewrite !block6_range by (lia || done).
  unfold special_v6. rewrite !outside_cons. pose proof (outside_nil a).
  repeat match goal with |- context [groups ?x ?y ?z] =>
    let v := eval vm_compute in (groups x y z) in change (groups x y z) with v end.
  repeat match goal with |- context [2 ^ ?x] => let v := eval vm_compute in (2 ^ x) in change (2 ^ x) with v end.
  split; intros Hall; repeat match goal with Hx : _ ∧ _ |- _ => destruct Hx end; split_and!; try done; lia.
Qed.

(** The prefix tests of the policy are the ranges of [public_ip]. *)
Lemma routable_exact ip : is_globally_routable ip = true ↔ public_ip (normalize_mapped_ip ip).
Proof.
  unfold is_globally_routable. destruct (normalize_mapped_ip ip) as [a|a]; cbn [public_ip].
  - rewrite negb_true_iff. apply v4_exact.
  - apply v6_exact.
Qed.

(** The addresses a URL's host stands for, as the resolver answers. *)
Definition host_answers (host : Host) (port : Z) (resolver : Resolver) : result string (list IpAddr) :=
  match host with
  | HostV4 a => Ok [V4 a]
  | HostV6 a => Ok [V6 a]
  | HostDomain name => match resolver name port with Ok l => Ok (map fst l) | Err m => Err m end
  end.

Lemma answers_set host port resolver l :
  host_answers host port resolver = Ok l →
  match host with
  | HostV4 a => Ok [V4 a]
  | HostV6 a => Ok [normalize_mapped_ip (V6 a)]
  | HostDomain name =>
      match resolver name port with
      | Err m => Err (Resolution name m)
      | Ok sockets => Ok (ip_set (map (λ s, normalize_mapped_ip s.1) sockets))
      end
  end = Ok (ip_set (map normalize_mapped_ip l)) :> result PolicyError _.
Proof.
  destruct host as [a|a|name]; cbn [host_answers]; [by intros [= <-]..|].
  destruct (resolver name port) as [s|m]; [|done]. intros [= <-]. by rewrite map_map.
Qed.

(** C8: The public web client is only ever pinned to public addresses.  For a
    URL that parses with an allowed scheme and no credentials, the policy
    accepts exactly when the host has an address and every address it resolves
    to, IPv4-mapped ones as IPv4, lies outside every private, loopback,
    link-local, carrier, documentation, multicast and reserved range; the
    addresses pinned are then exactly those resolved, each once and in order.
    One address that is not public denies the whole destination. *)
Theorem public_egress_exact raw_url resolver url host port l :
  open_url raw_url = Ok (url, host, port) → host_answers host port resolver = Ok l →
  match resolve_with raw_url resolver with
  | Ok r => pe_url r = url ∧ l ≠ [] ∧ ip_sorted (pe_addresses r) ∧
      (∀ ip, ip ∈ pe_addresses r ↔ ∃ x, x ∈ l ∧ ip = normalize_mapped_ip x) ∧
      (∀ ip, ip ∈ pe_addresses r → public_ip ip)
  | Err e => (l = [] ∧ e = EmptyResolution (default "" (url_host_str url))) ∨
      ∃ x, x ∈ l ∧ ¬ public_ip (normalize_mapped_ip x) ∧ e = ProhibitedPublicAddress (normalize_mapped_ip x)
  end.
Proof.
  intros Hurl Hl. unfold resolve_with. rewrite Hurl, (answers_set _ _ _ _ Hl).
  set (pins := ip_set (map normalize_mapped_ip l)).
  destruct (ip_set_spec (map normalize_mapped_ip l)) as [Hsort Hel]. fold pins in Hsort, Hel.
  assert (∀ ip, ip ∈ pins ↔ ∃ x, x ∈ l ∧ ip = normalize_mapped_ip x) as Hpins.
  { intros ip. rewrite Hel, list_elem_of_fmap. naive_solver. }
  case_bool_decide as Hnil.
  { left. split; [|done]. by apply ip_set_nil, map_eq_nil in Hnil. }
  pose proof (check_addresses_spec is_globally_routable ProhibitedPublicAddress pins) as Hc.
  destruct (check_addresses _ _ pins) as [u|e].
  - split_and!; [done| |done|done|].
    + intros ->. by apply Hnil.
    + intros ip Hip. pose proof (Hc ip Hip) as Hr%routable_exact. apply Hpins in Hip as (x & _ & ->).
      by rewrite normalize_idem in Hr.
  - right. destruct Hc as (ip & Hip & Hno & ->). apply Hpins in Hip as (x & Hx & ->).
    exists x. split_and!; [done| |done]. rewrite <-not_true_iff_false, routable_exact, normalize_idem in Hno. done.
Qed.

(** An approved CIDR is one the operator listed. *)
Lemma parse_cidrs_spec cidrs nets :
  parse_cidrs cidrs = Ok nets → ∀ n, n ∈ nets ↔ ∃ c, c ∈ cidrs ∧ net_parse c = Some n.
Proof.
  revert nets. induction cidrs as [|c cidrs IH]; intros nets; cbn [parse_cidrs].
  - intros [= <-] n. set_solver.
  - destruct (net_parse c) as [m|] eqn:Hc; [|done]. destruct (parse_cidrs cidrs) as [l|]; [|done].
    intros [= <-] n. rewrite elem_of_cons, (IH l eq_refl). set_solver.
Qed.

(** What an accepted address satisfies under a policy of the operator's CIDRs. *)
Definition allowed (cidrs : list string) (ip : IpAddr) : Prop :=
  is_loopback ip = true ∨ ∃ c n, c ∈ cidrs ∧ net_parse c = Some n ∧ net_contains n ip = true.

(** An address needs no name; a name is localhost or one of the operator's. *)
Definition listed (names : list string) (host : Host) : Prop :=
  match host with
  | HostDomain n => normalize_name n = "localhost" ∨
      (normalize_name n ≠ "" ∧ ∃ m, m ∈ names ∧ normalize_name m = normalize_name n)
  | HostV4 _ | HostV6 _ => True
  end.

Definition is_domain (host : Host) : bool := match host with HostDomain _ => true | _ => false end.

Lemma approved_allowed cidrs names p ip :
  new_policy cidrs names = Ok p → approved_address p ip = true ↔ allowed cidrs ip.
Proof.
  unfold new_policy. destruct (parse_cidrs cidrs) as [nets|] eqn:Hc; [|done]. intros [= <-].
  unfold approved_address, allowed. rewrite orb_true_iff, existsb_True. cbn [approved_cidrs].
  setoid_rewrite (parse_cidrs_spec _ _ Hc). naive_solver.
Qed.

Lemma approved_listed cidrs names p host :
  new_policy cidrs names = Ok p →
  listed names host ↔ match host with
                      | HostDomain n => normalize_name n = "localhost" ∨ normalize_name n ∈ approved_dns_names p
                      | _ => True end.
Proof.
  unfold new_policy. destruct (parse_cidrs cidrs) as [nets|]; [|done]. intros [= <-].
  destruct host as [a|a|n]; [done..|]. cbn [listed approved_dns_names].
  rewrite list_elem_of_In, filter_In, <-list_elem_of_In, list_elem_of_fmap, negb_true_iff, String.eqb_neq.
  naive_solver.
Qed.

(** The policy is the check of the name and the check of the answers. *)
Lemma validate_with_eq cidrs names p raw_url resolver url host port l :
  new_policy cidrs names = Ok p → open_url raw_url = Ok (url, host, port) → host_answers host port resolver = Ok l →
  (listed names host ∧ ∃ l', (∀ x, x ∈ l' ↔ x ∈ l) ∧
     validate_with p raw_url resolver = validate_addresses p url l' (is_domain host)) ∨
  (¬ listed names host ∧ ∃ e, validate_with p raw_url resolver = Err e).
Proof.
  intros Hp Hurl Hl. pose proof (approved_listed _ _ _ host Hp) as Hlisted. unfold validate_with. rewrite Hurl.
  destruct host as [a|a|name]; cbn [host_answers] in Hl.
  - injection Hl as <-. left. split; [done|]. by exists [V4 a].
  - injection Hl as <-. left. split; [done|]. by exists [V6 a].
  - destruct (resolver name port) as [s|m]; [|done]. injection Hl as <-.
    destruct (String.eqb_spec (normalize_name name) "localhost") as [Heq|Hne]; cbn [negb andb];
      [|case_bool_decide as Hin; cbn [negb]].
    + left. split; [apply Hlisted; by left|]. exists (ip_set (map fst s)). split; [apply ip_set_spec|done].
    + left. split; [apply Hlisted; by right|]. exists (ip_set (map fst s)). split; [apply ip_set_spec|done].
    + right. split; [intros [?|?]%Hlisted; done|by eexists].
Qed.

(** A local endpoint is pinned only to loopback addresses and to ranges
    the operator approved.  Under the policy built from the operator's CIDRs
    and names, a URL is accepted exactly when its host is an address or a
    listed name (or localhost), it has an address, and each address it
    resolves to, IPv4-mapped ones as IPv4, is loopback or in a listed CIDR;
    without any listed CIDR only loopback remains.  The pins are exactly the
    addresses resolved, and the classification says why they were allowed. *)
Theorem local_endpoint_exact cidrs names p raw_url resolver url host port l :
  new_policy cidrs names = Ok p → open_url raw_url = Ok (url, host, port) →
  host_answers host port resolver = Ok l →
  match validate_with p raw_url resolver with
  | Ok r => er_url r = url ∧ listed names host ∧ l ≠ [] ∧ ip_sorted (er_addresses r) ∧
      (∀ ip, ip ∈ er_addresses r ↔ ∃ x, x ∈ l ∧ ip = normalize_mapped_ip x) ∧
      (∀ ip, ip ∈ er_addresses r → allowed cidrs ip) ∧
      (cidrs = [] → ∀ ip, ip ∈ er_addresses r → is_loopback ip = true) ∧
      er_classification r = if is_domain host then ApprovedDns
                            else if forallb is_loopback (er_addresses r) then Loopback else ApprovedCidr
  | Err e => ¬ listed names host ∨ l = [] ∨
      ∃ x, x ∈ l ∧ ¬ allowed cidrs (normalize_mapped_ip x) ∧ e = UnapprovedAddress (normalize_mapped_ip x)
  end.
Proof.
  intros Hp Hurl Hl. destruct (validate_with_eq _ _ _ _ _ _ _ _ _ Hp Hurl Hl) as
    [(Hlisted & l' & Hl' & ->)|(Hno & e & ->)]; [|by left].
  unfold validate_addresses. destruct (ip_set_spec (map normalize_mapped_ip l')) as [Hsort Hel].
  set (pins := ip_set (map normalize_mapped_ip l')) in *.
  assert (∀ ip, ip ∈ pins ↔ ∃ x, x ∈ l ∧ ip = normalize_mapped_ip x) as Hpins.
  { intros ip. rewrite Hel, list_elem_of_fmap. setoid_rewrite Hl'. naive_solver. }
  case_bool_decide as Hnil.
  { right. left. destruct l as [|x l1]; [done|]. exfalso. assert (normalize_mapped_ip x ∈ pins) as Hx.
    { apply Hpins. exists x. split; [left|done]. } rewrite Hnil in Hx. by apply elem_of_nil in Hx. }
  pose proof (check_addresses_spec (approved_address p) UnapprovedAddress pins) as Hck.
  destruct (check_addresses _ _ pins) as [u|e]; cbn [er_url er_addresses er_classification].
  - assert (∀ ip, ip ∈ pins → allowed cidrs ip) as Hall.
    { intros ip Hip. by apply (approved_allowed cidrs names p ip Hp), Hck. }
    split_and!; [done|done| |done|done|done| |done].
    + intros ->. apply Hnil. destruct pins as [|y pins']; [done|].
      destruct (proj1 (Hpins y)) as (x & Hx & _); [left|by apply elem_of_nil in Hx].
    + intros -> ip Hip. destruct (Hall ip Hip) as [?|(c & n & Hin & _)]; [done|]. by apply elem_of_nil in Hin.
  - do 2 right. destruct Hck as (ip & Hip & Hno & ->). apply Hpins in Hip as (x & Hx & ->).
    exists x. split_and!; [done| |done]. by rewrite <-(approved_allowed cidrs names p _ Hp), not_true_iff_false.
Qed.
End Facts.

(** ** The raw host *)

Definition free_of (cs : list Ascii.ascii) (s : string) : Prop :=
  all_chars (λ c, negb (existsb (Ascii.eqb c) cs)) s = true.

Lemma free_of_cons cs c s : free_of cs (String c s) ↔ (c ∉ cs) ∧ free_of cs s.
Proof.
  unfold free_of. cbn. rewrite andb_true_iff, negb_true_iff, existsb_False.
  split; intros [Hc Hs]; (split; [|done]).
  - intros Hin. specialize (Hc c Hin). by rewrite Ascii.eqb_refl in Hc.
  - intros x Hx. apply Ascii.eqb_neq. by intros ->.
Qed.

Lemma free_of_app cs a b : free_of cs (a +:+ b) ↔ free_of cs a ∧ free_of cs b.
Proof.
  induction a as [|c a IH]; [split; [by intros ?|by intros [_ ?]]|].
  rewrite append_cons, !free_of_cons, IH. tauto.
Qed.

Lemma free_of_sub cs cs' s : (∀ c, c ∈ cs → c ∈ cs') → free_of cs' s → free_of cs s.
Proof.
  intros Hsub. induction s as [|c s IH]; [done|]. rewrite !free_of_cons. intros [Hc Hs].
  split; [by intros Hin%Hsub|auto].
Qed.

Lemma before_free p cs a b :
  (∀ c, p c = true → c ∈ cs) → free_of cs a → before p (a +:+ b) = a +:+ before p b.
Proof.
  intros Hp. induction a as [|c a IH]; [done|]. rewrite free_of_cons. intros [Hc Ha].
  rewrite append_cons. cbn. destruct (p c) eqn:Hpc; [by apply Hp in Hpc|]. by rewrite IH.
Qed.

Lemma after_last_free c s : free_of [c] s → after_last c s = None.
Proof.
  induction s as [|d s IH]; [done|]. rewrite free_of_cons. intros [Hd Hs]. cbn. rewrite IH by done.
  unfold is_char. destruct (Ascii.eqb_spec c d) as [->|]; [set_solver|done].
Qed.

Lemma after_last_app c u s : free_of [c] s → after_last c (u +:+ String c s) = Some s.
Proof.
  intros Hs. induction u as [|d u IH].
  - rewrite append_nil. cbn [after_last]. rewrite (after_last_free c s Hs). unfold is_char. by rewrite Ascii.eqb_refl.
  - rewrite append_cons. cbn [after_last]. by rewrite IH.
Qed.

Lemma find_scheme scheme t :
  free_of [":"%char] scheme → (find_rest "://" (scheme +:+ ("://" +:+ t)) ≫= strip_prefix "://") = Some t.
Proof.
  induction scheme as [|c scheme IH]; [done|]. rewrite free_of_cons. intros [Hc Hs]. specialize (IH Hs).
  rewrite append_cons. cbn [find_rest strip_prefix].
  destruct (Ascii.eqb_spec ":"%char c) as [<-|]; [set_solver|]. exact IH.
Qed.

Lemma ends_authority_elem c : ends_authority c = true → c ∈ ["/"; "?"; "#"]%char.
Proof.
  unfold ends_authority, is_char. rewrite !orb_true_iff, !Ascii.eqb_eq. set_solver.
Qed.

(** An alternate numeric spelling of the host is refused wherever it
    stands in a URL: for a scheme, optional credentials, a host, an optional
    port and any path, query or fragment, the URL passes exactly when the host
    is not a number, does not begin with 0x and has no octal-looking part. *)
Theorem numeric_hosts_rejected scheme user host port tail :
  free_of [":"%char] scheme →
  (user = "" ∨ ∃ u, user = u +:+ "@" ∧ free_of ["/"; "?"; "#"]%char u) →
  free_of ["/"; "?"; "#"; "@"; ":"; "["]%char host →
  (port = "" ∨ ∃ q, port = ":" +:+ q ∧ free_of ["/"; "?"; "#"; "@"]%char q) →
  (tail = "" ∨ ∃ c t, tail = String c t ∧ ends_authority c = true) →
  reject_alternate_numeric_host (scheme +:+ ("://" +:+ (user +:+ (host +:+ (port +:+ tail))))) =
    if numeric_form host then Err AlternateNumericHost else Ok ().
Proof.
  intros Hscheme Huser Hhost Hport Htail. unfold reject_alternate_numeric_host, raw_host.
  rewrite find_scheme by done. cbn [from_option id].
  assert (free_of ["/"; "?"; "#"; "@"]%char (host +:+ port)) as Hhp.
  { apply free_of_app. split; [eapply free_of_sub; [|exact Hhost]; set_solver|].
    destruct Hport as [->|(q & -> & Hq)]; [done|]. apply free_of_cons. split; [set_solver|done]. }
  assert (free_of ["/"; "?"; "#"]%char user) as Hu.
  { destruct Huser as [->|(u & -> & Hu)]; [done|]. apply free_of_app. split; [done|].
    apply free_of_cons. split; [set_solver|done]. }
  assert (before ends_authority (user +:+ (host +:+ (port +:+ tail))) = user +:+ (host +:+ port)) as ->.
  { rewrite <-(append_assoc host). rewrite (before_free ends_authority ["/"; "?"; "#"]%char);
      [f_equal|apply ends_authority_elem|done].
    rewrite (before_free ends_authority ["/"; "?"; "#"]%char);
      [|apply ends_authority_elem|eapply free_of_sub; [|exact Hhp]; set_solver].
    assert (before ends_authority tail = "") as ->; [|by rewrite append_empty_r].
    destruct Htail as [->|(c & t & -> & Hc)]; [done|]. cbn. by rewrite Hc. }
  assert (default (user +:+ (host +:+ port)) (after_last "@"%char (user +:+ (host +:+ port))) = host +:+ port) as ->.
  { assert (free_of ["@"%char] (host +:+ port)) by (eapply free_of_sub; [|exact Hhp]; set_solver).
    destruct Huser as [->|(u & -> & _)].
    - by rewrite append_nil, after_last_free.
    - rewrite append_assoc. change ("@" +:+ (host +:+ port)) with (String "@"%char (host +:+ port)).
      by rewrite after_last_app. }
  assert (starts_with (host +:+ port) "[" = false) as ->.
  { destruct host as [|c host]; [destruct Hport as [->|(q & -> & _)]; done|].
    apply free_of_cons in Hhost as [Hc _]. unfold starts_with. rewrite append_cons. cbn [strip_prefix].
    destruct (Ascii.eqb_spec "["%char c) as [<-|]; [|done]. destruct Hc. rewrite !elem_of_cons. tauto. }
  assert (before (is_char ":"%char) (host +:+ port) = host) as ->; [|done].
  rewrite (before_free _ [":"%char]); [| |eapply free_of_sub; [|exact Hhost]; set_solver].
  - destruct Hport as [->|(q & -> & _)]; [apply append_empty_r|]. cbn. apply append_empty_r.
  - intros c Hc%Ascii.eqb_eq. set_solver.
Qed.

(** Numbers, hexadecimal and octal-looking hosts are such spellings. *)
Lemma numeric_forms :
  (∀ s, all_chars is_ascii_digit s = true → numeric_form s = true) ∧
  (∀ s, numeric_form ("0x" +:+ s) = true ∧ numeric_form ("0X" +:+ s) = true).
Proof.
  split.
  - intros s Hs. unfold numeric_form.
    assert (to_ascii_lowercase s = s ∧ contains s "." = false) as [-> ->]; [|by rewrite Hs].
    induction s as [|c s IH]; [done|]. cbn [all_chars] in Hs. apply andb_true_iff in Hs as [Hc Hs].
    destruct (IH Hs) as [Hl Hd]. unfold is_ascii_digit in Hc. apply andb_true_iff in Hc as [H1%Z.leb_le H2%Z.leb_le].
    split.
    + cbn. unfold to_ascii_lowercase in Hl. rewrite Hl. f_equal. unfold ascii_lower.
      destruct (Z.leb_spec 65 (code c)); [lia|done].
    + unfold contains in *. cbn [find_rest strip_prefix].
      destruct (Ascii.eqb_spec "."%char c) as [<-|]; [by vm_compute in H1|done].
  - intros s. unfold numeric_form. split; apply orb_true_iff; right; apply orb_true_iff; left; reflexivity.
Qed.

(** ** Pinned clients *)

Section ClientFacts.
Context `{UrlLib} `{IpNetLaws} `{HttpLib}.

(** A client made from an accepted public destination is never refused and
    never panics: it is the caller's builder, pinned to the accepted addresses
    when the host is a name, with proxies and redirects switched off last. *)
Theorem public_client_pinned raw_url resolver r configure :
  (∀ u, is_Some (url_host u) → is_Some (url_host_str u)) →
  resolve_with raw_url resolver = Ok r →
  ∃ host port b, url_host (pe_url r) = Some host ∧ url_port_or_known_default (pe_url r) = Some port ∧
    b = (if is_domain host
         then resolve_to_addrs (default "" (url_host_str (pe_url r))) (map (λ ip, (ip, port)) (pe_addresses r))
                (configure new_builder)
         else configure new_builder) ∧
    public_client r configure = Returned (match build (no_redirects (no_proxy b)) with
                                          | Ok c => Ok c | Err m => Err (ClientError m) end).
Proof.
  intros Hstr Hres. unfold resolve_with in Hres. destruct (open_url raw_url) as [[[url host] port]|] eqn:Hurl; [|done].
  destruct (match host with HostV4 _ => _ | _ => _ end) as [pins|]; [|done].
  destruct (bool_decide (pins = [])) eqn:Hnil; [done|].
  destruct (check_addresses _ _ pins) as [u|] eqn:Hck; [|done]. injection Hres as <-.
  unfold open_url in Hurl. destruct (reject_alternate_numeric_host raw_url); [|done].
  destruct (url_parse raw_url) as [url'|]; [|done]. destruct (check_url url') as [v|] eqn:Hcu; [|done].
  destruct (url_host url') as [host'|] eqn:Hh; [|done].
  destruct (url_port_or_known_default url') as [port'|] eqn:Hpt; [|done]. injection Hurl as -> -> ->.
  exists host, port. eexists. cbn [pe_url pe_addresses]. split_and!; [done|done|reflexivity|].
  unfold public_client, pinned_client. cbn [pe_url pe_addresses]. rewrite Hcu, Hnil, Hck, Hh, Hpt.
  destruct (Hstr url) as [hs Hhs]; [by eexists|]. rewrite Hhs. destruct host; cbn [is_domain default];
    by destruct (build _).
Qed.
End ClientFacts.

(** ** A concrete instance *)

(** A URL of the instance is its host name, always over https. *)
Definition toy_url : UrlLib := {|
  Url := string;
  url_parse s := match strip_prefix "https://" s with Some h => Ok h | None => Err "unsupported" end;
  url_scheme _ := "https";
  url_username _ := "";
  url_password _ := None;
  url_host h := Some (HostDomain h);
  url_host_str h := Some h;
  url_port_or_known_default _ := Some 443
|}.

(** Its networks are the blocks of the literals, and one more. *)
Definition toy_net : IpNetLib := {|
  IpNet := block;
  net_parse t := snd <$> List.find (λ l, String.eqb l.1 t) (cidr_literals ++ [("10.20.0.0/16", B4 (quad 10 20 0 0) 16)]);
  net_contains := in_block
|}.

Definition toy_http : HttpLib := {|
  Builder := list string;
  Client := list string;
  new_builder := [];
  resolve_to_addrs h _ b := b ++ [h];
  no_proxy b := b ++ ["no proxy"];
  no_redirects b := b ++ ["no redirects"];
  build b := Ok b
|}.

Lemma toy_net_laws : @IpNetLaws toy_net.
Proof.
  intros text b Hin. exists b. split; [|done]. revert text b Hin.
  assert (Forall (λ l, @net_parse toy_net l.1 = Some l.2) cidr_literals) as Hall
    by (apply (bool_decide_unpack _); by vm_compute).
  intros text b Hin. rewrite Forall_forall in Hall. exact (Hall _ Hin).
Qed.

(** One of the two answers is a metadata service. *)
Definition toy_answers : Resolver := λ _ port,
  Ok [(V4 (quad 93 184 216 34), port); (V6 (65535 * 2 ^ 32 + quad 169 254 169 254), port)].
Definition toy_safe : Resolver := λ _ port, Ok [(V4 (quad 93 184 216 34), port); (V4 (quad 8 8 8 8), port)].

Lemma public_egress_exact_witness :
  ∃ x, x ∈ [V4 (quad 93 184 216 34); V6 (65535 * 2 ^ 32 + quad 169 254 169 254)] ∧
    ¬ public_ip (normalize_mapped_ip x).
Proof.
  pose proof (@public_egress_exact toy_url toy_net toy_net_laws "https://public.example" toy_answers "public.example"
    (HostDomain "public.example") 443
    [V4 (quad 93 184 216 34); V6 (65535 * 2 ^ 32 + quad 169 254 169 254)] eq_refl eq_refl) as Hex.
  assert (@resolve_with toy_url toy_net "https://public.example" toy_answers =
    Err (ProhibitedPublicAddress (V4 (quad 169 254 169 254)))) as He by (by vm_compute).
  rewrite He in Hex. cbv beta iota in Hex. destruct Hex as [Hex|Hex].
  - destruct Hex as [Hex _]. discriminate Hex.
  - destruct Hex as [x Hex]. destruct Hex as [Hx Hex]. destruct Hex as [Hno Hex]. clear Hex.
    exists x. split; [exact Hx|exact Hno].
Defined.

Lemma local_endpoint_exact_witness : @allowed toy_net ["10.20.0.0/16"] (V4 (quad 10 20 4 2)).
Proof.
  pose proof (@local_endpoint_exact toy_url toy_net toy_net_laws ["10.20.0.0/16"] ["Model.lan."]
    (@mkPolicy toy_net [B4 (quad 10 20 0 0) 16] ["model.lan"])
    "https://model.lan" (λ _ port, Ok [(V4 (quad 10 20 4 2), port)]) "model.lan" (HostDomain "model.lan") 443 _
    eq_refl eq_refl eq_refl) as Hex.
  destruct Hex as (_ & _ & _ & _ & _ & Hall & _). apply Hall. left.
Defined.

Lemma numeric_hosts_rejected_witness :
  reject_alternate_numeric_host "http://user:pw@0x7f000001:80/private" = Err AlternateNumericHost.
Proof.
  apply (numeric_hosts_rejected "http" "user:pw@" "0x7f000001" ":80" "/private").
  - reflexivity.
  - right. exists "user:pw". split; reflexivity.
  - reflexivity.
  - right. exists "80". split; reflexivity.
  - right. exists "/"%char, "private". split; reflexivity.
Defined.

Lemma public_client_pinned_witness :
  ∃ host port b, @url_host toy_url "public.example" = Some host ∧
    @url_port_or_known_default toy_url "public.example" = Some port ∧
    b = (if is_domain host then @resolve_to_addrs toy_http "public.example" [] [] else []) ∧ port = 443.
Proof.
  destruct (@public_client_pinned toy_url toy_net toy_http "https://public.example" toy_safe
    (@mkPublic toy_url "public.example" [V4 (quad 8 8 8 8); V4 (quad 93 184 216 34)]) (λ b, b)) as
    (host & port & b & Hh & Hp & Hb & _).
  - intros u _. by eexists.
  - by vm_compute.
  - exists host, port, b. injection Hp as <-. split_and!; [exact Hh|reflexivity|exact Hb|reflexivity].
Defined.
