(* ===== verification/ToolExecution.v ===== *)
(** * Durable tool execution

    [crates/core/src/tool_execution.rs] over the tables of migration 0023: the
    retry budget of a run, the invocation record of each dispatched step and
    the circuit breaker of each integration.  Times are milliseconds. *)

From stdpp Require Import sorting relations.
From S2P Require Import Prelude Wire Text RunSchema Schema RunBase RunBudgets ServiceBase.

(** ** Failures ([crates/core/src/tool.rs]) *)

Inductive ToolFailureKind : Type :=
| KValidation | KPolicyDenied | KApprovalDenied | KTransient | KTimeout | KCancelled | KPermanent.

#[global] Instance ToolFailureKind_eq_dec : EqDecision ToolFailureKind.
Proof. solve_decision. Defined.

(** [ToolFailureKind::as_str] *)
Definition failure_kind_str (k : ToolFailureKind) : string :=
  match k with
  | KValidation => "validation"
  | KPolicyDenied => "policy_denied"
  | KApprovalDenied => "approval_denied"
  | KTransient => "transient"
  | KTimeout => "timeout"
  | KCancelled => "cancelled"
  | KPermanent => "permanent"
  end.

(** [ToolFailureKind::parse] *)
Definition failure_kind_parse (v : string) : option ToolFailureKind :=
  if String.eqb v "validation" then Some KValidation
  else if String.eqb v "policy_denied" then Some KPolicyDenied
  else if String.eqb v "approval_denied" then Some KApprovalDenied
  else if String.eqb v "transient" then Some KTransient
  else if String.eqb v "timeout" then Some KTimeout
  else if String.eqb v "cancelled" then Some KCancelled
  else if String.eqb v "permanent" then Some KPermanent
  else None.

(** [ToolFailureKind::may_retry] *)
Definition kind_may_retry (k : ToolFailureKind) : bool :=
  match k with KTransient | KTimeout => true | _ => false end.

Record ToolFailure : Type := mkToolFailure {
  tf_kind : ToolFailureKind;
  tf_code : string;
  tf_message : string;
  tf_retryable : bool;
  tf_retry_after_ms : option Z;
  tf_attempt : Z;
  tf_guidance : option string
}.

#[global] Instance ToolFailure_eq_dec : EqDecision ToolFailure.
Proof. solve_decision. Defined.

(** [ToolFailure::new] *)
Definition new_failure (k : ToolFailureKind) (code message : string) : ToolFailure :=
  mkToolFailure k code message (kind_may_retry k) None 0 None.

(** [ToolFailure::normalized] *)
Definition normalized (f : ToolFailure) : ToolFailure :=
  if kind_may_retry (tf_kind f) then f
  else mkToolFailure (tf_kind f) (tf_code f) (tf_message f) false None (tf_attempt f) (tf_guidance f).

(** ** Tables *)

(** [state_tool_retry_budgets], primary key [run_id]. *)
Record RetryBudgetRow : Type := mkRetryBudget {
  rb_total_budget : Z;
  rb_consumed_retries : Z;
  rb_updated_at_ms : Z
}.

(** The failure columns: written together, and null together. *)
Record FailureColumns : Type := mkFailureColumns {
  fc_kind : string;
  fc_code : string;
  fc_message : string;
  fc_retryable : bool;
  fc_retry_after_ms : option Z;
  fc_guidance : option string
}.

(** The check on [status] admits the texts of these five. *)
Inductive InvocationStatus : Type := IvPending | IvRunning | IvSucceeded | IvFailed | IvDenied.

#[global] Instance InvocationStatus_eq_dec : EqDecision InvocationStatus.
Proof. solve_decision. Defined.

Definition invocation_status_str (s : InvocationStatus) : string :=
  match s with
  | IvPending => "pending" | IvRunning => "running" | IvSucceeded => "succeeded"
  | IvFailed => "failed" | IvDenied => "denied"
  end.

(** [state_tool_invocations], primary key [(run_id, step_id)]. *)
Record InvocationRow : Type := mkInvocation {
  iv_tool_name : string;
  iv_integration_id : string;
  iv_call_fingerprint : string;
  iv_repeated_call_count : Z;
  iv_input_schema_hash : option string;
  iv_result_schema_hash : option string;
  iv_retry_budget_total : Z;
  iv_attempts_used : Z;
  iv_next_retry_at_ms : option Z;
  iv_backoff_ms : option Z;
  iv_status : InvocationStatus;
  iv_failure : option FailureColumns;
  iv_updated_at_ms : Z
}.

(** [state_tool_circuits], primary key [integration_id]; the two probe columns
    are null together by the table's check. *)
Inductive CircuitState : Type := CClosed | COpen | CHalfOpen.

#[global] Instance CircuitState_eq_dec : EqDecision CircuitState.
Proof. solve_decision. Defined.

Record CircuitRow : Type := mkCircuit {
  ci_state : CircuitState;
  ci_consecutive_failures : Z;
  ci_open_until_ms : option Z;
  ci_probe : option (string * string);
  ci_updated_at_ms : Z
}.

Record ToolDb : Type := mkToolDb {
  td_db : Db;
  retry_budgets : gmap string RetryBudgetRow;
  invocations : gmap (string * string) InvocationRow;
  circuits : gmap string CircuitRow
}.

Definition set_core (f : Db → Db) (d : ToolDb) : ToolDb :=
  mkToolDb (f (td_db d)) (retry_budgets d) (invocations d) (circuits d).
Definition set_retry_budgets (f : gmap string RetryBudgetRow → gmap string RetryBudgetRow) (d : ToolDb) : ToolDb :=
  mkToolDb (td_db d) (f (retry_budgets d)) (invocations d) (circuits d).
Definition set_invocations (f : gmap (string * string) InvocationRow → gmap (string * string) InvocationRow)
    (d : ToolDb) : ToolDb :=
  mkToolDb (td_db d) (retry_budgets d) (f (invocations d)) (circuits d).
Definition set_circuits (f : gmap string CircuitRow → gmap string CircuitRow) (d : ToolDb) : ToolDb :=
  mkToolDb (td_db d) (retry_budgets d) (invocations d) (f (circuits d)).

(** A transaction on the shared tables, run among these. *)
Definition on_core {A} (m : tx Db A) : tx ToolDb A := λ d,
  match m (td_db d) with Ok (a, d') => Ok (a, set_core (λ _, d') d) | Err e => Err e end.

(** ** The retry budget and the effect claims of a run *)

(** Three statements, each committed by itself. *)
Definition ensure_run_retry_budget (rid : string) (total_budget now_ms : Z) : act ToolDb DbError () :=
  let! _ := act_tx (on_core (λ d,
    match budget_of rid d with
    | Some _ => Ok ((), d)
    | None =>
        match find_run rid d with
        | None => Err foreign_key_failed
        | Some _ => Ok ((), set_budget rid
            (mkExecBudget 3600000 (now_ms + 3600000) total_budget 0 64 0 now_ms) d)
        end
    end)) in
  let! _ := act_tx (λ d,
    match retry_budgets d !! rid with
    | Some _ => Ok ((), d)
    | None =>
        match find_run rid (td_db d) with
        | None => Err foreign_key_failed
        | Some _ => Ok ((), set_retry_budgets <[rid := mkRetryBudget total_budget 0 now_ms]> d)
        end
    end) in
  let! persisted := act_tx (λ d, match retry_budgets d !! rid with
                                 | Some b => Ok (rb_total_budget b, d) | None => Err no_rows end) in
  act_guard (persisted =? total_budget)
    (Invariant ("run '" +:+ rid +:+ "' retry budget changed from " +:+ pretty persisted
       +:+ " to " +:+ pretty total_budget)).

Definition has_retry (now_ms : Z) (b : ExecutionBudgetRow) : bool :=
  (eb_retries_used b <? eb_retry_limit b) && (now_ms <? eb_deadline_at_ms b).

Definition with_retries (n now_ms : Z) (b : ExecutionBudgetRow) : ExecutionBudgetRow :=
  mkExecBudget (eb_time_limit_ms b) (eb_deadline_at_ms b) (eb_retry_limit b) n
    (eb_effect_limit b) (eb_effects_used b) now_ms.

Definition consume_run_retry (rid : string) (now_ms : Z) : tx ToolDb bool := λ d,
  match budget_of rid (td_db d) with
  | Some b =>
      if has_retry now_ms b then
        let d := set_core (set_budget rid (with_retries (eb_retries_used b + 1) now_ms b)) d in
        match retry_budgets d !! rid with
        | Some rb =>
            if rb_consumed_retries rb <? rb_total_budget rb
            then Ok (true, set_retry_budgets <[rid := mkRetryBudget (rb_total_budget rb)
                                                 (rb_consumed_retries rb + 1) now_ms]> d)
            else Ok (false, set_core (set_budget rid
                   (with_retries (Z.max 0 (eb_retries_used b + 1 - 1)) now_ms b)) d)
        | None => Ok (false, set_core (set_budget rid
                   (with_retries (Z.max 0 (eb_retries_used b + 1 - 1)) now_ms b)) d)
        end
      else Ok (false, d)
  | None => Ok (false, d)
  end.

Definition has_effect (now_ms : Z) (b : ExecutionBudgetRow) : bool :=
  (eb_effects_used b <? eb_effect_limit b) && (now_ms <? eb_deadline_at_ms b).

Definition claim_run_effect (rid sid : string) (now_ms : Z) : tx ToolDb bool :=
  on_core (λ d,
    if bool_decide (is_Some (effect_claims (run_tables d) !! (rid, sid))) then Ok (true, d)
    else match budget_of rid d with
         | Some b =>
             if has_effect now_ms b
             then match find_run rid d with
                  | None => Err foreign_key_failed
                  | Some _ => Ok (true, set_run_tables (set_effect_claims <[(rid, sid) := now_ms]>)
                                          (set_budget rid (take_effect now_ms b) d))
                  end
             else Ok (false, d)
         | None => Ok (false, d)
         end).

(** ** Invocations *)

Record ToolInvocationDefinition : Type := mkDefinition {
  td_run_id : string;
  td_step_id : string;
  td_tool_name : string;
  td_integration_id : string;
  td_call_fingerprint : string;
  td_input_schema_hash : option string;
  td_result_schema_hash : option string;
  td_retry_budget_total : Z;
  td_now_ms : Z
}.

Record ToolInvocationRecord : Type := mkInvocationRecord {
  ti_run_id : string;
  ti_step_id : string;
  ti_tool_name : string;
  ti_integration_id : string;
  ti_call_fingerprint : string;
  ti_repeated_call_count : Z;
  ti_input_schema_hash : option string;
  ti_result_schema_hash : option string;
  ti_retry_budget_total : Z;
  ti_attempts_used : Z;
  ti_next_retry_at_ms : option Z;
  ti_backoff_ms : option Z;
  ti_status : string;
  ti_failure : option ToolFailure
}.

(** The failure a row carries; an unknown kind is a conversion error. *)
Definition read_failure (attempts : Z) (c : FailureColumns) : result DbError ToolFailure :=
  match failure_kind_parse (fc_kind c) with
  | Some k => Ok (mkToolFailure k (fc_code c) (fc_message c) (fc_retryable c)
                    (fc_retry_after_ms c ≫= u64_of_i64) (u32_or_max attempts) (fc_guidance c))
  | None => Err (Sqlite ("unknown tool failure kind '" +:+ fc_kind c +:+ "'"))
  end.

Definition row_to_invocation (k : string * string) (r : InvocationRow) :
    result DbError ToolInvocationRecord :=
  match match iv_failure r with
        | None => Ok None
        | Some c => Some <$> read_failure (iv_attempts_used r) c
        end with
  | Err e => Err e
  | Ok failure =>
      Ok (mkInvocationRecord k.1 k.2 (iv_tool_name r) (iv_integration_id r) (iv_call_fingerprint r)
            (u32_or_max (iv_repeated_call_count r)) (iv_input_schema_hash r) (iv_result_schema_hash r)
            (u32_or_max (iv_retry_budget_total r)) (u32_or_max (iv_attempts_used r))
            (iv_next_retry_at_ms r) (iv_backoff_ms r ≫= u64_of_i64)
            (invocation_status_str (iv_status r)) failure)
  end.

(** The query by primary key. *)
Definition query_invocation (k : string * string) : tx ToolDb (option ToolInvocationRecord) := λ d,
  match invocations d !! k with
  | None => Ok (None, d)
  | Some r => match row_to_invocation k r with Ok t => Ok (Some t, d) | Err e => Err e end
  end.

Definition hash_check (h : option string) : bool :=
  match h with None => true | Some h => sql_length h =? 64 end.

(** The table's checks on the columns a definition sets. *)
Definition invocation_check (r : InvocationRow) : bool :=
  (sql_length (iv_call_fingerprint r) =? 64) && (0 <? iv_repeated_call_count r)
  && hash_check (iv_input_schema_hash r) && hash_check (iv_result_schema_hash r)
  && (0 <? iv_retry_budget_total r) && (0 <=? iv_attempts_used r).

Definition same_contract (t : ToolInvocationRecord) (def : ToolInvocationDefinition) : bool :=
  String.eqb (ti_tool_name t) (td_tool_name def)
  && String.eqb (ti_integration_id t) (td_integration_id def)
  && String.eqb (ti_call_fingerprint t) (td_call_fingerprint def)
  && bool_decide (ti_input_schema_hash t = td_input_schema_hash def)
  && bool_decide (ti_result_schema_hash t = td_result_schema_hash def)
  && (ti_retry_budget_total t =? td_retry_budget_total def).

(** The calls of a run with a fingerprint. *)
Definition same_call (rid fingerprint : string) (kr : (string * string) * InvocationRow) : Prop :=
  kr.1.1 = rid ∧ iv_call_fingerprint kr.2 = fingerprint.
#[global] Instance same_call_dec rid fp kr : Decision (same_call rid fp kr).
Proof. unfold same_call. apply _. Defined.
Definition count_same_calls (rid fingerprint : string) (d : ToolDb) : Z :=
  Z.of_nat (size (filter (same_call rid fingerprint) (invocations d))).

Definition step_exists (k : string * string) (d : ToolDb) : bool :=
  bool_decide (is_Some (find_step k.1 k.2 (td_db d))).

Definition new_invocation (def : ToolInvocationDefinition) (repeated : Z) : InvocationRow :=
  mkInvocation (td_tool_name def) (td_integration_id def) (td_call_fingerprint def) repeated
    (td_input_schema_hash def) (td_result_schema_hash def) (td_retry_budget_total def) 0 None None
    IvPending None (td_now_ms def).

Definition insert_invocation (k : string * string) (r : InvocationRow) : tx ToolDb () := λ d,
  if negb (invocation_check r) then Err check_failed
  else if step_exists k d then Ok ((), set_invocations <[k := r]> d)
  else Err foreign_key_failed.

Definition redefined (k : string * string) : DbError :=
  Invariant ("tool invocation '" +:+ k.1 +:+ ":" +:+ k.2 +:+ "' was redefined with a different contract").

Definition define_invocation (def : ToolInvocationDefinition) : tx ToolDb ToolInvocationRecord :=
  let k := (td_run_id def, td_step_id def) in
  let* existing := query_invocation k in
  match existing with
  | Some t => if same_contract t def then tx_ret t else tx_err (redefined k)
  | None =>
      let* d := tx_get in
      let* _ := insert_invocation k (new_invocation def
                  (count_same_calls (td_run_id def) (td_call_fingerprint def) d + 1)) in
      let* t := query_invocation k in
      match t with Some t => tx_ret t | None => tx_err no_rows end
  end.

Definition get_invocation (rid sid : string) : tx ToolDb (option ToolInvocationRecord) :=
  query_invocation (rid, sid).

(** [ORDER BY step_id] *)
Definition step_le (a b : (string * string) * InvocationRow) : Prop := String.le a.1.2 b.1.2.
#[global] Instance step_le_dec a b : Decision (step_le a b).
Proof. unfold step_le. apply _. Defined.

Fixpoint read_all (l : list ((string * string) * InvocationRow)) : result DbError (list ToolInvocationRecord) :=
  match l with
  | [] => Ok []
  | (k, r) :: l =>
      match row_to_invocation k r with
      | Err e => Err e
      | Ok t => cons t <$> read_all l
      end
  end.

Definition list_run_invocations (rid : string) : tx ToolDb (list ToolInvocationRecord) := λ d,
  match read_all (merge_sort step_le (map_to_list (filter (λ kr, kr.1.1 = rid) (invocations d)))) with
  | Ok l => Ok (l, d)
  | Err e => Err e
  end.

(** [attempts_used < retry_budget_total AND (next_retry_at_ms IS NULL OR
    next_retry_at_ms <= ?3)] *)
Definition eligible (now_ms : Z) (r : InvocationRow) : bool :=
  (iv_attempts_used r <? iv_retry_budget_total r)
  && match iv_next_retry_at_ms r with None => true | Some t => t <=? now_ms end.

Definition running (now_ms : Z) (r : InvocationRow) : InvocationRow :=
  mkInvocation (iv_tool_name r) (iv_integration_id r) (iv_call_fingerprint r) (iv_repeated_call_count r)
    (iv_input_schema_hash r) (iv_result_schema_hash r) (iv_retry_budget_total r)
    (iv_attempts_used r + 1) None None IvRunning (iv_failure r) now_ms.

Definition not_eligible (rid sid : string) : DbError :=
  Invariant ("tool invocation '" +:+ rid +:+ ":" +:+ sid +:+ "' is not eligible for an attempt").

Definition begin_attempt (rid sid : string) (now_ms : Z) : act ToolDb DbError ToolInvocationRecord :=
  let! _ := act_tx (λ d,
    match invocations d !! (rid, sid) with
    | Some r => if eligible now_ms r then Ok ((), set_invocations <[(rid, sid) := running now_ms r]> d)
                else Err (not_eligible rid sid)
    | None => Err (not_eligible rid sid)
    end) in
  act_tx (let* t := query_invocation (rid, sid) in
          match t with Some t => tx_ret t | None => tx_err no_rows end).

Definition failure_columns (f : ToolFailure) : FailureColumns :=
  mkFailureColumns (failure_kind_str (tf_kind f)) (tf_code f) (tf_message f) (tf_retryable f)
    (tf_retry_after_ms f ≫= i64_of_u64) (tf_guidance f).

Definition with_failure (s : InvocationStatus) (f : ToolFailure) (next_retry_at_ms backoff_ms : option Z)
    (now_ms : Z) (r : InvocationRow) : InvocationRow :=
  mkInvocation (iv_tool_name r) (iv_integration_id r) (iv_call_fingerprint r) (iv_repeated_call_count r)
    (iv_input_schema_hash r) (iv_result_schema_hash r) (iv_retry_budget_total r) (iv_attempts_used r)
    next_retry_at_ms (backoff_ms ≫= i64_of_u64) s (Some (failure_columns f)) now_ms.

Definition write_failure (rid sid : string) (s : InvocationStatus) (f : ToolFailure)
    (next_retry_at_ms backoff_ms : option Z) (now_ms : Z) : tx ToolDb () := λ d,
  match invocations d !! (rid, sid) with
  | Some r => Ok ((), set_invocations
                <[(rid, sid) := with_failure s f next_retry_at_ms backoff_ms now_ms r]> d)
  | None => Err (Invariant ("tool invocation '" +:+ rid +:+ ":" +:+ sid +:+ "' was not found"))
  end.

Definition schedule_retry (rid sid : string) (f : ToolFailure) (next_retry_at_ms backoff_ms now_ms : Z) :
    tx ToolDb () :=
  let f := normalized f in
  if tf_retryable f then write_failure rid sid IvPending f (Some next_retry_at_ms) (Some backoff_ms) now_ms
  else tx_err (Invariant "terminal tool failure cannot be scheduled for retry").

Definition succeeded (now_ms : Z) (r : InvocationRow) : InvocationRow :=
  mkInvocation (iv_tool_name r) (iv_integration_id r) (iv_call_fingerprint r) (iv_repeated_call_count r)
    (iv_input_schema_hash r) (iv_result_schema_hash r) (iv_retry_budget_total r) (iv_attempts_used r)
    None None IvSucceeded None now_ms.

(** A missing row is not an error. *)
Definition complete_success (rid sid : string) (now_ms : Z) : tx ToolDb () :=
  tx_modify (set_invocations (alter (succeeded now_ms) (rid, sid))).

Definition final_status (k : ToolFailureKind) : InvocationStatus :=
  match k with KPolicyDenied | KApprovalDenied => IvDenied | _ => IvFailed end.

Definition complete_failure (rid sid : string) (f : ToolFailure) (now_ms : Z) : tx ToolDb () :=
  let f := normalized f in
  write_failure rid sid (final_status (tf_kind f)) f None None now_ms.

(** ** Circuit breakers *)

Inductive CircuitPermit : Type :=
| PermitClosed
| PermitHalfOpen
| PermitOpen (retry_after_ms : Z)
| PermitHalfOpenBusy.

#[global] Instance CircuitPermit_eq_dec : EqDecision CircuitPermit.
Proof. solve_decision. Defined.

Definition no_deadline (integration_id : string) : DbError :=
  Invariant ("open circuit '" +:+ integration_id +:+ "' has no deadline").

(** [u64::try_from(open_until - now_ms).unwrap_or(u64::MAX)] *)
Definition retry_after (open_until now_ms : Z) : Z :=
  default u64_max (u64_of_i64 (i64_sub open_until now_ms)).

Definition acquire_circuit (integration_id rid sid : string) (now_ms : Z) : tx ToolDb CircuitPermit := λ d,
  match circuits d !! integration_id with
  | None => Ok (PermitClosed, d)
  | Some c =>
      match match ci_open_until_ms c with None => Ok None | Some t => Some <$> read_i64 t end with
      | Err e => Err e
      | Ok open_until =>
          match ci_state c with
          | CClosed => Ok (PermitClosed, d)
          | COpen =>
              match open_until with
              | None => Err (no_deadline integration_id)
              | Some t =>
                  if now_ms <? t then Ok (PermitOpen (retry_after t now_ms), d)
                  else Ok (PermitHalfOpen, set_circuits <[integration_id :=
                         mkCircuit CHalfOpen (ci_consecutive_failures c) None (Some (rid, sid)) now_ms]> d)
              end
          | CHalfOpen =>
              if bool_decide (ci_probe c = Some (rid, sid)) then Ok (PermitHalfOpen, d)
              else Ok (PermitHalfOpenBusy, d)
          end
      end
  end.

Definition record_circuit_success (integration_id : string) (now_ms : Z) : tx ToolDb () :=
  tx_modify (set_circuits <[integration_id := mkCircuit CClosed 0 None None now_ms]>).

(** [i64::try_from(cooldown_ms).unwrap_or(i64::MAX)] *)
Definition cooldown_i64 (cooldown_ms : Z) : Z := default i64_max (i64_of_u64 cooldown_ms).

Definition after_failure (threshold cooldown now_ms : Z) (c : option CircuitRow) : CircuitRow :=
  match c with
  | None => if threshold <=? 1 then mkCircuit COpen 1 (Some (now_ms + cooldown)) None now_ms
            else mkCircuit CClosed 1 None None now_ms
  | Some c =>
      let n := ci_consecutive_failures c + 1 in
      if bool_decide (ci_state c = CHalfOpen) || (threshold <=? n)
      then mkCircuit COpen n (Some (now_ms + cooldown)) None now_ms
      else mkCircuit CClosed n None None now_ms
  end.

Definition record_circuit_failure (integration_id : string) (threshold cooldown_ms now_ms : Z) : tx ToolDb () :=
  tx_modify (set_circuits (partial_alter
    (λ c, Some (after_failure threshold (cooldown_i64 cooldown_ms) now_ms c)) integration_id)).

(** ** Histories of calls *)

Inductive ToolCall : Type :=
| CallEnsure (rid : string) (total now : Z)
| CallRetry (rid : string) (now : Z)
| CallEffect (rid sid : string) (now : Z)
| CallDefine (def : ToolInvocationDefinition)
| CallBegin (rid sid : string) (now : Z)
| CallSchedule (rid sid : string) (f : ToolFailure) (next backoff now : Z)
| CallSuccess (rid sid : string) (now : Z)
| CallFailure (rid sid : string) (f : ToolFailure) (now : Z)
| CallAcquire (i rid sid : string) (now : Z)
| CallCircuitSuccess (i : string) (now : Z)
| CallCircuitFailure (i : string) (threshold cooldown now : Z).

(** The database after a call, whatever it returned. *)
Definition call_db (c : ToolCall) (d : ToolDb) : ToolDb :=
  match c with
  | CallEnsure rid total now => (ensure_run_retry_budget rid total now d).2
  | CallRetry rid now => (act_tx (consume_run_retry rid now) d).2
  | CallEffect rid sid now => (act_tx (claim_run_effect rid sid now) d).2
  | CallDefine def => (act_tx (define_invocation def) d).2
  | CallBegin rid sid now => (begin_attempt rid sid now d).2
  | CallSchedule rid sid f next backoff now => (act_tx (schedule_retry rid sid f next backoff now) d).2
  | CallSuccess rid sid now => (act_tx (complete_success rid sid now) d).2
  | CallFailure rid sid f now => (act_tx (complete_failure rid sid f now) d).2
  | CallAcquire i rid sid now => (act_tx (acquire_circuit i rid sid now) d).2
  | CallCircuitSuccess i now => (act_tx (record_circuit_success i now) d).2
  | CallCircuitFailure i threshold cooldown now =>
      (act_tx (record_circuit_failure i threshold cooldown now) d).2
  end.

Fixpoint run_calls (l : list ToolCall) (d : ToolDb) : ToolDb :=
  match l with [] => d | c :: l => run_calls l (call_db c d) end.

(** A call that gave the worker of step [k] an attempt. *)
Definition began (k : string * string) (c : ToolCall) (d : ToolDb) : bool :=
  match c with
  | CallBegin rid sid now => bool_decide ((rid, sid) = k) && is_ok (begin_attempt rid sid now d).1
  | _ => false
  end.

Fixpoint begins (k : string * string) (l : list ToolCall) (d : ToolDb) : Z :=
  match l with [] => 0 | c :: l => Z.b2z (began k c d) + begins k l (call_db c d) end.

(** ** The rows *)

Definition contract_of (r : InvocationRow) :=
  (iv_tool_name r, iv_integration_id r, iv_call_fingerprint r, iv_repeated_call_count r,
   iv_input_schema_hash r, iv_result_schema_hash r, iv_retry_budget_total r).

Record row_ok (r : InvocationRow) : Prop := {
  ro_attempts : 0 ≤ iv_attempts_used r ≤ iv_retry_budget_total r;
  ro_kind : ∀ c, iv_failure r = Some c → is_Some (failure_kind_parse (fc_kind c));
  ro_retry : ∀ t, iv_next_retry_at_ms r = Some t →
    iv_status r = IvPending ∧ ∃ c, iv_failure r = Some c ∧ fc_retryable c = true
}.

Definition rows_ok (d : ToolDb) : Prop := ∀ k r, invocations d !! k = Some r → row_ok r.

Lemma failure_kind_roundtrip k : failure_kind_parse (failure_kind_str k) = Some k.
Proof. by destruct k. Qed.

Lemma normalized_retryable f : tf_retryable (normalized f) = true → kind_may_retry (tf_kind f) = true.
Proof. unfold normalized. destruct (kind_may_retry (tf_kind f)) eqn:Hk; [done|]. by cbn. Qed.

Lemma row_to_invocation_total k r : row_ok r → ∃ t, row_to_invocation k r = Ok t.
Proof.
  intros [_ Hk _]. unfold row_to_invocation. destruct (iv_failure r) as [c|]; [|by eexists].
  destruct (Hk c eq_refl) as [x Hx]. unfold read_failure. rewrite Hx. by eexists.
Qed.

(** How a call may change the row of a step; [b] says that it gave an attempt. *)
Definition row_evolves (b : bool) (o o' : option InvocationRow) : Prop :=
  match o, o' with
  | None, None => b = false
  | None, Some r' => b = false ∧ iv_attempts_used r' = 0 ∧ row_ok r'
  | Some r, Some r' =>
      contract_of r' = contract_of r ∧ iv_attempts_used r' = iv_attempts_used r + Z.b2z b ∧ row_ok r'
  | Some _, None => False
  end.

Lemma row_evolves_refl d k : rows_ok d → row_evolves false (invocations d !! k) (invocations d !! k).
Proof.
  intros Hok. destruct (invocations d !! k) as [r|] eqn:Hr; [|done]. cbn.
  split_and!; [done|lia|by eapply Hok].
Qed.

(** A call that leaves the invocations alone. *)
Lemma row_evolves_same d d' k :
  rows_ok d → invocations d' = invocations d → row_evolves false (invocations d !! k) (invocations d' !! k).
Proof. intros Hok ->. by apply row_evolves_refl. Qed.

(** A call that writes one row. *)
Lemma row_evolves_insert d k k' r r' b :
  rows_ok d → invocations d !! k' = Some r → contract_of r' = contract_of r →
  iv_attempts_used r' = iv_attempts_used r + Z.b2z b → row_ok r' →
  row_evolves (bool_decide (k' = k) && b) (invocations d !! k) (<[k' := r']> (invocations d) !! k).
Proof.
  intros Hok Hr Hc Ha Hr'. case_bool_decide as Hk.
  - subst k'. rewrite lookup_insert_eq, Hr. done.
  - rewrite lookup_insert_ne by done. by apply row_evolves_refl.
Qed.

Lemma row_ok_failed s f next backoff now r :
  row_ok r → (is_Some next → s = IvPending ∧ tf_retryable f = true) →
  row_ok (with_failure s f next backoff now r).
Proof.
  intros [Ha _ _] Hn. split; cbn; [done| |].
  - intros c [= <-]. cbn. rewrite failure_kind_roundtrip. by eexists.
  - intros t Ht. destruct Hn as [-> Hr]; [by eexists|]. split; [done|]. eexists. split; [done|]. done.
Qed.

Lemma row_ok_succeeded now r : row_ok r → row_ok (succeeded now r).
Proof. intros [Ha _ _]. by split. Qed.

Lemma row_ok_running now r : row_ok r → eligible now r = true → row_ok (running now r).
Proof.
  intros [Ha Hk _] [He _]%andb_true_iff. apply Z.ltb_lt in He. split; cbn; [lia|done|done].
Qed.

Lemma write_failure_row k rid sid s f next backoff now d :
  rows_ok d → (is_Some next → s = IvPending ∧ tf_retryable f = true) →
  row_evolves false (invocations d !! k)
    (invocations (act_tx (write_failure rid sid s f next backoff now) d).2 !! k).
Proof.
  intros Hok Hn. unfold act_tx, transaction, write_failure.
  destruct (invocations d !! (rid, sid)) as [r|] eqn:Hr; [|by apply row_evolves_refl].
  cbn. rewrite <-(andb_false_r (bool_decide ((rid, sid) = k))).
  apply (row_evolves_insert _ _ _ r); [done|done|done| |].
  - cbn. lia.
  - apply row_ok_failed; [by eapply Hok|done].
Qed.

Lemma query_invocation_ok k d t d' : query_invocation k d = Ok (t, d') → d' = d ∧
  match t with None => invocations d !! k = None
             | Some t => ∃ r, invocations d !! k = Some r ∧ row_to_invocation k r = Ok t end.
Proof.
  unfold query_invocation. destruct (invocations d !! k) as [r|]; [|by intros [= <- <-]].
  destruct (row_to_invocation k r) as [t'|] eqn:Ht; [|done]. intros [= <- <-]. split; [done|]. by exists r.
Qed.

(** What a successful definition did. *)
Lemma define_invocation_ok def t d d' (k := (td_run_id def, td_step_id def)) :
  define_invocation def d = Ok (t, d') →
  (d' = d ∧ same_contract t def = true ∧ ∃ r, invocations d !! k = Some r ∧ row_to_invocation k r = Ok t) ∨
  (∃ r, invocations d !! k = None ∧ row_to_invocation k r = Ok t ∧ invocation_check r = true ∧
     step_exists k d = true ∧ d' = set_invocations <[k := r]> d ∧
     r = new_invocation def (count_same_calls (td_run_id def) (td_call_fingerprint def) d + 1)).
Proof.
  unfold define_invocation. intros H. tx_inv H.
  match goal with Hq : query_invocation _ _ = _ |- _ => apply query_invocation_ok in Hq as [-> Hq] end.
  destruct a as [t'|].
  - destruct (same_contract t' def) eqn:Hsame; [|done]. unfold tx_ret in H. simplify_eq. left. by split_and!.
  - right. tx_inv H. subst. unfold insert_invocation in *.
    destruct (invocation_check _) eqn:Hc; [|done]. cbn [negb] in *.
    destruct (step_exists _ _) eqn:He; [|done]. simplify_eq.
    match goal with Hq : query_invocation _ _ = _ |- _ => apply query_invocation_ok in Hq as [-> Hq] end.
    destruct a1 as [t'|]; [|done]. injection H as -> <-. unfold tx_get in *. simplify_eq.
    match goal with Hq : ∃ _, _ |- _ => destruct Hq as (r & Hr & Ht) end. cbn in Hr.
    rewrite lookup_insert_eq in Hr. simplify_eq. eexists. by split_and!.
Qed.

Lemma fresh_row_ok def n : invocation_check (new_invocation def n) = true → row_ok (new_invocation def n).
Proof.
  unfold invocation_check. intros [[_ Ht]%andb_true_iff _]%andb_true_iff. apply Z.ltb_lt in Ht.
  cbn in Ht. split; cbn; [lia|done|done].
Qed.

(** A transaction that leaves the invocations alone. *)
Definition spares_invocations {A} (m : tx ToolDb A) : Prop :=
  ∀ d a d', m d = Ok (a, d') → invocations d' = invocations d.

Lemma spares_act {A} (m : tx ToolDb A) d :
  spares_invocations m → invocations (act_tx m d).2 = invocations d.
Proof.
  intros Hm. unfold act_tx, transaction. destruct (m d) as [[a d']|e] eqn:Hd; [|done]. by eapply Hm.
Qed.

Lemma spares_core {A} (m : tx Db A) : spares_invocations (on_core m).
Proof. intros d a d'. unfold on_core. destruct (m (td_db d)) as [[x d1]|e]; [|done]. by intros [= _ <-]. Qed.

Lemma spares_consume rid now : spares_invocations (consume_run_retry rid now).
Proof.
  intros d a d'. unfold consume_run_retry. destruct (budget_of _ _) as [b|]; [|by intros [= _ <-]].
  destruct (has_retry _ _); [|by intros [= _ <-]]. cbn [retry_budgets set_core].
  destruct (retry_budgets d !! rid) as [rb|]; [destruct (_ <? _)|]; by intros [= _ <-].
Qed.

Lemma spares_acquire i rid sid now : spares_invocations (acquire_circuit i rid sid now).
Proof.
  intros d a d'. unfold acquire_circuit. destruct (circuits d !! i) as [c|]; [|by intros [= _ <-]].
  destruct (match ci_open_until_ms c with None => Ok None | Some t => Some <$> read_i64 t end) as [u|]; [|done].
  destruct (ci_state c); [by intros [= _ <-]| |].
  - destruct u; [|done]. destruct (_ <? _); by intros [= _ <-].
  - case_bool_decide; by intros [= _ <-].
Qed.

Lemma ensure_retry_spares rid total now d : invocations (ensure_run_retry_budget rid total now d).2 = invocations d.
Proof.
  unfold ensure_run_retry_budget, act_bind at 1.
  match goal with |- context [act_tx (on_core ?m) d] => pose proof (spares_act (on_core m) d (spares_core m)) as H1;
    destruct (act_tx (on_core m) d) as [[u|e] d1] end; [|done]. cbn in H1. rewrite <-H1. clear H1.
  unfold act_bind at 1, act_tx, transaction, set_retry_budgets.
  destruct (retry_budgets d1 !! rid) as [b|] eqn:Hb.
  - unfold act_bind, act_guard. rewrite Hb. by destruct (_ =? _).
  - destruct (find_run _ _); [|done]. unfold act_bind, act_guard. cbn.
    rewrite lookup_insert_eq. by destruct (_ =? _).
Qed.

(** Every call changes the row of a step only in the permitted ways. *)
Lemma call_row c d k : rows_ok d → row_evolves (began k c d) (invocations d !! k) (invocations (call_db c d) !! k).
Proof.
  intros Hok. destruct c as [rid total now|rid now|rid sid now|def|rid sid now|rid sid f next backoff now
    |rid sid now|rid sid f now|i rid sid now|i now|i threshold cooldown now]; cbn [call_db began].
  - apply row_evolves_same; [done|]. apply ensure_retry_spares.
  - apply row_evolves_same; [done|]. apply spares_act, spares_consume.
  - apply row_evolves_same; [done|]. apply spares_act, spares_core.
  - unfold act_tx, transaction. destruct (define_invocation def d) as [[t d']|] eqn:Hd; [|by apply row_evolves_refl].
    apply define_invocation_ok in Hd as [(-> & _)|(r & Hn & _ & Hc & _ & -> & ->)]; [by apply row_evolves_refl|].
    cbn. destruct (decide ((td_run_id def, td_step_id def) = k)) as [<-|Hk].
    + rewrite Hn, lookup_insert_eq. split_and!; [done..|]. by apply fresh_row_ok.
    + rewrite lookup_insert_ne by done. by apply row_evolves_refl.
  - unfold begin_attempt, act_bind, act_tx, transaction. destruct (invocations d !! (rid, sid)) as [r|] eqn:Hr;
      [destruct (eligible now r) eqn:He|]; cbn -[row_evolves]; [|rewrite andb_false_r; by apply row_evolves_refl..].
    assert (row_ok (running now r)) as Hrun by (apply row_ok_running; [by eapply Hok|done]).
    unfold tx_bind, query_invocation. cbn -[row_evolves running]. rewrite lookup_insert_eq.
    destruct (row_to_invocation_total (rid, sid) _ Hrun) as [t ->]. cbn -[row_evolves running].
    by apply (row_evolves_insert _ _ _ r).
  - unfold schedule_retry. destruct (tf_retryable (normalized f)) eqn:Hf; [|by apply row_evolves_refl].
    by apply write_failure_row.
  - cbn. destruct (decide ((rid, sid) = k)) as [<-|Hk]; [|rewrite lookup_alter_ne by done; by apply row_evolves_refl].
    rewrite lookup_alter_eq. destruct (invocations d !! (rid, sid)) as [r|] eqn:Hr; [|done]. cbn.
    split_and!; [done|lia|]. apply row_ok_succeeded. by eapply Hok.
  - apply write_failure_row; [done|]. by intros [? ?].
  - apply row_evolves_same; [done|]. apply spares_act, spares_acquire.
  - by apply row_evolves_same.
  - by apply row_evolves_same.
Qed.

Lemma call_rows_ok c d : rows_ok d → rows_ok (call_db c d).
Proof.
  intros Hok k r Hr. pose proof (call_row c d k Hok) as Hk. rewrite Hr in Hk.
  destruct (invocations d !! k); cbn in Hk; tauto.
Qed.

(** A defined step keeps its contract. *)
Lemma calls_keep_contract k l d r :
  rows_ok d → invocations d !! k = Some r →
  ∃ r', invocations (run_calls l d) !! k = Some r' ∧ contract_of r' = contract_of r.
Proof.
  revert d r. induction l as [|c l IH]; intros d r Hok Hr; cbn; [by exists r|].
  pose proof (call_row c d k Hok) as Hk. rewrite Hr in Hk.
  destruct (invocations (call_db c d) !! k) as [r1|] eqn:Hr1; [|done]. destruct Hk as (Hc & _ & _).
  destruct (IH _ r1 (call_rows_ok c d Hok) Hr1) as (r' & Hr' & Hc'). exists r'. split; [done|congruence].
Qed.

Definition attempts_at (k : string * string) (d : ToolDb) : Z :=
  match invocations d !! k with Some r => iv_attempts_used r | None => 0 end.

(** The attempts a row counts are those the calls granted. *)
Lemma calls_count k l d :
  rows_ok d → rows_ok (run_calls l d) ∧ attempts_at k (run_calls l d) = attempts_at k d + begins k l d.
Proof.
  revert d. induction l as [|c l IH]; intros d Hok; cbn; [split; [done|lia]|].
  destruct (IH _ (call_rows_ok c d Hok)) as [Hok' ->]. split; [done|].
  pose proof (call_row c d k Hok) as Hk. unfold attempts_at.
  destruct (invocations d !! k) as [r0|], (invocations (call_db c d) !! k) as [r1|]; cbn in Hk; [|done| |].
  - destruct Hk as (_ & -> & _). lia.
  - destruct Hk as (-> & -> & _). cbn. lia.
  - rewrite Hk. cbn. lia.
Qed.

(** Nothing is granted to a step that was never defined. *)
Lemma begins_undefined k l d :
  rows_ok d → invocations (run_calls l d) !! k = None → begins k l d = 0.
Proof.
  revert d. induction l as [|c l IH]; intros d Hok Hn; cbn in *; [done|].
  rewrite (IH _ (call_rows_ok c d Hok) Hn). pose proof (call_row c d k Hok) as Hk.
  destruct (invocations (call_db c d) !! k) as [r1|] eqn:Hr1.
  - destruct (calls_keep_contract k l _ _ (call_rows_ok c d Hok) Hr1) as (r' & Hr' & _). congruence.
  - destruct (invocations d !! k); cbn in Hk; [done|]. by rewrite Hk.
Qed.

(** A dispatched step never gets more attempts than its retry budget.
    Whatever sequence of store calls runs on an empty invocation table, with
    any arguments, by any number of workers and across crashes: the attempts
    that [begin_attempt] ever granted to a step are exactly the attempts its
    row counts, and at most the total its definition fixed; the contract of a
    defined step (tool, integration, fingerprint, schema hashes, budget) never
    changes; and a step waiting for its next retry is pending with a retryable
    failure. *)
Theorem attempts_within_budget d0 l k :
  invocations d0 = ∅ →
  let d := run_calls l d0 in
  match invocations d !! k with
  | None => begins k l d0 = 0
  | Some r =>
      begins k l d0 = iv_attempts_used r ∧ begins k l d0 ≤ iv_retry_budget_total r ∧
      (∀ t, iv_next_retry_at_ms r = Some t →
         iv_status r = IvPending ∧ ∃ c, iv_failure r = Some c ∧ fc_retryable c = true) ∧
      ∀ l', ∃ r', invocations (run_calls l' d) !! k = Some r' ∧ contract_of r' = contract_of r
  end.
Proof.
  intros H0 d. assert (rows_ok d0) as Hok by (intros k0 r0; rewrite H0; done).
  destruct (calls_count k l d0 Hok) as [Hokd Hc]. fold d in Hokd, Hc.
  assert (attempts_at k d0 = 0) as Ha0 by (unfold attempts_at; by rewrite H0, lookup_empty).
  destruct (invocations d !! k) as [r|] eqn:Hr; [|by apply begins_undefined].
  unfold attempts_at at 1 in Hc. rewrite Hr, Ha0 in Hc.
  destruct (Hokd _ _ Hr) as [Ha _ Hret]. split_and!; [lia|lia|done|].
  intros l'. by apply calls_keep_contract.
Qed.

(** ** Circuit breakers *)

(** The calls that record a result for integration [i]. *)
Definition records_result (i : string) (c : ToolCall) : bool :=
  match c with
  | CallCircuitSuccess j _ | CallCircuitFailure j _ _ _ => String.eqb i j
  | _ => false
  end.

Lemma acquire_other i j rid sid now d :
  i ≠ j → circuits (act_tx (acquire_circuit j rid sid now) d).2 !! i = circuits d !! i.
Proof.
  intros Hij. unfold act_tx, transaction, acquire_circuit. destruct (circuits d !! j) as [c|]; [|done].
  destruct (match ci_open_until_ms c with None => Ok None | Some t => Some <$> read_i64 t end) as [u|]; [|done].
  destruct (ci_state c); [done| |by case_bool_decide]. destruct u; [|done]. destruct (_ <? _); [done|].
  cbn. by rewrite lookup_insert_ne.
Qed.

(** A transaction that leaves the circuits alone. *)
Definition spares_circuits {A} (m : tx ToolDb A) : Prop :=
  ∀ d a d', m d = Ok (a, d') → circuits d' = circuits d.

Lemma spares_circuits_act {A} (m : tx ToolDb A) d : spares_circuits m → circuits (act_tx m d).2 = circuits d.
Proof.
  intros Hm. unfold act_tx, transaction. destruct (m d) as [[a d']|e] eqn:Hd; [|done]. by eapply Hm.
Qed.

Lemma write_failure_circuits rid sid s f a b now : spares_circuits (write_failure rid sid s f a b now).
Proof. intros d u d'. unfold write_failure. destruct (_ !! _); [|done]. by intros [= _ <-]. Qed.

Lemma consume_circuits rid now : spares_circuits (consume_run_retry rid now).
Proof.
  intros d a d'. unfold consume_run_retry. destruct (budget_of _ _) as [b|]; [|by intros [= _ <-]].
  destruct (has_retry _ _); [|by intros [= _ <-]]. cbn [retry_budgets set_core].
  destruct (retry_budgets d !! rid) as [rb|]; [destruct (_ <? _)|]; by intros [= _ <-].
Qed.

Lemma core_circuits {A} (m : tx Db A) : spares_circuits (on_core m).
Proof. intros d a d'. unfold on_core. destruct (m (td_db d)) as [[x d1]|e]; [|done]. by intros [= _ <-]. Qed.

Lemma ensure_circuits rid total now d : circuits (ensure_run_retry_budget rid total now d).2 = circuits d.
Proof.
  unfold ensure_run_retry_budget, act_bind at 1.
  match goal with |- context [act_tx (on_core ?m) d] =>
    pose proof (spares_circuits_act (on_core m) d (core_circuits m)) as H1;
    destruct (act_tx (on_core m) d) as [[u|e] d1] end; [|done]. cbn in H1. rewrite <-H1. clear H1.
  unfold act_bind at 1, act_tx, transaction, set_retry_budgets.
  destruct (retry_budgets d1 !! rid) as [b|] eqn:Hb.
  - unfold act_bind, act_guard. rewrite Hb. by destruct (_ =? _).
  - destruct (find_run _ _); [|done]. unfold act_bind, act_guard. cbn.
    rewrite lookup_insert_eq. by destruct (_ =? _).
Qed.

Lemma begin_circuits rid sid now d : circuits (begin_attempt rid sid now d).2 = circuits d.
Proof.
  unfold begin_attempt, act_bind, act_tx, transaction, tx_bind, query_invocation.
  destruct (invocations d !! (rid, sid)) as [r|] eqn:Hr; [destruct (eligible now r)|]; [|done..].
  cbn -[running]. rewrite lookup_insert_eq. by destruct (row_to_invocation _ _).
Qed.

Lemma define_circuits def : spares_circuits (define_invocation def).
Proof. by intros d t d' [(-> & _)|(r & _ & _ & _ & _ & -> & _)]%define_invocation_ok. Qed.

(** The calls that are neither on integration [i]'s circuit leave it alone. *)
Lemma call_circuit_other i c d :
  records_result i c = false → (∀ rid sid now, c ≠ CallAcquire i rid sid now) →
  circuits (call_db c d) !! i = circuits d !! i.
Proof.
  intros Hr Ha. destruct c as [rid total now|rid now|rid sid now|def|rid sid now|rid sid f next backoff now
    |rid sid now|rid sid f now|j rid sid now|j now|j threshold cooldown now]; cbn [call_db records_result] in *.
  - by rewrite ensure_circuits.
  - by rewrite spares_circuits_act by apply consume_circuits.
  - by rewrite spares_circuits_act by apply core_circuits.
  - by rewrite spares_circuits_act by apply define_circuits.
  - by rewrite begin_circuits.
  - unfold schedule_retry. destruct (tf_retryable _); [|done]. by rewrite spares_circuits_act by apply write_failure_circuits.
  - done.
  - by rewrite spares_circuits_act by apply write_failure_circuits.
  - apply acquire_other. intros ->. by eapply Ha.
  - cbn. apply String.eqb_neq in Hr. by rewrite lookup_insert_ne.
  - cbn. apply String.eqb_neq in Hr. by rewrite lookup_partial_alter_ne.
Qed.

(** What the acquisition of a half-open circuit answers. *)
Lemma acquire_half_open i rid sid now d c :
  circuits d !! i = Some c → ci_state c = CHalfOpen → ci_open_until_ms c = None →
  acquire_circuit i rid sid now d =
    Ok (if decide (ci_probe c = Some (rid, sid)) then PermitHalfOpen else PermitHalfOpenBusy, d).
Proof.
  intros Hc Hs Ho. unfold acquire_circuit. rewrite Hc, Ho, Hs. case_bool_decide; by case_decide.
Qed.

Lemma call_half_open i x d c :
  records_result i x = false → circuits d !! i = Some c → ci_state c = CHalfOpen →
  ci_open_until_ms c = None → circuits (call_db x d) !! i = circuits d !! i.
Proof.
  intros Hx Hc Hs Ho. destruct x as [| | | | | | | |j r s n| |];
    try (apply call_circuit_other; [done|intros; discriminate]).
  destruct (decide (j = i)) as [->|Hj].
  - cbn [call_db]. unfold act_tx, transaction. by rewrite (acquire_half_open i r s n d c) by done.
  - apply call_circuit_other; [done|]. intros ? ? ? [= Hji _ _ _]. congruence.
Qed.

(** A half-open circuit admits one probe.  When an acquisition turned the
    circuit of an integration half-open, then, as long as no result is recorded
    for the integration, whatever else the workers call and however much time
    passes: the circuit stays half-open for that step, the step may acquire it
    again, and every other step is told that it is busy.  In particular nothing
    but a recorded result ends the probe; a probe that ends without one (its
    worker dies, or the tool fails in a way that is not recorded) shuts the
    integration for ever. *)
Theorem circuit_single_probe i rid sid now d d1 c l :
  acquire_circuit i rid sid now d = Ok (PermitHalfOpen, d1) →
  circuits d !! i = Some c → ci_state c = COpen →
  Forall (λ x, records_result i x = false) l →
  let d' := run_calls l d1 in
  circuits d' !! i = circuits d1 !! i ∧
  ∀ rid' sid' now', acquire_circuit i rid' sid' now' d' =
    Ok (if decide ((rid', sid') = (rid, sid)) then PermitHalfOpen else PermitHalfOpenBusy, d').
Proof.
  intros Hacq Hc Hs Hl. unfold acquire_circuit in Hacq. rewrite Hc, Hs in Hacq.
  assert (∃ c1, circuits d1 !! i = Some c1 ∧ ci_state c1 = CHalfOpen ∧ ci_open_until_ms c1 = None ∧
    ci_probe c1 = Some (rid, sid)) as (c1 & Hc1 & Hs1 & Ho1 & Hp1).
  { destruct (match ci_open_until_ms c with None => Ok None | Some t => Some <$> read_i64 t end) as [[t|]|]; [|done..].
    destruct (now <? t); [done|]. injection Hacq as <-. cbn. rewrite lookup_insert_eq. by eexists. }
  clear Hacq Hc Hs c d. intros d'. assert (circuits d' !! i = circuits d1 !! i) as Hd'.
  { subst d'. clear Hp1. revert d1 Hc1. induction Hl as [|x l Hx _ IH]; intros d1 Hc1; [done|]. cbn.
    pose proof (call_half_open i x d1 c1 Hx Hc1 Hs1 Ho1) as Hcall. rewrite IH; congruence. }
  split; [done|]. intros r s n. rewrite Hc1 in Hd'. rewrite (acquire_half_open i r s n d' c1) by done.
  rewrite Hp1. do 2 f_equal. do 2 case_decide; congruence.
Qed.

(** ** The breaker the circuits implement

    With a fixed threshold and cool-down a circuit is determined by three
    things: the failures recorded since the last success, the time of the last
    failure, and the step that is probing. *)

Record Breaker : Type := mkBreaker {
  br_streak : Z;
  br_last : Z;
  br_probe : option (string * string)
}.

Definition initial_breaker : Breaker := mkBreaker 0 0 None.

Inductive CircuitCall : Type :=
| Acquire (rid sid : string) (now : Z)
| Succeed_at (now : Z)
| Fail_at (now : Z).

Section Breaker.
Context (threshold cooldown : Z).

Definition tripped (b : Breaker) : bool := Z.max 1 threshold <=? br_streak b.

(** The next state and, for an acquisition, the permit. *)
Definition breaker_step (c : CircuitCall) (b : Breaker) : option CircuitPermit * Breaker :=
  match c with
  | Succeed_at _ => (None, mkBreaker 0 (br_last b) None)
  | Fail_at now => (None, mkBreaker (br_streak b + 1) now None)
  | Acquire rid sid now =>
      if negb (tripped b) then (Some PermitClosed, b)
      else match br_probe b with
           | Some k => (Some (if decide (k = (rid, sid)) then PermitHalfOpen else PermitHalfOpenBusy), b)
           | None =>
               if now <? br_last b + cooldown
               then (Some (PermitOpen (br_last b + cooldown - now)), b)
               else (Some PermitHalfOpen, mkBreaker (br_streak b) (br_last b) (Some (rid, sid)))
           end
  end.

Fixpoint breaker_run (l : list CircuitCall) (b : Breaker) : list (option CircuitPermit) :=
  match l with [] => [] | c :: l => let (p, b) := breaker_step c b in p :: breaker_run l b end.

(** The same calls on the store. *)
Definition circuit_step (i : string) (c : CircuitCall) : tx ToolDb (option CircuitPermit) :=
  match c with
  | Acquire rid sid now => let* p := acquire_circuit i rid sid now in tx_ret (Some p)
  | Succeed_at now => let* _ := record_circuit_success i now in tx_ret None
  | Fail_at now => let* _ := record_circuit_failure i threshold cooldown now in tx_ret None
  end.

Fixpoint circuit_run (i : string) (l : list CircuitCall) (d : ToolDb) : list (result DbError (option CircuitPermit)) :=
  match l with
  | [] => []
  | c :: l => let (r, d) := transaction (circuit_step i c) d in r :: circuit_run i l d
  end.

(** Clock readings and deadlines that 64 bits hold. *)
Definition call_time (c : CircuitCall) : Z :=
  match c with Acquire _ _ now => now | Succeed_at now => now | Fail_at now => now end.
Definition timely (c : CircuitCall) : Prop := 0 ≤ call_time c ∧ in_i64 (call_time c + cooldown).

(** The row that stands for a breaker. *)
Definition breaker_row (b : Breaker) (c : CircuitRow) : Prop :=
  ci_consecutive_failures c = br_streak b ∧ ci_probe c = br_probe b ∧
  ci_state c = (if tripped b then match br_probe b with Some _ => CHalfOpen | None => COpen end else CClosed) ∧
  ci_open_until_ms c = (if tripped b then match br_probe b with Some _ => None | None => Some (br_last b + cooldown) end
                        else None).

Definition represents (b : Breaker) (o : option CircuitRow) : Prop :=
  0 ≤ br_streak b ∧ (tripped b = false → br_probe b = None) ∧
  (tripped b = true → 0 ≤ br_last b ∧ in_i64 (br_last b + cooldown)) ∧
  match o with None => br_streak b = 0 | Some c => breaker_row b c end.

Lemma tripped_spec b : tripped b = true ↔ 1 ≤ br_streak b ∧ threshold ≤ br_streak b.
Proof. unfold tripped. rewrite Z.leb_le. lia. Qed.

Lemma represents_success now b o :
  represents b o → represents (mkBreaker 0 (br_last b) None) (Some (mkCircuit CClosed 0 None None now)).
Proof.
  intros _. assert (tripped (mkBreaker 0 (br_last b) None) = false) as Ht by (unfold tripped; cbn; apply Z.leb_gt; lia).
  split_and!; cbn; [lia|done|by rewrite Ht|]. unfold breaker_row. by rewrite Ht.
Qed.

Lemma represents_failure now b o :
  0 ≤ now → in_i64 (now + cooldown) → represents b o →
  represents (mkBreaker (br_streak b + 1) now None) (Some (after_failure threshold cooldown now o)).
Proof.
  intros Hnow Hi (Hs & Hp & Hl & Ho). set (b' := mkBreaker (br_streak b + 1) now None).
  split_and!; [cbn; lia|done|done|].
  assert (Hopen : ∀ n, n = br_streak b + 1 → tripped b' = true →
    breaker_row b' (mkCircuit COpen n (Some (now + cooldown)) None now)).
  { intros n -> Htr. unfold breaker_row. by rewrite Htr. }
  assert (Hclosed : ∀ n, n = br_streak b + 1 → tripped b' = false →
    breaker_row b' (mkCircuit CClosed n None None now)).
  { intros n -> Htr. unfold breaker_row. by rewrite Htr. }
  destruct o as [c|]; cbn [after_failure].
  - destruct Ho as (Hf & Hpr & Hst & _). rewrite Hf.
    assert (bool_decide (ci_state c = CHalfOpen) || (threshold <=? br_streak b + 1) = tripped b') as ->.
    { destruct (tripped b') eqn:Htr.
      - destruct (Z.leb_spec threshold (br_streak b + 1)); [by rewrite orb_true_r|].
        apply tripped_spec in Htr. cbn in Htr. lia.
      - assert (tripped b = false) as Hb.
        { apply not_true_iff_false. intros Hb%tripped_spec. apply not_true_iff_false in Htr. apply Htr, tripped_spec.
          cbn. lia. }
        rewrite Hst, Hb. cbn. apply not_true_iff_false in Htr. rewrite tripped_spec in Htr. cbn in Htr.
        apply Z.leb_gt. lia. }
    destruct (tripped b') eqn:Htr; [by apply Hopen|by apply Hclosed].
  - rewrite Ho in *. assert ((threshold <=? 1) = tripped b') as ->.
    { destruct (tripped b') eqn:Htr; [apply Z.leb_le; apply tripped_spec in Htr; cbn in Htr; lia|].
      apply not_true_iff_false in Htr. rewrite tripped_spec in Htr. cbn in Htr. apply Z.leb_gt. lia. }
    destruct (tripped b') eqn:Htr; [by apply Hopen|by apply Hclosed].
Qed.

Lemma retry_after_exact u now : 0 ≤ now < u → u ≤ i64_max → retry_after u now = u - now.
Proof.
  intros Hn Hu. unfold retry_after. rewrite i64_sub_id by (unfold in_i64, i64_min, i64_max in *; lia).
  unfold u64_of_i64. destruct (Z.leb_spec 0 (u - now)); [done|lia].
Qed.

Lemma acquire_represents i rid sid now d b :
  0 ≤ now → represents b (circuits d !! i) →
  ∃ p d', acquire_circuit i rid sid now d = Ok (p, d') ∧
    breaker_step (Acquire rid sid now) b = (Some p, (breaker_step (Acquire rid sid now) b).2) ∧
    represents (breaker_step (Acquire rid sid now) b).2 (circuits d' !! i).
Proof.
  intros Hnow (Hs & Hp & Hl & Ho). unfold acquire_circuit, breaker_step.
  destruct (circuits d !! i) as [c|] eqn:Hc.
  2:{ assert (tripped b = false) as Ht by (apply not_true_iff_false; rewrite tripped_spec; lia).
      rewrite Ht. cbn. eexists _, _. split_and!; [done..|by rewrite Hc]. }
  destruct Ho as (Hf & Hpr & Hst & Hou). destruct (tripped b) eqn:Ht; cbn [negb].
  2:{ rewrite Hou, Hst. eexists _, _. split_and!; [done..|]. cbn [snd]. rewrite Hc.
      split_and!; [exact Hs|intros _; by apply Hp|by rewrite Ht|]. unfold breaker_row. by rewrite Ht. }
  destruct (Hl eq_refl) as [Hl0 Hli]. destruct (br_probe b) as [k|] eqn:Hbp; rewrite Hou, Hst.
  - rewrite Hpr. exists (if decide (k = (rid, sid)) then PermitHalfOpen else PermitHalfOpenBusy), d.
    split_and!; [|done|].
    + case_bool_decide; case_decide; congruence.
    + cbn. rewrite Hc. split_and!; [lia|congruence|done|]. unfold breaker_row. by rewrite Ht, Hbp.
  - unfold read_i64. destruct Hli as [Hlo Hhi].
    rewrite (proj2 (Z.leb_le _ _) Hlo), (proj2 (Z.leb_le _ _) Hhi). cbn.
    destruct (Z.ltb_spec now (br_last b + cooldown)); cbn [snd].
    + rewrite retry_after_exact by lia. eexists _, _. split_and!; [done..|]. rewrite Hc.
      split_and!; [lia|done|done|]. unfold breaker_row. by rewrite Ht, Hbp.
    + eexists _, _. split_and!; [done..|]. cbn. rewrite lookup_insert_eq.
      assert (∀ k, tripped (mkBreaker (br_streak b) (br_last b) k) = true) as Ht2 by (intros k; exact Ht).
      split_and!; [cbn; lia|by rewrite Ht2|done|]. unfold breaker_row. by rewrite Ht2.
Qed.
End Breaker.

(** C14: The circuits implement the breaker.  On any sequence of acquisitions,
    successes and failures of one integration, starting without a row, the
    store never fails and answers every acquisition as the abstract breaker
    does: closed while fewer failures than the threshold (at least one) have
    been recorded since the last success; otherwise open, with the exact time
    left, until the cool-down after the last failure has passed; then the first
    step to ask probes and every other one is turned away, until a result is
    recorded.  A failed probe opens the circuit again, a success closes it. *)
Theorem circuit_refines_breaker threshold cooldown i l d :
  circuits d !! i = None → 0 ≤ cooldown ≤ i64_max → Forall (timely cooldown) l →
  circuit_run threshold cooldown i l d = Ok <$> breaker_run threshold cooldown l initial_breaker.
Proof.
  intros Hn Hcd Hl. assert (cooldown_i64 cooldown = cooldown) as Hc.
  { unfold cooldown_i64, i64_of_u64. by rewrite (proj2 (Z.leb_le _ _) (proj2 Hcd)). }
  assert (represents threshold cooldown initial_breaker (circuits d !! i)) as Hr.
  { rewrite Hn. split_and!; [done..| |done]. rewrite tripped_spec. cbn. lia. }
  clear Hn. revert d Hr. generalize initial_breaker as b.
  induction Hl as [|c l [Ht0 Hti] _ IH]; intros b d Hr; [done|]. cbn [circuit_run breaker_run].
  destruct c as [rid sid now|now|now]; cbn [call_time] in *.
  - destruct (acquire_represents threshold cooldown i rid sid now d b Ht0 Hr) as (p & d' & Ha & Hb & Hr').
    unfold transaction. cbn [circuit_step]. unfold tx_bind. rewrite Ha. cbn [tx_ret].
    rewrite Hb. cbn [fmap list_fmap]. f_equal. by apply IH.
  - cbn. f_equal. apply IH. cbn. rewrite lookup_insert_eq. by eapply represents_success.
  - cbn -[after_failure]. f_equal. apply IH. cbn -[after_failure]. rewrite lookup_partial_alter_eq, Hc.
    by apply represents_failure.
Qed.

(** ** Concrete histories *)

Definition sample_hash : string :=
  "aaaaaaaaaaaaaaaaaaaaaaaaaaaaaaaaaaaaaaaaaaaaaaaaaaaaaaaaaaaaaaaa".

Definition sample_tool_db : ToolDb :=
  mkToolDb
    (set_run_tables (set_run_steps (λ _, [mkStep "r" "s" 0 ToolDispatch StepRunning 1 "h" None None None
        (Some "w") (Some 100) (Some 0) None]))
      (set_runs (λ _, [mkRun "r" "c" None RunRunning 0 1 0 0 None]) empty_db))
    ∅ ∅ ∅.

Definition sample_definition : ToolInvocationDefinition :=
  mkDefinition "r" "s" "calendar.lookup" "calendar" sample_hash None None 3 1000.

Definition sample_calls : list ToolCall :=
  [ CallDefine sample_definition;
    CallBegin "r" "s" 1000;
    CallSchedule "r" "s" (new_failure KTransient "x" "y") 1500 500 1000;
    CallBegin "r" "s" 1200; CallBegin "r" "s" 1500; CallSuccess "r" "s" 1600 ].

Lemma attempts_within_budget_witness :
  invocations sample_tool_db = ∅ ∧
  (begins ("r", "s") sample_calls sample_tool_db = 2 ∧
   begins ("r", "s") sample_calls sample_tool_db ≤ 3).
Proof.
  pose proof (attempts_within_budget sample_tool_db sample_calls ("r", "s") eq_refl) as H.
  split; [reflexivity|]. cbv zeta in H.
  assert (Hr : (λ r, (iv_attempts_used r, iv_retry_budget_total r)) <$>
    (invocations (run_calls sample_calls sample_tool_db) !! ("r", "s")) = Some (2, 3)) by (vm_compute; reflexivity).
  destruct (invocations (run_calls sample_calls sample_tool_db) !! ("r", "s")) as [r|]; [|discriminate Hr].
  injection Hr as Hr1 Hr2. destruct H as (H1 & H2 & _). rewrite Hr1 in H1. rewrite Hr2 in H2.
  split; [exact H1|exact H2].
Defined.

Definition tripped_db : ToolDb :=
  set_circuits <["calendar" := mkCircuit COpen 3 (Some 31000) None 1000]> sample_tool_db.

Definition probed_db : ToolDb :=
  set_circuits <["calendar" := mkCircuit CHalfOpen 3 None (Some ("r", "s")) 31000]> tripped_db.

Lemma circuit_single_probe_witness :
  acquire_circuit "calendar" "r" "s" 31000 tripped_db = Ok (PermitHalfOpen, probed_db) ∧
  acquire_circuit "calendar" "r2" "s" 99000 (run_calls sample_calls probed_db) =
    Ok (PermitHalfOpenBusy, run_calls sample_calls probed_db).
Proof.
  assert (H1 : acquire_circuit "calendar" "r" "s" 31000 tripped_db = Ok (PermitHalfOpen, probed_db)) by reflexivity.
  split; [exact H1|].
  refine (proj2 (circuit_single_probe "calendar" "r" "s" 31000 tripped_db probed_db _ sample_calls H1
    eq_refl eq_refl _) "r2" "s" 99000).
  repeat constructor.
Defined.

Lemma circuit_refines_breaker_witness :
  circuit_run 2 30000 "calendar"
    [Fail_at 10; Acquire "r" "a" 15; Fail_at 20; Acquire "r" "b" 25; Acquire "r" "c" 30020; Acquire "r" "d" 30021]
    sample_tool_db =
  Ok <$> [None; Some PermitClosed; None; Some (PermitOpen 29995); Some PermitHalfOpen; Some PermitHalfOpenBusy].
Proof.
  refine (circuit_refines_breaker 2 30000 "calendar" _ sample_tool_db eq_refl _ _).
  - unfold i64_max. lia.
  - repeat constructor; vm_compute; discriminate.
Defined.
