(* ===== verification/BudgetSafety.v ===== *)
(** * What the execution budgets guarantee

    Two stores write the budget rows and effect claims of a run: the run store
    ([RunBudgets]), which checks its clock against the last observation, and
    the dispatch path ([ToolExecution]), which does not.  The limits hold
    whatever they do in any order; the clock is monotone for the first alone. *)

From stdpp Require Import relations.
From S2P Require Import Prelude Wire RunSchema Schema RunBase RunBudgets ServiceBase ToolExecution.

(** ** Operations *)

(** One completed operation of the run store on the budgets, with any
    arguments. *)
Inductive store_step (d : Db) : Db → Prop :=
| ss_ensure rid t rl el now_ms r d' :
    0 ≤ rl → 0 ≤ el → ensure_execution_budget rid t rl el now_ms d = (r, d') → store_step d d'
| ss_observe rid now_ms r d' : execution_budget_at rid now_ms d = (r, d') → store_step d d'
| ss_observe_second rid now r d' : observe_execution_budget_at_second rid now d = (r, d') → store_step d d'
| ss_retry rid now_ms r d' : consume_execution_retry rid now_ms d = (r, d') → store_step d d'
| ss_effect rid sid now_ms r d' : claim_execution_effect rid sid now_ms d = (r, d') → store_step d d'
| ss_other d' :
    execution_budgets (run_tables d') = execution_budgets (run_tables d) →
    effect_claims (run_tables d') = effect_claims (run_tables d) → store_step d d'.

(** Any of the two stores' operations: a call of the dispatch path runs on the
    same tables and its own. *)
Inductive budget_step (d : ToolDb) : ToolDb → Prop :=
| bs_store core : store_step (td_db d) core → budget_step d (set_core (λ _, core) d)
| bs_call c : match c with CallEnsure _ total _ => 0 ≤ total | _ => True end → budget_step d (call_db c d).

(** ** Rows *)

(** The steps of a run that claimed an effect. *)
Definition claims_of (rid : string) (d : Db) : gset (string * string) :=
  filter (λ k, k.1 = rid) (dom (effect_claims (run_tables d))).

Record budget_ok (rid : string) (d : Db) (b : ExecutionBudgetRow) : Prop := {
  bk_retries : 0 ≤ eb_retries_used b ≤ eb_retry_limit b;
  bk_effects : 0 ≤ eb_effects_used b ≤ eb_effect_limit b;
  bk_claims : eb_effects_used b = Z.of_nat (size (claims_of rid d));
  bk_deadline : ∀ sid t, effect_claims (run_tables d) !! (rid, sid) = Some t → t < eb_deadline_at_ms b
}.

Definition budgets_ok (d : Db) : Prop :=
  (∀ rid b, budget_of rid d = Some b → budget_ok rid d b) ∧
  (∀ rid, budget_of rid d = None → claims_of rid d = ∅).

(** What a step keeps of a budget: the limits and the deadline stay, the
    counters grow; and so does the clock. *)
Definition spends (b b' : ExecutionBudgetRow) : Prop :=
  eb_time_limit_ms b' = eb_time_limit_ms b ∧ eb_deadline_at_ms b' = eb_deadline_at_ms b ∧
  eb_retry_limit b' = eb_retry_limit b ∧ eb_effect_limit b' = eb_effect_limit b ∧
  eb_retries_used b ≤ eb_retries_used b' ∧ eb_effects_used b ≤ eb_effects_used b'.
Definition spends_in_time (b b' : ExecutionBudgetRow) : Prop :=
  spends b b' ∧ eb_updated_at_ms b ≤ eb_updated_at_ms b'.

#[global] Instance spends_preorder : PreOrder spends.
Proof. split; [intros b|intros a b c]; unfold spends; intuition (try congruence; lia). Qed.
#[global] Instance spends_in_time_preorder : PreOrder spends_in_time.
Proof.
  split; [intros b; by split|]. intros a b c [H1 H2] [H3 H4]. split; [by transitivity b|lia].
Qed.

Lemma claims_of_insert rid sid now_ms d rid' :
  claims_of rid' (set_run_tables (set_effect_claims <[(rid, sid) := now_ms]>) d) =
    if decide (rid = rid') then {[(rid, sid)]} ∪ claims_of rid' d else claims_of rid' d.
Proof. unfold claims_of. cbn. rewrite dom_insert_L. case_decide; set_solver. Qed.

Lemma no_claims rid sid d : claims_of rid d = ∅ → effect_claims (run_tables d) !! (rid, sid) = None.
Proof.
  intros Hno. apply not_elem_of_dom. intros Hin. assert ((rid, sid) ∈ claims_of rid d) as Hc.
  { unfold claims_of. by rewrite elem_of_filter. }
  rewrite Hno in Hc. by apply not_elem_of_empty in Hc.
Qed.

(** ** What a step does to every budget *)

Section Evolves.
Context (R : ExecutionBudgetRow → ExecutionBudgetRow → Prop) `{!PreOrder R}.

Definition evolves (d d' : Db) : Prop :=
  budgets_ok d → budgets_ok d' ∧
  ∀ rid b, budget_of rid d = Some b → ∃ b', budget_of rid d' = Some b' ∧ R b b'.

#[global] Instance evolves_preorder : PreOrder evolves.
Proof.
  split.
  - intros d Hok. split; [done|]. intros rid b Hb. by exists b.
  - intros d1 d2 d3 H1 H2 Hok. destruct (H1 Hok) as [Hok2 He1]. destruct (H2 Hok2) as [Hok3 He2].
    split; [done|]. intros rid b (b' & Hb' & Hle)%He1. destruct (He2 _ _ Hb') as (b'' & Hb'' & Hle').
    exists b''. split; [done|]. by transitivity b'.
Qed.

Lemma evolves_set rid b b' d :
  budget_of rid d = Some b → R b b' →
  ∀ rid' b1, budget_of rid' d = Some b1 → ∃ b2, budget_of rid' (set_budget rid b' d) = Some b2 ∧ R b1 b2.
Proof.
  intros Hb Hle rid' b1 Hb1. rewrite budget_of_set. case_decide; [|by exists b1].
  subst. simplify_eq. by exists b'.
Qed.

(** A row replaced by one that spends nothing but retries. *)
Lemma evolves_replace rid b b' d :
  budget_of rid d = Some b →
  (budget_ok rid d b → spends b b' ∧ R b b' ∧ eb_effects_used b' = eb_effects_used b ∧
     eb_retries_used b' ≤ eb_retry_limit b') →
  evolves d (set_budget rid b' d).
Proof.
  intros Hb Hs [Hok Hno]. pose proof (Hok _ _ Hb) as Hbk. destruct (Hs Hbk) as (Hsp & HR & He & Hr).
  split; [|by eapply evolves_set]. split; intros rid'; rewrite budget_of_set.
  - intros b1. case_decide as Hd; [|intros Hb1; by destruct (Hok rid' b1 Hb1)]. intros [= <-]. subst rid'.
    destruct Hbk as [H1 H2 H3 H4], Hsp as (_ & Hdl & Hrl & Hel & ? & ?).
    split; [lia|lia|by rewrite He|rewrite Hdl; exact H4].
  - case_decide; [done|]. apply Hno.
Qed.

Lemma evolves_observe rid b now_ms d :
  budget_of rid d = Some b → R b (observed_at now_ms b) → evolves d (set_budget rid (observed_at now_ms b) d).
Proof.
  intros Hb HR. apply (evolves_replace rid b); [done|]. intros [[? ?] _ _ _]. split_and!; try done.
Qed.

Lemma evolves_new rid b d :
  budget_of rid d = None → eb_retries_used b = 0 → eb_effects_used b = 0 → 0 ≤ eb_retry_limit b →
  0 ≤ eb_effect_limit b → evolves d (set_budget rid b d).
Proof.
  intros Hn Hr He Hrl Hel [Hok Hno]. split.
  - split; intros rid'; rewrite budget_of_set.
    + intros b1. case_decide as Hd; [|intros Hb1; by destruct (Hok rid' b1 Hb1)]. intros [= <-]. subst rid'.
      pose proof (Hno rid Hn) as Hc. split; [lia|lia| |].
      * change (claims_of rid (set_budget rid b d)) with (claims_of rid d). by rewrite Hc, size_empty.
      * intros sid t Ht. change (effect_claims (run_tables d) !! (rid, sid) = Some t) in Ht.
        by rewrite no_claims in Ht.
    + case_decide; [done|]. apply Hno.
  - intros rid' b1 Hb1. rewrite budget_of_set. rewrite decide_False by congruence. by exists b1.
Qed.

Lemma evolves_same d d' :
  execution_budgets (run_tables d') = execution_budgets (run_tables d) →
  effect_claims (run_tables d') = effect_claims (run_tables d) → evolves d d'.
Proof.
  intros Hb Hc [Hok Hno]. assert (∀ rid, budget_of rid d' = budget_of rid d) as Hb' by (intros; unfold budget_of; by rewrite Hb).
  assert (∀ rid, claims_of rid d' = claims_of rid d) as Hc' by (intros; unfold claims_of; by rewrite Hc).
  split.
  - split; intros rid.
    + intros b Hbb. rewrite Hb' in Hbb. destruct (Hok rid b Hbb). split; [done..| |]; by rewrite ?Hc', ?Hc.
    + rewrite Hb', Hc'. apply Hno.
  - intros rid b Hbb. exists b. by rewrite Hb'.
Qed.

(** An effect spent on a step without a claim, before the deadline. *)
Lemma effect_spent rid sid now_ms b d :
  budget_of rid d = Some b → eb_effects_used b < eb_effect_limit b → now_ms < eb_deadline_at_ms b →
  effect_claims (run_tables d) !! (rid, sid) = None → R b (take_effect now_ms b) →
  evolves d (set_run_tables (set_effect_claims <[(rid, sid) := now_ms]>) (set_budget rid (take_effect now_ms b) d)).
Proof.
  intros Hb He Hdl Hc HR [Hok Hno].
  assert (∀ rid', budget_of rid' (set_run_tables (set_effect_claims <[(rid, sid) := now_ms]>)
      (set_budget rid (take_effect now_ms b) d)) =
    if decide (rid = rid') then Some (take_effect now_ms b) else budget_of rid' d) as Hbo by (intros; apply budget_of_set).
  split; [split; intros rid'|].
  - intros b1. rewrite Hbo. case_decide as Hd.
    + intros [= <-]. subst rid'. destruct (Hok _ _ Hb) as [Hr Hel Hsz Hlate].
      assert ((rid, sid) ∉ claims_of rid d) as Hnew.
      { unfold claims_of. rewrite elem_of_filter, elem_of_dom, Hc. by intros [_ [? ?]]. }
      split; cbn [take_effect eb_retries_used eb_retry_limit eb_effects_used eb_effect_limit eb_deadline_at_ms];
        [lia|lia| |].
      * rewrite claims_of_insert, decide_True by done.
        change (claims_of rid (set_budget rid (take_effect now_ms b) d)) with (claims_of rid d).
        rewrite size_union, size_singleton by set_solver. lia.
      * intros sid' t. cbn. intros [[[= <-] <-]|[_ Ht]]%lookup_insert_Some; [done|by eapply Hlate].
    + intros Hb1. destruct (Hok _ _ Hb1) as [? ? ? Hlate]. split; [done..| |].
      * by rewrite claims_of_insert, decide_False by done.
      * intros sid' t. cbn. intros [[[= ? <-] _]|[_ Ht]]%lookup_insert_Some; [done|by eapply Hlate].
  - rewrite Hbo. case_decide as Hd; [done|]. rewrite claims_of_insert, decide_False by done. apply Hno.
  - intros rid' b1 Hb1. rewrite Hbo. case_decide; [|by exists b1]. subst. simplify_eq. by eexists.
Qed.

Lemma op_tx_evolves {A} (m : tx Db A) d r d' :
  (∀ a d1, m d = Ok (a, d1) → evolves d d1) → op_tx m d = (r, d') → evolves d d'.
Proof.
  intros Hm. unfold op_tx, transaction. destruct (m d) as [[a d1]|e]; intros [= _ <-]; [by eapply Hm|done].
Qed.

Lemma act_tx_evolves {A} (m : tx ToolDb A) d :
  (∀ a d1, m d = Ok (a, d1) → evolves (td_db d) (td_db d1)) → evolves (td_db d) (td_db (act_tx m d).2).
Proof. intros Hm. unfold act_tx, transaction. destruct (m d) as [[a d1]|e]; [by eapply Hm|done]. Qed.
End Evolves.

Lemma evolves_weaken (R R' : ExecutionBudgetRow → ExecutionBudgetRow → Prop) d d' :
  (∀ b b', R b b' → R' b b') → evolves R d d' → evolves R' d d'.
Proof.
  intros HR He Hok. destruct (He Hok) as [Hok' Hev]. split; [done|].
  intros rid b (b' & Hb' & Hle)%Hev. exists b'. auto.
Qed.

(** ** The run store *)

Lemma ensure_evolves rid t rl el now_ms r d d' :
  0 ≤ rl → 0 ≤ el → ensure_execution_budget rid t rl el now_ms d = (r, d') → evolves spends_in_time d d'.
Proof.
  intros Hrl Hel. unfold ensure_execution_budget. destruct (_ =? 0); [by intros [= <- <-]|].
  destruct (_ <? _); [by intros [= <- <-]|]. unfold op_bind, op_tx, transaction.
  destruct (budget_of rid d) as [b|] eqn:Hb.
  - cbn. rewrite Hb. destruct (_ || _); [by intros [= <- <-]|].
    destruct (set_deadline _ _ d) as [[n d1]|] eqn:Hs; [|by intros [= <- <-]].
    apply update_runs_ok in Hs as (_ & -> & _). intros [= <- <-]. by apply (evolves_same spends_in_time).
  - destruct (find_run rid d) as [r0|]; [|by intros [= <- <-]].
    set (b := mkExecBudget _ _ _ _ _ _ _). set (d1 := set_budget rid b d).
    assert (evolves spends_in_time d d1) as He by (by apply (evolves_new spends_in_time)).
    replace (budget_of rid d1) with (Some b) by (subst d1; by rewrite budget_of_set, decide_True).
    destruct (_ || _); [by intros [= <- <-]|].
    destruct (set_deadline _ _ d1) as [[n d2]|] eqn:Hs; [|by intros [= <- <-]].
    apply update_runs_ok in Hs as (_ & -> & _). intros [= <- <-]. rewrite He. by apply (evolves_same spends_in_time).
Qed.

Lemma observed_in_time now_ms b : eb_updated_at_ms b ≤ now_ms → spends_in_time b (observed_at now_ms b).
Proof. unfold spends_in_time, spends, observed_at. cbn. lia. Qed.

Lemma observe_evolves rid now_ms a d d' :
  execution_budget_at_tx rid now_ms d = Ok (a, d') → evolves spends_in_time d d'.
Proof.
  unfold execution_budget_at_tx. destruct (budget_of rid d) as [b|] eqn:Hb; [|by intros [= _ <-]].
  destruct (Z.leb_spec (eb_updated_at_ms b) now_ms).
  - intros [= _ <-]. by apply (evolves_observe spends_in_time), observed_in_time.
  - destruct (validate_run_clock _ _); [|done]. by intros [= _ <-].
Qed.

Lemma observe_second_evolves rid now a d d' :
  observe_at_second_tx rid now d = Ok (a, d') → evolves spends_in_time d d'.
Proof.
  unfold observe_at_second_tx. destruct (budget_of rid d) as [b|] eqn:Hb; [|by intros [= _ <-]].
  destruct (_ <? _); [done|]. intros [= _ <-]. apply (evolves_observe spends_in_time); [done|]. apply observed_in_time. lia.
Qed.

Lemma retry_evolves rid now_ms a d d' : consume_retry_tx rid now_ms d = Ok (a, d') → evolves spends_in_time d d'.
Proof.
  unfold consume_retry_tx. destruct (budget_of rid d) as [b|] eqn:Hb; [|by intros [= _ <-]].
  destruct (may_retry now_ms b) eqn:Hm; [|by intros [= _ <-]]. intros [= _ <-].
  unfold may_retry in Hm. apply andb_true_iff in Hm as [[Hu%Z.leb_le Hr%Z.ltb_lt]%andb_true_iff _].
  apply (evolves_replace spends_in_time rid b); [done|]. unfold spends_in_time, spends. cbn. intros _. lia.
Qed.

Lemma effect_evolves rid sid now_ms a d d' :
  claim_effect_tx rid sid now_ms d = Ok (a, d') → evolves spends_in_time d d'.
Proof.
  unfold claim_effect_tx. destruct (match budget_of rid d with Some _ => _ | None => _ end); [|done].
  case_bool_decide as Hc.
  - intros [= _ <-]. destruct (budget_of rid d) as [b|] eqn:Hb; [|done].
    destruct (Z.leb_spec (eb_updated_at_ms b) now_ms); [by apply (evolves_observe spends_in_time), observed_in_time|done].
  - destruct (budget_of rid d) as [b|] eqn:Hb; [|by intros [= _ <-]].
    destruct (may_claim_effect now_ms b) eqn:Hm; [|by intros [= _ <-]].
    destruct (find_run rid d); [|done]. intros [= _ <-].
    unfold may_claim_effect in Hm. apply andb_true_iff in Hm as [[Hu%Z.leb_le He%Z.ltb_lt]%andb_true_iff Hd%Z.ltb_lt].
    apply (effect_spent spends_in_time); [done..|by apply eq_None_not_Some|]. unfold spends_in_time, spends. cbn. lia.
Qed.

Lemma store_step_evolves d d' : store_step d d' → evolves spends_in_time d d'.
Proof.
  intros [rid t rl el now_ms r d1 ? ? H|rid now_ms r d1 H|rid now r d1 H|rid now_ms r d1 H|rid sid now_ms r d1 H|d1 Hb Hc].
  - eapply ensure_evolves, H; done.
  - eapply (op_tx_evolves spends_in_time), H. intros ? ?. apply observe_evolves.
  - eapply (op_tx_evolves spends_in_time), H. intros ? ?. apply observe_second_evolves.
  - eapply (op_tx_evolves spends_in_time), H. intros ? ?. apply retry_evolves.
  - eapply (op_tx_evolves spends_in_time), H. intros ? ?. apply effect_evolves.
  - by apply (evolves_same spends_in_time).
Qed.

Lemma store_steps_evolve d d' : rtc store_step d d' → evolves spends_in_time d d'.
Proof. induction 1 as [|d d1 d2 H _ IH]; [done|]. apply store_step_evolves in H. by transitivity d1. Qed.

(** ** The dispatch path *)

Lemma run_budget_evolves rid total now d :
  0 ≤ total → evolves spends (td_db d) (td_db (ensure_run_retry_budget rid total now d).2).
Proof.
  intros Ht. unfold ensure_run_retry_budget. unfold act_bind at 1.
  set (first := act_tx _ d).
  assert (evolves spends (td_db d) (td_db first.2)) as He.
  { apply (act_tx_evolves spends). intros a d1. unfold on_core.
    destruct (budget_of rid (td_db d)) eqn:Hb; [by intros [= _ <-]|].
    destruct (find_run rid (td_db d)); [|done]. intros [= _ <-]. by apply (evolves_new spends). }
  destruct first as [[u|e] d1]; [|exact He]. cbn in He. rewrite He. apply (evolves_same spends).
  all: unfold act_bind, act_tx, transaction, act_guard, act_ret, act_err.
  all: destruct (retry_budgets d1 !! rid) as [rb|] eqn:Hrb; cbn; rewrite ?Hrb; [by destruct (_ =? _)|].
  all: destruct (find_run rid (td_db d1)); cbn; [|done].
  all: rewrite ?lookup_insert_eq; cbn; by destruct (_ =? _).
Qed.

Lemma run_retry_evolves rid now d :
  evolves spends (td_db d) (td_db (act_tx (consume_run_retry rid now) d).2).
Proof.
  apply (act_tx_evolves spends). intros a d1. unfold consume_run_retry.
  destruct (budget_of rid (td_db d)) as [b|] eqn:Hb; [|by intros [= _ <-]].
  destruct (has_retry now b) eqn:Hr; [|by intros [= _ <-]]. cbn [retry_budgets set_core].
  apply andb_true_iff in Hr as [Hr%Z.ltb_lt _].
  assert (∀ n, (budget_ok rid (td_db d) b → eb_retries_used b ≤ n ≤ eb_retry_limit b) →
    evolves spends (td_db d) (set_budget rid (with_retries n now b) (td_db d))) as Hset.
  { intros n Hn. apply (evolves_replace spends rid b); [done|]. intros Hok. specialize (Hn Hok).
    unfold spends, with_retries. cbn. lia. }
  assert (∀ n, set_budget rid (with_retries n now b)
      (set_budget rid (with_retries (eb_retries_used b + 1) now b) (td_db d)) =
    set_budget rid (with_retries n now b) (td_db d)) as Hover.
  { intros n. unfold set_budget, set_execution_budgets, set_run_tables. cbn. by rewrite insert_insert_eq. }
  destruct (retry_budgets d !! rid) as [rb|]; [destruct (_ <? _)|]; intros [= _ <-]; cbn; rewrite ?Hover; apply Hset.
  - intros _. lia.
  - intros [? _ _ _]. lia.
  - intros [? _ _ _]. lia.
Qed.

Lemma run_effect_evolves rid sid now d :
  evolves spends (td_db d) (td_db (act_tx (claim_run_effect rid sid now) d).2).
Proof.
  apply (act_tx_evolves spends). intros a d1. unfold claim_run_effect, on_core.
  case_bool_decide as Hc; [by intros [= _ <-]|].
  destruct (budget_of rid (td_db d)) as [b|] eqn:Hb; [|by intros [= _ <-]].
  destruct (has_effect now b) eqn:Hm; [|by intros [= _ <-]].
  destruct (find_run rid (td_db d)); [|done]. intros [= _ <-].
  apply andb_true_iff in Hm as [He%Z.ltb_lt Hd%Z.ltb_lt].
  apply (effect_spent spends); [done..|by apply eq_None_not_Some|]. unfold spends. cbn. lia.
Qed.

(** The other calls leave the shared tables alone. *)
Definition spares_core {A} (m : tx ToolDb A) : Prop := ∀ d a d', m d = Ok (a, d') → td_db d' = td_db d.

Lemma spares_core_act {A} (m : tx ToolDb A) d : spares_core m → td_db (act_tx m d).2 = td_db d.
Proof. intros Hm. unfold act_tx, transaction. destruct (m d) as [[a d1]|] eqn:Hd; [by eapply Hm|done]. Qed.

Lemma core_bind {A B} (m : tx ToolDb A) (f : A → tx ToolDb B) :
  spares_core m → (∀ a, spares_core (f a)) → spares_core (tx_bind m f).
Proof. intros Hm Hf d b d'' (a & d' & H1%Hm & H2%Hf)%tx_bind_ok. congruence. Qed.

Lemma core_query k : spares_core (query_invocation k).
Proof. intros d a d'. unfold query_invocation. destruct (_ !! k) as [r|]; [destruct (row_to_invocation k r)|]; by intros [= _ <-]. Qed.

Lemma core_modify (f : ToolDb → ToolDb) : (∀ d, td_db (f d) = td_db d) → spares_core (tx_modify f).
Proof. intros Hf d a d'. unfold tx_modify. intros [= _ <-]. apply Hf. Qed.

Lemma core_define def : spares_core (define_invocation def).
Proof.
  apply core_bind; [apply core_query|intros [t|]].
  - destruct (same_contract t def); by intros d a d' [= _ <-].
  - intros d0 a d'. rewrite tx_get_bind. revert a d'. intros a d'. apply core_bind.
    + intros d1 u d2. unfold insert_invocation. destruct (negb _); [done|]. destruct (step_exists _ _); by intros [= _ <-].
    + intros _. apply core_bind; [apply core_query|]. intros [t|]; [by intros ? ? ? [= _ <-]|done].
Qed.

Lemma core_write rid sid s f next backoff now : spares_core (write_failure rid sid s f next backoff now).
Proof. intros d a d'. unfold write_failure. destruct (_ !! _); by intros [= _ <-]. Qed.

Lemma core_begin rid sid now d : td_db (begin_attempt rid sid now d).2 = td_db d.
Proof.
  unfold begin_attempt, act_bind. set (first := act_tx _ d).
  assert (td_db first.2 = td_db d) as Hf.
  { apply spares_core_act. intros d1 a d2. destruct (invocations d1 !! _) as [r|]; [|done].
    destruct (eligible now r); by intros [= _ <-]. }
  destruct first as [[u|e] d1]; [|exact Hf]. cbn in Hf. rewrite <-Hf. apply spares_core_act.
  apply core_bind; [apply core_query|]. intros [t|]; [by intros ? ? ? [= _ <-]|done].
Qed.

Lemma core_acquire i rid sid now : spares_core (acquire_circuit i rid sid now).
Proof.
  intros d a d'. unfold acquire_circuit. destruct (circuits d !! i) as [c|]; [|by intros [= _ <-]].
  destruct (match ci_open_until_ms c with None => _ | Some t => _ end) as [o|]; [|done].
  destruct (ci_state c); [by intros [= _ <-]| |].
  - destruct o as [t|]; [|done]. destruct (now <? t); by intros [= _ <-].
  - destruct (bool_decide _); by intros [= _ <-].
Qed.

Lemma call_evolves c d :
  match c with CallEnsure _ total _ => 0 ≤ total | _ => True end → evolves spends (td_db d) (td_db (call_db c d)).
Proof.
  assert (∀ d', td_db d' = td_db d → evolves spends (td_db d) (td_db d')) as Hsame by (by intros d' ->).
  destruct c as [rid total now|rid now|rid sid now|def|rid sid now|rid sid f next backoff now|rid sid now
    |rid sid f now|i rid sid now|i now|i threshold cooldown now]; cbn [call_db]; intros Hc.
  - by apply run_budget_evolves.
  - apply run_retry_evolves.
  - apply run_effect_evolves.
  - by apply Hsame, spares_core_act, core_define.
  - by apply Hsame, core_begin.
  - apply Hsame, spares_core_act. unfold schedule_retry. destruct (tf_retryable _); [apply core_write|done].
  - by apply Hsame, spares_core_act, core_modify.
  - apply Hsame, spares_core_act, core_write.
  - apply Hsame, spares_core_act, core_acquire.
  - by apply Hsame, spares_core_act, core_modify.
  - by apply Hsame, spares_core_act, core_modify.
Qed.

(** ** The tool retries of a run *)

Definition retries_ok (d : ToolDb) : Prop :=
  ∀ rid rb, retry_budgets d !! rid = Some rb → 0 ≤ rb_consumed_retries rb ≤ rb_total_budget rb.

(** The total of a row is fixed and its count only grows, within the total. *)
Definition retries_evolve (d d' : ToolDb) : Prop :=
  retries_ok d → retries_ok d' ∧ ∀ rid rb, retry_budgets d !! rid = Some rb →
    ∃ rb', retry_budgets d' !! rid = Some rb' ∧ rb_total_budget rb' = rb_total_budget rb ∧
      rb_consumed_retries rb ≤ rb_consumed_retries rb'.

#[global] Instance retries_evolve_preorder : PreOrder retries_evolve.
Proof.
  split.
  - intros d Hok. split; [done|]. intros rid rb Hrb. by exists rb.
  - intros d1 d2 d3 H1 H2 Hok. destruct (H1 Hok) as [Hok2 He1]. destruct (H2 Hok2) as [Hok3 He2].
    split; [done|]. intros rid rb (rb' & Hrb' & ? & ?)%He1. destruct (He2 _ _ Hrb') as (rb'' & ? & ? & ?).
    exists rb''. split_and!; [done|congruence|lia].
Qed.

Lemma retries_same d d' : retry_budgets d' = retry_budgets d → retries_evolve d d'.
Proof. intros Heq Hok. unfold retries_ok. rewrite Heq. split; [done|]. intros rid rb Hrb. by exists rb. Qed.

Lemma retries_insert d d' rid rb :
  retry_budgets d' = <[rid := rb]> (retry_budgets d) → 0 ≤ rb_consumed_retries rb ≤ rb_total_budget rb →
  (∀ old, retry_budgets d !! rid = Some old → rb_total_budget rb = rb_total_budget old ∧
     rb_consumed_retries old ≤ rb_consumed_retries rb) →
  retries_evolve d d'.
Proof.
  intros Heq Hb Hold Hok. split.
  - intros rid' rb'. rewrite Heq. intros [[<- <-]|[_ Hrb]]%lookup_insert_Some; [done|by eapply Hok].
  - intros rid' rb' Hrb. rewrite Heq. destruct (decide (rid = rid')) as [<-|Hne].
    + exists rb. rewrite lookup_insert_eq. split; [done|by apply Hold].
    + exists rb'. by rewrite lookup_insert_ne.
Qed.

Lemma ensure_retries rid total now d : 0 ≤ total → retries_evolve d (ensure_run_retry_budget rid total now d).2.
Proof.
  intros Ht. unfold ensure_run_retry_budget. unfold act_bind at 1. set (first := act_tx _ d).
  assert (retry_budgets first.2 = retry_budgets d) as Hf.
  { unfold first, act_tx, transaction, on_core. destruct (budget_of rid (td_db d)); [done|].
    by destruct (find_run rid (td_db d)). }
  destruct first as [[u|e] d1]; cbn in Hf; [|by apply retries_same].
  transitivity d1; [by apply retries_same|].
  unfold act_bind, act_tx, transaction, act_guard, act_ret, act_err.
  destruct (retry_budgets d1 !! rid) as [rb|] eqn:Hrb; cbn; rewrite ?Hrb; [by destruct (_ =? _)|].
  destruct (find_run rid (td_db d1)); cbn; [|done]. rewrite lookup_insert_eq. cbn.
  assert (retries_evolve d1 (set_retry_budgets <[rid := mkRetryBudget total 0 now]> d1)) as He.
  { eapply retries_insert; [done|by cbn|]. intros old. by rewrite Hrb. }
  by destruct (_ =? _).
Qed.

Lemma consume_retries rid now d : retries_evolve d (act_tx (consume_run_retry rid now) d).2.
Proof.
  unfold act_tx, transaction, consume_run_retry. destruct (budget_of rid (td_db d)) as [b|]; [|done].
  destruct (has_retry now b); [|done]. cbn [retry_budgets set_core].
  destruct (retry_budgets d !! rid) as [rb|] eqn:Hrb; [|by apply retries_same].
  destruct (Z.ltb_spec (rb_consumed_retries rb) (rb_total_budget rb)); [|by apply retries_same].
  intros Hok. pose proof (Hok _ _ Hrb) as Hb. revert Hok.
  eapply (retries_insert _ _ rid); [done|cbn; lia|]. intros old. rewrite Hrb. intros [= <-]. cbn. split; [done|lia].
Qed.

(** The other calls leave the table alone. *)
Lemma call_retries c d :
  match c with CallEnsure _ total _ => 0 ≤ total | _ => True end → retries_evolve d (call_db c d).
Proof.
  assert (∀ {A} (m : tx ToolDb A), (∀ d a d', m d = Ok (a, d') → retry_budgets d' = retry_budgets d) →
    retries_evolve d (act_tx m d).2) as Hsame.
  { intros A m Hm. apply retries_same. unfold act_tx, transaction. destruct (m d) as [[a d1]|] eqn:Hd; [by eapply Hm|done]. }
  assert (∀ k d a d', query_invocation k d = Ok (a, d') → d' = d) as Hq.
  { intros k d1 a d2 Hd. by apply query_invocation_ok in Hd as [-> _]. }
  assert (∀ rid sid s f next backoff now d a d', write_failure rid sid s f next backoff now d = Ok (a, d') →
    retry_budgets d' = retry_budgets d) as Hw.
  { intros rid sid s f next backoff now d1 a d2. unfold write_failure. destruct (_ !! _); by intros [= _ <-]. }
  destruct c as [rid total now|rid now|rid sid now|def|rid sid now|rid sid f next backoff now|rid sid now
    |rid sid f now|i rid sid now|i now|i threshold cooldown now]; cbn [call_db]; intros Hc.
  - by apply ensure_retries.
  - apply consume_retries.
  - apply Hsame. intros d1 a d2 Hd. unfold claim_run_effect, on_core in Hd. repeat case_match; by simplify_eq.
  - apply Hsame. intros d1 t d2 [(-> & _)|(r & _ & _ & _ & _ & -> & _)]%define_invocation_ok; done.
  - unfold begin_attempt, act_bind, act_tx, transaction.
    destruct (invocations d !! (rid, sid)) as [r|]; [|done]. destruct (eligible now r); [|done].
    unfold tx_bind. destruct (query_invocation _ _) as [[[t|] d1]|] eqn:Hd; try (by apply retries_same);
      apply Hq in Hd as ->; by apply retries_same.
  - apply Hsame. unfold schedule_retry. destruct (tf_retryable _); [apply Hw|done].
  - by apply retries_same.
  - apply Hsame, Hw.
  - apply Hsame. intros d1 a d2 Hd. unfold acquire_circuit in Hd. repeat case_match; by simplify_eq.
  - by apply retries_same.
  - by apply retries_same.
Qed.

Lemma budget_steps_retries d d' : rtc budget_step d d' → retries_evolve d d'.
Proof.
  induction 1 as [|d d1 d2 [core Hs|c Hc] _ IH]; [done| |].
  { transitivity (set_core (λ _, core) d); [by apply retries_same|done]. }
  transitivity (call_db c d); [by apply call_retries|done].
Qed.

Lemma budget_step_evolves d d' : budget_step d d' → evolves spends (td_db d) (td_db d').
Proof.
  intros [core Hs|c Hc]; [|by apply call_evolves].
  eapply evolves_weaken; [|exact (store_step_evolves _ _ Hs)]. by intros b b' [? _].
Qed.

Lemma budget_steps_evolve d d' : rtc budget_step d d' → evolves spends (td_db d) (td_db d').
Proof. induction 1 as [|d d1 d2 H _ IH]; [done|]. apply budget_step_evolves in H. by transitivity (td_db d1). Qed.

Lemma budgets_ok_empty d :
  execution_budgets (run_tables d) = ∅ → effect_claims (run_tables d) = ∅ → budgets_ok d.
Proof.
  intros Hb Hc. split; [intros rid b; unfold budget_of; by rewrite Hb|].
  intros rid _. unfold claims_of. rewrite Hc. set_solver.
Qed.

(** ** Properties *)

(** C28: Whatever the run store and the dispatch path do to the budgets, in any
    order, a run's limits and deadline are fixed once set, its counters only
    grow and stay within the limits, and the effects used are exactly the
    steps that hold an effect claim, each claimed before the deadline, so at
    most [effect_limit] different steps ever get one; and the retries its tool
    calls take stay within their own fixed total.  While only the run
    store writes, the last clock observation never goes back either; the
    dispatch path writes it unchecked ([dispatch_sets_clock_back]). *)
Theorem budget_enforced d0 d1 d2 rid b :
  execution_budgets (run_tables (td_db d0)) = ∅ → effect_claims (run_tables (td_db d0)) = ∅ →
  retry_budgets d0 = ∅ → rtc budget_step d0 d1 → rtc budget_step d1 d2 → budget_of rid (td_db d1) = Some b →
  ∃ b', budget_of rid (td_db d2) = Some b' ∧ spends b b' ∧
    eb_retries_used b' ≤ eb_retry_limit b ∧
    eb_effects_used b' = Z.of_nat (size (claims_of rid (td_db d2))) ∧ eb_effects_used b' ≤ eb_effect_limit b ∧
    (∀ sid t, effect_claims (run_tables (td_db d2)) !! (rid, sid) = Some t → t < eb_deadline_at_ms b) ∧
    (∀ rb, retry_budgets d1 !! rid = Some rb → ∃ rb', retry_budgets d2 !! rid = Some rb' ∧
       rb_total_budget rb' = rb_total_budget rb ∧
       rb_consumed_retries rb ≤ rb_consumed_retries rb' ≤ rb_total_budget rb) ∧
    (rtc store_step (td_db d1) (td_db d2) → eb_updated_at_ms b ≤ eb_updated_at_ms b').
Proof.
  intros Hb0 Hc0 Hr0 Hs1 Hs2 Hb.
  assert (∀ rb, retry_budgets d1 !! rid = Some rb → ∃ rb', retry_budgets d2 !! rid = Some rb' ∧
    rb_total_budget rb' = rb_total_budget rb ∧
    rb_consumed_retries rb ≤ rb_consumed_retries rb' ≤ rb_total_budget rb) as Hretries.
  { destruct (budget_steps_retries _ _ Hs1) as [Hr1 _]; [intros rid' rb; by rewrite Hr0|].
    destruct (budget_steps_retries _ _ Hs2 Hr1) as [Hr2 Hev]. intros rb (rb' & Hrb' & Htot & Hle)%Hev.
    exists rb'. pose proof (Hr2 _ _ Hrb'). split_and!; [done..|lia]. }
  apply budget_steps_evolve in Hs1 as H1, Hs2 as H2.
  destruct (H1 (budgets_ok_empty _ Hb0 Hc0)) as [Hok1 _]. destruct (H2 Hok1) as [[Hok2 _] Hev].
  destruct (Hev _ _ Hb) as (b' & Hb' & Hsp). exists b'. split; [done|]. split; [done|].
  destruct (Hok2 _ _ Hb') as [Hr He Hsz Hdl]. destruct Hsp as (_ & Hdeq & Hrl & Hel & _).
  split_and!; [lia|done|lia|by rewrite <-Hdeq|done|].
  intros Hs%store_steps_evolve. destruct (Hs Hok1) as [_ Ht]. destruct (Ht _ _ Hb) as (b2 & Hb2 & _ & Hle).
  by simplify_eq.
Qed.

(** ** A run with one effect *)

Definition toy_run : RunRecord := mkRun "r" "c" None RunPending 0 1 100 100 None.
Definition toy_tools (d : Db) : ToolDb := mkToolDb d ∅ ∅ ∅.
Definition toy_runs : ToolDb := toy_tools (set_runs (λ _, [toy_run]) empty_db).
Definition toy_budget : ToolDb :=
  set_core (λ _, (ensure_execution_budget "r" 5000 1 1 1000 (td_db toy_runs)).2) toy_runs.
Definition toy_claimed : ToolDb := call_db (CallEffect "r" "s0" 1500) toy_budget.

(** With a limit of one effect a second step gets none, from either store, and
    the first may ask again. *)
Lemma budget_enforced_witness :
  (claim_execution_effect "r" "s1" 1600 (td_db toy_claimed)).1 = Ok false ∧
  (act_tx (claim_run_effect "r" "s1" 1600) toy_claimed).1 = Ok false ∧
  (act_tx (claim_run_effect "r" "s0" 1600) toy_claimed).1 = Ok true ∧
  ∃ b', budget_of "r" (td_db toy_claimed) = Some b' ∧ eb_effects_used b' ≤ 1.
Proof.
  split; [by vm_compute|]. split; [by vm_compute|]. split; [by vm_compute|].
  destruct (budget_enforced toy_runs toy_budget toy_claimed "r" (mkExecBudget 5000 6000 1 0 1 0 1000))
    as (b' & Hb' & _ & _ & _ & He & _).
  - done.
  - done.
  - done.
  - apply rtc_once, (bs_store toy_runs).
    apply (ss_ensure _ "r" 5000 1 1 1000 (ensure_execution_budget "r" 5000 1 1 1000 (td_db toy_runs)).1);
      [lia|lia|by vm_compute].
  - by apply rtc_once, (bs_call toy_budget (CallEffect "r" "s0" 1500)).
  - by vm_compute.
  - exists b'. split; [exact Hb'|exact He].
Defined.

(** The dispatch path takes an effect at 1200 although 2000 was observed: the
    clock goes back, and the run store then accepts a time it had refused. *)
Definition toy_observed : ToolDb :=
  set_core (λ d, (execution_budget_at "r" 2000 d).2) toy_budget.
Definition toy_back : ToolDb := call_db (CallEffect "r" "s0" 1200) toy_observed.

Lemma dispatch_sets_clock_back :
  (eb_updated_at_ms <$> budget_of "r" (td_db toy_observed)) = Some 2000 ∧
  is_ok (execution_budget_at "r" 1300 (td_db toy_observed)).1 = false ∧
  (eb_updated_at_ms <$> budget_of "r" (td_db toy_back)) = Some 1200 ∧
  is_ok (execution_budget_at "r" 1300 (td_db toy_back)).1 = true.
Proof. by vm_compute. Qed.
