(* ===== verification/Dispatch.v ===== *)
(** * Dispatching a tool with retries

    [TurnExecutor::dispatch_with_retry] of [crates/runner-local/src/turn.rs]
    over the stores of [ToolExecution] and [RunBudgets].  What surrounds the
    worker is a [World]: the clock, the tool, the other workers, who may change
    the database before every access, and the process, which may die there.  A
    dispatch is a [proc], so that it can also be interleaved with others of the
    same step ([DispatchSafety]). *)

From Stdlib Require Import Strings.Ascii.
From S2P Require Import Prelude Wire Text RunSchema Schema RunBase RunBudgets ServiceBase Procs ToolExecution.

Definition MAX_IDENTICAL_CALLS : Z := 2.
Definition MAX_DISPATCH_ATTEMPTS : Z := 3.
Definition CIRCUIT_FAILURE_THRESHOLD : Z := 3.
Definition CIRCUIT_COOLDOWN_MS : Z := 30000.

(** The [Display] of [RunStoreError]. *)
Definition display_run_error (e : RunStoreError) : string :=
  match e with
  | RDb e => display_error e
  | NotFound entity id => entity +:+ " '" +:+ id +:+ "' was not found"
  | InvalidTransition entity id status operation =>
      "cannot " +:+ operation +:+ " " +:+ entity +:+ " '" +:+ id +:+ "' while it is " +:+ status
  | Conflict m => "durable run conflict: " +:+ m
  | InvalidLease now lease =>
      "lease expiry " +:+ pretty lease +:+ " must be later than claim time " +:+ pretty now
  | Corrupt m => "corrupt durable run state: " +:+ m
  end.

Definition i64_saturating_sub (a b : Z) : Z := Z.max i64_min (Z.min i64_max (a - b)).

Definition before_dot (tool_name : string) : string :=
  match split_once "."%char tool_name with Some (i, _) => i | None => "builtin" end.

Definition tool_integration (tool_name : string) : string :=
  match strip_prefix "mcp:" tool_name with
  | Some rest =>
      match split_once ":"%char rest with
      | Some (server, _) => "mcp:" +:+ server
      | None => before_dot tool_name
      end
  | None => before_dot tool_name
  end.

Section Dispatch.
(** JSON values, and the hash of the canonical JSON of a tool name with its
    arguments ([serde_json], [sha2], [hex]). *)
Context {V : Type} (call_fingerprint : string → V → string).

Inductive ToolResultEnvelope : Type :=
| EnvOk (value : V)
| EnvErr (f : ToolFailure).

Record World : Type := mkWorld {
  w_clock : nat → Z;
  w_others : nat → ToolDb → ToolDb;
  w_alive : nat → bool;
  (** the answer of the tool; [None] when the time limit passes first *)
  w_tool : nat → option ToolResultEnvelope
}.

Record DispatchState : Type := mkDispatch {
  ds_db : ToolDb;
  ds_tick : nat;
  ds_calls : Z
}.

Inductive DispatchError : Type :=
| DispatchDb (e : DbError)
| DispatchCrashed
| DispatchPanic
| OutOfFuel.

Definition dispatch (A : Type) : Type := proc DispatchState (result DispatchError A).

Section OneWorld.
Context (w : World).

(** One access to the database. *)
Definition db_call {A} (m : act ToolDb DbError A) : dispatch A :=
  Atomic (λ s,
    let d := w_others w (ds_tick s) (ds_db s) in
    if w_alive w (ds_tick s) then
      let (r, d) := m d in
      (match r with Ok a => Ok a | Err e => Err (DispatchDb e) end, mkDispatch d (S (ds_tick s)) (ds_calls s))
    else (Err DispatchCrashed, mkDispatch d (S (ds_tick s)) (ds_calls s))) Finish.

(** [Utc::now().timestamp_millis()] *)
Definition now : dispatch Z :=
  Atomic (λ s, (Ok (w_clock w (ds_tick s)), mkDispatch (ds_db s) (S (ds_tick s)) (ds_calls s))) Finish.

(** [tokio::time::sleep(..).await]: only time passes. *)
Definition sleep (ms : Z) : dispatch () :=
  Atomic (λ s, (Ok (), mkDispatch (ds_db s) (S (ds_tick s)) (ds_calls s))) Finish.

(** [tokio::time::timeout(.., tool_dispatch.call_typed(..)).await]; the process
    may die while the tool runs. *)
Definition call_tool : dispatch (option ToolResultEnvelope) :=
  Atomic (λ s,
    let s' := mkDispatch (ds_db s) (S (ds_tick s)) (ds_calls s + 1) in
    if w_alive w (ds_tick s) then (Ok (w_tool w (ds_tick s)), s') else (Err DispatchCrashed, s')) Finish.

(** [execution_budget_at(..).map_err(..)?] and the time left of it. *)
Definition observe_remaining (rid : string) (now_ms : Z) : dispatch Z :=
  let^ budget := db_call (λ d,
    match execution_budget_at rid now_ms (td_db d) with
    | (Ok b, d') => (Ok b, set_core (λ _, d') d)
    | (Err e, d') => (Err (Invariant (display_run_error e)), set_core (λ _, d') d)
    end) in
  ok (match budget with
           | Some b => i64_saturating_sub (deadline_at_ms b) now_ms | None => i64_max end).

(** [complete_failure(..)?; return Ok(Err { failure })] *)
Definition refuse_call (rid sid : string) (f : ToolFailure) (now_ms : Z) : dispatch ToolResultEnvelope :=
  let^ _ := db_call (act_tx (complete_failure rid sid f now_ms)) in
  ok (EnvErr f).

Definition with_hints (f : ToolFailure) (retry_after : option Z) (guidance : string) : ToolFailure :=
  mkToolFailure (tf_kind f) (tf_code f) (tf_message f) (tf_retryable f) retry_after (tf_attempt f) (Some guidance).

Definition repeated_failure : ToolFailure :=
  with_hints (new_failure KPermanent "repeated_identical_call"
    "identical tool call repeated beyond the allowed limit") None "change the arguments or choose another tool".
Definition circuit_open_failure (integration : string) (retry_after_ms : Z) : ToolFailure :=
  with_hints (new_failure KTransient "circuit_open" ("integration '" +:+ integration +:+ "' circuit is open"))
    (Some retry_after_ms) "use a different integration or wait".
Definition circuit_busy_failure (integration : string) : ToolFailure :=
  with_hints (new_failure KTransient "circuit_half_open_busy"
    ("integration '" +:+ integration +:+ "' is testing recovery")) (Some 100) "use a different integration or wait".
Definition effects_exhausted_failure : ToolFailure :=
  with_hints (new_failure KPermanent "run_effect_budget_exhausted" "durable run reached its effect budget")
    None "finish without another tool effect".
Definition time_exhausted_failure (message : string) : ToolFailure :=
  new_failure KTimeout "run_time_budget_exhausted" message.

Definition with_attempt (n : Z) (f : ToolFailure) : ToolFailure :=
  mkToolFailure (tf_kind f) (tf_code f) (tf_message f) (tf_retryable f) (tf_retry_after_ms f) n (tf_guidance f).

(** [100_u64.saturating_mul(1 << (attempts - 1))]: the shift amount of a [u64]
    is taken modulo 64. *)
Definition backoff_ms (attempts : Z) : Z :=
  u64_saturating_mul 100 (Z.shiftl 1 (as_u32 (attempts - 1) mod 64)).
Definition delay_ms (f : ToolFailure) (attempts : Z) : Z :=
  Z.min (default (backoff_ms attempts) (tf_retry_after_ms f)) 5000.

(** What follows a failed call: [Some] of the final answer, or a new trace. *)
Definition after_failed_call (rid sid integration : string) (trace : ToolInvocationRecord) (f : ToolFailure) :
    dispatch (option ToolResultEnvelope * ToolInvocationRecord) :=
  let f := normalized (with_attempt (ti_attempts_used trace) f) in
  let^ retry :=
    if tf_retryable f && (ti_attempts_used trace <? ti_retry_budget_total trace)
    then let^ now_ms := now in db_call (act_tx (consume_run_retry rid now_ms))
    else ok false in
  if negb retry then
    let^ _ := match tf_kind f with
              | KTransient | KTimeout =>
                  let^ now_ms := now in
                  db_call (act_tx (record_circuit_failure integration CIRCUIT_FAILURE_THRESHOLD
                    CIRCUIT_COOLDOWN_MS now_ms))
              | _ => ok ()
              end in
    let^ now_ms := now in
    let^ r := refuse_call rid sid f now_ms in
    ok (Some r, trace)
  else
    let delay := delay_ms f (ti_attempts_used trace) in
    let^ t := now in
    let next_retry_at_ms := i64_saturating_add t (default i64_max (i64_of_u64 delay)) in
    let^ now_ms := now in
    let^ _ := db_call (act_tx (schedule_retry rid sid f next_retry_at_ms delay now_ms)) in
    let^ again := db_call (act_tx (get_invocation rid sid)) in
    match again with
    | None => fail (DispatchDb (Invariant ("tool invocation '" +:+ rid +:+ ":" +:+ sid +:+ "' disappeared")))
    | Some trace => let^ _ := sleep delay in ok (None, trace)
    end.

(** The time left before an attempt, after the backoff of the last one; or the
    answer that it has run out. *)
Definition time_for_attempt (rid sid : string) (trace : ToolInvocationRecord) :
    dispatch (Z + ToolResultEnvelope) :=
  let^ now_ms := now in
  let^ remaining_ms := observe_remaining rid now_ms in
  if remaining_ms <=? 0 then
    let^ r := refuse_call rid sid (time_exhausted_failure
      "durable run reached its time budget before tool dispatch") now_ms in ok (inr r)
  else match ti_next_retry_at_ms trace with
  | None => ok (inl remaining_ms)
  | Some next =>
      if next <=? now_ms then ok (inl remaining_ms)
      else
        let backoff := retry_after next now_ms in
        if remaining_ms <=? backoff then
          let^ r := refuse_call rid sid (time_exhausted_failure
            "tool retry backoff would exceed the durable run time budget") now_ms in ok (inr r)
        else
          let^ _ := sleep backoff in
          let^ after_backoff_ms := now in
          let^ remaining_ms := observe_remaining rid after_backoff_ms in
          if remaining_ms <=? 0 then
            let^ r := refuse_call rid sid (time_exhausted_failure
              "durable run expired during tool retry backoff") now_ms in ok (inr r)
          else ok (inl remaining_ms)
  end.

(** One turn of the loop. *)
Definition attempt (rid sid integration : string) (trace : ToolInvocationRecord) :
    dispatch (option ToolResultEnvelope * ToolInvocationRecord) :=
  let^ time := time_for_attempt rid sid trace in
  match time with
  | inr r => ok (Some r, trace)
  | inl _ =>
      let^ start := now in
      let^ trace := db_call (begin_attempt rid sid start) in
      let^ outcome := call_tool in
      match default (EnvErr (time_exhausted_failure "tool dispatch exceeded the durable run time budget")) outcome with
      | EnvOk value =>
          let^ now_ms := now in
          let^ _ := db_call (act_tx (complete_success rid sid now_ms)) in
          let^ _ := db_call (act_tx (record_circuit_success integration now_ms)) in
          ok (Some (EnvOk value), trace)
      | EnvErr f => after_failed_call rid sid integration trace f
      end
  end.

(** [while trace.attempts_used < trace.retry_budget_total { .. } unreachable!()] *)
Fixpoint attempt_loop (fuel : nat) (rid sid integration : string) (trace : ToolInvocationRecord) :
    dispatch ToolResultEnvelope :=
  if ti_attempts_used trace <? ti_retry_budget_total trace then
    match fuel with
    | O => fail OutOfFuel
    | S fuel =>
        let^ next := attempt rid sid integration trace in
        match next with
        | (Some r, _) => ok r
        | (None, trace) => attempt_loop fuel rid sid integration trace
        end
    end
  else fail DispatchPanic.

(** The gates a call passes before its first attempt. *)
Definition admit_call (rid sid tool_name : string) (args : V) (input_schema_hash result_schema_hash : option string)
    (run_retry_budget : Z) : dispatch (ToolResultEnvelope + ToolInvocationRecord) :=
  let integration := tool_integration tool_name in
  let^ now_ms := now in
  let^ _ := db_call (ensure_run_retry_budget rid run_retry_budget now_ms) in
  let^ trace := db_call (act_tx (define_invocation
    (mkDefinition rid sid tool_name integration (call_fingerprint tool_name args) input_schema_hash
       result_schema_hash MAX_DISPATCH_ATTEMPTS now_ms))) in
  if MAX_IDENTICAL_CALLS <? ti_repeated_call_count trace then
    let^ r := refuse_call rid sid repeated_failure now_ms in ok (inl r)
  else
    let^ permit := db_call (act_tx (acquire_circuit integration rid sid now_ms)) in
    match permit with
    | PermitOpen retry_after_ms =>
        let^ r := refuse_call rid sid (circuit_open_failure integration retry_after_ms) now_ms in ok (inl r)
    | PermitHalfOpenBusy =>
        let^ r := refuse_call rid sid (circuit_busy_failure integration) now_ms in ok (inl r)
    | PermitClosed | PermitHalfOpen =>
        let^ claimed := db_call (act_tx (claim_run_effect rid sid now_ms)) in
        if claimed then ok (inr trace)
        else let^ r := refuse_call rid sid effects_exhausted_failure now_ms in ok (inl r)
    end.

Definition dispatch_with_retry (rid sid tool_name : string) (args : V)
    (input_schema_hash result_schema_hash : option string) (run_retry_budget : Z) : dispatch ToolResultEnvelope :=
  let^ admitted := admit_call rid sid tool_name args input_schema_hash result_schema_hash run_retry_budget in
  match admitted with
  | inl r => ok r
  | inr trace => attempt_loop (Z.to_nat MAX_DISPATCH_ATTEMPTS) rid sid (tool_integration tool_name) trace
  end.

(** ** Reasoning about a dispatch

    Assertions are about the invocation row of the step and the number of tool
    calls made; every other worker leaves that row alone (it is leased to this
    one), so an assertion survives whatever else happens to the database. *)

Section Logic.
Context (rid sid : string) (calls0 attempts0 : Z).

Definition spares_row (f : ToolDb → ToolDb) : Prop := ∀ d, invocations (f d) !! (rid, sid) = invocations d !! (rid, sid).

Context (Hothers : ∀ n, spares_row (w_others w n)).

Definition assertion : Type := option InvocationRow → Z → Prop.

Definition holds (P : assertion) (s : DispatchState) : Prop := P (invocations (ds_db s) !! (rid, sid)) (ds_calls s).

Definition attempts_of_row (o : option InvocationRow) : Z :=
  match o with Some r => iv_attempts_used r | None => 0 end.

Definition dispatch_row_ok (o : option InvocationRow) : Prop :=
  ∀ r, o = Some r → row_ok r ∧ iv_retry_budget_total r = MAX_DISPATCH_ATTEMPTS.

(** No more calls than attempts granted. *)
Definition paid : assertion := λ o c,
  dispatch_row_ok o ∧ calls0 ≤ c ∧ c - calls0 ≤ attempts_of_row o - attempts0.

Definition is_stop (e : DispatchError) : Prop :=
  match e with DispatchDb _ | DispatchCrashed => True | DispatchPanic | OutOfFuel => False end.

Definition triple {A} (P : assertion) (m : dispatch A) (Q : A → assertion) : Prop :=
  ∀ s, holds P s → match run_proc m s with
                   | (Ok a, s') => holds (Q a) s'
                   | (Err e, s') => holds paid s' ∧ is_stop e
                   end.

Lemma triple_ret {A} (a : A) P (Q : A → assertion) : (∀ o c, P o c → Q a o c) → triple P (ok a) Q.
Proof. intros HPQ s Hs. by apply HPQ. Qed.

Lemma triple_bind {A B} (m : dispatch A) (f : A → dispatch B) P R Q :
  triple P m R → (∀ a, triple (R a) (f a) Q) → triple P (try_bind m f) Q.
Proof.
  intros Hm Hf s Hs. specialize (Hm s Hs). rewrite run_try_bind. destruct (run_proc m s) as [[a|e] s']; [by apply Hf|done].
Qed.

Lemma triple_pre {A} (m : dispatch A) (P P' : assertion) Q :
  (∀ o c, P o c → P' o c) → triple P' m Q → triple P m Q.
Proof. intros HP Hm s Hs. by apply Hm, HP. Qed.

Lemma triple_now P : triple P now (λ _, P).
Proof. by intros s Hs. Qed.

Lemma triple_sleep ms P : triple P (sleep ms) (λ _, P).
Proof. by intros s Hs. Qed.

(** An access to the database. *)
Lemma triple_db {A} (m : act ToolDb DbError A) P Q :
  (∀ o c, P o c → paid o c) →
  (∀ d c, P (invocations d !! (rid, sid)) c → match m d with
     | (Ok a, d') => Q a (invocations d' !! (rid, sid)) c
     | (Err _, d') => paid (invocations d' !! (rid, sid)) c
     end) → triple P (db_call m) Q.
Proof.
  intros HP Hm s Hs. unfold db_call. cbn [run_proc]. set (d := w_others w (ds_tick s) (ds_db s)).
  assert (P (invocations d !! (rid, sid)) (ds_calls s)) as Hd by (unfold d; rewrite Hothers; exact Hs).
  destruct (w_alive w (ds_tick s)); [|split; [by apply HP|done]].
  specialize (Hm d (ds_calls s) Hd). destruct (m d) as [[a|e] d']; [done|]. by split.
Qed.

(** One that leaves the invocations alone. *)
Lemma triple_spare {A} (m : act ToolDb DbError A) P :
  (∀ o c, P o c → paid o c) → (∀ d, invocations (m d).2 = invocations d) → triple P (db_call m) (λ _, P).
Proof.
  intros HP Hm. apply triple_db; [done|]. intros d c Hd. specialize (Hm d).
  destruct (m d) as [[a|e] d']; cbn in Hm; rewrite Hm; auto.
Qed.

Lemma triple_observe now_ms P : (∀ o c, P o c → paid o c) → triple P (observe_remaining rid now_ms) (λ _, P).
Proof.
  intros HP. apply (triple_bind _ _ _ (λ _, P)); [|intros; by apply triple_ret]. apply triple_spare; [done|].
  intros d. by destruct (execution_budget_at rid now_ms (td_db d)) as [[b|e] d'].
Qed.

(** What an answer leaves in the row: a success is the tool's own. *)
Definition settled (r : ToolResultEnvelope) (o : option InvocationRow) : Prop :=
  match o with
  | None => False
  | Some row =>
      iv_next_retry_at_ms row = None ∧
      match r with
      | EnvOk v => iv_status row = IvSucceeded ∧ iv_failure row = None ∧ ∃ n, w_tool w n = Some (EnvOk v)
      | EnvErr f => iv_status row = final_status (tf_kind f) ∧ iv_failure row = Some (failure_columns (normalized f))
      end
  end.

Lemma normalized_kind f : tf_kind (normalized f) = tf_kind f.
Proof. unfold normalized. by destruct (kind_may_retry _). Qed.

(** A row replaced by one with the same contract and attempts. *)
Lemma paid_replace r r' c :
  paid (Some r) c → row_ok r' → contract_of r' = contract_of r → iv_attempts_used r' = iv_attempts_used r →
  paid (Some r') c.
Proof.
  intros (Hok & Hc & Hp) Hr' Hct Ha. split_and!; [|done|cbn in *; lia].
  intros r1 [= <-]. split; [done|]. destruct (Hok r eq_refl) as [_ Ht]. unfold contract_of in Hct. congruence.
Qed.

Lemma triple_refuse_call f now_ms P :
  (∀ o c, P o c → paid o c) →
  triple P (refuse_call rid sid f now_ms) (λ r o c, r = EnvErr f ∧ paid o c ∧ settled (EnvErr f) o).
Proof.
  intros HP. apply (triple_bind _ _ _ (λ _ o c, paid o c ∧ settled (EnvErr f) o)).
  2:{ intros []. apply triple_ret. by intros o c [? ?]. }
  apply triple_db; [done|].
  intros d c Hd. unfold act_tx, transaction, complete_failure, write_failure.
  destruct (invocations d !! (rid, sid)) as [r|] eqn:Hr; [|rewrite Hr in *; by apply HP]. cbn -[with_failure].
  rewrite lookup_insert_eq. apply HP in Hd. split.
  - eapply paid_replace; [exact Hd| |done|done]. apply row_ok_failed; [by apply Hd|]. by intros [? ?].
  - by rewrite normalized_kind.
Qed.

(** The worker's trace is the row. *)
Definition traced (t : ToolInvocationRecord) : assertion := λ o c,
  paid o c ∧ ∃ r, o = Some r ∧ row_to_invocation (rid, sid) r = Ok t.

Lemma traced_paid t o c : traced t o c → paid o c.
Proof. by intros [? _]. Qed.

Lemma traced_fields t r c :
  traced t (Some r) c → ti_attempts_used t = iv_attempts_used r ∧ ti_retry_budget_total t = MAX_DISPATCH_ATTEMPTS ∧
  0 ≤ iv_attempts_used r ≤ MAX_DISPATCH_ATTEMPTS.
Proof.
  intros [(Hok & _) (r' & [= <-] & Ht)]. destruct (Hok r eq_refl) as [[Ha _ _] Htot].
  unfold row_to_invocation in Ht. destruct (match iv_failure r with None => Ok None | Some c => _ end); [|done].
  injection Ht as <-. cbn. rewrite Htot in *. unfold MAX_DISPATCH_ATTEMPTS, u32_or_max, u32_max in *.
  destruct (Z.leb_spec 0 (iv_attempts_used r)), (Z.leb_spec (iv_attempts_used r) (2 ^ 32 - 1)); cbn;
    split_and!; first [lia|reflexivity].
Qed.

Lemma triple_bind_same {A B} (m : dispatch A) (f : A → dispatch B) P Q :
  triple P m (λ _, P) → (∀ a, triple P (f a) Q) → triple P (try_bind m f) Q.
Proof. intros Hm Hf. by eapply triple_bind. Qed.

Lemma triple_post {A} (m : dispatch A) P (Q Q' : A → assertion) :
  (∀ a o c, Q a o c → Q' a o c) → triple P m Q → triple P m Q'.
Proof. intros HQ Hm s Hs. specialize (Hm s Hs). destruct (run_proc m s) as [[a|e] s']; [by apply HQ|done]. Qed.

Lemma triple_err {A} e P (Q : A → assertion) :
  (∀ o c, P o c → paid o c) → is_stop e → triple P (fail e) Q.
Proof. intros HP He s Hs. split; [by apply HP|done]. Qed.

(** A final answer, or none. *)
Definition answered (r : ToolResultEnvelope) : assertion := λ o c, paid o c ∧ settled r o.

Lemma triple_answer f now_ms P :
  (∀ o c, P o c → paid o c) → triple P (refuse_call rid sid f now_ms) answered.
Proof.
  intros HP. eapply triple_post; [|by apply triple_refuse_call]. intros r o c (-> & ? & ?). by split.
Qed.

Lemma circuit_failure_spares i t cd n d : invocations (act_tx (record_circuit_failure i t cd n) d).2 = invocations d.
Proof. done. Qed.
Lemma circuit_success_spares i n d : invocations (act_tx (record_circuit_success i n) d).2 = invocations d.
Proof. done. Qed.

(** Time for an attempt, without touching the row. *)
Lemma triple_time t :
  triple (traced t) (time_for_attempt rid sid t)
    (λ x, match x with inl _ => traced t | inr r => answered r end).
Proof.
  unfold time_for_attempt. apply triple_bind_same; [apply triple_now|]. intros now_ms.
  apply triple_bind_same; [apply triple_observe, traced_paid|]. intros rem.
  assert (∀ m n, triple (traced t) (let^ r := refuse_call rid sid (time_exhausted_failure m) n in ok (inr r))
    (λ x : Z + ToolResultEnvelope, match x with inl _ => traced t | inr r => answered r end)) as Hgive.
  { intros m n. eapply triple_bind; [apply triple_answer, traced_paid|]. intros r. by apply triple_ret. }
  destruct (rem <=? 0); [apply Hgive|]. destruct (ti_next_retry_at_ms t) as [next|]; [|by apply triple_ret].
  destruct (next <=? now_ms); [by apply triple_ret|]. destruct (rem <=? _); [apply Hgive|].
  apply triple_bind_same; [apply triple_sleep|]. intros _.
  apply triple_bind_same; [apply triple_now|]. intros later.
  apply triple_bind_same; [apply triple_observe, traced_paid|]. intros rem'.
  destruct (rem' <=? 0); [apply Hgive|by apply triple_ret].
Qed.

(** An attempt granted and not yet spent. *)
Definition granted (t : ToolInvocationRecord) : assertion := λ o c, traced t o c ∧ paid o (c + 1).

(** The query by key reads the row. *)
Lemma query_invocation_row kk d r :
  row_ok r → invocations d !! kk = Some r → ∃ t, row_to_invocation kk r = Ok t ∧ query_invocation kk d = Ok (Some t, d).
Proof.
  intros Hr Hd. destruct (row_to_invocation_total kk r Hr) as [t Ht]. exists t. unfold query_invocation.
  by rewrite Hd, Ht.
Qed.

Lemma triple_begin t start :
  triple (traced t) (db_call (begin_attempt rid sid start))
    (λ t' o c, granted t' o c ∧ ti_attempts_used t' = ti_attempts_used t + 1).
Proof.
  apply triple_db; [apply traced_paid|]. intros d c Ht.
  destruct (invocations d !! (rid, sid)) as [r|] eqn:Hr; [|by destruct Ht as [_ (r & ? & _)]].
  pose proof (traced_fields _ _ _ Ht) as (Ha & _ & _). destruct Ht as [Hp _].
  unfold begin_attempt, act_bind, act_tx, transaction. rewrite Hr.
  destruct (eligible start r) eqn:He; cbn -[query_invocation running]; [|rewrite Hr; exact Hp].
  destruct Hp as (Hok & Hc & Hle). destruct (Hok r eq_refl) as [Hrok Htot].
  pose proof (row_ok_running start r Hrok He) as Hrun.
  set (d1 := set_invocations _ d).
  assert (invocations d1 !! (rid, sid) = Some (running start r)) as Hd1 by (cbn; by rewrite lookup_insert_eq).
  destruct (query_invocation_row _ d1 _ Hrun Hd1) as (t' & Ht' & Hq).
  unfold tx_bind. rewrite Hq. cbn -[running d1]. rewrite Hd1.
  assert (∀ c', calls0 ≤ c' → c' - calls0 ≤ iv_attempts_used r + 1 - attempts0 → paid (Some (running start r)) c') as Hpaid.
  { intros c' H1 H2. split_and!; [|done|cbn; lia]. intros r1 [= <-]. by split. }
  cbn in Hle. assert (traced t' (Some (running start r)) c) as Htr by (split; [apply Hpaid; lia|by eexists]).
  split; [split; [done|apply Hpaid; lia]|]. pose proof (traced_fields _ _ _ Htr) as (-> & _ & _). cbn. lia.
Qed.

Lemma triple_call t (Q : option ToolResultEnvelope → assertion) :
  (∀ x o c, traced t o c → (∀ v, x = Some (EnvOk v) → ∃ n, w_tool w n = Some (EnvOk v)) → Q x o c) →
  triple (granted t) call_tool Q.
Proof.
  intros HQ s [[Ht1 Ht2] Hp]. unfold call_tool. cbn [run_proc]. destruct (w_alive w (ds_tick s)).
  - apply HQ; [by split|]. intros v Hv. by eexists.
  - split; [exact Hp|done].
Qed.

Lemma triple_schedule t f next delay now_ms :
  triple (traced t) (db_call (act_tx (schedule_retry rid sid f next delay now_ms)))
    (λ _ o c, paid o c ∧ ∃ r, o = Some r ∧ iv_attempts_used r = ti_attempts_used t).
Proof.
  apply triple_db; [apply traced_paid|]. intros d c Ht.
  destruct (invocations d !! (rid, sid)) as [r|] eqn:Hr; [|by destruct Ht as [_ (r & ? & _)]].
  pose proof (traced_fields _ _ _ Ht) as (Ha & _ & _). destruct Ht as [Hp _].
  unfold act_tx, transaction, schedule_retry.
  destruct (tf_retryable (normalized f)) eqn:Hf; cbn -[write_failure]; [|rewrite Hr; exact Hp].
  unfold write_failure. rewrite Hr. cbn -[with_failure]. rewrite lookup_insert_eq. split.
  - eapply paid_replace; [exact Hp| |done|done]. apply row_ok_failed; [by apply Hp|done].
  - by eexists.
Qed.

Lemma triple_reread n :
  triple (λ o c, paid o c ∧ ∃ r, o = Some r ∧ iv_attempts_used r = n) (db_call (act_tx (get_invocation rid sid)))
    (λ t' o c, match t' with
               | Some t' => traced t' o c ∧ ti_attempts_used t' = n
               | None => paid o c
               end).
Proof.
  apply triple_db; [by intros ? ? [? _]|]. intros d c [Hp (r & Hr & Ha)]. rewrite Hr in Hp.
  destruct (query_invocation_row (rid, sid) d r) as (t' & Ht' & Hq); [by apply Hp|done|].
  unfold act_tx, transaction, get_invocation. rewrite Hq, Hr.
  assert (traced t' (Some r) c) as Htr by (split; [done|by eexists]). split; [done|].
  by destruct (traced_fields _ _ _ Htr) as (-> & _).
Qed.

(** What one turn of the loop leaves: an answer, or a trace whose budget is
    not used up. *)
Definition turned (n : Z) (x : option ToolResultEnvelope * ToolInvocationRecord) : assertion := λ o c,
  match x with
  | (Some r, _) => answered r o c
  | (None, t) => traced t o c ∧ ti_attempts_used t = n ∧ n < MAX_DISPATCH_ATTEMPTS
  end.

Lemma triple_after_failed_call integration t f :
  triple (traced t) (after_failed_call rid sid integration t f) (turned (ti_attempts_used t)).
Proof.
  unfold after_failed_call. set (g := normalized _).
  eapply (triple_bind _ _ _ (λ retry o c, traced t o c ∧ (retry = true → ti_attempts_used t < MAX_DISPATCH_ATTEMPTS))).
  { destruct (_ && _) eqn:Hb; [|by apply triple_ret]. apply andb_true_iff in Hb as [_ Hb%Z.ltb_lt].
    apply triple_bind_same; [apply triple_now|]. intros now_ms. eapply triple_post; [|apply triple_spare].
    - intros retry o c Ht. split; [exact Ht|]. intros _.
      destruct o as [r|]; [|by destruct Ht as [_ (r & ? & _)]].
      by destruct (traced_fields _ _ _ Ht) as (_ & <- & _).
    - apply traced_paid.
    - intros d. apply spares_act, spares_consume. }
  intros retry. destruct retry; cbn [negb].
  - apply (triple_pre _ _ (λ o c, traced t o c ∧ ti_attempts_used t < MAX_DISPATCH_ATTEMPTS));
      [intros o c [? ?]; by auto|].
    assert (∀ A (m : dispatch A) Q, (ti_attempts_used t < MAX_DISPATCH_ATTEMPTS → triple (traced t) m Q) →
      triple (λ o c, traced t o c ∧ ti_attempts_used t < MAX_DISPATCH_ATTEMPTS) m Q) as Hpure.
    { intros A m Q Hm st [Hs1 Hs2]. by apply Hm. }
    apply Hpure. intros Hlt.
    apply triple_bind_same; [apply triple_now|]. intros t1.
    apply triple_bind_same; [apply triple_now|]. intros t2.
    eapply triple_bind; [apply triple_schedule|]. intros ?.
    eapply triple_bind; [apply triple_reread|]. intros [t'|]; [|by apply triple_err].
    apply triple_bind_same; [apply triple_sleep|]. intros _. apply triple_ret. intros o c [? ?]. by split_and!.
  - apply (triple_pre _ _ (traced t)); [by intros o c [? _]|].
    apply triple_bind_same.
    + destruct (tf_kind g); try by apply triple_ret.
      all: apply triple_bind_same; [apply triple_now|]; intros n; apply triple_spare; [apply traced_paid|done].
    + intros _. apply triple_bind_same; [apply triple_now|]. intros n.
      eapply triple_bind; [apply triple_answer, traced_paid|]. intros r. by apply triple_ret.
Qed.

Lemma triple_success t v n now_ms :
  w_tool w n = Some (EnvOk v) →
  triple (traced t) (db_call (act_tx (complete_success rid sid now_ms))) (λ _, answered (EnvOk v)).
Proof.
  intros Hv. apply triple_db; [apply traced_paid|]. intros d c Ht.
  destruct (invocations d !! (rid, sid)) as [r|] eqn:Hr; [|by destruct Ht as [_ (r & ? & _)]].
  destruct Ht as [Hp _]. cbn. rewrite lookup_alter_eq, Hr. cbn [fmap option_fmap option_map]. split.
  - eapply paid_replace; [exact Hp|apply row_ok_succeeded; by apply Hp|done|done].
  - cbn. split_and!; [done..|]. by exists n.
Qed.

Lemma triple_attempt integration t :
  triple (traced t) (attempt rid sid integration t) (turned (ti_attempts_used t + 1)).
Proof.
  unfold attempt. eapply triple_bind; [apply triple_time|]. intros [rem|r]; [|by apply triple_ret].
  apply triple_bind_same; [apply triple_now|]. intros start.
  eapply triple_bind; [apply triple_begin|]. intros t'.
  assert (∀ A (m : dispatch A) Q, (ti_attempts_used t' = ti_attempts_used t + 1 → triple (granted t') m Q) →
    triple (λ o c, granted t' o c ∧ ti_attempts_used t' = ti_attempts_used t + 1) m Q) as Hpure.
  { intros A m Q Hm st [Hs1 Hs2]. by apply Hm. }
  apply Hpure. intros Ha. rewrite <-Ha.
  eapply (triple_bind _ _ _ (λ x o c, traced t' o c ∧
    (∀ v, x = Some (EnvOk v) → ∃ n, w_tool w n = Some (EnvOk v)))); [by apply triple_call|].
  intros x.
  assert (∀ A (m : dispatch A) Q, ((∀ v, x = Some (EnvOk v) → ∃ n, w_tool w n = Some (EnvOk v)) →
    triple (traced t') m Q) →
    triple (λ o c, traced t' o c ∧ (∀ v, x = Some (EnvOk v) → ∃ n, w_tool w n = Some (EnvOk v))) m Q) as Hpure2.
  { intros A m Q Hm st [Hs1 Hs2]. by apply Hm. }
  apply Hpure2. intros Hx. destruct x as [[v|f]|]; cbn [default from_option id].
  - destruct (Hx v eq_refl) as [n Hn].
    apply triple_bind_same; [apply triple_now|]. intros now_ms.
    eapply triple_bind; [by eapply triple_success|]. intros ?.
    apply triple_bind_same; [apply triple_spare; [by intros o c [? _]|done]|]. intros _. by apply triple_ret.
  - apply triple_after_failed_call.
  - apply triple_after_failed_call.
Qed.

(** The loop ends with an answer while the budget lasts: it neither runs out
    of fuel nor falls through. *)
Lemma triple_loop fuel integration t :
  ti_attempts_used t < MAX_DISPATCH_ATTEMPTS → MAX_DISPATCH_ATTEMPTS - ti_attempts_used t ≤ Z.of_nat fuel →
  triple (traced t) (attempt_loop fuel rid sid integration t) answered.
Proof.
  revert t. induction fuel as [|fuel IH]; intros t Hlt Hfuel; [lia|]. cbn [attempt_loop].
  assert (∀ A (m : dispatch A) Q, (ti_retry_budget_total t = MAX_DISPATCH_ATTEMPTS → triple (traced t) m Q) →
    triple (traced t) m Q) as Hpure.
  { intros A m Q Hm st Hs. apply Hm; [|exact Hs]. unfold holds in Hs.
    destruct (invocations (ds_db st) !! (rid, sid)) as [r|]; [|by destruct Hs as [_ (r & ? & _)]].
    by destruct (traced_fields _ _ _ Hs) as (_ & ? & _). }
  apply Hpure. intros ->. rewrite (proj2 (Z.ltb_lt _ _) Hlt).
  eapply triple_bind; [apply triple_attempt|]. intros [[r|] t']; cbn [turned].
  - by apply triple_ret.
  - intros st (Hs & Ha & Hn). apply (IH t'); [lia..|exact Hs].
Qed.

Definition entry : assertion := λ o c, paid o c ∧ c = calls0 ∧ attempts_of_row o = attempts0.

Lemma entry_paid o c : entry o c → paid o c.
Proof. by intros [? _]. Qed.

Lemma triple_define tool integration fp hi hr now_ms :
  triple entry (db_call (act_tx (define_invocation
      (mkDefinition rid sid tool integration fp hi hr MAX_DISPATCH_ATTEMPTS now_ms))))
    (λ t o c, traced t o c ∧ c = calls0 ∧ ti_attempts_used t = attempts0).
Proof.
  apply triple_db; [apply entry_paid|]. intros d c (Hp & Hc & Ha). set (def := mkDefinition _ _ _ _ _ _ _ _ _).
  unfold act_tx, transaction. destruct (define_invocation def d) as [[t d']|e] eqn:Hd; [|exact Hp].
  apply define_invocation_ok in Hd as [(-> & _ & r & Hr & Ht)|(r & Hn & Ht & Hck & _ & -> & ->)]; cbn [td_run_id td_step_id def] in *.
  - rewrite Hr in *. assert (traced t (Some r) c) as Htr by (split; [done|by eexists]).
    split_and!; [done..|]. destruct (traced_fields _ _ _ Htr) as (-> & _). exact Ha.
  - cbn -[new_invocation]. rewrite lookup_insert_eq. rewrite Hn in Hp, Ha. cbn in Ha.
    set (r := new_invocation _ _) in *. assert (traced t (Some r) c) as Htr.
    { split; [|by eexists]. split_and!; [|lia|cbn; lia]. intros r1 [= <-].
      split; [by apply fresh_row_ok|done]. }
    split_and!; [done..|]. destruct (traced_fields _ _ _ Htr) as (-> & _). cbn. lia.
Qed.

Lemma triple_admit tool args hi hr budget :
  triple entry (admit_call rid sid tool args hi hr budget)
    (λ x o c, match x with
              | inl r => answered r o c
              | inr t => traced t o c ∧ c = calls0 ∧ ti_attempts_used t = attempts0
              end).
Proof.
  unfold admit_call. apply triple_bind_same; [apply triple_now|]. intros now_ms.
  apply triple_bind_same; [apply triple_spare; [apply entry_paid|intros d; apply ensure_retry_spares]|]. intros ?.
  eapply triple_bind; [apply triple_define|]. intros t.
  set (P := λ o c, traced t o c ∧ c = calls0 ∧ ti_attempts_used t = attempts0).
  assert (∀ o c, P o c → paid o c) as HP by (intros o c [[? _] _]; done).
  assert (∀ f n, triple P (let^ r := refuse_call rid sid f n in ok (inl r))
    (λ (x : ToolResultEnvelope + ToolInvocationRecord) o c,
       match x with inl r => answered r o c | inr t => traced t o c ∧ c = calls0 ∧ ti_attempts_used t = attempts0 end)) as Hgive.
  { intros f n. eapply triple_bind; [by apply triple_answer|]. intros r. by apply triple_ret. }
  destruct (_ <? _); [apply Hgive|].
  apply triple_bind_same; [apply triple_spare; [done|intros d; apply spares_act, spares_acquire]|]. intros permit.
  assert (triple P (let^ claimed := db_call (act_tx (claim_run_effect rid sid now_ms)) in
    if claimed then ok (inr t) else let^ r := refuse_call rid sid effects_exhausted_failure now_ms in ok (inl r))
    (λ x o c, match x with inl r => answered r o c
              | inr t => traced t o c ∧ c = calls0 ∧ ti_attempts_used t = attempts0 end)) as Hclaim.
  { apply triple_bind_same; [apply triple_spare; [done|intros d; apply spares_act, spares_core]|].
    intros []; [by apply triple_ret|apply Hgive]. }
  destruct permit; first [exact Hclaim|apply Hgive].
Qed.

(** Everything a dispatch may end with. *)
Lemma dispatch_ends tool args hi hr budget s :
  holds entry s →
  match run_proc (dispatch_with_retry rid sid tool args hi hr budget) s with
  | (r, s') =>
      holds paid s' ∧
      match r with
      | Ok answer => settled answer (invocations (ds_db s') !! (rid, sid))
      | Err OutOfFuel => False
      | Err DispatchPanic => attempts0 = MAX_DISPATCH_ATTEMPTS ∧ ds_calls s' = calls0
      | Err _ => True
      end
  end.
Proof.
  intros Hs. unfold dispatch_with_retry. rewrite run_try_bind. pose proof (triple_admit tool args hi hr budget s Hs) as Ha.
  destruct (run_proc (admit_call _ _ _ _ _ _ _) s) as [[[r|t]|e] s1]; [exact Ha| |].
  - destruct Ha as (Ht & Hc & Hat). destruct (Z.ltb_spec (ti_attempts_used t) MAX_DISPATCH_ATTEMPTS) as [Hlt|Hge].
    + assert (0 ≤ ti_attempts_used t) as H0.
      { destruct (invocations (ds_db s1) !! (rid, sid)) as [r|]; [|by destruct Ht as [_ (r & ? & _)]].
        destruct (traced_fields _ _ _ Ht) as (-> & _ & ?). lia. }
      pose proof (triple_loop (Z.to_nat MAX_DISPATCH_ATTEMPTS) (tool_integration tool) t Hlt) as Hl.
      specialize (Hl ltac:(unfold MAX_DISPATCH_ATTEMPTS in *; lia) s1 Ht).
      destruct (run_proc (attempt_loop _ _ _ _ t) s1) as [[r|e] s2]; [exact Hl|]. destruct Hl as [Hp He]. by destruct e.
    + assert (ti_attempts_used t = MAX_DISPATCH_ATTEMPTS ∧ ti_retry_budget_total t = MAX_DISPATCH_ATTEMPTS) as [Heq Htot].
      { destruct (invocations (ds_db s1) !! (rid, sid)) as [r|]; [|by destruct Ht as [_ (r & ? & _)]].
        destruct (traced_fields _ _ _ Ht) as (Hti & ? & ?). rewrite Hti in *. split; [lia|done]. }
      assert (∀ fuel, run_proc (attempt_loop fuel rid sid (tool_integration tool) t) s1 = (Err DispatchPanic, s1)) as ->
        by (intros []; cbn [attempt_loop]; rewrite Heq, Htot; done).
      split; [apply Ht|]. split; [lia|done].
  - destruct Ha as [Hp He]. split; [done|]. by destruct e.
Qed.
End Logic.

End OneWorld.

(** ** Dispatches of one step *)

Record DispatchRequest : Type := mkRequest {
  rq_world : World;
  rq_tool : string;
  rq_args : V;
  rq_input_hash : option string;
  rq_result_hash : option string;
  rq_retry_budget : Z
}.

Definition serve_request (rid sid : string) (q : DispatchRequest) : dispatch ToolResultEnvelope :=
  dispatch_with_retry (rq_world q) rid sid (rq_tool q) (rq_args q) (rq_input_hash q) (rq_result_hash q)
    (rq_retry_budget q).

(** Alone, apart from what the world does to the database. *)
Definition run_request (rid sid : string) (q : DispatchRequest) :
    DispatchState → result DispatchError ToolResultEnvelope * DispatchState := run_proc (serve_request rid sid q).

Definition alone_on (rid sid : string) (q : DispatchRequest) : Prop :=
  ∀ n, spares_row rid sid (w_others (rq_world q) n).

(** C15: What a dispatch answers is what it recorded.  When a dispatch of a step
    (not yet defined, or defined by an earlier dispatch) returns an answer, its
    row says so: a success is one the tool itself returned during this
    dispatch, and the row is succeeded without a failure; a failure is recorded
    with its kind, code, message and guidance, as denied exactly when policy or
    an approval refused the call; no retry stays scheduled.  The retry loop
    always ends, and it panics in one case only: when all three attempts were
    already used up by earlier dispatches, and then without calling the tool. *)
Theorem dispatch_answers rid sid q s :
  dispatch_row_ok (invocations (ds_db s) !! (rid, sid)) → alone_on rid sid q →
  match run_request rid sid q s with
  | (Ok (EnvOk v), s') =>
      ∃ row, invocations (ds_db s') !! (rid, sid) = Some row ∧ iv_next_retry_at_ms row = None ∧
        iv_status row = IvSucceeded ∧ iv_failure row = None ∧ ∃ n, w_tool (rq_world q) n = Some (EnvOk v)
  | (Ok (EnvErr f), s') =>
      ∃ row, invocations (ds_db s') !! (rid, sid) = Some row ∧ iv_next_retry_at_ms row = None ∧
        (iv_status row = IvDenied ↔ tf_kind f = KPolicyDenied ∨ tf_kind f = KApprovalDenied) ∧
        iv_failure row = Some (failure_columns (normalized f))
  | (Err OutOfFuel, _) => False
  | (Err DispatchPanic, s') =>
      attempts_at (rid, sid) (ds_db s) = MAX_DISPATCH_ATTEMPTS ∧ ds_calls s' = ds_calls s
  | (Err _, _) => True
  end.
Proof.
  intros Hok Hq. set (o := invocations (ds_db s) !! (rid, sid)) in *.
  pose proof (dispatch_ends (rq_world q) rid sid (ds_calls s) (attempts_of_row o) Hq (rq_tool q) (rq_args q)
    (rq_input_hash q) (rq_result_hash q) (rq_retry_budget q) s) as He. unfold run_request, serve_request.
  destruct (run_proc (dispatch_with_retry _ _ _ _ _ _ _ _) s) as [r s1].
  destruct He as [_ He]; [split_and!; [split_and!; [exact Hok|lia|fold o; lia]|done|done]|].
  destruct r as [answer|e]; [|by destruct e].
  unfold settled in He. destruct (invocations (ds_db s1) !! (rid, sid)) as [row|]; [|done].
  destruct answer as [v|f].
  - destruct He as (Hnext & Hst & Hf & Hv). by exists row.
  - destruct He as (Hnext & Hst & Hf). exists row. split_and!; [done..| |done].
    rewrite Hst. destruct (tf_kind f); cbn; naive_solver.
Qed.
End Dispatch.
Arguments EnvOk {V}.
Arguments EnvErr {V}.
Arguments mkWorld {V}.

(** ** Concrete dispatches *)

Definition sample_fingerprint (tool : string) (args : string) : string := sample_hash.

(** One second passes at every step. *)
Definition sample_world (alive : nat → bool) (tool : nat → option (ToolResultEnvelope (V := string))) : World :=
  mkWorld (λ n, 1000 * Z.of_nat n) (λ _ d, d) alive tool.

Definition sample_request (w : World) : DispatchRequest :=
  mkRequest (V := string) w "calendar.lookup" "{}" None None 6.

Definition always : nat → bool := λ _, true.
Definition unavailable : ToolFailure := new_failure KTransient "unavailable" "try later".
Definition flaky (good : nat) : nat → option (ToolResultEnvelope (V := string)) :=
  λ n, Some (if (good <=? n)%nat then EnvOk "done" else EnvErr unavailable).

Definition sample_state : DispatchState := mkDispatch sample_tool_db 1 0.
Definition ask (w : World) := run_request sample_fingerprint "r" "s" (sample_request w).

(** The kind of the answer, the calls made, the attempts and the status of the
    step's row. *)
Definition observe (x : result DispatchError (ToolResultEnvelope (V := string)) * DispatchState) :
    option (result string string) * option DispatchError * Z * option (Z * InvocationStatus) :=
  (match x.1 with Ok (EnvOk v) => Some (Ok v) | Ok (EnvErr f) => Some (Err (tf_code f)) | Err _ => None end,
   match x.1 with Ok _ => None | Err e => Some e end,
   ds_calls x.2,
   (λ r, (iv_attempts_used r, iv_status r)) <$> invocations (ds_db x.2) !! ("r", "s")).

Lemma alone_sample alive tool : alone_on "r" "s" (sample_request (sample_world alive tool)).
Proof. intros n d. reflexivity. Qed.

(** A second attempt that succeeds. *)
Example dispatch_retries : observe (ask (sample_world always (flaky 12)) sample_state) =
  (Some (Ok "done"), None, 2, Some (2, IvSucceeded)).
Proof. vm_compute. reflexivity. Qed.

(** Three transient failures end the dispatch. *)
Example dispatch_exhausts : observe (ask (sample_world always (flaky 99)) sample_state) =
  (Some (Err "unavailable"), None, 3, Some (3, IvFailed)).
Proof. vm_compute. reflexivity. Qed.

(** The process dies while the tool runs for the third time. *)
Definition crashed_state : DispatchState :=
  (ask (sample_world (λ m, (m <? 36)%nat) (flaky 99)) sample_state).2.

(** The comment on the loop says that it always returns.  A worker that
    resumes the step after the process died during (or after) the third attempt
    panics: the row has no attempt left, so the loop is not entered. *)
Theorem resumed_dispatch_panics :
  attempts_at ("r", "s") (ds_db crashed_state) = 3 ∧
  (ask (sample_world always (flaky 0)) (mkDispatch (ds_db crashed_state) 50 3)).1 = Err DispatchPanic.
Proof. split; vm_compute; reflexivity. Qed.

Definition probing_state : DispatchState :=
  mkDispatch (set_circuits <["calendar" := mkCircuit COpen 3 (Some 500) None 400]> sample_tool_db) 1 0.

(** A probe whose tool answers with a failure that is neither transient nor a
    timeout: the dispatch ends, nothing is recorded for the circuit, and from
    then on every other step finds the integration busy, at any time. *)
Definition refusing : nat → option (ToolResultEnvelope (V := string)) :=
  λ _, Some (EnvErr (new_failure KPermanent "bad_request" "no such calendar")).

Theorem finished_probe_wedges_circuit :
  let s := (ask (sample_world always refusing) probing_state).2 in
  observe (ask (sample_world always refusing) probing_state) = (Some (Err "bad_request"), None, 1, Some (1, IvFailed)) ∧
  ∀ l rid sid t, Forall (λ x, records_result "calendar" x = false) l → (rid, sid) ≠ ("r", "s") →
    let d := run_calls l (ds_db s) in
    acquire_circuit "calendar" rid sid t d = Ok (PermitHalfOpenBusy, d).
Proof.
  intros s. split; [vm_compute; reflexivity|]. intros l rid sid t Hl Hne d.
  set (c := circuits (ds_db s) !! "calendar").
  assert (c = Some (mkCircuit CHalfOpen 3 None (Some ("r", "s")) 1000)) as Hc by (vm_compute; reflexivity).
  assert (circuits d !! "calendar" = c) as Hd.
  { subst d. unfold c in *. clear -Hl Hc. revert Hc. generalize (ds_db s) as d0. intros d0. revert d0.
    induction Hl as [|x l Hx _ IH]; intros d0 Hc; [done|]. cbn.
    pose proof (call_half_open "calendar" x d0 _ Hx Hc eq_refl eq_refl) as Hcall.
    rewrite IH; congruence. }
  rewrite Hc in Hd. rewrite (acquire_half_open "calendar" rid sid t d _ Hd) by done. cbn [ci_probe].
  rewrite decide_False by congruence. done.
Qed.

Lemma dispatch_answers_witness :
  let w := sample_world always (flaky 12) in
  (∃ v s', ask w sample_state = (Ok (EnvOk v), s') ∧ v = "done") ∧
  match ask w sample_state with
  | (Ok (EnvOk v), s') => ∃ row, invocations (ds_db s') !! ("r", "s") = Some row ∧ iv_status row = IvSucceeded
  | _ => False
  end.
Proof.
  intros w. pose proof (dispatch_answers sample_fingerprint "r" "s" (sample_request w) sample_state) as H.
  specialize (H ltac:(intros r Hr; discriminate Hr) (alone_sample _ _)). fold (ask w) in H.
  assert (Hk : observe (ask w sample_state) = (Some (Ok "done"), None, 2, Some (2, IvSucceeded))) by (vm_compute; reflexivity).
  destruct (ask w sample_state) as [[[v|f]|e] s'].
  - destruct H as (row & Hrow & _ & Hst & _). injection Hk as Hv _ _.
    split; [exists v, s'; split; [reflexivity|exact Hv]|]. exists row. split; [exact Hrow|exact Hst].
  - discriminate Hk.
  - discriminate Hk.
Defined.
