(* ===== verification/DispatchSafety.v ===== *)
(** * Dispatches of a step by several workers at once

    A step is leased to one worker, but a lease may end while its worker is
    still running.  Here any number of workers dispatch the same step, each at
    its own pace, and the dispatches of other steps and every other call of the
    store run in between: the guard of [begin_attempt] alone bounds how often
    the tool is called. *)

From stdpp Require Import relations.
From S2P Require Import Prelude Wire Text RunSchema Schema RunBase RunBudgets ServiceBase Procs ToolExecution Dispatch.

Section Workers.
Context {V : Type} (call_fingerprint : string → V → string) (rid sid : string).

(** ** What interleaves *)

(** A worker dispatches the step: any clock, any answers of the tool, death
    anywhere, any arguments.  The other workers are in the pool. *)
Definition dispatches (_ : DispatchState) (p : dispatch (ToolResultEnvelope (V := V))) : Prop :=
  ∃ q, p = serve_request call_fingerprint rid sid q ∧ ∀ n d, w_others (rq_world q) n d = d.

(** A definition of the step has the dispatcher's number of attempts. *)
Definition defines_attempts (c : ToolCall) : Prop :=
  match c with
  | CallDefine def => (td_run_id def, td_step_id def) = (rid, sid) → td_retry_budget_total def = MAX_DISPATCH_ATTEMPTS
  | _ => True
  end.

(** Other work: any call of the store, for any step, and any change outside the
    table of invocations. *)
Inductive other_work (s s' : DispatchState) : Prop :=
| other_call c : defines_attempts c → ds_db s' = call_db c (ds_db s) → ds_calls s' = ds_calls s → other_work s s'
| other_tables : invocations (ds_db s') = invocations (ds_db s) → ds_calls s' = ds_calls s → other_work s s'.

(** ** Calls against attempts *)

Definition sound (calls0 : Z) (s : DispatchState) : Prop :=
  rows_ok (ds_db s) ∧ calls0 ≤ ds_calls s ∧
  ∀ r, invocations (ds_db s) !! (rid, sid) = Some r → iv_retry_budget_total r = MAX_DISPATCH_ATTEMPTS.

(** Calls of the tool that no counted attempt stands for. *)
Definition unpaid (s : DispatchState) : Z := ds_calls s - attempts_at (rid, sid) (ds_db s).

Lemma call_total c d r :
  rows_ok d → defines_attempts c →
  (∀ r, invocations d !! (rid, sid) = Some r → iv_retry_budget_total r = MAX_DISPATCH_ATTEMPTS) →
  invocations (call_db c d) !! (rid, sid) = Some r → iv_retry_budget_total r = MAX_DISPATCH_ATTEMPTS.
Proof.
  intros Hok Hc Ht Hr. pose proof (call_row c d (rid, sid) Hok) as Hrow. rewrite Hr in Hrow.
  destruct (invocations d !! (rid, sid)) as [r0|] eqn:Hr0.
  - destruct Hrow as (Hct & _). unfold contract_of in Hct. rewrite <-(Ht r0 eq_refl). congruence.
  - destruct c as [rid' total now|rid' now|rid' sid' now|def|rid' sid' now|rid' sid' f next backoff now
      |rid' sid' now|rid' sid' f now|i rid' sid' now|i now|i threshold cooldown now]; cbn [call_db] in Hr.
    + rewrite ensure_retry_spares in Hr. congruence.
    + rewrite spares_act in Hr by apply spares_consume. congruence.
    + rewrite spares_act in Hr by apply spares_core. congruence.
    + unfold act_tx, transaction in Hr. destruct (define_invocation def d) as [[t d']|] eqn:Hd; [|cbn in Hr; congruence].
      apply define_invocation_ok in Hd as [(-> & _)|(r1 & Hn & _ & _ & _ & -> & ->)]; cbn in Hr; [congruence|].
      apply lookup_insert_Some in Hr as [[Hk <-]|[_ Hr]]; [|congruence]. by apply Hc.
    + unfold begin_attempt, act_bind, act_tx, transaction in Hr.
      destruct (invocations d !! (rid', sid')) as [r1|] eqn:Hr1; [|cbn in Hr; congruence].
      assert ((rid', sid') ≠ (rid, sid)) as Hne by congruence.
      destruct (eligible now r1); [|cbn in Hr; congruence]. revert Hr. unfold tx_bind, query_invocation.
      set (d1 := set_invocations _ d). assert (invocations d1 !! (rid, sid) = None) as Hd1.
      { unfold d1. cbn. by rewrite lookup_insert_ne. }
      destruct (invocations d1 !! (rid', sid')) as [r2|]; [destruct (row_to_invocation _ r2)|]; cbn -[d1]; congruence.
    + unfold schedule_retry in Hr. destruct (tf_retryable _); [|cbn in Hr; congruence].
      unfold act_tx, transaction, write_failure in Hr. destruct (invocations d !! (rid', sid')) as [r1|] eqn:Hr1;
        cbn in Hr; [|congruence]. rewrite lookup_insert_ne in Hr by congruence. congruence.
    + cbn in Hr. destruct (decide ((rid', sid') = (rid, sid))) as [Heq|Hne].
      * rewrite Heq, lookup_alter_eq, Hr0 in Hr. done.
      * rewrite lookup_alter_ne in Hr by done. congruence.
    + unfold act_tx, transaction, complete_failure, write_failure in Hr.
      destruct (invocations d !! (rid', sid')) as [r1|] eqn:Hr1; cbn in Hr; [|congruence].
      rewrite lookup_insert_ne in Hr by congruence. congruence.
    + rewrite spares_act in Hr by apply spares_acquire. congruence.
    + cbn in Hr. congruence.
    + cbn in Hr. congruence.
Qed.

(** A call of the store keeps the rows sound and never takes an attempt back;
    a successful [begin_attempt] of the step counts one. *)
Lemma call_sound c calls0 s t :
  sound calls0 s → defines_attempts c →
  let s' := mkDispatch (call_db c (ds_db s)) t (ds_calls s) in
  sound calls0 s' ∧ unpaid s' + Z.b2z (began (rid, sid) c (ds_db s)) ≤ unpaid s.
Proof.
  intros (Hok & Hc & Ht) Hd s'. split.
  - split_and!; [by apply call_rows_ok|done|]. intros r. by apply call_total.
  - unfold unpaid, attempts_at. cbn. pose proof (call_row c (ds_db s) (rid, sid) Hok) as Hrow.
    destruct (invocations (ds_db s) !! (rid, sid)) as [r|], (invocations (call_db c (ds_db s)) !! (rid, sid)) as [r'|];
      cbn in Hrow; [|done|destruct Hrow as (-> & -> & _)|rewrite Hrow]; cbn; lia.
Qed.

Lemma same_rows_sound calls0 s s' :
  sound calls0 s → invocations (ds_db s') = invocations (ds_db s) → ds_calls s' = ds_calls s →
  sound calls0 s' ∧ unpaid s' = unpaid s.
Proof.
  intros (Hok & Hc & Ht) Hi Hcalls. unfold sound, unpaid, attempts_at, rows_ok. by rewrite Hi, Hcalls.
Qed.

Lemma other_work_sound calls0 s s' : other_work s s' → sound calls0 s → sound calls0 s' ∧ unpaid s' ≤ unpaid s.
Proof.
  intros [c Hd Hdb Hcalls|Hi Hcalls] Hs.
  - destruct (call_sound c calls0 s (ds_tick s') Hs Hd) as [Hs' Hle]. destruct s' as [d t n]. cbn in *. subst.
    split; [done|]. unfold Z.b2z in Hle. destruct (began _ _ _); lia.
  - destruct (same_rows_sound calls0 s s' Hs Hi Hcalls) as [? ->]. by split.
Qed.

(** ** A dispatch pays for its calls *)

Section Worker.
Context (w : World (V := V)) (calls0 : Z) (Hquiet : ∀ n d, w_others w n d = d).

#[local] Abbreviation pays_for := (pays (sound calls0) unpaid).

(** The statements that are a call of the store. *)
Lemma pays_store {A} (m : act ToolDb DbError A) (c : ToolCall) n :
  0 ≤ n → (∀ d, (m d).2 = call_db c d) → defines_attempts c → pays_for n (db_call w m) (λ _ m, m = n).
Proof.
  intros Hn Hm Hc s Hs. cbn. rewrite Hquiet. destruct (w_alive w (ds_tick s)); cbn.
  - specialize (Hm (ds_db s)). destruct (m (ds_db s)) as [r d']. cbn in *. subst d'.
    destruct (call_sound c calls0 s (S (ds_tick s)) Hs Hc) as [Hs' Hle]. split; [done|].
    exists n. split_and!; [done| |done]. unfold Z.b2z in Hle. destruct (began _ _ _); lia.
  - edestruct same_rows_sound as [Hs' Heq]; [exact Hs|..|split; [exact Hs'|]]; [done..|].
    exists n. split_and!; [done|lia|done].
Qed.

(** The others leave the invocations alone. *)
Lemma pays_spare {A} (m : act ToolDb DbError A) n :
  0 ≤ n → (∀ d, invocations (m d).2 = invocations d) → pays_for n (db_call w m) (λ _ m, m = n).
Proof.
  intros Hn Hm s Hs. cbn. rewrite Hquiet. specialize (Hm (ds_db s)).
  destruct (w_alive w (ds_tick s)); [destruct (m (ds_db s)) as [r d']|]; cbn in *.
  all: edestruct same_rows_sound as [Hs' Heq]; [exact Hs|..|split; [exact Hs'|]]; [done..|].
  all: exists n; split_and!; [done|lia|done].
Qed.

Lemma pays_tick {A} (f : DispatchState → A) n :
  0 ≤ n →
  pays_for n (Atomic (λ s, (Ok (E := DispatchError) (f s), mkDispatch (ds_db s) (S (ds_tick s)) (ds_calls s))) Finish)
    (λ _ m, m = n).
Proof.
  intros Hn s Hs. cbn. edestruct same_rows_sound as [Hs' Heq]; [exact Hs|..|split; [exact Hs'|]]; [done..|].
  exists n. split_and!; [done|lia|done].
Qed.

Lemma pays_now n : 0 ≤ n → pays_for n (now w) (λ _ m, m = n).
Proof. apply (pays_tick (λ s, w_clock w (ds_tick s))). Qed.
Lemma pays_sleep ms n : 0 ≤ n → pays_for n (sleep ms) (λ _ m, m = n).
Proof. apply (pays_tick (λ _, ())). Qed.

(** An attempt that begins pays for one call. *)
Lemma pays_begin start :
  pays_for 0 (db_call w (begin_attempt rid sid start)) (λ r m, m = if is_ok r then 1 else 0).
Proof.
  intros s Hs. cbn. rewrite Hquiet. destruct (w_alive w (ds_tick s)); cbn.
  - destruct (call_sound (CallBegin rid sid start) calls0 s (S (ds_tick s)) Hs I) as [Hs' Hle].
    cbn [call_db began] in *. rewrite bool_decide_eq_true_2 in Hle by done. cbn [andb] in Hle.
    destruct (begin_attempt rid sid start (ds_db s)) as [r d']. cbn in *. split; [done|].
    exists (Z.b2z (is_ok r)). split_and!; [by destruct r|lia|by destruct r].
  - edestruct same_rows_sound as [Hs' Heq]; [exact Hs|..|split; [exact Hs'|]]; [done..|].
    exists 0. split_and!; [done|lia|done].
Qed.

Lemma pays_call_tool : pays_for 1 (call_tool w) (λ _ m, m = 0).
Proof.
  intros s (Hok & Hc & Ht). cbn. assert (∀ s', ds_db s' = ds_db s → ds_calls s' = ds_calls s + 1 →
    sound calls0 s' ∧ ∃ m, 0 ≤ m ∧ unpaid s' + m ≤ unpaid s + 1 ∧ m = 0) as Hcall.
  { intros s' Hdb Hn. unfold sound, unpaid. rewrite Hdb, Hn. split; [split_and!; [done|lia|done]|].
    exists 0. split_and!; [done|lia|done]. }
  destruct (w_alive w (ds_tick s)); cbn; by apply Hcall.
Qed.

#[local] Abbreviation pays_all p := (pays_for 0 p (λ _ _, True)).

Lemma pays_then {A B} (p : dispatch A) (q : A → dispatch B) :
  pays_for 0 p (λ _ m, m = 0) → (∀ a, pays_all (q a)) → pays_all (try_bind p q).
Proof. intros Hp Hq. by eapply pays_try. Qed.

Lemma pays_then_same {A B} (p : dispatch A) (q : A → dispatch B) :
  pays_for 0 p (λ _ m, m = 0) → (∀ a, pays_for 0 (q a) (λ _ m, m = 0)) → pays_for 0 (try_bind p q) (λ _ m, m = 0).
Proof. intros Hp Hq. by eapply pays_try. Qed.

Lemma pays_refuse f now_ms : pays_for 0 (refuse_call (V := V) w rid sid f now_ms) (λ _ m, m = 0).
Proof. apply pays_then_same; [by apply (pays_store _ (CallFailure rid sid f now_ms))|done]. Qed.

Lemma pays_observe now_ms : pays_for 0 (observe_remaining w rid now_ms) (λ _ m, m = 0).
Proof.
  apply pays_then_same; [|done]. apply pays_spare; [done|].
  intros d. by destruct (execution_budget_at rid now_ms (td_db d)) as [[b|e] d'].
Qed.

Lemma pays_time t : pays_for 0 (time_for_attempt (V := V) w rid sid t) (λ _ m, m = 0).
Proof.
  unfold time_for_attempt. apply pays_then_same; [by apply pays_now|intros now_ms].
  apply pays_then_same; [apply pays_observe|intros left].
  assert (∀ f n, pays_for 0 (let^ r := refuse_call w rid sid f n in ok (inr (A := Z) r)) (λ _ m, m = 0)) as Hgive.
  { intros f n. apply pays_then_same; [apply pays_refuse|done]. }
  destruct (left <=? 0); [apply Hgive|]. destruct (ti_next_retry_at_ms t) as [next|]; [|done].
  destruct (next <=? now_ms); [done|]. destruct (left <=? _); [apply Hgive|].
  apply pays_then_same; [by apply pays_sleep|intros _]. apply pays_then_same; [by apply pays_now|intros later].
  apply pays_then_same; [apply pays_observe|intros left']. destruct (left' <=? 0); [apply Hgive|done].
Qed.

Lemma pays_after integration t f : pays_for 0 (after_failed_call (V := V) w rid sid integration t f) (λ _ m, m = 0).
Proof.
  unfold after_failed_call. set (g := normalized _). apply pays_then_same.
  { destruct (_ && _); [|done]. apply pays_then_same; [by apply pays_now|intros n].
    by apply (pays_store _ (CallRetry rid n)). }
  intros [|]; cbn [negb].
  - apply pays_then_same; [by apply pays_now|intros t1]. apply pays_then_same; [by apply pays_now|intros t2].
    apply pays_then_same; [by apply (pays_store _ (CallSchedule rid sid g
      (i64_saturating_add t1 (default i64_max (i64_of_u64 (delay_ms g (ti_attempts_used t)))))
      (delay_ms g (ti_attempts_used t)) t2))|intros ?].
    apply pays_then_same.
    { apply pays_spare; [done|]. intros d. unfold act_tx, transaction, get_invocation.
      destruct (query_invocation (rid, sid) d) as [[o d']|] eqn:Hq; [|done].
      by apply query_invocation_ok in Hq as [-> _]. }
    intros [t'|]; [|done]. apply pays_then_same; [by apply pays_sleep|done].
  - apply pays_then_same.
    { destruct (tf_kind g); try done.
      all: apply pays_then_same; [by apply pays_now|intros n].
      all: by apply (pays_store _ (CallCircuitFailure integration CIRCUIT_FAILURE_THRESHOLD CIRCUIT_COOLDOWN_MS n)). }
    intros _. apply pays_then_same; [by apply pays_now|intros n]. apply pays_then_same; [apply pays_refuse|done].
Qed.

(** A turn of the loop begins one attempt and calls the tool once. *)
Lemma pays_attempt integration t : pays_for 0 (attempt (V := V) w rid sid integration t) (λ _ m, m = 0).
Proof.
  unfold attempt. apply pays_then_same; [apply pays_time|]. intros [left|r]; [|done].
  apply pays_then_same; [by apply pays_now|intros start].
  eapply pays_bind; [apply pays_begin|]. intros [t'|e] m ->; [|done]. cbn [is_ok].
  eapply pays_bind; [apply pays_call_tool|]. intros [outcome|e] m ->; [|done].
  destruct (default _ outcome) as [value|f]; [|apply pays_after].
  apply pays_then_same; [by apply pays_now|intros n].
  apply pays_then_same; [by apply (pays_store _ (CallSuccess rid sid n))|intros ?].
  apply pays_then_same; [by apply (pays_store _ (CallCircuitSuccess integration n))|done].
Qed.

Lemma pays_loop fuel integration t : pays_all (attempt_loop (V := V) w fuel rid sid integration t).
Proof.
  revert t. induction fuel as [|fuel IH]; intros t; cbn [attempt_loop]; (destruct (_ <? _); [|done]); [done|].
  apply pays_then; [apply pays_attempt|]. intros [[r|] t']; [done|apply IH].
Qed.

Lemma pays_admit tool args hi hr budget :
  pays_for 0 (admit_call call_fingerprint w rid sid tool args hi hr budget) (λ _ m, m = 0).
Proof.
  unfold admit_call. apply pays_then_same; [by apply pays_now|intros n].
  apply pays_then_same; [by apply (pays_store _ (CallEnsure rid budget n))|intros ?].
  apply pays_then_same.
  { eapply (pays_store _ (CallDefine _)); [done|done|]. by intros _. }
  intros t. assert (∀ f n, pays_for 0 (let^ r := refuse_call w rid sid f n in ok (inl (B := ToolInvocationRecord) r))
    (λ _ m, m = 0)) as Hgive.
  { intros f k. apply pays_then_same; [apply pays_refuse|done]. }
  destruct (_ <? _); [apply Hgive|].
  apply pays_then_same; [by apply (pays_store _ (CallAcquire (tool_integration tool) rid sid n))|intros permit].
  assert (pays_for 0 (let^ claimed := db_call w (act_tx (claim_run_effect rid sid n)) in
    if claimed then ok (inr t) else let^ r := refuse_call w rid sid effects_exhausted_failure n in ok (inl r))
    (λ _ m, m = 0)) as Hclaim.
  { apply pays_then_same; [by apply (pays_store _ (CallEffect rid sid n))|]. intros []; [done|apply Hgive]. }
  destruct permit; first [exact Hclaim|apply Hgive].
Qed.

Lemma pays_dispatch tool args hi hr budget :
  pays_all (dispatch_with_retry call_fingerprint w rid sid tool args hi hr budget).
Proof.
  unfold dispatch_with_retry. apply pays_then; [apply pays_admit|]. intros [r|t]; [done|apply pays_loop].
Qed.
End Worker.

(** ** Properties *)

(** C13: A tool is called at most three times for a step, whoever dispatches
    it.  From a store in which the step is not defined, any number of workers
    dispatch it at the same time, their accesses to the database interleaved in
    any order with each other and with any other calls of the store (for this
    step with the dispatcher's number of attempts), any of them dying anywhere,
    with any clock and any answers of the tool: altogether the tool is called
    at most [MAX_DISPATCH_ATTEMPTS] times, and never more often than the
    attempts the step's row counts. *)
Theorem tool_calls_bounded s s' ps :
  rows_ok (ds_db s) → invocations (ds_db s) !! (rid, sid) = None →
  rtc (pool_step other_work dispatches) (s, []) (s', ps) →
  0 ≤ ds_calls s' - ds_calls s ≤ attempts_at (rid, sid) (ds_db s') ∧
  ds_calls s' - ds_calls s ≤ MAX_DISPATCH_ATTEMPTS.
Proof.
  intros Hok Hn Hps.
  destruct (pool_pays (sound (ds_calls s)) unpaid other_work dispatches (s, []) (s', ps)) as [Hs' Hle];
    [apply other_work_sound| |exact Hps| |done|].
  - intros s1 p (q & -> & Hq). by apply pays_dispatch.
  - split_and!; [done|cbn; lia|]. cbn. by rewrite Hn.
  - destruct Hs' as (Hok' & Hc & Ht). unfold unpaid, attempts_at in *. cbn in *. rewrite Hn in Hle.
    destruct (invocations (ds_db s') !! (rid, sid)) as [r|] eqn:Hr.
    + destruct (Hok' _ _ Hr) as [Ha _ _]. rewrite (Ht r eq_refl) in Ha. lia.
    + unfold MAX_DISPATCH_ATTEMPTS. lia.
Qed.
End Workers.

(** ** Two workers on one step *)

Definition first_worker : DispatchRequest := sample_request (sample_world always (flaky 99)).
Definition second_worker : DispatchRequest := sample_request (sample_world (λ n, (n <? 60)%nat) (flaky 99)).
Definition both_workers : list (dispatch (ToolResultEnvelope (V := string))) :=
  map (serve_request sample_fingerprint "r" "s") [first_worker; second_worker].

(** They take turns, one access to the database or reading of the clock each. *)
Fixpoint turns (n : nat) : list nat := match n with O => [] | S n => 0%nat :: 1%nat :: turns n end.
Definition contended := run_schedule (turns 60) (sample_state, both_workers).

Lemma contended_reached :
  rtc (pool_step (other_work "r" "s") (dispatches sample_fingerprint "r" "s")) (sample_state, []) contended.
Proof.
  eapply rtc_l; [apply (step_accept _ _ _ [] (serve_request sample_fingerprint "r" "s" first_worker));
    by exists first_worker|].
  eapply rtc_l; [apply (step_accept _ _ _ [_] (serve_request sample_fingerprint "r" "s" second_worker));
    by exists second_worker|].
  apply run_schedule_steps.
Qed.

(** Both begin attempts; together they call the tool three times. *)
Lemma tool_calls_bounded_witness :
  ds_calls contended.1 = 3 ∧ attempts_at ("r", "s") (ds_db contended.1) = 3 ∧
  ds_calls contended.1 - ds_calls sample_state ≤ MAX_DISPATCH_ATTEMPTS.
Proof.
  split; [vm_compute; reflexivity|]. split; [vm_compute; reflexivity|].
  refine (proj2 (tool_calls_bounded sample_fingerprint "r" "s" sample_state contended.1 contended.2 _ _ _)).
  - intros k r Hr. vm_compute in Hr. discriminate Hr.
  - reflexivity.
  - rewrite <-surjective_pairing. exact contended_reached.
Defined.
