(* ===== verification/DurableRun.v ===== *)
(** * The durable step protocol

    [crates/runner-local/src/durable.rs]: how a runner enters, completes and
    replays the steps of a run over the run store.  The JSON encoding of a
    step's output is a parameter; the SHA-256 of canonical JSON that identifies
    a step's input is the caller's [input_hash]. *)

From stdpp Require Import relations.
From S2P Require Import Prelude Wire Text RunSchema Schema Information InformationStore.
From S2P Require Import RunBase RunBudgets RunStore RunInvariant RunSafety RunRecovery RunEffects.

Definition OUTPUT_PREFIX : string := "json:".
Definition DEFAULT_RUN_TIME_BUDGET_MS : Z := 60 * 60 * 1000.
Definition DEFAULT_RUN_RETRY_BUDGET : Z := 64.
Definition DEFAULT_RUN_EFFECT_BUDGET : Z := 64.

(** [serde_json] on the outputs of steps: what is written can be read back. *)
Class StepCodec (T : Type) : Type := {
  to_json : T → result string string;
  from_json : string → result string T;
  from_to_json v j : to_json v = Ok j → from_json j = Ok v
}.

Inductive StepDecision (T : Type) : Type :=
| Execute (s : RunStepRecord)
| Replay (v : T)
| AwaitApproval (approval_id : string)
| Busy (lease_owner : option string).
Arguments Execute {T}.
Arguments Replay {T}.
Arguments AwaitApproval {T}.
Arguments Busy {T}.

Record DurableRun : Type := mkDurable {
  dr_run_id : string;
  dr_worker_id : string;
  dr_lease_seconds : Z;
  dr_model_lease_seconds : Z
}.

Definition op_lift {A} (r : result RunStoreError A) : op A := λ d, (r, d).

(** ** Opening *)

Section Open.
Context `{LabelCodec} (sha256_hex : bytes → string).

Definition open_with_execution_budget (event_id rid worker_id conversation_id : string) (input_event_seq : Z)
    (parent_run_id : option string) (now time_limit_ms retry_limit effect_limit : Z) : op DurableRun :=
  do* existing := get_run rid in
  let persisted_deadline := existing ≫= run_deadline_at in
  do* _ := create_run_with_id sha256_hex event_id rid
             (mkNewRun conversation_id parent_run_id input_event_seq now persisted_deadline) in
  do* _ := ensure_execution_budget rid time_limit_ms retry_limit effect_limit (i64_saturating_mul now 1000) in
  op_ret (mkDurable rid worker_id 60 60).

Definition open_run (event_id rid worker_id conversation_id : string) (input_event_seq : Z)
    (parent_run_id : option string) (now : Z) : op DurableRun :=
  open_with_execution_budget event_id rid worker_id conversation_id input_event_seq parent_run_id now
    DEFAULT_RUN_TIME_BUDGET_MS DEFAULT_RUN_RETRY_BUDGET DEFAULT_RUN_EFFECT_BUDGET.
End Open.

Definition with_lease_seconds (lease_seconds : Z) (r : DurableRun) : DurableRun :=
  let l := Z.max 1 lease_seconds in mkDurable (dr_run_id r) (dr_worker_id r) l l.
Definition with_model_lease_seconds (lease_seconds : Z) (r : DurableRun) : DurableRun :=
  mkDurable (dr_run_id r) (dr_worker_id r) (dr_lease_seconds r) (Z.max (dr_lease_seconds r) lease_seconds).

Section Steps.
Context {T : Type} `{!StepCodec T} (self : DurableRun).

Definition missing_budget : RunStoreError := Corrupt "run execution budget is missing".
Definition durable_budget : op RunExecutionBudget :=
  do* b := execution_budget (dr_run_id self) in op_lift (ok_or missing_budget b).
Definition durable_budget_at (now_ms : Z) : op RunExecutionBudget :=
  do* b := execution_budget_at (dr_run_id self) now_ms in op_lift (ok_or missing_budget b).

Definition is_completed : op bool :=
  do* r := get_run (dr_run_id self) in
  op_ret (match r with Some r => bool_decide (run_status r = RunCompleted) | None => false end).

(** ** Outputs *)

Definition decode_output (s : RunStepRecord) : result RunStoreError T :=
  match st_output_ref s with
  | None => Err (Corrupt ("completed step '" +:+ st_step_id s +:+ "' has no output"))
  | Some output =>
      match strip_prefix OUTPUT_PREFIX output with
      | None => Err (Corrupt ("completed step '" +:+ st_step_id s +:+ "' has an unsupported output reference"))
      | Some json =>
          match from_json json with
          | Ok v => Ok v
          | Err e => Err (Corrupt ("completed step '" +:+ st_step_id s +:+ "' output is invalid JSON: " +:+ e))
          end
      end
  end.

Definition replay_completed (sid : string) : op (option T) :=
  do* s := get_step (dr_run_id self) sid in
  match s with
  | None => op_ret None
  | Some s =>
      if bool_decide (st_status s = StepCompleted)
      then do* v := op_lift (decode_output s) in op_ret (Some v)
      else op_ret None
  end.

(** ** Entering a step *)

Definition define_step (n : NewRunStep) : op RunStepRecord := add_step (dr_run_id self) n.

Definition lease_for (kind : RunStepKind) : Z :=
  if bool_decide (kind = ModelRequest) then dr_model_lease_seconds self else dr_lease_seconds self.

Definition not_next (sid : string) (ordinal : Z) : RunStoreError :=
  Conflict ("step '" +:+ sid +:+ "' at ordinal " +:+ pretty ordinal +:+ " is not the next safe action").

Definition is_id (sid : string) (s : RunStepRecord) : bool := String.eqb (st_step_id s) sid.

(** The decision on a step that is not completed. *)
Definition enter_open_step (sid : string) (ordinal : Z) (kind : RunStepKind) (now : Z) : op (StepDecision T) :=
  do* action := next_safe_action (dr_run_id self) now in
  match action with
  | Claim s | ReclaimExpired s =>
      if is_id sid s then
        do* claimed := claim_step (dr_run_id self) sid (dr_worker_id self) now
          (i64_saturating_add now (lease_for kind)) in
        op_ret (Execute claimed)
      else op_err (not_next sid ordinal)
  | WaitForLease s => if is_id sid s then op_ret (Busy (st_lease_owner s)) else op_err (not_next sid ordinal)
  | WaitForApproval s =>
      if is_id sid s then
        match st_approval_id s with
        | Some a => op_ret (AwaitApproval a)
        | None => op_err (Corrupt "approval wait has no approval id")
        end
      else op_err (not_next sid ordinal)
  | AdvanceCursor s =>
      if is_id sid s then do* v := op_lift (decode_output s) in op_ret (Replay v)
      else op_err (not_next sid ordinal)
  | _ => op_err (not_next sid ordinal)
  end.

Definition enter_defined_step (sid : string) (ordinal : Z) (kind : RunStepKind) (now : Z) : op (StepDecision T) :=
  do* existing := get_step (dr_run_id self) sid in
  match existing with
  | Some s =>
      if bool_decide (st_status s = StepCompleted)
      then do* v := op_lift (decode_output s) in op_ret (Replay v)
      else enter_open_step sid ordinal kind now
  | None => enter_open_step sid ordinal kind now
  end.

Definition begin (n : NewRunStep) (now : Z) : op (StepDecision T) :=
  do* _ := define_step n in enter_defined_step (ns_step_id n) (ns_ordinal n) (ns_kind n) now.

Definition resume_existing (sid : string) (ordinal : Z) (kind : RunStepKind) (now : Z) : op (StepDecision T) :=
  do* s := get_step (dr_run_id self) sid in
  match s with
  | None => op_err (Conflict ("step '" +:+ sid +:+ "' is not defined"))
  | Some s =>
      if negb (st_ordinal s =? ordinal) || negb (bool_decide (st_kind s = kind))
      then op_err (Conflict ("step '" +:+ sid +:+ "' has a different kind or ordinal"))
      else enter_defined_step sid ordinal kind now
  end.

(** ** Leaving it *)

Definition complete (sid : string) (output : T) (completed_at : Z) : op RunStepRecord :=
  match to_json output with
  | Err e => op_err (Conflict ("serialize step output: " +:+ e))
  | Ok json => complete_step (dr_run_id self) sid (dr_worker_id self) (Some (OUTPUT_PREFIX +:+ json)) completed_at
  end.

Definition fail (sid detail : string) (failed_at : Z) : op RunStepRecord :=
  fail_step (dr_run_id self) sid (dr_worker_id self) (Some ("error:" +:+ take_chars 512 detail)) failed_at.

Definition wait_for_approval (sid approval_id : string) (updated_at : Z) : op RunStepRecord :=
  wait_step (dr_run_id self) sid (dr_worker_id self) (Some approval_id) updated_at.
Definition resume_approval (sid approval_id : string) (updated_at : Z) : op RunStepRecord :=
  resume_waiting_step (dr_run_id self) sid (Some approval_id) updated_at.

Definition advance (ordinal updated_at : Z) : op RunRecord :=
  do* r := get_run (dr_run_id self) in
  match r with
  | Some r => if ordinal <? run_cursor r then op_ret r else advance_cursor (dr_run_id self) ordinal updated_at
  | None => advance_cursor (dr_run_id self) ordinal updated_at
  end.

Definition finish (cursor completed_at : Z) : op RunRecord := complete_run (dr_run_id self) cursor completed_at.

(** Inference attempts, under the worker's lease. *)
Definition start_attempt (sid : string) (started_at : Z) : op Z :=
  start_inference_attempt (dr_run_id self) sid (dr_worker_id self) started_at.
Definition finish_attempt (sid : string) (attempt_no : Z) (succeeded : bool) (error_class : option string)
    (finished_at : Z) : op () :=
  finish_inference_attempt (dr_run_id self) sid attempt_no succeeded error_class finished_at.
Definition mark_attempt_retrying (sid : string) (attempt_no : Z) (error_class : string) (finished_at : Z) : op () :=
  mark_inference_attempt_retrying (dr_run_id self) sid attempt_no error_class finished_at.
End Steps.

(** ** Facts about single operations *)

Lemma string_append_strip p s : strip_prefix p (p +:+ s) = Some s.
Proof. by apply strip_prefix_Some. Qed.

Lemma complete_step_inv rid sid owner output at_ d s d1 :
  run_wf d → complete_step rid sid owner output at_ d = (Ok s, d1) →
  run_wf d1 ∧ find_step rid sid d1 = Some s ∧ st_status s = StepCompleted ∧ st_output_ref s = output.
Proof.
  intros Hwf Hc. assert (run_wf d1) as Hwf1 by (eapply run_steps_wf; [done|]; by eapply complete_step_steps).
  split; [done|]. unfold complete_step, finish_step in Hc. apply op_bind_ok in Hc as (b & d2 & Htx%op_tx_ok & Hreq).
  destruct b; cycle 1.
  { unfold transition_error in Hreq. by apply op_bind_ok in Hreq as (s' & d3 & _ & Hreq). }
  unfold required_step in Hreq. destruct (find_step rid sid d2) as [s'|] eqn:Hs; [|done]. simplify_eq.
  split; [done|]. destruct (step_then_run_cases rid sid _ _ _ _ _ _ Hwf Htx) as
    [(? & _)|(_ & s0 & Hs0 & Hp0 & Hpk & Hst & _)]; [by intros s'' [? _]%andb_true_iff|done|].
  apply find_step_Some in Hs as [Hin Hpk']. rewrite Hst in Hin.
  apply list_elem_of_fmap in Hin as (s1 & -> & Hs1).
  destruct (is_step rid sid s1 && leased_by owner s1) eqn:Hc1; [done|].
  assert (s1 = s0) as -> by (eapply same_pk; [exact Hwf|done|done|congruence]). cbv beta in Hp0. congruence.
Qed.

(** Adding a step changes no existing row. *)
Lemma add_step_keeps rid n d r d' s :
  run_wf d → add_step rid n d = (r, d') → s ∈ steps_of d → run_wf d' ∧ s ∈ steps_of d' ∧ state_runs d' = state_runs d.
Proof.
  intros Hwf Ha Hs. split; [eapply run_steps_wf; [done|]; by eapply add_step_steps|].
  unfold add_step, op_bind, op_tx, transaction in Ha. destruct (add_step_tx rid n d) as [[o d1]|e] eqn:Htx; [|by simplify_eq].
  assert (d1 = d' ∨ False) as [->|[]].
  { left. destruct o as [x|]; [destruct (same_step_definition n x)|]; by injection Ha. }
  unfold add_step_tx in Htx. rewrite tx_get_bind in Htx. destruct (find_run rid d); [|done].
  destruct (negb _); [done|]. apply tx_bind_ok in Htx as (u & d2 & Hi & Htx).
  rewrite tx_get_bind in Htx. unfold tx_ret in Htx. simplify_eq.
  apply insert_step_cases in Hi as [->|(_ & _ & ->)]; [done|]. cbn. split; [|done]. apply elem_of_app. by left.
Qed.

Section Protocol.
Context {T : Type} `{!StepCodec T}.

(** A checkpoint of [v]. *)
Definition checkpointed (rid sid : string) (v : T) (d : Db) : Prop :=
  ∃ s j, find_step rid sid d = Some s ∧ st_status s = StepCompleted ∧ to_json v = Ok j ∧
    st_output_ref s = Some (OUTPUT_PREFIX +:+ j).

Lemma decode_checkpoint s (v : T) j :
  to_json v = Ok j → st_output_ref s = Some (OUTPUT_PREFIX +:+ j) → decode_output s = Ok v.
Proof.
  intros Hj Ho. unfold decode_output. rewrite Ho, string_append_strip. by rewrite (from_to_json v j Hj).
Qed.

Lemma complete_checkpoints (self : DurableRun) sid (v : T) at_ d s d1 :
  run_wf d → complete self sid v at_ d = (Ok s, d1) → run_wf d1 ∧ checkpointed (dr_run_id self) sid v d1.
Proof.
  intros Hwf. unfold complete. destruct (to_json v) as [j|e] eqn:Hj; [|done].
  intros (Hwf1 & Hs & Hst & Ho)%complete_step_inv; [|done]. split; [done|]. by exists s, j.
Qed.

Lemma checkpointed_later rid sid (v : T) d d' :
  run_wf d → checkpointed rid sid v d → rtc worker_step d d' → run_wf d' ∧ checkpointed rid sid v d'.
Proof.
  intros Hwf (s & j & Hs & Hst & Hj & Ho) Hsteps.
  assert (run_wf d') as Hwf' by (eapply run_steps_wf; [done|]; by apply worker_steps_run).
  split; [done|]. destruct (checkpoints_are_final d d' Hwf Hsteps) as [Hall _].
  apply (find_step_wf _ _ _ _ Hwf) in Hs as [Hin Hpk]. destruct (Hall s Hin) as (s' & Hs' & Hle).
  destruct Hle as (_ & _ & _ & _ & _ & _ & Heq). unfold step_pk in Hpk. simplify_eq.
  rewrite Heq in Hs' by (unfold step_open; by rewrite Hst). by exists s, j.
Qed.

Lemma enter_checkpointed (self : DurableRun) sid ordinal kind now (v : T) d :
  checkpointed (dr_run_id self) sid v d → enter_defined_step self sid ordinal kind now d = (Ok (Replay v), d).
Proof.
  intros (s & j & Hs & Hst & Hj & Ho). unfold enter_defined_step, op_bind at 1, get_step, op_get.
  rewrite Hs, bool_decide_true by done. unfold op_bind, op_lift. by rewrite (decode_checkpoint s v j).
Qed.

(** C33: A completed step is never executed again; it replays its output.  Once
    a worker's [complete] has returned, then after any operations of any
    workers, at any time and in any process: entering or resuming the step
    gives the very value that was completed and changes nothing; [begin] gives
    that value too or refuses (another definition, a run that has ended), but
    never lets the step run; so does [replay_completed].  This holds for every
    output type whose JSON can be read back. *)
Theorem checkpoint_replayed self self' sid (v : T) at_ d s d1 d2 n now :
  run_wf d → complete self sid v at_ d = (Ok s, d1) → rtc worker_step d1 d2 →
  dr_run_id self' = dr_run_id self → ns_step_id n = sid →
  enter_defined_step self' sid (ns_ordinal n) (ns_kind n) now d2 = (Ok (Replay v), d2) ∧
  replay_completed self' sid d2 = (Ok (Some v), d2) ∧
  resume_existing self' sid (st_ordinal s) (st_kind s) now d2 = (Ok (Replay v), d2) ∧
  (∀ r d3, begin self' n now d2 = (r, d3) →
     (r = Ok (Replay v) ∨ ∃ e, r = Err e) ∧ checkpointed (dr_run_id self) sid v d3).
Proof.
  intros Hwf Hc Hsteps Hrid Hn. pose proof Hc as Hc'.
  apply complete_checkpoints in Hc as [Hwf1 Hck1]; [|done].
  destruct (checkpointed_later _ _ _ _ _ Hwf1 Hck1 Hsteps) as [Hwf2 Hck2].
  assert (∀ o k t, enter_defined_step self' sid o k t d2 = (Ok (Replay v), d2)) as Henter.
  { intros o k t. apply enter_checkpointed. by rewrite Hrid. }
  assert (find_step (dr_run_id self) sid d2 = Some s) as Hs2.
  { unfold complete in Hc'. destruct (to_json v) as [j|e]; [|done].
    apply complete_step_inv in Hc' as (_ & Hs & Hst & _); [|done].
    apply (find_step_wf _ _ _ _ Hwf1) in Hs as [Hin Hpk].
    destruct (checkpoints_are_final d1 d2 Hwf1 Hsteps) as [Hall _].
    destruct (Hall s Hin) as (s' & Hs' & Hle). destruct Hle as (_ & _ & _ & _ & _ & _ & Heq).
    injection Hpk as Hp1 Hp2.
    rewrite Hp1, Hp2 in Hs'. by rewrite Heq in Hs' by (unfold step_open; by rewrite Hst). }
  split_and!.
  - apply Henter.
  - destruct Hck2 as (s' & j & Hs' & Hst & Hj & Ho). unfold replay_completed, op_bind at 1, get_step, op_get.
    rewrite Hrid, Hs', bool_decide_true by done. unfold op_bind, op_lift. by rewrite (decode_checkpoint s' v j).
  - unfold resume_existing, op_bind, get_step, op_get. rewrite Hrid, Hs2, Z.eqb_refl, bool_decide_true by done.
    apply Henter.
  - intros r d3. unfold begin, op_bind. destruct (define_step self' n d2) as [x d3'] eqn:Hd.
    unfold define_step in Hd. pose proof Hck2 as (s' & j & Hs' & Hst & Hj & Ho).
    apply (find_step_wf _ _ _ _ Hwf2) in Hs' as [Hin Hpk].
    destruct (add_step_keeps _ _ _ _ _ _ Hwf2 Hd Hin) as (Hwf3 & Hin3 & _).
    assert (checkpointed (dr_run_id self) sid v d3') as Hck3.
    { exists s', j. split_and!; [by apply find_step_wf|done..]. }
    destruct x as [x|e]; [|intros [= <- <-]; split; [right; by exists e|done]].
    rewrite Hn, (enter_checkpointed self' sid _ _ _ v) by (by rewrite Hrid). intros [= <- <-]. split; [by left|done].
Qed.

(** ** Executing a step *)

(** Entering a step that grants execution is a claim of it. *)
Lemma enter_executes (self : DurableRun) sid ordinal kind now d s d1 :
  enter_defined_step (T := T) self sid ordinal kind now d = (Ok (Execute s), d1) →
  claim_step (dr_run_id self) sid (dr_worker_id self) now (i64_saturating_add now (lease_for self kind)) d =
    (Ok s, d1).
Proof.
  intros He. assert (enter_open_step (T := T) self sid ordinal kind now d = (Ok (Execute s), d1)) as Ho.
  { unfold enter_defined_step, op_bind at 1, get_step, op_get in He.
    destruct (find_step _ _ _) as [s0|]; [|done]. case_bool_decide; [|done].
    by apply op_bind_ok in He as (v & d2 & _ & He). }
  clear He. unfold enter_open_step in Ho. apply op_bind_ok in Ho as (a & d2 & Ha & Ho).
  rewrite next_safe_action_eq in Ha. destruct (next_action _ _ _); [|done]. injection Ha as -> <-.
  assert (∀ s0, (if is_id sid s0 then do* claimed := claim_step (dr_run_id self) sid (dr_worker_id self) now
      (i64_saturating_add now (lease_for self kind)) in op_ret (Execute claimed)
      else op_err (not_next sid ordinal)) d = (Ok (Execute (T := T) s), d1) →
    claim_step (dr_run_id self) sid (dr_worker_id self) now (i64_saturating_add now (lease_for self kind)) d = (Ok s, d1)) as Hclaim.
  { intros s0. destruct (is_id sid s0); [|done]. intros (x & d3 & Hx & Hret)%op_bind_ok.
    unfold op_ret in Hret. by simplify_eq. }
  destruct a as [s0|s0|s0|s0|s0|s0|c| | |]; try done; [by eapply Hclaim|by eapply Hclaim|..]; destruct (is_id sid s0); try done.
  - by destruct (st_approval_id s0).
  - by apply op_bind_ok in Ho as (v & d3 & _ & Ho).
Qed.

(** The state of a step others find while its lease lasts. *)
Lemma enter_leased (self : DurableRun) rid sid owner until s ordinal kind now d :
  run_wf d → find_step rid sid d = Some s → leased_to owner until s → now < until → dr_run_id self = rid →
  enter_defined_step (T := T) self sid ordinal kind now d = (Ok (Busy (Some owner)), d).
Proof.
  intros Hwf Hs (Hst & Hown & Hexp) Hnow Hrid.
  unfold enter_defined_step, op_bind at 1, get_step, op_get. rewrite Hrid, Hs, bool_decide_false by congruence.
  unfold enter_open_step, op_bind at 1. rewrite Hrid, next_safe_action_eq. unfold next_action.
  pose proof (proj1 (find_step_wf _ _ _ _ Hwf) Hs) as [Hin Hpk]. injection Hpk as Hp1 Hp2.
  destruct (wf_step_run d Hwf s Hin) as (r & Hr & Hrid' & Hok). unfold step_run_ok in Hok. rewrite Hst in Hok.
  assert (find_run rid d = Some r) as -> by (apply find_run_wf; [done|]; split; [done|congruence]).
  cbn [fmap option_fmap option_map]. destruct Hok as [Ha Hcur]. rewrite action_active by done.
  assert (step_at (run_id r) (run_cursor r) d = Some s) as ->.
  { apply step_at_wf; [done|]. split; [done|]. unfold step_slot. congruence. }
  unfold step_action. rewrite Hst. unfold lease_ended. rewrite Hexp.
  destruct (Z.leb_spec until now); [lia|]. unfold is_id. rewrite Hp2, String.eqb_refl. by rewrite Hown.
Qed.

(** C20: A step is executed by one worker at a time.  When entering a step tells
    a worker to execute it, then until its lease ends, whatever the other
    workers do short of cancelling or failing the run: whoever enters the step
    at an earlier time is told that this worker is busy with it, nobody's
    [begin] lets it run, and the worker's own completion succeeds with any
    output that can be encoded, so that from then on everybody replays that
    output. *)
Theorem execution_exclusive self sid ordinal kind now d s d1 d2 :
  run_wf d → enter_defined_step (T := T) self sid ordinal kind now d = (Ok (Execute s), d1) →
  let until := i64_saturating_add now (lease_for self kind) in
  rtc (other_step (dr_run_id self, sid) (dr_worker_id self) until) d1 d2 →
  (∀ self' o k now', dr_run_id self' = dr_run_id self → now' < until →
     enter_defined_step (T := T) self' sid o k now' d2 = (Ok (Busy (Some (dr_worker_id self))), d2)) ∧
  (∀ self' n now', dr_run_id self' = dr_run_id self → ns_step_id n = sid → now' < until →
     ∀ s', (begin (T := T) self' n now' d2).1 ≠ Ok (Execute s')) ∧
  (∀ (v : T) j at_, to_json v = Ok j →
     ∃ s' d3, complete self sid v at_ d2 = (Ok s', d3) ∧ checkpointed (dr_run_id self) sid v d3).
Proof.
  intros Hwf He until Hothers. apply enter_executes in He. fold until in He.
  pose proof (claim_step_inv _ _ _ _ _ _ _ _ Hwf He) as (Hwf1 & Hs1 & Hl).
  pose proof (proj1 (find_step_wf _ _ _ _ Hwf1) Hs1) as [Hin1 Hpk1].
  destruct (other_steps_keep _ _ _ _ _ _ Hwf1 Hothers Hin1 Hpk1 Hl) as [Hwf2 Hin2].
  assert (find_step (dr_run_id self) sid d2 = Some s) as Hs2 by (by apply find_step_wf).
  split_and!.
  - intros self' o k now' Hrid Hnow. by eapply enter_leased.
  - intros self' n now' Hrid Hn Hnow s'. unfold begin, op_bind. destruct (define_step self' n d2) as [x d3] eqn:Hd.
    unfold define_step in Hd. rewrite Hrid in Hd.
    destruct (add_step_keeps _ _ _ _ _ _ Hwf2 Hd Hin2) as (Hwf3 & Hin3 & _).
    destruct x as [x|e]; [|done]. rewrite Hn.
    rewrite (enter_leased self' (dr_run_id self) sid (dr_worker_id self) until s); try done.
    by apply find_step_wf.
  - intros v j at_ Hj.
    assert (∃ d3, complete_step (dr_run_id self) sid (dr_worker_id self) (Some (OUTPUT_PREFIX +:+ j)) at_ d2 =
      (Ok (closed StepCompleted (Some (OUTPUT_PREFIX +:+ j)) at_ s), d3)) as (d3 & Hd3)
      by (by apply (holder_completes _ _ _ until s)).
    assert (complete self sid v at_ d2 = (Ok (closed StepCompleted (Some (OUTPUT_PREFIX +:+ j)) at_ s), d3)) as Hc
      by (unfold complete; by rewrite Hj).
    eexists _, d3. split; [exact Hc|]. by eapply complete_checkpoints.
Qed.

(** A lost worker's step is taken over.  A step at the cursor of an active
    run that is pending, or whose lease has ended because its worker died, is
    given to the next worker that enters it with a clock that has not run
    backwards: it is told to execute the step, and holds it under a fresh lease
    of its own, with the attempt counted. *)
Theorem lost_step_resumed self sid ordinal kind now d r s :
  run_wf d → find_run (dr_run_id self) d = Some r → run_active r = true →
  step_at (dr_run_id self) (run_cursor r) d = Some s → st_step_id s = sid →
  st_status s = StepPending ∨ (st_status s = StepRunning ∧ lease_ended now s = true) →
  clock_ok (dr_run_id self) now d → 1 ≤ lease_for self kind → in_i64 (now + lease_for self kind) →
  let s' := claimed (dr_worker_id self) now (now + lease_for self kind) s in
  ∃ d', enter_defined_step (T := T) self sid ordinal kind now d = (Ok (Execute s'), d') ∧
    find_step (dr_run_id self) sid d' = Some s' ∧ st_attempt s' = st_attempt s + 1.
Proof.
  intros Hwf Hr Ha Hat Hsid Hst Hclk Hlease Hi s'. pose proof (run_of_id _ _ _ Hr) as Hid.
  assert (claims (action_of now r d) s) as Hc by (apply claims_step_at; by rewrite Hid).
  assert (i64_saturating_add now (lease_for self kind) = now + lease_for self kind) as Hsat by int_lia.
  destruct (claim_now (dr_run_id self) (dr_worker_id self) now (now + lease_for self kind) d r s)
    as (d' & Hclaim & _); [done..|lia|done|].
  rewrite Hsid in Hclaim. exists d'. split; [|split; [|done]].
  - pose proof (proj1 (step_at_wf _ _ _ _ Hwf) Hat) as [Hin Hslot]. injection Hslot as Hrs Hos.
    assert (find_step (dr_run_id self) sid d = Some s) as Hf.
    { apply find_step_wf; [done|]. split; [done|]. unfold step_pk. congruence. }
    unfold enter_defined_step, op_bind at 1, get_step, op_get. rewrite Hf.
    rewrite bool_decide_false by (destruct Hst as [Hst|[Hst _]]; congruence).
    unfold enter_open_step, op_bind at 1. rewrite next_safe_action_eq. unfold next_action. rewrite Hr.
    cbn [fmap option_fmap option_map]. destruct Hc as [-> | ->]; unfold is_id; rewrite Hsid, String.eqb_refl, Hsat;
      unfold op_bind; by rewrite Hclaim.
  - by destruct (claim_step_inv _ _ _ _ _ _ _ _ Hwf Hclaim) as (_ & ? & _).
Qed.
End Protocol.

(** ** A concrete run *)

#[global] Instance toy_codec : StepCodec bool.
Proof.
  refine {| to_json := λ b : bool, Ok (if b then "true" else "false");
            from_json := λ j, if String.eqb j "true" then Ok true
                              else if String.eqb j "false" then Ok false else Err "expected a boolean" |}.
  by intros [] j [= <-].
Defined.

Definition toy_durable (worker : string) : DurableRun := mkDurable "r" worker 90 90.

Definition toy_entered : Db := (enter_defined_step (T := bool) (toy_durable "w1") "s0" 0 ToolDispatch 110 toy_steps_db).2.
Definition toy_completed : Db := (complete (toy_durable "w1") "s0" true 120 toy_entered).2.
Definition toy_checkpoint : RunStepRecord := closed StepCompleted (Some "json:true") 120 toy_claimed.

Lemma toy_enters :
  enter_defined_step (T := bool) (toy_durable "w1") "s0" 0 ToolDispatch 110 toy_steps_db =
    (Ok (Execute toy_claimed), toy_entered).
Proof. by vm_compute. Qed.

Lemma toy_entered_wf : run_wf toy_entered.
Proof. exact toy_claim_wf. Qed.

Lemma toy_completes : complete (toy_durable "w1") "s0" true 120 toy_entered = (Ok toy_checkpoint, toy_completed).
Proof. by vm_compute. Qed.

Lemma execution_exclusive_witness :
  enter_defined_step (T := bool) (toy_durable "w2") "s0" 0 ToolDispatch 150 toy_entered =
    (Ok (Busy (Some "w1")), toy_entered).
Proof.
  destruct (execution_exclusive (T := bool) (toy_durable "w1") "s0" 0 ToolDispatch 110 toy_steps_db toy_claimed
    toy_entered toy_entered toy_steps_wf toy_enters (rtc_refl _ _)) as (H & _).
  apply H; [reflexivity|vm_compute; reflexivity].
Defined.

(** The output survives the cancellation of the run. *)
Lemma checkpoint_replayed_witness :
  enter_defined_step (T := bool) (toy_durable "w2") "s0" 0 ToolDispatch 500 (cancel_run "r" 130 toy_completed).2 =
    (Ok (Replay true), (cancel_run "r" 130 toy_completed).2).
Proof.
  destruct (checkpoint_replayed (toy_durable "w1") (toy_durable "w2") "s0" true 120 toy_entered toy_checkpoint
    toy_completed (cancel_run "r" 130 toy_completed).2 (toy_step "s0" 0) 500 toy_entered_wf toy_completes) as (H & _).
  - apply rtc_once, (call_step (cancel_run "r" 130)), sc_cancel.
  - reflexivity.
  - reflexivity.
  - exact H.
Defined.

(** The first worker is lost; at 200 its lease ends. *)
Lemma lost_step_resumed_witness :
  ∃ d', enter_defined_step (T := bool) (toy_durable "w2") "s0" 0 ToolDispatch 200 toy_entered =
    (Ok (Execute (claimed "w2" 200 290 toy_claimed)), d').
Proof.
  destruct (lost_step_resumed (T := bool) (toy_durable "w2") "s0" 0 ToolDispatch 200 toy_entered
    (run_to RunRunning 110 (new_run_row "r" toy_new_run)) toy_claimed) as (d' & H & _).
  - exact toy_entered_wf.
  - vm_compute. reflexivity.
  - reflexivity.
  - vm_compute. reflexivity.
  - reflexivity.
  - right. split; reflexivity.
  - split; [lia|vm_compute; exact I].
  - vm_compute. discriminate.
  - split; vm_compute; discriminate.
  - exists d'. exact H.
Defined.
