(* ===== verification/ChatRequests.v ===== *)
(** * Chat request reservations

    [crates/core/src/chat_requests.rs] over [state_chat_request_keys]
    (migration 0041): the durable idempotency keys of chat turns submitted by
    callers.  Times are seconds; [now] is the clock reading of the call. *)

From Stdlib Require Import Strings.Ascii.
From stdpp Require Import sorting relations.
From S2P Require Import Prelude Wire Text RunSchema Schema RunBase ServiceBase.

Definition PENDING_REQUEST_STALE_AFTER_SECS : Z := 300.

(** ** Data *)

(** The check on [status] admits the texts of these three. *)
Inductive ChatStatus : Type := ChatPending | ChatCompleted | ChatUnknown.

#[global] Instance ChatStatus_eq_dec : EqDecision ChatStatus.
Proof. solve_decision. Defined.

Record ChatRow : Type := mkChatRow {
  cr_body_hash : string;
  cr_run_id : string;
  cr_status : ChatStatus;
  cr_response_status : option Z;
  cr_response_json : option string;
  cr_outcome_detail : option string;
  cr_created_at : Z;
  cr_updated_at : Z
}.

#[global] Instance ChatRow_eq_dec : EqDecision ChatRow.
Proof. solve_decision. Defined.

(** Primary key [(principal_id, conversation_id, client_request_id)]. *)
Definition ChatKey : Type := string * string * string.

Inductive ChatRequestState : Type :=
| Reserved (run_id : string)
| InProgress (run_id : string)
| ReplayResponse (run_id : string) (status_code : Z) (response_json : string)
| UnknownOutcome (run_id : string) (detail : option string).

#[global] Instance ChatRequestState_eq_dec : EqDecision ChatRequestState.
Proof. solve_decision. Defined.

Record UnresolvedChatRequest : Type := mkUnresolved {
  ur_key : ChatKey;
  ur_run_id : string;
  ur_pending : bool
}.

(** [CHECK ((status = 'completed') = (response_status IS NOT NULL AND
    response_json IS NOT NULL))] and [CHECK (length(body_hash) = 64)] *)
Definition chat_check (r : ChatRow) : bool :=
  Bool.eqb (bool_decide (cr_status r = ChatCompleted))
    (bool_decide (is_Some (cr_response_status r)) && bool_decide (is_Some (cr_response_json r)))
  && (sql_length (cr_body_hash r) =? 64).

(** [UPDATE .. WHERE] the key [AND] a condition; the result is the number of
    rows. *)
Definition update_request (k : ChatKey) (p : ChatRow → bool) (f : ChatRow → ChatRow) : tx (gmap ChatKey ChatRow) Z := λ d,
  match d !! k with
  | Some r => if p r then if chat_check (f r) then Ok (1, <[k := f r]> d) else Err check_failed
              else Ok (0, d)
  | None => Ok (0, d)
  end.

(** ** Validation *)

Definition is_graphic (c : Ascii.ascii) : bool := (33 <=? code c) && (code c <=? 126).
(** [is_ascii_hexdigit() && !is_ascii_uppercase()] *)
Definition is_lower_hex (c : Ascii.ascii) : bool :=
  is_ascii_digit c || ((97 <=? code c) && (code c <=? 102)).

Definition validate_scope (k : ChatKey) (body_hash run_id : string) : result DbError () :=
  let '(principal_id, conversation_id, request_id) := k in
  if blank principal_id || (128 <? str_len principal_id)
     || blank conversation_id || (128 <? str_len conversation_id)
     || blank request_id || (128 <? str_len request_id) || negb (bytes_all is_graphic request_id)
     || blank run_id || (160 <? str_len run_id)
     || negb (str_len body_hash =? 64) || negb (bytes_all is_lower_hex body_hash)
  then Err (Invariant "invalid chat request idempotency scope")
  else Ok ().

(** ** Operations *)

Definition stale_detail : string := "pending request lease expired; outcome requires reconciliation".

Definition set_unknown (detail : option string) (now : Z) (r : ChatRow) : ChatRow :=
  mkChatRow (cr_body_hash r) (cr_run_id r) ChatUnknown (cr_response_status r) (cr_response_json r)
    detail (cr_created_at r) now.

Definition is_pending (r : ChatRow) : bool := bool_decide (cr_status r = ChatPending).

(** [INSERT OR IGNORE] *)
Definition insert_request (k : ChatKey) (body_hash run_id : string) (now : Z) : tx (gmap ChatKey ChatRow) Z := λ d,
  let r := mkChatRow body_hash run_id ChatPending None None None now now in
  match d !! k with
  | Some _ => Ok (0, d)
  | None => if chat_check r then Ok (1, <[k := r]> d) else Ok (0, d)
  end.

(** [now.saturating_sub(updated_at) >= PENDING_REQUEST_STALE_AFTER_SECS] *)
Definition stale (now : Z) (r : ChatRow) : bool :=
  PENDING_REQUEST_STALE_AFTER_SECS <=? Z.max i64_min (Z.min i64_max (now - cr_updated_at r)).

Definition reserve_tx (k : ChatKey) (body_hash run_id : string) (now : Z) : tx (gmap ChatKey ChatRow) ChatRequestState :=
  let* inserted := insert_request k body_hash run_id now in
  let* d := tx_get in
  match d !! k with
  | None => tx_err no_rows
  | Some stored =>
      if negb (String.eqb (cr_body_hash stored) body_hash)
      then tx_err (Invariant "client request id was reused with a different body")
      else match cr_status stored with
      | ChatPending =>
          if inserted =? 1 then tx_ret (Reserved (cr_run_id stored))
          else if stale now stored then
            let* _ := update_request k is_pending (set_unknown (Some stale_detail) now) in
            tx_ret (UnknownOutcome (cr_run_id stored) (Some stale_detail))
          else tx_ret (InProgress (cr_run_id stored))
      | ChatCompleted =>
          let status := default 0 (cr_response_status stored) in
          if negb ((0 <=? status) && (status <=? 65535))
          then tx_err (Invariant "saved HTTP status is out of range")
          else match cr_response_json stored with
               | None => tx_err (Invariant "completed request has no saved response")
               | Some json => tx_ret (ReplayResponse (cr_run_id stored) status json)
               end
      | ChatUnknown => tx_ret (UnknownOutcome (cr_run_id stored) (cr_outcome_detail stored))
      end
  end.

Definition reserve (k : ChatKey) (body_hash run_id : string) (now : Z) : act (gmap ChatKey ChatRow) DbError ChatRequestState :=
  let! _ := act_lift (validate_scope k body_hash run_id) in
  act_tx (reserve_tx k body_hash run_id now).

(** The rows [in_progress_run_for_body] may return: pending rows of the body
    updated since, the latest first; SQLite picks one of the latest. *)
Definition live_for_body (principal_id conversation_id body_hash : string) (updated_since : Z)
    (kr : ChatKey * ChatRow) : Prop :=
  kr.1.1 = (principal_id, conversation_id) ∧ cr_body_hash kr.2 = body_hash ∧
  cr_status kr.2 = ChatPending ∧ updated_since ≤ cr_updated_at kr.2.

Definition in_progress_run_for_body (principal_id conversation_id body_hash : string) (updated_since : Z)
    (d : gmap ChatKey ChatRow) (found : option string) : Prop :=
  match found with
  | None => ∀ k r, d !! k = Some r → ¬ live_for_body principal_id conversation_id body_hash updated_since (k, r)
  | Some run_id => ∃ k r, d !! k = Some r ∧ cr_run_id r = run_id ∧
      live_for_body principal_id conversation_id body_hash updated_since (k, r) ∧
      ∀ k' r', d !! k' = Some r' → live_for_body principal_id conversation_id body_hash updated_since (k', r') →
        cr_updated_at r' ≤ cr_updated_at r
  end.

Definition invalid_response (status_code : Z) (response_json : string) : bool :=
  (2 * 1024 * 1024 <? str_len response_json) || negb ((200 <=? status_code) && (status_code <=? 599)).

Definition not_pending : DbError := Invariant "chat request is not pending".

Definition set_completed (run_id : string) (status_code : Z) (response_json : string) (now : Z) (r : ChatRow) : ChatRow :=
  mkChatRow (cr_body_hash r) run_id ChatCompleted (Some status_code) (Some response_json) None
    (cr_created_at r) now.

Definition complete (k : ChatKey) (run_id : string) (status_code : Z) (response_json : string) (now : Z) :
    act (gmap ChatKey ChatRow) DbError () :=
  if invalid_response status_code response_json then act_err (Invariant "invalid saved chat response")
  else
    let! changed := act_tx (update_request k is_pending (set_completed run_id status_code response_json now)) in
    act_guard (changed =? 1) not_pending.

Definition touch (now : Z) (r : ChatRow) : ChatRow :=
  mkChatRow (cr_body_hash r) (cr_run_id r) (cr_status r) (cr_response_status r) (cr_response_json r)
    (cr_outcome_detail r) (cr_created_at r) now.

Definition heartbeat (k : ChatKey) (now : Z) : act (gmap ChatKey ChatRow) DbError bool :=
  let! changed := act_tx (update_request k is_pending (touch now)) in act_ret (changed =? 1).

Definition set_run (run_id : string) (now : Z) (r : ChatRow) : ChatRow :=
  mkChatRow (cr_body_hash r) run_id (cr_status r) (cr_response_status r) (cr_response_json r)
    (cr_outcome_detail r) (cr_created_at r) now.

(** An update, and when it matched nothing a query of its own. *)
Definition bind_execution_run (k : ChatKey) (reserved_run_id execution_run_id : string) (now : Z) :
    act (gmap ChatKey ChatRow) DbError () :=
  let! changed := act_tx (update_request k
    (λ r, is_pending r && String.eqb (cr_run_id r) reserved_run_id) (set_run execution_run_id now)) in
  if changed =? 1 then act_ret ()
  else
    let! stored := act_tx (λ d, match d !! k with
                                | Some r => if is_pending r then Ok (cr_run_id r, d) else Err no_rows
                                | None => Err no_rows
                                end) in
    act_guard (String.eqb stored execution_run_id)
      (Invariant "chat request reservation could not bind execution run").

Definition is_unknown_of (run_id : string) (r : ChatRow) : bool :=
  String.eqb (cr_run_id r) run_id && bool_decide (cr_status r = ChatUnknown).

Definition set_reopened (run_id : string) (now : Z) (r : ChatRow) : ChatRow :=
  mkChatRow (cr_body_hash r) run_id ChatPending (cr_response_status r) (cr_response_json r) None
    (cr_created_at r) now.

Definition reopen_unknown_for_recovery (k : ChatKey) (previous_run_id execution_run_id : string) (now : Z) :
    act (gmap ChatKey ChatRow) DbError () :=
  let! changed := act_tx (update_request k (is_unknown_of previous_run_id) (set_reopened execution_run_id now)) in
  act_guard (changed =? 1) (Invariant "chat request is not an unknown recovery candidate").

Definition mark_unknown (k : ChatKey) (detail : option string) (now : Z) : act (gmap ChatKey ChatRow) DbError () :=
  if match detail with Some v => 512 <? str_len v | None => false end
  then act_err (Invariant "outcome detail exceeds 512 bytes")
  else
    let! changed := act_tx (update_request k is_pending (set_unknown detail now)) in
    act_guard (changed =? 1) not_pending.

(** [ORDER BY created_at, principal_id, conversation_id, client_request_id] *)
Definition key_le (a b : ChatKey) : Prop :=
  String.leb a.1.1 b.1.1 = true ∧
  (a.1.1 = b.1.1 → String.leb a.1.2 b.1.2 = true ∧ (a.1.2 = b.1.2 → String.leb a.2 b.2 = true)).
Definition request_le (a b : ChatKey * ChatRow) : Prop :=
  cr_created_at a.2 < cr_created_at b.2 ∨ (cr_created_at a.2 = cr_created_at b.2 ∧ key_le a.1 b.1).
#[global] Instance request_le_dec a b : Decision (request_le a b).
Proof. unfold request_le, key_le. apply _. Defined.

Definition is_unresolved (r : ChatRow) : bool :=
  match cr_status r with ChatPending | ChatUnknown => true | ChatCompleted => false end.

(** [limit.clamp(1, 1_000)] *)
Definition list_unresolved (limit : nat) (d : gmap ChatKey ChatRow) : list UnresolvedChatRequest :=
  map (λ kr, mkUnresolved kr.1 (cr_run_id kr.2) (is_pending kr.2))
    (take (Nat.max 1 (Nat.min 1000 limit))
       (merge_sort request_le (List.filter (λ kr, is_unresolved kr.2) (map_to_list d)))).

Definition complete_reconciled (q : UnresolvedChatRequest) (status_code : Z) (response_json : string) (now : Z) :
    act (gmap ChatKey ChatRow) DbError () :=
  if invalid_response status_code response_json then act_err (Invariant "invalid reconciled chat response")
  else
    let! changed := act_tx (update_request (ur_key q)
      (λ r, String.eqb (cr_run_id r) (ur_run_id q) && is_unresolved r)
      (set_completed (ur_run_id q) status_code response_json now)) in
    if changed =? 1 then act_ret ()
    else
      let! stored := act_get (λ d, d !! ur_key q) in
      act_guard
        match stored with
        | Some r => bool_decide (cr_status r = ChatCompleted) && String.eqb (cr_run_id r) (ur_run_id q)
                    && bool_decide (cr_response_status r = Some status_code)
                    && bool_decide (cr_response_json r = Some response_json)
        | None => false
        end
        (Invariant "chat request changed while its completed run was reconciled").

(** ** Histories of calls *)

Inductive ChatCall : Type :=
| CallReserve (k : ChatKey) (body_hash run_id : string) (now : Z)
| CallComplete (k : ChatKey) (run_id : string) (status_code : Z) (response_json : string) (now : Z)
| CallHeartbeat (k : ChatKey) (now : Z)
| CallBind (k : ChatKey) (reserved_run_id execution_run_id : string) (now : Z)
| CallReopen (k : ChatKey) (previous_run_id execution_run_id : string) (now : Z)
| CallMarkUnknown (k : ChatKey) (detail : option string) (now : Z)
| CallReconcile (q : UnresolvedChatRequest) (status_code : Z) (response_json : string) (now : Z).

Definition chat_call (c : ChatCall) (d : gmap ChatKey ChatRow) : gmap ChatKey ChatRow :=
  match c with
  | CallReserve k body_hash run_id now => (reserve k body_hash run_id now d).2
  | CallComplete k run_id status_code json now => (complete k run_id status_code json now d).2
  | CallHeartbeat k now => (heartbeat k now d).2
  | CallBind k reserved execution now => (bind_execution_run k reserved execution now d).2
  | CallReopen k previous execution now => (reopen_unknown_for_recovery k previous execution now d).2
  | CallMarkUnknown k detail now => (mark_unknown k detail now d).2
  | CallReconcile q status_code json now => (complete_reconciled q status_code json now d).2
  end.

Fixpoint chat_calls (l : list ChatCall) (d : gmap ChatKey ChatRow) : gmap ChatKey ChatRow :=
  match l with [] => d | c :: l => chat_calls l (chat_call c d) end.

(** The call made its caller the owner of a new run for [k]. *)
Definition granted (k : ChatKey) (c : ChatCall) (d : gmap ChatKey ChatRow) : bool :=
  match c with
  | CallReserve k' body_hash run_id now =>
      bool_decide (k' = k) && match (reserve k' body_hash run_id now d).1 with Ok (Reserved _) => true | _ => false end
  | _ => false
  end.

Fixpoint grants (k : ChatKey) (l : list ChatCall) (d : gmap ChatKey ChatRow) : Z :=
  match l with [] => 0 | c :: l => Z.b2z (granted k c d) + grants k l (chat_call c d) end.

(** How a call may change a row. *)
Definition row_step (r r' : ChatRow) : Prop :=
  cr_body_hash r' = cr_body_hash r ∧ cr_created_at r' = cr_created_at r ∧
  match cr_status r with
  | ChatCompleted => r' = r
  | ChatPending => True
  | ChatUnknown => cr_status r' = ChatUnknown → r' = r
  end.

Definition table_step (d d' : gmap ChatKey ChatRow) : Prop :=
  ∀ k r, d !! k = Some r → ∃ r', d' !! k = Some r' ∧ row_step r r'.

Lemma row_step_refl r : row_step r r.
Proof. unfold row_step. by destruct (cr_status r). Qed.

Lemma table_step_refl d : table_step d d.
Proof. intros k r Hr. exists r. split; [done|apply row_step_refl]. Qed.

Lemma is_pending_true r : is_pending r = true ↔ cr_status r = ChatPending.
Proof. apply bool_decide_eq_true. Qed.

Lemma pending_step f :
  (∀ r, cr_body_hash (f r) = cr_body_hash r ∧ cr_created_at (f r) = cr_created_at r) →
  ∀ r, is_pending r = true → row_step r (f r).
Proof. intros Hf r Hp%is_pending_true. destruct (Hf r) as [Hb Hc]. split_and!; [done..|]. by rewrite Hp. Qed.

(** A reservation, case by case. *)
Lemma reserve_tx_eq k body_hash run_id now d :
  let fresh := mkChatRow body_hash run_id ChatPending None None None now now in
  reserve_tx k body_hash run_id now d =
    match d !! k with
    | None => if chat_check fresh then Ok (Reserved run_id, <[k := fresh]> d) else Err no_rows
    | Some stored =>
        if negb (String.eqb (cr_body_hash stored) body_hash)
        then Err (Invariant "client request id was reused with a different body")
        else match cr_status stored with
        | ChatPending =>
            if stale now stored then
              if chat_check (set_unknown (Some stale_detail) now stored)
              then Ok (UnknownOutcome (cr_run_id stored) (Some stale_detail),
                       <[k := set_unknown (Some stale_detail) now stored]> d)
              else Err check_failed
            else Ok (InProgress (cr_run_id stored), d)
        | ChatCompleted =>
            let status := default 0 (cr_response_status stored) in
            if negb ((0 <=? status) && (status <=? 65535))
            then Err (Invariant "saved HTTP status is out of range")
            else match cr_response_json stored with
                 | None => Err (Invariant "completed request has no saved response")
                 | Some json => Ok (ReplayResponse (cr_run_id stored) status json, d)
                 end
        | ChatUnknown => Ok (UnknownOutcome (cr_run_id stored) (cr_outcome_detail stored), d)
        end
    end.
Proof.
  intros fresh. unfold reserve_tx, insert_request, update_request, tx_bind, tx_get. fold fresh.
  destruct (d !! k) as [r|] eqn:Hr.
  - rewrite Hr. destruct (negb _); [done|]. destruct (cr_status r) eqn:Hs; [|by repeat case_match|done].
    change (0 =? 1) with false. destruct (stale now r); [|done].
    rewrite Hr. assert (is_pending r = true) as -> by (unfold is_pending; by rewrite Hs). by destruct (chat_check _).
  - destruct (chat_check fresh); [|by rewrite Hr]. rewrite lookup_insert_eq. cbn [cr_body_hash fresh].
    by rewrite String.eqb_refl.
Qed.

(** What a reservation does to the table. *)
Lemma chat_reserve_cases k body_hash run_id now d :
  match reserve k body_hash run_id now d with
  | (Ok (Reserved run'), d') => d !! k = None ∧ run' = run_id ∧
      d' = <[k := mkChatRow body_hash run_id ChatPending None None None now now]> d
  | (_, d') => d' = d ∨ ∃ r, d !! k = Some r ∧ cr_status r = ChatPending ∧
      d' = <[k := set_unknown (Some stale_detail) now r]> d
  end.
Proof.
  unfold reserve, act_bind, act_lift. destruct (validate_scope k body_hash run_id); [|by left].
  unfold act_tx, transaction. rewrite reserve_tx_eq. cbv zeta. destruct (d !! k) as [r|] eqn:Hr.
  - destruct (negb _); [by left|]. destruct (cr_status r) eqn:Hs.
    + destruct (stale now r); [|by left]. destruct (chat_check _); [|by left]. right. by exists r.
    + destruct (negb _); [by left|]. destruct (cr_response_json r); by left.
    + by left.
  - destruct (chat_check _); [done|by left].
Qed.

Lemma insert_row_step k r r' d : d !! k = Some r → row_step r r' → table_step d (<[k := r']> d).
Proof.
  intros Hr Hs k1 r1 Hr1. destruct (decide (k = k1)) as [<-|Hk].
  - rewrite lookup_insert_eq. exists r'. split; [done|]. by simplify_eq.
  - rewrite lookup_insert_ne by done. exists r1. split; [done|apply row_step_refl].
Qed.

Lemma insert_fresh_step k r d : d !! k = None → table_step d (<[k := r]> d).
Proof.
  intros Hn k1 r1 Hr1. rewrite lookup_insert_ne by congruence. exists r1. split; [done|apply row_step_refl].
Qed.

(** Every update of a row is a step when the rows it matches are. *)
Lemma update_request_step k p f d :
  (∀ r, p r = true → row_step r (f r)) → table_step d (transaction (update_request k p f) d).2.
Proof.
  intros Hf. unfold transaction, update_request. destruct (d !! k) as [r|] eqn:Hr; [|apply table_step_refl].
  destruct (p r) eqn:Hp; [|apply table_step_refl]. destruct (chat_check (f r)); [|apply table_step_refl].
  eapply insert_row_step; [done|by apply Hf].
Qed.

Lemma reserve_step k body_hash run_id now d : table_step d (reserve k body_hash run_id now d).2.
Proof.
  pose proof (chat_reserve_cases k body_hash run_id now d) as Hc.
  assert (∀ d', (d' = d ∨ ∃ r, d !! k = Some r ∧ cr_status r = ChatPending ∧
      d' = <[k := set_unknown (Some stale_detail) now r]> d) → table_step d d') as Hother.
  { intros d' [->|(r & Hr & Hs & ->)]; [apply table_step_refl|]. eapply insert_row_step; [done|].
    split; [done|]. split; [done|]. by rewrite Hs. }
  destruct (reserve k body_hash run_id now d) as [[[x| | |]|e] d']; cbn [snd]; [|by apply Hother..].
  destruct Hc as (Hn & _ & ->). by apply insert_fresh_step.
Qed.

(** An operation that begins with an update and then only reads. *)
Lemma update_then_step {A} (k : ChatKey) (p : ChatRow → bool) (f : ChatRow → ChatRow) (m : Z → act (gmap ChatKey ChatRow) DbError A) d :
  (∀ r, p r = true → row_step r (f r)) → (∀ n d, (m n d).2 = d) →
  table_step d (act_bind (act_tx (update_request k p f)) m d).2.
Proof.
  intros Hf Hm. pose proof (update_request_step k p f d Hf) as Hstep. unfold act_bind, act_tx.
  destruct (transaction (update_request k p f) d) as [[n|e] d1]; [|done]. by rewrite Hm.
Qed.

Lemma guard_keeps (b : bool) (e : DbError) (d : gmap ChatKey ChatRow) : (act_guard b e d : result DbError () * gmap ChatKey ChatRow).2 = d.
Proof. by destruct b. Qed.

Lemma chat_call_step c d : table_step d (chat_call c d).
Proof.
  destruct c as [k h run now|k run st js now|k now|k rr er now|k pr er now|k dt now|q st js now]; cbn [chat_call].
  - apply reserve_step.
  - unfold complete. destruct (invalid_response _ _); [apply table_step_refl|].
    apply update_then_step; [by apply pending_step|]. intros n d0. apply guard_keeps.
  - apply update_then_step; [by apply pending_step|done].
  - apply update_then_step; [intros r [Hp _]%andb_true_iff; by apply (pending_step (set_run er now))|].
    intros n d0. destruct (n =? 1); [done|]. unfold act_bind, act_tx, transaction.
    destruct (d0 !! k) as [r|]; [destruct (is_pending r)|]; [|done..]. apply guard_keeps.
  - apply update_then_step; [|intros n d0; apply guard_keeps]. intros r [_ Hs%bool_decide_eq_true]%andb_true_iff.
    split_and!; [done..|]. by rewrite Hs.
  - unfold mark_unknown. destruct (match dt with Some v => _ | None => _ end); [apply table_step_refl|].
    apply update_then_step; [by apply pending_step|]. intros n d0. apply guard_keeps.
  - unfold complete_reconciled. destruct (invalid_response _ _); [apply table_step_refl|].
    apply update_then_step.
    + intros r [_ Hu]%andb_true_iff. unfold is_unresolved in Hu. split_and!; [done..|]. by destruct (cr_status r).
    + intros n d0. destruct (n =? 1); [done|]. unfold act_bind, act_get. apply guard_keeps.
Qed.

Lemma chat_calls_keep l d k r :
  d !! k = Some r → ∃ r', chat_calls l d !! k = Some r' ∧ cr_body_hash r' = cr_body_hash r ∧
    (cr_status r = ChatCompleted → r' = r).
Proof.
  revert d r. induction l as [|c l IH]; intros d r Hr; cbn; [by exists r|].
  destruct (chat_call_step c d k r Hr) as (r1 & Hr1 & Hb & _ & Hs). destruct (IH _ _ Hr1) as (r2 & Hr2 & Hb2 & Hs2).
  exists r2. split; [done|]. split; [congruence|]. intros Hc. rewrite Hc in Hs. subst r1. by apply Hs2.
Qed.

(** What a grant means. *)
Lemma granted_fresh k c d : granted k c d = true → d !! k = None ∧ is_Some (chat_call c d !! k).
Proof.
  destruct c as [k' h run now| | | | | |]; cbn [granted]; [|discriminate..].
  cbn [chat_call]. intros [->%bool_decide_eq_true Hg]%andb_true_iff.
  pose proof (chat_reserve_cases k h run now d) as Hc.
  destruct (reserve k h run now d) as [[[x| | |]|e] d']; [|discriminate Hg..]. cbn [snd].
  destruct Hc as (Hn & _ & ->). split; [done|]. rewrite lookup_insert_eq. by eexists.
Qed.

(** What a successful completion did. *)
Lemma update_request_one k p f n d d' :
  update_request k p f d = Ok (n, d') →
  (n = 1 ∧ ∃ r, d !! k = Some r ∧ p r = true ∧ d' = <[k := f r]> d) ∨ (n = 0 ∧ d' = d).
Proof.
  unfold update_request. destruct (d !! k) as [r|]; [|by intros [= <- <-]; right].
  destruct (p r) eqn:Hp; [|by intros [= <- <-]; right]. destruct (chat_check _); [|done].
  intros [= <- <-]. left. split; [done|]. by exists r.
Qed.

Lemma complete_saved k run status json now d d' :
  complete k run status json now d = (Ok (), d') →
  200 ≤ status ≤ 599 ∧ ∃ r, d !! k = Some r ∧ cr_status r = ChatPending ∧
    d' = <[k := set_completed run status json now r]> d.
Proof.
  unfold complete, invalid_response. destruct (_ || _) eqn:Hinv; [done|].
  apply orb_false_iff in Hinv as [_ [H1%Z.leb_le H2%Z.leb_le]%negb_false_iff%andb_true_iff].
  intros (n & d1 & Hu%act_tx_ok & Hg)%act_bind_ok. split; [done|].
  destruct (update_request_one _ _ _ _ _ _ Hu) as [(-> & r & Hr & Hp%is_pending_true & ->)|[-> ->]]; [|done].
  injection Hg as <-. by exists r.
Qed.

(** C39: A chat request is granted at most once, and answered consistently ever
    after.  Whatever calls are made on the table, by any callers in any order:
    a key that was not there makes at most one caller the owner of a new run,
    and a key that is there never does; it stays bound to the body it was
    created with, so any other body is refused; and once its owner's
    [complete] has succeeded, every later reservation with that body replays
    exactly the saved run, status code and response and changes nothing. *)
Theorem chat_request_once k l d :
  grants k l d ≤ (match d !! k with Some _ => 0 | None => 1 end) ∧
  (∀ r body run now, d !! k = Some r → cr_body_hash r ≠ body → validate_scope k body run = Ok () →
     (reserve k body run now (chat_calls l d)).1 = Err (Invariant "client request id was reused with a different body")) ∧
  (∀ d0 body run status json t run' now,
     complete k run status json t d0 = (Ok (), d) → cr_body_hash <$> d0 !! k = Some body →
     validate_scope k body run' = Ok () →
     reserve k body run' now (chat_calls l d) = (Ok (ReplayResponse run status json), chat_calls l d)).
Proof.
  split_and!.
  - revert d. induction l as [|c l IH]; intros d; cbn; [by destruct (d !! k)|].
    specialize (IH (chat_call c d)). destruct (granted k c d) eqn:Hg.
    + destruct (granted_fresh k c d Hg) as [Hn [r Hr]]. rewrite Hr in IH. rewrite Hn. cbn. lia.
    + destruct (d !! k) as [r|] eqn:Hr; [|destruct (chat_call c d !! k); cbn; lia].
      destruct (chat_call_step c d k r Hr) as (r1 & Hr1 & _). rewrite Hr1 in IH. cbn. lia.
  - intros r body run now Hr Hb Hv. destruct (chat_calls_keep l d k r Hr) as (r' & Hr' & Hb' & _).
    unfold reserve, act_bind, act_lift, act_tx, transaction. rewrite Hv, reserve_tx_eq. cbv zeta. rewrite Hr'.
    destruct (String.eqb_spec (cr_body_hash r') body); [congruence|]. done.
  - intros d0 body run status json t run' now (Hst & r & Hr & _ & ->)%complete_saved Hb Hv.
    rewrite Hr in Hb. injection Hb as Hb. set (r1 := set_completed run status json t r).
    destruct (chat_calls_keep l (<[k := r1]> d0) k r1) as (r' & Hr' & _ & Heq); [apply lookup_insert_eq|].
    rewrite (Heq eq_refl) in Hr'.
    unfold reserve, act_bind, act_lift, act_tx, transaction. rewrite Hv, reserve_tx_eq. cbv zeta.
    rewrite Hr'. cbn [r1 set_completed cr_body_hash cr_status cr_response_status cr_response_json cr_run_id].
    rewrite Hb, String.eqb_refl. cbn [negb default from_option id].
    by rewrite (proj2 (Z.leb_le 0 status)), (proj2 (Z.leb_le status 65535)) by lia.
Qed.

(** ** A concrete request *)

Definition toy_key : ChatKey := ("alice", "c", "req-1").
Definition toy_body : string := "aaaaaaaaaaaaaaaaaaaaaaaaaaaaaaaaaaaaaaaaaaaaaaaaaaaaaaaaaaaaaaaa".
Definition reserved_table : gmap ChatKey ChatRow := (reserve toy_key toy_body "request:x" 100 ∅).2.
Definition completed_table : gmap ChatKey ChatRow :=
  (complete toy_key "turn:c:1" 200 "{}" 110 reserved_table).2.

(** A retry with the same body, after another caller meddled. *)
Lemma chat_request_once_witness :
  let l := [CallMarkUnknown toy_key None 120; CallReserve toy_key toy_body "request:y" 500] in
  complete toy_key "turn:c:1" 200 "{}" 110 reserved_table = (Ok (), completed_table) ∧
  reserve toy_key toy_body "request:z" 900 (chat_calls l completed_table) =
    (Ok (ReplayResponse "turn:c:1" 200 "{}"), chat_calls l completed_table).
Proof.
  intros l. assert (H : complete toy_key "turn:c:1" 200 "{}" 110 reserved_table = (Ok (), completed_table))
    by (apply injective_projections; [vm_compute; reflexivity|reflexivity]).
  split; [exact H|].
  refine (proj2 (proj2 (chat_request_once toy_key l completed_table)) reserved_table toy_body "turn:c:1" 200 "{}" 110
    "request:z" 900 H _ _); vm_compute; reflexivity.
Defined.
