(* ===== verification/AuthStores.v ===== *)
(** * Accounts, sessions and second factors

    The tables behind sign-in and their stores: [crates/core/src/users.rs],
    [refresh_tokens.rs] and [webauthn.rs], and the in-memory login limiter of
    [crates/server/src/auth_rate_limit.rs].  Token strings, user ids and
    ceremony ids are random UUIDs of the callers, so they are arguments. *)

From Stdlib Require Import Strings.Ascii.
From stdpp Require Import sorting.
From S2P Require Import Prelude Wire Text ServiceBase.

(** ** Users *)

Inductive UserRole : Type := Controller | Operator | Viewer.

#[global] Instance UserRole_eq_dec : EqDecision UserRole.
Proof. solve_decision. Defined.

Definition role_as_str (r : UserRole) : string :=
  match r with Controller => "controller" | Operator => "operator" | Viewer => "viewer" end.

Definition parse_role (s : string) : option UserRole :=
  if String.eqb s "controller" then Some Controller
  else if String.eqb s "operator" then Some Operator
  else if String.eqb s "viewer" then Some Viewer
  else None.

Definition USERNAME_MIN_LEN : nat := 3.
Definition USERNAME_MAX_LEN : nat := 32.

Definition username_char (c : Ascii.ascii) : bool :=
  is_ascii_alphanumeric c || Ascii.eqb c "_" || Ascii.eqb c "-".

Definition normalize_username (raw : string) : result string string :=
  let trimmed := trim raw in
  if String.eqb trimmed "" then Err "username is required"
  else
    let lower := to_ascii_lowercase trimmed in
    let chars := char_count lower in
    if (chars <? USERNAME_MIN_LEN)%nat then Err "username must be at least 3 characters"
    else if (USERNAME_MAX_LEN <? chars)%nat then Err "username must be at most 32 characters"
    else if negb (bytes_all username_char lower)
    then Err "username may only contain letters, digits, underscore, hyphen"
    else Ok lower.

(** A row of [users]; [role] is text without a constraint. *)
Record UserRecord : Type := mkUserRecord {
  uc_username : string;
  uc_display_name : string;
  uc_email : option string;
  uc_password_hash : string;
  uc_role : string;
  uc_created_at : Z;
  uc_last_login_at : option Z
}.

Record UserRow : Type := mkUserRow {
  us_user_id : string;
  us_username : string;
  us_display_name : string;
  us_email : option string;
  us_password_hash : string;
  us_role : UserRole;
  us_created_at : Z;
  us_last_login_at : option Z
}.

(** A role that does not parse reads as [Controller]. *)
Definition row_to_user (user_id : string) (r : UserRecord) : UserRow :=
  mkUserRow user_id (uc_username r) (uc_display_name r) (uc_email r) (uc_password_hash r)
    (default Controller (parse_role (uc_role r))) (uc_created_at r) (uc_last_login_at r).

Definition record_of_row (r : UserRow) : UserRecord :=
  mkUserRecord (us_username r) (us_display_name r) (us_email r) (us_password_hash r)
    (role_as_str (us_role r)) (us_created_at r) (us_last_login_at r).

(** Primary key [user_id], unique index on [username]. *)
Definition insert_user (row : UserRow) : tx (gmap string UserRecord) () := λ m,
  if bool_decide (is_Some (m !! us_user_id row))
     || bool_decide (map_Exists (λ _ r, uc_username r = us_username row) m)
  then Err constraint_failed
  else Ok ((), <[us_user_id row := record_of_row row]> m).

Definition get_by_id (user_id : string) (m : gmap string UserRecord) : option UserRow :=
  row_to_user user_id <$> m !! user_id.

Definition has_username (username : string) (kr : string * UserRecord) : bool :=
  String.eqb (uc_username kr.2) username.

Definition get_by_username (username : string) (m : gmap string UserRecord) : option UserRow :=
  (λ kr, row_to_user kr.1 kr.2) <$> head (List.filter (has_username username) (map_to_list m)).

Definition any_exist (m : gmap string UserRecord) : bool := (0 <? size m)%nat.

Definition set_last_login (at_ : Z) (r : UserRecord) : UserRecord :=
  mkUserRecord (uc_username r) (uc_display_name r) (uc_email r) (uc_password_hash r) (uc_role r)
    (uc_created_at r) (Some at_).
Definition touch_login (user_id : string) (at_ : Z) (m : gmap string UserRecord) : gmap string UserRecord :=
  alter (set_last_login at_) user_id m.

Definition set_hash (hash : string) (r : UserRecord) : UserRecord :=
  mkUserRecord (uc_username r) (uc_display_name r) (uc_email r) hash (uc_role r)
    (uc_created_at r) (uc_last_login_at r).
Definition set_password_hash (user_id hash : string) : tx (gmap string UserRecord) bool := λ m,
  Ok (bool_decide (is_Some (m !! user_id)), alter (set_hash hash) user_id m).

(** [ORDER BY created_at ASC, user_id ASC] *)
Definition user_le (a b : UserRow) : Prop :=
  us_created_at a < us_created_at b ∨
  (us_created_at a = us_created_at b ∧ String.leb (us_user_id a) (us_user_id b) = true).
#[global] Instance user_le_dec a b : Decision (user_le a b).
Proof. unfold user_le. apply _. Defined.

Definition list_all (m : gmap string UserRecord) : list UserRow :=
  merge_sort user_le (map (λ kr, row_to_user kr.1 kr.2) (map_to_list m)).

(** Counts the stored text, not the parsed role. *)
Definition count_by_role (role : UserRole) (m : gmap string UserRecord) : Z :=
  Z.of_nat (size (filter (λ kr : string * UserRecord, uc_role kr.2 = role_as_str role) m)).

(** ** Refresh tokens *)

Record TokenRow : Type := mkTokenRow {
  tk_principal_id : string;
  tk_session_id : string;
  tk_issued_at : Z;
  tk_expires_at : Z
}.

Record RefreshTokenRow : Type := mkRefreshTokenRow {
  rf_principal_id : string;
  rf_session_id : string;
  rf_expires_at : Z
}.

(** [token] is the pair of UUIDs minted for the call. *)
Definition issue (token principal_id session_id : string) (ttl_secs now : Z) : tx (gmap string TokenRow) string := λ m,
  match m !! token with
  | Some _ => Err constraint_failed
  | None => Ok (token, <[token := mkTokenRow principal_id session_id now (i64_add now ttl_secs)]> m)
  end.

(** [DELETE .. RETURNING], then the expiry of what was deleted. *)
Definition consume (token : string) (now : Z) : tx (gmap string TokenRow) (option RefreshTokenRow) := λ m,
  match m !! token with
  | None => Ok (None, m)
  | Some r =>
      Ok (if tk_expires_at r <? now then None
          else Some (mkRefreshTokenRow (tk_principal_id r) (tk_session_id r) (tk_expires_at r)),
          delete token m)
  end.

(** [DELETE FROM .. WHERE p], with the number of rows deleted. *)
Definition delete_where {V : Type} (p : V → bool) (m : gmap string V) : Z * gmap string V :=
  (Z.of_nat (size (filter (λ kv : string * V, p kv.2 = true) m)),
   filter (λ kv : string * V, p kv.2 = false) m).

Definition of_session (session_id : string) (r : TokenRow) : bool := String.eqb (tk_session_id r) session_id.
Definition of_principal (principal_id : string) (r : TokenRow) : bool := String.eqb (tk_principal_id r) principal_id.

Definition revoke_session (session_id : string) : gmap string TokenRow → Z * gmap string TokenRow :=
  delete_where (of_session session_id).
Definition revoke_all_for_user (principal_id : string) : gmap string TokenRow → Z * gmap string TokenRow :=
  delete_where (of_principal principal_id).
Definition purge_expired_tokens (now : Z) : gmap string TokenRow → Z * gmap string TokenRow :=
  delete_where (λ r, tk_expires_at r <=? now).

Definition backs (principal_id session_id : string) (now : Z) (r : TokenRow) : Prop :=
  tk_principal_id r = principal_id ∧ tk_session_id r = session_id ∧ now < tk_expires_at r.

Definition session_is_active (principal_id session_id : string) (now : Z) (m : gmap string TokenRow) : bool :=
  bool_decide (map_Exists (λ _ r, tk_principal_id r = principal_id ∧ tk_session_id r = session_id ∧ now < tk_expires_at r) m).

(** [COUNT(DISTINCT session_id)] of the live rows. *)
Definition active_session_count (principal_id : string) (now : Z) (m : gmap string TokenRow) : Z :=
  Z.of_nat (size (list_to_set (map (λ kr, tk_session_id kr.2)
    (List.filter (λ kr, of_principal principal_id kr.2 && (now <? tk_expires_at kr.2)) (map_to_list m))) : gset string)).

(** ** Registered passkeys *)

Record CredentialRow : Type := mkCredentialRow {
  cd_user_id : string;
  cd_label : string;
  cd_passkey_json : string;
  cd_counter : Z;
  cd_created_at : Z;
  cd_last_used_at : option Z
}.

Definition MAX_CREDENTIALS_PER_USER : Z := 10.

Definition count_for_user (user_id : string) (m : gmap string CredentialRow) : Z :=
  Z.of_nat (size (filter (λ kr : string * CredentialRow, cd_user_id kr.2 = user_id) m)).

(** [ORDER BY created_at ASC, credential_id ASC] *)
Definition credential_le (a b : string * CredentialRow) : Prop :=
  cd_created_at a.2 < cd_created_at b.2 ∨
  (cd_created_at a.2 = cd_created_at b.2 ∧ String.leb a.1 b.1 = true).
#[global] Instance credential_le_dec a b : Decision (credential_le a b).
Proof. unfold credential_le. apply _. Defined.

Definition list_for_user (user_id : string) (m : gmap string CredentialRow) : list (string * CredentialRow) :=
  merge_sort credential_le (List.filter (λ kr, String.eqb (cd_user_id kr.2) user_id) (map_to_list m)).

Definition update_counter (credential_id : string) (new_counter now : Z) (m : gmap string CredentialRow) :
    gmap string CredentialRow :=
  alter (λ r, mkCredentialRow (cd_user_id r) (cd_label r) (cd_passkey_json r) new_counter
                (cd_created_at r) (Some now)) credential_id m.

(** The ones [DELETE .. WHERE credential_id = ?1 AND user_id = ?2] removes. *)
Definition delete_owned (credential_id user_id : string) (m : gmap string CredentialRow) : bool * gmap string CredentialRow :=
  match m !! credential_id with
  | Some r => if String.eqb (cd_user_id r) user_id then (true, delete credential_id m) else (false, m)
  | None => (false, m)
  end.

(** ** The login limiter *)

Definition MAX_ATTEMPTS : nat := 5.
Definition NANOS : Z := 1000000000.
(** Instants are nanoseconds. *)
Definition WINDOW : Z := 10 * 60 * NANOS.

Definition prune (now : Z) (attempts : list Z) : list Z := List.filter (λ t, now - WINDOW <? t) attempts.

Definition retry_after_secs (now : Z) (attempts : list Z) : Z :=
  match head attempts with
  | Some oldest =>
      let elapsed := Z.max 0 (now - oldest) in
      if elapsed <? WINDOW then (WINDOW - elapsed) / NANOS + 1 else 1
  | None => 1
  end.

(** Under the lock of the bucket's shard; its readings of the clock are taken
    as one. *)
Definition check_and_record (ip : string) (now : Z) (m : gmap string (list Z)) : result Z () * gmap string (list Z) :=
  let attempts := prune now (default [] (m !! ip)) in
  if (MAX_ATTEMPTS <=? length attempts)%nat
  then (Err (retry_after_secs now attempts), <[ip := attempts]> m)
  else (Ok (), <[ip := attempts ++ [now]]> m).

Definition reset (ip : string) (m : gmap string (list Z)) : gmap string (list Z) := delete ip m.

Definition purge_expired_buckets (now : Z) (m : gmap string (list Z)) : gmap string (list Z) :=
  filter (λ kv : string * list Z, kv.2 ≠ []) (prune now <$> m).
