(* ===== verification/AuthRoutes.v ===== *)
(** * Sign-in, sessions and account administration

    The handlers of [crates/server/src/routes.rs] (setup, login, refresh,
    logout), [users.rs] (invitations, deletion, passwords), [webauthn.rs]
    (second factor) and the guards of [auth_extract.rs] and
    [require_private_session], statement by statement over the stores of
    [AuthStores]; [crates/server/src/auth.rs] only passes calls on to them.

    Argon2, the JWT library and the WebAuthn relying party are parameters.
    Each handler takes the random values it mints. *)

From Stdlib Require Import Strings.Ascii.
From stdpp Require Import pretty.
From S2P Require Import Prelude Wire Text ServiceBase Procs AuthStores.

(** ** Foreign code *)

Record AccessClaims : Type := mkAccessClaims {
  cl_sub : string;
  cl_iss : string;
  cl_exp : Z;
  cl_iat : Z;
  cl_sid : string;
  cl_nonce : string
}.

(** [json] values travel as texts.  [jwt_decode] is the whole of
    [jsonwebtoken::decode] with EdDSA, the issuer and no leeway, at a time. *)
Class AuthLibs : Type := {
  Passkey : Type;
  PasskeyRegistration : Type;
  PasskeyAuthentication : Type;
  Credential : Type;
  hash_password : string → string → option string;
  verify_password : string → string → option bool;
  jwt_encode : AccessClaims → option string;
  jwt_decode : string → Z → string → option AccessClaims;
  passkey_of_json : string → option Passkey;
  passkey_to_json : Passkey → option string;
  passkey_id : Passkey → string;
  passkey_counter : Passkey → Z;
  credential_of_json : string → option Credential;
  start_passkey_registration : string → string → string → list string → string → option (string * PasskeyRegistration);
  finish_passkey_registration : Credential → PasskeyRegistration → option Passkey;
  start_passkey_authentication : list Passkey → string → option (string * PasskeyAuthentication);
  finish_passkey_authentication : Credential → PasskeyAuthentication → option (string * Z);
  header_value : string → bool
}.

Section Auth.
Context `{AuthLibs}.

(** ** State *)

Record PendingRegistration : Type := mkPendingRegistration {
  pr_user_id : string;
  pr_label : string;
  pr_state : PasskeyRegistration;
  pr_expires_at : Z
}.

Record PendingAuth : Type := mkPendingAuth {
  pa_user_id : string;
  pa_state : PasskeyAuthentication;
  pa_expires_at : Z
}.

(** What an audit entry says, before its rendering as JSON. *)
Inductive AuditChange : Type :=
| UserInvited (user : UserRow)
| UserRemoved (user : UserRow)
| PasswordRotated (by_ : string) (revoked_sessions : Z)
| PasskeyAdded (label user_id : string)
| PasskeyDeleted.

Record AuditEntry : Type := mkAuditEntry {
  ad_ts : Z;
  ad_actor : string;
  ad_table_name : string;
  ad_row_id : string;
  ad_change : AuditChange
}.

(** The tables and the memory of the server; [sv_vault] are the rows of
    [vault_secrets] of the core, whose [plugin_id] is NULL, and [sv_clock] and
    [sv_instant] what [Utc::now().timestamp()] and [Instant::now()] read. *)
Record Server : Type := mkServer {
  sv_clock : Z;
  sv_instant : Z;
  sv_users : gmap string UserRecord;
  sv_tokens : gmap string TokenRow;
  sv_credentials : gmap string CredentialRow;
  sv_vault : list (string * string);
  sv_audit : list AuditEntry;
  sv_https_only : option bool;
  sv_buckets : gmap string (list Z);
  sv_pending_register : gmap string PendingRegistration;
  sv_pending_auth : gmap string PendingAuth
}.

Definition with_users (u : gmap string UserRecord) (s : Server) : Server :=
  mkServer (sv_clock s) (sv_instant s) u (sv_tokens s) (sv_credentials s) (sv_vault s) (sv_audit s)
    (sv_https_only s) (sv_buckets s) (sv_pending_register s) (sv_pending_auth s).
Definition with_tokens (t : gmap string TokenRow) (s : Server) : Server :=
  mkServer (sv_clock s) (sv_instant s) (sv_users s) t (sv_credentials s) (sv_vault s) (sv_audit s)
    (sv_https_only s) (sv_buckets s) (sv_pending_register s) (sv_pending_auth s).
Definition with_credentials (c : gmap string CredentialRow) (s : Server) : Server :=
  mkServer (sv_clock s) (sv_instant s) (sv_users s) (sv_tokens s) c (sv_vault s) (sv_audit s)
    (sv_https_only s) (sv_buckets s) (sv_pending_register s) (sv_pending_auth s).
Definition with_vault (v : list (string * string)) (s : Server) : Server :=
  mkServer (sv_clock s) (sv_instant s) (sv_users s) (sv_tokens s) (sv_credentials s) v (sv_audit s)
    (sv_https_only s) (sv_buckets s) (sv_pending_register s) (sv_pending_auth s).
Definition with_audit (a : list AuditEntry) (s : Server) : Server :=
  mkServer (sv_clock s) (sv_instant s) (sv_users s) (sv_tokens s) (sv_credentials s) (sv_vault s) a
    (sv_https_only s) (sv_buckets s) (sv_pending_register s) (sv_pending_auth s).
Definition with_buckets (b : gmap string (list Z)) (s : Server) : Server :=
  mkServer (sv_clock s) (sv_instant s) (sv_users s) (sv_tokens s) (sv_credentials s) (sv_vault s) (sv_audit s)
    (sv_https_only s) b (sv_pending_register s) (sv_pending_auth s).
Definition with_pending_register (p : gmap string PendingRegistration) (s : Server) : Server :=
  mkServer (sv_clock s) (sv_instant s) (sv_users s) (sv_tokens s) (sv_credentials s) (sv_vault s) (sv_audit s)
    (sv_https_only s) (sv_buckets s) p (sv_pending_auth s).
Definition with_pending_auth (p : gmap string PendingAuth) (s : Server) : Server :=
  mkServer (sv_clock s) (sv_instant s) (sv_users s) (sv_tokens s) (sv_credentials s) (sv_vault s) (sv_audit s)
    (sv_https_only s) (sv_buckets s) (sv_pending_register s) p.

(** The statements of one table. *)
Definition on_users {A} (m : tx (gmap string UserRecord) A) : act Server DbError A := λ s,
  match m (sv_users s) with Ok (a, u) => (Ok a, with_users u s) | Err e => (Err e, s) end.
Definition on_tokens {A} (m : tx (gmap string TokenRow) A) : act Server DbError A := λ s,
  match m (sv_tokens s) with Ok (a, t) => (Ok a, with_tokens t s) | Err e => (Err e, s) end.
Definition on_credentials {A} (m : tx (gmap string CredentialRow) A) : act Server DbError A := λ s,
  match m (sv_credentials s) with Ok (a, c) => (Ok a, with_credentials c s) | Err e => (Err e, s) end.

(** [set_password_hash_and_revoke_all], one transaction. *)
Definition set_password_hash_and_revoke_all (principal_id password_hash : string) : act Server DbError (option Z) := λ s,
  match sv_users s !! principal_id with
  | None => (Ok None, s)
  | Some _ =>
      let '(removed, tokens) := revoke_all_for_user principal_id (sv_tokens s) in
      (Ok (Some removed), with_users (alter (set_hash password_hash) principal_id (sv_users s)) (with_tokens tokens s))
  end.

(** [DELETE FROM users] and the cascade to the user's passkeys. *)
Definition delete_user (user_id : string) : act Server DbError bool := λ s,
  (Ok (bool_decide (is_Some (sv_users s !! user_id))),
   with_users (delete user_id (sv_users s))
     (with_credentials (filter (λ kr : string * CredentialRow, cd_user_id kr.2 ≠ user_id) (sv_credentials s)) s)).

(** The count and the insertion share the connection; the row must reference a
    user. *)
Definition insert_credential (credential_id : string) (row : CredentialRow) : act Server DbError () := λ s,
  if MAX_CREDENTIALS_PER_USER <=? count_for_user (cd_user_id row) (sv_credentials s)
  then (Err (Config "user has reached the credential cap"), s)
  else if bool_decide (is_Some (sv_credentials s !! credential_id))
  then (Err constraint_failed, s)
  else if bool_decide (is_Some (sv_users s !! cd_user_id row))
  then (Ok (), with_credentials (<[credential_id := row]> (sv_credentials s)) s)
  else (Err (Sqlite "FOREIGN KEY constraint failed"), s).

(** ** Errors and responses *)

(** [code] and, where it is a fixed text, the message. *)
Record ApiError : Type := mkApiError { ae_status : Z; ae_code : string; ae_message : string }.

Definition bad_request (c m : string) : ApiError := mkApiError 400 c m.
Definition unauthorized (c m : string) : ApiError := mkApiError 401 c m.
Definition forbidden (c m : string) : ApiError := mkApiError 403 c m.
(** [internal] of users.rs *)
Definition internal (m : string) : ApiError := mkApiError 500 "internal" m.

(** [impl From<DbError>], [From<AuthError>] for a JWT error and
    [From<PasswordError>] *)
Definition from_db (e : DbError) : ApiError :=
  if bool_decide (e = Backpressure) then mkApiError 503 "db_backpressure" (display_error e)
  else mkApiError 500 "db_error" (display_error e).
Definition from_jwt : ApiError := unauthorized "invalid_token" "jwt error".
Definition from_password : ApiError := mkApiError 500 "password_error" "argon2".

(** The bodies and the cookie of successful responses. *)
Inductive Response : Type :=
| TokensResponse (access_token refresh_token : string) (set_cookie : option string)
| SetupResponse (principal_id access_token refresh_token set_cookie : string)
| WebauthnChallenge (ceremony_id options : string)
| LoggedOut (set_cookie : string)
| LogoutAllResponse (revoked_session_count : Z)
| PasswordChanged (revoked_sessions : Z)
| UserView (user : UserRow)
| UserList (users : list UserRow)
| Removed
| RegisterBegin (ceremony_id options : string)
| CredentialView (credential_id : string) (row : CredentialRow)
| CredentialList (rows : list (string * CredentialRow)).

Record ServerConfig : Type := mkServerConfig {
  cf_access_token_ttl_secs : Z;
  cf_refresh_token_ttl_secs : Z;
  cf_issuer : string;
  cf_webauthn : bool
}.

Definition handler (A : Type) : Type := proc Server (result ApiError A).

Definition raise {A} (r : result ApiError A) : handler A := Finish r.
Definition require (b : bool) (e : ApiError) : handler () := if b then ok () else fail e.
Definition some_or {A} (o : option A) (e : ApiError) : handler A := match o with Some a => ok a | None => fail e end.
Definition update (f : Server → Server) : handler () := Atomic (λ s, ((), f s)) ok.
(** [Utc::now().timestamp()] *)
Definition clock : handler Z := peek sv_clock.

(** [let _ = AuditStore::insert(..)] *)
Definition audit (actor table_name row_id : string) (change : AuditChange) : handler () :=
  let^ now := clock in
  update (λ s, with_audit (sv_audit s ++ [mkAuditEntry now actor table_name row_id change]) s).

(** ** Tokens *)

Definition issue_access_token (cfg : ServerConfig) (principal_id session_id nonce : string) : handler string :=
  let^ now := clock in
  some_or (jwt_encode (mkAccessClaims principal_id (cf_issuer cfg)
    (i64_add now (cf_access_token_ttl_secs cfg)) now session_id nonce)) from_jwt.

Definition issue_refresh_token (cfg : ServerConfig) (token principal_id session_id : string) : handler string :=
  let^ now := clock in
  call from_db (on_tokens (issue token principal_id session_id (cf_refresh_token_ttl_secs cfg) now)).

Definition consume_refresh_token (token : string) : handler (option RefreshTokenRow) :=
  let^ now := clock in call from_db (on_tokens (consume token now)).

Definition deleting (f : gmap string TokenRow → Z * gmap string TokenRow) : tx (gmap string TokenRow) Z := λ m, Ok (f m).

Definition purge_expired : handler Z :=
  let^ now := clock in call from_db (on_tokens (deleting (purge_expired_tokens now))).

(** ** Cookies *)

Definition https_only_session_cookies_enabled (s : Server) : bool := default true (sv_https_only s).

Definition decimal (z : Z) : string := pretty z.

Definition secure_attribute (secure : bool) : string := if secure then "; Secure" else "".

Definition build_access_cookie (token : string) (max_age_secs : Z) (secure : bool) : string :=
  let cookie := "execlaw_access=" +:+ token +:+ "; HttpOnly; SameSite=Strict" +:+ secure_attribute secure
    +:+ "; Path=/api; Max-Age=" +:+ decimal max_age_secs in
  let cleared := "execlaw_access=; HttpOnly; SameSite=Strict" +:+ secure_attribute secure
    +:+ "; Path=/api; Max-Age=0" in
  if header_value cookie then cookie
  else if header_value cleared then cleared
  else "execlaw_access=; Max-Age=0; Path=/api".

Definition access_cookie (cfg : ServerConfig) (access : string) : handler string :=
  let^ secure := peek https_only_session_cookies_enabled in
  ok (build_access_cookie access (cf_access_token_ttl_secs cfg) secure).

(** ** The current user *)

Record AuthedUser : Type := mkAuthedUser { au_row : UserRow; au_session_id : option string }.

(** The headers the guards read, those that are valid text. *)
Record Headers : Type := mkHeaders { hd_authorization : option string; hd_cookie : option string }.

Fixpoint find_map {A B} (f : A → option B) (l : list A) : option B :=
  match l with [] => None | a :: l => match f a with Some b => Some b | None => find_map f l end end.

Definition bearer_header (h : Headers) : option string := hd_authorization h ≫= strip_prefix "Bearer ".
Definition cookie_token (h : Headers) : option string :=
  match bearer_header h with
  | Some _ => None
  | None => hd_cookie h ≫= λ cookies, find_map (λ part, strip_prefix "execlaw_access=" (trim part)) (split_char ";"%char cookies)
  end.
Definition token_of (h : Headers) : option string :=
  match bearer_header h with Some t => Some t | None => cookie_token h end.

Definition rejection (m : string) : ApiError := unauthorized "unauthorized" m.
Definition no_token : ApiError :=
  rejection "missing Authorization header (no Bearer token or execlaw_access cookie)".
Definition invalid_access : ApiError := rejection "invalid or expired token".
Definition session_revoked : ApiError := rejection "session has been revoked or expired".
Definition user_gone : ApiError := rejection "token references a user that no longer exists".

(** [AuthedUser::from_request_parts]; [extension] is the user a layer already
    found for this request. *)
Definition authed_user (cfg : ServerConfig) (extension : option AuthedUser) (h : Headers) : handler AuthedUser :=
  match extension with
  | Some user => ok user
  | None =>
      let^ token := some_or (token_of h) no_token in
      let^ now := clock in
      let^ claims := some_or (jwt_decode (cf_issuer cfg) now token) invalid_access in
      let^ now := clock in
      let^ active := peek (λ s, session_is_active (cl_sub claims) (cl_sid claims) now (sv_tokens s)) in
      let^ _ := require active session_revoked in
      let^ row := peek (λ s, get_by_id (cl_sub claims) (sv_users s)) in
      let^ row := some_or row user_gone in
      ok (mkAuthedUser row (Some (cl_sid claims)))
  end.

Definition controller_required : ApiError :=
  forbidden "controller_required" "Controller role required for private operations".

(** The layer around every route: [next] runs with the user it found, if the
    path is private. *)
Definition require_private_session {A} (cfg : ServerConfig) (path : string) (is_get : bool) (h : Headers)
    (next : option AuthedUser → handler A) : handler A :=
  let admin_path := String.eqb path "/api/admin" || starts_with path "/api/admin/" in
  let chat_path := String.eqb path "/api/chats" || starts_with path "/api/chats/" in
  let controller_stream := String.eqb path "/api/stream" in
  let operator_user_list := String.eqb path "/api/admin/users" && is_get in
  let needs_controller := (admin_path && negb operator_user_list) || chat_path || controller_stream in
  if negb admin_path && negb chat_path && negb controller_stream then next None
  else
    let^ user := authed_user cfg None h in
    let^ _ := require (negb (needs_controller && negb (bool_decide (us_role (au_row user) = Controller)))) controller_required in
    next (Some user).

(** ** Setup and login *)

(** The two rows of [vault_secrets] the setup mirrors.  The key of that table
    is [(plugin_id, name)]; as a NULL equals nothing, [ON CONFLICT] finds no
    row to replace. *)
Definition mirror_secret (name value : string) : handler () :=
  let^ _ := clock in update (λ s, with_vault (sv_vault s ++ [(name, value)]) s).

Definition trimmed_email (email : option string) : option string :=
  match email with Some e => if blank e then None else Some e | None => None end.

Record SetupIds : Type := mkSetupIds {
  si_salt : string; si_user_uuid : string; si_session : string; si_nonce : string; si_token : string }.

Definition already_initialized : ApiError :=
  mkApiError 409 "already_initialized" "a controller user already exists; use /api/login".

Definition setup (cfg : ServerConfig) (ids : SetupIds) (username admin_password display_name : string)
    (email : option string) : handler Response :=
  let^ _ := require (8 <=? str_len admin_password)
    (bad_request "password_too_short" "admin_password must be at least 8 characters") in
  let^ _ := require (negb (blank display_name)) (bad_request "display_name_required" "display_name must not be empty") in
  let^ username := raise match normalize_username username with
    | Ok u => Ok u | Err m => Err (bad_request "username_invalid" m) end in
  let^ exists_ := peek (λ s, any_exist (sv_users s)) in
  let^ _ := require (negb exists_) already_initialized in
  let^ hash := some_or (hash_password (si_salt ids) admin_password) from_password in
  let principal_id := "controller-" +:+ si_user_uuid ids in
  let^ now := clock in
  let^ _ := call from_db (on_users (insert_user (mkUserRow principal_id username (trim display_name)
    (trimmed_email email) hash Controller now (Some now)))) in
  let^ _ := mirror_secret "admin_password_hash" hash in
  let^ _ := mirror_secret "controller_principal_id" principal_id in
  let^ access := issue_access_token cfg principal_id (si_session ids) (si_nonce ids) in
  let^ refresh := issue_refresh_token cfg (si_token ids) principal_id (si_session ids) in
  let^ cookie := access_cookie cfg access in
  ok (SetupResponse principal_id access refresh cookie).

Record LoginIds : Type := mkLoginIds {
  li_session : string; li_nonce : string; li_token : string; li_ceremony : string; li_challenge : string }.

Definition bad_credentials : ApiError := unauthorized "bad_credentials" "incorrect username or password".

(** [issue_login_tokens], the end of both ways to sign in. *)
Definition issue_login_tokens (cfg : ServerConfig) (ids : LoginIds) (user_id : string) : handler Response :=
  let^ now := clock in
  let^ _ := update (λ s, with_users (touch_login user_id now (sv_users s)) s) in
  let^ access := issue_access_token cfg user_id (li_session ids) (li_nonce ids) in
  let^ refresh := issue_refresh_token cfg (li_token ids) user_id (li_session ids) in
  let^ cookie := access_cookie cfg access in
  ok (TokensResponse access refresh (Some cookie)).

Definition webauthn_unconfigured : ApiError :=
  mkApiError 503 "webauthn_unconfigured" "the server has no webauthn relying-party configured".
Definition ceremony_failed : ApiError := bad_request "webauthn_failed" "webauthn ceremony failed".

Definition CEREMONY_TTL_SECS : Z := 5 * 60.

Definition passkeys_of (rows : list (string * CredentialRow)) : list Passkey :=
  omap (λ kr, passkey_of_json (cd_passkey_json kr.2)) rows.

Definition begin_login_assertion (cfg : ServerConfig) (ids : LoginIds) (user_id : string) : handler Response :=
  let^ _ := require (cf_webauthn cfg) webauthn_unconfigured in
  let^ rows := peek (λ s, list_for_user user_id (sv_credentials s)) in
  let creds := passkeys_of rows in
  let^ _ := require (0 <? vec_len creds)
    (mkApiError 500 "no_passkeys" "user has no parseable webauthn credentials") in
  let^ started := some_or (start_passkey_authentication creds (li_challenge ids)) ceremony_failed in
  let^ now := clock in
  let^ _ := update (λ s, with_pending_auth (<[li_ceremony ids :=
    mkPendingAuth user_id started.2 (i64_add now CEREMONY_TTL_SECS)]> (sv_pending_auth s)) s) in
  ok (WebauthnChallenge (li_ceremony ids) started.1).

Definition rate_limited : ApiError := mkApiError 429 "login_rate_limited" "too many failed login attempts".

(** The limiter's [check_and_record] under the lock of its bucket. *)
Definition limit_login (ip : string) : handler () :=
  Atomic (λ s, let '(r, b) := check_and_record ip (sv_instant s) (sv_buckets s) in (r, with_buckets b s))
    (λ r, match r with Ok _ => ok () | Err _ => fail rate_limited end).

Definition login (cfg : ServerConfig) (ids : LoginIds) (ip username admin_password : string) : handler Response :=
  let^ _ := limit_login ip in
  let^ exists_ := peek (λ s, any_exist (sv_users s)) in
  let^ _ := require exists_ (mkApiError 409 "not_initialized" "no controller user exists yet; run /api/setup") in
  let^ user := match normalize_username username with
    | Ok name => peek (λ s, get_by_username name (sv_users s))
    | Err _ => ok None
    end in
  let^ user := some_or user bad_credentials in
  let^ verified := some_or (verify_password admin_password (us_password_hash user)) from_password in
  let^ _ := require verified bad_credentials in
  let^ _ := update (λ s, with_buckets (reset ip (sv_buckets s)) s) in
  let^ cred_count := peek (λ s, count_for_user (us_user_id user) (sv_credentials s)) in
  if 0 <? cred_count then begin_login_assertion cfg ids (us_user_id user)
  else issue_login_tokens cfg ids (us_user_id user).

(** ** Refresh and logout *)

Definition refresh (cfg : ServerConfig) (nonce new_token refresh_token : string) : handler Response :=
  let^ record := consume_refresh_token refresh_token in
  let^ record := some_or record
    (unauthorized "invalid_refresh_token" "refresh token invalid, expired, or already used") in
  let^ access := issue_access_token cfg (rf_principal_id record) (rf_session_id record) nonce in
  let^ refresh := issue_refresh_token cfg new_token (rf_principal_id record) (rf_session_id record) in
  let^ cookie := access_cookie cfg access in
  ok (TokensResponse access refresh (Some cookie)).

Definition logout (refresh_token : option string) : handler Response :=
  let^ _ :=
    match refresh_token with
    | None => ok ()
    | Some tok =>
        let^ record := consume_refresh_token tok in
        match record with
        | None => ok ()
        | Some r =>
            let^ _ := call from_db (on_tokens (deleting (revoke_session (rf_session_id r)))) in ok ()
        end
    end in
  let^ secure := peek https_only_session_cookies_enabled in
  ok (LoggedOut (build_access_cookie "" 0 secure)).

Definition logout_all (cfg : ServerConfig) (h : Headers) : handler Response :=
  let^ user := authed_user cfg None h in
  let^ removed := call from_db (on_tokens (deleting (revoke_all_for_user (us_user_id (au_row user))))) in
  ok (LogoutAllResponse removed).

(** ** Accounts: the routes under [/api/admin/users], after the layer *)

Definition list_users (cfg : ServerConfig) (ext : option AuthedUser) (h : Headers) : handler Response :=
  let^ _ := authed_user cfg ext h in
  let^ rows := peek (λ s, list_all (sv_users s)) in
  ok (UserList rows).

Definition not_found : ApiError := mkApiError 404 "not_found" "no user with that id".
Definition from_internal (m : string) (e : DbError) : ApiError := internal m.

Definition invite (cfg : ServerConfig) (ext : option AuthedUser) (h : Headers) (salt uuid : string)
    (username display_name initial_password role : string) (email : option string) : handler Response :=
  let^ user := authed_user cfg ext h in
  let^ _ := require (bool_decide (us_role (au_row user) = Controller))
    (forbidden "forbidden" "only Controllers can invite users") in
  let^ role := some_or (parse_role role) (bad_request "invalid_role" "role must be controller | operator | viewer") in
  let^ username := raise match normalize_username username with
    | Ok n => Ok n | Err m => Err (bad_request "username_invalid" m) end in
  let^ _ := require (8 <=? str_len initial_password)
    (bad_request "password_too_short" "initial_password must be at least 8 characters") in
  let^ _ := require (negb (blank display_name)) (bad_request "display_name_required" "display_name must not be empty") in
  let^ taken := peek (λ s, bool_decide (is_Some (get_by_username username (sv_users s)))) in
  let^ _ := require (negb taken) (mkApiError 409 "username_taken" "another account already uses this username") in
  let^ hash := some_or (hash_password salt initial_password) (internal "hash_password") in
  let user_id := role_as_str role +:+ "-" +:+ uuid in
  let^ now := clock in
  let row := mkUserRow user_id username (trim display_name) (trimmed_email email) hash role now None in
  let^ _ := call (from_internal "insert user") (on_users (insert_user row)) in
  let^ _ := audit (us_user_id (au_row user)) "users" user_id (UserInvited row) in
  ok (UserView row).

Definition last_controller : ApiError := forbidden "last_controller" "refusing to remove the last Controller".

(** The role and the number of Controllers are read before the deletion. *)
Definition remove_user (cfg : ServerConfig) (ext : option AuthedUser) (h : Headers) (target_id : string) : handler Response :=
  let^ user := authed_user cfg ext h in
  let^ _ := require (bool_decide (us_role (au_row user) = Controller))
    (forbidden "forbidden" "only Controllers can remove users") in
  let^ _ := require (negb (String.eqb target_id (us_user_id (au_row user))))
    (forbidden "cannot_self_delete" "you cannot delete your own account") in
  let^ target := peek (λ s, get_by_id target_id (sv_users s)) in
  let^ target := some_or target not_found in
  let^ _ :=
    if bool_decide (us_role target = Controller) then
      let^ n := peek (λ s, count_by_role Controller (sv_users s)) in
      require (negb (n <=? 1)) last_controller
    else ok () in
  let^ _ := call (from_internal "delete user") (delete_user target_id) in
  let^ _ := audit (us_user_id (au_row user)) "users" target_id (UserRemoved target) in
  ok Removed.

Definition weak_password : ApiError := bad_request "weak_password" "new password must be at least 8 characters".
Definition user_missing : ApiError := unauthorized "user_missing" "authenticated user not found".

Definition change_my_password (cfg : ServerConfig) (ext : option AuthedUser) (h : Headers) (salt : string)
    (current_password new_password : string) : handler Response :=
  let^ user := authed_user cfg ext h in
  let user_id := us_user_id (au_row user) in
  let^ _ := require (8 <=? str_len new_password) weak_password in
  let^ row := peek (λ s, get_by_id user_id (sv_users s)) in
  let^ row := some_or row user_missing in
  let^ verified := some_or (verify_password current_password (us_password_hash row)) (internal "password verify") in
  let^ _ := require verified (unauthorized "bad_credentials" "current password is incorrect") in
  let^ new_hash := some_or (hash_password salt new_password) (internal "password hash") in
  let^ revoked := call (from_internal "password update and session revocation")
    (set_password_hash_and_revoke_all user_id new_hash) in
  let^ revoked := some_or revoked user_missing in
  let^ _ := audit user_id "users" user_id (PasswordRotated "self" revoked) in
  ok (PasswordChanged revoked).

Definition reset_user_password (cfg : ServerConfig) (ext : option AuthedUser) (h : Headers) (salt : string)
    (target_id new_password : string) : handler Response :=
  let^ caller := authed_user cfg ext h in
  let caller_id := us_user_id (au_row caller) in
  let^ _ := require (8 <=? str_len new_password) weak_password in
  let^ _ := require (negb (String.eqb target_id caller_id))
    (bad_request "use_self_change" "use POST /api/admin/me/password to change your own password") in
  let^ c := peek (λ s, get_by_id caller_id (sv_users s)) in
  let^ c := some_or c user_missing in
  let^ _ := require (bool_decide (us_role c = Controller))
    (forbidden "controller_only" "only a Controller can reset another user's password") in
  let^ target := peek (λ s, get_by_id target_id (sv_users s)) in
  let^ target := some_or target (mkApiError 404 "user_not_found" "no user with that id") in
  let^ new_hash := some_or (hash_password salt new_password) (internal "password hash") in
  let^ revoked := call (from_internal "password update and session revocation")
    (set_password_hash_and_revoke_all (us_user_id target) new_hash) in
  let^ revoked := some_or revoked (mkApiError 404 "user_not_found" "target user no longer exists") in
  let^ _ := audit caller_id "users" (us_user_id target) (PasswordRotated caller_id revoked) in
  ok (PasswordChanged revoked).

(** ** Second factors *)

Definition register_begin (cfg : ServerConfig) (ext : option AuthedUser) (h : Headers) (ceremony_id challenge : string)
    (label : string) : handler Response :=
  let^ user := authed_user cfg ext h in
  let user_id := us_user_id (au_row user) in
  let^ _ := require (cf_webauthn cfg) webauthn_unconfigured in
  let label := trim label in
  let^ _ := require (negb (String.eqb label "" || (80 <? str_len label)))
    (bad_request "bad_label" "label must be 1-80 characters") in
  let^ row := peek (λ s, get_by_id user_id (sv_users s)) in
  let^ row := some_or row user_missing in
  let^ rows := peek (λ s, list_for_user user_id (sv_credentials s)) in
  let^ started := some_or (start_passkey_registration user_id (us_username row) (us_display_name row)
    (map passkey_id (passkeys_of rows)) challenge) ceremony_failed in
  let^ now := clock in
  let^ _ := update (λ s, with_pending_register (<[ceremony_id :=
    mkPendingRegistration user_id label started.2 (i64_add now CEREMONY_TTL_SECS)]> (sv_pending_register s)) s) in
  ok (RegisterBegin ceremony_id started.1).

Definition unknown_ceremony : ApiError :=
  bad_request "unknown_ceremony" "no in-flight webauthn ceremony with that id".
Definition ceremony_expired : ApiError :=
  bad_request "ceremony_expired" "webauthn ceremony has expired; restart the flow".

Definition take_registration (ceremony_id : string) : handler PendingRegistration :=
  Atomic (λ s, (sv_pending_register s !! ceremony_id, with_pending_register (delete ceremony_id (sv_pending_register s)) s))
    (λ o, some_or o unknown_ceremony).
Definition take_auth (ceremony_id : string) : handler PendingAuth :=
  Atomic (λ s, (sv_pending_auth s !! ceremony_id, with_pending_auth (delete ceremony_id (sv_pending_auth s)) s))
    (λ o, some_or o unknown_ceremony).

Definition finish_registration (ceremony_id : string) (cred : Credential) : handler (string * string * Passkey) :=
  let^ pending := take_registration ceremony_id in
  let^ now := clock in
  let^ _ := require (negb (pr_expires_at pending <? now)) ceremony_expired in
  let^ passkey := some_or (finish_passkey_registration cred (pr_state pending)) ceremony_failed in
  ok (pr_user_id pending, pr_label pending, passkey).

Definition bad_credential : ApiError := bad_request "bad_credential" "credential".

Definition register_finish (cfg : ServerConfig) (ext : option AuthedUser) (h : Headers) (ceremony_id credential : string) :
    handler Response :=
  let^ user := authed_user cfg ext h in
  let user_id := us_user_id (au_row user) in
  let^ _ := require (cf_webauthn cfg) webauthn_unconfigured in
  let^ cred := some_or (credential_of_json credential) bad_credential in
  let^ finished := finish_registration ceremony_id cred in
  let '(ceremony_user, label, passkey) := finished in
  let^ _ := require (String.eqb ceremony_user user_id)
    (forbidden "ceremony_user_mismatch" "ceremony was not started by this user") in
  let^ json := some_or (passkey_to_json passkey) (mkApiError 500 "passkey_serialise" "passkey") in
  let^ now := clock in
  let row := mkCredentialRow user_id label json (passkey_counter passkey) now None in
  let^ _ := call from_db (insert_credential (passkey_id passkey) row) in
  let^ _ := audit user_id "state_webauthn_credentials" (passkey_id passkey) (PasskeyAdded label user_id) in
  ok (CredentialView (passkey_id passkey) row).

Definition list_credentials (cfg : ServerConfig) (ext : option AuthedUser) (h : Headers) : handler Response :=
  let^ user := authed_user cfg ext h in
  let^ rows := peek (λ s, list_for_user (us_user_id (au_row user)) (sv_credentials s)) in
  ok (CredentialList rows).

Definition delete_credential (cfg : ServerConfig) (ext : option AuthedUser) (h : Headers) (credential_id : string) :
    handler Response :=
  let^ user := authed_user cfg ext h in
  let user_id := us_user_id (au_row user) in
  let^ removed := call from_db (on_credentials (λ m, Ok (delete_owned credential_id user_id m))) in
  let^ _ := require removed (mkApiError 404 "credential_not_found" "no credential with that id owned by the caller") in
  let^ _ := audit user_id "state_webauthn_credentials" credential_id PasskeyDeleted in
  ok Removed.

Definition finish_authentication (ceremony_id : string) (cred : Credential) : handler (string * string * Z) :=
  let^ pending := take_auth ceremony_id in
  let^ now := clock in
  let^ _ := require (negb (pa_expires_at pending <? now)) ceremony_expired in
  let^ result := some_or (finish_passkey_authentication cred (pa_state pending)) ceremony_failed in
  ok (pa_user_id pending, result.1, result.2).

Definition counter_replay : ApiError :=
  unauthorized "counter_replay" "credential counter regressed; suspected clone".

Definition login_assert_finish (cfg : ServerConfig) (ids : LoginIds) (ceremony_id credential : string) : handler Response :=
  let^ _ := require (cf_webauthn cfg) webauthn_unconfigured in
  let^ cred := some_or (credential_of_json credential) bad_credential in
  let^ finished := finish_authentication ceremony_id cred in
  let '(user_id, credential_id, new_counter) := finished in
  let^ row := peek (λ s, sv_credentials s !! credential_id) in
  let^ row := some_or row (unauthorized "credential_unknown" "credential not registered for any user") in
  let^ _ := require (String.eqb (cd_user_id row) user_id)
    (unauthorized "credential_user_mismatch" "credential does not belong to the asserted user") in
  let^ _ := require (negb ((0 <? cd_counter row) && (new_counter <=? cd_counter row))) counter_replay in
  let^ now := clock in
  let^ _ := update (λ s, with_credentials (update_counter credential_id new_counter now (sv_credentials s)) s) in
  issue_login_tokens cfg ids user_id.
End Auth.
