(* ===== verification/AuthServer.v ===== *)
(** * The server's sign-in requests together

    The requests of [AuthRoutes] as one type and the server that serves them
    interleaved; what each request keeps of the refresh tokens and of the
    accounts, whatever runs in between; and equations for a request served
    alone. *)

From Stdlib Require Import Strings.Ascii.
From stdpp Require Import relations.
From S2P Require Import Prelude Wire Text ServiceBase Procs AuthStores AuthRoutes.

Section AuthServer.
Context `{AuthLibs}.

(** ** The requests and the server *)

(** The requests on accounts and sessions.  One that removes accounts is not
    among them: the factory reset ([crates/server/src/factory_reset.rs]), with
    which a Controller has the whole database built anew, without any account;
    the next request is then a setup. *)
Inductive Request : Type :=
| ReqSetup (ids : SetupIds) (username admin_password display_name : string) (email : option string)
| ReqLogin (ids : LoginIds) (ip username admin_password : string)
| ReqLoginFinish (ids : LoginIds) (ceremony_id credential : string)
| ReqRefresh (nonce new_token refresh_token : string)
| ReqLogout (refresh_token : option string)
| ReqLogoutAll (h : Headers)
| ReqListUsers (h : Headers)
| ReqInvite (h : Headers) (salt uuid username display_name initial_password role : string) (email : option string)
| ReqRemoveUser (h : Headers) (target_id : string)
| ReqChangePassword (h : Headers) (salt current_password new_password : string)
| ReqResetPassword (h : Headers) (salt target_id new_password : string)
| ReqRegisterBegin (h : Headers) (ceremony_id challenge label : string)
| ReqRegisterFinish (h : Headers) (ceremony_id credential : string)
| ReqListCredentials (h : Headers)
| ReqDeleteCredential (h : Headers) (credential_id : string)
| Sweep.

(** The router: the guard around each private route, and the periodic sweep. *)
Definition serve (cfg : ServerConfig) (r : Request) : handler Response :=
  match r with
  | ReqSetup ids username password display_name email => setup cfg ids username password display_name email
  | ReqLogin ids ip username password => login cfg ids ip username password
  | ReqLoginFinish ids ceremony_id credential => login_assert_finish cfg ids ceremony_id credential
  | ReqRefresh nonce new_token token => refresh cfg nonce new_token token
  | ReqLogout token => logout token
  | ReqLogoutAll h => logout_all cfg h
  | ReqListUsers h => require_private_session cfg "/api/admin/users" true h (λ ext, list_users cfg ext h)
  | ReqInvite h salt uuid username display_name password role email =>
      require_private_session cfg "/api/admin/users/invite" false h
        (λ ext, invite cfg ext h salt uuid username display_name password role email)
  | ReqRemoveUser h target_id =>
      require_private_session cfg ("/api/admin/users/" +:+ target_id) false h
        (λ ext, remove_user cfg ext h target_id)
  | ReqChangePassword h salt current new =>
      require_private_session cfg "/api/admin/me/password" false h
        (λ ext, change_my_password cfg ext h salt current new)
  | ReqResetPassword h salt target_id new =>
      require_private_session cfg ("/api/admin/users/" +:+ target_id +:+ "/password") false h
        (λ ext, reset_user_password cfg ext h salt target_id new)
  | ReqRegisterBegin h ceremony_id challenge label =>
      require_private_session cfg "/api/admin/webauthn/register/begin" false h
        (λ ext, register_begin cfg ext h ceremony_id challenge label)
  | ReqRegisterFinish h ceremony_id credential =>
      require_private_session cfg "/api/admin/webauthn/register/finish" false h
        (λ ext, register_finish cfg ext h ceremony_id credential)
  | ReqListCredentials h =>
      require_private_session cfg "/api/admin/webauthn/credentials" true h (λ ext, list_credentials cfg ext h)
  | ReqDeleteCredential h credential_id =>
      require_private_session cfg ("/api/admin/webauthn/credentials/" +:+ credential_id) false h
        (λ ext, delete_credential cfg ext h credential_id)
  | Sweep => let^ n := purge_expired in ok (LogoutAllResponse n)
  end.

(** Between statements the clocks may read anything and the cookie setting may
    change. *)
Definition drifts (s s' : Server) : Prop :=
  ∃ clock instant https,
    s' = mkServer clock instant (sv_users s) (sv_tokens s) (sv_credentials s) (sv_vault s) (sv_audit s)
           https (sv_buckets s) (sv_pending_register s) (sv_pending_auth s).

(** The server, given which requests are submitted. *)
Definition server_steps (cfg : ServerConfig) (submitted : Request → Prop) :
    relation (Server * list (handler Response)) :=
  rtc (pool_step drifts (λ _ p, ∃ r, submitted r ∧ p = serve cfg r)).

(** ** Handlers keep what their statements keep *)

Section Keeps.
Context (P : Server → Prop).

Lemma keeps_ok {A} (a : A) : keeps P (ok (E := ApiError) a). Proof. done. Qed.
Lemma keeps_raise {A} (r : result ApiError A) : keeps P (raise r). Proof. done. Qed.
Lemma keeps_require b e : keeps P (require b e). Proof. by destruct b. Qed.
Lemma keeps_some_or {A} (o : option A) e : keeps P (some_or o e). Proof. by destruct o. Qed.
Lemma keeps_clock : keeps P clock. Proof. apply keeps_peek. Qed.
Lemma keeps_update f : (∀ s, P s → P (f s)) → keeps P (update f).
Proof. intros Hf s Hs. split; [by apply Hf|done]. Qed.
End Keeps.
End AuthServer.

Create HintDb keeps.
#[export] Hint Resolve keeps_ok keeps_raise keeps_require keeps_some_or keeps_clock keeps_peek keeps_update
  keeps_call : keeps.

(** Takes a handler apart at its statements. *)
Ltac keeps_step :=
  lazymatch goal with
  | |- keeps _ (try_bind _ _) => apply keeps_try; [|intros ?]
  | |- keeps _ (match ?x with _ => _ end) => destruct x
  | |- keeps _ (let '_ := ?x in _) => destruct x
  | |- keeps _ _ => solve [eauto with keeps]
  end.
Ltac keeps_all := repeat keeps_step.

Section AuthServer.
Context `{AuthLibs}.

Lemma keeps_authed_user P cfg ext h : keeps P (authed_user cfg ext h).
Proof. unfold authed_user. keeps_all. Qed.
Hint Resolve keeps_authed_user : keeps.

Lemma keeps_private {A} P cfg path is_get h (next : option AuthedUser → handler A) :
  (∀ ext, keeps P (next ext)) → keeps P (require_private_session cfg path is_get h next).
Proof. intros Hn. unfold require_private_session. cbv zeta. keeps_all; apply Hn. Qed.

(** ** Refresh tokens, entry by entry *)

Definition tokens_are (good : string → TokenRow → Prop) (s : Server) : Prop := map_Forall good (sv_tokens s).

Lemma on_tokens_keeps {A} good (m : tx (gmap string TokenRow) A) s :
  (∀ a t', m (sv_tokens s) = Ok (a, t') → map_Forall good t') →
  tokens_are good s → tokens_are good (on_tokens m s).2.
Proof.
  intros Hm Hs. unfold on_tokens. destruct (m (sv_tokens s)) as [[a t']|e]; [|done]. by eapply Hm.
Qed.

Lemma consume_sub token now m a m' good :
  consume token now m = Ok (a, m') → map_Forall good m → map_Forall good m'.
Proof.
  unfold consume. destruct (m !! token) as [r|]; intros [= <- <-] Hm; [|done]. by apply map_Forall_delete.
Qed.

Lemma consume_record token now m rec m' :
  consume token now m = Ok (Some rec, m') →
  ∃ r, m !! token = Some r ∧ tk_principal_id r = rf_principal_id rec ∧ tk_session_id r = rf_session_id rec ∧
       now ≤ tk_expires_at r ∧ m' = delete token m.
Proof.
  unfold consume. destruct (m !! token) as [r|]; [|done].
  destruct (Z.ltb_spec (tk_expires_at r) now); [done|]. intros [= <- <-]. by exists r.
Qed.

Lemma keeps_consume good token : keeps (tokens_are good) (consume_refresh_token token).
Proof.
  unfold consume_refresh_token. keeps_all. apply keeps_call. intros s Hs.
  apply on_tokens_keeps; [|done]. intros r t' He. by eapply consume_sub.
Qed.

Lemma keeps_deleting good p : keeps (tokens_are good) (call from_db (on_tokens (deleting (delete_where p)))).
Proof.
  apply keeps_call. intros s Hs. apply on_tokens_keeps; [|done].
  intros r t' [= <- <-] k v [Hk _]%map_lookup_filter_Some. by apply Hs.
Qed.

Lemma keeps_issue good cfg token principal_id session_id :
  (∀ r, tk_principal_id r = principal_id → tk_session_id r = session_id → good token r) →
  keeps (tokens_are good) (issue_refresh_token cfg token principal_id session_id).
Proof.
  intros Hg. unfold issue_refresh_token. keeps_all. apply keeps_call. intros s Hs.
  apply on_tokens_keeps; [|done]. intros r t'. unfold issue. destruct (_ !! token); [done|].
  intros [= <- <-]. apply map_Forall_insert_2; [by apply Hg|done].
Qed.

(** The rows a request may add. *)
Definition mints_good (good : string → TokenRow → Prop) (req : Request) : Prop :=
  match req with
  | ReqSetup ids _ _ _ _ => ∀ r, tk_session_id r = si_session ids → good (si_token ids) r
  | ReqLogin ids _ _ _ | ReqLoginFinish ids _ _ => ∀ r, tk_session_id r = li_session ids → good (li_token ids) r
  | ReqRefresh _ new_token _ => ∀ t r r', good t r → tk_principal_id r' = tk_principal_id r →
      tk_session_id r' = tk_session_id r → good new_token r'
  | _ => True
  end.

Hint Resolve keeps_consume keeps_deleting : keeps.

Lemma keeps_issue_access P cfg principal_id session_id nonce :
  keeps P (issue_access_token cfg principal_id session_id nonce).
Proof. unfold issue_access_token. keeps_all. Qed.
Lemma keeps_access_cookie P cfg access : keeps P (access_cookie cfg access).
Proof. unfold access_cookie. keeps_all. Qed.
Lemma keeps_audit good actor table row change : keeps (tokens_are good) (audit actor table row change).
Proof. unfold audit. keeps_all. Qed.
Lemma keeps_mirror good name value : keeps (tokens_are good) (mirror_secret name value).
Proof. unfold mirror_secret. keeps_all. Qed.
Hint Resolve keeps_issue_access keeps_access_cookie keeps_audit keeps_mirror : keeps.

Lemma keeps_login_tokens good cfg ids user_id :
  (∀ r, tk_session_id r = li_session ids → good (li_token ids) r) →
  keeps (tokens_are good) (issue_login_tokens cfg ids user_id).
Proof.
  intros Hg. unfold issue_login_tokens. keeps_all. apply keeps_issue. intros r _. apply Hg.
Qed.

Lemma consume_answers good token :
  answers (tokens_are good) (λ r, ∀ a, r = Ok a → ∀ rec, a = Some rec →
    ∃ r, good token r ∧ tk_principal_id r = rf_principal_id rec ∧ tk_session_id r = rf_session_id rec)
    (consume_refresh_token token).
Proof.
  intros s _ s' Hs' a. cbn. unfold on_tokens.
  destruct (consume token (sv_clock s) (sv_tokens s')) as [[o t']|e] eqn:Hc; cbn; [|done].
  intros [= <-] rec ->. destruct (consume_record _ _ _ _ _ Hc) as (r & Hr & Hp & Hi & _). exists r. by split; [apply Hs'|].
Qed.

Lemma keeps_refresh good cfg nonce new_token token :
  mints_good good (ReqRefresh nonce new_token token) →
  keeps (tokens_are good) (refresh cfg nonce new_token token).
Proof.
  intros Hg. unfold refresh. eapply keeps_try_answer; [by auto with keeps|apply consume_answers|].
  intros [rec|] Hrec; [|done]. destruct (Hrec rec eq_refl) as (r & Hr & Hp & Hi).
  unfold some_or at 1. rewrite try_ok. keeps_all.
  apply keeps_issue. intros r' Hp' Hi'. apply (Hg token r r'); [done|congruence..].
Qed.

(** Statements on the other tables. *)
Lemma keeps_on_users {A} good from (m : tx (gmap string UserRecord) A) :
  keeps (tokens_are good) (call (E := ApiError) from (on_users m)).
Proof. apply keeps_call. intros s Hs. unfold on_users. by destruct (m (sv_users s)) as [[a u]|e]. Qed.
Lemma keeps_on_credentials {A} good from (m : tx (gmap string CredentialRow) A) :
  keeps (tokens_are good) (call (E := ApiError) from (on_credentials m)).
Proof. apply keeps_call. intros s Hs. unfold on_credentials. by destruct (m (sv_credentials s)) as [[a u]|e]. Qed.
Lemma keeps_insert_credential good from credential_id row :
  keeps (tokens_are good) (call (E := ApiError) from (insert_credential credential_id row)).
Proof.
  apply keeps_call. intros s Hs. unfold insert_credential.
  destruct (_ <=? _); [done|]. destruct (bool_decide _); [done|]. by destruct (bool_decide _).
Qed.
Lemma keeps_delete_user good from user_id : keeps (tokens_are good) (call (E := ApiError) from (delete_user user_id)).
Proof. apply keeps_call. by intros s Hs. Qed.
Lemma keeps_set_password good from user_id hash :
  keeps (tokens_are good) (call (E := ApiError) from (set_password_hash_and_revoke_all user_id hash)).
Proof.
  apply keeps_call. intros s Hs. unfold set_password_hash_and_revoke_all.
  destruct (sv_users s !! user_id); [|done]. intros k v [Hk _]%map_lookup_filter_Some. by apply Hs.
Qed.
Lemma keeps_limit_login good ip : keeps (tokens_are good) (limit_login ip).
Proof. intros s Hs. destruct (check_and_record ip _ _) as [[]]; done. Qed.
Lemma keeps_take_auth good ceremony_id : keeps (tokens_are good) (take_auth ceremony_id).
Proof. intros s Hs. split; [done|]. by destruct (_ !! _). Qed.
Lemma keeps_take_registration good ceremony_id : keeps (tokens_are good) (take_registration ceremony_id).
Proof. intros s Hs. split; [done|]. by destruct (_ !! _). Qed.

Hint Resolve keeps_on_users keeps_on_credentials keeps_insert_credential keeps_delete_user keeps_set_password
  keeps_limit_login keeps_take_auth keeps_take_registration : keeps.

Lemma keeps_begin_assertion good cfg ids user_id :
  keeps (tokens_are good) (begin_login_assertion cfg ids user_id).
Proof. unfold begin_login_assertion. keeps_all. Qed.
Lemma keeps_finish_authentication good ceremony_id cred :
  keeps (tokens_are good) (finish_authentication ceremony_id cred).
Proof. unfold finish_authentication. keeps_all. Qed.
Lemma keeps_finish_registration good ceremony_id cred :
  keeps (tokens_are good) (finish_registration ceremony_id cred).
Proof. unfold finish_registration. keeps_all. Qed.
Hint Resolve keeps_begin_assertion keeps_finish_authentication keeps_finish_registration : keeps.

(** Every request keeps what its own rows keep. *)
Lemma serve_keeps good cfg req :
  mints_good good req → keeps (tokens_are good) (serve cfg req).
Proof.
  intros Hg. destruct req; cbn [serve mints_good] in *; try (apply keeps_private; intros ext).
  - unfold setup. keeps_all. apply keeps_issue. auto.
  - unfold login. keeps_all. by apply keeps_login_tokens.
  - unfold login_assert_finish. keeps_all. by apply keeps_login_tokens.
  - by apply keeps_refresh.
  - unfold logout, revoke_session. keeps_all.
  - unfold logout_all, revoke_all_for_user. keeps_all.
  - unfold list_users. keeps_all.
  - unfold invite. keeps_all.
  - unfold remove_user. keeps_all.
  - unfold change_my_password. keeps_all.
  - unfold reset_user_password. keeps_all.
  - unfold register_begin. keeps_all.
  - unfold register_finish. keeps_all.
  - unfold list_credentials. keeps_all.
  - unfold delete_credential. keeps_all.
  - unfold purge_expired, purge_expired_tokens. keeps_all.
Qed.

Lemma drifts_tokens good s s' : drifts s s' → tokens_are good s → tokens_are good s'.
Proof. by intros (c & i & h & ->). Qed.

(** What a request did to the refresh tokens stays done. *)
Lemma server_keeps good cfg submitted s ps s' ps' :
  server_steps cfg submitted (s, ps) (s', ps') →
  (∀ r, submitted r → mints_good good r) →
  tokens_are good s → Forall (keeps (tokens_are good)) ps → tokens_are good s'.
Proof.
  intros Hsteps Hsub Hs Hps.
  eapply (pool_keeps _ _ (tokens_are good)) in Hsteps as [Hs' _]; [exact Hs'|..]; [|..|exact Hs|exact Hps].
  - intros s1 s2. apply drifts_tokens.
  - intros s1 p (r & Hr & ->). by apply serve_keeps, Hsub.
Qed.

(** ** A handler alone *)

Lemma run_require {A} b e (q : () → handler A) s :
  run_proc (try_bind (require b e) q) s = if b then run_proc (q ()) s else (Err e, s).
Proof. by destruct b. Qed.
Lemma run_some_or {A B} (o : option A) e (q : A → handler B) s :
  run_proc (try_bind (some_or o e) q) s = match o with Some a => run_proc (q a) s | None => (Err e, s) end.
Proof. by destruct o. Qed.
Lemma run_peek {A B} (f : Server → A) (q : A → handler B) s :
  run_proc (try_bind (peek f) q) s = run_proc (q (f s)) s.
Proof. done. Qed.
Lemma run_clock {B} (q : Z → handler B) s : run_proc (try_bind clock q) s = run_proc (q (sv_clock s)) s.
Proof. done. Qed.
Lemma run_update {B} f (q : () → handler B) s : run_proc (try_bind (update f) q) s = run_proc (q ()) (f s).
Proof. done. Qed.
Lemma run_raise {A B} (r : result ApiError A) (q : A → handler B) s :
  run_proc (try_bind (raise r) q) s = match r with Ok a => run_proc (q a) s | Err e => (Err e, s) end.
Proof. by destruct r. Qed.
Lemma run_call_bind {E' A B} from (m : act Server E' A) (q : A → handler B) s :
  run_proc (try_bind (call from m) q) s =
  match m s with (Ok a, s) => run_proc (q a) s | (Err e, s) => (Err (from e), s) end.
Proof. rewrite run_try_bind, run_call. by destruct (m s) as [[a|e] s']. Qed.

(** Who a request comes from, as a function of the state. *)
Definition authenticate (cfg : ServerConfig) (h : Headers) (s : Server) : result ApiError AuthedUser :=
  match token_of h with
  | None => Err no_token
  | Some token =>
      match jwt_decode (cf_issuer cfg) (sv_clock s) token with
      | None => Err invalid_access
      | Some claims =>
          if session_is_active (cl_sub claims) (cl_sid claims) (sv_clock s) (sv_tokens s) then
            match get_by_id (cl_sub claims) (sv_users s) with
            | None => Err user_gone
            | Some row => Ok (mkAuthedUser row (Some (cl_sid claims)))
            end
          else Err session_revoked
      end
  end.

Lemma run_authed_user cfg h s : run_proc (authed_user cfg None h) s = (authenticate cfg h s, s).
Proof.
  unfold authed_user, authenticate. rewrite run_some_or. destruct (token_of h) as [token|]; [|done].
  rewrite run_clock, run_some_or. destruct (jwt_decode _ _ token) as [claims|]; [|done].
  rewrite run_clock, run_peek, run_require. destruct (session_is_active _ _ _ _); [|done].
  rewrite run_peek, run_some_or. by destruct (get_by_id _ _).
Qed.

Lemma run_authed_bind {A} cfg h (q : AuthedUser → handler A) s :
  run_proc (try_bind (authed_user cfg None h) q) s =
  match authenticate cfg h s with Ok u => run_proc (q u) s | Err e => (Err e, s) end.
Proof. rewrite run_try_bind, run_authed_user. by destruct (authenticate cfg h s). Qed.

Definition is_controller (u : AuthedUser) : bool := bool_decide (us_role (au_row u) = Controller).

(** The guard of the private routes. *)
Definition private_path (path : string) : bool :=
  String.eqb path "/api/admin" || starts_with path "/api/admin/"
  || (String.eqb path "/api/chats" || starts_with path "/api/chats/")
  || String.eqb path "/api/stream".

Lemma run_private {A} cfg path is_get h (next : option AuthedUser → handler A) s :
  run_proc (require_private_session cfg path is_get h next) s =
  if private_path path then
    match authenticate cfg h s with
    | Err e => (Err e, s)
    | Ok u => if is_controller u || (String.eqb path "/api/admin/users" && is_get)
              then run_proc (next (Some u)) s else (Err controller_required, s)
    end
  else run_proc (next None) s.
Proof.
  unfold require_private_session, private_path, is_controller. cbv zeta.
  destruct (String.eqb_spec path "/api/admin/users") as [->|_].
  - cbn [String.eqb Ascii.eqb Bool.eqb]. change (starts_with "/api/admin/users" "/api/admin/") with true.
    change (starts_with "/api/admin/users" "/api/chats/") with false. cbn [orb andb negb].
    rewrite run_authed_bind. destruct (authenticate cfg h s) as [u|e]; [|done].
    rewrite run_require. destruct is_get, (bool_decide _); done.
  - destruct (_ || starts_with path "/api/admin/"), (_ || starts_with path "/api/chats/"),
      (String.eqb path "/api/stream"); cbn [orb andb negb]; try done;
      rewrite run_authed_bind; (destruct (authenticate cfg h s) as [u|e]; [|done]);
      rewrite run_require; by destruct (bool_decide _).
Qed.

(** ** Accounts *)

Definition users_are (Q : gmap string UserRecord → Prop) (s : Server) : Prop := Q (sv_users s).

(** The account table changes through insertions, password changes and stamps
    only; the deletion of a user is left to the request that makes it. *)
Definition writes_keep (Q : gmap string UserRecord → Prop) (req : Request) : Prop :=
  match req with
  | ReqSetup _ _ _ _ _ | ReqInvite _ _ _ _ _ _ _ _ => ∀ row m m', insert_user row m = Ok ((), m') → Q m → Q m'
  | ReqChangePassword _ _ _ _ | ReqResetPassword _ _ _ _ => ∀ id hash m, Q m → Q (alter (set_hash hash) id m)
  | ReqRemoveUser _ _ => False
  | _ => True
  end.

Section Users.
Context (Q : gmap string UserRecord → Prop).

Lemma users_on_tokens {A} from (m : tx (gmap string TokenRow) A) :
  keeps (users_are Q) (call (E := ApiError) from (on_tokens m)).
Proof. apply keeps_call. intros s Hs. unfold on_tokens. by destruct (m (sv_tokens s)) as [[a u]|e]. Qed.
Lemma users_on_credentials {A} from (m : tx (gmap string CredentialRow) A) :
  keeps (users_are Q) (call (E := ApiError) from (on_credentials m)).
Proof. apply keeps_call. intros s Hs. unfold on_credentials. by destruct (m (sv_credentials s)) as [[a u]|e]. Qed.
Lemma users_insert_credential from credential_id row :
  keeps (users_are Q) (call (E := ApiError) from (insert_credential credential_id row)).
Proof.
  apply keeps_call. intros s Hs. unfold insert_credential.
  destruct (_ <=? _); [done|]. destruct (bool_decide _); [done|]. by destruct (bool_decide _).
Qed.
Lemma users_limit_login ip : keeps (users_are Q) (limit_login ip).
Proof. intros s Hs. destruct (check_and_record ip _ _) as [[]]; done. Qed.
Lemma users_take_auth ceremony_id : keeps (users_are Q) (take_auth ceremony_id).
Proof. intros s Hs. split; [done|]. by destruct (_ !! _). Qed.
Lemma users_take_registration ceremony_id : keeps (users_are Q) (take_registration ceremony_id).
Proof. intros s Hs. split; [done|]. by destruct (_ !! _). Qed.
Lemma users_audit actor table row change : keeps (users_are Q) (audit actor table row change).
Proof. unfold audit. keeps_all. Qed.
Lemma users_mirror name value : keeps (users_are Q) (mirror_secret name value).
Proof. unfold mirror_secret. keeps_all. Qed.

Hint Resolve users_on_tokens users_on_credentials users_insert_credential users_limit_login users_take_auth
  users_take_registration users_audit users_mirror : keeps.

Lemma users_consume token : keeps (users_are Q) (consume_refresh_token token).
Proof. unfold consume_refresh_token. keeps_all. Qed.
Lemma users_issue cfg token principal_id session_id :
  keeps (users_are Q) (issue_refresh_token cfg token principal_id session_id).
Proof. unfold issue_refresh_token. keeps_all. Qed.
Hint Resolve users_consume users_issue : keeps.

Lemma users_insert from row :
  (∀ m m', insert_user row m = Ok ((), m') → Q m → Q m') →
  keeps (users_are Q) (call (E := ApiError) from (on_users (insert_user row))).
Proof.
  intros Hq. apply keeps_call. intros s Hs. unfold on_users.
  destruct (insert_user row (sv_users s)) as [[[] u]|e] eqn:Hi; [|done]. by eapply Hq.
Qed.

Lemma users_set_password from user_id hash :
  (∀ m, Q m → Q (alter (set_hash hash) user_id m)) →
  keeps (users_are Q) (call (E := ApiError) from (set_password_hash_and_revoke_all user_id hash)).
Proof.
  intros Hq. apply keeps_call. intros s Hs. unfold set_password_hash_and_revoke_all.
  destruct (sv_users s !! user_id); [|done]. by apply Hq.
Qed.

Context (Htouch : ∀ id at_ m, Q m → Q (touch_login id at_ m)).

Lemma users_touch user_id now :
  keeps (users_are Q) (update (λ s, with_users (touch_login user_id now (sv_users s)) s)).
Proof. apply keeps_update. intros s. apply Htouch. Qed.
Hint Resolve users_touch : keeps.

Lemma users_login_tokens cfg ids user_id : keeps (users_are Q) (issue_login_tokens cfg ids user_id).
Proof. unfold issue_login_tokens. keeps_all. Qed.
Lemma users_begin_assertion cfg ids user_id : keeps (users_are Q) (begin_login_assertion cfg ids user_id).
Proof. unfold begin_login_assertion. keeps_all. Qed.
Lemma users_finish_authentication ceremony_id cred : keeps (users_are Q) (finish_authentication ceremony_id cred).
Proof. unfold finish_authentication. keeps_all. Qed.
Lemma users_finish_registration ceremony_id cred : keeps (users_are Q) (finish_registration ceremony_id cred).
Proof. unfold finish_registration. keeps_all. Qed.
Hint Resolve users_login_tokens users_begin_assertion users_finish_authentication users_finish_registration : keeps.

Lemma serve_keeps_users cfg req : writes_keep Q req → keeps (users_are Q) (serve cfg req).
Proof.
  intros Hw. destruct req; cbn [serve writes_keep] in *; try (apply keeps_private; intros ext).
  - unfold setup. keeps_all. apply users_insert. intros m m'. apply Hw.
  - unfold login. keeps_all.
  - unfold login_assert_finish. keeps_all.
  - unfold refresh. keeps_all.
  - unfold logout. keeps_all.
  - unfold logout_all. keeps_all.
  - unfold list_users. keeps_all.
  - unfold invite. keeps_all. apply users_insert. intros m m'. apply Hw.
  - done.
  - unfold change_my_password. keeps_all. apply users_set_password. intros m. apply Hw.
  - unfold reset_user_password. keeps_all. apply users_set_password. intros m. apply Hw.
  - unfold register_begin. keeps_all.
  - unfold register_finish. keeps_all.
  - unfold list_credentials. keeps_all.
  - unfold delete_credential. keeps_all.
  - unfold purge_expired. keeps_all.
Qed.
End Users.
End AuthServer.

#[export] Hint Resolve keeps_authed_user keeps_consume keeps_deleting keeps_issue_access keeps_access_cookie
  keeps_audit keeps_mirror keeps_on_users keeps_on_credentials keeps_insert_credential keeps_delete_user
  keeps_set_password keeps_limit_login keeps_take_auth keeps_take_registration keeps_begin_assertion
  keeps_finish_authentication keeps_finish_registration : keeps.
