(* ===== verification/AuthSafety.v ===== *)
(** * Accounts and sessions: the theorems

    What the requests of [AuthServer] guarantee: who changes accounts, that a
    Controller remains, that signing out is final and a refresh token is used
    once in every interleaving, how often a password may be guessed and when
    the second factor is asked for; and the two races the handlers leave. *)

From Stdlib Require Import Strings.Ascii Sorting.Sorted.
From stdpp Require Import relations.
From S2P Require Import Prelude Wire Text ServiceBase Procs AuthStores AuthRoutes AuthServer.

Section Accounts.
Context `{AuthLibs}.

(** ** Who changes accounts *)

(** Everything of an account but its last login and its profile. *)
Definition account (r : UserRecord) : string * string * string := (uc_username r, uc_password_hash r, uc_role r).
Definition accounts (s : Server) : gmap string (string * string * string) := account <$> sv_users s.

Definition headers_of (req : Request) : option Headers :=
  match req with
  | ReqInvite h _ _ _ _ _ _ _ | ReqRemoveUser h _ | ReqChangePassword h _ _ _ | ReqResetPassword h _ _ _ => Some h
  | _ => None
  end.

(** A live session of a Controller stands behind [h]. *)
Definition controller_session (cfg : ServerConfig) (h : Headers) (s : Server) : Prop :=
  ∃ token claims row tok r,
    token_of h = Some token ∧ jwt_decode (cf_issuer cfg) (sv_clock s) token = Some claims ∧
    sv_users s !! cl_sub claims = Some row ∧ default Controller (parse_role (uc_role row)) = Controller ∧
    sv_tokens s !! tok = Some r ∧ tk_principal_id r = cl_sub claims ∧ tk_session_id r = cl_sid claims ∧
    sv_clock s < tk_expires_at r.

Lemma authenticate_ok cfg h s u :
  authenticate cfg h s = Ok u →
  ∃ token claims row tok r,
    token_of h = Some token ∧ jwt_decode (cf_issuer cfg) (sv_clock s) token = Some claims ∧
    sv_users s !! cl_sub claims = Some row ∧ u = mkAuthedUser (row_to_user (cl_sub claims) row) (Some (cl_sid claims)) ∧
    sv_tokens s !! tok = Some r ∧ tk_principal_id r = cl_sub claims ∧ tk_session_id r = cl_sid claims ∧
    sv_clock s < tk_expires_at r.
Proof.
  unfold authenticate. destruct (token_of h) as [token|]; [|done].
  destruct (jwt_decode _ _ token) as [claims|] eqn:Hd; [|done].
  destruct (session_is_active _ _ _ _) eqn:Hs; [|done]. unfold get_by_id.
  destruct (sv_users s !! cl_sub claims) as [row|] eqn:Hr; [|done]. intros [= <-].
  apply bool_decide_eq_true in Hs as (tok & r & Ht & Hp & Hi & Hx). by exists token, claims, row, tok, r.
Qed.

Lemma controller_authenticated cfg h s u :
  authenticate cfg h s = Ok u → is_controller u = true → controller_session cfg h s.
Proof.
  intros (token & claims & row & tok & r & Ht & Hd & Hr & -> & Hrest)%authenticate_ok Hc%bool_decide_eq_true.
  by exists token, claims, row, tok, r.
Qed.

Lemma accounts_touch m id at_ : account <$> touch_login id at_ m = account <$> m.
Proof.
  apply map_eq. intros k. rewrite !lookup_fmap. unfold touch_login.
  destruct (decide (k = id)) as [->|Hk]; [rewrite lookup_alter_eq|by rewrite lookup_alter_ne].
  by destruct (m !! id).
Qed.

(** A private route does nothing for anybody but a Controller. *)
Lemma private_idle {A} cfg path h (next : option AuthedUser → handler A) s :
  private_path path = true → String.eqb path "/api/admin/users" = false →
  (run_proc (require_private_session cfg path false h next) s).2 = s ∨ controller_session cfg h s.
Proof.
  intros Hp Hu. rewrite run_private, Hp, Hu. destruct (authenticate cfg h s) as [u|e] eqn:Ha; [|by left].
  destruct (is_controller u) eqn:Hc; [|by left]. right. by eapply controller_authenticated.
Qed.

(** C34: Only a Controller with a live session changes accounts.  Whatever request
    of [Request] is served (a factory reset is not one), user names, password hashes and roles stay as they are, unless
    it is the setup of a server without any user, or its sender holds an access
    token of a user whose role reads Controller and a refresh token of that
    very session is on record and has not expired. *)
Theorem account_changes_authorized cfg req s :
  accounts (run_proc (serve cfg req) s).2 = accounts s ∨
  (sv_users s = ∅ ∧ ∃ ids username password name email, req = ReqSetup ids username password name email) ∨
  ∃ h, headers_of req = Some h ∧ controller_session cfg h s.
Proof.
  pose (Q m := account <$> m = accounts s).
  assert (writes_keep Q req → accounts (run_proc (serve cfg req) s).2 = accounts s) as Hkeep.
  { intros Hw. apply (keeps_run (users_are Q)); [|done]. apply serve_keeps_users; [|done].
    intros id at_ m. unfold Q. by rewrite accounts_touch. }
  destruct req; try (left; by apply Hkeep); cbn [headers_of serve];
    try (match goal with |- context [run_proc (require_private_session ?c ?p false ?h ?n) ?s] =>
           destruct (private_idle c p h n s) as [E|Hc] end;
         [done|done|left; unfold accounts; by rewrite E|right; right; by eexists]).
  destruct (any_exist (sv_users s)) eqn:Hany.
  - left. unfold setup. rewrite !run_require. destruct (8 <=? _); [|done]. destruct (negb _); [|done].
    rewrite run_raise. destruct (normalize_username username); [|done]. rewrite run_peek, run_require.
    by rewrite Hany.
  - right; left. split; [|by do 5 eexists]. apply map_size_empty_inv.
    unfold any_exist in Hany. apply Nat.ltb_ge in Hany. lia.
Qed.
End Accounts.

Section Controllers.
Context `{AuthLibs}.

(** ** A Controller remains *)

Definition controller_row (r : UserRecord) : Prop := uc_role r = "controller".
Definition has_controller (m : gmap string UserRecord) : Prop := ∃ id r, m !! id = Some r ∧ controller_row r.

(** The requests served one after the other. *)
Fixpoint serve_all (cfg : ServerConfig) (reqs : list Request) (s : Server) : Server :=
  match reqs with [] => s | r :: reqs => serve_all cfg reqs (run_proc (serve cfg r) s).2 end.

Lemma has_controller_alter f id m :
  (∀ r, uc_role (f r) = uc_role r) → has_controller m → has_controller (alter f id m).
Proof.
  intros Hf (k & r & Hk & Hr). destruct (decide (k = id)) as [->|Hne].
  - exists id, (f r). by rewrite lookup_alter_eq, Hk; unfold controller_row; rewrite Hf.
  - exists k, r. by rewrite lookup_alter_ne.
Qed.

Lemma has_controller_insert row m m' :
  insert_user row m = Ok ((), m') → has_controller m → has_controller m'.
Proof.
  unfold insert_user. destruct (_ || _) eqn:Hn; [done|]. apply orb_false_iff in Hn as [Hn%bool_decide_eq_false _].
  intros [= <-] (k & r & Hk & Hr). exists k, r. split; [|done]. rewrite lookup_insert_ne; [done|].
  intros <-. apply Hn. by rewrite Hk.
Qed.

(** If two rows are Controllers, one of them is not [id]. *)
Lemma another_controller id m : 1 < count_by_role Controller m → has_controller (delete id m).
Proof.
  unfold count_by_role. set (c := filter _ m). intros Hc.
  assert (size (delete id c) ≠ 0)%nat as Hs.
  { rewrite map_size_delete. destruct (c !! id); cbn; lia. }
  apply map_size_non_empty_iff, map_choose in Hs as (k & r & [Hne Hk]%lookup_delete_Some).
  apply map_lookup_filter_Some in Hk as [Hk Hr]. exists k, r. by rewrite lookup_delete_ne.
Qed.

(** What removing a user may do to the accounts. *)
Lemma remove_user_effect cfg ext h target_id s :
  sv_users (run_proc (remove_user cfg ext h target_id) s).2 = sv_users s ∨
  (sv_users (run_proc (remove_user cfg ext h target_id) s).2 = delete target_id (sv_users s) ∧
   ∃ r, sv_users s !! target_id = Some r ∧
     (default Controller (parse_role (uc_role r)) = Controller → 1 < count_by_role Controller (sv_users s))).
Proof.
  unfold remove_user. rewrite run_try_bind.
  replace (run_proc (authed_user cfg ext h) s) with (from_option Ok (authenticate cfg h s) ext, s)
    by (destruct ext; [done|by rewrite run_authed_user]).
  destruct (from_option Ok _ ext) as [u|e]; [|by left]. rewrite !run_require.
  destruct (bool_decide _); [|by left]. destruct (negb _); [|by left]. rewrite run_peek, run_some_or.
  unfold get_by_id. destruct (sv_users s !! target_id) as [r|] eqn:Hr; [|by left]. cbn [fmap option_fmap option_map].
  rewrite run_try_bind.
  destruct (decide (us_role (row_to_user target_id r) = Controller)) as [Hc|Hc];
    [rewrite !(bool_decide_true _ Hc), run_peek|rewrite !(bool_decide_false _ Hc)].
  - destruct (Z.leb_spec (count_by_role Controller (sv_users s)) 1); [by left|].
    right. split; [done|]. by exists r.
  - right. split; [done|]. by exists r.
Qed.

Lemma removal_keeps cfg ext h target_id s :
  has_controller (sv_users s) → has_controller (sv_users (run_proc (remove_user cfg ext h target_id) s).2).
Proof.
  intros Hs. destruct (remove_user_effect cfg ext h target_id s) as [->|(-> & r & Hr & Hn)]; [done|].
  destruct (decide (default Controller (parse_role (uc_role r)) = Controller)) as [Hc|Hc];
    [by apply another_controller, Hn|].
  destruct Hs as (k & r' & Hk & Hr'). exists k, r'. split; [|done]. rewrite lookup_delete_ne; [done|].
  intros <-. simplify_eq. apply Hc. by rewrite Hr'.
Qed.

(** C19: Somebody can always administer the server.  Once there is a user whose
    role is Controller, there is one after any sequence of the requests of
    [Request] served one after the other, whatever they are and whether they
    succeed.  A factory reset is not among them: it leaves no account. *)
Theorem controller_remains cfg reqs s :
  has_controller (sv_users s) → has_controller (sv_users (serve_all cfg reqs s)).
Proof.
  revert s. induction reqs as [|req reqs IH]; intros s Hs; [done|]. cbn [serve_all]. apply IH.
  assert (writes_keep has_controller req → has_controller (sv_users (run_proc (serve cfg req) s).2)) as Hkeep.
  { intros Hw. apply (keeps_run (users_are has_controller)); [|done]. apply serve_keeps_users; [|done].
    intros id at_ m. by apply has_controller_alter. }
  destruct req; try (by apply Hkeep); [apply Hkeep; exact has_controller_insert|apply Hkeep; exact has_controller_insert|..].
  - cbn [serve]. rewrite run_private. destruct (private_path _); [|by apply removal_keeps].
    destruct (authenticate cfg h s) as [u|e]; [|done]. destruct (_ || _); [by apply removal_keeps|done].
  - apply Hkeep. intros id hash m. by apply has_controller_alter.
  - apply Hkeep. intros id hash m. by apply has_controller_alter.
Qed.
End Controllers.

Section Sessions.
Context `{AuthLibs}.

(** ** Signing out *)

Definition no_session (principal_id session_id : string) : Server → Prop :=
  tokens_are (λ _ r, ¬ (tk_principal_id r = principal_id ∧ tk_session_id r = session_id)).
Definition signed_out (principal_id : string) : Server → Prop :=
  tokens_are (λ _ r, tk_principal_id r ≠ principal_id).

(** [req] signs [principal_id] out of every session. *)
Definition signs_out (cfg : ServerConfig) (s : Server) (req : Request) (principal_id : string) : Prop :=
  match req with
  | ReqLogoutAll h | ReqChangePassword h _ _ _ =>
      ∃ u, authenticate cfg h s = Ok u ∧ us_user_id (au_row u) = principal_id
  | ReqResetPassword _ _ target_id _ => target_id = principal_id
  | _ => False
  end.

Lemma signed_out_no_session p sid s : signed_out p s → no_session p sid s.
Proof. intros Hs k r Hr [Hp _]. by apply (Hs k r). Qed.

Lemma filtered_signed_out p (m : gmap string TokenRow) (k : string) r :
  filter (λ kv : string * TokenRow, of_principal p kv.2 = false) m !! k = Some r → tk_principal_id r ≠ p.
Proof. intros [_ Hf]%map_lookup_filter_Some. by apply String.eqb_neq. Qed.

Lemma set_password_signs_out p hash s n s' :
  set_password_hash_and_revoke_all p hash s = (Ok (Some n), s') → signed_out p s'.
Proof.
  unfold set_password_hash_and_revoke_all. destruct (sv_users s !! p); [|done].
  intros [= _ <-] k r. apply filtered_signed_out.
Qed.

(** The end both password routes share. *)
Lemma rotated_signs_out from p hash e actor row by_ s resp s1 :
  run_proc (let^ revoked := call from (set_password_hash_and_revoke_all p hash) in
            let^ revoked := some_or revoked e in
            let^ _ := audit actor "users" row (PasswordRotated by_ revoked) in
            ok (PasswordChanged revoked)) s = (Ok resp, s1) → signed_out p s1.
Proof.
  rewrite run_call_bind. destruct (set_password_hash_and_revoke_all p hash s) as [[[n|]|e'] s'] eqn:Hset; [|done..].
  rewrite run_some_or. intros [= _ <-]. by apply set_password_signs_out in Hset.
Qed.

Lemma change_signs_out cfg u h salt current new s resp s1 :
  run_proc (change_my_password cfg (Some u) h salt current new) s = (Ok resp, s1) → signed_out (us_user_id (au_row u)) s1.
Proof.
  unfold change_my_password. cbn [authed_user]. rewrite try_ok, run_require. destruct (8 <=? _); [|done].
  rewrite run_peek, run_some_or. destruct (get_by_id _ _) as [row|]; [|done]. rewrite run_some_or.
  destruct (verify_password _ _) as [v|]; [|done]. rewrite run_require. destruct v; [|done]. rewrite run_some_or.
  destruct (hash_password salt new) as [hash|]; [|done]. apply rotated_signs_out.
Qed.

Lemma reset_signs_out cfg u h salt target_id new s resp s1 :
  run_proc (reset_user_password cfg (Some u) h salt target_id new) s = (Ok resp, s1) → signed_out target_id s1.
Proof.
  unfold reset_user_password. cbn [authed_user]. rewrite try_ok, run_require. destruct (8 <=? _); [|done].
  rewrite run_require. destruct (negb _); [|done]. rewrite run_peek, run_some_or.
  destruct (get_by_id _ _) as [c|]; [|done]. rewrite run_require. destruct (bool_decide _); [|done].
  rewrite run_peek, run_some_or. unfold get_by_id. destruct (sv_users s !! target_id) as [t|]; [|done].
  cbn [fmap option_fmap option_map]. rewrite run_some_or. destruct (hash_password salt new) as [hash|]; [|done].
  apply rotated_signs_out.
Qed.

Lemma signs_out_signed_out cfg s req p resp s1 :
  signs_out cfg s req p → run_proc (serve cfg req) s = (Ok resp, s1) → signed_out p s1.
Proof.
  destruct req; cbn [signs_out serve]; try done.
  - intros (u & Ha & <-). unfold logout_all. rewrite run_authed_bind, Ha, run_call_bind.
    intros [= _ <-] k r. apply filtered_signed_out.
  - intros (u & Ha & <-). rewrite run_private, Ha. cbn [private_path].
    destruct (is_controller u || _); [|done]. apply change_signs_out.
  - intros ->. rewrite run_private. destruct (private_path _) eqn:Hp; [|discriminate Hp].
    destruct (authenticate cfg h s) as [u|e]; [|done]. destruct (is_controller u || _); [|done].
    apply reset_signs_out.
Qed.

(** Without a row of its session an access token is refused. *)
Lemma no_session_rejected cfg h s token claims :
  token_of h = Some token → jwt_decode (cf_issuer cfg) (sv_clock s) token = Some claims →
  no_session (cl_sub claims) (cl_sid claims) s →
  run_proc (authed_user cfg None h) s = (Err session_revoked, s).
Proof.
  intros Ht Hd Hs. rewrite run_authed_user. unfold authenticate. rewrite Ht, Hd.
  unfold session_is_active. rewrite bool_decide_eq_false_2; [done|].
  intros (k & r & Hk & Hp & Hi & _). by apply (Hs k r).
Qed.

(** A session no request mints again. *)
Definition session_not_minted (session_id : string) (req : Request) : Prop :=
  match req with
  | ReqSetup ids _ _ _ _ => si_session ids ≠ session_id
  | ReqLogin ids _ _ _ | ReqLoginFinish ids _ _ => li_session ids ≠ session_id
  | _ => True
  end.

Lemma not_minted_good p sid req :
  session_not_minted sid req → mints_good (λ _ r, ¬ (tk_principal_id r = p ∧ tk_session_id r = sid)) req.
Proof.
  destruct req; cbn; try done.
  - intros Hs r Hr [_ Hi]. congruence.
  - intros Hs r Hr [_ Hi]. congruence.
  - intros Hs r Hr [_ Hi]. congruence.
  - intros _ _ r r' Hr Hp Hi [Hp' Hi']. apply Hr. split; congruence.
Qed.

(** C12: Signing out is final.  Once "sign out everywhere", a change of password
    or a reset by a Controller has answered, no access token of any session the
    user had is accepted again: not whatever requests follow, in whatever
    interleaving of their statements and at whatever time, and although those
    tokens are still validly signed.  The handlers already in flight at that
    moment must not be about to write a row of the session, as a refresh
    between its two statements is. *)
Theorem signed_out_for_good cfg req p sid s resp s1 ps s' ps' submitted :
  signs_out cfg s req p → run_proc (serve cfg req) s = (Ok resp, s1) →
  Forall (keeps (no_session p sid)) ps → (∀ r, submitted r → session_not_minted sid r) →
  server_steps cfg submitted (s1, ps) (s', ps') →
  ∀ h token claims, token_of h = Some token → jwt_decode (cf_issuer cfg) (sv_clock s') token = Some claims →
    cl_sub claims = p → cl_sid claims = sid → run_proc (authed_user cfg None h) s' = (Err session_revoked, s').
Proof.
  intros Hout Hrun Hps Hsub Hsteps h token claims Ht Hd <- <-.
  eapply no_session_rejected; [done..|].
  eapply server_keeps; [exact Hsteps|..|exact Hps].
  - intros r Hr. by apply not_minted_good, Hsub.
  - eapply signed_out_no_session, signs_out_signed_out; done.
Qed.

(** ** Refresh tokens *)

Definition token_not_minted (token : string) (req : Request) : Prop :=
  match req with
  | ReqSetup ids _ _ _ _ => si_token ids ≠ token
  | ReqLogin ids _ _ _ | ReqLoginFinish ids _ _ => li_token ids ≠ token
  | ReqRefresh _ new_token _ => new_token ≠ token
  | _ => True
  end.

Definition token_gone (token : string) : Server → Prop := tokens_are (λ t _, t ≠ token).

Definition refresh_refused : ApiError :=
  unauthorized "invalid_refresh_token" "refresh token invalid, expired, or already used".

Lemma consume_gone token now m o m' : consume token now m = Ok (o, m') → map_Forall (λ t _, t ≠ token) m'.
Proof.
  unfold consume. destruct (m !! token) as [r|] eqn:Hm; intros [= <- <-] k r' Hr' ->.
  - by rewrite lookup_delete_eq in Hr'.
  - by rewrite Hm in Hr'.
Qed.

Lemma issue_other token new p sid ttl now m a m' :
  new ≠ token → issue new p sid ttl now m = Ok (a, m') → map_Forall (λ t _, t ≠ token) m → map_Forall (λ t _, t ≠ token) m'.
Proof.
  intros Hne. unfold issue. destruct (m !! new); [done|]. intros [= <- <-] Hm. by apply map_Forall_insert_2.
Qed.

Lemma refresh_uses_up cfg nonce new token s :
  new ≠ token → token_gone token (run_proc (refresh cfg nonce new token) s).2.
Proof.
  intros Hne. unfold refresh. rewrite run_try_bind. unfold consume_refresh_token. rewrite run_clock, run_call.
  unfold on_tokens. destruct (consume token (sv_clock s) (sv_tokens s)) as [[o m']|e] eqn:Hc.
  - apply (keeps_run (token_gone token)); [|by eapply consume_gone].
    keeps_all. apply keeps_issue. intros r _ _. done.
  - by unfold consume in Hc; destruct (_ !! token).
Qed.

(** A refresh token is used once.  Whatever a refresh answered, its token is
    gone: every later refresh with it is refused and changes nothing, after
    any interleaving with other requests that do not mint the same token. *)
Theorem refresh_token_single_use cfg nonce new token s s' ps ps' submitted :
  new ≠ token → Forall (keeps (token_gone token)) ps → (∀ r, submitted r → token_not_minted token r) →
  server_steps cfg submitted ((run_proc (refresh cfg nonce new token) s).2, ps) (s', ps') →
  ∀ nonce' new', run_proc (refresh cfg nonce' new' token) s' = (Err refresh_refused, s').
Proof.
  intros Hne Hps Hsub Hsteps nonce' new'.
  assert (token_gone token s') as Hgone.
  { eapply server_keeps; [exact Hsteps|..|exact Hps]; [|by apply refresh_uses_up].
    intros r Hr%Hsub. destruct r; cbn in *; try done; intros; congruence. }
  unfold refresh. rewrite run_try_bind. unfold consume_refresh_token. rewrite run_clock, run_call.
  unfold on_tokens, consume. destruct (sv_tokens s' !! token) as [r|] eqn:Hr; [by apply (Hgone token r) in Hr|].
  by destruct s'.
Qed.
End Sessions.

(** ** Guessing passwords *)

(** The attempts of an address that get to a password check, of those made at
    [times]. *)
Fixpoint attempts_allowed (ip : string) (times : list Z) (m : gmap string (list Z)) : list Z :=
  match times with
  | [] => []
  | t :: times =>
      match check_and_record ip t m with
      | (Ok _, m) => t :: attempts_allowed ip times m
      | (Err _, m) => attempts_allowed ip times m
      end
  end.

Definition within (t : Z) (l : list Z) : list Z := List.filter (λ x, (t - WINDOW <? x) && (x <=? t)) l.

Lemma attempts_allowed_sub ip times m x : x ∈ attempts_allowed ip times m → x ∈ times.
Proof.
  revert m. induction times as [|t times IH]; intros m; cbn; [done|].
  destruct (check_and_record ip t m) as [[|] m']; rewrite !elem_of_cons; [intros [->|Hx]|intros Hx]; eauto.
Qed.

Lemma prune_prune u t l : u ≤ t → prune t (prune u l) = prune t l.
Proof.
  intros Hu. unfold prune. rewrite filter_filter. apply filter_ext_elem. intros x _.
  destruct (Z.ltb_spec (u - WINDOW) x), (Z.ltb_spec (t - WINDOW) x); cbn; lia || done.
Qed.

Lemma prune_shorter u t l : u ≤ t → (length (prune t l) ≤ length (prune u l))%nat.
Proof. intros Hu. rewrite <- (prune_prune u t) by done. apply length_filter_le. Qed.

Lemma within_nil t l : within t l = [] ↔ ∀ x, x ∈ l → ¬ (t - WINDOW < x ≤ t).
Proof.
  unfold within. rewrite filter_nil_iff. split; intros Hl x Hx; specialize (Hl x Hx); [intros [H1 H2]|].
  - apply andb_false_iff in Hl as [?%Z.ltb_ge|?%Z.leb_gt]; lia.
  - apply andb_false_iff. destruct (Z.ltb_spec (t - WINDOW) x); [right; apply Z.leb_gt; lia|by left].
Qed.

Lemma attempts_with_bucket ip times m t :
  StronglySorted Z.le times → within t (attempts_allowed ip times m) ≠ [] →
  (length (prune t (default [] (m !! ip))) + length (within t (attempts_allowed ip times m)) ≤ MAX_ATTEMPTS)%nat.
Proof.
  intros Hs. revert m. induction Hs as [|u times _ IH Hu]; intros m; [done|]. cbn [attempts_allowed].
  rewrite Forall_forall in Hu. unfold check_and_record. set (b := default [] (m !! ip)).
  assert (∀ m', within t (attempts_allowed ip times m') ≠ [] → u ≤ t) as Hut.
  { intros m' Hne.
    destruct (within t (attempts_allowed ip times m')) as [|x l] eqn:Hw; [done|].
    assert (x ∈ within t (attempts_allowed ip times m')) as Hx by (rewrite Hw; left).
    apply list_elem_of_In, filter_In in Hx as [Hx%list_elem_of_In Hc].
    apply attempts_allowed_sub, Hu in Hx. lia. }
  destruct (Nat.leb_spec MAX_ATTEMPTS (length (prune u b))) as [Hl|Hl].
  - intros Hne. specialize (IH _ Hne). rewrite lookup_insert_eq in IH. cbn [default from_option id] in IH.
    rewrite prune_prune in IH by by eapply Hut. exact IH.
  - set (m' := <[ip := prune u b ++ [u]]> m) in *. specialize (IH m').
    unfold m' in IH at 2. rewrite lookup_insert_eq in IH. cbn [default from_option id] in IH.
    destruct (decide (within t (attempts_allowed ip times m') = [])) as [Hnil|Hne].
    + unfold within in *. cbn [List.filter]. rewrite Hnil.
      destruct ((t - WINDOW <? u) && (u <=? t)) eqn:Hw; [intros _|done].
      apply andb_true_iff in Hw as [_ Hw%Z.leb_le]. pose proof (prune_shorter u t b Hw). cbn. lia.
    + intros _. specialize (IH Hne). pose proof (Hut _ Hne) as Hle. revert IH.
      replace (prune t (prune u b ++ [u])) with (prune t b ++ prune t [u])
        by (unfold prune; rewrite List.filter_app; f_equal; symmetry; apply (prune_prune u t b Hle)).
      unfold within. cbn [List.filter prune]. rewrite length_app.
      rewrite (proj2 (Z.leb_le u t) Hle), andb_true_r. destruct (t - WINDOW <? u); cbn; lia.
Qed.

(** Passwords cannot be guessed quickly.  Whatever attempts an address makes,
    as long as none succeeds, at most [MAX_ATTEMPTS] of those in any ten
    minutes reach the password check. *)
Theorem login_attempts_bounded ip times m t :
  StronglySorted Z.le times → (length (within t (attempts_allowed ip times m)) ≤ MAX_ATTEMPTS)%nat.
Proof.
  intros Hs. destruct (decide (within t (attempts_allowed ip times m) = [])) as [->|Hne]; [cbn; lia|].
  pose proof (attempts_with_bucket ip times m t Hs Hne). lia.
Qed.

Definition some_guesses : list Z := [0; 1; 2; 3; 4; 5; 6; 601 * NANOS].

Lemma login_attempts_bounded_witness :
  length (attempts_allowed "10.0.0.1" some_guesses ∅) = 6%nat ∧
  (length (within (7 * NANOS)%Z (attempts_allowed "10.0.0.1" some_guesses ∅)) ≤ MAX_ATTEMPTS)%nat.
Proof.
  split; [vm_compute; reflexivity|]. apply login_attempts_bounded.
  repeat (apply SSorted_cons; [|repeat (apply List.Forall_cons; [vm_compute; discriminate|]); apply List.Forall_nil]).
  apply SSorted_nil.
Defined.

Section Login.
Context `{AuthLibs}.

(** ** Passwords and second factors *)

Lemma run_limit_login {B} ip (q : () → handler B) s :
  run_proc (try_bind (limit_login ip) q) s =
  match check_and_record ip (sv_instant s) (sv_buckets s) with
  | (Ok _, b) => run_proc (q ()) (with_buckets b s)
  | (Err _, b) => (Err rate_limited, with_buckets b s)
  end.
Proof.
  unfold limit_login. cbn [try_bind proc_bind run_proc].
  by destruct (check_and_record ip _ _) as [[]].
Qed.

(** Answers without tokens. *)
Definition no_tokens (r : result ApiError Response) : Prop :=
  match r with Ok (TokensResponse _ _ _) | Ok (SetupResponse _ _ _ _) => False | _ => True end.

Ltac answers_step :=
  lazymatch goal with
  | |- answers _ _ (try_bind _ _) => apply answers_try; [done|intros ?]
  | |- answers _ _ (if ?b then _ else _) => destruct b
  | |- answers _ _ (let '_ := ?x in _) => destruct x
  | |- answers _ _ _ => done
  end.

Lemma answers_private cfg path is_get h next :
  (∀ ext, answers (λ _, True) no_tokens (next ext)) →
  answers (λ _, True) no_tokens (require_private_session cfg path is_get h next).
Proof. intros Hn. unfold require_private_session. cbv zeta. repeat answers_step; apply Hn. Qed.

Lemma keeps_trivial {S R} (p : proc S R) : keeps (λ _, True) p.
Proof. induction p as [r|X stmt k IH] using proc_ind; cbn; auto. Qed.

Lemma begin_assertion_no_tokens cfg ids user_id s :
  no_tokens (run_proc (begin_login_assertion cfg ids user_id) s).1.
Proof.
  apply (answers_run (λ _, True)); [apply keeps_trivial| |done].
  unfold begin_login_assertion. repeat answers_step.
Qed.

(** What stands behind the tokens of a password login. *)
Definition password_login (ip username password : string) (s : Server) : Prop :=
  ∃ name user b, check_and_record ip (sv_instant s) (sv_buckets s) = (Ok (), b) ∧
    normalize_username username = Ok name ∧ get_by_username name (sv_users s) = Some user ∧
    verify_password password (us_password_hash user) = Some true ∧
    count_for_user (us_user_id user) (sv_credentials s) ≤ 0.

(** What stands behind the tokens of a login with a passkey. *)
Definition passkey_login (cfg : ServerConfig) (ceremony_id credential : string) (s : Server) : Prop :=
  ∃ pending cred credential_id counter row,
    cf_webauthn cfg = true ∧ sv_pending_auth s !! ceremony_id = Some pending ∧ sv_clock s ≤ pa_expires_at pending ∧
    credential_of_json credential = Some cred ∧
    finish_passkey_authentication cred (pa_state pending) = Some (credential_id, counter) ∧
    sv_credentials s !! credential_id = Some row ∧ cd_user_id row = pa_user_id pending ∧
    (0 < cd_counter row → cd_counter row < counter).

Lemma login_needs_password cfg ids ip username password s resp s' :
  run_proc (login cfg ids ip username password) s = (Ok resp, s') →
  no_tokens (Ok resp) ∨ password_login ip username password s.
Proof.
  unfold login. rewrite run_limit_login. destruct (check_and_record ip _ _) as [[[]|e] b] eqn:Hl; [|done].
  rewrite run_peek, run_require. destruct (any_exist _); [|done]. rewrite run_try_bind.
  destruct (normalize_username username) as [name|e] eqn:Hn; cbn [run_proc peek ok]; [|done].
  rewrite run_some_or. cbn [with_buckets sv_users].
  destruct (get_by_username name (sv_users s)) as [user|] eqn:Hu; [|done].
  rewrite run_some_or. destruct (verify_password _ _) as [[|]|] eqn:Hv; [|done..].
  rewrite run_require, run_update, run_peek. cbn [with_buckets sv_credentials].
  destruct (Z.ltb_spec 0 (count_for_user (us_user_id user) (sv_credentials s))) as [Hc|Hc].
  - set (s1 := with_buckets _ _). intros Ht. left.
    pose proof (begin_assertion_no_tokens cfg ids (us_user_id user) s1) as Hb. by rewrite Ht in Hb.
  - intros _. right. exists name, user, b. split_and!; done || lia.
Qed.

Lemma run_finish_authentication ceremony_id cred s :
  run_proc (finish_authentication ceremony_id cred) s =
  let s1 := with_pending_auth (delete ceremony_id (sv_pending_auth s)) s in
  match sv_pending_auth s !! ceremony_id with
  | None => (Err unknown_ceremony, s1)
  | Some pending =>
      if pa_expires_at pending <? sv_clock s then (Err ceremony_expired, s1)
      else match finish_passkey_authentication cred (pa_state pending) with
           | None => (Err ceremony_failed, s1)
           | Some r => (Ok (pa_user_id pending, r.1, r.2), s1)
           end
  end.
Proof.
  cbv zeta. unfold finish_authentication. rewrite run_try_bind. unfold take_auth. cbn [run_proc].
  destruct (sv_pending_auth s !! ceremony_id) as [pending|]; [|done]. cbn [some_or ok run_proc].
  rewrite run_clock, run_require. cbn [with_pending_auth sv_clock].
  destruct (pa_expires_at pending <? sv_clock s); [done|]. cbn [negb].
  rewrite run_some_or. by destruct (finish_passkey_authentication _ _).
Qed.

Lemma finish_needs_passkey cfg ids ceremony_id credential s resp s' :
  run_proc (login_assert_finish cfg ids ceremony_id credential) s = (Ok resp, s') →
  passkey_login cfg ceremony_id credential s.
Proof.
  unfold login_assert_finish. rewrite run_require. destruct (cf_webauthn cfg) eqn:Hw; [|done].
  rewrite run_some_or. destruct (credential_of_json credential) as [cred|] eqn:Hc; [|done].
  rewrite run_try_bind, run_finish_authentication. cbv zeta.
  destruct (sv_pending_auth s !! ceremony_id) as [pending|] eqn:Hp; [|done].
  destruct (Z.ltb_spec (pa_expires_at pending) (sv_clock s)) as [Hx|Hx]; [done|].
  destruct (finish_passkey_authentication cred (pa_state pending)) as [[cid counter]|] eqn:Hf; [|done].
  cbn [fst snd]. rewrite run_peek, run_some_or.
  cbn [with_pending_auth sv_credentials]. destruct (sv_credentials s !! cid) as [row|] eqn:Hr; [|done].
  rewrite run_require. destruct (String.eqb_spec (cd_user_id row) (pa_user_id pending)) as [Hu|Hu]; [|done].
  rewrite run_require. destruct (_ && _) eqn:Hn; [done|]. intros _.
  exists pending, cred, cid, counter, row. split_and!; try done.
  intros Hpos. apply andb_false_iff in Hn as [Hn%Z.ltb_ge|Hn%Z.leb_gt]; lia.
Qed.

Lemma others_give_no_tokens cfg req :
  match req with ReqSetup _ _ _ _ _ | ReqLogin _ _ _ _ | ReqLoginFinish _ _ _ | ReqRefresh _ _ _ => True
  | _ => answers (λ _, True) no_tokens (serve cfg req) end.
Proof.
  destruct req; cbn [serve]; try done; try (apply answers_private; intros ext).
  - unfold logout. repeat answers_step.
  - unfold logout_all. repeat answers_step.
  - unfold list_users. repeat answers_step.
  - unfold invite. repeat answers_step.
  - unfold remove_user. repeat answers_step.
  - unfold change_my_password. repeat answers_step.
  - unfold reset_user_password. repeat answers_step.
  - unfold register_begin. repeat answers_step.
  - unfold register_finish. repeat answers_step.
  - unfold list_credentials. repeat answers_step.
  - unfold delete_credential. repeat answers_step.
Qed.

Lemma refresh_needs_token cfg nonce new token s resp s' :
  run_proc (refresh cfg nonce new token) s = (Ok resp, s') →
  ∃ r, sv_tokens s !! token = Some r ∧ sv_clock s ≤ tk_expires_at r.
Proof.
  unfold refresh. rewrite run_try_bind. unfold consume_refresh_token. rewrite run_clock, run_call. unfold on_tokens.
  destruct (consume token (sv_clock s) (sv_tokens s)) as [[o m']|e] eqn:Hc; [|done].
  rewrite run_some_or. destruct o as [rec|]; [|done]. intros _.
  apply consume_record in Hc as (r & Hr & _ & _ & Hx & _). by exists r.
Qed.

Lemma setup_needs_no_user cfg ids username password name email s resp s' :
  run_proc (setup cfg ids username password name email) s = (Ok resp, s') → sv_users s = ∅.
Proof.
  unfold setup. rewrite !run_require. destruct (8 <=? _); [|done]. destruct (negb _); [|done].
  rewrite run_raise. destruct (normalize_username username); [|done]. rewrite run_peek, run_require.
  destruct (any_exist (sv_users s)) eqn:Hany; [done|]. intros _. apply map_size_empty_inv.
  unfold any_exist in Hany. apply Nat.ltb_ge in Hany. lia.
Qed.

(** Tokens are given for the right factors only.  A login that answers with
    tokens was within the limit of its address, named a user by a valid
    username, presented that user's password, and the user has no passkey; a
    user with one gets tokens only from an assertion ceremony that was begun
    for them, is not older than [CEREMONY_TTL_SECS], was verified by the
    relying party and shows a counter above the one on record.  A refresh
    gives tokens for an unexpired refresh token on record, and setup for the
    first user; no other request gives any. *)
Theorem tokens_need_factors cfg req s resp s' :
  run_proc (serve cfg req) s = (Ok resp, s') →
  no_tokens (Ok resp) ∨
  match req with
  | ReqSetup _ _ _ _ _ => sv_users s = ∅
  | ReqLogin _ ip username password => password_login ip username password s
  | ReqLoginFinish _ ceremony_id credential => passkey_login cfg ceremony_id credential s
  | ReqRefresh _ _ token => ∃ r, sv_tokens s !! token = Some r ∧ sv_clock s ≤ tk_expires_at r
  | _ => False
  end.
Proof.
  intros Hrun. pose proof (others_give_no_tokens cfg req) as Hn.
  destruct req; try (lazymatch type of Hn with answers _ _ _ => left;
    pose proof (answers_run _ _ _ s (keeps_trivial _) Hn I) as Hr; by rewrite Hrun in Hr end);
    cbn [serve] in Hrun.
  - right. by eapply setup_needs_no_user.
  - by eapply login_needs_password.
  - right. by eapply finish_needs_passkey.
  - right. by eapply refresh_needs_token.
Qed.
End Login.

(** ** A concrete server *)

(** Access tokens spell out their claims, hashes their passwords; a passkey
    signs what it is asked to. *)
#[local] Instance toy_auth : AuthLibs := {|
  Passkey := string; PasskeyRegistration := string; PasskeyAuthentication := string; Credential := string;
  hash_password _ p := Some ("h:" +:+ p);
  verify_password p h := Some (String.eqb h ("h:" +:+ p));
  jwt_encode c := Some (cl_sub c +:+ "." +:+ cl_sid c);
  jwt_decode iss now tok :=
    match split_char "."%char tok with
    | [sub; sid] => Some (mkAccessClaims sub iss 900 0 sid "")
    | _ => None
    end;
  passkey_of_json j := Some j; passkey_to_json p := Some p; passkey_id p := p; passkey_counter _ := 0;
  credential_of_json j := Some j;
  start_passkey_registration _ _ _ _ c := Some (c, c);
  finish_passkey_registration c _ := Some c;
  start_passkey_authentication _ c := Some (c, c);
  finish_passkey_authentication c _ := Some (c, 1);
  header_value _ := true
|}.

Definition toy_cfg : ServerConfig := mkServerConfig 900 604800 "execlaw" true.
Definition toy_user (name : string) : UserRecord := mkUserRecord name name None "h:correct horse" "controller" 0 None.
Definition toy_server : Server :=
  mkServer 100 0 {["u1" := toy_user "ann"; "u2" := toy_user "bob"]}
    {["t1" := mkTokenRow "u1" "s1" 0 1000; "t2" := mkTokenRow "u2" "s2" 0 1000]}
    ∅ [] [] None ∅ ∅ ∅.
Definition ann : Headers := mkHeaders (Some "Bearer u1.s1") None.
Definition bob : Headers := mkHeaders None (Some "theme=dark; execlaw_access=u2.s2").

Lemma controller_remains_witness :
  has_controller (sv_users (serve_all toy_cfg [ReqRemoveUser ann "u2"; ReqRemoveUser bob "u1"] toy_server)).
Proof.
  apply controller_remains. exists "u1", (toy_user "ann"). split; reflexivity.
Defined.

(** Later, when Ann has a new session, the old token is still refused. *)
Lemma signed_out_for_good_witness :
  let s1 := (run_proc (serve toy_cfg (ReqLogoutAll ann)) toy_server).2 in
  let login := ReqLogin (mkLoginIds "s3" "n" "t3" "c" "ch") "10.0.0.1" "Ann" "correct horse" in
  let c := run_schedule (repeat 0%nat 16) (s1, [serve toy_cfg login]) in
  session_is_active "u1" "s3" 100 (sv_tokens c.1) = true ∧
  run_proc (authed_user toy_cfg None ann) c.1 = (Err session_revoked, c.1).
Proof.
  intros s1 login c. split; [vm_compute; reflexivity|].
  assert (server_steps toy_cfg (λ _, False) (s1, [serve toy_cfg login]) (c.1, c.2)) as Hsteps
    by (rewrite <- surjective_pairing; apply run_schedule_steps).
  eapply (signed_out_for_good toy_cfg (ReqLogoutAll ann) "u1" "s1" toy_server (LogoutAllResponse 1) s1
    [serve toy_cfg login] c.1 c.2 (λ _, False)) with (h := ann) (token := "u1.s1").
  - eexists. split; reflexivity.
  - reflexivity.
  - apply Forall_singleton, serve_keeps, not_minted_good. discriminate.
  - intros r [].
  - exact Hsteps.
  - reflexivity.
  - reflexivity.
  - reflexivity.
  - reflexivity.
Defined.

Lemma refresh_token_single_use_witness :
  let s1 := (run_proc (refresh toy_cfg "n" "t3" "t1") toy_server).2 in
  is_Some (sv_tokens s1 !! "t3") ∧
  run_proc (refresh toy_cfg "n" "t4" "t1") s1 = (Err refresh_refused, s1).
Proof.
  intros s1. split; [by eexists|].
  eapply (refresh_token_single_use toy_cfg "n" "t3" "t1" toy_server s1 [] [] (λ _, False)).
  - discriminate.
  - by apply Forall_nil.
  - intros r [].
  - apply rtc_refl.
Defined.

Lemma tokens_need_factors_witness :
  let login := ReqLogin (mkLoginIds "s3" "n" "t3" "c" "ch") "10.0.0.1" " Ann" "correct horse" in
  (run_proc (serve toy_cfg login) toy_server).1 = Ok (TokensResponse "u1.s3" "t3"
     (Some "execlaw_access=u1.s3; HttpOnly; SameSite=Strict; Secure; Path=/api; Max-Age=900")) ∧
  password_login "10.0.0.1" " Ann" "correct horse" toy_server.
Proof.
  intros login. assert ((run_proc (serve toy_cfg login) toy_server).1 = Ok (TokensResponse "u1.s3" "t3"
     (Some "execlaw_access=u1.s3; HttpOnly; SameSite=Strict; Secure; Path=/api; Max-Age=900"))) as Hr
    by (vm_compute; reflexivity).
  split; [exact Hr|].
  destruct (tokens_need_factors toy_cfg login toy_server _ _
    (injective_projections (run_proc (serve toy_cfg login) toy_server) (_, _) Hr eq_refl)) as [Hn|Hn]; [destruct Hn|exact Hn].
Defined.

(** ** Two races *)

(** A refresh reads its record before "sign out everywhere" and writes the new
    row after it: both succeed, and the access token Ann had is accepted
    again. *)
Example refresh_undoes_sign_out :
  ∃ c, server_steps toy_cfg (λ _, True)
         (toy_server, [serve toy_cfg (ReqRefresh "n" "t3" "t1"); serve toy_cfg (ReqLogoutAll ann)]) c ∧
    (∃ r, c.2 !! 0%nat = Some (Finish (Ok r))) ∧ c.2 !! 1%nat = Some (Finish (Ok (LogoutAllResponse 0))) ∧
    is_ok (authenticate toy_cfg ann c.1) = true.
Proof.
  eexists. split; [apply (run_schedule_steps _ _ ([1; 1; 1; 1] ++ [0; 0; 1] ++ repeat 0 5)%nat)|].
  split_and!; [eexists; vm_compute; reflexivity|vm_compute; reflexivity..].
Qed.

(** Two Controllers remove each other: both count two Controllers before either
    deletes, and nobody is left. *)
Example controllers_remove_each_other :
  ∃ c, server_steps toy_cfg (λ _, True)
         (toy_server, [serve toy_cfg (ReqRemoveUser ann "u2"); serve toy_cfg (ReqRemoveUser bob "u1")]) c ∧
    c.2 !! 0%nat = Some (Finish (Ok Removed)) ∧ c.2 !! 1%nat = Some (Finish (Ok Removed)) ∧
    sv_users c.1 = ∅.
Proof.
  eexists. split; [apply (run_schedule_steps _ _ (repeat 0 6 ++ repeat 1 6 ++ repeat 0 3 ++ repeat 1 3)%nat)|].
  split_and!; vm_compute; reflexivity.
Qed.
