(* ===== verification/ThinkFilter.v ===== *)
(** * The streaming filter of reasoning blocks

    [crates/server/src/think_filter.rs]: text that arrives in chunks is shown
    without its [<think>..</think>] blocks, whatever way it is cut.  The
    reference is one pass over the whole text. *)

From Stdlib Require Import Strings.Ascii.
From S2P Require Import Prelude Text.

(** ** Slices *)

(** [&s[..n]] and [&s[n..]] at a boundary within the text. *)
Fixpoint take_str (n : nat) (s : string) : string :=
  match n, s with
  | S n, String c s => String c (take_str n s)
  | _, _ => EmptyString
  end.
Fixpoint drop_str (n : nat) (s : string) : string :=
  match n, s with
  | S n, String _ s => drop_str n s
  | _, _ => s
  end.

(** [str::find(p)] *)
Fixpoint find (p s : string) : option nat :=
  if starts_with s p then Some 0%nat
  else match s with EmptyString => None | String _ s => S <$> find p s end.

(** [str::is_char_boundary] *)
Definition is_char_boundary (i : nat) (s : string) : bool :=
  match String.get i s with
  | Some c => negb (is_cont_ascii c)
  | None => (i =? String.length s)%nat
  end.

(** ** The filter *)

Definition OPEN_TAG : string := "<think>".
Definition CLOSE_TAG : string := "</think>".

Inductive State : Type := Outside | Inside.

Record ThinkBlockFilter : Type := mkFilter { tf_state : State; tf_pending : string }.

Definition new : ThinkBlockFilter := mkFilter Outside "".

(** The tag that ends a state. *)
Definition tag_of (st : State) : string := match st with Outside => OPEN_TAG | Inside => CLOSE_TAG end.
Definition other (st : State) : State := match st with Outside => Inside | Inside => Outside end.
(** What is shown of text seen in a state. *)
Definition shown (st : State) (s : string) : string := match st with Outside => s | Inside => EmptyString end.

Fixpoint safe_len (n : nat) (buf tag_lower : string) : nat :=
  match n with
  | O => String.length buf
  | S n' =>
      let i := (String.length buf - n)%nat in
      if is_char_boundary i buf && starts_with tag_lower (drop_str i (to_ascii_lowercase buf)) then i
      else safe_len n' buf tag_lower
  end.

Definition trailing_safe_len (buf tag : string) : nat :=
  if String.eqb buf "" then 0%nat
  else safe_len (Nat.min (String.length tag - 1) (String.length buf)) buf (to_ascii_lowercase tag).

(** The loop of [feed]; each round that continues removes a tag, so one more
    round than the text has bytes is enough. *)
Fixpoint feed_loop (fuel : nat) (st : State) (buf out : string) : ThinkBlockFilter * string :=
  match fuel with
  | O => (mkFilter st buf, out)
  | S fuel =>
      match find (tag_of st) (to_ascii_lowercase buf) with
      | Some idx =>
          feed_loop fuel (other st) (drop_str (idx + String.length (tag_of st)) buf)
            (out +:+ shown st (take_str idx buf))
      | None =>
          let n := trailing_safe_len buf (tag_of st) in
          (mkFilter st (drop_str n buf), out +:+ shown st (take_str n buf))
      end
  end.

Definition feed (f : ThinkBlockFilter) (chunk : string) : ThinkBlockFilter * string :=
  let buf := tf_pending f +:+ chunk in
  feed_loop (S (String.length buf)) (tf_state f) buf "".

Definition flush (f : ThinkBlockFilter) : ThinkBlockFilter * string :=
  (mkFilter (tf_state f) "", shown (tf_state f) (tf_pending f)).

(** A stream: its chunks in turn, then its end. *)
Fixpoint stream (f : ThinkBlockFilter) (chunks : list string) : string :=
  match chunks with
  | [] => (flush f).2
  | c :: chunks => let '(f, out) := feed f c in out +:+ stream f chunks
  end.

(** ** The reference *)

(** One pass over the whole text; [skip] bytes of a tag are still to go. *)
Fixpoint visible (st : State) (skip : nat) (s : string) : string :=
  match s with
  | EmptyString => EmptyString
  | String c rest =>
      match skip with
      | S skip => visible st skip rest
      | O =>
          if starts_with (to_ascii_lowercase s) (tag_of st)
          then visible (other st) (String.length (tag_of st) - 1) rest
          else shown st (String c EmptyString) +:+ visible st 0 rest
      end
  end.

(** ** Facts on slices *)

Lemma length_lower s : String.length (to_ascii_lowercase s) = String.length s.
Proof. induction s as [|c s IH]; cbn; [done|]. by rewrite <- IH. Qed.

Lemma lower_app s t : to_ascii_lowercase (s +:+ t) = to_ascii_lowercase s +:+ to_ascii_lowercase t.
Proof. unfold to_ascii_lowercase. induction s as [|c s IH]; [done|].
  rewrite append_cons. cbn [map_string]. by rewrite append_cons, IH.
Qed.

Lemma lower_drop n s : to_ascii_lowercase (drop_str n s) = drop_str n (to_ascii_lowercase s).
Proof. revert s. induction n as [|n IH]; intros [|c s]; cbn; [done..|]. apply IH. Qed.

Lemma take_drop_str n s : take_str n s +:+ drop_str n s = s.
Proof. revert s. induction n as [|n IH]; intros [|c s]; cbn; [done..|]. rewrite append_cons. by rewrite IH. Qed.

Lemma length_drop_str n s : String.length (drop_str n s) = (String.length s - n)%nat.
Proof. revert s. induction n as [|n IH]; intros [|c s]; cbn; [done..|]. apply IH. Qed.

Lemma drop_str_all s : drop_str (String.length s) s = EmptyString.
Proof. induction s as [|c s IH]; [done|]. apply IH. Qed.

Lemma drop_drop_str i n s : drop_str n (drop_str i s) = drop_str (i + n) s.
Proof. revert s. induction i as [|i IH]; intros [|c s]; cbn; [done|done|by destruct n|apply IH]. Qed.

Lemma drop_str_app n s t : (n ≤ String.length s)%nat → drop_str n (s +:+ t) = drop_str n s +:+ t.
Proof.
  revert s. induction n as [|n IH]; intros [|c s] Hn; cbn in Hn; [done..|lia|].
  rewrite append_cons. cbn. apply IH. lia.
Qed.

Lemma starts_with_app p s t : (String.length p ≤ String.length s)%nat → starts_with (s +:+ t) p = starts_with s p.
Proof.
  unfold starts_with. revert s. induction p as [|a p IH]; intros [|c s] Hl; cbn in Hl; [done..|lia|].
  rewrite append_cons. cbn. destruct (Ascii.eqb a c); [apply IH; lia|done].
Qed.

Lemma starts_with_long s p : starts_with s p = true → (String.length p ≤ String.length s)%nat.
Proof. intros [r ->]%starts_with_spec. rewrite string_length_app. lia. Qed.

(** A start that reaches beyond [s] covers the whole of it. *)
Lemma starts_with_beyond p s t :
  starts_with (s +:+ t) p = true → (String.length s < String.length p)%nat → starts_with p s = true.
Proof.
  intros [r Hr]%starts_with_spec Hl. apply starts_with_spec.
  destruct (append_eq_cases _ _ _ _ Hr) as [(x & -> & _)|(x & -> & _)]; [|by exists x].
  rewrite string_length_app in Hl. lia.
Qed.

Lemma find_none p s j :
  find p s = None → (j ≤ String.length s)%nat → starts_with (drop_str j s) p = false.
Proof.
  revert j. induction s as [|c s IH]; intros j Hf Hj; cbn [find] in Hf.
  - destruct (starts_with EmptyString p) eqn:He; [done|]. by destruct j.
  - destruct (starts_with (String c s) p) eqn:He; [done|]. destruct j as [|j]; [done|]. cbn in Hj.
    apply IH; [by destruct (find p s)|lia].
Qed.

Lemma find_some p s i :
  find p s = Some i → starts_with (drop_str i s) p = true ∧ (i + String.length p ≤ String.length s)%nat ∧
  ∀ j, (j < i)%nat → starts_with (drop_str j s) p = false.
Proof.
  revert i. induction s as [|c s IH]; intros i; cbn [find].
  - destruct (starts_with EmptyString p) eqn:He; [|done]. intros [= <-].
    pose proof (starts_with_long _ _ He). split_and!; [done|cbn in *; lia|lia].
  - destruct (starts_with (String c s) p) eqn:He.
    + intros [= <-]. pose proof (starts_with_long _ _ He). split_and!; [done|lia|lia].
    + destruct (find p s) as [i'|] eqn:Hf; [|done]. intros [= <-]. destruct (IH i' eq_refl) as (H1 & H2 & H3).
      split_and!; [done|cbn; lia|]. intros [|j] Hj; [done|]. apply H3. lia.
Qed.

(** ** The reference, piece by piece *)

Lemma visible_skip st n s t :
  (n ≤ String.length s)%nat → visible st n (s +:+ t) = visible st 0 (drop_str n s +:+ t).
Proof.
  revert s. induction n as [|n IH]; intros [|c s] Hn; cbn in Hn; [done..|lia|].
  rewrite append_cons. cbn. apply IH. lia.
Qed.

Lemma visible_cons st c s :
  visible st 0 (String c s) =
  if starts_with (to_ascii_lowercase (String c s)) (tag_of st)
  then visible (other st) (String.length (tag_of st) - 1) s
  else shown st (String c EmptyString) +:+ visible st 0 s.
Proof. done. Qed.

(** Where no tag begins everything is shown or dropped. *)
Lemma visible_clear st n s t :
  (n ≤ String.length s)%nat →
  (∀ j, (j < n)%nat → starts_with (to_ascii_lowercase (drop_str j s +:+ t)) (tag_of st) = false) →
  visible st 0 (s +:+ t) = shown st (take_str n s) +:+ visible st 0 (drop_str n s +:+ t).
Proof.
  revert s. induction n as [|n IH]; intros s Hn Hj; [by destruct st, s|].
  destruct s as [|c s]; [cbn in Hn; lia|]. cbn in Hn. rewrite append_cons, visible_cons.
  pose proof (Hj 0%nat ltac:(lia)) as H0. cbn [drop_str] in H0. rewrite append_cons in H0. rewrite H0.
  rewrite IH; [|lia|intros j Hlt; apply (Hj (S j)); lia]. cbn [drop_str take_str].
  destruct st; [|done]. cbn [shown]. by rewrite append_cons, append_nil.
Qed.

(** A tag ends its state. *)
Lemma visible_tag st s t :
  starts_with (to_ascii_lowercase s) (tag_of st) = true →
  visible st 0 (s +:+ t) = visible (other st) 0 (drop_str (String.length (tag_of st)) s +:+ t).
Proof.
  intros Ht. pose proof (starts_with_long _ _ Ht) as Hl. rewrite length_lower in Hl.
  destruct s as [|c s]; [by destruct st|]. rewrite append_cons, visible_cons, <- append_cons, lower_app.
  rewrite starts_with_app by (by rewrite length_lower). rewrite Ht. cbn in Hl.
  rewrite visible_skip by lia. by destruct st.
Qed.

(** ** What may be held back *)

Lemma safe_len_spec n buf tag j :
  (n ≤ String.length buf)%nat → (String.length buf - n ≤ j < String.length buf)%nat →
  is_char_boundary j buf = true → starts_with tag (drop_str j (to_ascii_lowercase buf)) = true →
  (safe_len n buf tag ≤ j)%nat.
Proof.
  induction n as [|n IH]; intros Hn Hj Hb Ht; [lia|]. cbn [safe_len]. cbv zeta.
  destruct (decide (j = String.length buf - S n)%nat) as [->|Hne]; [by rewrite Hb, Ht|].
  destruct (_ && _); [lia|]. apply IH; lia || done.
Qed.

Lemma safe_len_range n buf tag :
  (n ≤ String.length buf)%nat → (String.length buf - n ≤ safe_len n buf tag ≤ String.length buf)%nat.
Proof.
  induction n as [|n IH]; intros Hn; cbn [safe_len]; [lia|]. cbv zeta. destruct (_ && _); [lia|].
  specialize (IH ltac:(lia)). lia.
Qed.

(** A tag begins with an ASCII character, so it begins at a boundary. *)
Lemma tag_boundary st j buf :
  (j < String.length buf)%nat → starts_with (tag_of st) (drop_str j (to_ascii_lowercase buf)) = true →
  is_char_boundary j buf = true.
Proof.
  revert j. induction buf as [|c buf IH]; intros j Hj; cbn in Hj; [lia|].
  destruct j as [|j]; [|by intros Ht; apply IH; [lia|]].
  cbn [drop_str]. unfold is_char_boundary. cbn [String.get].
  intros [r Hr]%starts_with_spec. cbn [to_ascii_lowercase map_string] in Hr. unfold to_ascii_lowercase in Hr.
  cbn [map_string] in Hr. rewrite append_cons in Hr.
  assert (ascii_lower c = "<"%char) as Hc by (destruct st; by injection Hr as ->).
  clear -Hc. destruct c as [[] [] [] [] [] [] [] []]; vm_compute in Hc |- *; done.
Qed.

(** The text before the tail that is held back holds no beginning of a tag,
    however it goes on. *)
Lemma safe_clear st buf t j :
  find (tag_of st) (to_ascii_lowercase buf) = None → (j < trailing_safe_len buf (tag_of st))%nat →
  starts_with (to_ascii_lowercase (drop_str j buf +:+ t)) (tag_of st) = false.
Proof.
  intros Hf Hj. destruct (starts_with _ _) eqn:Ht; [exfalso|done].
  unfold trailing_safe_len in Hj. destruct (String.eqb_spec buf "") as [|Hne]; [lia|].
  set (n := Nat.min _ _) in Hj. assert (n ≤ String.length buf)%nat as Hn by (unfold n; lia).
  pose proof (safe_len_range n buf (to_ascii_lowercase (tag_of st)) Hn) as Hr.
  rewrite lower_app in Ht.
  destruct (decide (String.length (tag_of st) ≤ String.length (drop_str j buf))%nat) as [Hlong|Hshort].
  - rewrite starts_with_app in Ht by (by rewrite length_lower). rewrite lower_drop in Ht.
    rewrite find_none in Ht; [done|done|rewrite length_lower; lia].
  - apply starts_with_beyond in Ht; [|rewrite length_lower; lia]. rewrite lower_drop in Ht.
    rewrite length_drop_str in Hshort.
    assert (to_ascii_lowercase (tag_of st) = tag_of st) as Htag by (by destruct st).
    rewrite Htag in Hj, Hr.
    assert (safe_len n buf (tag_of st) ≤ j)%nat; [|lia].
    apply safe_len_spec; [done| |by eapply tag_boundary; [lia|]|done]. unfold n. lia.
Qed.

Lemma trailing_safe_le buf tag : (trailing_safe_len buf tag ≤ String.length buf)%nat.
Proof.
  unfold trailing_safe_len. destruct (String.eqb_spec buf "") as [->|_]; [cbn; lia|].
  apply safe_len_range. lia.
Qed.

Lemma feed_loop_visible fuel st buf out t :
  (String.length buf < fuel)%nat →
  let '(f, o) := feed_loop fuel st buf out in
  out +:+ visible st 0 (buf +:+ t) = o +:+ visible (tf_state f) 0 (tf_pending f +:+ t) ∧
  (String.length (tf_pending f) < String.length (tag_of (tf_state f)))%nat.
Proof.
  revert st buf out. induction fuel as [|fuel IH]; intros st buf out Hf; [lia|]. cbn [feed_loop].
  destruct (find (tag_of st) (to_ascii_lowercase buf)) as [idx|] eqn:Hfind.
  - apply find_some in Hfind as (H1 & H2 & H3). rewrite length_lower in H2.
    assert (0 < String.length (tag_of st))%nat by (destruct st; cbn; lia).
    specialize (IH (other st) (drop_str (idx + String.length (tag_of st)) buf) (out +:+ shown st (take_str idx buf))).
    destruct (feed_loop _ _ _ _) as [f o]. destruct IH as [IH1 IH2]; [rewrite length_drop_str; lia|].
    split; [|done]. rewrite <- IH1, append_assoc. f_equal.
    rewrite (visible_clear st idx buf t); [|lia|].
    + f_equal. rewrite visible_tag by (by rewrite lower_drop). f_equal. f_equal.
      by rewrite drop_drop_str.
    + intros j Hj. rewrite lower_app, lower_drop. rewrite starts_with_app; [by apply H3|].
      rewrite <- lower_drop, length_lower, length_drop_str. lia.
  - cbn [tf_state tf_pending]. split.
    + rewrite append_assoc. f_equal. apply visible_clear; [apply trailing_safe_le|].
      intros j Hj. by apply safe_clear.
    + rewrite length_drop_str. unfold trailing_safe_len. destruct (String.eqb_spec buf "") as [->|_].
      * destruct st; cbn; lia.
      * pose proof (safe_len_range (Nat.min (String.length (tag_of st) - 1) (String.length buf)) buf
          (to_ascii_lowercase (tag_of st)) ltac:(lia)). destruct st; cbn [tag_of String.length OPEN_TAG CLOSE_TAG] in *; lia.
Qed.

(** C31: However a text is cut into chunks, what the stream shows of it is what
    one pass over the whole text shows: everything but the closed reasoning
    blocks, whatever the case of their tags, and but the rest after a tag that
    is never closed.  In particular two ways to cut a text show the same. *)
Theorem stream_is_one_pass chunks : stream new chunks = visible Outside 0 (concat_str chunks).
Proof.
  assert (∀ f, (String.length (tf_pending f) < String.length (tag_of (tf_state f)))%nat →
    stream f chunks = visible (tf_state f) 0 (tf_pending f +:+ concat_str chunks)) as Hgen;
    [|by rewrite (Hgen new) by (cbn; lia)].
  induction chunks as [|c chunks IH]; intros f Hp.
  - cbn [stream concat_str flush snd foldr]. rewrite append_empty_r.
    rewrite <- (append_empty_r (tf_pending f)) at 2.
    rewrite (visible_clear _ (String.length (tf_pending f))); [|lia|].
    + rewrite <- (take_drop_str (String.length (tf_pending f)) (tf_pending f)) at 1.
      replace (drop_str (String.length (tf_pending f)) (tf_pending f)) with EmptyString by (symmetry; apply drop_str_all).
      by rewrite !append_empty_r.
    + intros j Hj. destruct (starts_with _ _) eqn:Ht; [|done]. apply starts_with_long in Ht.
      rewrite append_empty_r, length_lower, length_drop_str in Ht. lia.
  - cbn [stream]. unfold feed. pose proof (feed_loop_visible (S (String.length (tf_pending f +:+ c))) (tf_state f)
      (tf_pending f +:+ c) "" (concat_str chunks) ltac:(lia)) as Hl.
    destruct (feed_loop _ _ _ _) as [f' o]. destruct Hl as [Hl1 Hl2]. rewrite IH by done. rewrite <- Hl1.
    by rewrite append_nil, append_assoc.
Qed.
