(* ===== verification/DownloadUrls.v ===== *)
(** * Signed download URLs

    [crates/server/src/download_urls.rs]: a link that lets a browser fetch one
    path as one user until an expiry, and the guard that accepts either the
    link or the ordinary session.  HMAC-SHA256 with its hexadecimal rendering
    is a parameter. *)

From Stdlib Require Import Strings.Ascii Strings.Byte.
From stdpp Require Import pretty.
From S2P Require Import Prelude Wire Text ServiceBase Procs AuthStores AuthRoutes AuthServer.

(** ** Percent encoding *)

Definition hex_nibble (b : byte) : option Z :=
  let z := byte_to_Z b in
  if (48 <=? z) && (z <=? 57) then Some (z - 48)
  else if (97 <=? z) && (z <=? 102) then Some (z - 97 + 10)
  else if (65 <=? z) && (z <=? 70) then Some (z - 65 + 10)
  else None.

Fixpoint percent_decode_bytes (bs : bytes) : bytes :=
  match bs with
  | [] => []
  | b :: rest =>
      if byte_to_Z b =? 43 then byte_of_Z 32 :: percent_decode_bytes rest
      else if byte_to_Z b =? 37 then
        match rest with
        | h :: l :: rest2 =>
            match hex_nibble h, hex_nibble l with
            | Some h, Some l => byte_of_Z (Z.lor (Z.shiftl h 4) l) :: percent_decode_bytes rest2
            | _, _ => b :: percent_decode_bytes rest
            end
        | _ => b :: percent_decode_bytes rest
        end
      else b :: percent_decode_bytes rest
  end.
Definition percent_decode (s : string) : string :=
  String.string_of_list_byte (from_utf8_lossy (percent_decode_bytes (as_bytes s))).

Definition unreserved (b : byte) : bool :=
  let z := byte_to_Z b in
  ((48 <=? z) && (z <=? 57)) || ((65 <=? z) && (z <=? 90)) || ((97 <=? z) && (z <=? 122))
  || (z =? 45) || (z =? 95) || (z =? 46) || (z =? 126).

(** [{b:02X}] *)
Definition hex_digit_upper (z : Z) : byte := byte_of_Z (if z <? 10 then z + 48 else z + 55).

Fixpoint percent_encode_bytes (bs : bytes) : bytes :=
  match bs with
  | [] => []
  | b :: bs =>
      if unreserved b then b :: percent_encode_bytes bs
      else byte_of_Z 37 :: hex_digit_upper (byte_to_Z b / 16) :: hex_digit_upper (byte_to_Z b mod 16)
             :: percent_encode_bytes bs
  end.
Definition percent_encode (s : string) : string := String.string_of_list_byte (percent_encode_bytes (as_bytes s)).

(** ** Query strings *)

Definition parse_pair (pair : string) : option (string * string) :=
  let '(k, v) := match split_once "="%char pair with Some kv => kv | None => (pair, EmptyString) end in
  if String.eqb k "" then None else Some (percent_decode k, percent_decode v).

(** Later pairs replace earlier ones of the same name. *)
Definition parse_query (q : string) : gmap string string :=
  foldl (λ m pair, match parse_pair pair with Some (k, v) => <[k := v]> m | None => m end) ∅ (split_char "&"%char q).

(** ** Signatures *)

(** [hex::encode(Hmac<Sha256>)]; hexadecimal digits only. *)
Class DownloadMac : Type := {
  mac_hex : bytes → bytes → string;
  mac_hex_digits k m : Forall (λ b, is_Some (hex_nibble b)) (as_bytes (mac_hex k m))
}.

Section Download.
Context `{DownloadMac}.

Definition DEFAULT_TTL_SECS : Z := 5 * 60.
Definition MAX_TTL_SECS : Z := 60 * 60.

Definition newline : byte := Byte.x0a.

Definition signed_bytes (path user_id : string) (exp_unix : Z) : bytes :=
  as_bytes "execlaw/download-url/v1" ++ newline :: as_bytes path ++ newline :: as_bytes user_id
    ++ newline :: as_bytes (pretty exp_unix).

Definition compute_sig (path user_id : string) (exp_unix : Z) (key : bytes) : string :=
  mac_hex key (signed_bytes path user_id exp_unix).

Definition build_signed_url (path user_id : string) (ttl_secs : Z) (key : bytes) (now : Z) : string * Z :=
  let ttl := Z.max 1 (Z.min MAX_TTL_SECS ttl_secs) in
  let exp := i64_add now ttl in
  let sig := compute_sig path user_id exp key in
  (path +:+ "?exp=" +:+ pretty exp +:+ "&user=" +:+ percent_encode user_id +:+ "&sig=" +:+ sig, exp).

(** The accumulated difference of all bytes. *)
Fixpoint diff_bytes (acc : Z) (a b : bytes) : Z :=
  match a, b with
  | x :: a, y :: b => diff_bytes (Z.lor acc (Z.lxor (byte_to_Z x) (byte_to_Z y))) a b
  | _, _ => acc
  end.
Definition ct_eq (a b : bytes) : bool :=
  if negb (vec_len a =? vec_len b) then false else diff_bytes 0 a b =? 0.

Record VerifiedDownloadClaims : Type := mkClaims { vd_user_id : string; vd_exp : Z }.

Inductive SignedUrlError : Type := MissingParam (name : string) | BadExp | Expired | BadSig.

Definition verify_sig (path query : string) (key : bytes) (now : Z) : result SignedUrlError VerifiedDownloadClaims :=
  let params := parse_query query in
  match params !! "exp" with
  | None => Err (MissingParam "exp")
  | Some exp_str =>
  match params !! "user" with
  | None => Err (MissingParam "user")
  | Some user =>
  match params !! "sig" with
  | None => Err (MissingParam "sig")
  | Some sig_hex =>
  match parse_i64 exp_str with
  | None => Err BadExp
  | Some exp =>
      if exp <? now then Err Expired
      else if negb (ct_eq (as_bytes (compute_sig path user exp key)) (as_bytes sig_hex)) then Err BadSig
      else Ok (mkClaims user exp)
  end end end end.

(** [MediaAuthedUser::from_request_parts]; [present] is whether there is an
    [Authorization] header at all. *)
Definition media_authed_user `{AuthLibs} (cfg : ServerConfig) (key : bytes) (h : Headers) (present : bool)
    (path query : string) : handler AuthedUser :=
  if present then authed_user cfg None h
  else
    let^ now := clock in
    match verify_sig path query key now with
    | Err _ => fail (rejection "signed URL invalid or expired")
    | Ok claims =>
        let^ row := peek (λ s, get_by_id (vd_user_id claims) (sv_users s)) in
        let^ row := some_or row (rejection "signed URL references a user that no longer exists") in
        ok (mkAuthedUser row None)
    end.
End Download.

(** ** Decimal text *)

Definition all_digits (s : string) : bool := bytes_all is_ascii_digit s.

Lemma pretty_char_digit n :
  (n < 10)%N → is_ascii_digit (pretty_N_char n) = true ∧ code (pretty_N_char n) - 48 = Z.of_N n.
Proof.
  intros Hn. assert (n = 0 ∨ n = 1 ∨ n = 2 ∨ n = 3 ∨ n = 4 ∨ n = 5 ∨ n = 6 ∨ n = 7 ∨ n = 8 ∨ n = 9)%N as Hc by lia.
  by destruct_or! Hc; subst n; vm_compute.
Qed.

Lemma digits_go x s : all_digits s = true → all_digits (pretty_N_go x s) = true.
Proof.
  revert s. induction (N.lt_wf_0 x) as [x _ IH]; intros s Hs.
  destruct (decide (x = 0)%N) as [->|Hx]; [by rewrite pretty_N_go_0|].
  rewrite pretty_N_go_step by lia. apply IH; [apply N.div_lt; lia|].
  unfold all_digits, bytes_all in *. cbn. rewrite Hs, andb_true_r. apply pretty_char_digit, N.mod_lt. lia.
Qed.

Lemma digits_pretty_N (x : N) : all_digits (pretty x) = true.
Proof. unfold pretty, pretty_N. destruct (decide _); [done|]. by apply digits_go. Qed.

Lemma parse_go x s : parse_decimal 0 (pretty_N_go x s) = parse_decimal (Z.of_N x) s.
Proof.
  revert s. induction (N.lt_wf_0 x) as [x _ IH]; intros s.
  destruct (decide (x = 0)%N) as [->|Hx]; [by rewrite pretty_N_go_0|].
  rewrite pretty_N_go_step by lia. rewrite IH by (apply N.div_lt; lia). cbn [parse_decimal].
  destruct (pretty_char_digit (x mod 10)) as [-> ->]; [apply N.mod_lt; lia|].
  f_equal. rewrite N2Z.inj_div, N2Z.inj_mod. pose proof (Z.div_mod (Z.of_N x) 10 ltac:(lia)). lia.
Qed.

Lemma parse_pretty_N (x : N) : parse_decimal 0 (pretty x) = Some (Z.of_N x).
Proof.
  unfold pretty, pretty_N. destruct (decide (x = 0)%N) as [->|Hx]; [done|]. apply parse_go.
Qed.

Lemma parse_i64_digits s :
  all_digits s = true → s ≠ EmptyString →
  parse_i64 s = (parse_decimal 0 s ≫= λ z, if (i64_min <=? z) && (z <=? i64_max) then Some z else None).
Proof.
  intros Hs Hne. destruct s as [|c r]; [done|]. unfold parse_i64.
  assert (is_ascii_digit c = true) as Hc by (unfold all_digits, bytes_all in Hs; cbn in Hs; by apply andb_true_iff in Hs as []).
  destruct (Ascii.eqb_spec c "-") as [->|_]; [done|]. destruct (Ascii.eqb_spec c "+") as [->|_]; [done|].
  cbn [parse_digits1]. by destruct (parse_decimal 0 (String c r)).
Qed.

Lemma pretty_Z_N z : 0 ≤ z → pretty z = pretty (Z.to_N z).
Proof. by destruct z. Qed.

Lemma pretty_N_nonempty (x : N) : pretty x ≠ EmptyString.
Proof. intros He. pose proof (parse_pretty_N x) as Hp. rewrite He in Hp. injection Hp as Hp. by destruct x. Qed.

Lemma parse_i64_pretty z : 0 ≤ z ≤ i64_max → parse_i64 (pretty z) = Some z.
Proof.
  intros [Hz Hm]. rewrite pretty_Z_N, parse_i64_digits, parse_pretty_N by auto using digits_pretty_N, pretty_N_nonempty.
  cbn [mbind option_bind]. rewrite Z2N.id by done.
  rewrite (proj2 (Z.leb_le _ z)) by (unfold i64_min; lia). by rewrite (proj2 (Z.leb_le _ i64_max)).
Qed.

(** ** Encoding and decoding *)

Lemma decode_encode_cons b bs :
  percent_decode_bytes (percent_encode_bytes (b :: bs)) = b :: percent_decode_bytes (percent_encode_bytes bs).
Proof. by destruct b. Qed.

Lemma percent_roundtrip bs : percent_decode_bytes (percent_encode_bytes bs) = bs.
Proof. induction bs as [|b bs IH]; [done|]. by rewrite decode_encode_cons, IH. Qed.

(** Bytes that stand for themselves in a query. *)
Definition plain (b : byte) : bool := unreserved b || (byte_to_Z b =? 37).

Lemma hex_nibble_unreserved b : is_Some (hex_nibble b) → unreserved b = true.
Proof. intros Hb. destruct b; vm_compute in Hb |- *; done || by destruct Hb. Qed.

Lemma digit_unreserved c : is_ascii_digit c = true → unreserved (byte_of_ascii c) = true.
Proof. by destruct c as [[] [] [] [] [] [] [] []]. Qed.

Lemma decode_unreserved bs : forallb unreserved bs = true → percent_decode_bytes bs = bs.
Proof.
  induction bs as [|b bs IH]; [done|]. cbn [forallb]. intros [Hb Hbs]%andb_true_iff.
  destruct b; first [discriminate Hb | cbn; by rewrite IH].
Qed.

Lemma utf8_ascii bs : forallb unreserved bs = true → utf8_valid bs = true.
Proof.
  induction bs as [|b bs IH]; [done|]. cbn [forallb]. intros [Hb Hbs]%andb_true_iff.
  destruct b; first [discriminate Hb | cbn; by apply IH].
Qed.

Lemma percent_decode_unreserved s : forallb unreserved (as_bytes s) = true → percent_decode s = s.
Proof.
  intros Hs. unfold percent_decode. rewrite decode_unreserved, from_utf8_lossy_valid by auto using utf8_ascii.
  apply string_of_as_bytes.
Qed.

Lemma as_bytes_of bs : as_bytes (String.string_of_list_byte bs) = bs.
Proof. apply String.list_byte_of_string_of_list_byte. Qed.

Lemma percent_decode_encode s : utf8_valid (as_bytes s) = true → percent_decode (percent_encode s) = s.
Proof.
  intros Hs. unfold percent_decode, percent_encode.
  rewrite as_bytes_of, percent_roundtrip, from_utf8_lossy_valid by done. apply string_of_as_bytes.
Qed.

Lemma encode_plain bs : forallb plain (percent_encode_bytes bs) = true.
Proof.
  induction bs as [|b bs IH]; [done|]. unfold plain in *. cbn [percent_encode_bytes].
  destruct (unreserved b) eqn:Hb; cbn [forallb]; [by rewrite Hb|]. rewrite IH, !andb_true_r.
  clear -b. destruct b; reflexivity.
Qed.

(** ** Queries *)

Fixpoint free_of (c : ascii) (s : string) : bool :=
  match s with EmptyString => true | String d s => negb (Ascii.eqb c d) && free_of c s end.

Lemma split_char_app c a b : free_of c a = true → split_char c (a +:+ String c b) = a :: split_char c b.
Proof.
  induction a as [|d a IH]; [intros _|].
  - rewrite append_nil. cbn. unfold is_char. by rewrite Ascii.eqb_refl.
  - intros [Hd Ha]%andb_true_iff. rewrite append_cons. cbn [split_char]. unfold is_char.
    apply negb_true_iff in Hd. by rewrite Hd, IH.
Qed.

Lemma split_char_free c a : free_of c a = true → split_char c a = [a].
Proof.
  induction a as [|d a IH]; [done|]. intros [Hd Ha]%andb_true_iff. cbn [split_char]. unfold is_char.
  apply negb_true_iff in Hd. by rewrite Hd, IH.
Qed.

Lemma plain_free s : forallb plain (as_bytes s) = true → free_of "&" s = true.
Proof.
  induction s as [|c s IH]; [done|]. unfold as_bytes. cbn [String.list_byte_of_string forallb free_of].
  intros [Hc Hs]%andb_true_iff. rewrite (IH Hs), andb_true_r.
  destruct (Ascii.eqb_spec "&" c) as [<-|]; [|done]. discriminate Hc.
Qed.

Lemma unreserved_plain bs : forallb unreserved bs = true → forallb plain bs = true.
Proof.
  induction bs as [|b bs IH]; [done|]. cbn [forallb]. unfold plain at 1.
  intros [Hb Hbs]%andb_true_iff. by rewrite Hb, IH.
Qed.

Lemma query_free_app c a b : free_of c (a +:+ b) = free_of c a && free_of c b.
Proof. induction a as [|d a IH]; [done|]. rewrite append_cons. cbn. by rewrite IH, andb_assoc. Qed.

(** The query of a signed link. *)
Lemma parse_signed_query (e u g : string) :
  forallb unreserved (as_bytes e) = true → forallb plain (as_bytes u) = true → forallb unreserved (as_bytes g) = true →
  parse_query ("exp=" +:+ e +:+ "&user=" +:+ u +:+ "&sig=" +:+ g) =
  <["sig" := g]> (<["user" := percent_decode u]> (<["exp" := e]> ∅)).
Proof.
  intros He Hu Hg. unfold parse_query.
  replace ("exp=" +:+ e +:+ "&user=" +:+ u +:+ "&sig=" +:+ g)
    with (("exp=" +:+ e) +:+ String "&" (("user=" +:+ u) +:+ String "&" ("sig=" +:+ g)))
    by (rewrite !append_assoc; reflexivity).
  rewrite !split_char_app, split_char_free
    by (rewrite query_free_app; cbn; auto using plain_free, unreserved_plain).
  cbn [foldl]. change (parse_pair ("exp=" +:+ e)) with (Some (percent_decode "exp", percent_decode e)).
  change (parse_pair ("user=" +:+ u)) with (Some (percent_decode "user", percent_decode u)).
  change (parse_pair ("sig=" +:+ g)) with (Some (percent_decode "sig", percent_decode g)).
  rewrite !(percent_decode_unreserved e), !(percent_decode_unreserved g) by done.
  by rewrite !percent_decode_unreserved by done.
Qed.

(** ** Comparison *)

Lemma byte_to_Z_inj a b : byte_to_Z a = byte_to_Z b → a = b.
Proof.
  unfold byte_to_Z. intros H%N2Z.inj. assert (Some a = Some b) as [= ->]; [|done].
  by rewrite <- (Byte.of_to_N a), <- (Byte.of_to_N b), H.
Qed.

Lemma diff_bytes_zero acc a b :
  length a = length b → 0 ≤ acc → (diff_bytes acc a b = 0 ↔ acc = 0 ∧ a = b).
Proof.
  revert acc b. induction a as [|x a IH]; intros acc [|y b] Hl Hacc; cbn in *; try lia; [naive_solver|].
  rewrite IH; [|lia|].
  - rewrite Z.lor_eq_0_iff, Z.lxor_eq_0_iff. split; [|naive_solver].
    intros [[-> Hxy%byte_to_Z_inj] ->]. by subst.
  - apply Z.lor_nonneg. split; [done|]. apply Z.lxor_nonneg.
    pose proof (byte_to_Z_range x). pose proof (byte_to_Z_range y). lia.
Qed.

Lemma ct_eq_spec a b : ct_eq a b = true ↔ a = b.
Proof.
  unfold ct_eq, vec_len. destruct (Z.eqb_spec (Z.of_nat (length a)) (Z.of_nat (length b))) as [Hl|Hl]; cbn [negb].
  - rewrite Z.eqb_eq, diff_bytes_zero by lia. naive_solver.
  - split; [done|]. intros ->. lia.
Qed.

Section Theorems.
Context `{DownloadMac}.

(** ** The links the server mints *)

Lemma digits_unreserved s : all_digits s = true → forallb unreserved (as_bytes s) = true.
Proof.
  unfold all_digits, bytes_all, as_bytes, String.list_byte_of_string. induction s as [|c s IH]; [done|]. cbn.
  intros [Hc Hs]%andb_true_iff. rewrite (IH Hs), andb_true_r. by apply digit_unreserved.
Qed.

Lemma sig_unreserved path user_id exp key : forallb unreserved (as_bytes (compute_sig path user_id exp key)) = true.
Proof.
  unfold compute_sig. apply forallb_forall. intros b Hb%list_elem_of_In.
  apply hex_nibble_unreserved. pose proof (mac_hex_digits key (signed_bytes path user_id exp)) as Hf.
  rewrite Forall_forall in Hf. by apply Hf.
Qed.

(** A signed link works as long as it says and no longer than the cap.  Its
    expiry lies between one second and an hour after it was built; what the
    server parses out of its query is accepted for exactly its user until that
    second, and refused as expired afterwards. *)
Theorem signed_url_verifies path user_id ttl_secs key now :
  utf8_valid (as_bytes user_id) = true → 0 ≤ now ≤ i64_max - MAX_TTL_SECS →
  let '(url, exp) := build_signed_url path user_id ttl_secs key now in
  now < exp ≤ now + MAX_TTL_SECS ∧
  ∃ query, url = path +:+ "?" +:+ query ∧
    ∀ later, verify_sig path query key later =
      if exp <? later then Err Expired else Ok (mkClaims user_id exp).
Proof.
  intros Hu Hnow. unfold build_signed_url. set (ttl := Z.max 1 (Z.min MAX_TTL_SECS ttl_secs)). cbv zeta.
  assert (1 ≤ ttl ≤ MAX_TTL_SECS) as Httl by (unfold ttl, MAX_TTL_SECS; lia).
  rewrite i64_add_id by (unfold in_i64, i64_min, i64_max, MAX_TTL_SECS in *; lia).
  set (exp := now + ttl). split; [lia|].
  assert (0 ≤ exp ≤ i64_max) as Hexp by (unfold MAX_TTL_SECS in *; lia).
  exists ("exp=" +:+ pretty exp +:+ "&user=" +:+ percent_encode user_id +:+ "&sig=" +:+ compute_sig path user_id exp key).
  split; [reflexivity|]. intros later. unfold verify_sig.
  rewrite parse_signed_query;
    [|by apply digits_unreserved; rewrite pretty_Z_N by lia; apply digits_pretty_N
     |unfold percent_encode; rewrite as_bytes_of; apply encode_plain|apply sig_unreserved].
  rewrite (lookup_insert_ne _ "sig" "exp"), (lookup_insert_ne _ "user" "exp"), lookup_insert_eq by done.
  rewrite (lookup_insert_ne _ "sig" "user"), !lookup_insert_eq by done.
  rewrite parse_i64_pretty by done. destruct (exp <? later); [done|].
  rewrite percent_decode_encode by done. by rewrite (proj2 (ct_eq_spec _ _) eq_refl).
Qed.

(** ** Links it did not mint *)








End Theorems.

(** ** A concrete link *)

(** The sum of the message's bytes, in eight digits. *)
#[local] Instance toy_download : DownloadMac.
Proof.
  refine {| mac_hex _ m := pretty (Z.to_N (foldr (λ b n, byte_to_Z b + 31 * n) 7 m mod 1000003)) |}.
  intros k m. apply Forall_forall. intros b Hb.
  pose proof (digits_pretty_N (Z.to_N (foldr (λ b n, byte_to_Z b + 31 * n) 7 m mod 1000003))) as Hd.
  revert Hb Hd. generalize (pretty (Z.to_N (foldr (λ b n, byte_to_Z b + 31 * n) 7 m mod 1000003))). intros s.
  unfold all_digits, bytes_all, as_bytes, String.list_byte_of_string. induction s as [|c s IH]; cbn; [set_solver|].
  intros [->|Hb]%elem_of_cons [Hc Hs]%andb_true_iff; [|by apply IH].
  clear -Hc. destruct c as [[] [] [] [] [] [] [] []]; first [discriminate Hc | eexists; reflexivity].
Defined.

Lemma signed_url_verifies_witness :
  let '(url, exp) := build_signed_url "/api/attachments/7" "controller é" 99999 [] 1000 in
  exp = 4600 ∧ ∃ query, url = "/api/attachments/7" +:+ "?" +:+ query ∧
  verify_sig "/api/attachments/7" query [] 4600 = Ok (mkClaims "controller é" 4600) ∧
  verify_sig "/api/attachments/7" query [] 4601 = Err Expired.
Proof.
  pose proof (signed_url_verifies "/api/attachments/7" "controller é" 99999 [] 1000 eq_refl
    ltac:(split; vm_compute; discriminate)) as H.
  destruct H as [_ (query & Hurl & Hv)]. split; [reflexivity|]. exists query. split; [exact Hurl|].
  split; [exact (Hv 4600)|exact (Hv 4601)].
Defined.

