(* ===== verification/Evidence.v ===== *)
(** * Evidence that a task is done

    [crates/core/src/completion_evidence.rs]: what counts as proof for the
    completion contract of a run.  A file counts when its row is traced to the
    run and its bytes still match the recorded digest, a delivery when the
    outbox row was delivered inside the run's window of the conversation, and
    a human's word when an audit record of the Controller says it.  The JSON
    library, SHA-256, the MessagePack codec of cards and the file system are
    parameters. *)

From S2P Require Import Prelude Wire Text EventKind EventHmac RunSchema Schema EventLog RunBase ServiceBase.

(** ** Values of serde_json *)

Inductive JsonView (V : Type) : Type :=
| JObject (fields : list (string * V))
| JArray (values : list V)
| JString (s : string)
| JOther.
Arguments JObject {V} fields.
Arguments JArray {V} values.
Arguments JString {V} s.
Arguments JOther {V}.

Class JsonValue (V : Type) : Type := {
  json_view : V → JsonView V;
  json_eqb : V → V → bool;
  json_pointer : V → string → option V;
  json_from_slice : bytes → option V;
  json_from_text : string → option V;
  json_to_vec : V → option bytes;
  json_of_view : JsonView V → V;
  json_null_value : V
}.

(** [crates/core/src/cards.rs] *)
Inductive CardState : Type :=
| CardPending | CardRunning | CardPaused | CardCompleted | CardFailed | CardCancelled.

#[global] Instance CardState_eq_dec : EqDecision CardState.
Proof. solve_decision. Defined.

Record CardClosedPayload (V : Type) : Type := mkCardClosed {
  cc_card_id : string;
  cc_state : CardState;
  cc_summary : string;
  cc_details : option V;
  cc_attachment_id : option string;
  cc_error : option string
}.
Arguments mkCardClosed {V}.
Arguments cc_state {V}.
Arguments cc_attachment_id {V}.

Class CardCodec (V : Type) : Type :=
  from_slice_card_closed : bytes → option (CardClosedPayload V).

(** ** Tables and files *)

(** [state_artifacts], primary key [id]. *)
Record ArtifactRow : Type := mkArtifactRow {
  af_research_job_id : option string;
  af_kind : string;
  af_path : string;
  af_sha256 : string;
  af_bytes : option Z;
  af_created_at : Z;
  af_expires_at : option Z
}.

(** [state_tool_result_artifacts], primary key [artifact_id]. *)
Record ToolArtifactRow : Type := mkToolArtifact {
  ta_conversation_id : string;
  ta_run_id : string;
  ta_sha256 : string;
  ta_byte_length : Z;
  ta_expires_at : Z
}.

(** [state_attachments], primary key [id]. *)
Record AttachmentRow : Type := mkAttachment {
  am_conversation_id : string;
  am_path : string;
  am_sha256 : string;
  am_received_at : Z
}.

(** [state_research_jobs], primary key [id]; the rows in the order the query
    below visits them. *)
Record ResearchJobRow : Type := mkResearchJob {
  rj_id : string;
  rj_conversation_id : string;
  rj_status : string;
  rj_attachment_id : option string;
  rj_created_at : Z
}.

(** [config_audit], primary key [id] (autoincrement). *)
Record AuditRow : Type := mkAuditRow {
  ad_ts : Z;
  ad_actor : string;
  ad_table_name : string;
  ad_row_id : string;
  ad_old_json : option bytes;
  ad_new_json : option bytes
}.

(** What [symlink_metadata] answers about a path. *)
Record FileMeta : Type := mkFileMeta { fm_is_file : bool; fm_is_symlink : bool; fm_len : Z }.

(** The file system; [fs_metadata_len] follows links, and a file that cannot be
    opened or read to its end has no contents. *)
Record FileSystem : Type := mkFileSystem {
  fs_symlink_metadata : string → option FileMeta;
  fs_metadata_len : string → option Z;
  fs_read : string → option bytes
}.

Record Evidence : Type := mkEvidence {
  ed_db : Db;
  ed_artifacts : gmap string ArtifactRow;
  ed_tool_artifacts : gmap string ToolArtifactRow;
  ed_attachments : gmap string AttachmentRow;
  ed_research_jobs : list ResearchJobRow;
  ed_audit : gmap Z AuditRow;
  ed_audit_last_id : Z;
  ed_files : FileSystem
}.

Section Proofs.
Context {V : Type} `{JsonValue V} `{MsgPack V} `{CardCodec V} (sha256_hex : bytes → string).

(** ** Reading a value *)

(** [fields.get(key)] *)
Fixpoint field {A} (key : string) (fields : list (string * A)) : option A :=
  match fields with
  | [] => None
  | (k, v) :: fields => if String.eqb k key then Some v else field key fields
  end.
(** [Value::get], [::as_str] and [::as_array] *)
Definition json_get (v : V) (key : string) : option V :=
  match json_view v with JObject fields => field key fields | _ => None end.
Definition json_as_str (v : V) : option string :=
  match json_view v with JString s => Some s | _ => None end.
Definition json_as_array (v : V) : option (list V) :=
  match json_view v with JArray l => Some l | _ => None end.
Definition names (o : option V) (expected : string) : bool :=
  bool_decide ((o ≫= json_as_str) = Some expected).

Fixpoint has_named_reference (v : V) (key expected : string) (depth : nat) : bool :=
  match depth with
  | O => false
  | S depth =>
      match json_view v with
      | JObject fields =>
          names (field key fields) expected
          || existsb (λ kv, has_named_reference kv.2 key expected depth) fields
      | JArray values => existsb (λ v, has_named_reference v key expected depth) values
      | _ => false
      end
  end.

Fixpoint has_research_job_reference (v : V) (expected : string) (depth : nat) : bool :=
  match depth with
  | O => false
  | S depth =>
      match json_view v with
      | JObject fields =>
          names (field "job_id" fields) expected
          || names (field "job" fields ≫= λ job, json_get job "id") expected
          || existsb (λ kv, has_research_job_reference kv.2 expected depth) fields
      | JArray values => existsb (λ v, has_research_job_reference v expected depth) values
      | _ => false
      end
  end.

(** ** Files *)

Definition file_matches (fs : FileSystem) (path expected_sha256 : string) (expected_bytes : Z) : bool :=
  if (expected_bytes <? 0) || negb (Nat.eqb (String.length expected_sha256) 64) then false
  else match fs_symlink_metadata fs path with
       | None => false
       | Some metadata =>
           if negb (fm_is_file metadata) || fm_is_symlink metadata || negb (fm_len metadata =? expected_bytes)
           then false
           else match fs_read fs path with
                | None => false
                | Some content => String.eqb (sha256_hex content) expected_sha256
                end
       end.

(** ** Artifacts *)

(** [expires_at IS NULL OR expires_at > now] *)
Definition unexpired (now : Z) (expires_at : option Z) : bool :=
  match expires_at with None => true | Some t => now <? t end.

(** The row of the two queries of [artifact_has_run_producer]. *)
Record Produced : Type := mkProduced {
  pd_path : string;
  pd_sha256 : string;
  pd_bytes : Z;
  pd_kind : string;
  pd_research_job_id : option string;
  pd_conversation_id : string;
  pd_input_seq : Z
}.

Definition stored_artifact (e : Evidence) (rid artifact_id : string) (now : Z) : option Produced :=
  match ed_artifacts e !! artifact_id, find_run rid (ed_db e) with
  | Some a, Some r =>
      if (String.eqb (af_kind a) "plugin_artifact" || String.eqb (af_kind a) "research_pdf")
         && (run_started_at r <=? af_created_at a) && unexpired now (af_expires_at a)
      then Some (mkProduced (af_path a) (af_sha256 a) (default (-1) (af_bytes a)) (af_kind a)
                   (af_research_job_id a) (run_conversation_id r) (run_input_event_seq r))
      else None
  | _, _ => None
  end.

Definition research_attachment (e : Evidence) (rid artifact_id : string) : option Produced :=
  match ed_attachments e !! artifact_id, find_run rid (ed_db e) with
  | Some a, Some r =>
      match List.find (λ j,
          bool_decide (rj_attachment_id j = Some artifact_id)
          && String.eqb (am_conversation_id a) (rj_conversation_id j)
          && String.eqb (run_conversation_id r) (rj_conversation_id j)
          && String.eqb (rj_status j) "complete"
          && (run_started_at r <=? rj_created_at j) && (run_started_at r <=? am_received_at a))
          (ed_research_jobs e) with
      | Some j =>
          let bytes := match fs_metadata_len (ed_files e) (am_path a) with
                       | Some n => default (-1) (i64_of_u64 n)
                       | None => -1
                       end in
          Some (mkProduced (am_path a) (am_sha256 a) bytes "research_pdf" (Some (rj_id j))
                  (run_conversation_id r) (run_input_event_seq r))
      | None => None
      end
  | _, _ => None
  end.

(** [SELECT MIN(input_event_seq) FROM state_runs WHERE conversation_id=?1 AND
    input_event_seq>?2] *)
Definition next_input (d : Db) (c : string) (seq : Z) : option Z :=
  foldr (λ r m,
    if String.eqb (run_conversation_id r) c && (seq <? run_input_event_seq r)
    then Some (match m with Some m => Z.min (run_input_event_seq r) m | None => run_input_event_seq r end)
    else m) None (state_runs d).

(** [decode_payload_bytes::<CardClosedPayload>] *)
Definition decode_card_closed (kind : EventKind) (payload : bytes) : option (CardClosedPayload V) :=
  match decode_versioned_payload kind payload with
  | Err _ => None
  | Ok (_, body) => from_slice_card_closed body
  end.

(** One iteration over the events of the window. *)
Definition event_names_artifact (p : Produced) (artifact_id : string) (ev : EventRow) : bool :=
  if String.eqb (ev_kind ev) "tool_result" then
    match decode_tool_result (V:=V) (parse (ev_kind ev)) (ev_payload ev) with
    | Err _ => false
    | Ok result =>
        match tr_outcome result with
        | Err _ => false
        | Ok value =>
            (String.eqb (pd_kind p) "plugin_artifact"
             && (has_named_reference value "attachment_id" artifact_id 8
                 || has_named_reference value "artifact_id" artifact_id 8))
            || (String.eqb (pd_kind p) "research_pdf"
                && match pd_research_job_id p with
                   | Some job_id => has_research_job_reference value job_id 8
                   | None => false
                   end)
        end
    end
  else match decode_card_closed (parse (ev_kind ev)) (ev_payload ev) with
       | Some card => bool_decide (cc_state card = CardCompleted)
                      && bool_decide (cc_attachment_id card = Some artifact_id)
       | None => false
       end.

Definition in_window (from until : Z) (ev : EventRow) : bool :=
  (from <=? ev_seq ev) && (ev_seq ev <? until)
  && (String.eqb (ev_kind ev) "tool_result" || String.eqb (ev_kind ev) "card_closed").

Definition research_job_is_complete (e : Evidence) (p : Produced) (artifact_id : string) : bool :=
  if String.eqb (pd_kind p) "research_pdf" then
    match pd_research_job_id p with
    | None => false
    | Some job_id =>
        existsb (λ j, String.eqb (rj_id j) job_id && String.eqb (rj_conversation_id j) (pd_conversation_id p)
                      && String.eqb (rj_status j) "complete"
                      && bool_decide (rj_attachment_id j = Some artifact_id)) (ed_research_jobs e)
    end
  else true.

Definition artifact_has_run_producer (e : Evidence) (rid artifact_id : string) (now : Z) : bool :=
  let row := match stored_artifact e rid artifact_id now with
             | Some p => Some p
             | None => research_attachment e rid artifact_id
             end in
  match row with
  | None => false
  | Some p =>
      if negb (file_matches (ed_files e) (pd_path p) (pd_sha256 p) (pd_bytes p)) then false
      else if negb (research_job_is_complete e p artifact_id) then false
      else
        let next := next_input (ed_db e) (pd_conversation_id p) (pd_input_seq p) in
        existsb (event_names_artifact p artifact_id)
          (List.filter (in_window (pd_input_seq p) (default i64_max next))
             (events_of (pd_conversation_id p) (ed_db e)))
  end.

(** The joins of [run_artifact_exists]: a stored tool result of the run, and
    the result of one of its completed child tasks. *)
Definition tool_result_file (e : Evidence) (rid artifact_id : string) (now : Z) : option (string * string * Z) :=
  match ed_tool_artifacts e !! artifact_id, ed_artifacts e !! artifact_id, find_run rid (ed_db e) with
  | Some t, Some a, Some r =>
      if String.eqb (ta_run_id t) rid && String.eqb (run_conversation_id r) (ta_conversation_id t)
         && (now <? ta_expires_at t) && unexpired now (af_expires_at a)
         && String.eqb (af_sha256 a) (ta_sha256 t) && bool_decide (af_bytes a = Some (ta_byte_length t))
      then Some (af_path a, af_sha256 a, ta_byte_length t) else None
  | _, _, _ => None
  end.

Definition child_result_file (e : Evidence) (rid artifact_id : string) (now : Z) : option (string * string * Z) :=
  match ed_artifacts e !! artifact_id with
  | Some a =>
      if existsb (λ task,
           String.eqb (ck_parent_run_id task) rid
           && bool_decide (ck_result_artifact_id task = Some artifact_id)
           && existsb (λ child, is_run (ck_child_run_id task) child
                                && bool_decide (run_status child = RunCompleted)) (state_runs (ed_db e)))
           (child_tasks (run_tables (ed_db e)))
         && unexpired now (af_expires_at a)
      then Some (af_path a, af_sha256 a, default (-1) (af_bytes a)) else None
  | None => None
  end.

Definition run_artifact_exists (e : Evidence) (rid reference : string) (now : Z) : bool :=
  match strip_prefix "attachment:" reference with
  | None => false
  | Some artifact_id =>
      if String.eqb artifact_id "" then false
      else match tool_result_file e rid artifact_id now with
           | Some (path, sha256, bytes) => file_matches (ed_files e) path sha256 bytes
           | None =>
               match child_result_file e rid artifact_id now with
               | Some (path, sha256, bytes) =>
                   file_matches (ed_files e) path sha256 bytes
                   || artifact_has_run_producer e rid artifact_id now
               | None => artifact_has_run_producer e rid artifact_id now
               end
           end
  end.

(** ** Attestations and deliveries *)

(** [reference.strip_prefix(p).and_then(parse::<i64>).filter(> 0)] *)
Definition reference_id (p reference : string) : option Z :=
  match strip_prefix p reference ≫= parse_i64 with
  | Some id => if 0 <? id then Some id else None
  | None => None
  end.

Definition is_attestation (reference : string) : bool := starts_with reference "attestation:".

(** The closure on the audit record's JSON. *)
Definition attests (value : V) (required_status : string) (submitted_refs : option (list string)) : bool :=
  if negb (names (json_get value "status") required_status) then false
  else if String.eqb required_status "passed" then
    match submitted_refs with
    | None => false
    | Some expected =>
        let submitted := List.filter (λ r, negb (is_attestation r)) expected in
        negb (bool_decide (submitted = []))
        && match json_get value "submitted_evidence_refs" ≫= json_as_array with
           | Some stored =>
               Nat.eqb (length stored) (length submitted)
               && forallb (λ p, bool_decide (json_as_str p.1 = Some p.2)) (List.combine stored submitted)
           | None => false
           end
    end
  else if String.eqb required_status "confirmed" then
    match json_get value "submitted_evidence_ref" ≫= json_as_str with
    | Some reference => negb (blank reference) && Nat.leb (String.length reference) 512
    | None => false
    end
  else false.

Definition attestation_exists (e : Evidence) (reference table_name row_id required_status : string)
    (submitted_refs : option (list string)) : bool :=
  match reference_id "attestation:" reference with
  | None => false
  | Some id =>
      match ed_audit e !! id with
      | Some row =>
          if String.eqb (ad_table_name row) table_name && String.eqb (ad_row_id row) row_id
          then match ad_new_json row ≫= json_from_slice with
               | None => false
               | Some value => negb (blank (ad_actor row)) && attests value required_status submitted_refs
               end
          else false
      | None => false
      end
  end.

(** [effect_kind LIKE 'transport.%'], which ignores the case of ASCII. *)
Definition like_transport (effect_kind : string) : bool :=
  starts_with (to_ascii_lowercase effect_kind) "transport.".

Definition run_delivery_exists (e : Evidence) (rid reference : string) : bool :=
  match reference_id "outbox:" reference with
  | None => false
  | Some outbox_id =>
      match find_run rid (ed_db e) with
      | None => false
      | Some run =>
          let until := default i64_max
            (next_input (ed_db e) (run_conversation_id run) (run_input_event_seq run)) in
          existsb (λ o,
            (ob_id o =? outbox_id) && String.eqb (ob_conversation_id o) (run_conversation_id run)
            && (run_input_event_seq run <=? ob_enqueued_seq o) && (ob_enqueued_seq o <? until)
            && String.eqb (ob_status o) "delivered" && like_transport (ob_effect_kind o)
            && existsb (λ ev, (de_outbox_id ev =? ob_id o)
                 && (String.eqb (de_transition ev) "delivered"
                     || String.eqb (de_transition ev) "operator_confirmed_delivered"))
                 (delivery_events (ed_db e)))
            (state_outbox (ed_db e))
      end
  end.

End Proofs.
