(* ===== verification/EvidenceFacts.v ===== *)
(** * What the evidence of a run is

    The conditions of [Evidence] said on the tables, the events and the JSON
    values, without its functions: which events and effects belong to a run,
    which files are a run's, and what an attestation says.  The lemmas show
    that whatever the functions accept satisfies them. *)

From S2P Require Import Prelude Wire Text EventKind EventHmac RunSchema Schema EventLog RunBase ServiceBase Evidence.

(** ** Texts *)

Lemma starts_with_prefix s p : starts_with s p = String.prefix p s.
Proof.
  revert s. induction p as [|a p IH]; intros [|c s]; try done. specialize (IH s).
  unfold starts_with in *. cbn. destruct (Ascii.ascii_dec a c) as [->|Hne].
  - by rewrite Ascii.eqb_refl.
  - by apply Ascii.eqb_neq in Hne as ->.
Qed.

(** [LIKE 'transport.%']: the first ten characters, in any case. *)
Definition transport_kind (kind : string) : Prop :=
  ∃ p rest, kind = p +:+ rest ∧ to_ascii_lowercase p = "transport.".

Lemma lowercase_prefix p s rest :
  to_ascii_lowercase s = p +:+ rest → ∃ q rest', s = q +:+ rest' ∧ to_ascii_lowercase q = p.
Proof.
  revert s. induction p as [|a p IH]; intros s; [by exists "", s|].
  destruct s as [|c s]; [done|]. intros [= <- Heq]. apply IH in Heq as (q & rest' & -> & <-).
  by exists (String c q), rest'.
Qed.

Lemma like_transport_kind kind : like_transport kind = true → transport_kind kind.
Proof.
  unfold like_transport, starts_with. destruct (strip_prefix _ _) as [rest|] eqn:Hp; [intros _|done].
  apply strip_prefix_Some, lowercase_prefix in Hp as (q & rest' & -> & Hq). by exists q, rest'.
Qed.

(** ** The run's part of a conversation *)

(** From the run's input up to the next input that started a run there. *)
Definition of_run (d : Db) (run : RunRecord) (seq : Z) : Prop :=
  run_input_event_seq run <= seq ∧
  ∀ next, next ∈ state_runs d → run_conversation_id next = run_conversation_id run →
    run_input_event_seq run < run_input_event_seq next → seq < run_input_event_seq next.

Lemma before_next_input d run seq :
  run_input_event_seq run <= seq →
  seq < default i64_max (next_input d (run_conversation_id run) (run_input_event_seq run)) → of_run d run seq.
Proof.
  intros Hlo Hlt. split; [done|]. revert Hlt. unfold next_input. generalize (state_runs d) as l.
  set (step := λ r m, _).
  assert (∀ l m next, foldr step None l = m → next ∈ l → run_conversation_id next = run_conversation_id run →
    run_input_event_seq run < run_input_event_seq next → ∃ n, m = Some n ∧ n <= run_input_event_seq next) as Hmin.
  { induction l as [|r l IH]; intros m next Hm Hin Hc Hn; [by apply elem_of_nil in Hin|].
    cbn in Hm. unfold step at 1 in Hm. apply elem_of_cons in Hin as [->|Hin].
    - rewrite Hc, String.eqb_refl, (proj2 (Z.ltb_lt _ _) Hn) in Hm. subst m. cbn.
      destruct (foldr step None l) as [n|]; eexists; (split; [done|]); lia.
    - destruct (IH _ next eq_refl Hin Hc Hn) as (n & Hf & Hle). rewrite Hf in Hm.
      destruct (_ && _); subst m; eexists; (split; [done|]); lia. }
  intros l Hlt next Hin Hc Hn. destruct (Hmin l _ next eq_refl Hin Hc Hn) as (n & Hf & Hle).
  rewrite Hf in Hlt. cbn in Hlt. lia.
Qed.

Definition valid_until (now : Z) (expires_at : option Z) : Prop := ∀ t, expires_at = Some t → now < t.

Lemma unexpired_valid now o : unexpired now o = true → valid_until now o.
Proof. intros Hu t ->. by apply Z.ltb_lt. Qed.

Section Facts.
Context {V : Type} `{JsonValue V} `{MsgPack V} `{CardCodec V} (sha256_hex : bytes → string).

(** ** JSON values *)

(** The value [x] lies [n] levels below [v]. *)
Inductive inside : V → nat → V → Prop :=
| inside_here v : inside v 0 v
| inside_field v n fields k w x : json_view v = JObject fields → (k, w) ∈ fields → inside w n x → inside v (S n) x
| inside_item v n l w x : json_view v = JArray l → w ∈ l → inside w n x → inside v (S n) x.

Definition member (v : V) (key : string) (w : V) : Prop :=
  ∃ fields, json_view v = JObject fields ∧ field key fields = Some w.
Definition says (v : V) (key s : string) : Prop := ∃ w, member v key w ∧ json_view w = JString s.

(** Some value less than eight levels below satisfies [Q]. *)
Definition mentions (Q : V → Prop) (v : V) : Prop := ∃ n x, (n < 8)%nat ∧ inside v n x ∧ Q x.

Lemma json_as_str_Some v s : json_as_str v = Some s → json_view v = JString s.
Proof. unfold json_as_str. destruct (json_view v); by intros [= ->]. Qed.

Lemma names_field v fields key s :
  json_view v = JObject fields → names (field key fields) s = true → says v key s.
Proof.
  intros Hv Hn%bool_decide_eq_true. destruct (field key fields) as [w|] eqn:Hf; [|done].
  exists w. split; [by exists fields|]. by apply json_as_str_Some.
Qed.

Lemma names_get v key s : names (json_get v key) s = true → says v key s.
Proof.
  unfold json_get. destruct (json_view v) as [fields| | |] eqn:Hv; try done. by apply names_field.
Qed.

Lemma named_reference v key s d :
  has_named_reference v key s d = true → ∃ n x, (n < d)%nat ∧ inside v n x ∧ says x key s.
Proof.
  revert v. induction d as [|d IH]; intros v; cbn; [done|].
  destruct (json_view v) as [fields|l| |] eqn:Hv; try done.
  - intros [Hn|((k & w) & Hin & (n & x & Hlt & Hx & Hs)%IH)%existsb_True]%orb_true_iff.
    + exists 0%nat, v. split_and!; [lia|constructor|by eapply names_field].
    + exists (S n), x. split_and!; [lia| |done]. by eapply inside_field.
  - intros (w & Hin & (n & x & Hlt & Hx & Hs)%IH)%existsb_True.
    exists (S n), x. split_and!; [lia| |done]. by eapply inside_item.
Qed.

Definition names_job (job : string) (x : V) : Prop :=
  says x "job_id" job ∨ ∃ w, member x "job" w ∧ says w "id" job.

Lemma job_reference v job d :
  has_research_job_reference v job d = true → ∃ n x, (n < d)%nat ∧ inside v n x ∧ names_job job x.
Proof.
  revert v. induction d as [|d IH]; intros v; cbn; [done|].
  destruct (json_view v) as [fields|l| |] eqn:Hv; try done.
  - intros [[Hn|Hn]%orb_true_iff|((k & w) & Hin & (n & x & Hlt & Hx & Hs)%IH)%existsb_True]%orb_true_iff.
    + exists 0%nat, v. split_and!; [lia|constructor|left; by eapply names_field].
    + exists 0%nat, v. split_and!; [lia|constructor|right].
      destruct (field "job" fields) as [w|] eqn:Hf; [|done]. exists w. split; [by exists fields|by apply names_get].
    + exists (S n), x. split_and!; [lia| |done]. by eapply inside_field.
  - intros (w & Hin & (n & x & Hlt & Hx & Hs)%IH)%existsb_True.
    exists (S n), x. split_and!; [lia| |done]. by eapply inside_item.
Qed.

(** ** Files of a run *)

(** A successful tool result among the run's events satisfies [Q]. *)
Definition tool_reported (d : Db) (run : RunRecord) (Q : V → Prop) : Prop :=
  ∃ ev result value, ev ∈ events_of (run_conversation_id run) d ∧ of_run d run (ev_seq ev) ∧
    ev_kind ev = "tool_result" ∧ decode_tool_result (V:=V) (parse (ev_kind ev)) (ev_payload ev) = Ok result ∧
    tr_outcome result = Ok value ∧ Q value.

(** A card that closed as completed among the run's events carries the file. *)
Definition card_delivered (d : Db) (run : RunRecord) (artifact_id : string) : Prop :=
  ∃ ev card, ev ∈ events_of (run_conversation_id run) d ∧ of_run d run (ev_seq ev) ∧
    ev_kind ev = "card_closed" ∧ decode_card_closed (V:=V) (parse (ev_kind ev)) (ev_payload ev) = Some card ∧
    cc_state card = CardCompleted ∧ cc_attachment_id card = Some artifact_id.

Definition stored_file (a : ArtifactRow) (path digest : string) (size : Z) : Prop :=
  path = af_path a ∧ digest = af_sha256 a ∧ af_bytes a = Some size.

(** Where a file that counts for a run comes from: the result of one of its
    tool calls, the result of a completed child task, a plugin's file, or the
    output of a research job. *)
Inductive run_file (e : Evidence) (rid artifact_id : string) (now : Z) (path digest : string) (size : Z) : Prop :=
| of_tool_result run t a :
    find_run rid (ed_db e) = Some run →
    ed_tool_artifacts e !! artifact_id = Some t → ta_run_id t = rid →
    ta_conversation_id t = run_conversation_id run → now < ta_expires_at t →
    ed_artifacts e !! artifact_id = Some a → valid_until now (af_expires_at a) → ta_sha256 t = digest →
    stored_file a path digest size →
    run_file e rid artifact_id now path digest size
| of_child_task a task child :
    task ∈ child_tasks (run_tables (ed_db e)) → ck_parent_run_id task = rid →
    ck_result_artifact_id task = Some artifact_id →
    child ∈ state_runs (ed_db e) → run_id child = ck_child_run_id task → run_status child = RunCompleted →
    ed_artifacts e !! artifact_id = Some a → valid_until now (af_expires_at a) →
    stored_file a path digest size →
    run_file e rid artifact_id now path digest size
| of_plugin run a :
    find_run rid (ed_db e) = Some run →
    ed_artifacts e !! artifact_id = Some a → af_kind a = "plugin_artifact" →
    run_started_at run <= af_created_at a → valid_until now (af_expires_at a) →
    stored_file a path digest size →
    tool_reported (ed_db e) run (mentions (λ x, says x "attachment_id" artifact_id ∨ says x "artifact_id" artifact_id))
      ∨ card_delivered (ed_db e) run artifact_id →
    run_file e rid artifact_id now path digest size
| of_research run job :
    find_run rid (ed_db e) = Some run →
    job ∈ ed_research_jobs e → rj_conversation_id job = run_conversation_id run → rj_status job = "complete" →
    rj_attachment_id job = Some artifact_id →
    (∃ a, ed_artifacts e !! artifact_id = Some a ∧ af_kind a = "research_pdf" ∧
       af_research_job_id a = Some (rj_id job) ∧ run_started_at run <= af_created_at a ∧
       valid_until now (af_expires_at a) ∧ stored_file a path digest size) ∨
    (∃ a, ed_attachments e !! artifact_id = Some a ∧ am_conversation_id a = run_conversation_id run ∧
       run_started_at run <= am_received_at a ∧ path = am_path a ∧ digest = am_sha256 a) →
    tool_reported (ed_db e) run (mentions (names_job (rj_id job))) ∨ card_delivered (ed_db e) run artifact_id →
    run_file e rid artifact_id now path digest size.

(** The file is there, not through a link, and its bytes are the recorded
    ones. *)
Definition intact (fs : FileSystem) (path digest : string) (size : Z) : Prop :=
  ∃ metadata content, fs_symlink_metadata fs path = Some metadata ∧ fm_is_file metadata = true ∧
    fm_is_symlink metadata = false ∧ fm_len metadata = size ∧ fs_read fs path = Some content ∧
    sha256_hex content = digest ∧ String.length digest = 64%nat.

Lemma file_matches_intact fs path digest n :
  file_matches sha256_hex fs path digest n = true → intact fs path digest n ∧ 0 <= n.
Proof.
  unfold file_matches, intact. destruct (_ || _) eqn:Hd; [done|].
  apply orb_false_iff in Hd as [Hn%Z.ltb_ge Hlen%negb_false_iff%Nat.eqb_eq].
  destruct (fs_symlink_metadata fs path) as [m|]; [|done].
  destruct (negb (fm_is_file m) || _ || _) eqn:Hb; [done|].
  apply orb_false_iff in Hb as [[Hf%negb_false_iff Hl]%orb_false_iff Hsz%negb_false_iff%Z.eqb_eq].
  destruct (fs_read fs path) as [content|]; [|done]. intros Heq%String.eqb_eq. eauto 12.
Qed.

Lemma stored_file_matches a path digest n :
  path = af_path a → digest = af_sha256 a → n = default (-1) (af_bytes a) → 0 <= n → stored_file a path digest n.
Proof. intros -> -> -> Hn. split_and!; [done..|]. by destruct (af_bytes a). Qed.

(** The event that named a produced file. *)
Lemma produced_event e run p artifact_id :
  pd_conversation_id p = run_conversation_id run → pd_input_seq p = run_input_event_seq run →
  existsb (event_names_artifact (V:=V) p artifact_id)
    (List.filter (in_window (pd_input_seq p)
        (default i64_max (next_input (ed_db e) (pd_conversation_id p) (pd_input_seq p))))
      (events_of (pd_conversation_id p) (ed_db e))) = true →
  (pd_kind p = "plugin_artifact" ∧ tool_reported (ed_db e) run
     (mentions (λ x, says x "attachment_id" artifact_id ∨ says x "artifact_id" artifact_id))) ∨
  (pd_kind p = "research_pdf" ∧ ∃ job, pd_research_job_id p = Some job ∧
     tool_reported (ed_db e) run (mentions (names_job job))) ∨
  card_delivered (ed_db e) run artifact_id.
Proof.
  intros -> ->. intros (ev & Hev & Hnames)%existsb_True.
  apply list_elem_of_In, filter_In in Hev as [Hin Hwin]. apply list_elem_of_In in Hin.
  apply andb_true_iff in Hwin as [[Hle%Z.leb_le Hlt%Z.ltb_lt]%andb_true_iff Hkind].
  pose proof (before_next_input _ _ _ Hle Hlt) as Hof. unfold event_names_artifact in Hnames.
  destruct (String.eqb_spec (ev_kind ev) "tool_result") as [Hk|Hk].
  - destruct (decode_tool_result _ _) as [result|] eqn:Hdec; [|done].
    destruct (tr_outcome result) as [value|] eqn:Hout; [|done].
    assert (∀ Q : V → Prop, Q value → tool_reported (ed_db e) run Q) as Htr.
    { intros Q HQ. by exists ev, result, value. }
    apply orb_true_iff in Hnames as [[Hpk%String.eqb_eq Hn]%andb_true_iff|[Hpk%String.eqb_eq Hn]%andb_true_iff].
    + left. split; [done|]. apply Htr. unfold mentions.
      apply orb_true_iff in Hn as [(n & x & ? & ? & ?)%named_reference|(n & x & ? & ? & ?)%named_reference]; eauto 8.
    + right. left. split; [done|]. destruct (pd_research_job_id p) as [job|]; [|done].
      exists job. split; [done|]. apply Htr. by apply job_reference.
  - right. right. apply String.eqb_eq in Hkind.
    destruct (decode_card_closed _ _) as [card|] eqn:Hdec; [|done].
    apply andb_true_iff in Hnames as [Hs%bool_decide_eq_true Ha%bool_decide_eq_true]. by exists ev, card.
Qed.

Lemma stored_produced e rid artifact_id now p :
  stored_artifact e rid artifact_id now = Some p →
  ∃ run a, find_run rid (ed_db e) = Some run ∧ ed_artifacts e !! artifact_id = Some a ∧
    (af_kind a = "plugin_artifact" ∨ af_kind a = "research_pdf") ∧ run_started_at run <= af_created_at a ∧
    valid_until now (af_expires_at a) ∧
    p = mkProduced (af_path a) (af_sha256 a) (default (-1) (af_bytes a)) (af_kind a) (af_research_job_id a)
          (run_conversation_id run) (run_input_event_seq run).
Proof.
  unfold stored_artifact. destruct (ed_artifacts e !! artifact_id) as [a|]; [|done].
  destruct (find_run rid (ed_db e)) as [run|]; [|done]. destruct (_ && _) eqn:Hb; [|done]. intros [= <-].
  apply andb_true_iff in Hb as [[Hk%orb_true_iff Hs%Z.leb_le]%andb_true_iff Hu%unexpired_valid].
  rewrite !String.eqb_eq in Hk. by exists run, a.
Qed.

Lemma attachment_produced e rid artifact_id p :
  research_attachment e rid artifact_id = Some p →
  ∃ run a job, find_run rid (ed_db e) = Some run ∧ ed_attachments e !! artifact_id = Some a ∧
    am_conversation_id a = run_conversation_id run ∧ run_started_at run <= am_received_at a ∧
    pd_path p = am_path a ∧ pd_sha256 p = am_sha256 a ∧ pd_kind p = "research_pdf" ∧
    pd_research_job_id p = Some job ∧ pd_conversation_id p = run_conversation_id run ∧
    pd_input_seq p = run_input_event_seq run.
Proof.
  unfold research_attachment. destruct (ed_attachments e !! artifact_id) as [a|]; [|done].
  destruct (find_run rid (ed_db e)) as [run|]; [|done]. destruct (List.find _ _) as [j|] eqn:Hf; [|done].
  intros [= <-]. apply find_Some_elem in Hf as [_ Hb]. rewrite !andb_true_iff, !Z.leb_le in Hb.
  destruct Hb as [[[[[_ Ha%String.eqb_eq] Hr%String.eqb_eq] _] _] Hrec].
  exists run, a, (rj_id j). split_and!; try done. congruence.
Qed.

(** The job a produced research file must name, complete with this file. *)
Lemma research_job e p artifact_id :
  pd_kind p = "research_pdf" → research_job_is_complete e p artifact_id = true →
  ∃ job, pd_research_job_id p = Some (rj_id job) ∧ job ∈ ed_research_jobs e ∧
    rj_conversation_id job = pd_conversation_id p ∧ rj_status job = "complete" ∧
    rj_attachment_id job = Some artifact_id.
Proof.
  unfold research_job_is_complete. intros ->. cbn. destruct (pd_research_job_id p) as [id|]; [|done].
  intros (job & Hin & Hb)%existsb_True. rewrite !andb_true_iff, !String.eqb_eq, bool_decide_eq_true in Hb.
  destruct Hb as [[[Hid Hc] Hs] Ha]. exists job. by subst id.
Qed.

Lemma producer_intact e rid artifact_id now :
  artifact_has_run_producer sha256_hex e rid artifact_id now = true →
  ∃ path digest size, run_file e rid artifact_id now path digest size ∧ intact (ed_files e) path digest size.
Proof.
  unfold artifact_has_run_producer.
  destruct (stored_artifact e rid artifact_id now) as [p|] eqn:Hst.
  - apply stored_produced in Hst as (run & a & Hrun & Ha & Hk & Hs & Hu & Hp).
    destruct (file_matches _ _ _ _ _) eqn:Hf; [|done]. apply file_matches_intact in Hf as [Hint Hn].
    destruct (research_job_is_complete _ _ _) eqn:Hj; [|done]. cbn [negb].
    intros Hev%(produced_event e run); [|by subst p..].
    assert (stored_file a (pd_path p) (pd_sha256 p) (pd_bytes p)) as Hsf by (subst p; by apply stored_file_matches).
    exists (pd_path p), (pd_sha256 p), (pd_bytes p). split; [|done].
    assert (pd_kind p = af_kind a) as Hka by (by subst p). destruct Hk as [Hk|Hk].
    + eapply of_plugin; try done. destruct Hev as [[_ Ht]|[[Hr _]|Hc]]; [by left|congruence|by right].
    + destruct (research_job e p artifact_id) as (job & Hid & Hin & Hc & Hdone & Hatt); [congruence|done|].
      eapply (of_research _ _ _ _ _ _ _ run job); try done.
      * by subst p.
      * left. exists a. split_and!; try done; [by subst p|apply Hsf..].
      * destruct Hev as [[Hr _]|[[_ (id & Hid' & Ht)]|Hc']]; [congruence|left|by right].
        by assert (id = rj_id job) as -> by congruence.
  - destruct (research_attachment e rid artifact_id) as [p|] eqn:Hat; [|done].
    apply attachment_produced in Hat as (run & a & j & Hrun & Ha & Hca & Hrec & Hpath & Hdig & Hk & Hjob & Hc & Hseq).
    destruct (file_matches _ _ _ _ _) eqn:Hf; [|done]. apply file_matches_intact in Hf as [Hint Hn].
    destruct (research_job_is_complete _ _ _) eqn:Hj; [|done]. cbn [negb].
    intros Hev%(produced_event e run); [|done..].
    exists (pd_path p), (pd_sha256 p), (pd_bytes p). split; [|done].
    destruct (research_job e p artifact_id) as (job & Hid & Hin & Hcj & Hdone & Hatt); [done..|].
    eapply (of_research _ _ _ _ _ _ _ run job); try done.
    + congruence.
    + right. by exists a.
    + destruct Hev as [[Hr _]|[[_ (id & Hid' & Ht)]|Hc']]; [congruence|left|by right].
      by assert (id = rj_id job) as -> by congruence.
Qed.

Lemma tool_result_intact e rid artifact_id now path digest n :
  tool_result_file e rid artifact_id now = Some (path, digest, n) →
  file_matches sha256_hex (ed_files e) path digest n = true →
  run_file e rid artifact_id now path digest n ∧ intact (ed_files e) path digest n.
Proof.
  unfold tool_result_file. destruct (ed_tool_artifacts e !! artifact_id) as [t|] eqn:Ht; [|done].
  destruct (ed_artifacts e !! artifact_id) as [a|] eqn:Ha; [|done].
  destruct (find_run rid (ed_db e)) as [r|] eqn:Hr; [|done]. destruct (_ && _) eqn:Hb; [|done].
  intros [= <- <- <-] [Hint _]%file_matches_intact.
  rewrite !andb_true_iff, !String.eqb_eq, bool_decide_eq_true, Z.ltb_lt in Hb.
  destruct Hb as [[[[[Hrun Hc] Hx] Hu%unexpired_valid] Hd] Hsz]. split; [|done].
  by eapply (of_tool_result _ _ _ _ _ _ _ r t a).
Qed.

Lemma child_result_intact e rid artifact_id now path digest n :
  child_result_file e rid artifact_id now = Some (path, digest, n) →
  file_matches sha256_hex (ed_files e) path digest n = true →
  run_file e rid artifact_id now path digest n ∧ intact (ed_files e) path digest n.
Proof.
  unfold child_result_file. destruct (ed_artifacts e !! artifact_id) as [a|] eqn:Ha; [|done].
  destruct (_ && _) eqn:Hb; [|done]. intros [= <- <- <-] [Hint Hn]%file_matches_intact.
  apply andb_true_iff in Hb as [(task & Htask & Hb)%existsb_True Hu%unexpired_valid].
  rewrite !andb_true_iff in Hb. destruct Hb as [[Hpar%String.eqb_eq Hres%bool_decide_eq_true] Hch].
  apply existsb_True in Hch as (child & Hchild & Hb).
  apply andb_true_iff in Hb as [Hid%String.eqb_eq Hst%bool_decide_eq_true]. split; [|done].
  eapply (of_child_task _ _ _ _ _ _ _ a task child); try done. by apply stored_file_matches.
Qed.

(** A reference that counts is a file of the run whose bytes are as recorded. *)
Lemma artifact_intact e rid reference now :
  run_artifact_exists sha256_hex e rid reference now = true →
  ∃ artifact_id path digest size, reference = "attachment:" +:+ artifact_id ∧
    run_file e rid artifact_id now path digest size ∧ intact (ed_files e) path digest size.
Proof.
  unfold run_artifact_exists. destruct (strip_prefix _ reference) as [aid|] eqn:Hr; [|done].
  apply strip_prefix_Some in Hr as ->. destruct (String.eqb aid ""); [done|]. intros Hex.
  assert (∃ path digest size, run_file e rid aid now path digest size ∧ intact (ed_files e) path digest size)
    as (path & digest & size & Hp); [|by exists aid, path, digest, size].
  destruct (tool_result_file e rid aid now) as [[[path digest] n]|] eqn:Ht.
  - exists path, digest, n. by apply tool_result_intact.
  - destruct (child_result_file e rid aid now) as [[[path digest] n]|] eqn:Hc; [|by eapply producer_intact].
    destruct (file_matches _ _ _ _ _) eqn:Hf; [|by eapply producer_intact].
    exists path, digest, n. by apply child_result_intact.
Qed.

(** ** Attestations *)

(** The references that are not attestations themselves. *)
Definition submitted (refs : list string) : list string := filter (λ r, String.prefix "attestation:" r ≠ true) refs.

(** What the JSON of an audit record says: that these references pass, or
    that a delivery with some reference is confirmed. *)
Definition says_passed (value : V) (refs : list string) : Prop :=
  says value "status" "passed" ∧ submitted refs ≠ [] ∧
  ∃ w l, member value "submitted_evidence_refs" w ∧ json_view w = JArray l ∧
    Forall2 (λ v r, json_view v = JString r) l (submitted refs).
Definition says_confirmed (value : V) : Prop :=
  says value "status" "confirmed" ∧
  ∃ r, says value "submitted_evidence_ref" r ∧ trim r ≠ "" ∧ (String.length r ≤ 512)%nat.

(** The audit record a reference names. *)
Definition names_audit (e : Evidence) (reference : string) (row : AuditRow) : Prop :=
  ∃ digits id, reference = "attestation:" +:+ digits ∧ parse_i64 digits = Some id ∧ 0 < id ∧
    ed_audit e !! id = Some row.

Lemma reference_id_Some p reference id :
  reference_id p reference = Some id → ∃ digits, reference = p +:+ digits ∧ parse_i64 digits = Some id ∧ 0 < id.
Proof.
  unfold reference_id. destruct (strip_prefix p reference) as [digits|] eqn:Hp; [|done]. cbn.
  destruct (parse_i64 digits) as [n|] eqn:Hn; [|done]. destruct (Z.ltb_spec 0 n); [|done]. intros [= <-].
  exists digits. split_and!; [by apply strip_prefix_Some|done..].
Qed.

Lemma submitted_filter refs : List.filter (λ r, negb (is_attestation r)) refs = submitted refs.
Proof.
  unfold submitted. induction refs as [|r refs IH]; [done|]. cbn [List.filter]. rewrite filter_cons.
  unfold is_attestation at 1. rewrite starts_with_prefix, IH.
  destruct (String.prefix "attestation:" r) eqn:Hp; cbn.
  - by rewrite decide_False by (intros Hn; by apply Hn).
  - by rewrite decide_True by done.
Qed.

Lemma strings_match (l : list V) refs :
  length l = length refs → forallb (λ p, bool_decide (json_as_str p.1 = Some p.2)) (List.combine l refs) = true →
  Forall2 (λ v r, json_view v = JString r) l refs.
Proof.
  revert refs. induction l as [|v l IH]; intros [|r refs]; try done. cbn.
  intros [= Hlen] [Hv%bool_decide_eq_true Hl]%andb_true_iff. constructor; [by apply json_as_str_Some|by apply IH].
Qed.

Lemma get_member v key w : json_get v key = Some w → member v key w.
Proof. unfold json_get. destruct (json_view v) as [fields| | |] eqn:Hv; try done. by exists fields. Qed.

Lemma attests_passed value refs : attests value "passed" (Some refs) = true → says_passed value refs.
Proof.
  unfold attests. destruct (names _ _) eqn:Hs; [|done]. cbn -[is_attestation]. rewrite submitted_filter.
  intros [Hne%negb_true_iff%bool_decide_eq_false Ha]%andb_true_iff. split; [by apply names_get|]. split; [done|].
  destruct (json_get value "submitted_evidence_refs") as [w|] eqn:Hw; [|done]. cbn in Ha.
  unfold json_as_array in Ha. destruct (json_view w) as [|l| |] eqn:Hv; try done.
  apply andb_true_iff in Ha as [Hlen%Nat.eqb_eq Hall]. exists w, l. split_and!; [by apply get_member|done|].
  by apply strings_match.
Qed.

Lemma attests_confirmed value refs : attests value "confirmed" refs = true → says_confirmed value.
Proof.
  unfold attests. destruct (names _ _) eqn:Hs; [|done]. cbn. intros Ha. split; [by apply names_get|].
  destruct (json_get value "submitted_evidence_ref") as [w|] eqn:Hw; [|done]. cbn in Ha.
  destruct (json_as_str w) as [r|] eqn:Hr; [|done].
  apply andb_true_iff in Ha as [Hb%negb_true_iff%String.eqb_neq Hl%Nat.leb_le].
  exists r. split_and!; [|done..]. exists w. split; [by apply get_member|by apply json_as_str_Some].
Qed.

Lemma attestation_record e reference table_name row_id status refs :
  attestation_exists e reference table_name row_id status refs = true →
  ∃ row value, names_audit e reference row ∧ ad_table_name row = table_name ∧ ad_row_id row = row_id ∧
    ad_new_json row ≫= json_from_slice = Some value ∧ attests value status refs = true.
Proof.
  unfold attestation_exists. destruct (reference_id _ _) as [id|] eqn:Hid; [|done].
  apply reference_id_Some in Hid as (digits & Href & Hparse & Hpos).
  destruct (_ !! id) as [row|] eqn:Hrow; [|done]. destruct (_ && _) eqn:Hb; [|done].
  apply andb_true_iff in Hb as [Ht%String.eqb_eq Hr%String.eqb_eq].
  destruct (ad_new_json row ≫= json_from_slice) as [value|] eqn:Hv; [|done].
  intros [_ Hatt]%andb_true_iff. exists row, value. split_and!; try done. by exists digits, id.
Qed.

(** ** Deliveries *)

(** The reference names an outbox row of the run's part of the conversation
    that a transport delivered, with the record of its delivery. *)
Definition delivered_effect (e : Evidence) (rid reference : string) : Prop :=
  ∃ run o ev digits, find_run rid (ed_db e) = Some run ∧ o ∈ state_outbox (ed_db e) ∧
    reference = "outbox:" +:+ digits ∧ parse_i64 digits = Some (ob_id o) ∧
    ob_conversation_id o = run_conversation_id run ∧ of_run (ed_db e) run (ob_enqueued_seq o) ∧
    ob_status o = "delivered" ∧ transport_kind (ob_effect_kind o) ∧
    ev ∈ delivery_events (ed_db e) ∧ de_outbox_id ev = ob_id o ∧
    (de_transition ev = "delivered" ∨ de_transition ev = "operator_confirmed_delivered").

Lemma delivery_exists_effect e rid reference :
  run_delivery_exists e rid reference = true → delivered_effect e rid reference.
Proof.
  unfold run_delivery_exists. destruct (reference_id _ _) as [id|] eqn:Hid; [|done].
  apply reference_id_Some in Hid as (digits & Href & Hparse & _).
  destruct (find_run _ _) as [run|] eqn:Hrun; [|done]. intros (o & Ho & Hb)%existsb_True.
  rewrite !andb_true_iff in Hb.
  destruct Hb as [[[[[[Hoid%Z.eqb_eq Hc%String.eqb_eq] Hle%Z.leb_le] Hlt%Z.ltb_lt] Hst%String.eqb_eq] Hk] Hev].
  apply existsb_True in Hev as (ev & Hin & Hb). apply andb_true_iff in Hb as [He%Z.eqb_eq Ht%orb_true_iff].
  rewrite !String.eqb_eq in Ht. exists run, o, ev, digits. split_and!; try done; [by subst id| |].
  - by apply before_next_input.
  - by apply like_transport_kind.
Qed.
End Facts.
