(* ===== verification/Completion.v ===== *)
(** * Completion contracts of runs

    The part of [crates/core/src/runs.rs] that decides whether a task is done:
    the contract the operator attaches to a run, the checks recorded against
    it, and the report derived from both.  A report re-examines the evidence
    of every recorded check, so what was recorded is never trusted by itself.
    The operations are sequences of atomic statements on the tables below. *)

From stdpp Require Import sorting.
From S2P Require Import Prelude Wire Text EventLog RunSchema Schema RunBase ServiceBase Procs Evidence.

(** ** Contracts, checks and reports *)

Record RunStepVerifier (V : Type) : Type := mkVerifier {
  vf_step_id : string;
  vf_json_pointer : string;
  vf_expected : V
}.
Arguments mkVerifier {V}.
Arguments vf_step_id {V}.
Arguments vf_json_pointer {V}.
Arguments vf_expected {V}.

Record AcceptanceCriterion (V : Type) : Type := mkCriterion {
  ac_criterion_id : string;
  ac_description : string;
  ac_required : bool;
  ac_verifier : option (RunStepVerifier V)
}.
Arguments mkCriterion {V}.
Arguments ac_criterion_id {V}.
Arguments ac_description {V}.
Arguments ac_required {V}.
Arguments ac_verifier {V}.

Record RequiredRunArtifact : Type := mkRequiredArtifact { ra_artifact_id : string; ra_description : string }.

Record RunCompletionContract (V : Type) : Type := mkContract {
  ct_run_id : string;
  ct_acceptance_criteria : list (AcceptanceCriterion V);
  ct_required_artifacts : list RequiredRunArtifact;
  ct_delivery_required : bool;
  ct_created_at : Z
}.
Arguments mkContract {V}.
Arguments ct_run_id {V}.
Arguments ct_acceptance_criteria {V}.
Arguments ct_required_artifacts {V}.
Arguments ct_delivery_required {V}.
Arguments ct_created_at {V}.

Record RunCompletionContractDraft (V : Type) : Type := mkDraft {
  dr_acceptance_criteria : list (AcceptanceCriterion V);
  dr_required_artifacts : list RequiredRunArtifact;
  dr_delivery_required : bool
}.
Arguments mkDraft {V}.
Arguments dr_acceptance_criteria {V}.
Arguments dr_required_artifacts {V}.
Arguments dr_delivery_required {V}.

Inductive VerificationStatus : Type := VPending | VPassed | VFailed | VBlocked.

#[global] Instance VerificationStatus_eq_dec : EqDecision VerificationStatus.
Proof. solve_decision. Defined.

Record CriterionVerification : Type := mkVerification {
  cv_criterion_id : string;
  cv_status : VerificationStatus;
  cv_evidence_refs : list string;
  cv_detail : option string;
  cv_verified_at : Z
}.

Record ArtifactVerification : Type := mkArtifactCheck {
  av_artifact_id : string;
  av_present : bool;
  av_evidence_ref : option string;
  av_detail : option string;
  av_checked_at : Z
}.

Inductive RunCompletionStatus : Type := CIncomplete | CPartial | CBlocked | CVerifiedComplete.

#[global] Instance RunCompletionStatus_eq_dec : EqDecision RunCompletionStatus.
Proof. solve_decision. Defined.

Record RunCompletionReport (V : Type) : Type := mkReport {
  rp_contract : RunCompletionContract V;
  rp_verifications : list CriterionVerification;
  rp_artifacts : list ArtifactVerification;
  rp_delivery_confirmed : bool;
  rp_delivery_evidence_ref : option string;
  rp_status : RunCompletionStatus;
  rp_unfinished : list string
}.
Arguments mkReport {V}.
Arguments rp_contract {V}.
Arguments rp_verifications {V}.
Arguments rp_artifacts {V}.
Arguments rp_delivery_confirmed {V}.
Arguments rp_delivery_evidence_ref {V}.
Arguments rp_status {V}.
Arguments rp_unfinished {V}.

(** ** Tables *)

(** [state_run_completion_contracts], primary key [run_id]. *)
Record ContractRow : Type := mkContractRow {
  cr_acceptance_criteria_json : string;
  cr_required_artifacts_json : string;
  cr_delivery_required : bool;
  cr_delivery_confirmed : bool;
  cr_delivery_evidence_ref : option string;
  cr_created_at : Z;
  cr_updated_at : Z
}.

(** [state_run_completion_verifications] and [state_run_completion_artifacts],
    primary keys [(run_id, criterion_id)] and [(run_id, artifact_id)], kept per
    run.  The status column's check admits the texts of the enum. *)
Record VerificationRow : Type := mkVerificationRow {
  vr_status : VerificationStatus;
  vr_evidence_refs_json : string;
  vr_detail : option string;
  vr_verified_at : Z
}.
Record ArtifactCheckRow : Type := mkArtifactCheckRow {
  ar_present : bool;
  ar_evidence_ref : option string;
  ar_detail : option string;
  ar_checked_at : Z
}.

Record Completion : Type := mkCompletion {
  cw_clock : Z;
  cw_evidence : Evidence;
  cw_contracts : gmap string ContractRow;
  cw_verifications : gmap string (gmap string VerificationRow);
  cw_artifact_checks : gmap string (gmap string ArtifactCheckRow)
}.

Definition set_contracts (f : gmap string ContractRow → gmap string ContractRow) (s : Completion) : Completion :=
  mkCompletion (cw_clock s) (cw_evidence s) (f (cw_contracts s)) (cw_verifications s) (cw_artifact_checks s).
Definition set_verifications (f : gmap string (gmap string VerificationRow) → gmap string (gmap string VerificationRow))
    (s : Completion) : Completion :=
  mkCompletion (cw_clock s) (cw_evidence s) (cw_contracts s) (f (cw_verifications s)) (cw_artifact_checks s).
Definition set_artifact_checks (f : gmap string (gmap string ArtifactCheckRow) → gmap string (gmap string ArtifactCheckRow))
    (s : Completion) : Completion :=
  mkCompletion (cw_clock s) (cw_evidence s) (cw_contracts s) (cw_verifications s) (f (cw_artifact_checks s)).

(** serde_json on the three columns that hold JSON. *)
Class ContractCodec (V : Type) : Type := {
  criteria_to_string : list (AcceptanceCriterion V) → option string;
  criteria_from_str : string → option (list (AcceptanceCriterion V));
  artifacts_to_string : list RequiredRunArtifact → option string;
  artifacts_from_str : string → option (list RequiredRunArtifact);
  refs_to_string : list string → option string;
  refs_from_str : string → option (list string)
}.

(** What was written is read back. *)
Class ContractCodecLaws (V : Type) `{ContractCodec V} : Prop := {
  criteria_roundtrip : ∀ l s, criteria_to_string l = Some s → criteria_from_str s = Some l;
  artifacts_roundtrip : ∀ l s, artifacts_to_string l = Some s → artifacts_from_str s = Some l;
  refs_roundtrip : ∀ l s, refs_to_string l = Some s → refs_from_str s = Some l
}.

Section Operations.
Context {V : Type} `{JsonValue V} `{MsgPack V} `{CardCodec V} `{ContractCodec V} (sha256_hex : bytes → string).

(** ** Validation *)

Definition bounded_text (s : string) (n : nat) : bool := negb (blank s) && Nat.leb (String.length s) n.

Definition check_verifier (v : RunStepVerifier V) : bool :=
  bounded_text (vf_step_id v) 128 && starts_with (vf_json_pointer v) "/"
  && Nat.leb (String.length (vf_json_pointer v)) 256
  && match json_to_vec (vf_expected v) with
     | Some encoded => Nat.leb (length encoded) (Z.to_nat 4096) | None => true end.

Fixpoint check_criteria (seen : list string) (l : list (AcceptanceCriterion V)) : result RunStoreError () :=
  match l with
  | [] => Ok ()
  | c :: l =>
      if negb (bounded_text (ac_criterion_id c) 128) || negb (bounded_text (ac_description c) (Z.to_nat 2000))
         || bool_decide (ac_criterion_id c ∈ seen)
      then Err (Corrupt "acceptance criteria need unique bounded ids and descriptions")
      else if match ac_verifier c with Some v => check_verifier v | None => true end
      then check_criteria (ac_criterion_id c :: seen) l
      else Err (Corrupt "step verifier needs a bounded step id, JSON pointer, and expected value")
  end.

Fixpoint check_required_artifacts (seen : list string) (l : list RequiredRunArtifact) : result RunStoreError () :=
  match l with
  | [] => Ok ()
  | a :: l =>
      if negb (bounded_text (ra_artifact_id a) 128) || negb (bounded_text (ra_description a) (Z.to_nat 2000))
         || bool_decide (ra_artifact_id a ∈ seen)
      then Err (Corrupt "required artifacts need unique bounded ids and descriptions")
      else check_required_artifacts (ra_artifact_id a :: seen) l
  end.

Definition is_nil {A} (l : list A) : bool := match l with [] => true | _ => false end.

Definition validate_completion_contract (contract : RunCompletionContract V) : result RunStoreError () :=
  if blank (ct_run_id contract)
     || Nat.ltb 100 (length (ct_acceptance_criteria contract))
     || Nat.ltb 100 (length (ct_required_artifacts contract))
     || (is_nil (ct_acceptance_criteria contract) && is_nil (ct_required_artifacts contract))
     || (negb (existsb ac_required (ct_acceptance_criteria contract)) && is_nil (ct_required_artifacts contract))
  then Err (Corrupt "a completion contract requires at least one required criterion or artifact")
  else match check_criteria [] (ct_acceptance_criteria contract) with
       | Err e => Err e
       | Ok _ => check_required_artifacts [] (ct_required_artifacts contract)
       end.

(** [RunCompletionContractDraft::validate] *)
Definition validate_draft (d : RunCompletionContractDraft V) : result RunStoreError () :=
  validate_completion_contract
    (mkContract "validation" (dr_acceptance_criteria d) (dr_required_artifacts d) (dr_delivery_required d) 0).

Definition validate_reference_list (references : list string) : result RunStoreError () :=
  if Nat.ltb 32 (length references) || existsb (λ r, blank r || Nat.ltb 512 (String.length r)) references
  then Err (Corrupt "evidence references must be non-empty and bounded") else Ok ().

(** ** The report *)

(** [HashMap::from_iter] and [get]: of two entries with a key the later. *)
Definition last_with {A} (key : A → string) (k : string) (l : list A) : option A :=
  List.find (λ x, String.eqb (key x) k) (reverse l).

Definition verification_of (l : list CriterionVerification) (c : AcceptanceCriterion V) : CriterionVerification :=
  default (mkVerification (ac_criterion_id c) VPending [] None 0) (last_with cv_criterion_id (ac_criterion_id c) l).
Definition artifact_check_of (l : list ArtifactVerification) (a : RequiredRunArtifact) : ArtifactVerification :=
  default (mkArtifactCheck (ra_artifact_id a) false None None 0) (last_with av_artifact_id (ra_artifact_id a) l).

(** The local variables of the two loops. *)
Record Tally : Type := mkTally { tl_blocked : bool; tl_incomplete : bool; tl_partial : bool; tl_unfinished : list string }.

Definition tally_blocked (m : string) (t : Tally) : Tally :=
  mkTally true (tl_incomplete t) (tl_partial t) (tl_unfinished t ++ [m]).
Definition tally_incomplete (m : string) (t : Tally) : Tally :=
  mkTally (tl_blocked t) true (tl_partial t) (tl_unfinished t ++ [m]).
Definition tally_partial (m : string) (t : Tally) : Tally :=
  mkTally (tl_blocked t) (tl_incomplete t) true (tl_unfinished t ++ [m]).

Definition tally_criterion (t : Tally) (p : AcceptanceCriterion V * CriterionVerification) : Tally :=
  let '(criterion, result) := p in
  let quoted (a b : string) := a +:+ ac_description criterion +:+ b in
  match cv_status result with
  | VPassed => t
  | VFailed | VBlocked =>
      if ac_required criterion
      then tally_blocked (default (quoted "Required criterion '" "' did not pass") (cv_detail result)) t
      else tally_partial (default (quoted "Optional criterion '" "' did not pass") (cv_detail result)) t
  | VPending =>
      if ac_required criterion
      then tally_incomplete (quoted "Required criterion '" "' is not verified") t
      else tally_partial (quoted "Optional criterion '" "' is not verified") t
  end.

Definition tally_artifact (t : Tally) (p : RequiredRunArtifact * ArtifactVerification) : Tally :=
  let '(requirement, result) := p in
  if av_checked_at result =? 0
  then tally_incomplete ("Required artifact '" +:+ ra_description requirement +:+ "' has not been checked") t
  else if negb (av_present result)
  then tally_blocked (default ("Required artifact '" +:+ ra_description requirement +:+ "' is missing") (av_detail result)) t
  else t.

Definition build_completion_report (contract : RunCompletionContract V) (verifications : list CriterionVerification)
    (artifacts : list ArtifactVerification) (delivery_confirmed : bool) (delivery_evidence_ref : option string)
    : RunCompletionReport V :=
  let verifications := map (verification_of verifications) (ct_acceptance_criteria contract) in
  let artifacts := map (artifact_check_of artifacts) (ct_required_artifacts contract) in
  let t := foldl tally_criterion (mkTally false false false [])
             (List.combine (ct_acceptance_criteria contract) verifications) in
  let t := foldl tally_artifact t (List.combine (ct_required_artifacts contract) artifacts) in
  let t := if ct_delivery_required contract && negb delivery_confirmed
           then tally_incomplete "Required delivery has no durable confirmation" t else t in
  mkReport contract verifications artifacts delivery_confirmed delivery_evidence_ref
    (if tl_blocked t then CBlocked else if tl_incomplete t then CIncomplete
     else if tl_partial t then CPartial else CVerifiedComplete)
    (tl_unfinished t).

(** ** Deriving it from the tables *)

(** The criterion's row, or an error if its references do not parse. *)
Definition verification_from_row (p : string * VerificationRow) : option CriterionVerification :=
  let '(id, r) := p in
  match refs_from_str (vr_evidence_refs_json r) with
  | Some refs => Some (mkVerification id (vr_status r) refs (vr_detail r) (vr_verified_at r))
  | None => None
  end.
Definition artifact_from_row (p : string * ArtifactCheckRow) : ArtifactVerification :=
  let '(id, r) := p in
  mkArtifactCheck id (ar_present r) (ar_evidence_ref r) (ar_detail r) (ar_checked_at r).

(** [WHERE run_id = ?1 ORDER BY id] *)
Definition key_le {A} (x y : string * A) : Prop := String.leb x.1 y.1 = true.
#[global] Instance key_le_dec {A} (x y : string * A) : Decision (key_le x y).
Proof. unfold key_le. apply _. Defined.
Definition rows_of {A} (rid : string) (m : gmap string (gmap string A)) : list (string * A) :=
  merge_sort key_le (map_to_list (default ∅ (m !! rid))).

Definition host_tool (k : RunStepKind) : bool :=
  match k with ToolDispatch | ArtifactPublish | DeterministicCompute => true | _ => false end.

(** The value a checkpoint holds at the verifier's pointer. *)
Definition checkpoint_value (step : RunStepRecord) (v : RunStepVerifier V) : option V :=
  match st_output_ref step with
  | None => None
  | Some output =>
      match strip_prefix "json:" output with
      | None => None
      | Some text =>
          match json_from_text text with
          | Some json => json_pointer json (vf_json_pointer v)
          | None => None
          end
      end
  end.

Definition step_verdict (d : Db) (rid : string) (v : RunStepVerifier V) : VerificationStatus * string * Z :=
  match find_step rid (vf_step_id v) d with
  | None => (VPending, "step has not started", 0)
  | Some step =>
      let at_ := default 0 (st_completed_at step) in
      if negb (host_tool (st_kind step)) then (VFailed, "verifier step is not a host tool", at_)
      else match st_status step with
           | StepPending | StepRunning | StepWaiting => (VPending, "step has not completed", 0)
           | StepFailed => (VFailed, "step did not complete", at_)
           | StepCompleted =>
               match checkpoint_value step v with
               | Some actual =>
                   if json_eqb actual (vf_expected v) then (VPassed, "checkpoint value matched", at_)
                   else (VFailed, "checkpoint value did not match", at_)
               | None => (VFailed, "checkpoint value did not match", at_)
               end
           end
  end.

Fixpoint update_first {A} (p : A → bool) (f : A → A) (l : list A) : list A :=
  match l with [] => [] | x :: l => if p x then f x :: l else x :: update_first p f l end.

Definition withdraw (record : CriterionVerification) : CriterionVerification :=
  mkVerification (cv_criterion_id record) VBlocked (cv_evidence_refs record)
    (Some "Controller attestation is missing or invalid") (cv_verified_at record).

Definition attested (e : Evidence) (rid : string) (record : CriterionVerification) : bool :=
  existsb (λ reference, attestation_exists e reference "run_completion_verification"
    (rid +:+ "/" +:+ cv_criterion_id record) "passed" (Some (cv_evidence_refs record))) (cv_evidence_refs record).

(** One iteration over the contract's criteria. *)
Definition verify_criterion (e : Evidence) (rid : string) (verifications : list CriterionVerification)
    (criterion : AcceptanceCriterion V) : list CriterionVerification :=
  let is_it (item : CriterionVerification) := String.eqb (cv_criterion_id item) (ac_criterion_id criterion) in
  match ac_verifier criterion with
  | Some v =>
      let '(status, detail, verified_at) := step_verdict (ed_db e) rid v in
      List.filter (λ item, negb (is_it item)) verifications
      ++ [mkVerification (ac_criterion_id criterion) status
            (if bool_decide (status = VPassed) then ["run:" +:+ rid +:+ "/step:" +:+ vf_step_id v] else [])
            (Some detail) verified_at]
  | None =>
      match List.find is_it verifications with
      | Some record =>
          if bool_decide (cv_status record = VPassed) && negb (attested e rid record)
          then update_first is_it withdraw verifications else verifications
      | None => verifications
      end
  end.

Definition verify_artifact (e : Evidence) (rid : string) (now : Z) (a : ArtifactVerification) : ArtifactVerification :=
  if av_present a && negb (run_artifact_exists sha256_hex e rid (default "" (av_evidence_ref a)) now)
  then mkArtifactCheck (av_artifact_id a) false (av_evidence_ref a)
         (Some "produced artifact is missing or invalid") (av_checked_at a)
  else a.

Definition delivery_proven (e : Evidence) (rid : string) (row : ContractRow) : bool :=
  if cr_delivery_confirmed row then
    let reference := default "" (cr_delivery_evidence_ref row) in
    run_delivery_exists e rid reference
    || attestation_exists e reference "run_completion_delivery" rid "confirmed" None
  else false.

(** The executor's outcome on top of the checks. *)
Definition apply_executor (status : RunStatus) (r : RunCompletionReport V) : RunCompletionReport V :=
  let with_status st m := mkReport (rp_contract r) (rp_verifications r) (rp_artifacts r) (rp_delivery_confirmed r)
    (rp_delivery_evidence_ref r) st (rp_unfinished r ++ [m]) in
  match status with
  | RunCompleted => r
  | RunFailed | RunCancelled => with_status CBlocked ("Executor run " +:+ run_status_str status)
  | _ => if bool_decide (rp_status r = CVerifiedComplete)
         then with_status CIncomplete "Executor run has not completed" else r
  end.

Definition stored_contract (rid : string) (row : ContractRow) : result DbError (RunCompletionContract V) :=
  match criteria_from_str (cr_acceptance_criteria_json row) with
  | None => Err (Invariant "invalid completion criteria")
  | Some criteria =>
      match artifacts_from_str (cr_required_artifacts_json row) with
      | None => Err (Invariant "invalid required artifacts")
      | Some artifacts => Ok (mkContract rid criteria artifacts (cr_delivery_required row) (cr_created_at row))
      end
  end.

Definition completion_report (rid : string) (s : Completion) : result DbError (option (RunCompletionReport V)) :=
  let e := cw_evidence s in
  match cw_contracts s !! rid with
  | None => Ok None
  | Some row =>
      match stored_contract rid row with
      | Err err => Err err
      | Ok contract =>
          match mapM verification_from_row (rows_of rid (cw_verifications s)) with
          | None => Err (Sqlite "Invalid column type Text at index: 2, name: evidence_refs_json")
          | Some verifications =>
              let verifications := foldl (verify_criterion e rid) verifications (ct_acceptance_criteria contract) in
              let artifacts := map (verify_artifact e rid (cw_clock s))
                                 (map artifact_from_row (rows_of rid (cw_artifact_checks s))) in
              let report := build_completion_report contract verifications artifacts
                              (delivery_proven e rid row) (cr_delivery_evidence_ref row) in
              match find_run rid (ed_db e) with
              | None => Err no_rows
              | Some run => Ok (Some (apply_executor (run_status run) report))
              end
          end
      end
  end.

(** ** Operations *)

Definition store (A : Type) : Type := proc Completion (result RunStoreError A).

Definition lift {A} (r : result RunStoreError A) : store A := Finish r.
Definition ensure (b : bool) (e : RunStoreError) : store () := if b then ok () else fail e.
Definition encoded {A} (o : option A) : store A :=
  match o with Some a => ok a | None => fail (Corrupt "serde_json") end.
Definition some_or {A} (o : option A) (e : RunStoreError) : store A :=
  match o with Some a => ok a | None => fail e end.

Definition read_report (rid : string) : store (option (RunCompletionReport V)) :=
  call RDb (λ s, (completion_report rid s, s)).

(** The transaction of [set_completion_contract]; the run is a foreign key. *)
Definition put_contract (rid criteria_json artifacts_json : string) (delivery_required : bool) (created_at : Z)
    : act Completion DbError () := λ s,
  let row := mkContractRow criteria_json artifacts_json delivery_required false None created_at created_at in
  match cw_contracts s !! rid with
  | Some stored =>
      if String.eqb (cr_acceptance_criteria_json stored) criteria_json
         && String.eqb (cr_required_artifacts_json stored) artifacts_json
         && eqb (cr_delivery_required stored) delivery_required
      then (Ok (), s)
      else (Err (Invariant ("run '" +:+ rid +:+ "' already has a different completion contract")), s)
  | None =>
      match find_run rid (ed_db (cw_evidence s)) with
      | Some _ => (Ok (), set_contracts <[rid := row]> s)
      | None => (Err foreign_key_failed, s)
      end
  end.

Definition set_completion_contract (contract : RunCompletionContract V) : store () :=
  let^ _ := lift (validate_completion_contract contract) in
  let^ _ := ensure (negb (existsb (λ c, match ac_verifier c with
                                        | Some v => String.eqb (vf_step_id v) "agent:output"
                                        | None => false end) (ct_acceptance_criteria contract)))
              (Corrupt "agent:output verifiers require an agent run") in
  let^ criteria_json := encoded (criteria_to_string (ct_acceptance_criteria contract)) in
  let^ artifacts_json := encoded (artifacts_to_string (ct_required_artifacts contract)) in
  call RDb (put_contract (ct_run_id contract) criteria_json artifacts_json
              (ct_delivery_required contract) (ct_created_at contract)).

(** The upserts of the two check tables; the contract is a foreign key. *)
Definition put_verification (rid cid : string) (row : VerificationRow) : act Completion DbError () := λ s,
  match cw_contracts s !! rid with
  | Some _ => (Ok (), set_verifications (λ m, <[rid := <[cid := row]> (default ∅ (m !! rid))]> m) s)
  | None => (Err foreign_key_failed, s)
  end.
Definition put_artifact_check (rid aid : string) (row : ArtifactCheckRow) : act Completion DbError () := λ s,
  match cw_contracts s !! rid with
  | Some _ => (Ok (), set_artifact_checks (λ m, <[rid := <[aid := row]> (default ∅ (m !! rid))]> m) s)
  | None => (Err foreign_key_failed, s)
  end.

Definition longer_than (o : option string) (n : nat) : bool :=
  match o with Some s => Nat.ltb n (String.length s) | None => false end.

Definition record_completion_verification (rid : string) (verification : CriterionVerification) : store () :=
  let refs := cv_evidence_refs verification in
  let passed := bool_decide (cv_status verification = VPassed) in
  let^ _ := lift (validate_reference_list refs) in
  let^ _ := ensure (negb (passed && is_nil refs)) (Corrupt "a passing verification requires evidence references") in
  let^ _ := ensure (negb (longer_than (cv_detail verification) (Z.to_nat 2000)))
              (Corrupt "verification detail exceeds 2000 bytes") in
  let^ report := read_report rid in
  let^ report := some_or report (NotFound "completion contract" rid) in
  let^ criterion := some_or
      (List.find (λ c, String.eqb (ac_criterion_id c) (cv_criterion_id verification))
         (ct_acceptance_criteria (rp_contract report)))
      (NotFound "acceptance criterion" (cv_criterion_id verification)) in
  let^ _ := ensure (bool_decide (ac_verifier criterion = None))
              (Conflict "a deterministic criterion cannot be overridden by a manual result") in
  let^ _ := if passed then
              let^ valid := peek (λ s, attested (cw_evidence s) rid verification) in
              ensure valid (Corrupt "a manual passing result requires a scoped Controller attestation")
            else ok () in
  let^ evidence_json := encoded (refs_to_string refs) in
  call RDb (put_verification rid (cv_criterion_id verification)
    (mkVerificationRow (cv_status verification) evidence_json (cv_detail verification) (cv_verified_at verification))).

Definition record_artifact_verification (rid : string) (verification : ArtifactVerification) : store () :=
  let reference := default "" (av_evidence_ref verification) in
  let^ _ := ensure (negb (av_present verification && String.eqb reference ""))
              (Corrupt "a present artifact requires an evidence reference") in
  let^ _ := ensure (negb (longer_than (av_detail verification) (Z.to_nat 2000) || longer_than (av_evidence_ref verification) 512))
              (Corrupt "artifact evidence fields exceed their size limits") in
  let^ report := read_report rid in
  let^ report := some_or report (NotFound "completion contract" rid) in
  let^ _ := ensure (existsb (λ a, String.eqb (ra_artifact_id a) (av_artifact_id verification))
                      (ct_required_artifacts (rp_contract report)))
              (NotFound "required artifact" (av_artifact_id verification)) in
  let^ _ := if av_present verification then
              let^ valid := peek (λ s, run_artifact_exists sha256_hex (cw_evidence s) rid reference (cw_clock s)) in
              ensure valid (Corrupt "artifact reference has no intact producer in this run")
            else ok () in
  call RDb (put_artifact_check rid (av_artifact_id verification)
    (mkArtifactCheckRow (av_present verification) (av_evidence_ref verification) (av_detail verification)
       (av_checked_at verification))).

(** [UPDATE state_run_completion_contracts .. WHERE run_id = ?1 AND
    delivery_required = 1]; the number of rows. *)
Definition put_delivery (rid evidence_ref : string) (confirmed_at : Z) : act Completion DbError Z := λ s,
  match cw_contracts s !! rid with
  | Some row =>
      if cr_delivery_required row
      then (Ok 1, set_contracts <[rid := mkContractRow (cr_acceptance_criteria_json row) (cr_required_artifacts_json row)
                     true true (Some evidence_ref) (cr_created_at row) confirmed_at]> s)
      else (Ok 0, s)
  | None => (Ok 0, s)
  end.

Definition confirm_run_delivery (rid evidence_ref : string) (confirmed_at : Z) : store () :=
  let^ _ := ensure (bounded_text evidence_ref 512)
              (Corrupt "delivery confirmation requires a bounded evidence reference") in
  let^ valid := peek (λ s, run_delivery_exists (cw_evidence s) rid evidence_ref
                 || attestation_exists (cw_evidence s) evidence_ref "run_completion_delivery" rid "confirmed" None) in
  let^ _ := ensure valid (Corrupt "delivery reference has no scoped receipt or Controller attestation") in
  let^ changed := call RDb (put_delivery rid evidence_ref confirmed_at) in
  ensure (changed =? 1) (Conflict ("run '" +:+ rid +:+ "' has no pending delivery requirement")).

(** ** Forks *)

Definition set_db (d : Db) (s : Completion) : Completion :=
  let e := cw_evidence s in
  mkCompletion (cw_clock s)
    (mkEvidence d (ed_artifacts e) (ed_tool_artifacts e) (ed_attachments e) (ed_research_jobs e) (ed_audit e)
       (ed_audit_last_id e) (ed_files e))
    (cw_contracts s) (cw_verifications s) (cw_artifact_checks s).

(** A plain [INSERT INTO state_runs]: a taken key or a failed check is an
    error. *)
Definition insert_run (r : RunRecord) : tx Db () := λ d,
  if existsb (is_run (run_id r)) (state_runs d) then Err (Sqlite "UNIQUE constraint failed: state_runs.run_id")
  else if negb (run_check r) then Err (Sqlite "CHECK constraint failed: state_runs")
  else insert_or_ignore_run r d.

(** The transaction of [fork_run]; an error takes the new run back. *)
Definition put_fork (source : RunRecord) (new_id : string) (new_contract : option (RunCompletionContract V)) (now : Z)
    : act Completion DbError () := λ s,
  let run := mkRun new_id (run_conversation_id source) (Some (run_id source)) RunPending 0
               (run_input_event_seq source) now now None in
  match insert_run run (ed_db (cw_evidence s)) with
  | Err e => (Err e, s)
  | Ok (_, d) =>
      match new_contract with
      | None => (Ok (), set_db d s)
      | Some contract =>
          match criteria_to_string (ct_acceptance_criteria contract),
                artifacts_to_string (ct_required_artifacts contract), cw_contracts s !! ct_run_id contract with
          | Some criteria_json, Some artifacts_json, None =>
              let row := mkContractRow criteria_json artifacts_json (ct_delivery_required contract) false None now now in
              (Ok (), set_contracts <[ct_run_id contract := row]> (set_db d s))
          | Some _, Some _, Some _ =>
              (Err (Sqlite "UNIQUE constraint failed: state_run_completion_contracts.run_id"), s)
          | _, _, _ => (Err (Invariant "serde_json"), s)
          end
      end
  end.

(** The contract of the fork: the source's requirements, no evidence. *)
Definition fork_contract (new_id : string) (now : Z) (report : RunCompletionReport V) : RunCompletionContract V :=
  mkContract new_id (ct_acceptance_criteria (rp_contract report)) (ct_required_artifacts (rp_contract report))
    (ct_delivery_required (rp_contract report)) now.

(** [new_id] is the generated identifier. *)
Definition fork_run (source_run_id new_id : string) (now : Z) : store RunRecord :=
  let^ source := peek (λ s, find_run source_run_id (ed_db (cw_evidence s))) in
  let^ source := some_or source (NotFound "run" source_run_id) in
  let^ contract := read_report source_run_id in
  let new_contract := fork_contract new_id now <$> contract in
  let^ _ := match new_contract with
            | Some contract => lift (validate_completion_contract contract)
            | None => ok ()
            end in
  let^ _ := call RDb (put_fork source new_id new_contract now) in
  let^ run := peek (λ s, find_run new_id (ed_db (cw_evidence s))) in
  some_or run (NotFound "forked run" new_id).

End Operations.
