(* ===== verification/CompletionRoutes.v ===== *)
(** * The completion routes

    The handlers of [crates/server/src/runs_admin.rs] that serve completion
    contracts and their evidence and fork runs, and the call by which a turn attaches its
    contract ([crates/runner-local/src/durable.rs]).  A handler is a [proc]:
    other requests run between its statements. *)

From S2P Require Import Prelude Wire Text EventLog RunSchema Schema RunBase ServiceBase Procs.
From S2P Require Import AuthStores AuthRoutes Evidence Completion.

Section Routes.
Context {V : Type} `{JsonValue V} `{MsgPack V} `{CardCodec V} `{ContractCodec V} (sha256_hex : bytes → string).

(** ** The audit log *)

Definition next_audit_id (e : Evidence) : Z := ed_audit_last_id e + 1.

(** [AuditStore::insert] with no old value; the id is [last_insert_rowid]. *)
Definition audit_insert (actor table_name row_id : string) (new : V) : act Completion DbError Z := λ s,
  match json_to_vec new with
  | None => (Err (Serde "encoding new_json"), s)
  | Some blob =>
      let e := cw_evidence s in
      let id := next_audit_id e in
      let row := mkAuditRow (cw_clock s) actor table_name row_id None (Some blob) in
      (Ok id, mkCompletion (cw_clock s)
        (mkEvidence (ed_db e) (ed_artifacts e) (ed_tool_artifacts e) (ed_attachments e) (ed_research_jobs e)
           (<[id := row]> (ed_audit e)) id (ed_files e))
        (cw_contracts s) (cw_verifications s) (cw_artifact_checks s))
  end.

(** ** Errors *)

Definition route (A : Type) : Type := proc Completion (result ApiError A).

(** [map]; the message is [Display] of the store's error. *)
Definition map_error (e : RunStoreError) : ApiError :=
  match e with
  | NotFound _ id => mkApiError 404 "run_completion_not_found" id
  | RDb e => mkApiError 400 "run_completion_error" (display_error e)
  | Conflict m | Corrupt m => mkApiError 400 "run_completion_error" m
  | _ => mkApiError 400 "run_completion_error" ""
  end.

Definition in_store {A} (p : store A) : route A :=
  proc_bind p (λ r, Finish (match r with Ok a => Ok a | Err e => Err (map_error e) end)).

Definition is_controller (user : AuthedUser) : bool := bool_decide (us_role (au_row user) = Controller).

Definition controller (user : AuthedUser) : route () :=
  if is_controller user then ok () else fail (mkApiError 403 "controller_required" "Controller role required").

(** ** Handlers *)

Definition report_or (rid : string) (e : ApiError) : route (RunCompletionReport V) :=
  let^ report := in_store (read_report sha256_hex rid) in
  match report with Some r => ok r | None => fail e end.

Definition get_report (rid : string) : route (RunCompletionReport V) :=
  report_or rid (map_error (NotFound "completion contract" rid)).

Definition get_completion (user : AuthedUser) (rid : string) : route (RunCompletionReport V) :=
  let^ _ := controller user in get_report rid.

Definition put_completion_contract (user : AuthedUser) (rid : string) (request : RunCompletionContractDraft V)
    : route (RunCompletionReport V) :=
  let^ _ := controller user in
  let^ now := peek cw_clock in
  let^ _ := in_store (set_completion_contract
    (mkContract rid (dr_acceptance_criteria request) (dr_required_artifacts request) (dr_delivery_required request) now)) in
  report_or rid (mkApiError 500 "run_completion_missing" "completion contract disappeared after write").

Definition json_text (s : string) : V := json_of_view (JString s).
Definition json_option (o : option string) : V := match o with Some s => json_text s | None => json_null_value end.

Definition record_verification (user : AuthedUser) (rid criterion_id : string) (status : VerificationStatus)
    (evidence_refs : list string) (detail : option string) : route (RunCompletionReport V) :=
  let^ _ := controller user in
  let^ evidence_refs :=
    if bool_decide (status = VPassed) then
      let^ _ := in_store (lift (validate_reference_list evidence_refs)) in
      let^ _ := in_store (ensure (negb (is_nil evidence_refs))
                            (Corrupt "a passing manual result needs submitted evidence")) in
      let audit := json_of_view (JObject
        [("status", json_text "passed");
         ("submitted_evidence_refs", json_of_view (JArray (map json_text evidence_refs)));
         ("detail", json_option detail)]) in
      let^ id := in_store (call RDb (audit_insert (us_user_id (au_row user)) "run_completion_verification"
                                       (rid +:+ "/" +:+ criterion_id) audit)) in
      ok (evidence_refs ++ ["attestation:" +:+ pretty id])
    else ok evidence_refs in
  let^ now := peek cw_clock in
  let^ _ := in_store (record_completion_verification sha256_hex rid
                        (mkVerification criterion_id status evidence_refs detail now)) in
  get_report rid.

Definition record_artifact_check (user : AuthedUser) (rid artifact_id : string) (present : bool)
    (evidence_ref detail : option string) : route (RunCompletionReport V) :=
  let^ _ := controller user in
  let^ now := peek cw_clock in
  let^ _ := in_store (record_artifact_verification sha256_hex rid
                        (mkArtifactCheck artifact_id present evidence_ref detail now)) in
  get_report rid.

Definition confirm_delivery (user : AuthedUser) (rid evidence_ref : string) : route (RunCompletionReport V) :=
  let^ _ := controller user in
  let^ evidence_ref :=
    if starts_with evidence_ref "outbox:" then ok evidence_ref
    else
      let submitted := trim evidence_ref in
      let^ _ := in_store (ensure (negb (String.eqb submitted "") && Nat.leb (String.length submitted) 512)
                            (Corrupt "delivery confirmation needs bounded submitted evidence")) in
      let audit := json_of_view (JObject
        [("status", json_text "confirmed"); ("submitted_evidence_ref", json_text submitted)]) in
      let^ id := in_store (call RDb (audit_insert (us_user_id (au_row user)) "run_completion_delivery" rid audit)) in
      ok ("attestation:" +:+ pretty id) in
  let^ now := peek cw_clock in
  let^ _ := in_store (confirm_run_delivery rid evidence_ref now) in
  get_report rid.

(** [DurableTurn::set_completion_contract] of the runner; its answer is the
    store's. *)
Definition turn_contract (rid : string) (draft : RunCompletionContractDraft V) (created_at : Z) : store () :=
  set_completion_contract (mkContract rid (dr_acceptance_criteria draft) (dr_required_artifacts draft)
    (dr_delivery_required draft) created_at).

(** [fork_run] up to the copy of the workspace ([workspace_coding.rs]), after
    whose failure the fork is cancelled: both leave the completion tables
    alone. *)
Definition fork (user : AuthedUser) (rid new_id : string) : route RunRecord :=
  let^ _ := controller user in
  let^ now := peek cw_clock in
  in_store (fork_run sha256_hex rid new_id now).

(** ** Requests *)

Inductive CompletionRequest : Type :=
| GetCompletion (user : AuthedUser) (rid : string)
| PutContract (user : AuthedUser) (rid : string) (request : RunCompletionContractDraft V)
| RecordVerification (user : AuthedUser) (rid criterion_id : string) (status : VerificationStatus)
    (evidence_refs : list string) (detail : option string)
| RecordArtifact (user : AuthedUser) (rid artifact_id : string) (present : bool) (evidence_ref detail : option string)
| ConfirmDelivery (user : AuthedUser) (rid evidence_ref : string)
| ForkRun (user : AuthedUser) (rid new_id : string)
| TurnContract (rid : string) (draft : RunCompletionContractDraft V) (created_at : Z).

Definition serve (q : CompletionRequest) : route (option (RunCompletionReport V)) :=
  let some (p : route (RunCompletionReport V)) : route (option (RunCompletionReport V)) :=
    let^ r := p in ok (Some r) in
  match q with
  | GetCompletion user rid => some (get_completion user rid)
  | PutContract user rid request => some (put_completion_contract user rid request)
  | RecordVerification user rid criterion_id status refs detail =>
      some (record_verification user rid criterion_id status refs detail)
  | RecordArtifact user rid artifact_id present evidence_ref detail =>
      some (record_artifact_check user rid artifact_id present evidence_ref detail)
  | ConfirmDelivery user rid evidence_ref => some (confirm_delivery user rid evidence_ref)
  | ForkRun user rid new_id => let^ _ := fork user rid new_id in ok None
  | TurnContract rid draft created_at =>
      let^ _ := in_store (turn_contract rid draft created_at) in ok None
  end.

Definition request_user (q : CompletionRequest) : option AuthedUser :=
  match q with
  | GetCompletion user _ | PutContract user _ _ | RecordVerification user _ _ _ _ _
  | RecordArtifact user _ _ _ _ _ | ConfirmDelivery user _ _ | ForkRun user _ _ => Some user
  | TurnContract _ _ _ => None
  end.

End Routes.
