(* ===== verification/CompletionSafety.v ===== *)
(** * What a verified task is

    The report of [Completion] says that a task is verified complete exactly
    when its run completed and every requirement of the stored contract is met
    by evidence that holds now.  The requirements are stated on the tables,
    without the report; the invariant that makes this exact is kept by every
    handler, whatever runs in between. *)

From Stdlib Require Import Strings.Byte Strings.Ascii.
From stdpp Require Import sorting relations.
From S2P Require Import Prelude Wire Text EventLog RunSchema Schema RunBase ServiceBase Procs.
From S2P Require Import AuthStores AuthRoutes Evidence EvidenceFacts Completion CompletionRoutes.

(** ** Rows by key *)

Section Rows.
Context {A : Type}.

Lemma rows_of_perm rid (m : gmap string (gmap string A)) : rows_of rid m ≡ₚ map_to_list (default ∅ (m !! rid)).
Proof. apply merge_sort_Permutation. Qed.

Lemma rows_of_NoDup rid (m : gmap string (gmap string A)) : NoDup (rows_of rid m).*1.
Proof. rewrite rows_of_perm. apply NoDup_fst_map_to_list. Qed.

Lemma elem_of_rows_of rid (m : gmap string (gmap string A)) k a :
  (k, a) ∈ rows_of rid m ↔ default ∅ (m !! rid) !! k = Some a.
Proof. by rewrite rows_of_perm, elem_of_map_to_list. Qed.

(** Looking a converted row up. *)
Lemma find_row {B} (key : B → string) (g : string * A → B) rid m k :
  (∀ p, key (g p) = p.1) →
  List.find (λ b, String.eqb (key b) k) (map g (rows_of rid m)) =
  (λ a, g (k, a)) <$> default ∅ (m !! rid) !! k.
Proof.
  intros Hkey. assert (∀ b, String.eqb (key b) k = true ↔ key b = k) as Hb by (intros b; apply String.eqb_eq).
  assert (map key (map g (rows_of rid m)) = (rows_of rid m).*1) as Hk.
  { rewrite map_map. by apply map_ext. }
  destruct (default ∅ (m !! rid) !! k) as [a|] eqn:Ha; cbn.
  - apply (find_key key _ k); [done|rewrite Hk; apply rows_of_NoDup| |by rewrite Hkey].
    apply list_elem_of_fmap_2, elem_of_rows_of. done.
  - destruct (List.find _ _) as [b|] eqn:Hf; [|done].
    apply find_Some_elem in Hf as [([k' a'] & -> & Hin)%list_elem_of_fmap Hb'].
    apply Hb in Hb'. rewrite Hkey in Hb'. cbn in Hb'. subst k'.
    apply elem_of_rows_of in Hin. congruence.
Qed.

(** With unique keys the last entry is the first. *)
Lemma last_with_find (key : A → string) k l :
  NoDup (map key l) → last_with key k l = List.find (λ x, String.eqb (key x) k) l.
Proof.
  intros Hnd. unfold last_with.
  assert (∀ x, String.eqb (key x) k = true ↔ key x = k) as Hb by (intros x; apply String.eqb_eq).
  destruct (List.find _ l) as [x|] eqn:Hf.
  - apply find_Some_elem in Hf as [Hx Hk]. apply Hb in Hk.
    apply (find_key key _ k); [done| |by apply elem_of_reverse|done].
    assert (map key (reverse l) ≡ₚ map key l) as -> by (apply Permutation_map, reverse_Permutation). done.
  - destruct (List.find _ (reverse l)) as [x|] eqn:Hr; [|done].
    apply find_Some_elem in Hr as [Hx Hk]. rewrite elem_of_reverse in Hx.
    by rewrite (find_None_elem _ _ x Hf Hx) in Hk.
Qed.
End Rows.

Section Report.
Context {V : Type} `{JsonValue V} `{MsgPack V} `{CardCodec V} `{ContractCodec V} (sha256_hex : bytes → string).

(** ** The tally *)

Definition clear (t : Tally) : Prop := tl_blocked t = false ∧ tl_incomplete t = false ∧ tl_partial t = false.

Lemma clear_criterion t (p : AcceptanceCriterion V * CriterionVerification) :
  clear (tally_criterion t p) ↔ clear t ∧ cv_status p.2 = VPassed.
Proof.
  destruct p as [c r]. unfold tally_criterion, clear. cbn.
  destruct (cv_status r), (ac_required c); cbn; naive_solver.
Qed.

Lemma clear_artifact t (p : RequiredRunArtifact * ArtifactVerification) :
  clear (tally_artifact t p) ↔ clear t ∧ av_checked_at p.2 ≠ 0 ∧ av_present p.2 = true.
Proof.
  destruct p as [a r]. unfold tally_artifact, clear. cbn.
  destruct (Z.eqb_spec (av_checked_at r) 0), (av_present r); cbn; naive_solver.
Qed.

Lemma clear_foldl {X Y} (f : Tally → X * Y → Tally) (Q : Y → Prop) (g : X → Y) (l : list X) t :
  (∀ t p, clear (f t p) ↔ clear t ∧ Q p.2) →
  clear (foldl f t (List.combine l (map g l))) ↔ clear t ∧ Forall (λ x, Q (g x)) l.
Proof.
  intros Hf. revert t. induction l as [|x l IH]; intros t; cbn.
  - rewrite Forall_nil. naive_solver.
  - rewrite IH, Hf, Forall_cons. cbn. naive_solver.
Qed.

Lemma status_clear t :
  (if tl_blocked t then CBlocked else if tl_incomplete t then CIncomplete
   else if tl_partial t then CPartial else CVerifiedComplete) = CVerifiedComplete ↔ clear t.
Proof. unfold clear. destruct (tl_blocked t), (tl_incomplete t), (tl_partial t); split; (done || by intros (? & ? & ?)). Qed.

Lemma clear_delivery (required confirmed : bool) m t :
  clear (if required && negb confirmed then tally_incomplete m t else t) ↔ clear t ∧ (required = true → confirmed = true).
Proof.
  destruct required, confirmed; cbn; split; try (by intros [? _]); try (by split).
  - by intros (_ & ? & _).
  - by intros [_ Hc]; specialize (Hc eq_refl).
Qed.

(** The contract's status is a matter of the entries found for its ids. *)
Lemma build_verified (contract : RunCompletionContract V) vs arts confirmed ref :
  rp_status (build_completion_report contract vs arts confirmed ref) = CVerifiedComplete ↔
  Forall (λ c, cv_status (verification_of vs c) = VPassed) (ct_acceptance_criteria contract) ∧
  Forall (λ a, av_checked_at (artifact_check_of arts a) ≠ 0 ∧ av_present (artifact_check_of arts a) = true)
    (ct_required_artifacts contract) ∧
  (ct_delivery_required contract = true → confirmed = true).
Proof.
  set (t0 := mkTally false false false []).
  pose proof (clear_foldl tally_criterion (λ r, cv_status r = VPassed) (verification_of vs)
    (ct_acceptance_criteria contract) t0 clear_criterion) as Hcs.
  pose proof (clear_foldl tally_artifact (λ r, av_checked_at r ≠ 0 ∧ av_present r = true) (artifact_check_of arts)
    (ct_required_artifacts contract)
    (foldl tally_criterion t0 (List.combine (ct_acceptance_criteria contract)
       (map (verification_of vs) (ct_acceptance_criteria contract)))) clear_artifact) as Has.
  unfold build_completion_report. cbn. fold t0.
  rewrite status_clear. rewrite clear_delivery, Has, Hcs. assert (clear t0) as Ht0 by done. tauto.
Qed.

(** ** Checking the criteria one by one *)

Definition is_for (k : string) (item : CriterionVerification) : bool := String.eqb (cv_criterion_id item) k.

(** What the check of a criterion makes of its recorded entry. *)
Definition judge (e : Evidence) (rid : string) (c : AcceptanceCriterion V) (recorded : option CriterionVerification)
    : option CriterionVerification :=
  match ac_verifier c with
  | Some v =>
      let '(status, detail, verified_at) := step_verdict (ed_db e) rid v in
      Some (mkVerification (ac_criterion_id c) status
        (if bool_decide (status = VPassed) then ["run:" +:+ rid +:+ "/step:" +:+ vf_step_id v] else [])
        (Some detail) verified_at)
  | None =>
      (λ r, if bool_decide (cv_status r = VPassed) && negb (attested e rid r) then withdraw r else r) <$> recorded
  end.

Lemma find_app {A} (p : A → bool) l k :
  List.find p (l ++ k) = match List.find p l with Some x => Some x | None => List.find p k end.
Proof. induction l as [|x l IH]; cbn; [done|]. by destruct (p x). Qed.

Lemma find_filter_other {A} (p q : A → bool) l :
  (∀ x, p x = true → q x = true) → List.find p (List.filter q l) = List.find p l.
Proof.
  intros Hpq. induction l as [|x l IH]; cbn; [done|]. specialize (Hpq x).
  destruct (q x) eqn:Hq, (p x) eqn:Hp; cbn; rewrite ?Hp; auto. by discriminate Hpq.
Qed.

Lemma find_filter_none {A} (p : A → bool) l : List.find p (List.filter (λ x, negb (p x)) l) = None.
Proof. induction l as [|x l IH]; cbn; [done|]. destruct (p x) eqn:Hp; cbn; rewrite ?Hp; auto. Qed.

Lemma find_update_self {A} (p : A → bool) (f : A → A) l :
  (∀ x, p x = true → p (f x) = true) → List.find p (update_first p f l) = f <$> List.find p l.
Proof.
  intros Hf. induction l as [|x l IH]; cbn; [done|]. destruct (p x) eqn:Hp; cbn; [by rewrite Hf|by rewrite Hp].
Qed.

Lemma find_update_other {A} (p q : A → bool) (f : A → A) l :
  (∀ x, q x = true → p x = false ∧ p (f x) = false) → List.find p (update_first q f l) = List.find p l.
Proof.
  intros Hf. induction l as [|x l IH]; cbn; [done|]. destruct (q x) eqn:Hq; cbn; [|by rewrite IH].
  destruct (Hf x Hq) as [-> ->]. done.
Qed.

Lemma map_update_first {A B} (g : A → B) (q : A → bool) (f : A → A) l :
  (∀ x, g (f x) = g x) → map g (update_first q f l) = map g l.
Proof. intros Hg. induction l as [|x l IH]; cbn; [done|]. destruct (q x); cbn; by rewrite ?Hg, ?IH. Qed.

Lemma is_for_true k item : is_for k item = true ↔ cv_criterion_id item = k.
Proof. apply String.eqb_eq. Qed.

Lemma verify_criterion_other e rid vs c k :
  ac_criterion_id c ≠ k → List.find (is_for k) (verify_criterion e rid vs c) = List.find (is_for k) vs.
Proof.
  intros Hne. unfold verify_criterion. destruct (ac_verifier c) as [v|].
  - destruct (step_verdict _ _ _) as [[status detail] at_]. rewrite find_app, find_filter_other.
    + destruct (List.find _ vs); [done|]. unfold is_for. cbn.
      apply String.eqb_neq in Hne as ->. done.
    + intros x Hx%is_for_true. apply negb_true_iff, String.eqb_neq. congruence.
  - destruct (List.find _ vs) as [r|]; [|done]. case_match; [|done].
    apply find_update_other. intros x Hx%String.eqb_eq. unfold is_for. cbn.
    rewrite Hx. apply String.eqb_neq in Hne. done.
Qed.

Lemma verify_criterion_self e rid vs c :
  List.find (is_for (ac_criterion_id c)) (verify_criterion e rid vs c) =
  judge e rid c (List.find (is_for (ac_criterion_id c)) vs).
Proof.
  unfold verify_criterion, judge. destruct (ac_verifier c) as [v|].
  - destruct (step_verdict _ _ _) as [[status detail] at_].
    rewrite find_app. unfold is_for. rewrite find_filter_none. cbn. by rewrite String.eqb_refl.
  - unfold is_for. destruct (List.find _ vs) as [r|] eqn:Hf; cbn; [|by rewrite Hf].
    destruct (_ && _) eqn:Hb; [|done]. by rewrite find_update_self, Hf.
Qed.

Lemma verify_criterion_NoDup e rid vs c :
  NoDup (map cv_criterion_id vs) → NoDup (map cv_criterion_id (verify_criterion e rid vs c)).
Proof.
  intros Hnd. unfold verify_criterion. destruct (ac_verifier c) as [v|].
  - destruct (step_verdict _ _ _) as [[status detail] at_]. rewrite map_app. cbn.
    apply NoDup_app. split_and!.
    + induction vs as [|x vs IH]; cbn; [done|]. apply NoDup_cons in Hnd as [Hx Hnd].
      destruct (negb _); cbn; [|by apply IH]. apply NoDup_cons. split; [|by apply IH].
      intros (y & Hy & Hin)%list_elem_of_fmap. apply Hx. rewrite Hy. apply list_elem_of_fmap_2.
      apply list_elem_of_In, filter_In in Hin as [Hin _]. by apply list_elem_of_In.
    + intros k (y & -> & Hin)%list_elem_of_fmap Hk%list_elem_of_singleton.
      apply list_elem_of_In, filter_In in Hin as [_ Hin%negb_true_iff%String.eqb_neq]. done.
    + apply NoDup_singleton.
  - destruct (List.find _ vs) as [r|]; [|done]. case_match; [|done]. by rewrite map_update_first.
Qed.

Lemma verified_NoDup e rid vs (criteria : list (AcceptanceCriterion V)) :
  NoDup (map cv_criterion_id vs) → NoDup (map cv_criterion_id (foldl (verify_criterion e rid) vs criteria)).
Proof.
  revert vs. induction criteria as [|c criteria IH]; intros vs Hnd; cbn; [done|].
  by apply IH, verify_criterion_NoDup.
Qed.

(** Every criterion is judged by its own recorded entry. *)
Lemma find_verified e rid vs (criteria : list (AcceptanceCriterion V)) c :
  NoDup (map ac_criterion_id criteria) → c ∈ criteria →
  List.find (is_for (ac_criterion_id c)) (foldl (verify_criterion e rid) vs criteria) =
  judge e rid c (List.find (is_for (ac_criterion_id c)) vs).
Proof.
  revert vs. induction criteria as [|c' criteria IH]; intros vs; cbn; [by intros _ ?%elem_of_nil|].
  intros [Hc' Hnd]%NoDup_cons [->|Hin]%elem_of_cons.
  - rewrite <-verify_criterion_self. clear IH. revert Hc'. generalize (verify_criterion e rid vs c').
    induction criteria as [|c criteria IH]; intros vs' Hc'; cbn; [done|].
    apply NoDup_cons in Hnd as [_ Hnd]. cbn in Hc'. rewrite IH; [|done|set_solver].
    apply verify_criterion_other. set_solver.
  - rewrite IH by done. f_equal. apply verify_criterion_other. intros Heq. apply Hc'.
    rewrite Heq. by apply list_elem_of_fmap_2.
Qed.

(** ** Requirements *)

(** A criterion with a verifier holds when the step of a host tool completed
    with the expected value in its checkpoint, another one when its row says
    passed and one of the row's references is an attestation of these very
    references. *)
Definition criterion_met (s : Completion) (rid : string) (c : AcceptanceCriterion V) : Prop :=
  match ac_verifier c with
  | Some v => ∃ step actual,
      find_step rid (vf_step_id v) (ed_db (cw_evidence s)) = Some step ∧ host_tool (st_kind step) = true ∧
      st_status step = StepCompleted ∧ checkpoint_value step v = Some actual ∧ json_eqb actual (vf_expected v) = true
  | None => ∃ row refs reference,
      default ∅ (cw_verifications s !! rid) !! ac_criterion_id c = Some row ∧ vr_status row = VPassed ∧
      refs_from_str (vr_evidence_refs_json row) = Some refs ∧ reference ∈ refs ∧
      attestation_exists (cw_evidence s) reference "run_completion_verification"
        (rid +:+ "/" +:+ ac_criterion_id c) "passed" (Some refs) = true
  end.

(** An artifact was checked, and its file is there now. *)
Definition artifact_met (s : Completion) (rid : string) (a : RequiredRunArtifact) : Prop :=
  ∃ row, default ∅ (cw_artifact_checks s !! rid) !! ra_artifact_id a = Some row ∧
    ar_present row = true ∧ ar_checked_at row ≠ 0 ∧
    run_artifact_exists sha256_hex (cw_evidence s) rid (default "" (ar_evidence_ref row)) (cw_clock s) = true.

Definition delivery_met (s : Completion) (rid : string) (row : ContractRow) : Prop :=
  cr_delivery_required row = true → delivery_proven (cw_evidence s) rid row = true.

Definition task_done (s : Completion) (rid : string) (row : ContractRow) (c : RunCompletionContract V) : Prop :=
  (∃ run, find_run rid (ed_db (cw_evidence s)) = Some run ∧ run_status run = RunCompleted) ∧
  Forall (criterion_met s rid) (ct_acceptance_criteria c) ∧
  Forall (artifact_met s rid) (ct_required_artifacts c) ∧ delivery_met s rid row.

(** What holds of the tables between two statements. *)
Definition rows_parse (s : Completion) : Prop :=
  ∀ rid id row, default ∅ (cw_verifications s !! rid) !! id = Some row → is_Some (refs_from_str (vr_evidence_refs_json row)).

Definition ids_unique (c : RunCompletionContract V) : Prop :=
  NoDup (map ac_criterion_id (ct_acceptance_criteria c)) ∧ NoDup (map ra_artifact_id (ct_required_artifacts c)).

(** ** The report's entries *)

Definition row_entry (p : string * VerificationRow) : CriterionVerification :=
  mkVerification p.1 (vr_status p.2) (default [] (refs_from_str (vr_evidence_refs_json p.2))) (vr_detail p.2) (vr_verified_at p.2).

Lemma rows_read s rid :
  rows_parse s →
  mapM verification_from_row (rows_of rid (cw_verifications s)) = Some (map row_entry (rows_of rid (cw_verifications s))).
Proof.
  intros Hp. apply mapM_Some_2, Forall2_fmap_r, Forall_Forall2_diag, Forall_forall.
  intros [id row] Hin%elem_of_rows_of%Hp. unfold verification_from_row, row_entry. cbn.
  destruct Hin as [refs ->]. done.
Qed.

(** No entry that counts, and no requirement met. *)
Ltac none_met := split; [done|intros; exfalso; destruct_and?; repeat match goal with
  | Hmet : ∃ _, _ |- _ => destruct Hmet
  | Hmet : _ ∧ _ |- _ => destruct Hmet end; congruence].

Lemma criterion_entry s rid criteria c :
  rows_parse s → NoDup (map ac_criterion_id criteria) → c ∈ criteria →
  cv_status (verification_of (foldl (verify_criterion (cw_evidence s) rid)
    (map row_entry (rows_of rid (cw_verifications s))) criteria) c) = VPassed ↔ criterion_met s rid c.
Proof.
  intros Hp Hnd Hin. unfold verification_of. rewrite last_with_find.
  2: { apply verified_NoDup. rewrite map_map. apply (rows_of_NoDup rid (cw_verifications s)). }
  rewrite (find_verified _ _ _ criteria c Hnd Hin). unfold is_for.
  rewrite (find_row cv_criterion_id row_entry) by done.
  unfold judge, criterion_met. destruct (ac_verifier c) as [v|].
  - unfold step_verdict. destruct (find_step _ _ _) as [step|]; cbn; [|none_met].
    destruct (host_tool (st_kind step)) eqn:Hk; cbn; [|none_met].
    destruct (st_status step) eqn:Hs; cbn; try none_met.
    destruct (checkpoint_value step v) as [actual|] eqn:Hv; cbn; [|none_met].
    destruct (json_eqb actual (vf_expected v)) eqn:He; cbn; [|none_met].
    split; [intros _; by exists step, actual|done].
  - destruct (_ !! ac_criterion_id c) as [row|] eqn:Hrow; cbn; [|none_met].
    pose proof (Hp _ _ _ Hrow) as [refs Hrefs]. unfold attested. cbn. rewrite Hrefs. cbn.
    destruct (existsb _ refs) eqn:Hex.
    + rewrite andb_false_r. cbn. apply existsb_True in Hex as (reference & Href & Hatt).
      split; [intros Hs; by exists row, refs, reference|by intros (? & ? & ? & [= <-] & ? & _)].
    + rewrite andb_true_r. case_bool_decide as Hs; cbn; [|none_met]. split; [done|].
      intros (row' & refs' & reference & [= <-] & _ & Hr & Href & Hatt). assert (refs' = refs) as -> by congruence.
      exfalso. apply not_true_iff_false in Hex. apply Hex, existsb_True. eauto.
Qed.

Lemma artifact_entry s rid a :
  let check := artifact_check_of (map (verify_artifact sha256_hex (cw_evidence s) rid (cw_clock s))
                 (map artifact_from_row (rows_of rid (cw_artifact_checks s)))) a in
  av_checked_at check ≠ 0 ∧ av_present check = true ↔ artifact_met s rid a.
Proof.
  cbn. unfold artifact_check_of. rewrite map_map.
  set (g := λ p, verify_artifact sha256_hex (cw_evidence s) rid (cw_clock s) (artifact_from_row p)).
  assert (∀ p, av_artifact_id (g p) = p.1) as Hg by (intros [id row]; unfold g, verify_artifact; by case_match).
  rewrite last_with_find.
  2: { rewrite map_map, (map_ext _ fst Hg). apply (rows_of_NoDup rid (cw_artifact_checks s)). }
  rewrite (find_row av_artifact_id g) by done. unfold artifact_met.
  destruct (_ !! ra_artifact_id a) as [row|] eqn:Hrow; cbn; [|split; [by intros []|by intros (? & ? & _)]].
  unfold g, verify_artifact. cbn.
  destruct (ar_present row) eqn:Hpres; cbn.
  - destruct (run_artifact_exists _ _ _ _ _) eqn:Hex; cbn.
    + split; [intros [Hat _]; by exists row|by intros (? & [= <-] & _ & ? & _)].
    + split; [by intros []|]. intros (? & [= <-] & _ & _ & ?). congruence.
  - split; [by intros []|]. intros (? & [= <-] & ? & _). congruence.
Qed.

Lemma executor_verified status (b : RunCompletionReport V) :
  rp_status (apply_executor status b) = CVerifiedComplete ↔ status = RunCompleted ∧ rp_status b = CVerifiedComplete.
Proof.
  unfold apply_executor. destruct status; cbn; try (split; [done|by intros []]).
  all: case_bool_decide as Hb; cbn; (split; [done|by intros []]).
Qed.

(** A report says verified complete exactly when the task is done. *)
Lemma report_exact s rid row c :
  rows_parse s → cw_contracts s !! rid = Some row → stored_contract rid row = Ok c → ids_unique c →
  ct_delivery_required c = cr_delivery_required row →
  (∃ r, completion_report sha256_hex rid s = Ok (Some r) ∧ rp_status r = CVerifiedComplete) ↔ task_done s rid row c.
Proof.
  intros Hp Hrow Hc [Hnc Hna] Hreq. unfold completion_report, task_done. rewrite Hrow, Hc, rows_read by done.
  set (vs := foldl _ _ _). set (arts := map _ (map _ _)).
  assert (Forall (λ c, cv_status (verification_of vs c) = VPassed) (ct_acceptance_criteria c) ↔
          Forall (criterion_met s rid) (ct_acceptance_criteria c)) as Hcs.
  { rewrite !Forall_forall. split; intros Hall x Hx; by apply (criterion_entry s rid _ x Hp Hnc Hx), Hall. }
  assert (Forall (λ a, av_checked_at (artifact_check_of arts a) ≠ 0 ∧ av_present (artifact_check_of arts a) = true)
            (ct_required_artifacts c) ↔ Forall (artifact_met s rid) (ct_required_artifacts c)) as Has.
  { rewrite !Forall_forall. split; intros Hall x Hx; by apply (artifact_entry s rid x), Hall. }
  set (b := build_completion_report c vs arts (delivery_proven (cw_evidence s) rid row) (cr_delivery_evidence_ref row)).
  assert (rp_status b = CVerifiedComplete ↔ Forall (criterion_met s rid) (ct_acceptance_criteria c) ∧
    Forall (artifact_met s rid) (ct_required_artifacts c) ∧ delivery_met s rid row) as Hb.
  { unfold b. rewrite build_verified, Hcs, Has. unfold delivery_met. by rewrite Hreq. }
  destruct (find_run rid _) as [run|] eqn:Hrun; [|naive_solver].
  pose proof (executor_verified (run_status run) b) as He.
  split.
  - intros (r & [= <-] & Hr). apply He in Hr as [Hr ?]. split; [by exists run|by apply Hb].
  - intros [(run' & [= <-] & Hdone) Hmet]. eexists. split; [done|]. apply He. split; [done|]. by apply Hb.
Qed.
End Report.

(** ** The invariant, whatever is being served *)

Definition completion_tables : list string := ["run_completion_verification"; "run_completion_delivery"].

Section Serving.
Context {V : Type} `{JsonValue V} `{MsgPack V} `{CardCodec V} `{HC : ContractCodec V} `{!ContractCodecLaws V}.
Context (sha256_hex : bytes → string) (trusted : string → Prop).

(** The rest of the server: it changes what counts as evidence, may remove
    the completion rows of a run with the run, and writes audit records of its
    own tables only.  New contracts come from the requests alone: the code
    inserts them in [set_completion_contract] and [fork_run] only. *)
Definition completion_env (s s' : Completion) : Prop :=
  cw_contracts s' ⊆ cw_contracts s ∧ cw_verifications s' ⊆ cw_verifications s ∧
  cw_artifact_checks s' ⊆ cw_artifact_checks s ∧
  (∀ id row, ed_audit (cw_evidence s') !! id = Some row →
     ed_audit (cw_evidence s) !! id = Some row ∨ ad_table_name row ∉ completion_tables).

(** Any request of any user; the users that come as controllers are trusted. *)
Definition completion_accepts (s : Completion) (p : route (option (RunCompletionReport V))) : Prop :=
  ∃ q, p = serve sha256_hex q ∧
    (∀ user, request_user q = Some user → is_controller user = true → trusted (us_user_id (au_row user))).

Record sound (s : Completion) : Prop := {
  sound_contracts : ∀ rid row, cw_contracts s !! rid = Some row →
    ∃ c, stored_contract rid row = Ok c ∧ validate_completion_contract c = Ok ();
  sound_rows : rows_parse s;
  sound_audit : ∀ id row, ed_audit (cw_evidence s) !! id = Some row →
    ad_table_name row ∈ completion_tables → trusted (ad_actor row)
}.

Lemma sound_env s s' : completion_env s s' → sound s → sound s'.
Proof.
  intros (Hc & Hv & _ & Ha) [Hsc Hsr Hsa]. constructor.
  - intros rid row Hrow. apply Hsc. by eapply lookup_weaken.
  - intros rid id row Hrow. destruct (cw_verifications s' !! rid) as [m|] eqn:Hm; cbn in Hrow; [|done].
    apply (Hsr rid id). by rewrite (lookup_weaken _ _ _ _ Hm Hv).
  - intros id row Hrow Hin. destruct (Ha id row Hrow) as [Hold|Hno]; [by eapply Hsa|done].
Qed.

(** ** Statements *)

Lemma keeps_finish {S R} (P : S → Prop) (r : R) : keeps P (Finish r).
Proof. done. Qed.

Lemma sound_put_contract c cj aj s :
  validate_completion_contract c = Ok () → criteria_to_string (ct_acceptance_criteria c) = Some cj →
  artifacts_to_string (ct_required_artifacts c) = Some aj → sound s →
  sound (put_contract (ct_run_id c) cj aj (ct_delivery_required c) (ct_created_at c) s).2.
Proof.
  intros Hval Hcj Haj Hs. unfold put_contract. destruct (cw_contracts s !! ct_run_id c) as [row|] eqn:Hrow.
  { by case_match. }
  destruct (find_run _ _); [|done]. destruct Hs as [Hsc Hsr Hsa]. constructor; [|done..].
  intros rid row. cbn. intros [[<- <-]|[Hne Hold]]%lookup_insert_Some; [|by apply Hsc].
  exists c. split; [|done]. unfold stored_contract. cbn.
  rewrite (criteria_roundtrip _ _ Hcj), (artifacts_roundtrip _ _ Haj). by destruct c.
Qed.

Lemma put_fork_cases source new_id contract now s :
  let s' := (put_fork (V:=V) source new_id contract now s).2 in
  s' = s ∨ ∃ d, let s1 := set_db d s in
    (contract = None ∧ s' = s1) ∨
    ∃ c cj aj, contract = Some c ∧ cw_contracts s !! ct_run_id c = None ∧
      criteria_to_string (ct_acceptance_criteria c) = Some cj ∧ artifacts_to_string (ct_required_artifacts c) = Some aj ∧
      s' = set_contracts <[ct_run_id c := mkContractRow cj aj (ct_delivery_required c) false None now now]> s1.
Proof.
  unfold put_fork. destruct (insert_run _ _) as [[_ d]|e]; [|by left].
  destruct contract as [c|]; [|right; exists d; by left].
  destruct (criteria_to_string _) as [cj|] eqn:Hcj; [|by left].
  destruct (artifacts_to_string _) as [aj|] eqn:Haj; [|by left].
  destruct (cw_contracts s !! _) eqn:Hno; [by left|]. right. exists d. right. by exists c, cj, aj.
Qed.

Lemma sound_set_db d s : sound s → sound (set_db d s).
Proof. by intros [Hsc Hsr Hsa]. Qed.

Lemma sound_put_fork source new_id contract now s :
  (∀ c, contract = Some c → ct_created_at c = now ∧ validate_completion_contract c = Ok ()) → sound s →
  sound (put_fork (V:=V) source new_id contract now s).2.
Proof.
  intros Hval Hs.
  destruct (put_fork_cases source new_id contract now s)
    as [->|(d & [[_ ->]|(c & cj & aj & Hc & _ & Hcj & Haj & ->)])]; [done|by apply sound_set_db|].
  destruct (Hval c Hc) as [Hat Hok]. destruct Hs as [Hsc Hsr Hsa]. constructor; [|done..].
  intros rid row. cbn. intros [[<- <-]|[Hne Hold]]%lookup_insert_Some; [|by apply Hsc].
  exists c. split; [|done]. unfold stored_contract. cbn.
  rewrite (criteria_roundtrip _ _ Hcj), (artifacts_roundtrip _ _ Haj), <-Hat. by destruct c.
Qed.

Lemma sound_put_verification rid cid row refs s :
  refs_to_string refs = Some (vr_evidence_refs_json row) → sound s → sound (put_verification rid cid row s).2.
Proof.
  intros Hrefs [Hsc Hsr Hsa]. unfold put_verification. destruct (cw_contracts s !! rid); [|done].
  constructor; [done| |done]. intros rid' id row'. cbn.
  destruct (decide (rid = rid')) as [<-|Hne]; [|rewrite lookup_insert_ne by done; apply Hsr].
  rewrite lookup_insert_eq. cbn. intros [[<- <-]|[_ Hold]]%lookup_insert_Some; [|by apply (Hsr rid id)].
  rewrite (refs_roundtrip _ _ Hrefs). by eexists.
Qed.

Lemma sound_put_artifact_check rid aid row s : sound s → sound (put_artifact_check rid aid row s).2.
Proof. intros [Hsc Hsr Hsa]. unfold put_artifact_check. by destruct (cw_contracts s !! rid). Qed.

Lemma sound_put_delivery rid ref at_ s : sound s → sound (put_delivery rid ref at_ s).2.
Proof.
  intros [Hsc Hsr Hsa]. unfold put_delivery. destruct (cw_contracts s !! rid) as [row|] eqn:Hrow; [|done].
  destruct (cr_delivery_required row) eqn:Hreq; [|done]. constructor; [|done..].
  intros rid' row'. cbn. intros [[<- <-]|[Hne Hold]]%lookup_insert_Some; [|by apply Hsc].
  destruct (Hsc _ _ Hrow) as (c & Hc & Hval). exists c. split; [|done].
  unfold stored_contract in *. cbn. by rewrite Hreq in Hc.
Qed.

Lemma sound_audit_insert actor table row new s :
  (table ∈ completion_tables → trusted actor) → sound s → sound (audit_insert actor table row new s).2.
Proof.
  intros Ht [Hsc Hsr Hsa]. unfold audit_insert. destruct (json_to_vec new); [|done]. constructor; [done..|].
  intros id row'. cbn. intros [[<- <-]|[_ Hold]]%lookup_insert_Some; [done|by eapply Hsa].
Qed.

(** ** Handlers *)

(** What every statement keeps, every handler keeps. *)
Section Statements.
Context (P : Completion → Prop).
Hypothesis HPc : ∀ c cj aj s,
  validate_completion_contract c = Ok () → criteria_to_string (ct_acceptance_criteria c) = Some cj →
  artifacts_to_string (ct_required_artifacts c) = Some aj → P s →
  P (put_contract (ct_run_id c) cj aj (ct_delivery_required c) (ct_created_at c) s).2.
Hypothesis HPv : ∀ rid cid row refs s,
  refs_to_string refs = Some (vr_evidence_refs_json row) → P s → P (put_verification rid cid row s).2.
Hypothesis HPa : ∀ rid aid row s, P s → P (put_artifact_check rid aid row s).2.
Hypothesis HPd : ∀ rid ref at_ s, P s → P (put_delivery rid ref at_ s).2.
Hypothesis HPi : ∀ actor table row new s,
  (table ∈ completion_tables → trusted actor) → P s → P (audit_insert actor table row new s).2.

Hypothesis HPf : ∀ source new_id contract now s,
  (∀ c, contract = Some c → ct_created_at c = now ∧ validate_completion_contract c = Ok ()) → P s →
  P (put_fork (V:=V) source new_id contract now s).2.

Lemma keeps_in_store {A} (p : store A) : keeps P p → keeps P (in_store p).
Proof. intros Hp. by apply proc_keeps_bind. Qed.

Lemma keeps_read_report rid : keeps P (read_report sha256_hex rid).
Proof. by apply keeps_call. Qed.

Lemma keeps_controller {A} user (q : () → route A) :
  (is_controller user = true → keeps P (q ())) → keeps P (try_bind (controller user) q).
Proof. unfold controller. destruct (is_controller user); cbn; auto. Qed.

Lemma keeps_ensure {A} b e (q : () → store A) : keeps P (q ()) → keeps P (try_bind (ensure b e) q).
Proof. by destruct b. Qed.

Lemma keeps_set_contract c : keeps P (set_completion_contract c).
Proof.
  unfold set_completion_contract. destruct (validate_completion_contract c) as [[]|] eqn:Hval; [|done]. cbn.
  destruct (negb _); [|done]. cbn.
  destruct (criteria_to_string _) as [cj|] eqn:Hcj; [|done]. cbn.
  destruct (artifacts_to_string _) as [aj|] eqn:Haj; [|done].
  apply keeps_call. intros s. by apply HPc.
Qed.

Lemma keeps_record_verification rid v : keeps P (record_completion_verification sha256_hex rid v).
Proof.
  unfold record_completion_verification. apply keeps_try; [done|intros _].
  do 2 apply keeps_ensure. apply keeps_try; [apply keeps_read_report|intros report].
  apply keeps_try; [by destruct report|intros r]. apply keeps_try; [by destruct (List.find _ _)|intros c].
  apply keeps_ensure. apply keeps_try.
  { destruct (bool_decide _); [|done]. apply keeps_try; [apply keeps_peek|]. by intros []. }
  intros _. destruct (refs_to_string (cv_evidence_refs v)) as [refs|] eqn:Hrefs; [|done].
  apply keeps_call. intros s. by apply (HPv _ _ _ (cv_evidence_refs v)).
Qed.

Lemma keeps_record_artifact rid v : keeps P (record_artifact_verification sha256_hex rid v).
Proof.
  unfold record_artifact_verification. do 2 apply keeps_ensure.
  apply keeps_try; [apply keeps_read_report|intros report]. apply keeps_try; [by destruct report|intros r].
  apply keeps_ensure. apply keeps_try.
  { destruct (av_present v); [|done]. apply keeps_try; [apply keeps_peek|]. by intros []. }
  intros _. apply keeps_call. intros s. apply HPa.
Qed.

Lemma keeps_confirm_delivery rid ref at_ : keeps P (confirm_run_delivery rid ref at_).
Proof.
  unfold confirm_run_delivery. apply keeps_ensure. apply keeps_try; [apply keeps_peek|intros valid].
  apply keeps_ensure. apply keeps_try; [|intros changed; by destruct (changed =? 1)].
  apply keeps_call. intros s. apply HPd.
Qed.

Lemma keeps_fork rid new_id now : keeps P (fork_run (V:=V) sha256_hex rid new_id now).
Proof.
  unfold fork_run. apply keeps_try; [apply keeps_peek|intros source].
  apply keeps_try; [by destruct source|intros run]. apply keeps_try; [apply keeps_read_report|intros report].
  destruct report as [r|]; cbn.
  - destruct (validate_completion_contract _) as [[]|] eqn:Hval; [|done]. cbn -[put_fork].
    intros s Hs. split; [apply HPf; [|done]; intros c [= <-]; done|].
    destruct (put_fork _ _ _ _ _) as [[u|e] s']; cbn; [|done].
    intros s2 Hs2. split; [done|]. by destruct (find_run _ _).
  - intros s Hs. split; [by apply (HPf run new_id None)|].
    destruct (put_fork _ _ _ _ _) as [[u|e] s']; cbn; [|done].
    intros s2 Hs2. split; [done|]. by destruct (find_run _ _).
Qed.

Lemma keeps_report_or rid e : keeps P (report_or sha256_hex rid e).
Proof. apply keeps_try; [apply keeps_in_store, keeps_read_report|by intros []]. Qed.

Lemma keeps_attest user table row new :
  is_controller user = true → (is_controller user = true → trusted (us_user_id (au_row user))) →
  keeps P (in_store (call RDb (audit_insert (us_user_id (au_row user)) table row new))).
Proof.
  intros Hu Ht. apply keeps_in_store, keeps_call. intros s. apply HPi. auto.
Qed.

Lemma keeps_serve q :
  (∀ user, request_user q = Some user → is_controller user = true → trusted (us_user_id (au_row user))) →
  keeps P (serve sha256_hex q).
Proof.
  intros Ht. destruct q as [user rid|user rid request|user rid cid status refs detail
    |user rid aid present ref detail|user rid ref|user rid new_id|rid draft at_]; cbn in Ht |- *.
  all: try specialize (Ht user eq_refl).
  all: apply keeps_try; [|done].
  - apply keeps_controller. intros _. apply keeps_report_or.
  - apply keeps_controller. intros _. apply keeps_try; [apply keeps_peek|intros now].
    apply keeps_try; [apply keeps_in_store, keeps_set_contract|intros _]. apply keeps_report_or.
  - apply keeps_controller. intros Hu. apply keeps_try.
    + destruct (bool_decide _); [|done]. apply keeps_try; [done|intros _].
      apply keeps_try; [by apply keeps_in_store; destruct refs|intros _].
      apply keeps_try; [by apply keeps_attest|done].
    + intros refs'. apply keeps_try; [apply keeps_peek|intros now].
      apply keeps_try; [apply keeps_in_store, keeps_record_verification|intros _]. apply keeps_report_or.
  - apply keeps_controller. intros _. apply keeps_try; [apply keeps_peek|intros now].
    apply keeps_try; [apply keeps_in_store, keeps_record_artifact|intros _]. apply keeps_report_or.
  - apply keeps_controller. intros Hu. apply keeps_try.
    + destruct (starts_with _ _); [done|].
      apply keeps_try; [apply keeps_in_store; by destruct (_ && _)|intros _].
      apply keeps_try; [by apply keeps_attest|done].
    + intros ref'. apply keeps_try; [apply keeps_peek|intros now].
      apply keeps_try; [apply keeps_in_store, keeps_confirm_delivery|intros _]. apply keeps_report_or.
  - apply keeps_controller. intros _. apply keeps_try; [apply keeps_peek|intros now].
    apply keeps_in_store, keeps_fork.
  - apply keeps_in_store. apply keeps_set_contract.
Qed.
End Statements.

(** ** Reachable states *)

(** No contract yet, and no attestation. *)
Definition no_contracts (s : Completion) : Prop :=
  cw_contracts s = ∅ ∧ cw_verifications s = ∅ ∧ cw_artifact_checks s = ∅ ∧
  (∀ id row, ed_audit (cw_evidence s) !! id = Some row → ad_table_name row ∉ completion_tables).

Definition served (s0 s : Completion) : Prop :=
  ∃ ps, rtc (pool_step completion_env completion_accepts) (s0, []) (s, ps).

Lemma served_sound s0 s : no_contracts s0 → served s0 s → sound s.
Proof.
  intros (Hc & Hv & _ & Ha) [ps Hps].
  assert (sound s0) as Hs0.
  { constructor.
    - intros rid row. by rewrite Hc, lookup_empty.
    - intros rid id row. rewrite Hv, lookup_empty. cbn. by rewrite lookup_empty.
    - intros id row Hrow Hin. by destruct (Ha id row Hrow). }
  apply (pool_keeps completion_env completion_accepts sound (s0, []) (s, ps) Hps); [|..|done|done].
  - intros s1 s2. apply sound_env.
  - intros s1 p (q & -> & Ht). apply keeps_serve; [..|done].
    + intros. by apply sound_put_contract.
    + intros. by eapply sound_put_verification.
    + intros. by apply sound_put_artifact_check.
    + intros. by apply sound_put_delivery.
    + intros. by apply sound_audit_insert.
    + intros. by apply sound_put_fork.
Qed.

(** ** What validation guarantees *)

Lemma check_criteria_unique seen l :
  check_criteria seen l = Ok () → NoDup (map ac_criterion_id l) ∧ Forall (λ c, ac_criterion_id c ∉ seen) l.
Proof.
  revert seen. induction l as [|c l IH]; intros seen; cbn; [by repeat constructor|].
  destruct (_ || bool_decide _) eqn:Hb; [done|]. apply orb_false_iff in Hb as [_ Hseen%bool_decide_eq_false].
  case_match; [|done]. intros [Hnd Hall]%IH. rewrite Forall_forall in Hall. split.
  - apply NoDup_cons. split; [|done]. intros (c' & Heq & Hin)%list_elem_of_fmap.
    apply (Hall c' Hin). rewrite <-Heq. by left.
  - apply Forall_cons. split; [done|]. apply Forall_forall. intros c' Hin Hs. apply (Hall c' Hin). by right.
Qed.

Lemma check_artifacts_unique seen l :
  check_required_artifacts seen l = Ok () → NoDup (map ra_artifact_id l) ∧ Forall (λ a, ra_artifact_id a ∉ seen) l.
Proof.
  revert seen. induction l as [|c l IH]; intros seen; cbn; [by repeat constructor|].
  destruct (_ || bool_decide _) eqn:Hb; [done|]. apply orb_false_iff in Hb as [_ Hseen%bool_decide_eq_false].
  intros [Hnd Hall]%IH. rewrite Forall_forall in Hall. split.
  - apply NoDup_cons. split; [|done]. intros (c' & Heq & Hin)%list_elem_of_fmap.
    apply (Hall c' Hin). rewrite <-Heq. by left.
  - apply Forall_cons. split; [done|]. apply Forall_forall. intros c' Hin Hs. apply (Hall c' Hin). by right.
Qed.

Lemma validated_unique (c : RunCompletionContract V) : validate_completion_contract c = Ok () → ids_unique c.
Proof.
  unfold validate_completion_contract. case_match; [done|].
  destruct (check_criteria [] _) as [[]|] eqn:Hc; [|done]. intros Ha.
  apply check_criteria_unique in Hc as [Hc _]. apply check_artifacts_unique in Ha as [Ha _]. done.
Qed.

Lemma validated_nonempty (c : RunCompletionContract V) :
  validate_completion_contract c = Ok () →
  (∃ cr, cr ∈ ct_acceptance_criteria c ∧ ac_required cr = true) ∨ ct_required_artifacts c ≠ [].
Proof.
  unfold validate_completion_contract. destruct (_ || (negb (existsb _ _) && _)) eqn:Hb; [done|]. intros _.
  apply orb_false_iff in Hb as [_ Hb]. apply andb_false_iff in Hb as [Hb|Hb].
  - left. apply negb_false_iff, existsb_True in Hb. done.
  - right. by destruct (ct_required_artifacts c).
Qed.

(** ** What a verified task rests on *)











Lemma stored_delivery rid row (c : RunCompletionContract V) :
  stored_contract rid row = Ok c → ct_delivery_required c = cr_delivery_required row.
Proof. unfold stored_contract. intros Hc. repeat case_match; by simplify_eq. Qed.

Lemma sound_exact s rid row :
  sound s → cw_contracts s !! rid = Some row →
  ∃ c, stored_contract rid row = Ok c ∧
    ((∃ cr, cr ∈ ct_acceptance_criteria c ∧ ac_required cr = true) ∨ ct_required_artifacts c ≠ []) ∧
    ((∃ r, completion_report sha256_hex rid s = Ok (Some r) ∧ rp_status r = CVerifiedComplete)
       ↔ task_done sha256_hex s rid row c).
Proof.
  intros Hs Hrow. destruct (sound_contracts s Hs rid row Hrow) as (c & Hc & Hval). exists c. split; [done|].
  split; [by eapply validated_nonempty|].
  apply report_exact; [by apply sound_rows|done|done|by apply validated_unique|by eapply stored_delivery].
Qed.



(** ** Properties *)

(** C9: in every state the server reaches, whatever requests and other work
    interleave, the report calls a task verified complete exactly when its run
    completed and every criterion, artifact and delivery of the stored
    contract is met by evidence that holds now; a stored contract always
    requires something. *)
Theorem verified_complete_exact s0 s :
  no_contracts s0 → served s0 s →
  ∀ rid row, cw_contracts s !! rid = Some row →
  ∃ c, stored_contract rid row = Ok c ∧
    ((∃ cr, cr ∈ ct_acceptance_criteria c ∧ ac_required cr = true) ∨ ct_required_artifacts c ≠ []) ∧
    ((∃ r, completion_report sha256_hex rid s = Ok (Some r) ∧ rp_status r = CVerifiedComplete)
       ↔ task_done sha256_hex s rid row c).
Proof. intros Hn Hr rid row. apply sound_exact. by eapply served_sound. Qed.


(** The contract of a run, whatever was recorded against it since. *)
Definition has_contract (rid : string) (row : ContractRow) (s : Completion) : Prop :=
  ∃ row', cw_contracts s !! rid = Some row' ∧
    cr_acceptance_criteria_json row' = cr_acceptance_criteria_json row ∧
    cr_required_artifacts_json row' = cr_required_artifacts_json row ∧
    cr_delivery_required row' = cr_delivery_required row ∧ cr_created_at row' = cr_created_at row ∧
    (cr_delivery_confirmed row = true → cr_delivery_confirmed row' = true).

Lemma has_contract_put_contract rid row rid' cj aj req at_ s :
  has_contract rid row s → has_contract rid row (put_contract rid' cj aj req at_ s).2.
Proof.
  intros (row' & Hrow & Hsame). unfold put_contract. destruct (cw_contracts s !! rid') as [old|] eqn:Hold.
  { case_match; by exists row'. }
  destruct (find_run _ _); [|by exists row']. exists row'. cbn. split; [|done].
  by rewrite lookup_insert_ne by congruence.
Qed.

Lemma has_contract_put_fork rid row source new_id contract now s :
  has_contract rid row s → has_contract rid row (put_fork (V:=V) source new_id contract now s).2.
Proof.
  intros (row' & Hrow & Hsame).
  destruct (put_fork_cases source new_id contract now s)
    as [->|(d & [[_ ->]|(c & cj & aj & _ & Hno & _ & _ & ->)])]; exists row'; [done..|].
  split; [|done]. cbn. by rewrite lookup_insert_ne by congruence.
Qed.

Lemma has_contract_put_delivery rid row rid' ref at_ s :
  has_contract rid row s → has_contract rid row (put_delivery rid' ref at_ s).2.
Proof.
  intros (row' & Hrow & Hsame). unfold put_delivery. destruct (cw_contracts s !! rid') as [old|] eqn:Hold; [|by exists row'].
  destruct (cr_delivery_required old) eqn:Hreq; [|by exists row']. unfold has_contract. cbn.
  destruct (decide (rid' = rid)) as [->|Hne]; [|rewrite lookup_insert_ne by done; by exists row'].
  rewrite lookup_insert_eq. simplify_eq. eexists. split; [done|]. cbn. naive_solver.
Qed.

(** C38: once a run has a completion contract it stays the same contract while
    the run exists: whatever is served and recorded, its criteria, artifacts
    and delivery requirement do not change and a confirmed delivery is not
    taken back. *)
Theorem contract_immutable rid row s s' ps :
  cw_contracts s !! rid = Some row →
  rtc (pool_step (λ s s', completion_env s s' ∧ cw_contracts s' !! rid = cw_contracts s !! rid) completion_accepts)
    (s, []) (s', ps) →
  has_contract rid row s'.
Proof.
  intros Hrow Hps.
  apply (pool_keeps _ completion_accepts (has_contract rid row) (s, []) (s', ps) Hps); [| |by exists row|done].
  - intros s1 s2 [_ Hsame] (row' & Hrow' & Hrest). exists row'. by rewrite Hsame.
  - intros s1 p (q & -> & Ht). apply keeps_serve; [..|done].
    + intros. by apply has_contract_put_contract.
    + intros rid' cid r refs s2 _ Hs2. unfold put_verification. by case_match.
    + intros rid' aid r s2 Hs2. unfold put_artifact_check. by case_match.
    + intros. by apply has_contract_put_delivery.
    + intros actor table r new s2 _ Hs2. unfold audit_insert. by case_match.
    + intros. by apply has_contract_put_fork.
Qed.

Lemma record_refused rid v e :
  validate_reference_list (cv_evidence_refs v) = Err e → record_completion_verification sha256_hex rid v = fail e.
Proof. unfold record_completion_verification. by intros ->. Qed.

Lemma too_many_references refs r :
  length refs = 32%nat →
  validate_reference_list (refs ++ [r]) = Err (Corrupt "evidence references must be non-empty and bounded").
Proof. intros Hlen. unfold validate_reference_list. by rewrite length_app, Hlen. Qed.

(** A passing verification with the full number of references is refused after
    its attestation was written: the attestation is one reference too many. *)
Lemma full_reference_list_refused s user rid cid refs detail audit :
  is_controller user = true → validate_reference_list refs = Ok () → length refs = 32%nat →
  (∀ v : V, json_to_vec v = Some audit) →
  let '(r, s') := run_proc (record_verification sha256_hex user rid cid VPassed refs detail) s in
  r = Err (mkApiError 400 "run_completion_error" "evidence references must be non-empty and bounded") ∧
  is_Some (ed_audit (cw_evidence s') !! next_audit_id (cw_evidence s)) ∧
  cw_verifications s' = cw_verifications s.
Proof.
  intros Hu Hval Hlen Hvec. unfold record_verification, controller. rewrite Hu.
  rewrite (bool_decide_eq_true_2 (VPassed = VPassed)) by done.
  cbn -[record_completion_verification validate_reference_list pretty app is_nil]. rewrite Hval.
  assert (is_nil refs = false) as Hnil by (by destruct refs). rewrite Hnil.
  cbn -[record_completion_verification validate_reference_list pretty app is_nil].
  unfold audit_insert. rewrite Hvec. cbn -[record_completion_verification validate_reference_list pretty app is_nil].
  erewrite record_refused by (by apply too_many_references). cbn. split_and!; [done| |done].
  rewrite lookup_insert_eq. by eexists.
Qed.

(** Serving one more request alone. *)
Lemma served_serve s0 s q :
  (∀ user, request_user q = Some user → is_controller user = true → trusted (us_user_id (au_row user))) →
  served s0 s → served s0 (run_proc (serve sha256_hex q) s).2.
Proof.
  intros Ht [ps Hps]. eexists. etrans; [exact Hps|].
  eapply rtc_l; [apply step_accept; by exists q|]. apply run_alone_steps.
Qed.
End Serving.

(** ** A concrete server *)

(** JSON trees with a prefix encoding, contracts of one manual criterion, rows
    of two references. *)
#[local] Unset Elimination Schemes.
Inductive Toy : Type := TStr (s : string) | TArr (l : list Toy) | TObj (l : list (string * Toy)) | TNull.
#[local] Set Elimination Schemes.

Definition toy_text (s : string) : bytes := flat_map (λ b, [x01; b]) (as_bytes s) ++ [x00].
Fixpoint toy_enc (v : Toy) : bytes :=
  match v with
  | TStr s => x01 :: toy_text s
  | TArr l => x02 :: flat_map (λ v, x01 :: toy_enc v) l ++ [x00]
  | TObj l => x03 :: flat_map (λ kv, x01 :: toy_text kv.1 ++ toy_enc kv.2) l ++ [x00]
  | TNull => [x04]
  end.

Fixpoint toy_take_text (bs : bytes) : string * bytes :=
  match bs with
  | x01 :: b :: bs => let '(s, rest) := toy_take_text bs in (String (Ascii.ascii_of_byte b) s, rest)
  | _ :: bs => (EmptyString, bs)
  | [] => (EmptyString, [])
  end.
Fixpoint toy_dec (fuel : nat) (bs : bytes) : option (Toy * bytes) :=
  match fuel with
  | O => None
  | S fuel =>
      let fix values (n : nat) (bs : bytes) : list Toy * bytes :=
        match n, bs with
        | S n, x01 :: bs =>
            match toy_dec fuel bs with
            | Some (v, bs) => let '(l, bs) := values n bs in (v :: l, bs)
            | None => ([], bs)
            end
        | _, bs => ([], drop 1 bs)
        end in
      let fix entries (n : nat) (bs : bytes) : list (string * Toy) * bytes :=
        match n, bs with
        | S n, x01 :: bs =>
            let '(k, bs) := toy_take_text bs in
            match toy_dec fuel bs with
            | Some (v, bs) => let '(l, bs) := entries n bs in ((k, v) :: l, bs)
            | None => ([], bs)
            end
        | _, bs => ([], drop 1 bs)
        end in
      match bs with
      | x01 :: bs => let '(s, bs) := toy_take_text bs in Some (TStr s, bs)
      | x02 :: bs => let '(l, bs) := values fuel bs in Some (TArr l, bs)
      | x03 :: bs => let '(l, bs) := entries fuel bs in Some (TObj l, bs)
      | x04 :: bs => Some (TNull, bs)
      | _ => None
      end
  end.

#[local] Instance toy_json : JsonValue Toy := {|
  json_view v := match v with TStr s => JString s | TArr l => JArray l | TObj l => JObject l | TNull => JOther end;
  json_eqb a b := bool_decide (toy_enc a = toy_enc b);
  json_pointer v p := match v with TObj ((k, w) :: _) => if String.eqb ("/" +:+ k) p then Some w else None | _ => None end;
  json_from_slice bs := fst <$> toy_dec 20 bs;
  json_from_text s := fst <$> toy_dec 20 (as_bytes s);
  json_to_vec v := Some (toy_enc v);
  json_of_view w := match w with JString s => TStr s | JArray l => TArr l | JObject l => TObj l | JOther => TNull end;
  json_null_value := TNull
|}.
#[local] Instance toy_msgpack : MsgPack Toy := {|
  to_vec_tool_result _ := Err "toy";
  from_slice_tool_use _ := Err "toy";
  from_slice_tool_result _ := Err "toy"
|}.
#[local] Instance toy_cards : CardCodec Toy := λ _, None.

Definition toy_refs (s : string) : list string :=
  match split_once "," s with Some (a, b) => [a; b] | None => [s] end.
#[local] Instance toy_contracts : ContractCodec Toy := {|
  criteria_to_string l :=
    match l with [mkCriterion id "works" true None] => Some id | _ => None end;
  criteria_from_str s := Some [mkCriterion s "works" true None];
  artifacts_to_string l := match l with [] => Some "" | _ => None end;
  artifacts_from_str _ := Some [];
  refs_to_string l :=
    match l with
    | [a; b] => if bool_decide (toy_refs (a +:+ "," +:+ b) = l) then Some (a +:+ "," +:+ b) else None
    | _ => None
    end;
  refs_from_str s := Some (toy_refs s)
|}.
#[local] Instance toy_contract_laws : ContractCodecLaws Toy.
Proof.
  constructor; intros l s; cbn.
  - repeat case_match; intros [= <-]; by subst.
  - by destruct l.
  - destruct l as [|a [|b []]]; try done. case_bool_decide as Heq; [|done]. intros [= <-]. by rewrite Heq.
Qed.

Definition toy_operator : AuthedUser :=
  mkAuthedUser (mkUserRow "op" "op" "Op" None "" Controller 0 None) None.
Definition toy_files : FileSystem := mkFileSystem (λ _, None) (λ _, None) (λ _, None).
Definition toy_start : Completion :=
  mkCompletion 100
    (mkEvidence (set_runs (λ _, [mkRun "r" "conv" None RunCompleted 0 1 50 60 None]) empty_db)
       ∅ ∅ ∅ [] ∅ 0 toy_files) ∅ ∅ ∅.
Definition toy_put : CompletionRequest (V:=Toy) :=
  PutContract toy_operator "r" (mkDraft [mkCriterion "c" "works" true None] [] false).
Definition toy_pass : CompletionRequest (V:=Toy) :=
  RecordVerification toy_operator "r" "c" VPassed ["ticket 7"] None.
Definition toy_sha (_ : bytes) : string := "".
Definition toy_trusted (u : string) : Prop := u = "op".
Definition toy_contracted : Completion := (run_proc (serve toy_sha toy_put) toy_start).2.
Definition toy_end : Completion := (run_proc (serve toy_sha toy_pass) toy_contracted).2.

Lemma toy_no_contracts : no_contracts toy_start.
Proof. split_and!; [done..|]. intros id row. cbn. by rewrite lookup_empty. Qed.

Lemma toy_served : served toy_sha toy_trusted toy_start toy_end.
Proof.
  apply served_serve; [by intros user [= <-]|]. apply served_serve; [by intros user [= <-]|].
  by exists [].
Qed.

Definition toy_row : ContractRow := mkContractRow "c" "" false false None 100 100.

Lemma toy_reported :
  ∃ r : RunCompletionReport Toy, completion_report toy_sha "r" toy_end = Ok (Some r) ∧ rp_status r = CVerifiedComplete.
Proof. eexists. split; [vm_compute; reflexivity|reflexivity]. Qed.

Lemma verified_complete_exact_witness :
  ∃ c : RunCompletionContract Toy, stored_contract "r" toy_row = Ok c ∧ task_done toy_sha toy_end "r" toy_row c.
Proof.
  destruct (verified_complete_exact toy_sha toy_trusted toy_start toy_end toy_no_contracts toy_served "r" toy_row)
    as (c & Hc & _ & Hex); [vm_compute; reflexivity|].
  exists c. split; [exact Hc|]. apply Hex, toy_reported.
Defined.


Lemma contract_immutable_witness : has_contract "r" toy_row toy_end.
Proof.
  eapply (contract_immutable toy_sha toy_trusted "r" toy_row toy_contracted toy_end).
  - vm_compute. reflexivity.
  - eapply rtc_l; [apply step_accept; exists toy_pass; split; [done|by intros user [= <-]]|]. apply run_alone_steps.
Defined.
