(* ===== verification/PairedHosts.v ===== *)
(** * Delegation to paired hosts

    [crates/core/src/paired_hosts.rs]: hosts of the same operator that a
    Controller has paired, and the tasks that are delegated to and from them in
    signed envelopes.  Operations are sequences of atomic statements on the two
    tables.  Ed25519, SHA-256, the hexadecimal codec, serde_json and the [url]
    crate are parameters; the parser of addresses is that of the standard
    library. *)

From Stdlib Require Import Strings.Ascii.
From stdpp Require Import sorting.
From S2P Require Import Prelude Wire Text ServiceBase RunBase Procs EndpointPolicy.

(** ** Addresses *)

(** [Ipv4Addr::from_str]: four decimal parts without leading zeros. *)
Definition parse_octet (s : string) : option Z :=
  if Nat.ltb 3 (String.length s) || (starts_with s "0" && negb (String.eqb s "0")) then None
  else match parse_digits1 s with Some n => if n <=? 255 then Some n else None | None => None end.
Definition parse_ipv4 (s : string) : option Z :=
  match map parse_octet (split_char "."%char s) with
  | [Some a; Some b; Some c; Some d] => Some (quad a b c d)
  | _ => None
  end.

(** [Ipv6Addr::from_str]: groups of hexadecimal digits, the last two possibly
    as an IPv4 address, one run of zeros possibly left out. *)
Definition hex_digit (c : Ascii.ascii) : option Z :=
  let z := code c in
  if (48 <=? z) && (z <=? 57) then Some (z - 48)
  else if (97 <=? z) && (z <=? 102) then Some (z - 87)
  else if (65 <=? z) && (z <=? 70) then Some (z - 55) else None.
Fixpoint hex_value (acc : Z) (s : string) : option Z :=
  match s with
  | EmptyString => Some acc
  | String c s => match hex_digit c with Some d => hex_value (acc * 16 + d) s | None => None end
  end.
Definition parse_group (s : string) : option Z :=
  if String.eqb s "" || Nat.ltb 4 (String.length s) then None else hex_value 0 s.
Fixpoint parse_groups (ipv4_last : bool) (l : list string) : option (list Z) :=
  match l with
  | [] => Some []
  | s :: l' =>
      match parse_group s with
      | Some g => match parse_groups ipv4_last l' with Some gs => Some (g :: gs) | None => None end
      | None =>
          match l', ipv4_last, parse_ipv4 s with
          | [], true, Some a => Some [Z.shiftr a 16; Z.land a 65535]
          | _, _, _ => None
          end
      end
  end.
Definition address_part (s : string) : list string := if String.eqb s "" then [] else split_char ":"%char s.
Definition ipv6_value (groups : list Z) : Z := foldl (λ a g, a * 65536 + g) 0 groups.
(** [str::split_once] at a string. *)
Fixpoint split_at (p s : string) : option (string * string) :=
  match strip_prefix p s with
  | Some rest => Some (EmptyString, rest)
  | None =>
      match s with
      | EmptyString => None
      | String c s' => match split_at p s' with Some (a, b) => Some (String c a, b) | None => None end
      end
  end.
Definition parse_ipv6 (s : string) : option Z :=
  match split_at "::" s with
  | None =>
      match parse_groups true (split_char ":"%char s) with
      | Some groups => if Nat.eqb (length groups) 8 then Some (ipv6_value groups) else None
      | None => None
      end
  | Some (head, tail) =>
      match parse_groups false (address_part head), parse_groups true (address_part tail) with
      | Some head, Some tail =>
          if Nat.leb (length head + length tail) 7
          then Some (ipv6_value (head ++ repeat 0 (8 - length head - length tail)%nat ++ tail)) else None
      | _, _ => None
      end
  end.
(** [host.parse::<IpAddr>()] *)
Definition parse_ip (s : string) : option IpAddr :=
  match parse_ipv4 s with Some a => Some (V4 a) | None => V6 <$> parse_ipv6 s end.

(** [Ipv4Addr::is_private], [::is_loopback] and [::is_link_local], and the
    shared address space of carriers. *)
Definition is_local_ipv4 (a : Z) : bool :=
  (Z.shiftr a 24 =? 10) || (Z.shiftr a 20 =? 2753) || (Z.shiftr a 16 =? 49320)
  || (Z.shiftr a 24 =? 127) || (Z.shiftr a 16 =? 43518)
  || ((Z.shiftr a 24 =? 100) && (64 <=? Z.land (Z.shiftr a 16) 255) && (Z.land (Z.shiftr a 16) 255 <=? 127)).
(** ::1, fc00::/7 and fe80::/10. *)
Definition is_local_ipv6 (a : Z) : bool :=
  (a =? 1) || (Z.shiftr a 121 =? 126) || (Z.shiftr a 118 =? 1018).
Definition is_local_ip (ip : IpAddr) : bool :=
  match ip with V4 a => is_local_ipv4 a | V6 a => is_local_ipv6 a end.

(** ** Data *)

Inductive PairedHostError : Type :=
| PHDb (e : DbError)
| PHInvalid (msg : string)
| Unpaired (peer : string)
| InvalidSignature
| TaskNotFound (task : string)
| PHInvalidTransition (msg : string)
| ControllerRequired.

Inductive DelegatedHostTaskStatus : Type :=
| TPending | TAccepted | TRunning | TCompleted | TFailed | TCancelled.

#[global] Instance DelegatedHostTaskStatus_eq_dec : EqDecision DelegatedHostTaskStatus.
Proof. solve_decision. Defined.

Definition task_status_str (s : DelegatedHostTaskStatus) : string :=
  match s with
  | TPending => "pending" | TAccepted => "accepted" | TRunning => "running"
  | TCompleted => "completed" | TFailed => "failed" | TCancelled => "cancelled"
  end.

Definition task_active (s : DelegatedHostTaskStatus) : bool :=
  match s with TPending | TAccepted | TRunning => true | _ => false end.

Record DelegatedHostArtifact : Type := mkDelegatedArtifact {
  da_artifact_id : string;
  da_kind : string;
  da_media_type : string;
  da_sha256 : string;
  da_size_bytes : Z;
  da_data_labels : list string
}.

Record SignedTaskEnvelope (V : Type) : Type := mkEnvelope {
  se_task_id : string;
  se_task : V;
  se_requested_capabilities : list string;
  se_requested_data_labels : list string
}.
Arguments mkEnvelope {V}.
Arguments se_task_id {V}.
Arguments se_task {V}.
Arguments se_requested_capabilities {V}.
Arguments se_requested_data_labels {V}.

Record SignedTaskResult : Type := mkTaskResult {
  sr_task_id : string;
  sr_outcome : string;
  sr_artifacts : list DelegatedHostArtifact
}.

Record DelegatedHostTask (V : Type) : Type := mkTask {
  dt_task_id : string;
  dt_peer_id : string;
  dt_task : V;
  dt_effective_capabilities : list string;
  dt_effective_data_labels : list string;
  dt_status : DelegatedHostTaskStatus;
  dt_artifacts : list DelegatedHostArtifact;
  dt_created_at : Z;
  dt_updated_at : Z
}.
Arguments mkTask {V}.
Arguments dt_peer_id {V}.
Arguments dt_effective_capabilities {V}.
Arguments dt_effective_data_labels {V}.
Arguments dt_status {V}.
Arguments dt_artifacts {V}.

Record PairOperatorHostRequest : Type := mkPairRequest {
  pr_peer_id : string;
  pr_endpoint : string;
  pr_inference_endpoint : string;
  pr_public_key_hex : string;
  pr_allowed_capabilities : list string;
  pr_allowed_data_labels : list string;
  pr_actor_trust : string;
  pr_actor : string;
  pr_now : Z
}.

Record SignedDelegationEnvelope : Type := mkSignedEnvelope {
  sd_peer_endpoint : string;
  sd_payload : bytes;
  sd_signature_hex : string
}.

(** [paired_operator_hosts], primary key [peer_id]. *)
Record HostRow : Type := mkHostRow {
  ho_endpoint : string;
  ho_inference_endpoint : string;
  ho_public_key_hex : string;
  ho_key_fingerprint_sha256 : string;
  ho_allowed_capabilities_json : string;
  ho_allowed_data_labels_json : string;
  ho_paired_by : string;
  ho_paired_at : Z;
  ho_active : bool
}.

(** [delegated_host_tasks], primary key [task_id]; the status column's check
    admits the texts of the enum. *)
Record TaskRow : Type := mkTaskRow {
  tr_peer_id : string;
  tr_task_json : string;
  tr_authority_json : string;
  tr_data_labels_json : string;
  tr_status : DelegatedHostTaskStatus;
  tr_artifacts_json : string;
  tr_created_at : Z;
  tr_updated_at : Z
}.

Record Paired : Type := mkPaired { ph_hosts : gmap string HostRow; ph_tasks : gmap string TaskRow }.

Definition set_hosts (f : gmap string HostRow → gmap string HostRow) (s : Paired) : Paired :=
  mkPaired (f (ph_hosts s)) (ph_tasks s).
Definition set_tasks (f : gmap string TaskRow → gmap string TaskRow) (s : Paired) : Paired :=
  mkPaired (ph_hosts s) (f (ph_tasks s)).

(** ** Libraries *)

Class PairedUrl : Type := {
  PUrl : Type;
  purl_parse : string → option PUrl;
  purl_scheme : PUrl → string;
  purl_username : PUrl → string;
  purl_password : PUrl → option string;
  purl_query : PUrl → option string;
  purl_fragment : PUrl → option string;
  purl_host_str : PUrl → option string
}.

Class PairedCrypto : Type := {
  SigningKey : Type;
  hex_decode : string → option bytes;
  hex_encode : bytes → string;
  key_valid : bytes → bool;
  ed_verify : bytes → bytes → bytes → bool;
  ed_sign : SigningKey → bytes → bytes;
  sha256_bytes : bytes → bytes
}.

Class DelegationCodec (V : Type) : Type := {
  value_is_null : V → bool;
  value_to_string : V → option string;
  value_from_str : string → option V;
  names_to_string : list string → option string;
  names_from_str : string → option (list string);
  files_to_string : list DelegatedHostArtifact → option string;
  files_from_str : string → option (list DelegatedHostArtifact);
  envelope_to_vec : SignedTaskEnvelope V → option bytes;
  envelope_from_slice : bytes → option (SignedTaskEnvelope V);
  result_from_slice : bytes → option SignedTaskResult
}.

(** What was written to a column is read back. *)
Class DelegationCodecLaws (V : Type) `{DelegationCodec V} : Prop := {
  names_roundtrip : ∀ l s, names_to_string l = Some s → names_from_str s = Some l;
  files_roundtrip : ∀ l s, files_to_string l = Some s → files_from_str s = Some l;
  no_files : files_from_str "[]" = Some []
}.

Definition MAX_SIGNED_ENVELOPE_BYTES : Z := 256 * 1024.
Definition MAX_ARTIFACT_SIZE_BYTES : Z := 64 * 1024 * 1024.

Section Paired.
Context {V : Type} `{DelegationCodec V} `{PairedUrl} `{PairedCrypto}.

(** ** Validation *)

Definition invalid {A} (m : string) : result PairedHostError A := Err (PHInvalid m).

Definition id_byte (c : Ascii.ascii) : bool :=
  is_ascii_alphanumeric c || is_char "-"%char c || is_char "_"%char c || is_char "."%char c || is_char ":"%char c.
Definition validate_id (value field : string) (max : nat) : result PairedHostError () :=
  if blank value || Nat.ltb max (String.length value) || negb (bytes_all id_byte value)
  then invalid (field +:+ " is invalid") else Ok ().

Definition normalize_allowlist (values : list string) (field : string) : result PairedHostError (list string) :=
  if Nat.ltb 128 (length values) then invalid ("too many " +:+ field +:+ " entries")
  else
    let normalized := map trim values in
    if existsb (λ v, String.eqb v "" || Nat.ltb 128 (String.length v)) normalized
    then invalid (field +:+ " entry is invalid")
    else Ok (dedup (sort_strings normalized)).

Definition decode_hex (n : nat) (value field : string) : result PairedHostError bytes :=
  match hex_decode value with
  | None => invalid (field +:+ " must be hex")
  | Some bs => if Nat.eqb (length bs) n then Ok bs else invalid (field +:+ " has the wrong length")
  end.

(** [str::ends_with] *)
Definition ends_with (s p : string) : bool :=
  Nat.leb (String.length p) (String.length s)
  && String.eqb (String.substring (String.length s - String.length p) (String.length p) s) p.

Definition is_none {A} (o : option A) : bool := match o with None => true | Some _ => false end.

Definition local_host (host : string) : bool :=
  match parse_ip host with
  | Some ip => is_local_ip ip
  | None => String.eqb host "localhost" || ends_with host ".localhost"
  end.

Definition validate_local_endpoint (value : string) : result PairedHostError () :=
  match purl_parse value with
  | None => invalid "endpoint URL"
  | Some url =>
      if negb (String.eqb (purl_scheme url) "https") || negb (String.eqb (purl_username url) "")
         || negb (is_none (purl_password url)) || negb (is_none (purl_query url)) || negb (is_none (purl_fragment url))
      then invalid "paired host and inference URLs must use HTTPS without embedded credentials"
      else match purl_host_str url with
           | None => invalid "endpoint URL requires a host"
           | Some host =>
               if local_host (to_ascii_lowercase host) then Ok ()
               else invalid "paired host and inference endpoints must resolve only to operator local/VPN addresses"
           end
  end.

Definition is_hex_digit (c : Ascii.ascii) : bool := negb (is_none (hex_digit c)).

Definition validate_artifact (artifact : DelegatedHostArtifact) (allowed_labels : list string) : result PairedHostError () :=
  match validate_id (da_artifact_id artifact) "artifact id" 128 with
  | Err e => Err e
  | Ok _ =>
      if negb (existsb (String.eqb (da_kind artifact)) ["json"; "text"; "patch"; "opaque"])
         || String.eqb (da_media_type artifact) "" || Nat.ltb 128 (String.length (da_media_type artifact))
         || (MAX_ARTIFACT_SIZE_BYTES <? da_size_bytes artifact)
         || negb (Nat.eqb (String.length (da_sha256 artifact)) 64)
         || negb (bytes_all is_hex_digit (da_sha256 artifact))
         || existsb (λ label, negb (bool_decide (label ∈ allowed_labels))) (da_data_labels artifact)
      then invalid "remote artifact has an unsupported type, size, digest, or data label"
      else Ok ()
  end.

Definition verify_signature (public_key_hex : string) (payload : bytes) (signature_hex : string) : result PairedHostError () :=
  match decode_hex 32 public_key_hex "peer public key" with
  | Err e => Err e
  | Ok key =>
      if negb (key_valid key) then invalid "stored peer key is invalid"
      else match decode_hex 64 signature_hex "peer signature" with
           | Err e => Err e
           | Ok signature => if ed_verify key payload signature then Ok () else Err InvalidSignature
           end
  end.

(** ** Operations *)

Definition host_op (A : Type) : Type := proc Paired (result PairedHostError A).
Definition checked {A} (r : result PairedHostError A) : host_op A := Finish r.
Definition encode {A} (o : option A) : host_op A :=
  match o with Some a => ok a | None => fail (PHInvalid "serde_json") end.
Definition when (b : bool) (e : PairedHostError) : host_op () := if b then fail e else ok ().

(** The transaction of [pair]: a key in use by active tasks is not replaced. *)
Definition put_host (peer : string) (row : HostRow) : act Paired DbError () := λ s,
  let changes := match ph_hosts s !! peer with
                 | Some old => negb (String.eqb (ho_public_key_hex old) (ho_public_key_hex row)) | None => false end in
  let busy := bool_decide (map_Exists (λ _ t, tr_peer_id t = peer ∧ task_active (tr_status t) = true) (ph_tasks s)) in
  if changes && busy
  then (Err (Invariant "peer key cannot change while delegated tasks are active"), s)
  else if (sql_length (ho_public_key_hex row) =? 64) && (sql_length (ho_key_fingerprint_sha256 row) =? 64)
  then (Ok (), set_hosts <[peer := row]> s)
  else (Err check_failed, s).

Definition pair_host (r : PairOperatorHostRequest) : host_op HostRow :=
  let^ _ := when (negb (String.eqb (pr_actor_trust r) "Controller")) ControllerRequired in
  let^ _ := checked (validate_id (pr_peer_id r) "peer id" 128) in
  let^ _ := checked (validate_id (pr_actor r) "actor" 128) in
  let^ _ := checked (validate_local_endpoint (pr_endpoint r)) in
  let^ _ := checked (validate_local_endpoint (pr_inference_endpoint r)) in
  let^ key := checked (decode_hex 32 (pr_public_key_hex r) "peer public key") in
  let^ _ := when (negb (key_valid key)) (PHInvalid "peer public key is invalid") in
  let^ capabilities := checked (normalize_allowlist (pr_allowed_capabilities r) "capability") in
  let^ labels := checked (normalize_allowlist (pr_allowed_data_labels r) "data label") in
  let^ capabilities_json := encode (names_to_string capabilities) in
  let^ labels_json := encode (names_to_string labels) in
  let row := mkHostRow (pr_endpoint r) (pr_inference_endpoint r) (to_ascii_lowercase (pr_public_key_hex r))
               (hex_encode (sha256_bytes key)) capabilities_json labels_json (pr_actor r) (pr_now r) true in
  let^ _ := call PHDb (put_host (pr_peer_id r) row) in
  ok row.

Definition deactivate (peer : string) (now : Z) : act Paired DbError bool := λ s,
  match ph_hosts s !! peer with
  | Some h =>
      if ho_active h
      then (Ok true, set_hosts <[peer := mkHostRow (ho_endpoint h) (ho_inference_endpoint h) (ho_public_key_hex h)
             (ho_key_fingerprint_sha256 h) (ho_allowed_capabilities_json h) (ho_allowed_data_labels_json h)
             (ho_paired_by h) now false]> s)
      else (Ok false, s)
  | None => (Ok false, s)
  end.

Definition revoke_peer (peer actor_trust : string) (now : Z) : host_op bool :=
  let^ _ := when (negb (String.eqb actor_trust "Controller")) ControllerRequired in
  call PHDb (deactivate peer now).

(** [SELECT .. WHERE peer_id=?1 AND active=1] *)
Definition active_row (peer : string) (s : Paired) : option HostRow :=
  match ph_hosts s !! peer with Some h => if ho_active h then Some h else None | None => None end.

Definition active_peer_policy (peer : string) : host_op (string * list string * list string) :=
  let^ row := peek (active_row peer) in
  match row with
  | None => fail (Unpaired peer)
  | Some h =>
      match names_from_str (ho_allowed_capabilities_json h) with
      | None => fail (PHInvalid "stored capability ceiling")
      | Some capabilities =>
          match names_from_str (ho_allowed_data_labels_json h) with
          | None => fail (PHInvalid "stored label ceiling")
          | Some labels => ok (ho_public_key_hex h, capabilities, labels)
          end
      end
  end.

Definition task_of_row (task_id : string) (r : TaskRow) : result PairedHostError (DelegatedHostTask V) :=
  match value_from_str (tr_task_json r), names_from_str (tr_authority_json r),
        names_from_str (tr_data_labels_json r), files_from_str (tr_artifacts_json r) with
  | Some task, Some capabilities, Some labels, Some artifacts =>
      Ok (mkTask task_id (tr_peer_id r) task capabilities labels (tr_status r) artifacts (tr_created_at r) (tr_updated_at r))
  | _, _, _, _ => invalid "serde_json"
  end.

Definition task (task_id : string) : host_op (option (DelegatedHostTask V)) :=
  let^ row := peek (λ s, ph_tasks s !! task_id) in
  match row with
  | None => ok None
  | Some r => match task_of_row task_id r with Ok t => ok (Some t) | Err e => fail e end
  end.

Definition required_task (task_id : string) : host_op (DelegatedHostTask V) :=
  let^ t := task task_id in
  match t with Some t => ok t | None => fail (TaskNotFound task_id) end.

(** [into_iter().filter(|requested| ceiling.contains(requested))] *)
Definition within (ceiling requested : list string) : list string :=
  List.filter (λ r, bool_decide (r ∈ ceiling)) requested.

Definition insert_task (task_id : string) (row : TaskRow) : act Paired DbError () := λ s,
  match ph_tasks s !! task_id with
  | Some _ => (Err constraint_failed, s)
  | None =>
      match ph_hosts s !! tr_peer_id row with
      | Some _ => (Ok (), set_tasks <[task_id := row]> s)
      | None => (Err foreign_key_failed, s)
      end
  end.

(** The transaction of [issue_signed_task]. *)
Definition issue_row (task_id : string) (row : TaskRow) : act Paired DbError () := λ s,
  match ph_tasks s !! task_id with
  | Some old =>
      if String.eqb (tr_peer_id old) (tr_peer_id row) && String.eqb (tr_task_json old) (tr_task_json row)
         && String.eqb (tr_authority_json old) (tr_authority_json row)
         && String.eqb (tr_data_labels_json old) (tr_data_labels_json row) && task_active (tr_status old)
      then (Ok (), s)
      else (Err (Invariant "task id was already used for a different or terminal delegation"), s)
  | None => insert_task task_id row s
  end.

Definition issue_signed_task (peer task_id : string) (value : V) (requested_capabilities requested_labels : list string)
    (identity : SigningKey) (now : Z) : host_op SignedDelegationEnvelope :=
  let^ _ := checked (validate_id task_id "task id" 128) in
  let^ _ := when (value_is_null value) (PHInvalid "task payload must not be null") in
  let^ task_json := encode (value_to_string value) in
  let^ _ := when (MAX_SIGNED_ENVELOPE_BYTES <? Z.of_nat (String.length task_json)) (PHInvalid "outbound task exceeds 256 KiB") in
  let^ policy := active_peer_policy peer in
  let '(_, capability_ceiling, label_ceiling) := policy in
  let^ requested_capabilities := checked (normalize_allowlist requested_capabilities "capability") in
  let^ requested_labels := checked (normalize_allowlist requested_labels "data label") in
  let effective_capabilities := within capability_ceiling requested_capabilities in
  let effective_labels := within label_ceiling requested_labels in
  let^ payload := encode (envelope_to_vec (mkEnvelope task_id value effective_capabilities effective_labels)) in
  let signature_hex := hex_encode (ed_sign identity payload) in
  let^ authority_json := encode (names_to_string effective_capabilities) in
  let^ labels_json := encode (names_to_string effective_labels) in
  let^ _ := call PHDb (issue_row task_id (mkTaskRow peer task_json authority_json labels_json TPending "[]" now now)) in
  let^ row := peek (λ s, ph_hosts s !! peer) in
  match row with
  | Some h => if ho_active h then ok (mkSignedEnvelope (ho_endpoint h) payload signature_hex) else fail (Unpaired peer)
  | None => fail (Unpaired peer)
  end.

Definition receive_signed_task (peer : string) (payload : bytes) (signature_hex : string) (now : Z)
    : host_op (DelegatedHostTask V) :=
  let^ _ := when (MAX_SIGNED_ENVELOPE_BYTES <? Z.of_nat (length payload)) (PHInvalid "signed task exceeds 256 KiB") in
  let^ policy := active_peer_policy peer in
  let '(public_key, capabilities, allowed_labels) := policy in
  let^ _ := checked (verify_signature public_key payload signature_hex) in
  match envelope_from_slice payload with
  | None => fail (PHInvalid "signed task envelope")
  | Some envelope =>
      let^ _ := checked (validate_id (se_task_id envelope) "task id" 128) in
      let^ _ := when (value_is_null (se_task envelope)) (PHInvalid "task payload must not be null") in
      let^ requested_capabilities := checked (normalize_allowlist (se_requested_capabilities envelope) "capability") in
      let^ requested_labels := checked (normalize_allowlist (se_requested_data_labels envelope) "data label") in
      let effective_capabilities := within capabilities requested_capabilities in
      let effective_labels := within allowed_labels requested_labels in
      let^ task_json := encode (value_to_string (se_task envelope)) in
      let^ authority_json := encode (names_to_string effective_capabilities) in
      let^ labels_json := encode (names_to_string effective_labels) in
      let^ _ := call PHDb (insert_task (se_task_id envelope)
                  (mkTaskRow peer task_json authority_json labels_json TPending "[]" now now)) in
      ok (mkTask (se_task_id envelope) peer (se_task envelope) effective_capabilities effective_labels TPending [] now now)
  end.

Definition transition_allowed (current next : DelegatedHostTaskStatus) : bool :=
  match current, next with
  | TPending, TAccepted | TPending, TCancelled | TAccepted, TRunning | TAccepted, TCancelled
  | TRunning, TCancelled => true
  | _, _ => false
  end.

Definition with_status (next : DelegatedHostTaskStatus) (artifacts_json : string) (now : Z) (r : TaskRow) : TaskRow :=
  mkTaskRow (tr_peer_id r) (tr_task_json r) (tr_authority_json r) (tr_data_labels_json r) next artifacts_json
    (tr_created_at r) now.

(** [UPDATE delegated_host_tasks SET status=?1,updated_at=?2 WHERE task_id=?3] *)
Definition update_status (task_id : string) (next : DelegatedHostTaskStatus) (now : Z) : act Paired DbError () := λ s,
  (Ok (), set_tasks (alter (λ r, with_status next (tr_artifacts_json r) now r) task_id) s).

Definition transition_task (task_id : string) (next : DelegatedHostTaskStatus) (now : Z) : host_op () :=
  let^ current := required_task task_id in
  let^ _ := when (negb (transition_allowed (dt_status current) next))
              (PHInvalidTransition (task_status_str (dt_status current) +:+ " -> " +:+ task_status_str next)) in
  call PHDb (update_status task_id next now).

(** The transaction of [record_signed_result]. *)
Definition finish_task (task_id peer : string) (next : DelegatedHostTaskStatus) (artifacts_json : string) (now : Z)
    : act Paired DbError () := λ s,
  match ph_tasks s !! task_id with
  | Some r =>
      if String.eqb (tr_peer_id r) peer && task_active (tr_status r)
      then (Ok (), set_tasks <[task_id := with_status next artifacts_json now r]> s)
      else (Err (Invariant "task result raced with another state transition"), s)
  | None => (Err (Invariant "task result raced with another state transition"), s)
  end.

Fixpoint validate_artifacts (artifacts : list DelegatedHostArtifact) (allowed_labels : list string) : result PairedHostError () :=
  match artifacts with
  | [] => Ok ()
  | a :: artifacts =>
      match validate_artifact a allowed_labels with Err e => Err e | Ok _ => validate_artifacts artifacts allowed_labels end
  end.

Definition outcome_status (outcome : string) : option DelegatedHostTaskStatus :=
  if String.eqb outcome "completed" then Some TCompleted
  else if String.eqb outcome "failed" then Some TFailed else None.

Definition record_signed_result (peer : string) (payload : bytes) (signature_hex : string) (now : Z)
    : host_op (DelegatedHostTask V) :=
  let^ _ := when (MAX_SIGNED_ENVELOPE_BYTES <? Z.of_nat (length payload)) (PHInvalid "signed task result exceeds 256 KiB") in
  let^ policy := active_peer_policy peer in
  let '(public_key, _, _) := policy in
  let^ _ := checked (verify_signature public_key payload signature_hex) in
  match result_from_slice payload with
  | None => fail (PHInvalid "signed task result")
  | Some result =>
      let^ t := required_task (sr_task_id result) in
      let^ _ := when (negb (String.eqb (dt_peer_id t) peer) || negb (task_active (dt_status t)))
                  (PHInvalidTransition "result peer or task state mismatch") in
      match outcome_status (sr_outcome result) with
      | None => fail (PHInvalid "remote outcome must be completed or failed")
      | Some next =>
          let^ artifacts_json := encode (files_to_string (sr_artifacts result)) in
          let^ _ := checked (validate_artifacts (sr_artifacts result) (dt_effective_data_labels t)) in
          let^ _ := call PHDb (finish_task (sr_task_id result) peer next artifacts_json now) in
          required_task (sr_task_id result)
      end
  end.

(** ** Requests *)

Inductive HostRequest : Type :=
| PairHost (r : PairOperatorHostRequest)
| RevokePeer (peer actor_trust : string) (now : Z)
| IssueTask (peer task_id : string) (value : V) (capabilities labels : list string) (identity : SigningKey) (now : Z)
| ReceiveTask (peer : string) (payload : bytes) (signature_hex : string) (now : Z)
| TransitionTask (task_id : string) (next : DelegatedHostTaskStatus) (now : Z)
| RecordResult (peer : string) (payload : bytes) (signature_hex : string) (now : Z)
| ReadTask (task_id : string).

Definition host_serve (q : HostRequest) : host_op () :=
  match q with
  | PairHost r => let^ _ := pair_host r in ok ()
  | RevokePeer peer actor_trust now => let^ _ := revoke_peer peer actor_trust now in ok ()
  | IssueTask peer task_id value caps labels identity now =>
      let^ _ := issue_signed_task peer task_id value caps labels identity now in ok ()
  | ReceiveTask peer payload sig now => let^ _ := receive_signed_task peer payload sig now in ok ()
  | TransitionTask task_id next now => transition_task task_id next now
  | RecordResult peer payload sig now => let^ _ := record_signed_result peer payload sig now in ok ()
  | ReadTask task_id => let^ _ := task task_id in ok ()
  end.

End Paired.
