(* ===== verification/PairedSafety.v ===== *)
(** * Delegation stays within what a Controller paired

    Theorems about [PairedHosts]: whatever requests are served at the same
    time, a delegated task has no capability and no label beyond those a
    Controller allowed its host, its terms never change, and it ends only by a
    result signed with a key the Controller approved. *)

From Stdlib Require Import Strings.Ascii.
From stdpp Require Import relations.
From S2P Require Import Prelude Wire Text Outbound ServiceBase RunBase Procs EndpointPolicy PairedHosts.

Section Safety.
Context {V : Type} `{DelegationCodec V} `{!DelegationCodecLaws V} `{PairedUrl} `{PairedCrypto}.
Context (approved : PairOperatorHostRequest → Prop).

(** ** The invariant *)

(** What a Controller allowed a host. *)
Definition allowed_for (peer : string) (capabilities labels : list string) : Prop :=
  ∃ r, approved r ∧ pr_actor_trust r = "Controller" ∧ pr_peer_id r = peer ∧
    normalize_allowlist (pr_allowed_capabilities r) "capability" = Ok capabilities ∧
    normalize_allowlist (pr_allowed_data_labels r) "data label" = Ok labels.

(** The key a Controller approved for a host, as it is stored. *)
Definition approved_key (peer key_hex : string) : Prop :=
  ∃ r, approved r ∧ pr_actor_trust r = "Controller" ∧ pr_peer_id r = peer ∧
    key_hex = to_ascii_lowercase (pr_public_key_hex r).

(** The networks of the operator: RFC 1918, loopback, link-local and the shared
    address space of carriers; ::1, fc00::/7 and fe80::/10. *)
Definition in_network (a low high : Z) : Prop := low ≤ a ≤ high.
Definition local_network (ip : IpAddr) : Prop :=
  match ip with
  | V4 a =>
      in_network a (quad 10 0 0 0) (quad 10 255 255 255) ∨ in_network a (quad 172 16 0 0) (quad 172 31 255 255) ∨
      in_network a (quad 192 168 0 0) (quad 192 168 255 255) ∨ in_network a (quad 127 0 0 0) (quad 127 255 255 255) ∨
      in_network a (quad 169 254 0 0) (quad 169 254 255 255) ∨ in_network a (quad 100 64 0 0) (quad 100 127 255 255)
  | V6 a =>
      a = 1 ∨ in_network a (252 * 2 ^ 120) (254 * 2 ^ 120 - 1) ∨ in_network a (1018 * 2 ^ 118) (1019 * 2 ^ 118 - 1)
  end.

(** An HTTPS address without credentials, query or fragment, whose host is an
    address of these networks or a name under localhost. *)
Definition local_endpoint (value : string) : Prop :=
  ∃ url host, purl_parse value = Some url ∧ purl_scheme url = "https" ∧ purl_username url = "" ∧
    purl_password url = None ∧ purl_query url = None ∧ purl_fragment url = None ∧ purl_host_str url = Some host ∧
    match parse_ip (to_ascii_lowercase host) with
    | Some ip => local_network ip
    | None => to_ascii_lowercase host = "localhost" ∨ ∃ name, to_ascii_lowercase host = name +:+ ".localhost"
    end.

Definition host_ok (peer : string) (h : HostRow) : Prop :=
  approved_key peer (ho_public_key_hex h) ∧
  local_endpoint (ho_endpoint h) ∧ local_endpoint (ho_inference_endpoint h) ∧
  (∃ capabilities labels, allowed_for peer capabilities labels ∧
     names_from_str (ho_allowed_capabilities_json h) = Some capabilities ∧
     names_from_str (ho_allowed_data_labels_json h) = Some labels).

(** Capabilities and labels within those of one pairing. *)
Definition confined (peer : string) (capabilities labels : list string) : Prop :=
  ∃ all_capabilities all_labels, allowed_for peer all_capabilities all_labels ∧
    (∀ x, x ∈ capabilities → x ∈ all_capabilities) ∧ (∀ x, x ∈ labels → x ∈ all_labels).

Definition files_ok (labels : list string) (files : list DelegatedHostArtifact) : Prop :=
  Forall (λ f, validate_artifact f labels = Ok ()) files.

(** A result of the task, signed with an approved key of its host: the
    signature, as Ed25519 verifies it, is on the bytes the result was read
    from. *)
Definition signed_result (tid peer : string) (status : DelegatedHostTaskStatus) : Prop :=
  ∃ key_hex key payload signature_hex signature result,
    approved_key peer key_hex ∧ hex_decode key_hex = Some key ∧ length key = 32%nat ∧ key_valid key = true ∧
    hex_decode signature_hex = Some signature ∧ length signature = 64%nat ∧
    ed_verify key payload signature = true ∧
    result_from_slice payload = Some result ∧ sr_task_id result = tid ∧
    ((sr_outcome result = "completed" ∧ status = TCompleted) ∨ (sr_outcome result = "failed" ∧ status = TFailed)).

Definition task_ok (tid : string) (t : TaskRow) : Prop :=
  ∃ capabilities labels,
    names_from_str (tr_authority_json t) = Some capabilities ∧ names_from_str (tr_data_labels_json t) = Some labels ∧
    confined (tr_peer_id t) capabilities labels ∧
    (tr_artifacts_json t = "[]" ∨ ∃ files, files_from_str (tr_artifacts_json t) = Some files ∧ files_ok labels files) ∧
    (tr_status t = TCompleted ∨ tr_status t = TFailed → signed_result tid (tr_peer_id t) (tr_status t)).

Definition paired_inv (s : Paired) : Prop :=
  (∀ peer h, ph_hosts s !! peer = Some h → host_ok peer h) ∧ (∀ tid t, ph_tasks s !! tid = Some t → task_ok tid t).

(** What nobody changes: a task, once there, keeps its terms. *)
Definition same_terms (t t' : TaskRow) : Prop :=
  tr_peer_id t' = tr_peer_id t ∧ tr_task_json t' = tr_task_json t ∧ tr_authority_json t' = tr_authority_json t ∧
  tr_data_labels_json t' = tr_data_labels_json t ∧ tr_created_at t' = tr_created_at t.

Definition terms_kept (s s' : Paired) : Prop :=
  ∀ tid t, ph_tasks s !! tid = Some t → ∃ t', ph_tasks s' !! tid = Some t' ∧ same_terms t t'.

#[local] Instance terms_kept_preorder : PreOrder terms_kept.
Proof.
  split.
  - intros s tid t Ht. exists t. by repeat split.
  - intros s1 s2 s3 H12 H23 tid t Ht. destruct (H12 tid t Ht) as (t2 & Ht2 & Hs2).
    destruct (H23 tid t2 Ht2) as (t3 & Ht3 & Hs3). exists t3. split; [done|]. unfold same_terms in *. naive_solver congruence.
Qed.

Lemma terms_kept_tasks s s' : ph_tasks s' = ph_tasks s → terms_kept s s'.
Proof. intros Heq tid t Ht. exists t. rewrite Heq. by repeat split. Qed.

(** The key of a host with an active task stays. *)
Definition key_kept (s s' : Paired) : Prop :=
  ∀ peer h tid t, ph_hosts s !! peer = Some h → ph_tasks s !! tid = Some t → tr_peer_id t = peer →
    tr_status t ∈ [TPending; TAccepted; TRunning] →
    ∃ h', ph_hosts s' !! peer = Some h' ∧ ho_public_key_hex h' = ho_public_key_hex h.

Lemma key_kept_hosts s s' : ph_hosts s' = ph_hosts s → key_kept s s'.
Proof. intros Heq peer h tid t Hh _ _ _. exists h. by rewrite Heq. Qed.

(** What each statement keeps. *)
Definition guar (s s' : Paired) : Prop := terms_kept s s' ∧ key_kept s s'.

#[local] Instance guar_refl : Reflexive guar.
Proof. intros s. split; [done|by apply key_kept_hosts]. Qed.

(** A fact that does not mention the state is stable. *)
Lemma stable_pure (P : Prop) : stable guar (λ _, P).
Proof. by intros s s' _. Qed.
#[local] Hint Resolve stable_pure : core.

(** ** Statements *)

(** A statement that fails or finds nothing changes nothing. *)
Ltac untouched := solve [cbn [snd]; split; [done || by split|reflexivity]].

Definition statement_ok {E A} (m : act Paired E A) : Prop :=
  ∀ s, paired_inv s → paired_inv (m s).2 ∧ guar s (m s).2.

Lemma busy_iff peer s :
  bool_decide (map_Exists (λ _ t, tr_peer_id t = peer ∧ task_active (tr_status t) = true) (ph_tasks s)) = true ↔
  ∃ tid t, ph_tasks s !! tid = Some t ∧ tr_peer_id t = peer ∧ tr_status t ∈ [TPending; TAccepted; TRunning].
Proof.
  assert (∀ st, task_active st = true ↔ st ∈ [TPending; TAccepted; TRunning]) as Hact.
  { intros st. rewrite !elem_of_cons, elem_of_nil. destruct st; cbn; intuition congruence. }
  rewrite bool_decide_eq_true. unfold map_Exists. by setoid_rewrite Hact.
Qed.

Lemma put_host_ok peer row : host_ok peer row → statement_ok (put_host peer row).
Proof.
  intros Hok s [Hh Ht]. unfold put_host. destruct (_ && _) eqn:Hguard; [untouched|].
  destruct ((sql_length _ =? 64) && _); [|untouched].
  split; [split; [|done]|split; [by apply terms_kept_tasks|]].
  - intros peer' h. cbn. intros [[<- <-]|[_ Hold]]%lookup_insert_Some; [done|by apply Hh].
  - intros peer' h tid t Hin Htask Hpeer Hact. cbn. destruct (decide (peer' = peer)) as [->|Hne].
    + rewrite lookup_insert_eq. exists row. split; [done|]. rewrite Hin in Hguard.
      rewrite (proj2 (busy_iff peer s)) in Hguard by eauto. rewrite andb_true_r in Hguard.
      by apply negb_false_iff, String.eqb_eq in Hguard.
    + rewrite lookup_insert_ne by done. by exists h.
Qed.

Lemma deactivate_ok peer now : statement_ok (deactivate peer now).
Proof.
  intros s [Hh Ht]. unfold deactivate. destruct (ph_hosts s !! peer) as [h|] eqn:Hp; [|untouched].
  destruct (ho_active h); [|untouched]. split; [split; [|done]|split; [by apply terms_kept_tasks|]].
  - intros peer' h'. cbn. intros [[<- <-]|[_ Hold]]%lookup_insert_Some; [by apply (Hh peer h)|by apply Hh].
  - intros peer' h' tid t Hin _ _ _. cbn. destruct (decide (peer' = peer)) as [->|Hne].
    + rewrite lookup_insert_eq. eexists. split; [done|]. cbn. congruence.
    + rewrite lookup_insert_ne by done. by exists h'.
Qed.

Lemma insert_task_ok tid row : task_ok tid row → statement_ok (insert_task tid row).
Proof.
  intros Hok s [Hh Ht]. unfold insert_task. destruct (ph_tasks s !! tid) as [old|] eqn:Hold; [untouched|].
  destruct (ph_hosts s !! _); [|untouched]. split; [|split; [|by apply key_kept_hosts]].
  - split; [done|]. intros tid' t. cbn. intros [[<- <-]|[_ Hin]]%lookup_insert_Some; [done|by apply Ht].
  - intros tid' t Hin. exists t. cbn. rewrite lookup_insert_ne by congruence. by repeat split.
Qed.

Lemma issue_row_ok tid row : task_ok tid row → statement_ok (issue_row tid row).
Proof.
  intros Hok s Hs. unfold issue_row. destruct (ph_tasks s !! tid); [case_match; untouched|]. by apply insert_task_ok.
Qed.

Lemma task_ok_status tid r next now :
  task_ok tid r → next ≠ TCompleted → next ≠ TFailed → task_ok tid (with_status next (tr_artifacts_json r) now r).
Proof. intros (caps & labels & Hc & Hl & Hconf & Hfiles & _) Hnc Hnf. exists caps, labels. cbn. naive_solver. Qed.

Lemma update_status_ok tid next now :
  next ≠ TCompleted → next ≠ TFailed → statement_ok (update_status tid next now).
Proof.
  intros Hc Hf s [Hh Ht]. unfold update_status. cbn. split; [|split; [|by apply key_kept_hosts]].
  - split; [done|]. intros tid' t. cbn. destruct (decide (tid' = tid)) as [->|Hne].
    + rewrite lookup_alter_eq. intros (r & Hr & ->)%fmap_Some. apply task_ok_status; [by apply Ht|done..].
    + rewrite lookup_alter_ne by done. apply Ht.
  - intros tid' t Hin. cbn. destruct (decide (tid' = tid)) as [->|Hne].
    + rewrite lookup_alter_eq, Hin. cbn. eexists. split; [done|]. by repeat split.
    + rewrite lookup_alter_ne by done. exists t. by repeat split.
Qed.

(** The labels a stored task carries. *)
Definition carries (tid : string) (labels : list string) (s : Paired) : Prop :=
  ∃ t, ph_tasks s !! tid = Some t ∧ names_from_str (tr_data_labels_json t) = Some labels.

Lemma carries_stable tid labels : stable guar (carries tid labels).
Proof.
  intros s s' [HR _] (t & Ht & Hl). destruct (HR tid t Ht) as (t' & Ht' & _ & _ & _ & Hsame & _).
  exists t'. split; [done|]. by rewrite Hsame.
Qed.
#[local] Hint Resolve carries_stable : core.

Lemma finish_task_ok tid peer next artifacts_json files labels now s :
  signed_result tid peer next → files_from_str artifacts_json = Some files → files_ok labels files →
  carries tid labels s → paired_inv s →
  paired_inv (finish_task tid peer next artifacts_json now s).2 ∧ guar s (finish_task tid peer next artifacts_json now s).2.
Proof.
  intros Hsig Hjson Hfiles (t & Ht & Hl) [Hh Hts]. unfold finish_task. rewrite Ht.
  destruct (_ && _) eqn:Hb; [|untouched]. apply andb_true_iff in Hb as [Hpeer%String.eqb_eq _].
  destruct (Hts tid t Ht) as (caps & labels' & Hc & Hl' & Hconf & _). simplify_eq.
  split; [|split; [|by apply key_kept_hosts]].
  - split; [done|]. intros tid' t'. cbn. intros [[<- <-]|[_ Hin]]%lookup_insert_Some; [|by apply Hts].
    exists caps, labels. cbn. split_and!; [done..| |].
    + right. by exists files.
    + done.
  - intros tid' t' Hin. cbn. destruct (decide (tid' = tid)) as [->|Hne].
    + rewrite lookup_insert_eq. eexists. split; [done|]. simplify_eq. by repeat split.
    + rewrite lookup_insert_ne by done. exists t'. by repeat split.
Qed.

(** ** Endpoints *)

Lemma ends_with_app s p : ends_with s p = true → ∃ name, s = name +:+ p.
Proof.
  unfold ends_with. rewrite andb_true_iff, Nat.leb_le, String.eqb_eq. revert p.
  induction s as [|c s IH]; intros p [Hle Heq]; cbn in Hle.
  - destruct p; [by exists ""|cbn in Hle; lia].
  - destruct (decide (String.length p = S (String.length s))) as [Hfull|Hpart].
    + cbn [String.length] in Heq. rewrite Hfull, Nat.sub_diag, <-Hfull in Heq. exists "".
      rewrite <-Heq. symmetry. apply substring_full. cbn. lia.
    + destruct (IH p) as [name ->].
      * split; [lia|]. replace (String.length (String c s) - String.length p)%nat
          with (S (String.length s - String.length p)) in Heq by (cbn; lia). exact Heq.
      * by exists (String c name).
Qed.

Lemma shiftr_bounds a n q : 0 ≤ n → Z.shiftr a n = q ↔ q * 2 ^ n ≤ a < (q + 1) * 2 ^ n.
Proof.
  intros Hn. rewrite Z.shiftr_div_pow2 by done. pose proof (Z.pow_pos_nonneg 2 n). split.
  - intros <-. pose proof (Z.div_mod a (2 ^ n)). pose proof (Z.mod_pos_bound a (2 ^ n)). nia.
  - intros. symmetry. apply (Z.div_unique_pos _ _ _ (a - q * 2 ^ n)); lia.
Qed.

Lemma local_ip_network ip : is_local_ip ip = true → local_network ip.
Proof.
  unfold local_network, in_network, quad. destruct ip as [a|a]; cbn [is_local_ip].
  - unfold is_local_ipv4. rewrite !orb_true_iff, !andb_true_iff, !Z.eqb_eq, !Z.leb_le.
    assert (∀ x, Z.land x 255 = x mod 256) as Hmod by (intros x; apply (Z.land_ones x 8); done).
    rewrite Hmod, !shiftr_bounds by done.
    rewrite Z.shiftr_div_pow2 by done. intros Ha. cbn in Ha. destruct_or? Ha; try lia. destruct Ha as [[? ?] ?].
    change (2 ^ 16) with 65536 in *. pose proof (Z.div_mod a 65536 ltac:(done)).
    pose proof (Z.mod_pos_bound a 65536 ltac:(done)). pose proof (Z.div_mod (a / 65536) 256 ltac:(done)). lia.
  - unfold is_local_ipv6. rewrite !orb_true_iff, !Z.eqb_eq, !shiftr_bounds by done. lia.
Qed.

Lemma endpoint_local value : validate_local_endpoint value = Ok () → local_endpoint value.
Proof.
  unfold validate_local_endpoint, local_endpoint. destruct (purl_parse value) as [url|]; [|done].
  destruct (_ || _) eqn:Hb; [done|]. rewrite !orb_false_iff, !negb_false_iff in Hb.
  destruct Hb as [[[[?%String.eqb_eq ?%String.eqb_eq] Hp] Hq] Hf].
  destruct (purl_host_str url) as [host|] eqn:Hhost; [|done]. unfold local_host.
  destruct (purl_password url) eqn:?, (purl_query url) eqn:?, (purl_fragment url) eqn:?; try done.
  destruct (parse_ip (to_ascii_lowercase host)) as [ip|] eqn:Hip; intros Hok; exists url, host;
    split_and!; try done; rewrite Hip.
  - apply local_ip_network. by destruct (is_local_ip ip).
  - destruct (String.eqb_spec (to_ascii_lowercase host) "localhost"); [by left|right].
    apply ends_with_app. by destruct (ends_with _ _).
Qed.

(** ** Signatures *)

Lemma verified_signature key_hex payload signature_hex :
  verify_signature key_hex payload signature_hex = Ok () →
  ∃ key signature, hex_decode key_hex = Some key ∧ length key = 32%nat ∧ key_valid key = true ∧
    hex_decode signature_hex = Some signature ∧ length signature = 64%nat ∧ ed_verify key payload signature = true.
Proof.
  unfold verify_signature, decode_hex. destruct (hex_decode key_hex) as [key|]; [|done].
  destruct (Nat.eqb_spec (length key) 32); [|done]. destruct (key_valid key) eqn:Hv; [|done].
  destruct (hex_decode signature_hex) as [sig|]; [|done]. destruct (Nat.eqb_spec (length sig) 64); [|done].
  cbn. destruct (ed_verify _ _ _) eqn:He; [|done]. intros _. by exists key, sig.
Qed.

Lemma outcome_status_iff o status :
  outcome_status o = Some status → (o = "completed" ∧ status = TCompleted) ∨ (o = "failed" ∧ status = TFailed).
Proof.
  unfold outcome_status. destruct (String.eqb_spec o "completed"); [intros [= <-]; by left|].
  destruct (String.eqb_spec o "failed"); [intros [= <-]; by right|done].
Qed.

(** ** Operations *)

Definition nothing {A} (_ : A) (_ : Paired) : Prop := True.
Definition fact {A} (P : A → Prop) (a : A) (_ : Paired) : Prop := P a.

Lemma stable_fact {A} (P : A → Prop) a : stable guar (fact P a).
Proof. apply stable_pure. Qed.
Lemma stable_nothing {A} (a : A) : stable guar (nothing a).
Proof. apply stable_pure. Qed.
#[local] Hint Resolve stable_fact stable_nothing : core.

Lemma spec_statement {A} Pre (m : act Paired DbError A) :
  statement_ok m → spec paired_inv guar Pre (call PHDb m) (on_ok nothing).
Proof.
  intros Hm. apply spec_call; [done|]. intros s Hs _. destruct (Hm s Hs) as [HI HR].
  split_and!; [done..|]. by destruct (m s).1.
Qed.

(** A check whose success is a fact. *)
Lemma spec_checked {A B} Pre (r : result PairedHostError A) (q : A → host_op B) Q :
  (∀ a, r = Ok a → spec paired_inv guar Pre (q a) (on_ok Q)) →
  spec paired_inv guar Pre (try_bind (checked r) q) (on_ok Q).
Proof. destruct r as [a|e]; intros Hq; [by apply Hq|done]. Qed.

Lemma spec_when {B} Pre b e (q : () → host_op B) Q :
  (b = false → spec paired_inv guar Pre (q ()) (on_ok Q)) →
  spec paired_inv guar Pre (try_bind (when b e) q) (on_ok Q).
Proof. destruct b; intros Hq; [done|by apply Hq]. Qed.

Lemma spec_encode {A B} Pre (o : option A) (q : A → host_op B) Q :
  (∀ a, o = Some a → spec paired_inv guar Pre (q a) (on_ok Q)) →
  spec paired_inv guar Pre (try_bind (encode o) q) (on_ok Q).
Proof. destruct o as [a|]; intros Hq; [by apply Hq|done]. Qed.

(** A precondition that does not mention the state is a hypothesis. *)
Lemma spec_extract {A B} (P : B → Prop) b (p : proc Paired A) Q :
  (P b → spec paired_inv guar (λ _, True) p Q) → spec paired_inv guar (fact P b) p Q.
Proof. destruct p as [r|X stmt k]; cbn; intros Hp s Hs HP; by apply Hp. Qed.

(** A policy that was read is one a Controller set. *)
Definition policy_ok (peer : string) (p : string * list string * list string) : Prop :=
  let '(key, capabilities, labels) := p in approved_key peer key ∧ allowed_for peer capabilities labels.

Lemma spec_policy Pre peer :
  spec paired_inv guar Pre (active_peer_policy peer) (on_ok (fact (policy_ok peer))).
Proof.
  eapply (spec_try _ _ _ _ _ (fact (λ o, match o with Some h => host_ok peer h | None => True end))).
  - apply spec_peek; [apply _|done|]. intros s [Hh _] _. unfold active_row, fact.
    destruct (ph_hosts s !! peer) as [h|] eqn:Hp; [|done]. destruct (ho_active h); [by apply Hh|done].
  - intros [h|]; [|done]. destruct (names_from_str (ho_allowed_capabilities_json h)) as [caps|] eqn:Hc; [|done].
    destruct (names_from_str (ho_allowed_data_labels_json h)) as [labels|] eqn:Hl; [|done].
    intros s _ (Hkey & _ & _ & caps' & labels' & Hall & Hc' & Hl'). cbn. unfold fact, policy_ok.
    simplify_eq. by split.
Qed.

Lemma spec_required_task Pre tid :
  spec paired_inv guar Pre (required_task (V:=V) tid) (on_ok (λ t, carries tid (dt_effective_data_labels t))).
Proof.
  unfold required_task, task.
  eapply (spec_try _ _ _ _ _ (λ o s, match o with Some t => carries tid (dt_effective_data_labels t) s | None => True end)).
  - eapply (spec_try _ _ _ _ _ (λ o s, match o with
        | Some r => ∀ labels, names_from_str (tr_data_labels_json r) = Some labels → carries tid labels s
        | None => True end)).
    + apply spec_peek; [apply _| |].
      * intros [r|]; [|by intros ?]. intros s s' HR Hc labels Hl. eapply carries_stable; eauto.
      * intros s _ _. destruct (ph_tasks s !! tid) as [r|] eqn:Hr; [|done]. intros labels Hl. by exists r.
    + intros [r|]; [|by intros s]. unfold task_of_row. destruct (value_from_str _); [|done].
      destruct (names_from_str (tr_authority_json r)); [|done].
      destruct (names_from_str (tr_data_labels_json r)) as [labels|]; [|done].
      destruct (files_from_str _); [|done]. intros s _ Hc. by apply Hc.
  - intros [t|]; [|done]. by intros s.
Qed.

Lemma within_spec x ceiling requested : x ∈ within ceiling requested → x ∈ ceiling.
Proof.
  intros Hin. unfold within in Hin. apply list_elem_of_In, filter_In in Hin as [_ Hb].
  by apply bool_decide_eq_true in Hb.
Qed.

(** A fresh task within the ceilings of its host. *)
Lemma fresh_task_ok tid peer task_json authority_json labels_json now caps labels all_caps all_labels requested requested_labels :
  allowed_for peer all_caps all_labels →
  caps = within all_caps requested → labels = within all_labels requested_labels →
  names_to_string caps = Some authority_json → names_to_string labels = Some labels_json →
  task_ok tid (mkTaskRow peer task_json authority_json labels_json TPending "[]" now now).
Proof.
  intros Hall -> -> Hc Hl. exists (within all_caps requested), (within all_labels requested_labels). cbn.
  split_and!; [by apply names_roundtrip..| |by left|by intros []].
  exists all_caps, all_labels. split_and!; [done|intros x; apply within_spec..].
Qed.

Lemma spec_pair r :
  (pr_actor_trust r = "Controller" → approved r) →
  spec paired_inv guar (λ _, True) (pair_host r) (on_ok nothing).
Proof.
  intros Happ. unfold pair_host. apply spec_when. intros Hc%negb_false_iff%String.eqb_eq. specialize (Happ Hc).
  apply spec_checked. intros _ _. apply spec_checked. intros _ _.
  apply spec_checked. intros [] Hep. apply spec_checked. intros [] Hinf. apply spec_checked. intros key Hkey.
  apply spec_when. intros _. apply spec_checked. intros caps Hcaps. apply spec_checked. intros labels Hlabels.
  apply spec_encode. intros cj Hcj. apply spec_encode. intros lj Hlj.
  eapply spec_try; [apply spec_statement, put_host_ok|by intros ? s].
  split_and!; [by exists r|by apply endpoint_local..|]. exists caps, labels. cbn. split_and!; [by exists r|by apply names_roundtrip..].
Qed.

Lemma spec_revoke peer trust now :
  spec paired_inv guar (λ _, True) (revoke_peer peer trust now) (on_ok nothing).
Proof. apply spec_when. intros _. apply spec_statement, deactivate_ok. Qed.

Lemma spec_issue peer tid (value : V) caps labels identity now :
  spec paired_inv guar (λ _, True) (issue_signed_task peer tid value caps labels identity now) (on_ok nothing).
Proof.
  unfold issue_signed_task. apply spec_checked. intros _ _. apply spec_when. intros _.
  apply spec_encode. intros tj Htj. apply spec_when. intros _.
  eapply spec_try; [apply spec_policy|]. intros [[key all_caps] all_labels]. apply spec_extract. intros [_ Hall].
  apply spec_checked. intros rc _. apply spec_checked. intros rl _.
  apply spec_encode. intros payload _. apply spec_encode. intros aj Haj. apply spec_encode. intros lj Hlj.
  eapply (spec_try _ _ _ _ _ nothing).
  - apply spec_call; [done|]. intros s Hs _.
    destruct (issue_row_ok tid (mkTaskRow peer tj aj lj TPending "[]" now now)
      (fresh_task_ok _ _ _ _ _ _ _ _ _ _ _ _ Hall eq_refl eq_refl Haj Hlj) s Hs) as [HI HR].
    split_and!; [done..|]. by destruct (issue_row _ _ s).1.
  - intros ?. eapply (spec_try _ _ _ _ _ nothing).
    + apply spec_peek; [apply _|done|done].
    + intros [h|]; [|by intros s]. destruct (ho_active h); by intros s.
Qed.

Lemma spec_receive peer payload sig now :
  spec paired_inv guar (λ _, True) (receive_signed_task (V:=V) peer payload sig now) (on_ok nothing).
Proof.
  unfold receive_signed_task. apply spec_when. intros _.
  eapply spec_try; [apply spec_policy|]. intros [[key all_caps] all_labels]. apply spec_extract. intros [_ Hall].
  apply spec_checked. intros _ _. destruct (envelope_from_slice payload) as [envelope|]; [|by intros s].
  apply spec_checked. intros _ _. apply spec_when. intros _.
  apply spec_checked. intros rc _. apply spec_checked. intros rl _.
  apply spec_encode. intros tj Htj. apply spec_encode. intros aj Haj. apply spec_encode. intros lj Hlj.
  eapply (spec_try _ _ _ _ _ nothing); [|by intros ? s].
  apply spec_call; [done|]. intros s Hs _.
  destruct (insert_task_ok (se_task_id envelope) (mkTaskRow peer tj aj lj TPending "[]" now now)
    (fresh_task_ok _ _ _ _ _ _ _ _ _ _ _ _ Hall eq_refl eq_refl Haj Hlj) s Hs) as [HI HR].
  split_and!; [done..|]. by destruct (insert_task _ _ s).1.
Qed.

Lemma spec_transition tid next now :
  spec paired_inv guar (λ _, True) (transition_task (V:=V) tid next now) (on_ok nothing).
Proof.
  unfold transition_task. eapply spec_try; [apply spec_required_task|]. intros t.
  apply spec_when. intros Hb%negb_false_iff.
  eapply spec_pre; [|apply spec_statement, update_status_ok]; [done|..];
    intros ->; by destruct (dt_status t).
Qed.

Lemma validate_artifacts_ok files labels : validate_artifacts files labels = Ok () → files_ok labels files.
Proof.
  induction files as [|f files IH]; cbn; [by constructor|].
  destruct (validate_artifact f labels) as [[]|] eqn:Hf; [|done]. intros Hv. constructor; [done|by apply IH].
Qed.

Lemma spec_record peer payload sig now :
  spec paired_inv guar (λ _, True) (record_signed_result (V:=V) peer payload sig now) (on_ok nothing).
Proof.
  unfold record_signed_result. apply spec_when. intros _.
  eapply spec_try; [apply spec_policy|]. intros [[key caps] labels]. apply spec_extract. intros [Hkey _].
  apply spec_checked. intros [] Hsig. destruct (result_from_slice payload) as [result|] eqn:Hres; [|by intros s].
  eapply spec_try; [apply spec_required_task|]. intros t. apply spec_when. intros Hb.
  destruct (outcome_status (sr_outcome result)) as [next|] eqn:Hnext; [|by intros s].
  apply spec_encode. intros aj Haj. apply spec_checked. intros [] Hfiles.
  assert (signed_result (sr_task_id result) peer next) as Hsr.
  { apply verified_signature in Hsig as (k & sg & ? & ? & ? & ? & ? & ?). exists key, k, payload, sig, sg, result.
    split_and!; try done. by apply outcome_status_iff. }
  eapply (spec_try _ _ _ _ _ nothing).
  - apply spec_call; [done|]. intros s Hs Hc.
    destruct (finish_task_ok (sr_task_id result) peer next aj (sr_artifacts result) (dt_effective_data_labels t) now s)
      as [HI HR]; try done; [by apply files_roundtrip|by apply validate_artifacts_ok|].
    split_and!; [done..|]. by destruct (finish_task _ _ _ _ _ s).1.
  - intros ?. eapply spec_post; [|apply spec_required_task]. by intros [].
Qed.

Lemma spec_task_read tid :
  spec paired_inv guar (λ _, True) (task (V:=V) tid) (on_ok nothing).
Proof.
  unfold task. eapply (spec_try _ _ _ _ _ nothing).
  - apply spec_peek; [apply _|done|done].
  - intros [r|]; [|by intros s]. destruct (task_of_row _ r); by intros s.
Qed.

Lemma spec_serve q :
  (∀ r, q = PairHost r → pr_actor_trust r = "Controller" → approved r) →
  spec paired_inv guar (λ _, True) (host_serve (V:=V) q) (λ _ _, True).
Proof.
  intros Happ. eapply (spec_post _ _ _ _ (on_ok nothing)); [done|].
  destruct q; cbn [host_serve]; try (eapply (spec_try _ _ _ _ _ nothing); [|by intros ? s]).
  - by apply spec_pair, Happ.
  - apply spec_revoke.
  - apply spec_issue.
  - apply spec_receive.
  - apply spec_transition.
  - apply spec_record.
  - apply spec_task_read.
Qed.

(** ** The store in use *)

(** Any requests; the pairings a Controller asks for are the approved ones. *)
Definition host_accepts (s : Paired) (p : host_op ()) : Prop :=
  ∃ q, p = host_serve (V:=V) q ∧ (∀ r, q = PairHost r → pr_actor_trust r = "Controller" → approved r).

Definition host_step := pool_step (λ s s' : Paired, s' = s) host_accepts.

Definition no_hosts : Paired := mkPaired ∅ ∅.

(** A configuration: the tables and the requests in flight. *)
Definition config : Type := Paired * list (host_op ()).
Definition inv_config (c : config) : Prop :=
  paired_inv c.1 ∧ Forall (going paired_inv guar c.1) c.2.

Lemma accepted_going s p : host_accepts s p → paired_inv s → going paired_inv guar s p.
Proof. intros (q & -> & Ha) _. by apply going_start, spec_serve. Qed.

Lemma nothing_spontaneous s s' : s' = s → paired_inv s → paired_inv s' ∧ guar s s'.
Proof. by intros ->. Qed.

Lemma host_step_ok c c' : host_step c c' → inv_config c → inv_config c' ∧ guar c.1 c'.1.
Proof.
  intros Hstep [Hi Hgo].
  destruct (pool_step_rely paired_inv guar _ _ _ nothing_spontaneous accepted_going c c' Hstep Hi Hgo) as (? & ? & ?).
  done.
Qed.

Lemma reached_config c c' : rtc host_step c c' → inv_config c → inv_config c' ∧ terms_kept c.1 c'.1.
Proof.
  induction 1 as [c|c c1 c2 Hstep _ IH]; intros Hi; [done|].
  destruct (host_step_ok _ _ Hstep Hi) as [Hi1 [Ht _]]. destruct (IH Hi1) as [? ?]. split; [done|by etrans].
Qed.

Lemma no_hosts_inv : inv_config (no_hosts, []).
Proof. split; [split; intros k x; cbn; by rewrite lookup_empty|by constructor]. Qed.

Lemma elem_of_normalized values field l x :
  normalize_allowlist values field = Ok l → x ∈ l ↔ x ∈ map trim values.
Proof.
  unfold normalize_allowlist. destruct (Nat.ltb _ _); [done|]. destruct (existsb _ _); [done|].
  intros [= <-]. by rewrite elem_of_dedup, elem_of_sort_strings.
Qed.

(** The labels of an accepted artifact are the task's. *)
Lemma artifact_labels f labels l : validate_artifact f labels = Ok () → l ∈ da_data_labels f → l ∈ labels.
Proof.
  unfold validate_artifact. destruct (validate_id _ _ _); [|done]. destruct (_ || existsb _ (da_data_labels f)) eqn:Hb; [done|].
  apply orb_false_iff in Hb as [_ Hb]. intros _ Hin. destruct (decide (l ∈ labels)) as [Hl|Hl]; [done|].
  apply existsb_False with (x := l) in Hb; [|done]. by rewrite bool_decide_eq_false_2 in Hb by done.
Qed.

(** C35: whatever requests are served at the same time, a delegated task has no
    capability and no data label that a Controller did not allow its host, its
    artifacts carry only labels of the task, its terms never change, and every
    paired host has local endpoints only: HTTPS addresses without credentials
    whose host is an address of a local network or a name under localhost. *)
Theorem delegation_confined c :
  rtc host_step (no_hosts, []) c →
  (∀ tid t d, ph_tasks c.1 !! tid = Some t → task_of_row (V:=V) tid t = Ok d →
     ∃ r, approved r ∧ pr_actor_trust r = "Controller" ∧ pr_peer_id r = dt_peer_id d ∧
       (∀ x, x ∈ dt_effective_capabilities d → x ∈ map trim (pr_allowed_capabilities r)) ∧
       (∀ x, x ∈ dt_effective_data_labels d → x ∈ map trim (pr_allowed_data_labels r)) ∧
       (∀ f x, f ∈ dt_artifacts d → x ∈ da_data_labels f → x ∈ dt_effective_data_labels d)) ∧
  (∀ peer h, ph_hosts c.1 !! peer = Some h →
     local_endpoint (ho_endpoint h) ∧ local_endpoint (ho_inference_endpoint h)) ∧
  (∀ c', rtc host_step c c' → terms_kept c.1 c'.1).
Proof.
  intros Hr. destruct (reached_config _ _ Hr no_hosts_inv) as [Hinv _]. pose proof Hinv as [[Hh Ht] _]. split_and!.
  - intros tid t d Hin Hd. destruct (Ht tid t Hin) as (caps & labels & Hc & Hl & Hconf & Hfiles & _).
    unfold task_of_row in Hd. rewrite Hc, Hl in Hd. destruct (value_from_str _); [|done].
    destruct (files_from_str (tr_artifacts_json t)) as [files|] eqn:Hf; [|done]. injection Hd as <-. cbn.
    destruct Hconf as (all_caps & all_labels & (r & Happ & Htrust & Hpeer & Hnc & Hnl) & Hcs & Hls).
    exists r. split_and!; [done..| | |].
    + intros x Hx%Hcs. by eapply elem_of_normalized in Hx.
    + intros x Hx%Hls. by eapply elem_of_normalized in Hx.
    + intros f x Hfin Hx. destruct Hfiles as [Hnone|(files' & Hfiles' & Hok)].
      * rewrite Hnone, no_files in Hf. injection Hf as <-. by apply elem_of_nil in Hfin.
      * simplify_eq. unfold files_ok in Hok. rewrite Forall_forall in Hok. by eapply artifact_labels, Hx; eauto.
  - intros peer h Hin. by destruct (Hh peer h Hin) as (_ & He & Hi & _).
  - intros c' Hc'. by apply reached_config.
Qed.

(** The moves of a delegated task that no result makes. *)
Inductive may_move : DelegatedHostTaskStatus → DelegatedHostTaskStatus → Prop :=
| move_accept : may_move TPending TAccepted
| move_start : may_move TAccepted TRunning
| move_cancel st : st ∈ [TPending; TAccepted; TRunning] → may_move st TCancelled.

Lemma transition_allowed_iff st next : transition_allowed st next = true ↔ may_move st next.
Proof.
  split.
  - destruct st, next; cbn; intros Ha; try discriminate Ha; constructor; by repeat constructor.
  - intros [| |st' Hin]; [done..|]. rewrite !elem_of_cons, elem_of_nil in Hin. by destruct Hin as [->|[->|[->|[]]]].
Qed.

(** A transition of a readable task, served alone. *)
Lemma transition_run tid next now s t d :
  ph_tasks s !! tid = Some t → task_of_row (V:=V) tid t = Ok d →
  (may_move (tr_status t) next →
     run_proc (transition_task (V:=V) tid next now) s
     = (Ok (), set_tasks <[tid := with_status next (tr_artifacts_json t) now t]> s)) ∧
  (¬ may_move (tr_status t) next →
     ∃ e, run_proc (transition_task (V:=V) tid next now) s = (Err e, s)).
Proof.
  intros Ht Hd. rewrite <-transition_allowed_iff. unfold transition_task, required_task, task.
  cbn. rewrite Ht. cbn. rewrite Hd. cbn.
  assert (dt_status d = tr_status t) as ->.
  { unfold task_of_row in Hd. by repeat case_match; simplify_eq. }
  destruct (transition_allowed (tr_status t) next); cbn; split; try done.
  - intros _. unfold update_status, set_tasks. do 2 f_equal. apply map_eq. intros k.
    destruct (decide (k = tid)) as [->|]; [by rewrite lookup_alter_eq, Ht, lookup_insert_eq|].
    by rewrite lookup_alter_ne, lookup_insert_ne.
  - intros _. by eexists.
Qed.

(** C36: whatever requests are served at the same time, a delegated task is
    completed or failed only by a result of exactly this task, whose bytes
    Ed25519 verifies under a key that a Controller approved for its host; no
    statement changes the key of a host that has an active task; and a
    transition served alone moves a task only from pending to accepted, from
    accepted to running or from an active status to cancelled, and is refused
    otherwise with nothing changed. *)
Theorem delegated_result_authentic c :
  rtc host_step (no_hosts, []) c →
  (∀ tid t, ph_tasks c.1 !! tid = Some t → tr_status t = TCompleted ∨ tr_status t = TFailed →
     signed_result tid (tr_peer_id t) (tr_status t)) ∧
  (∀ c' peer h tid t, host_step c c' → ph_hosts c.1 !! peer = Some h → ph_tasks c.1 !! tid = Some t →
     tr_peer_id t = peer → tr_status t ∈ [TPending; TAccepted; TRunning] →
     ∃ h', ph_hosts c'.1 !! peer = Some h' ∧ ho_public_key_hex h' = ho_public_key_hex h) ∧
  (∀ tid next now t d, ph_tasks c.1 !! tid = Some t → task_of_row (V:=V) tid t = Ok d →
     (may_move (tr_status t) next →
        run_proc (transition_task (V:=V) tid next now) c.1
        = (Ok (), set_tasks <[tid := with_status next (tr_artifacts_json t) now t]> c.1)) ∧
     (¬ may_move (tr_status t) next →
        ∃ e, run_proc (transition_task (V:=V) tid next now) c.1 = (Err e, c.1))).
Proof.
  intros Hr. destruct (reached_config _ _ Hr no_hosts_inv) as [Hinv _]. pose proof Hinv as [[_ Ht] _]. split_and!.
  - intros tid t Hin. by destruct (Ht tid t Hin) as (caps & labels & _ & _ & _ & _ & Hres).
  - intros c' peer h tid t Hstep. by apply (host_step_ok _ _ Hstep Hinv).
  - intros tid next now t d. apply transition_run.
Qed.
End Safety.

(** ** A concrete store *)

Definition toy_join (l : list string) : string := String.concat "," l.
Definition toy_split (s : string) : list string := if String.eqb s "" then [] else split_char ","%char s.

#[local] Instance toy_codec : DelegationCodec string := {|
  value_is_null v := String.eqb v "";
  value_to_string := Some;
  value_from_str := Some;
  names_to_string l := if decide (toy_split (toy_join l) = l) then Some (toy_join l) else None;
  names_from_str s := Some (toy_split s);
  files_to_string l := match l with [] => Some "[]" | _ => None end;
  files_from_str s := if String.eqb s "[]" then Some [] else None;
  envelope_to_vec _ := Some [];
  envelope_from_slice _ := Some (mkEnvelope "t1" "work" ["read"; "write"] ["public"]);
  result_from_slice _ := Some (mkTaskResult "t1" "completed" [])
|}.
#[local] Instance toy_codec_laws : DelegationCodecLaws string.
Proof.
  constructor; cbn.
  - intros l s. case_decide as Hl; [|done]. intros [= <-]. by rewrite Hl.
  - intros l s. destruct l; [|done]. by intros [= <-].
  - done.
Qed.
#[local] Instance toy_url : PairedUrl := {|
  PUrl := string;
  purl_parse := Some;
  purl_scheme _ := "https";
  purl_username _ := "";
  purl_password _ := None;
  purl_query _ := None;
  purl_fragment _ := None;
  purl_host_str := Some
|}.
#[local] Instance toy_crypto : PairedCrypto := {|
  SigningKey := ();
  hex_decode s := Some (as_bytes (String.substring 0 (String.length s / 2) s));
  hex_encode bs := String.string_of_list_byte (bs ++ bs);
  key_valid _ := true;
  ed_verify _ _ _ := true;
  ed_sign _ bs := bs;
  sha256_bytes bs := bs
|}.

Definition toy_zeros (n : nat) : string := String.string_of_list_ascii (repeat "0"%char n).
Definition toy_pairing : PairOperatorHostRequest :=
  mkPairRequest "peer" "10.0.0.7" "LocalHost" (toy_zeros 64) [" read "; "list"] ["public"] "Controller" "op" 1.
Definition toy_approved (r : PairOperatorHostRequest) : Prop := r = toy_pairing.
Definition toy_requests : list (HostRequest (V:=string)) :=
  [PairHost toy_pairing; ReceiveTask "peer" [] (toy_zeros 128) 2; TransitionTask "t1" TAccepted 3;
   TransitionTask "t1" TRunning 4; RecordResult "peer" [] (toy_zeros 128) 5].
Definition toy_pool : Paired * list (host_op ()) := (no_hosts, map host_serve toy_requests).
(** Pairing, receiving and accepting run alone; the second transition has read
    the task when the result is recorded, and writes after it. *)
Definition toy_recorded : Paired * list (host_op ()) :=
  run_schedule [0; 1; 1; 2; 2; 3; 4; 4; 4; 4]%nat toy_pool.
Definition toy_overwritten : Paired * list (host_op ()) := run_schedule [3]%nat toy_recorded.

Lemma toy_pool_reached : rtc (host_step (V:=string) toy_approved) (no_hosts, []) toy_pool.
Proof.
  assert (∀ l ps, Forall (λ q, ∀ r, q = PairHost r → pr_actor_trust r = "Controller" → toy_approved r) l →
    rtc (host_step (V:=string) toy_approved) (no_hosts, ps) (no_hosts, ps ++ map host_serve l)) as Hall.
  { intros l ps Hl. revert ps. induction Hl as [|q l Hq Hl IH]; intros ps; cbn; [by rewrite app_nil_r|].
    eapply rtc_l; [apply step_accept; by exists q|]. specialize (IH (ps ++ [host_serve q])). by rewrite <-app_assoc in IH. }
  apply (Hall toy_requests []). repeat constructor; intros r [= <-]; done.
Qed.

(** A result of a completed task is overwritten by a transition that had read
    the task before: the task is running again. *)
Lemma completed_task_revived :
  rtc (host_step (V:=string) toy_approved) (no_hosts, []) toy_recorded ∧
  rtc (host_step (V:=string) toy_approved) toy_recorded toy_overwritten ∧
  tr_status <$> ph_tasks toy_recorded.1 !! "t1" = Some TCompleted ∧
  tr_status <$> ph_tasks toy_overwritten.1 !! "t1" = Some TRunning.
Proof.
  split_and!.
  - etrans; [apply toy_pool_reached|apply run_schedule_steps].
  - apply run_schedule_steps.
  - vm_compute. reflexivity.
  - vm_compute. reflexivity.
Qed.

Definition toy_task : TaskRow := mkTaskRow "peer" "work" "read" "public" TCompleted "[]" 2 5.

Lemma delegation_confined_witness :
  ∃ r, toy_approved r ∧ "read" ∈ map trim (pr_allowed_capabilities r) ∧ local_endpoint "10.0.0.7".
Proof.
  destruct (delegation_confined toy_approved toy_recorded (proj1 completed_task_revived)) as (Htasks & Hhosts & _).
  destruct (Htasks "t1" toy_task (mkTask "t1" "peer" "work" ["read"] ["public"] TCompleted [] 2 5)
    ltac:(vm_compute; reflexivity) ltac:(vm_compute; reflexivity)) as (r & Happ & _ & _ & Hcaps & _).
  exists r. split; [exact Happ|]. split; [apply Hcaps; left|].
  exact (proj1 (Hhosts "peer" (mkHostRow "10.0.0.7" "LocalHost" (toy_zeros 64) (toy_zeros 64) "list,read" "public" "op" 1 true)
    ltac:(vm_compute; reflexivity))).
Defined.

Lemma delegated_result_authentic_witness : signed_result toy_approved "t1" "peer" TCompleted.
Proof.
  exact (proj1 (delegated_result_authentic (V:=string) toy_approved toy_recorded (proj1 completed_task_revived))
    "t1" toy_task ltac:(vm_compute; reflexivity) (or_introl eq_refl)).
Defined.
