(* ===== verification/Retention.v ===== *)
(** * History retention

    The sweepers that delete old events: [crates/core/src/event_retention.rs]
    under the policy of [retention.rs], and [ephemeral_sweeper.rs] for the
    threads with an expiry.  What they do to the tables of the event log, and
    what the log's own checks ([EventLog.verify_integrity]) say afterwards.

    [state_events] is referenced by other tables: with [ON DELETE CASCADE] by
    [state_tool_policy_decisions], whose trigger refuses the deletion, and
    without an action by [state_runs] and by the tables of [hs_references]. *)

From stdpp Require Import relations.
From S2P Require Import Prelude Wire Text EventKind EventHmac RunSchema Schema EventLog Chain ServiceBase.

(** ** Tables *)

(** The columns of [state_conversations] only the sweepers and the sidebar
    use, with their defaults. *)
Record ConvFlags : Type := mkFlags {
  cf_is_pinned : Z;
  cf_is_ephemeral : Z;
  cf_ephemeral_expires_at : option Z;
  cf_snapshot_blob : option bytes;
  cf_snapshot_seq : option Z
}.
Definition default_flags : ConvFlags := mkFlags 0 0 None None None.

(** [hs_search] holds the [(conversation_id, committed_at)] of the rows of the
    search projection; [hs_decisions] the events the policy decisions
    reference, [hs_references] those that [state_graphiti_jobs],
    [memory_jobs], [memory_evidence] and [state_memory_assertion_reviews] do,
    [hs_conversation_refs] the conversations referenced without a cascade. *)
Record History : Type := mkHistory {
  hs_db : Db;
  hs_flags : gmap string ConvFlags;
  hs_search : list (string * Z);
  hs_search_state : gmap string (Z * Z);
  hs_decisions : list (string * Z);
  hs_references : list (string * Z);
  hs_conversation_refs : list string;
  hs_retention_days : option Z
}.

Definition set_db (f : Db → Db) (h : History) : History :=
  mkHistory (f (hs_db h)) (hs_flags h) (hs_search h) (hs_search_state h) (hs_decisions h) (hs_references h)
    (hs_conversation_refs h) (hs_retention_days h).
Definition set_flags (f : gmap string ConvFlags → gmap string ConvFlags) (h : History) : History :=
  mkHistory (hs_db h) (f (hs_flags h)) (hs_search h) (hs_search_state h) (hs_decisions h) (hs_references h)
    (hs_conversation_refs h) (hs_retention_days h).
Definition set_search (p : string * Z → bool) (g : gmap string (Z * Z) → gmap string (Z * Z)) (h : History) : History :=
  mkHistory (hs_db h) (hs_flags h) (List.filter p (hs_search h)) (g (hs_search_state h)) (hs_decisions h)
    (hs_references h) (hs_conversation_refs h) (hs_retention_days h).

Definition flags_of (c : string) (h : History) : ConvFlags := default default_flags (hs_flags h !! c).

(** ** Deleting events *)

(** The event [k] is there and among those to delete. *)
Definition hit (p : string → EventRow → bool) (d : Db) (k : string * Z) : bool :=
  existsb (λ r, (ev_seq r =? k.2) && p k.1 r) (events_of k.1 d).
Definition run_input (r : RunRecord) : string * Z := (run_conversation_id r, run_input_event_seq r).
Definition keep_events (p : string → EventRow → bool) (m : gmap string (list EventRow)) : gmap string (list EventRow) :=
  map_imap (λ c l, Some (List.filter (λ r, negb (p c r)) l)) m.
Definition count_events (p : string → EventRow → bool) (m : gmap string (list EventRow)) : Z :=
  vec_len (concat (map (λ kl, List.filter (p kl.1) kl.2) (map_to_list m))).

(** [DELETE FROM state_events WHERE p], the number of rows. *)
Definition delete_events (p : string → EventRow → bool) : tx History Z := λ h,
  if existsb (hit p (hs_db h)) (hs_decisions h) then Err (Sqlite "tool policy decisions are append-only")
  else if existsb (hit p (hs_db h)) (map run_input (state_runs (hs_db h)) ++ hs_references h)
  then Err (Sqlite "FOREIGN KEY constraint failed")
  else Ok (count_events p (state_events (hs_db h)), set_db (set_events (keep_events p)) h).

(** ** The policy *)

Definition ALLOWED_RETENTION_DAYS : list Z := [30; 60; 90; 120].
Definition INFINITE_RETENTION : Z := 0.
Definition DEFAULT_RETENTION_DAYS : Z := 30.

Definition from_days (raw : Z) : Z :=
  if (raw =? INFINITE_RETENTION) || existsb (Z.eqb raw) ALLOWED_RETENTION_DAYS then raw else DEFAULT_RETENTION_DAYS.
Definition load_policy (h : History) : Z :=
  match hs_retention_days h with
  | Some n => if 0 <=? n then from_days (as_u32 n) else DEFAULT_RETENTION_DAYS
  | None => DEFAULT_RETENTION_DAYS
  end.
Definition is_infinite (days : Z) : bool := days =? INFINITE_RETENTION.

Definition i64_saturating_sub (a b : Z) : Z := Z.max i64_min (Z.min i64_max (a - b)).
Definition cutoff_at (now retention_secs : Z) : Z := Z.max 0 (i64_saturating_sub now retention_secs).
Definition cutoff_for_now (days now : Z) : option Z :=
  if is_infinite days then None else Some (cutoff_at now (days * 86400)).

(** ** The retention sweep *)

Record EventSweepReport : Type := mkEventReport { er_events_deleted : Z; er_conversations_deleted : Z }.

Definition eligible (h : History) (c : string) : bool :=
  bool_decide (is_Some (conversations (hs_db h) !! c))
  && (cf_is_pinned (flags_of c h) =? 0) && (cf_is_ephemeral (flags_of c h) =? 0).
Definition expired (cutoff : Z) (h : History) (c : string) (r : EventRow) : bool :=
  (ev_committed_at r <? cutoff) && eligible h c.
Definition abandoned (cutoff : Z) (h : History) (c : string) : bool :=
  eligible h c
  && match conversations (hs_db h) !! c with Some v => cv_last_activity_at v <? cutoff | None => false end
  && bool_decide (events_of c (hs_db h) = []).

Definition delete_search (cutoff : Z) : tx History () := λ h,
  Ok ((), set_search (λ s, negb ((s.2 <? cutoff) && eligible h s.1)) id h).
Definition delete_conversations (cutoff : Z) : tx History Z := λ h,
  if existsb (abandoned cutoff h) (hs_conversation_refs h) then Err (Sqlite "FOREIGN KEY constraint failed")
  else
    let kept {A} (m : gmap string A) : gmap string A := filter (λ kv, abandoned cutoff h kv.1 = false) m in
    Ok (Z.of_nat (size (conversations (hs_db h))) - Z.of_nat (size (kept (conversations (hs_db h)))),
        set_flags kept (set_db (set_conversations kept) h)).

(** Three statements under [with_conn]. *)
Definition sweep_once (now retention_secs : Z) : act History DbError EventSweepReport :=
  let cutoff := cutoff_at now retention_secs in
  let! _ := act_tx (delete_search cutoff) in
  let! n_events := act_tx (λ h, delete_events (expired cutoff h) h) in
  let! n_convs := act_tx (delete_conversations cutoff) in
  act_ret (mkEventReport n_events n_convs).

Definition sweep_now (static_retention : option Z) (now : Z) : act History DbError EventSweepReport :=
  match static_retention with
  | Some secs => sweep_once now secs
  | None =>
      let! days := act_get load_policy in
      if is_infinite days then act_ret (mkEventReport 0 0) else sweep_once now (days * 86400)
  end.

(** ** The ephemeral sweep *)

Record SweepReport : Type := mkSweepReport { sw_conversations_purged : Z; sw_events_deleted : Z }.

(** [ConversationStore::list_expired_ephemeral]; the query leaves the order
    open. *)
Definition is_due (now : Z) (h : History) (c : string) : bool :=
  (cf_is_ephemeral (flags_of c h) =? 1)
  && match cf_ephemeral_expires_at (flags_of c h) with Some t => t <=? now | None => false end.
Definition list_expired_ephemeral (now : Z) (h : History) : list string :=
  List.filter (is_due now h) (map fst (map_to_list (conversations (hs_db h)))).

Definition in_conversation (cid c : string) (_ : EventRow) : bool := String.eqb c cid.
Definition reset_conversation (cid : string) (h : History) : History :=
  set_flags (partial_alter (λ f, let f := default default_flags f in
                Some (mkFlags (cf_is_pinned f) (cf_is_ephemeral f) None None None)) cid)
    (set_db (set_conversations (alter (λ v, mkConversationCols 0 (cv_last_activity_at v) (cv_trust_class v)) cid)) h).

Definition purge_one (cid : string) : act History DbError Z :=
  act_tx (let* deleted := delete_events (in_conversation cid) in
          tx_modify (set_search (λ s, negb (String.eqb s.1 cid)) (delete cid)) ;;*
          tx_modify (reset_conversation cid) ;;*
          tx_ret deleted).

Fixpoint purge_all (due : list string) (report : SweepReport) : act History DbError SweepReport :=
  match due with
  | [] => act_ret report
  | cid :: due =>
      let! deleted := purge_one cid in
      purge_all due (mkSweepReport (sw_conversations_purged report + 1) (sw_events_deleted report + deleted))
  end.
Definition sweep_ephemeral (now : Z) : act History DbError SweepReport :=
  let! due := act_get (list_expired_ephemeral now) in purge_all due (mkSweepReport 0 0).

(** ** What a deletion leaves *)

Lemma events_kept p d c :
  events_of c (set_events (keep_events p) d) = List.filter (λ r, negb (p c r)) (events_of c d).
Proof. unfold events_of, keep_events. cbn. rewrite map_lookup_imap. by destruct (state_events d !! c). Qed.

Lemma rows_kept p d c :
  load_integrity_rows c (set_events (keep_events p) d) =
  map (load_row c) (List.filter (λ r, negb (p c r)) (events_of c d)).
Proof. unfold load_integrity_rows. by rewrite events_kept. Qed.

Lemma delete_events_ok p h n h' :
  delete_events p h = Ok (n, h') ↔
  Forall (λ k, hit p (hs_db h) k = false)
    (hs_decisions h ++ map run_input (state_runs (hs_db h)) ++ hs_references h) ∧
  n = count_events p (state_events (hs_db h)) ∧ h' = set_db (set_events (keep_events p)) h.
Proof.
  unfold delete_events. rewrite Forall_app.
  assert (∀ l, existsb (hit p (hs_db h)) l = false ↔ Forall (λ k, hit p (hs_db h) k = false) l) as Hex.
  { intros l. rewrite <-not_true_iff_false, existsb_exists, Forall_forall. setoid_rewrite <-not_true_iff_false.
    setoid_rewrite list_elem_of_In. naive_solver. }
  rewrite <-!Hex. destruct (existsb _ (hs_decisions h)); [naive_solver|].
  destruct (existsb _ _); [naive_solver|]. naive_solver.
Qed.

Lemma delete_events_stuck p h k :
  k ∈ hs_decisions h ++ map run_input (state_runs (hs_db h)) ++ hs_references h →
  hit p (hs_db h) k = true → ∃ e, delete_events p h = Err e.
Proof.
  intros Hk Hhit. destruct (delete_events p h) as [[n h']|e] eqn:Hd; [|by eauto].
  apply delete_events_ok in Hd as [Hall _]. rewrite Forall_forall in Hall. by rewrite (Hall k Hk) in Hhit.
Qed.

Lemma filter_length_strict {A} f (l : list A) x :
  x ∈ l → f x = false → (length (List.filter f l) < length l)%nat.
Proof.
  induction 1 as [x l|x y l Hx IH]; intros Hf; cbn.
  - rewrite Hf. pose proof (length_filter_le f l). lia.
  - specialize (IH Hf). destruct (f y); cbn; lia.
Qed.

(** ** The log after a deletion *)

Section Log.
Context {HM : Hmac} {HL : HmacLaws}.
Implicit Types (ring : KeyRing) (rows : list IntegrityRow).

Definition tampered {A} (r : result DbError A) : Prop := ∃ m, r = Err (TamperDetected m).

Lemma tampered_tamper {A} m : tampered (A := A) (Err (tamper m)).
Proof. by eexists. Qed.

Lemma tampered_or_ok_fixed_tag bs what :
  (∃ t, fixed_tag bs what = Ok t) ∨ tampered (fixed_tag bs what).
Proof. unfold fixed_tag. case_bool_decide; [left; eauto|right; by eexists]. Qed.

(** Whatever the checks reject they report as tampering. *)
Definition ok_or_tampered {A} (r : result DbError A) : Prop := is_ok r = true ∨ tampered r.

Lemma verify_reports ring ev t k : ok_or_tampered (verify (Some ring) ev t k).
Proof.
  unfold verify. destruct t as [t|]; [|by left]. destruct (key_for ring k); [|right; apply tampered_tamper].
  destruct (negb _); [right; apply tampered_tamper|]. destruct (verify_event _ _ _); [by left|right; apply tampered_tamper].
Qed.

Lemma verify_legacy_reports ring rows : ok_or_tampered (verify_legacy (Some ring) rows).
Proof.
  induction rows as [|row rows IH]; cbn [verify_legacy]; [by left|].
  destruct (verify_reports ring (ir_event row) (ir_tag row) (ir_key_id row)) as [Hv|[m Hv]];
    [|right; rewrite Hv; by eexists].
  destruct (verify _ _ _ _); done.
Qed.

Lemma verify_chain_reports ring c rows p s : ok_or_tampered (verify_chain ring c rows p s).
Proof.
  revert p s. induction rows as [|row rows IH]; intros p s; cbn [verify_chain]; [by left|].
  destruct (negb _); [right; apply tampered_tamper|].
  destruct (ir_prev_tag row) as [sp|]; [|right; apply tampered_tamper].
  destruct (tampered_or_ok_fixed_tag sp "event prev_tag") as [[t ->]|[m ->]]; [|right; by eexists].
  destruct (negb _); [right; apply tampered_tamper|].
  destruct (ir_tag row) as [tag|]; [|right; apply tampered_tamper].
  destruct (tampered_or_ok_fixed_tag tag "event tag") as [[t' ->]|[m ->]]; [|right; by eexists].
  destruct (key_for _ _); [|right; apply tampered_tamper].
  destruct (negb _); [right; apply tampered_tamper|apply IH].
Qed.

Lemma verify_integrity_reports ring c rows head : ok_or_tampered (verify_integrity (Some ring) c rows head).
Proof.
  unfold verify_integrity.
  destruct (verify_legacy_reports ring (List.filter (is_version 1) rows)) as [Hv|[m ->]]; [|right; by eexists].
  destruct (verify_legacy _ _) as [[]|]; [clear Hv|done].
  destruct head as [h|]; [|destruct (List.filter _ _); [by left|right; apply tampered_tamper]].
  destruct (_ <? 1); [right; apply tampered_tamper|].
  destruct (key_for ring (genesis_key_id h)) as [g|]; [|right; apply tampered_tamper].
  match goal with |- context [verify_chain ?r ?c ?l ?p ?s] =>
    destruct (verify_chain_reports r c l p s) as [Hv|[m ->]]; [|right; by eexists] end.
  destruct (verify_chain _ _ _ _ _) as [[p s]|]; [clear Hv|done].
  destruct (tampered_or_ok_fixed_tag (head_tag h) "integrity head") as [[t ->]|[m ->]]; [|right; by eexists].
  destruct (_ || _); [right; apply tampered_tamper|].
  destruct (key_for ring (head_key_id h)) as [k|]; [|right; apply tampered_tamper].
  destruct (tampered_or_ok_fixed_tag (checkpoint_tag h) "checkpoint tag") as [[t' ->]|[m ->]]; [|right; by eexists].
  destruct (negb _); [right; apply tampered_tamper|by left].
Qed.

(** A log has at most as many rows as its last sequence number. *)
Lemma log_length l : seqs_ok l → Z.of_nat (length l) ≤ last_ev_seq l.
Proof.
  induction l as [|r l IH] using rev_ind; [done|]. intros [Hasc Hall].
  rewrite last_ev_seq_snoc, length_app. cbn [length]. apply Forall_app in Hall as [Hall [[Hr _] _]%Forall_cons].
  assert (ascending l) as Hl.
  { intros i j x y Hij Hx Hy. apply (Hasc i j); [done|by apply lookup_app_l_Some..]. }
  pose proof (IH (conj Hl Hall)) as Hlen. unfold last_ev_seq in Hlen.
  rewrite Nat2Z.inj_add. destruct (last l) as [x|] eqn:Hlast; [|apply last_None in Hlast as ->; cbn; lia].
  enough (ev_seq x < ev_seq r) by lia. rewrite last_lookup in Hlast. pose proof (lookup_lt_Some _ _ _ Hlast).
  apply (Hasc (pred (length l)) (length l)); [lia|by apply lookup_app_l_Some|by apply list_lookup_middle].
Qed.

(** A verified log that loses a chained row no longer verifies under its
    head. *)
Lemma lost_row_detected ring c d p r :
  log_inv ring d c → r ∈ events_of c d → ev_integrity_version r = 2 → p c r = true →
  tampered (verify_integrity (Some ring) c (load_integrity_rows c (set_events (keep_events p) d))
              (load_integrity_head c d)).
Proof.
  intros Hinv Hr Hv2 Hp. rewrite rows_kept. set (rows' := map _ _).
  destruct (verify_integrity_reports ring c rows' (load_integrity_head c d)) as [Hok|Ht]; [|done].
  exfalso. destruct (verify_integrity (Some ring) c rows' (load_integrity_head c d)) as [[]|] eqn:Hver; [|done].
  unfold log_inv in Hinv. unfold load_integrity_head in Hver.
  assert (Hin : load_row c r ∈ v2_rows (load_integrity_rows c d)).
  { apply list_elem_of_In, filter_In. split; [|unfold is_version; cbn; by rewrite Hv2].
    apply in_map_iff. exists r. split; [done|by apply list_elem_of_In]. }
  destruct (integrity_heads d !! c) as [h|].
  - apply verify_integrity_Some in Hver. destruct Hinv as [Hseqs Hst Hhd Hvs Hver0].
    pose proof (log_length _ Hseqs) as Hlen. pose proof (last_ev_seq_range _ (proj2 Hseqs)) as Hrange.
    assert (fits_u64 (load_integrity_rows c d)) as Hfits.
    { unfold fits_u64, vec_len, load_integrity_rows. rewrite length_map. int_lia. }
    assert (length (v2_rows rows') < length (v2_rows (load_integrity_rows c d)))%nat as Hlt.
    { unfold v2_rows, rows', load_integrity_rows. rewrite !filter_map_comm, !length_map.
      rewrite filter_swap. apply (filter_length_strict _ _ r); [|by rewrite Hp].
      apply list_elem_of_In, filter_In. split; [by apply list_elem_of_In|]. unfold is_version. cbn. by rewrite Hv2. }
    destruct (vf_chain _ _ _ _ Hver0) as (s1 & Hc1 & He1). destruct (vf_chain _ _ _ _ Hver) as (s2 & Hc2 & He2).
    enough (length (v2_rows (load_integrity_rows c d)) = length (v2_rows rows')) by lia.
    eapply chain_length_unique; [|done| |exact Hc1|exact Hc2|congruence].
    + pose proof (vf_start _ _ _ _ Hver0). int_lia.
    + eapply fits_u64_sub; [exact Hfits|]. unfold rows', load_integrity_rows. rewrite !length_map.
      apply length_filter_le.
  - destruct Hinv as (_ & Hv1 & _). rewrite Forall_forall in Hv1. rewrite (Hv1 r Hr) in Hv2. done.
Qed.

(** A retention sweep that succeeded deleted what had expired. *)
Lemma sweep_once_ok now secs h rep h' :
  sweep_once now secs h = (Ok rep, h') →
  let cutoff := cutoff_at now secs in
  let h1 := set_search (λ s, negb ((s.2 <? cutoff) && eligible h s.1)) id h in
  ∃ h2, delete_events (expired cutoff h) h1 = Ok (er_events_deleted rep, h2) ∧
        delete_conversations cutoff h2 = Ok (er_conversations_deleted rep, h').
Proof.
  unfold sweep_once. cbv zeta. intros H. apply act_bind_ok in H as (u & h1 & H1 & H).
  apply act_tx_ok in H1 as [= _ <-]. apply act_bind_ok in H as (n & h2 & H2 & H).
  apply act_bind_ok in H as (m & h3 & H3 & H). unfold act_ret in H. simplify_eq.
  apply act_tx_ok in H2. apply act_tx_ok in H3. exists h2. split; [exact H2|exact H3].
Qed.

Lemma sweep_once_db now secs h rep h' :
  sweep_once now secs h = (Ok rep, h') →
  ∃ cs, hs_db h' = set_conversations cs (set_events (keep_events (expired (cutoff_at now secs) h)) (hs_db h)).
Proof.
  intros (h2 & (_ & _ & ->)%delete_events_ok & Hd)%sweep_once_ok. unfold delete_conversations in Hd.
  destruct (existsb _ _); [done|]. injection Hd as _ <-. cbn. by eexists.
Qed.

Lemma purge_one_db cid h n h' :
  purge_one cid h = (Ok n, h') →
  ∃ cs, hs_db h' = set_conversations cs (set_events (keep_events (in_conversation cid)) (hs_db h)).
Proof.
  unfold purge_one. intros (m & h1 & (_ & _ & ->)%delete_events_ok & H)%act_tx_ok%tx_bind_ok.
  unfold tx_bind, tx_modify, tx_ret in H. injection H as _ <-. cbn. by eexists.
Qed.

(** C25: what the sweepers delete the log reports as tampering.  Take a
    conversation whose log satisfies its invariant, so that it replays, and a
    chained event of it.  Once a retention sweep that found this event expired
    has succeeded, or the conversation has been purged, every replay of the
    conversation fails with [TamperDetected] and no event can be appended to
    it any more: both sweepers leave its integrity head behind. *)
Theorem swept_log_reads_tampered ring h c r h' :
  log_inv ring (hs_db h) c → r ∈ events_of c (hs_db h) → ev_integrity_version r = 2 →
  (∃ now secs rep, sweep_once now secs h = (Ok rep, h') ∧ expired (cutoff_at now secs) h c r = true) ∨
  (∃ n, purge_one c h = (Ok n, h')) →
  (∀ after, tampered (replay_since (Some ring) c after (hs_db h'))) ∧
  (∀ ev, er_conversation_id ev = c →
     ∃ m, append (Some ring) ev (hs_db h') = (Err (TamperDetected m), hs_db h')).
Proof.
  intros Hinv Hr Hv2 Hdel.
  assert (∃ p cs, p c r = true ∧ hs_db h' = set_conversations cs (set_events (keep_events p) (hs_db h)))
    as (p & cs & Hp & Hdb).
  { destruct Hdel as [(now & secs & rep & [cs Hs]%sweep_once_db & He)|(n & [cs Hs]%purge_one_db)].
    - by eexists _, cs.
    - eexists _, cs. split; [|exact Hs]. unfold in_conversation. by rewrite String.eqb_refl. }
  destruct (lost_row_detected ring c (hs_db h) p r Hinv Hr Hv2 Hp) as [m Hm].
  rewrite Hdb. split.
  - intros after. exists m. unfold replay_since.
    change (verify_integrity (Some ring) c (load_integrity_rows c (set_events (keep_events p) (hs_db h)))
              (load_integrity_head c (hs_db h)) = Err (TamperDetected m)) in Hm.
    cbv zeta. change (load_integrity_rows c (set_conversations cs (set_events (keep_events p) (hs_db h))))
      with (load_integrity_rows c (set_events (keep_events p) (hs_db h))).
    change (load_integrity_head c (set_conversations cs (set_events (keep_events p) (hs_db h))))
      with (load_integrity_head c (hs_db h)). by rewrite Hm.
  - intros ev <-. exists m. unfold append, transaction, append_tx, tx_bind, tx_get, tx_lift, current_head.
    unfold load_integrity_head in Hm |- *. cbn [integrity_heads set_conversations set_events].
    unfold log_inv in Hinv. destruct (integrity_heads (hs_db h) !! er_conversation_id ev) as [hd|].
    + change (load_integrity_rows (er_conversation_id ev) (set_conversations cs (set_events (keep_events p) (hs_db h))))
        with (load_integrity_rows (er_conversation_id ev) (set_events (keep_events p) (hs_db h))).
      by rewrite Hm.
    + destruct Hinv as (_ & Hv1 & _). rewrite Forall_forall in Hv1. by rewrite (Hv1 r Hr) in Hv2.
Qed.
End Log.

(** ** Events that are never deleted *)

Definition references (h : History) : list (string * Z) :=
  hs_decisions h ++ map run_input (state_runs (hs_db h)) ++ hs_references h.

(** A run, a policy decision or another row names the event [r] of [c]. *)
Definition referenced (h : History) (c : string) (r : EventRow) : Prop :=
  r ∈ events_of c (hs_db h) ∧ (c, ev_seq r) ∈ references h.

(** What the rest of the server does to these tables short of deleting the
    conversation: it adds rows, and re-signs events in place. *)
Definition grows (h h' : History) : Prop :=
  (∀ c r, r ∈ events_of c (hs_db h) →
     ∃ r', r' ∈ events_of c (hs_db h') ∧ ev_seq r' = ev_seq r ∧ ev_committed_at r' = ev_committed_at r) ∧
  (∀ k, k ∈ references h → k ∈ references h').

Inductive history_step (h : History) : History → Prop :=
| step_others h' : grows h h' → history_step h h'
| step_sweep secs now : history_step h (sweep_now secs now h).2
| step_ephemeral now : history_step h (sweep_ephemeral now h).2.

Lemma grows_refl h : grows h h.
Proof. split; [|done]. intros c r Hr. by exists r. Qed.
Lemma grows_trans h1 h2 h3 : grows h1 h2 → grows h2 h3 → grows h1 h3.
Proof.
  intros [He Hr] [He' Hr']. split; [|auto]. intros c r (r' & Hin & Hs & Ht)%He.
  destruct (He' c r' Hin) as (r2 & Hin2 & Hs2 & Ht2). exists r2. by rewrite Hs2, Ht2.
Qed.

(** [kept_event h c r h']: [r] is still there in [h'], and still referenced. *)
Definition kept_event (h : History) (c : string) (r : EventRow) (h' : History) : Prop :=
  referenced h c r → ∃ r', referenced h' c r' ∧ ev_seq r' = ev_seq r ∧ ev_committed_at r' = ev_committed_at r.

Lemma referenced_hit p h c r : referenced h c r → p c r = true → hit p (hs_db h) (c, ev_seq r) = true.
Proof.
  intros [Hr _] Hp. apply existsb_exists. exists r. cbn. rewrite Z.eqb_refl, Hp. split; [by apply list_elem_of_In|done].
Qed.

Lemma delete_events_keeps p h n h' c r :
  delete_events p h = Ok (n, h') → referenced h c r → referenced h' c r.
Proof.
  intros Hd Href. pose proof Href as [Hr Hin].
  destruct (p c r) eqn:Hp.
  - destruct (delete_events_stuck p h (c, ev_seq r)) as [e He]; [done|by apply referenced_hit|congruence].
  - apply delete_events_ok in Hd as (_ & _ & ->). split; [|done]. cbn. rewrite events_kept.
    apply list_elem_of_In, filter_In. split; [by apply list_elem_of_In|by rewrite Hp].
Qed.

Lemma sweep_once_keeps now secs h c r : referenced h c r → referenced (sweep_once now secs h).2 c r.
Proof.
  intros Href. unfold sweep_once, act_bind, act_tx, transaction, act_ret, delete_search. cbv zeta.
  set (h1 := set_search _ id h). assert (referenced h1 c r) as H1 by exact Href.
  destruct (delete_events _ h1) as [[n h2]|e] eqn:Hd; [|done].
  pose proof (delete_events_keeps _ _ _ _ _ _ Hd H1) as H2. unfold delete_conversations.
  destruct (existsb _ _); [done|]. exact H2.
Qed.

Lemma purge_one_keeps cid h c r : referenced h c r → referenced (purge_one cid h).2 c r.
Proof.
  intros Href. unfold purge_one, act_tx, transaction, tx_bind, tx_modify, tx_ret.
  destruct (delete_events _ h) as [[n h1]|e] eqn:Hd; [|done]. exact (delete_events_keeps _ _ _ _ _ _ Hd Href).
Qed.

Lemma purge_all_keeps due rep h c r : referenced h c r → referenced (purge_all due rep h).2 c r.
Proof.
  revert rep h. induction due as [|cid due IH]; intros rep h Href; cbn; [done|]. unfold act_bind.
  pose proof (purge_one_keeps cid h c r Href) as H1. destruct (purge_one cid h) as [[n|e] h1]; [by apply IH|done].
Qed.

Lemma history_keeps h h' c r :
  rtc history_step h h' → referenced h c r →
  ∃ r', referenced h' c r' ∧ ev_seq r' = ev_seq r ∧ ev_committed_at r' = ev_committed_at r.
Proof.
  intros Hrun. revert r. induction Hrun as [h|h h1 h2 Hstep _ IH]; intros r Href; [by exists r|].
  destruct Hstep as [h1 [He Hr]|[secs|] now|now].
  - destruct Href as [Hin Hk]. destruct (He c r Hin) as (r1 & Hin1 & Hs1 & Ht1).
    destruct (IH r1) as (r2 & H2 & Hs2 & Ht2); [split; [done|rewrite Hs1; auto]|].
    exists r2. by rewrite Hs2, Ht2.
  - by apply IH, sweep_once_keeps.
  - apply IH. cbn. unfold act_bind, act_get. destruct (is_infinite _); [done|by apply sweep_once_keeps].
  - apply IH. unfold sweep_ephemeral, act_bind, act_get. by apply purge_all_keeps.
Qed.

Lemma purge_all_stuck due rep h c r :
  referenced h c r → c ∈ due → ∃ e, (purge_all due rep h).1 = Err e.
Proof.
  revert rep h. induction due as [|cid due IH]; intros rep h Href Hin; [by apply elem_of_nil in Hin|]. cbn.
  unfold act_bind. pose proof (purge_one_keeps cid h c r Href) as Hkeep.
  destruct (purge_one cid h) as [[n|e] h1] eqn:Hp; [|by eauto]. apply IH; [done|].
  apply elem_of_cons in Hin as [->|Hin]; [|done]. exfalso.
  unfold purge_one in Hp. apply act_tx_ok, tx_bind_ok in Hp as (m & h2 & Hd & _).
  destruct (delete_events_stuck (in_conversation cid) h (cid, ev_seq r)) as [e He]; [apply Href| |congruence].
  apply referenced_hit; [done|]. unfold in_conversation. apply String.eqb_refl.
Qed.

(** C26: retention never deletes an event a run has started from, nor one a
    policy decision names.  Such an event stays through everything the sweepers
    and the rest of the server do, until somebody deletes the conversation, and
    once it has expired in a conversation that is neither pinned nor ephemeral, every retention sweep fails as a
    whole: it deletes no event and no conversation of anybody, while the rows
    of the search projection are already gone.  A conversation with such an
    event whose expiry has come makes every ephemeral sweep fail likewise. *)
Theorem referenced_never_swept h h' c r :
  referenced h c r → rtc history_step h h' →
  (∃ r', r' ∈ events_of c (hs_db h') ∧ ev_seq r' = ev_seq r ∧ ev_committed_at r' = ev_committed_at r) ∧
  (∀ now secs, eligible h' c = true → ev_committed_at r < cutoff_at now secs →
     ∃ e, sweep_once now secs h' =
       (Err e, set_search (λ s, negb ((s.2 <? cutoff_at now secs) && eligible h' s.1)) id h')) ∧
  (∀ now, c ∈ list_expired_ephemeral now h' → ∃ e, (sweep_ephemeral now h').1 = Err e).
Proof.
  intros Href Hrun. destruct (history_keeps h h' c r Hrun Href) as (r' & Href' & Hs & Ht). split_and!.
  - exists r'. split; [apply Href'|done].
  - intros now secs Hel Hlt. unfold sweep_once, act_bind, act_tx, transaction, delete_search. cbv zeta.
    set (h1 := set_search _ id h').
    destruct (delete_events_stuck (expired (cutoff_at now secs) h1) h1 (c, ev_seq r')) as [e ->].
    + apply Href'.
    + apply referenced_hit; [done|]. unfold expired. rewrite Ht. apply andb_true_iff. split; [lia|done].
    + by exists e.
  - intros now Hdue. unfold sweep_ephemeral, act_bind, act_get. by eapply purge_all_stuck.
Qed.

(** When nothing stands in its way a sweep deletes exactly what has expired:
    the old events of the conversations that are neither pinned nor ephemeral,
    and those of these conversations that are left without events and saw no
    recent activity. *)
Theorem retention_exact now secs h :
  let cutoff := cutoff_at now secs in
  let d := set_events (keep_events (expired cutoff h)) (hs_db h) in
  let gone c := abandoned cutoff (set_db (λ _, d) h) c in
  (∃ rep h', sweep_once now secs h = (Ok rep, h') ∧
     er_events_deleted rep = count_events (expired cutoff h) (state_events (hs_db h)) ∧
     (∀ c, events_of c (hs_db h') = List.filter (λ r, negb (expired cutoff h c r)) (events_of c (hs_db h))) ∧
     (∀ c, conversations (hs_db h') !! c = if gone c then None else conversations (hs_db h) !! c)) ↔
  Forall (λ k, hit (expired cutoff h) (hs_db h) k = false) (references h) ∧
  Forall (λ c, gone c = false) (hs_conversation_refs h).
Proof.
  cbv zeta. set (cutoff := cutoff_at now secs). set (h1 := set_search (λ s, negb ((s.2 <? cutoff) && eligible h s.1)) id h).
  set (h2 := set_db (set_events (keep_events (expired cutoff h))) h1).
  assert (∀ l, existsb (abandoned cutoff h2) l = false ↔ Forall (λ c, abandoned cutoff h2 c = false) l) as Hex.
  { intros l. rewrite <-not_true_iff_false, existsb_exists, Forall_forall. setoid_rewrite <-not_true_iff_false.
    setoid_rewrite list_elem_of_In. naive_solver. }
  split.
  - intros (rep & h' & (h3 & (Hd & _ & ->)%delete_events_ok & Hc)%sweep_once_ok & _). split; [exact Hd|].
    unfold delete_conversations in Hc. apply Hex. by destruct (existsb _ _).
  - intros [Hd Hc]. unfold sweep_once, act_bind, act_tx, transaction, delete_search, act_ret. cbv zeta.
    fold cutoff. fold h1. rewrite (proj2 (delete_events_ok (expired cutoff h1) h1 _ h2)) by done.
    assert (existsb (abandoned cutoff h2) (hs_conversation_refs h2) = false) as Hrefs by exact (proj2 (Hex _) Hc).
    unfold delete_conversations. rewrite Hrefs. eexists _, _. split; [done|].
    split_and!; [done| |]; intros c; cbn.
    + apply (events_kept (expired cutoff h)).
    + rewrite map_lookup_filter. destruct (conversations (hs_db h) !! c) as [v|]; cbn; [|by destruct (abandoned _ _ _)].
      change (abandoned cutoff (set_db (λ _, set_events (keep_events (expired cutoff h)) (hs_db h)) h) c)
        with (abandoned cutoff h2 c).
      destruct (abandoned cutoff h2 c) eqn:Ha; [by rewrite option_guard_False by congruence|by rewrite option_guard_True].
Qed.

(** ** A concrete history *)

#[local] Existing Instance toy_hmac.
#[local] Existing Instance toy_hmac_laws.

Definition toy_history (runs : list RunRecord) : History :=
  mkHistory (set_runs (λ _, runs) (set_conversations <["c" := mkConversationCols 1 1000 "Controller"]> toy_log))
    ∅ [("c", 1000)] ∅ [] [] [] (Some 30).
Definition toy_row : EventRow := default (mkEventRow 0 "" [] 0 None None 0 1 None) (head (events_of "c" toy_log)).
Definition toy_run : RunRecord := mkRun "r1" "c" None RunCompleted 0 1 1000 1001 None.

Lemma swept_log_reads_tampered_witness :
  ∃ h', sweep_once 10000 100 (toy_history []) = (Ok (mkEventReport 1 1), h') ∧
        tampered (replay_since (Some toy_ring) "c" 0 (hs_db h')).
Proof.
  eexists. split; [vm_compute; reflexivity|].
  match goal with |- tampered (replay_since _ _ _ (hs_db ?h')) => set (after := h') end.
  apply (swept_log_reads_tampered toy_ring (toy_history []) "c" toy_row after).
  - destruct (append_then_replay toy_ring (as_bytes "k") toy_event empty_db []) as (d' & Ha & _ & Hinv & _);
      [apply log_inv_empty|vm_compute; reflexivity..|vm_compute; discriminate|vm_compute; reflexivity|].
    eapply (same_log_inv toy_ring "c" toy_log); [done|]. unfold toy_log. by rewrite Ha.
  - apply list_elem_of_lookup. exists 0%nat. vm_compute. reflexivity.
  - vm_compute. reflexivity.
  - left. exists 10000, 100, (mkEventReport 1 1). split; vm_compute; reflexivity.
Defined.

Lemma referenced_never_swept_witness :
  ∃ e, sweep_once 10000 100 (toy_history [toy_run]) =
    (Err e, set_search (λ s, negb ((s.2 <? 9900) && eligible (toy_history [toy_run]) s.1)) id (toy_history [toy_run])).
Proof.
  apply (referenced_never_swept (toy_history [toy_run]) (toy_history [toy_run]) "c" toy_row).
  - split; [|by left]. apply list_elem_of_lookup. exists 0%nat. vm_compute. reflexivity.
  - reflexivity.
  - vm_compute. reflexivity.
  - vm_compute. reflexivity.
Defined.
