(* ===== verification/ToolPolicy.v ===== *)
(** * Who may call which tool

    The stores behind the tool gate: [crates/core/src/tool_access.rs] (one
    policy row per tool and its revisions), [safety_profiles.rs] (the task
    profiles and the snapshot a run is bound to) and [policy_simulation.rs]
    (the decisions taken, and previews of a policy on them).  A store's
    operation of several statements is a [proc]. *)

From stdpp Require Import sorting pretty.
From S2P Require Import Prelude Wire Text ServiceBase Procs AuthStores Policy.

(** serde_json on [Vec<String>]. *)
Class NameList : Type := {
  vec_to_string : list string → string;
  vec_from_str : string → option (list string)
}.
Class NameListLaws `{NameList} : Prop :=
  vec_round : ∀ l, vec_from_str (vec_to_string l) = Some l.

(** ** Tool access *)

Inductive ToolSource : Type := Builtin | Plugin | Mcp.

#[global] Instance ToolSource_eq_dec : EqDecision ToolSource.
Proof. solve_decision. Defined.

Definition source_str (s : ToolSource) : string :=
  match s with Builtin => "builtin" | Plugin => "plugin" | Mcp => "mcp" end.
Definition source_parse (s : string) : option ToolSource :=
  if String.eqb s "builtin" then Some Builtin
  else if String.eqb s "plugin" then Some Plugin
  else if String.eqb s "mcp" then Some Mcp
  else None.

(** [config_tool_access], primary key [tool_name]. *)
Record AccessRow : Type := mkAccessRow {
  ac_source : string;
  ac_source_id : option string;
  ac_enabled : Z;
  ac_allowed_classes : string;
  ac_description : option string;
  ac_input_schema : option string;
  ac_first_seen_at : Z;
  ac_last_seen_at : Z;
  ac_removed_at : option Z
}.

(** [config_tool_access_policy_revisions], primary key [revision_id]
    (autoincrement). *)
Record RevisionRow : Type := mkRevisionRow {
  rv_tool_name : string;
  rv_enabled : Z;
  rv_allowed_classes_json : string;
  rv_revised_by : string;
  rv_revised_at : Z;
  rv_rollback_of : option Z
}.

(** What the store hands out. *)
Record ToolAccessRow : Type := mkToolAccessRow {
  ta_tool_name : string;
  ta_source : ToolSource;
  ta_source_id : option string;
  ta_enabled : bool;
  ta_allowed_classes : list string;
  ta_description : option string;
  ta_input_schema : option string;
  ta_first_seen_at : Z;
  ta_last_seen_at : Z;
  ta_removed_at : option Z
}.

Record ToolAccessPolicyRevision : Type := mkPolicyRevision {
  tr_revision_id : Z;
  tr_tool_name : string;
  tr_enabled : bool;
  tr_allowed_classes : list string;
  tr_revised_by : string;
  tr_revised_at : Z;
  tr_rollback_of : option Z
}.

Record ToolAccessSeed : Type := mkSeed {
  sd_tool_name : string;
  sd_source : ToolSource;
  sd_source_id : option string;
  sd_description : option string;
  sd_input_schema : option string;
  sd_default_allowed_classes : list string
}.

(** ** Safety profiles *)

Inductive SafetyProfileId : Type := InspectOnly | WorkspaceEdit | ApprovedIntegration.

#[global] Instance SafetyProfileId_eq_dec : EqDecision SafetyProfileId.
Proof. solve_decision. Defined.

Definition profile_str (p : SafetyProfileId) : string :=
  match p with
  | InspectOnly => "inspect_only"
  | WorkspaceEdit => "workspace_edit"
  | ApprovedIntegration => "approved_integration"
  end.
Definition profile_parse (s : string) : option SafetyProfileId :=
  if String.eqb s "inspect_only" then Some InspectOnly
  else if String.eqb s "workspace_edit" then Some WorkspaceEdit
  else if String.eqb s "approved_integration" then Some ApprovedIntegration
  else None.

Record SafetyCapabilities : Type := mkCapabilities {
  sc_data_read : bool;
  sc_workspace_read : bool;
  sc_workspace_write : bool;
  sc_workspace_process : bool;
  sc_approved_integration : bool;
  sc_approved_network : bool;
  sc_brokered_secret_use : bool;
  sc_approved_destinations : bool
}.

#[global] Instance SafetyCapabilities_eq_dec : EqDecision SafetyCapabilities.
Proof. solve_decision. Defined.

Definition for_profile (p : SafetyProfileId) : SafetyCapabilities :=
  match p with
  | InspectOnly => mkCapabilities true true false false false false false false
  | WorkspaceEdit => mkCapabilities true true true true false false false false
  | ApprovedIntegration => mkCapabilities true true false false true true true true
  end.

Definition profile_capability_names (c : SafetyCapabilities) : list string :=
  map snd (List.filter fst
    [(sc_data_read c, "data.read"); (sc_workspace_read c, "workspace.read");
     (sc_workspace_write c, "workspace.write"); (sc_workspace_process c, "workspace.process");
     (sc_approved_integration c, "integration.approved"); (sc_approved_network c, "network.approved");
     (sc_brokered_secret_use c, "secret.brokered"); (sc_approved_destinations c, "destination.approved")]).

Definition allows_declared_capability (c : SafetyCapabilities) (capability : string) : bool :=
  if String.eqb capability "workspace.read" then sc_workspace_read c
  else if String.eqb capability "workspace.write" then sc_workspace_write c
  else if String.eqb capability "workspace.process" then sc_workspace_process c
  else if String.eqb capability "integration.approved" then sc_approved_integration c
  else if String.eqb capability "network.approved" then sc_approved_network c
  else if String.eqb capability "secret.brokered" then sc_brokered_secret_use c
  else if String.eqb capability "destination.approved" then sc_approved_destinations c
  else if String.eqb capability "data.read" then sc_data_read c
  else false.

Definition capability_allowed (c : SafetyCapabilities) (capability : Capability) (explicitly_approved : bool) : bool :=
  match capability with
  | ConversationRead | TaskRead | ScheduleRead | ResearchRead => sc_data_read c
  | MemoryRead => sc_brokered_secret_use c && explicitly_approved
  | WebFetch | Search | ResearchSpawn => sc_approved_network c && explicitly_approved
  | Transport | Notify | AttachmentSend => sc_approved_destinations c && explicitly_approved
  | McpAdmin | SubagentSpawn => sc_approved_integration c && explicitly_approved
  | ConversationWrite | MemoryWrite | TaskWrite | ScheduleWrite => false
  end.

Record SafetyProfile : Type := mkProfile {
  sp_profile_id : SafetyProfileId;
  sp_display_name : string;
  sp_capabilities : SafetyCapabilities;
  sp_approved_tools : list string;
  sp_revision : Z;
  sp_updated_by : string;
  sp_updated_at : Z
}.

Record SafetyProfileSnapshot : Type := mkSnapshot {
  ss_profile_id : SafetyProfileId;
  ss_revision : Z;
  ss_capabilities : SafetyCapabilities;
  ss_approved_tools : list string
}.

#[global] Instance SafetyProfileSnapshot_eq_dec : EqDecision SafetyProfileSnapshot.
Proof. solve_decision. Defined.

Definition from_profile (p : SafetyProfile) : SafetyProfileSnapshot :=
  mkSnapshot (sp_profile_id p) (sp_revision p) (sp_capabilities p) (sp_approved_tools p).

Definition has_name (l : list string) (s : string) : bool := existsb (String.eqb s) l.

Definition profile_tool_approved (s : SafetyProfileSnapshot) (tool_name : string) : bool :=
  has_name (ss_approved_tools s) tool_name.

Definition DECLARED_CAPABILITIES : list string :=
  ["workspace.read"; "workspace.write"; "workspace.process"; "integration.approved"; "network.approved";
   "secret.brokered"; "destination.approved"; "data.read"].

Definition allows_plugin_tool (s : SafetyProfileSnapshot) (tool_name : string) (required : list string) : bool :=
  let explicitly_approved :=
    bool_decide (ss_profile_id s = ApprovedIntegration) && has_name (ss_approved_tools s) tool_name in
  match required with
  | [] => explicitly_approved
  | _ => forallb (λ capability,
           if has_name DECLARED_CAPABILITIES capability
           then allows_declared_capability (ss_capabilities s) capability
           else explicitly_approved) required
  end.

Definition is_nil {A} (l : list A) : bool := match l with [] => true | _ => false end.

Definition allows_builtin (s : SafetyProfileSnapshot) (tool_name : string) (capabilities : list Capability) : bool :=
  negb (is_nil capabilities)
  && forallb (λ c, capability_allowed (ss_capabilities s) c (profile_tool_approved s tool_name)) capabilities.

Definition allows_mcp_tool (s : SafetyProfileSnapshot) (tool_name : string) : bool :=
  bool_decide (ss_profile_id s = ApprovedIntegration)
  && sc_approved_integration (ss_capabilities s)
  && has_name (ss_approved_tools s) tool_name.

(** [config_safety_profiles], primary key [profile_id], and
    [config_safety_profile_revisions], primary key [(profile_id, revision)];
    both texts are JSON arrays. *)
Record ProfileRow : Type := mkProfileRow {
  pf_display_name : string;
  pf_capability_set_json : string;
  pf_approved_tools_json : string;
  pf_revision : Z;
  pf_updated_by : string;
  pf_updated_at : Z
}.
Record ProfileRevisionRow : Type := mkProfileRevision {
  pv_capability_set_json : string;
  pv_approved_tools_json : string;
  pv_saved_by : string;
  pv_saved_at : Z
}.

(** ** The registry of tools

    The tool maps of [crates/plugin-host/src/hook_registry.rs]; what changes
    them (loading schemas from disk, enabling plugins) is not modelled. *)

(** [ToolDescriptor] of [crates/core/src/tool.rs]; the schema as text. *)
Record ToolDescriptor : Type := mkDescriptor {
  dc_name : string;
  dc_description : string;
  dc_schema : string;
  dc_capabilities : list Capability;
  dc_default_allowed_classes : list string;
  dc_sensitive : bool
}.
Record RegisteredTool : Type := mkRegistered {
  rt_plugin_id : string;
  rt_tool_name : string;
  rt_latency : string;
  rt_required_capabilities : list string;
  rt_trust_floor : option string;
  rt_host_internal : bool
}.
Record Registry : Type := mkRegistry {
  rg_tools_by_name : gmap string RegisteredTool;
  rg_host_tools_by_name : gmap string RegisteredTool;
  rg_builtins_by_name : gmap string ToolDescriptor
}.

Definition tool (g : Registry) (name : string) : option RegisteredTool := rg_tools_by_name g !! name.
Definition host_tool (g : Registry) (name : string) : option RegisteredTool := rg_host_tools_by_name g !! name.
Definition builtin (g : Registry) (name : string) : option ToolDescriptor := rg_builtins_by_name g !! name.

(** A [BTreeMap]'s values in key order. *)
Definition name_le {A} (x y : string * A) : Prop := String.leb x.1 y.1 = true.
#[global] Instance name_le_dec {A} (x y : string * A) : Decision (name_le x y).
Proof. unfold name_le. apply _. Defined.
Definition values {A} (m : gmap string A) : list A := map snd (merge_sort name_le (map_to_list m)).

Definition unshadowed (g : Registry) : gmap string RegisteredTool :=
  filter (λ kv, rg_builtins_by_name g !! kv.1 = None) (rg_host_tools_by_name g).
Definition all_builtins (g : Registry) : list ToolDescriptor := values (rg_builtins_by_name g).
Definition all_tools (g : Registry) : list RegisteredTool :=
  values (rg_tools_by_name g) ++ values (unshadowed g).
Definition agent_callable_tools (g : Registry) : list RegisteredTool :=
  List.filter (λ t, negb (rt_host_internal t)) (all_tools g).

(** [trust_rank] of the plugin host and of [policy_simulation.rs]. *)
Definition trust_rank (value : string) : Z := match trust_parse value with Some t => rank t | None => 0 end.

(** ** Principals *)

(** [enum TrustLevel] of [crates/core/src/principal.rs]. *)
Inductive StoredTrustLevel : Type :=
| StController
| StDelegated (by_ : string) (scope : list string) (expires_at : option Z)
| StKnownTrusted (resolvers : list string) (approved_by : string) (approved_at : Z)
| StKnownLimited (resolvers allowed_topics : list string) (allowed_tools : option (list string))
| StUnknownPending (first_seen : Z) (notification_event_seq : option Z)
| StBlocked (blocked_by : string) (blocked_at : Z) (reason : option string).

#[global] Instance StoredTrustLevel_eq_dec : EqDecision StoredTrustLevel.
Proof. solve_decision. Defined.

Definition class_tag (t : StoredTrustLevel) : string :=
  match t with
  | StController => "Controller"
  | StDelegated _ _ _ => "Delegated"
  | StKnownTrusted _ _ _ => "KnownTrusted"
  | StKnownLimited _ _ _ => "KnownLimited"
  | StUnknownPending _ _ => "UnknownPending"
  | StBlocked _ _ _ => "Blocked"
  end.

(** The JSON columns of [principals] that [PrincipalStore::get] decodes. *)
Record PrincipalRow : Type := mkPrincipalRow {
  pn_identifiers_json : bytes;
  pn_trust_level_json : bytes;
  pn_resolved_by_json : bytes;
  pn_metadata_json : bytes
}.
Class PrincipalCodec : Type := {
  identifiers_readable : bytes → bool;
  trust_from_slice : bytes → option StoredTrustLevel;
  resolved_readable : bytes → bool;
  metadata_readable : bytes → bool
}.

(** ** Decisions *)

Inductive PolicyDecisionOutcome : Type := Allowed | Denied | ApprovalGated.

#[global] Instance PolicyDecisionOutcome_eq_dec : EqDecision PolicyDecisionOutcome.
Proof. solve_decision. Defined.

Definition outcome_str (o : PolicyDecisionOutcome) : string :=
  match o with Allowed => "allowed" | Denied => "denied" | ApprovalGated => "approval_gated" end.
Definition outcome_parse (s : string) : option PolicyDecisionOutcome :=
  if String.eqb s "allowed" then Some Allowed
  else if String.eqb s "denied" then Some Denied
  else if String.eqb s "approval_gated" then Some ApprovalGated
  else None.

Record NewToolPolicyDecision : Type := mkNewDecision {
  nd_run_id : string;
  nd_conversation_id : string;
  nd_input_event_seq : Z;
  nd_tool_name : string;
  nd_caller_trust : string;
  nd_trust_floor : option string;
  nd_required_capabilities : list string;
  nd_globally_enabled : bool;
  nd_allowed_classes : list string;
  nd_profile_id : option string;
  nd_profile_revision : option Z;
  nd_outcome : PolicyDecisionOutcome;
  nd_reason_code : string;
  nd_sensitive : bool;
  nd_external_effect : bool;
  nd_approval_required : bool;
  nd_decided_at : Z
}.

Record ToolPolicyDecision : Type := mkDecision {
  td_decision_id : string;
  td_decision : NewToolPolicyDecision;
  td_policy_revision : Z
}.

(** [state_tool_policy_decisions], primary key [decision_id]; its two JSON
    columns as text. *)
Record DecisionRow : Type := mkDecisionRow {
  dr_run_id : string;
  dr_conversation_id : string;
  dr_input_event_seq : Z;
  dr_tool_name : string;
  dr_caller_trust : string;
  dr_trust_floor : option string;
  dr_required_capabilities_json : string;
  dr_globally_enabled : Z;
  dr_allowed_classes_json : string;
  dr_profile_id : option string;
  dr_profile_revision : option Z;
  dr_outcome : string;
  dr_reason_code : string;
  dr_sensitive : Z;
  dr_external_effect : Z;
  dr_approval_required : Z;
  dr_policy_revision : Z;
  dr_decided_at : Z
}.

(** ** The state *)

(** An entry of the audit log: the actor, the table, the row and what was
    said of the row before and after. *)
Inductive PolicyAudit : Type :=
| AuditAccess (enabled : bool) (allowed_classes : list string) (rollback_of : option Z)
| AuditProfile (revision : Z) (approved_tools : list string).
Record AuditEntry : Type := mkAudit {
  au_ts : Z;
  au_actor : string;
  au_table : string;
  au_row_id : string;
  au_before : PolicyAudit;
  au_after : PolicyAudit
}.

(** [wd_events] are the payloads of [state_events] by primary key and
    [wd_controller] the core's [vault_secrets] row that names the Controller;
    [wd_clock] is what [Utc::now().timestamp()] reads. *)
Record World : Type := mkWorld {
  wd_clock : Z;
  wd_access : gmap string AccessRow;
  wd_revisions : gmap Z RevisionRow;
  wd_last_revision : Z;
  wd_profiles : gmap string ProfileRow;
  wd_profile_revisions : gmap (string * Z) ProfileRevisionRow;
  wd_decisions : gmap string DecisionRow;
  wd_events : gmap (string * Z) bytes;
  wd_principals : gmap string PrincipalRow;
  wd_users : gmap string UserRecord;
  wd_controller : option bytes;
  wd_registry : Registry;
  wd_audit : list AuditEntry
}.

Definition set_access (f : gmap string AccessRow → gmap string AccessRow) (s : World) : World :=
  mkWorld (wd_clock s) (f (wd_access s)) (wd_revisions s) (wd_last_revision s) (wd_profiles s) (wd_profile_revisions s)
    (wd_decisions s) (wd_events s) (wd_principals s) (wd_users s) (wd_controller s) (wd_registry s) (wd_audit s).
Definition set_revisions (r : gmap Z RevisionRow) (last : Z) (s : World) : World :=
  mkWorld (wd_clock s) (wd_access s) r last (wd_profiles s) (wd_profile_revisions s)
    (wd_decisions s) (wd_events s) (wd_principals s) (wd_users s) (wd_controller s) (wd_registry s) (wd_audit s).
Definition set_profiles (f : gmap string ProfileRow → gmap string ProfileRow)
    (g : gmap (string * Z) ProfileRevisionRow → gmap (string * Z) ProfileRevisionRow) (s : World) : World :=
  mkWorld (wd_clock s) (wd_access s) (wd_revisions s) (wd_last_revision s) (f (wd_profiles s)) (g (wd_profile_revisions s))
    (wd_decisions s) (wd_events s) (wd_principals s) (wd_users s) (wd_controller s) (wd_registry s) (wd_audit s).
Definition set_decisions (f : gmap string DecisionRow → gmap string DecisionRow) (s : World) : World :=
  mkWorld (wd_clock s) (wd_access s) (wd_revisions s) (wd_last_revision s) (wd_profiles s) (wd_profile_revisions s)
    (f (wd_decisions s)) (wd_events s) (wd_principals s) (wd_users s) (wd_controller s) (wd_registry s) (wd_audit s).
Definition add_audit (e : AuditEntry) (s : World) : World :=
  mkWorld (wd_clock s) (wd_access s) (wd_revisions s) (wd_last_revision s) (wd_profiles s) (wd_profile_revisions s)
    (wd_decisions s) (wd_events s) (wd_principals s) (wd_users s) (wd_controller s) (wd_registry s) (wd_audit s ++ [e]).

Section Stores.
Context `{NameList}.

(** The profiles of migration 0073 and their first revisions; serde_json
    prints the texts the migration has. *)
Definition display_name (p : SafetyProfileId) : string :=
  match p with
  | InspectOnly => "Inspect only"
  | WorkspaceEdit => "Workspace edit"
  | ApprovedIntegration => "Approved integrations"
  end.
Definition seeded_texts (p : SafetyProfileId) : string * string :=
  (vec_to_string (profile_capability_names (for_profile p)), vec_to_string []).
Definition seeded_profiles : gmap string ProfileRow :=
  list_to_map (map (λ p, (profile_str p,
    mkProfileRow (display_name p) (seeded_texts p).1 (seeded_texts p).2 1 "system" 0))
    [InspectOnly; WorkspaceEdit; ApprovedIntegration]).
Definition seeded_profile_revisions : gmap (string * Z) ProfileRevisionRow :=
  list_to_map (map (λ p, ((profile_str p, 1), mkProfileRevision (seeded_texts p).1 (seeded_texts p).2 "system" 0))
    [InspectOnly; WorkspaceEdit; ApprovedIntegration]).

Definition store (E A : Type) : Type := proc World (result E A).
Definition stmt {A} (m : act World DbError A) : store DbError A := call id m.
Definition reading {E A} (f : World → result E A) : store E A := call id (λ s, (f s, s)).

(** ** The tool access store *)

(** [SELECT COALESCE(MAX(key), 0)] *)
Definition max_key {A} (m : gmap Z A) : Z :=
  match map fst (map_to_list m) with [] => 0 | k :: ks => foldr Z.max k ks end.

Definition latest_policy_revision_id (s : World) : Z := max_key (wd_revisions s).

Definition row_to_tool_access (name : string) (r : AccessRow) : option ToolAccessRow :=
  match source_parse (ac_source r) with
  | None => None
  | Some source =>
      Some (mkToolAccessRow name source (ac_source_id r) (negb (ac_enabled r =? 0))
              (default [] (vec_from_str (ac_allowed_classes r))) (ac_description r) (ac_input_schema r)
              (ac_first_seen_at r) (ac_last_seen_at r) (ac_removed_at r))
  end.

(** [get] turns any failure to read the row into [None]. *)
Definition get (tool_name : string) (s : World) : option ToolAccessRow :=
  match wd_access s !! tool_name with Some r => row_to_tool_access tool_name r | None => None end.

Definition bad_column : DbError := Sqlite "Conversion error from type Text".

Fixpoint collect {A B} (f : A → option B) (l : list A) : result DbError (list B) :=
  match l with
  | [] => Ok []
  | x :: l =>
      match f x with
      | None => Err bad_column
      | Some y => match collect f l with Ok ys => Ok (y :: ys) | Err e => Err e end
      end
  end.

(** [ORDER BY source ASC, tool_name ASC] *)
Definition access_le (x y : string * AccessRow) : Prop :=
  ac_source x.2 ≠ ac_source y.2 ∧ String.leb (ac_source x.2) (ac_source y.2) = true
  ∨ ac_source x.2 = ac_source y.2 ∧ String.leb x.1 y.1 = true.
#[global] Instance access_le_dec x y : Decision (access_le x y).
Proof. unfold access_le. apply _. Defined.

Definition list_all (s : World) : result DbError (list ToolAccessRow) :=
  collect (λ kr, row_to_tool_access kr.1 kr.2) (merge_sort access_le (map_to_list (wd_access s))).

(** [INSERT INTO config_tool_access_policy_revisions]: the next id of the
    sequence, under [CHECK(enabled IN (0, 1))] and the foreign key. *)
Definition insert_revision (row : RevisionRow) : tx World () := λ s,
  if negb ((rv_enabled row =? 0) || (rv_enabled row =? 1)) then Err (Sqlite "CHECK constraint failed")
  else if match rv_rollback_of row with
          | Some r => bool_decide (wd_revisions s !! r = None) | None => false end
  then Err (Sqlite "FOREIGN KEY constraint failed")
  else if wd_last_revision s =? i64_max then Err (Sqlite "database or disk is full")
  else let next := wd_last_revision s + 1 in
       Ok ((), set_revisions (<[next := row]> (wd_revisions s)) next s).

(** The trigger [tool_access_initial_policy_revision] runs for a row that is
    inserted, not for one that is updated. *)
Definition upsert_seen (seed : ToolAccessSeed) (now : Z) : act World DbError () :=
  let allowed_json := vec_to_string (sd_default_allowed_classes seed) in
  act_tx (λ s,
    match wd_access s !! sd_tool_name seed with
    | Some r =>
        Ok ((), set_access <[sd_tool_name seed :=
          mkAccessRow (source_str (sd_source seed)) (sd_source_id seed) (ac_enabled r) (ac_allowed_classes r)
            (sd_description seed) (sd_input_schema seed) (ac_first_seen_at r) now None]> s)
    | None =>
        insert_revision (mkRevisionRow (sd_tool_name seed) 1 allowed_json "registration" now None)
          (set_access <[sd_tool_name seed :=
             mkAccessRow (source_str (sd_source seed)) (sd_source_id seed) 1 allowed_json
               (sd_description seed) (sd_input_schema seed) now now None]> s)
    end).

Definition set_removed (removed_at : option Z) (r : AccessRow) : AccessRow :=
  mkAccessRow (ac_source r) (ac_source_id r) (ac_enabled r) (ac_allowed_classes r) (ac_description r)
    (ac_input_schema r) (ac_first_seen_at r) (ac_last_seen_at r) removed_at.
Definition mark_removed (tool_name : string) (now : Z) : act World DbError bool := λ s,
  match wd_access s !! tool_name with
  | Some r =>
      match ac_removed_at r with
      | None => (Ok true, set_access <[tool_name := set_removed (Some now) r]> s)
      | Some _ => (Ok false, s)
      end
  | None => (Ok false, s)
  end.

Definition set_row_policy (enabled : Z) (allowed : string) (r : AccessRow) : AccessRow :=
  mkAccessRow (ac_source r) (ac_source_id r) enabled allowed (ac_description r)
    (ac_input_schema r) (ac_first_seen_at r) (ac_last_seen_at r) (ac_removed_at r).
Definition b2z (b : bool) : Z := if b then 1 else 0.

Definition set_policy_with_actor (tool_name : string) (enabled : bool) (allowed_classes : list string)
    (actor : string) (now : Z) (rollback_of : option Z) : act World DbError bool :=
  if blank actor || Nat.ltb 128 (String.length actor) then act_err (Invariant "policy revision actor is invalid")
  else
    let allowed_json := vec_to_string allowed_classes in
    act_tx (λ s,
      match wd_access s !! tool_name with
      | None => Ok (false, s)
      | Some r =>
          let r := set_row_policy (b2z enabled) allowed_json r in
          (insert_revision (mkRevisionRow tool_name (ac_enabled r) (ac_allowed_classes r) actor now rollback_of) ;;*
           tx_ret true) (set_access <[tool_name := r]> s)
      end).

Definition set_policy (tool_name : string) (enabled : bool) (allowed_classes : list string) : store DbError bool :=
  let^ now := peek wd_clock in
  stmt (set_policy_with_actor tool_name enabled allowed_classes "system" now None).

(** [ORDER BY revision_id DESC LIMIT] *)
Definition newer (x y : Z * RevisionRow) : Prop := y.1 ≤ x.1.
#[global] Instance newer_dec x y : Decision (newer x y).
Proof. unfold newer. apply _. Defined.
Definition clamp (lo hi n : nat) : nat := Nat.max lo (Nat.min hi n).

Definition row_to_revision (kr : Z * RevisionRow) : option ToolAccessPolicyRevision :=
  let '(id, r) := kr in
  match vec_from_str (rv_allowed_classes_json r) with
  | None => None
  | Some classes =>
      Some (mkPolicyRevision id (rv_tool_name r) (negb (rv_enabled r =? 0)) classes (rv_revised_by r)
              (rv_revised_at r) (rv_rollback_of r))
  end.
Definition policy_revisions (tool_name : string) (limit : nat) (s : World) : result DbError (list ToolAccessPolicyRevision) :=
  collect row_to_revision
    (firstn (clamp 1 100 limit)
       (merge_sort newer (List.filter (λ kr, String.eqb (rv_tool_name kr.2) tool_name) (map_to_list (wd_revisions s))))).

Definition find_revision (tool_name : string) (revision_id : Z) (s : World) : result DbError (option (bool * list string)) :=
  match wd_revisions s !! revision_id with
  | Some r =>
      if String.eqb (rv_tool_name r) tool_name
      then match vec_from_str (rv_allowed_classes_json r) with
           | Some classes => Ok (Some (negb (rv_enabled r =? 0), classes))
           | None => Err bad_column
           end
      else Ok None
  | None => Ok None
  end.

Definition rollback_policy_revision (tool_name : string) (revision_id : Z) (actor : string) (now : Z) : store DbError bool :=
  let^ revision := reading (find_revision tool_name revision_id) in
  match revision with
  | None => ok false
  | Some (enabled, allowed_classes) =>
      stmt (set_policy_with_actor tool_name enabled allowed_classes actor now (Some revision_id))
  end.

Definition owned_by (source : ToolSource) (source_id : option string) (r : AccessRow) : bool :=
  String.eqb (ac_source r) (source_str source) && bool_decide (ac_source_id r = source_id).
Definition delete_by_source (source : ToolSource) (source_id : option string) : act World DbError Z := λ s,
  let kept := filter (λ kv, owned_by source source_id kv.2 = false) (wd_access s) in
  (Ok (Z.of_nat (size (wd_access s)) - Z.of_nat (size kept)), set_access (λ _, kept) s).

(** ** The safety profile store *)

Inductive SafetyProfileError : Type :=
| SpDb (e : DbError)
| SpNotFound (id : string)
| SpInvalid (m : string)
| SpConflict.

Definition expected_capabilities (p : SafetyProfileId) : gset string :=
  list_to_set (profile_capability_names (for_profile p)).

Definition row_to_profile (id : string) (r : ProfileRow) : option SafetyProfile :=
  match profile_parse id, vec_from_str (pf_capability_set_json r) with
  | Some p, Some names =>
      if bool_decide ((list_to_set names : gset string) = expected_capabilities p) then
        match vec_from_str (pf_approved_tools_json r) with
        | Some tools =>
            Some (mkProfile p (pf_display_name r) (for_profile p) tools (pf_revision r) (pf_updated_by r) (pf_updated_at r))
        | None => None
        end
      else None
  | _, _ => None
  end.

Definition list_profiles (s : World) : result SafetyProfileError (list SafetyProfile) :=
  match collect (λ kr, row_to_profile kr.1 kr.2) (merge_sort name_le (map_to_list (wd_profiles s))) with
  | Ok l => Ok l
  | Err e => Err (SpDb e)
  end.

Definition get_profile (p : SafetyProfileId) (s : World) : result SafetyProfileError SafetyProfile :=
  match wd_profiles s !! profile_str p with
  | None => Err (SpNotFound (profile_str p))
  | Some r => match row_to_profile (profile_str p) r with Some sp => Ok sp | None => Err (SpDb bad_column) end
  end.

(** The loop over the names, with the set of those seen. *)
Fixpoint tools_unique (seen : list string) (l : list string) : bool :=
  match l with
  | [] => true
  | t :: l => negb (blank t || Nat.ltb 240 (String.length t) || has_name seen t) && tools_unique (t :: seen) l
  end.

Definition save_approved (p : SafetyProfileId) (approved_json actor : string) (now : Z) : tx World () := λ s,
  match wd_profiles s !! profile_str p with
  | None => Err no_rows
  | Some r =>
      let next := i64_add (pf_revision r) 1 in
      if negb (0 <? next) then Err (Sqlite "CHECK constraint failed")
      else if bool_decide (is_Some (wd_profile_revisions s !! (profile_str p, next))) then Err constraint_failed
      else Ok ((), set_profiles
        <[profile_str p := mkProfileRow (pf_display_name r) (pf_capability_set_json r) approved_json next actor now]>
        <[(profile_str p, next) := mkProfileRevision (pf_capability_set_json r) approved_json actor now]> s)
  end.

Definition set_approved_tools (p : SafetyProfileId) (tool_names : list string) (actor : string) (now : Z) :
    store SafetyProfileError SafetyProfile :=
  if blank actor || Nat.ltb 128 (String.length actor) then fail (SpInvalid "invalid Controller identity")
  else if negb (bool_decide (p = ApprovedIntegration))
  then fail (SpInvalid "only the approved-integration profile has a destination list")
  else if negb (tools_unique [] tool_names)
  then fail (SpInvalid "approved tools must be unique registered tool names of 1 to 240 bytes")
  else
    let^ _ := call SpDb (act_tx (save_approved p (vec_to_string (sort_strings tool_names)) actor now)) in
    reading (get_profile p).

Definition get_revision (p : SafetyProfileId) (revision : Z) (s : World) : result SafetyProfileError SafetyProfileSnapshot :=
  match wd_profile_revisions s !! (profile_str p, revision) with
  | None => Err (SpNotFound (profile_str p +:+ " revision " +:+ pretty revision))
  | Some r =>
      match vec_from_str (pv_capability_set_json r) with
      | None => Err (SpInvalid "serde_json")
      | Some names =>
          if bool_decide ((list_to_set names : gset string) = expected_capabilities p) then
            match vec_from_str (pv_approved_tools_json r) with
            | None => Err (SpInvalid "serde_json")
            | Some tools => Ok (mkSnapshot p revision (for_profile p) tools)
            end
          else Err (SpInvalid "stored profile capability revision is invalid")
      end
  end.

(** ** The decision store *)

Inductive PolicySimulationError : Type := PsDb (e : DbError) | PsInvalid (m : string).

Definition latest_for_tool (tool_name : string) (s : World) : Z :=
  max_key (filter (λ kr, rv_tool_name kr.2 = tool_name) (wd_revisions s)).

Definition decision_row (d : NewToolPolicyDecision) (policy_revision : Z) : DecisionRow :=
  mkDecisionRow (nd_run_id d) (nd_conversation_id d) (nd_input_event_seq d) (nd_tool_name d) (nd_caller_trust d)
    (nd_trust_floor d) (vec_to_string (nd_required_capabilities d)) (b2z (nd_globally_enabled d))
    (vec_to_string (nd_allowed_classes d)) (nd_profile_id d) (nd_profile_revision d) (outcome_str (nd_outcome d))
    (nd_reason_code d) (b2z (nd_sensitive d)) (b2z (nd_external_effect d)) (b2z (nd_approval_required d))
    policy_revision (nd_decided_at d).

(** [INSERT INTO state_tool_policy_decisions], under its checks and keys. *)
Definition insert_decision (id : string) (row : DecisionRow) : tx World () := λ s,
  if bool_decide (is_Some (wd_decisions s !! id)) then Err constraint_failed
  else if negb ((0 <? dr_input_event_seq row) && bool_decide (is_Some (trust_parse (dr_caller_trust row)))
                && (0 <=? dr_policy_revision row))
  then Err (Sqlite "CHECK constraint failed")
  else if bool_decide (wd_events s !! (dr_conversation_id row, dr_input_event_seq row) = None)
  then Err (Sqlite "FOREIGN KEY constraint failed")
  else Ok ((), set_decisions <[id := row]> s).

Definition decision_invalid (d : NewToolPolicyDecision) : bool :=
  blank (nd_run_id d) || blank (nd_conversation_id d) || (nd_input_event_seq d <=? 0) || blank (nd_tool_name d)
  || Nat.ltb 128 (String.length (nd_reason_code d)).

(** [id] is the UUID minted for the call. *)
Definition record (id : string) (d : NewToolPolicyDecision) : store PolicySimulationError string :=
  if decision_invalid d then fail (PsInvalid "required policy decision metadata is invalid")
  else
    let^ policy_revision := peek (latest_for_tool (nd_tool_name d)) in
    let^ _ := call PsDb (act_tx (insert_decision id (decision_row d policy_revision))) in
    ok id.

Definition row_to_decision (kr : string * DecisionRow) : option ToolPolicyDecision :=
  let '(id, r) := kr in
  match trust_parse (dr_caller_trust r), outcome_parse (dr_outcome r),
        vec_from_str (dr_required_capabilities_json r), vec_from_str (dr_allowed_classes_json r) with
  | Some _, Some outcome, Some required, Some allowed =>
      Some (mkDecision id
        (mkNewDecision (dr_run_id r) (dr_conversation_id r) (dr_input_event_seq r) (dr_tool_name r) (dr_caller_trust r)
           (dr_trust_floor r) required (negb (dr_globally_enabled r =? 0)) allowed (dr_profile_id r) (dr_profile_revision r)
           outcome (dr_reason_code r) (negb (dr_sensitive r =? 0)) (negb (dr_external_effect r =? 0))
           (negb (dr_approval_required r =? 0)) (dr_decided_at r))
        (dr_policy_revision r))
  | _, _, _, _ => None
  end.

(** [ORDER BY decided_at DESC, decision_id DESC] *)
Definition decided_later (x y : string * DecisionRow) : Prop :=
  dr_decided_at y.2 < dr_decided_at x.2 ∨ dr_decided_at y.2 = dr_decided_at x.2 ∧ String.leb y.1 x.1 = true.
#[global] Instance decided_later_dec x y : Decision (decided_later x y).
Proof. unfold decided_later. apply _. Defined.

Definition list_for_tool (tool_name : string) (limit : nat) (s : World) :
    result PolicySimulationError (list ToolPolicyDecision) :=
  match collect row_to_decision
    (firstn (clamp 1 2000 limit)
       (merge_sort decided_later (List.filter (λ kr, String.eqb (dr_tool_name kr.2) tool_name) (map_to_list (wd_decisions s)))))
  with Ok l => Ok l | Err e => Err (PsDb e) end.
End Stores.

(** ** Simulation *)

Record CandidateToolPolicy : Type := mkCandidate {
  cp_tool_name : string;
  cp_enabled : bool;
  cp_allowed_classes : list string;
  cp_trust_floor : option string
}.
Record PolicySimulationChange : Type := mkChange {
  ch_decision_id : string;
  ch_tool_name : string;
  ch_caller_trust : string;
  ch_change : string
}.
Record PolicySimulationReport : Type := mkSimulation {
  sr_evaluated_decisions : Z;
  sr_newly_allowed : list PolicySimulationChange;
  sr_newly_denied : list PolicySimulationChange;
  sr_newly_approval_gated : list PolicySimulationChange;
  sr_omitted_changes : Z
}.

Definition candidate_allows (d : NewToolPolicyDecision) (p : CandidateToolPolicy) : bool :=
  cp_enabled p && negb (String.eqb (nd_reason_code d) "safety_profile_denied")
  && (has_name (cp_allowed_classes p) (nd_caller_trust d)
      && match cp_trust_floor p with
         | Some floor => trust_rank floor <=? trust_rank (nd_caller_trust d) | None => true end).

(** The change of one decision, if any. *)
Definition classify (d : NewToolPolicyDecision) (p : CandidateToolPolicy) : option string :=
  let candidate_allowed := candidate_allows d p in
  let prior_allowed := match nd_outcome d with Allowed | ApprovalGated => true | Denied => false end in
  let prior_gated := nd_approval_required d || bool_decide (nd_outcome d = ApprovalGated) in
  let candidate_gated := candidate_allowed
    && (nd_approval_required d
        || ((nd_sensitive d || nd_external_effect d) && (trust_rank (nd_caller_trust d) <? trust_rank "KnownTrusted"))) in
  if candidate_gated && negb prior_gated then Some "newly_approval_gated"
  else if candidate_allowed && negb prior_allowed then Some "newly_allowed"
  else if negb candidate_allowed && prior_allowed then Some "newly_denied"
  else None.

Definition push_change (kind : string) (item : PolicySimulationChange) (r : PolicySimulationReport) : PolicySimulationReport :=
  let full {A} (bucket : list A) : bool := negb (Nat.ltb (length bucket) 500) in
  let omit := mkSimulation (sr_evaluated_decisions r) (sr_newly_allowed r) (sr_newly_denied r)
                (sr_newly_approval_gated r) (sr_omitted_changes r + 1) in
  if String.eqb kind "newly_allowed" then
    if full (sr_newly_allowed r) then omit
    else mkSimulation (sr_evaluated_decisions r) (sr_newly_allowed r ++ [item]) (sr_newly_denied r)
           (sr_newly_approval_gated r) (sr_omitted_changes r)
  else if String.eqb kind "newly_denied" then
    if full (sr_newly_denied r) then omit
    else mkSimulation (sr_evaluated_decisions r) (sr_newly_allowed r) (sr_newly_denied r ++ [item])
           (sr_newly_approval_gated r) (sr_omitted_changes r)
  else if full (sr_newly_approval_gated r) then omit
  else mkSimulation (sr_evaluated_decisions r) (sr_newly_allowed r) (sr_newly_denied r)
         (sr_newly_approval_gated r ++ [item]) (sr_omitted_changes r).

Definition simulate_step (p : CandidateToolPolicy) (r : PolicySimulationReport) (d : ToolPolicyDecision) : PolicySimulationReport :=
  let nd := td_decision d in
  let r := mkSimulation (sr_evaluated_decisions r + 1) (sr_newly_allowed r) (sr_newly_denied r)
             (sr_newly_approval_gated r) (sr_omitted_changes r) in
  match classify nd p with
  | None => r
  | Some kind => push_change kind (mkChange (td_decision_id d) (nd_tool_name nd) (nd_caller_trust nd) kind) r
  end.
Definition simulate_policy_change (decisions : list ToolPolicyDecision) (p : CandidateToolPolicy) : PolicySimulationReport :=
  foldl (simulate_step p) (mkSimulation 0 [] [] [] 0)
    (List.filter (λ d, String.eqb (nd_tool_name (td_decision d)) (cp_tool_name p)) decisions).
