(* ===== verification/ToolGate.v ===== *)
(** * The tool gate

    [ChainedToolDispatch] of [crates/server/src/tool_dispatch.rs] up to the
    point where a call leaves for its implementation: the live authority of
    the caller, the policy row, the task profile, the capabilities, the trust
    floor, and the decision that is put on record; the checks the plugin host
    and the host tools repeat; the profile a turn is bound to
    ([crates/server/src/chats.rs]) and the registration of tools
    ([tool_sync.rs], [mcp_host.rs]).  Each read is a statement of its own:
    policies may change while a call is being checked. *)

From S2P Require Import Prelude Wire Text ServiceBase Procs AuthStores Policy ToolPolicy.

Definition MCP_TOOL_PREFIX : string := "mcp:".

(** The fields of the dispatcher the gate reads; [dp_access_db] says that
    there is a database.  [dp_live_principal] holds the principal and the
    trust recorded for it when the turn began. *)
Record Dispatcher : Type := mkDispatcher {
  dp_caller_caps : list string;
  dp_caller_trust : TrustLevel;
  dp_access_db : bool;
  dp_policy_revision_snapshot : option Z;
  dp_safety_profile : option SafetyProfileSnapshot;
  dp_policy_context : option (string * string * Z);
  dp_live_principal : option (string * option StoredTrustLevel)
}.

Section Gate.
Context `{NameList} `{PrincipalCodec}.

Definition gate (A : Type) : Type := proc World (result string A).

(** [PrincipalStore::get], its [trust_level]. *)
Definition get_principal (id : string) (s : World) : result DbError (option StoredTrustLevel) :=
  match wd_principals s !! id with
  | None => Ok None
  | Some r =>
      if negb (identifiers_readable (pn_identifiers_json r)) then Err (Serde "identifiers")
      else match trust_from_slice (pn_trust_level_json r) with
           | None => Err (Serde "trust_level")
           | Some t =>
               if negb (resolved_readable (pn_resolved_by_json r)) then Err (Serde "resolved_by")
               else if negb (metadata_readable (pn_metadata_json r)) then Err (Serde "metadata")
               else Ok (Some t)
           end
  end.

(** ** Building a dispatcher *)

Definition new (caller_caps : list string) : Dispatcher :=
  mkDispatcher caller_caps Controller false None None None None.

Definition with_access_gate (caller_caps : list string) (caller_trust : TrustLevel) : gate Dispatcher :=
  let^ revision := peek latest_policy_revision_id in
  ok (mkDispatcher caller_caps caller_trust true (Some revision) None None None).

Definition with_live_principal (principal_id : string) (d : Dispatcher) : gate Dispatcher :=
  let^ snapshot :=
    if dp_access_db d
    then peek (λ s, match get_principal principal_id s with Ok t => t | Err _ => None end)
    else ok None in
  ok (mkDispatcher (dp_caller_caps d) (dp_caller_trust d) (dp_access_db d) (dp_policy_revision_snapshot d)
        (dp_safety_profile d) (dp_policy_context d) (Some (principal_id, snapshot))).

(** [controller_principal_id]; [utf8] is [String::from_utf8]. *)
Definition controller_principal_id (utf8 : bytes → option string) (s : World) : option string :=
  match wd_controller s with Some bs => utf8 bs | None => None end.

Definition with_live_principal_opt (utf8 : bytes → option string) (principal_id : option string) (d : Dispatcher) : gate Dispatcher :=
  match principal_id with
  | None => ok d
  | Some principal_id =>
      let^ persisted :=
        if String.eqb principal_id "controller"
        then if dp_access_db d then peek (controller_principal_id utf8) else ok None
        else ok (Some principal_id) in
      with_live_principal (default principal_id persisted) d
  end.

Definition with_safety_profile (profile : option SafetyProfileSnapshot) (d : Dispatcher) : Dispatcher :=
  mkDispatcher (dp_caller_caps d) (dp_caller_trust d) (dp_access_db d) (dp_policy_revision_snapshot d)
    profile (dp_policy_context d) (dp_live_principal d).
Definition with_policy_context (run_id conversation_id : string) (input_event_seq : Z) (d : Dispatcher) : Dispatcher :=
  mkDispatcher (dp_caller_caps d) (dp_caller_trust d) (dp_access_db d) (dp_policy_revision_snapshot d)
    (dp_safety_profile d) (Some (run_id, conversation_id, input_event_seq)) (dp_live_principal d).

(** ** Checks *)

Definition principal_check (d : Dispatcher) (snapshot : StoredTrustLevel) (now : Z)
    (current : result DbError (option StoredTrustLevel)) : result string () :=
  match current with
  | Err e => Err ("live principal authority lookup failed: " +:+ display_error e)
  | Ok None => Err "not authorized: caller principal was removed"
  | Ok (Some current) =>
      if negb (bool_decide (current = snapshot)) then Err "not authorized: caller authority changed during the turn"
      else if negb (String.eqb (class_tag current) (trust_str (dp_caller_trust d)))
      then Err "not authorized: caller trust no longer matches this turn"
      else match current with
           | StBlocked _ _ _ | StUnknownPending _ _ => Err "not authorized: caller principal is not active"
           | StDelegated _ _ (Some expires_at) =>
               if expires_at <=? now then Err "not authorized: delegated authority has expired" else Ok ()
           | _ => Ok ()
           end
  end.

Definition check_live_principal (d : Dispatcher) : gate () :=
  match dp_live_principal d with
  | None => ok ()
  | Some (_, None) => fail "not authorized: caller principal is unavailable"
  | Some (principal_id, Some snapshot) =>
      if negb (dp_access_db d) then fail "not authorized: live principal checks are unavailable"
      else
        let^ current := peek (get_principal principal_id) in
        let^ now := peek wd_clock in
        Finish (principal_check d snapshot now current)
  end.

Definition row_check (d : Dispatcher) (tool_name : string) (row : option ToolAccessRow) : result string () :=
  match row with
  | None => Ok ()
  | Some row =>
      if negb (ta_enabled row) then Err ("not authorized: tool '" +:+ tool_name +:+ "' is disabled")
      else if bool_decide (is_Some (ta_removed_at row))
      then Err ("not authorized: tool '" +:+ tool_name +:+ "' is no longer registered by its source")
      else if negb (has_name (ta_allowed_classes row) (trust_str (dp_caller_trust d)))
      then Err ("not authorized: tool '" +:+ tool_name +:+ "' is not allowed for trust class " +:+
                trust_str (dp_caller_trust d))
      else Ok ()
  end.

(** The registry is asked once for each kind of tool. *)
Definition profile_allows (profile : SafetyProfileSnapshot) (tool_name : string) : gate bool :=
  let^ b := peek (λ s, builtin (wd_registry s) tool_name) in
  match b with
  | Some descriptor => ok (allows_builtin profile tool_name (dc_capabilities descriptor))
  | None =>
      if starts_with tool_name MCP_TOOL_PREFIX then ok (allows_mcp_tool profile tool_name)
      else
        let^ t := peek (λ s, tool (wd_registry s) tool_name) in
        ok (match t with
            | Some t => allows_plugin_tool profile tool_name (rt_required_capabilities t)
            | None => false
            end)
  end.

Definition always_offered (tool_name : string) : bool :=
  String.eqb tool_name "execlaw.discover_tool" || String.eqb tool_name "execlaw.read_artifact".

Definition check_safety_profile (d : Dispatcher) (tool_name : string) : gate () :=
  match dp_safety_profile d with
  | None => ok ()
  | Some profile =>
      if always_offered tool_name then ok ()
      else
        let^ allowed := profile_allows profile tool_name in
        if allowed then ok ()
        else fail ("not authorized: active safety profile '" +:+ profile_str (ss_profile_id profile) +:+
                   "' denies this tool")
  end.

Definition check_access (d : Dispatcher) (tool_name : string) : gate () :=
  let^ _ := check_live_principal d in
  let^ _ :=
    if dp_access_db d then
      let^ current := peek latest_policy_revision_id in
      if negb (bool_decide (dp_policy_revision_snapshot d = Some current))
      then fail "not authorized: tool policy changed during this turn"
      else let^ row := peek (get tool_name) in Finish (row_check d tool_name row)
    else ok () in
  check_safety_profile d tool_name.

(** ** Decisions *)

Definition policy_reason_code (error : string) : string :=
  if contains error "active safety profile" then "safety_profile_denied"
  else if contains error "trust class" || contains error "trust >=" then "trust_floor_denied"
  else if contains error "disabled" || contains error "no longer registered" then "tool_unavailable"
  else if contains error "caller principal" || contains error "authority changed" then "live_authority_denied"
  else if contains error "capability" then "capability_denied"
  else "policy_denied".

Definition external_capability (c : Capability) : bool :=
  match c with
  | WebFetch | Search | Notify | SubagentSpawn | ResearchSpawn | AttachmentSend | Transport => true
  | _ => false
  end.
Definition memory_capability (c : Capability) : bool :=
  match c with MemoryRead | MemoryWrite => true | _ => false end.

(** What a decision says of the tool: the capabilities it requires, its trust
    floor, and whether it is sensitive or has an external effect.  A plugin's
    tool counts as both. *)
Definition tool_facts (tool_name : string) (b : option ToolDescriptor) (t : option RegisteredTool) :
    list string * option string * bool * bool :=
  let mcp := starts_with tool_name MCP_TOOL_PREFIX in
  match b, t with
  | Some d, _ =>
      (dedup (sort_strings (concat (map required_policy_caps (dc_capabilities d)))), None,
       dc_sensitive d || existsb memory_capability (dc_capabilities d),
       mcp || existsb external_capability (dc_capabilities d))
  | None, Some t => (dedup (sort_strings (rt_required_capabilities t)), rt_trust_floor t, true, true)
  | None, None => ([], None, false, mcp)
  end.

Definition is_enabled (row : option ToolAccessRow) : bool :=
  match row with Some row => ta_enabled row && bool_decide (ta_removed_at row = None) | None => true end.

Definition simulation_error (e : PolicySimulationError) : string :=
  match e with PsDb e => display_error e | PsInvalid m => "invalid policy decision: " +:+ m end.
Definition sim_error (e : PolicySimulationError) : string :=
  "persist policy decision metadata: " +:+ simulation_error e.

(** [id] is the UUID of the decision. *)
Definition record_policy_decision (d : Dispatcher) (id tool_name : string) (outcome : PolicyDecisionOutcome)
    (reason_code : string) : gate () :=
  match dp_policy_context d with
  | Some (run_id, conversation_id, input_event_seq) =>
      if negb (dp_access_db d) then ok ()
      else
        let^ access := peek (get tool_name) in
        let^ b := peek (λ s, builtin (wd_registry s) tool_name) in
        let^ t := match b with Some _ => ok None | None => peek (λ s, tool (wd_registry s) tool_name) end in
        let^ now := peek wd_clock in
        let '(required, trust_floor, sensitive, external_effect) := tool_facts tool_name b t in
        let decision :=
          mkNewDecision run_id conversation_id input_event_seq tool_name (trust_str (dp_caller_trust d)) trust_floor
            required (is_enabled access) (match access with Some row => ta_allowed_classes row | None => [] end)
            (profile_str ∘ ss_profile_id <$> dp_safety_profile d) (ss_revision <$> dp_safety_profile d)
            outcome reason_code sensitive external_effect false now in
        proc_bind (record id decision)
          (λ r, Finish (match r with Ok _ => Ok () | Err e => Err (sim_error e) end))
  | None => ok ()
  end.

Definition refuse {A} (d : Dispatcher) (id tool_name reason_code error : string) : gate A :=
  let^ _ := record_policy_decision d id tool_name Denied reason_code in fail error.

Fixpoint first_missing (caps : list string) (l : list Capability) : option string :=
  match l with
  | [] => None
  | c :: l => match check_builtin_capability c caps with Err missing => Some missing | Ok _ => first_missing caps l end
  end.

Definition ungranted (caps required : list string) : bool :=
  negb (has_name caps "*") && existsb (λ r, negb (has_name caps r)) required.
Definition below_floor (d : Dispatcher) (floor : option string) : bool :=
  match floor with
  | Some floor => match trust_parse floor with Some required => rank (dp_caller_trust d) <? rank required | None => false end
  | None => false
  end.

(** [call] up to the decision that allows it. *)
Definition authorize (d : Dispatcher) (id tool_name : string) : gate () :=
  proc_bind (check_access d tool_name) (λ r,
  match r with
  | Err error => refuse d id tool_name (policy_reason_code error) error
  | Ok _ =>
      let^ b := peek (λ s, builtin (wd_registry s) tool_name) in
      match match b with Some descriptor => first_missing (dp_caller_caps d) (dc_capabilities descriptor) | None => None end with
      | Some missing =>
          refuse d id tool_name "caller_capability_denied"
            ("not authorized: tool '" +:+ tool_name +:+ "' requires capability '" +:+ missing +:+ "' not in caller's set")
      | None =>
          let^ t := peek (λ s, tool (wd_registry s) tool_name) in
          match t with
          | Some t =>
              if ungranted (dp_caller_caps d) (rt_required_capabilities t)
              then refuse d id tool_name "caller_capability_denied"
                     ("not authorized: plugin tool '" +:+ tool_name +:+ "' requires an ungranted capability")
              else if below_floor d (rt_trust_floor t)
              then refuse d id tool_name "trust_floor_denied"
                     ("not authorized: plugin tool '" +:+ tool_name +:+ "' requires trust >= " +:+
                      default "" (rt_trust_floor t))
              else record_policy_decision d id tool_name Allowed "allowed"
          | None => record_policy_decision d id tool_name Allowed "allowed"
          end
      end
  end).

(** ** Routes *)

(** Where an allowed call goes first; the data references, the legacy
    built-ins and the outbox of transport tools in between are not modelled. *)
Inductive CallRoute : Type :=
| HostTool (contract : RegisteredTool)
| McpTool
| OtherTier.

Definition call_route (tool_name : string) (s : World) : CallRoute :=
  match (if starts_with tool_name "workspace." then host_tool (wd_registry s) tool_name else None) with
  | Some contract => HostTool contract
  | None => if starts_with tool_name MCP_TOOL_PREFIX then McpTool else OtherTier
  end.

(** [dispatch_manifest_host_tool] up to its schema; [valid] validates the
    arguments. *)
Definition host_tool_check (d : Dispatcher) (contract : RegisteredTool) (tool_name : string) (valid : bool) : result string () :=
  if ungranted (dp_caller_caps d) (rt_required_capabilities contract)
  then Err ("not authorized: host tool '" +:+ tool_name +:+ "' capability is not granted")
  else
    match match rt_trust_floor contract with
          | None => Ok ()
          | Some floor =>
              match trust_parse floor with
              | None => Err ("host tool '" +:+ tool_name +:+ "' has an invalid trust floor")
              | Some required =>
                  if rank (dp_caller_trust d) <? rank required
                  then Err ("not authorized: host tool '" +:+ tool_name +:+ "' requires trust >= " +:+ floor)
                  else Ok ()
              end
          end with
    | Err e => Err e
    | Ok _ => if valid then Ok () else Err ("host tool '" +:+ tool_name +:+ "' arguments failed schema validation")
    end.

Definition check_schema (tool_name : string) (valid : bool) (registered : RegisteredTool) : result string RegisteredTool :=
  if valid then Ok registered else Err ("tool '" +:+ tool_name +:+ "' arguments do not match its JSON Schema").

(** The plugin host's own check ([validate_tool_call], and [call_tool] before
    anything runs). *)
Definition validate_tool_call (tool_name : string) (valid : bool) (caller_caps : list string) (caller_trust : option string)
    (s : World) : result string RegisteredTool :=
  match tool (wd_registry s) tool_name with
  | None => Err ("tool '" +:+ tool_name +:+ "' not registered")
  | Some registered =>
      match (if has_name caller_caps "*" then None
             else List.find (λ r, negb (has_name caller_caps r)) (rt_required_capabilities registered)) with
      | Some required => Err ("tool '" +:+ tool_name +:+ "' requires capability '" +:+ required +:+ "' not in caller's set")
      | None =>
      match rt_trust_floor registered with
      | Some floor =>
          if match caller_trust with Some t => trust_rank t | None => 0 end <? trust_rank floor
          then Err ("tool '" +:+ tool_name +:+ "' requires trust >= " +:+ floor +:+ " but caller is " +:+
                    default "<none>" caller_trust)
          else check_schema tool_name valid registered
      | None => check_schema tool_name valid registered
      end
      end
  end.

(** ** The catalog of a turn *)

Definition access_allows (caller_trust : TrustLevel) (tool_name : string) (s : World) : bool :=
  match get tool_name s with
  | None => true
  | Some row =>
      ta_enabled row && bool_decide (ta_removed_at row = None)
      && has_name (ta_allowed_classes row) (trust_str caller_trust)
  end.

Definition safety_profile_allows_tool (g : Registry) (profile : SafetyProfileSnapshot) (tool_name : string) : bool :=
  if always_offered tool_name then true
  else match builtin g tool_name with
       | Some descriptor => allows_builtin profile tool_name (dc_capabilities descriptor)
       | None =>
           if starts_with tool_name MCP_TOOL_PREFIX then allows_mcp_tool profile tool_name
           else match tool g tool_name with
                | Some t => allows_plugin_tool profile tool_name (rt_required_capabilities t)
                | None => false
                end
       end.

(** The names a view offers, filtered; the declarations are their names'. *)
Record RunnerToolView : Type := mkView {
  vw_declarations : list string;
  vw_discoverable : list string;
  vw_builtin_names : list string;
  vw_plugin_tool_names : list string
}.
Definition filter_tool_view (g : Registry) (profile : SafetyProfileSnapshot) (v : RunnerToolView) : RunnerToolView :=
  let keep := List.filter (safety_profile_allows_tool g profile) in
  mkView (keep (vw_declarations v)) (keep (vw_discoverable v)) (keep (vw_builtin_names v)) (keep (vw_plugin_tool_names v)).

(** ** The profile of a turn

    [saved] is the ["safety_profile"] of the user event's payload, decoded by
    MessagePack and serde: [None] when the payload has none. *)
Context (saved_profile : bytes → result string (option SafetyProfileSnapshot)).

Definition profile_error (e : SafetyProfileError) : string :=
  match e with
  | SpDb e => display_error e
  | SpNotFound id => "unknown safety profile '" +:+ id +:+ "'"
  | SpInvalid m => "invalid safety profile: " +:+ m
  | SpConflict => "safety profile snapshot conflicts with the run's saved inputs"
  end.

Definition safety_profile_snapshot_from_event (payload : bytes) (requested : option SafetyProfileSnapshot) :
    gate (option SafetyProfileSnapshot) :=
  let^ saved := Finish (saved_profile payload) in
  match requested, saved with
  | None, None => ok None
  | Some _, None => fail "cannot attach a safety profile to a user event that already started without one"
  | requested, Some saved =>
      let^ _ := match requested with
                | Some requested =>
                    if bool_decide (ss_profile_id requested = ss_profile_id saved) then ok ()
                    else fail "retried task requested a different safety profile"
                | None => ok ()
                end in
      let snapshot := match requested with Some _ => "saved" | None => "recovered" end in
      let^ persisted := peek (get_revision (ss_profile_id saved) (ss_revision saved)) in
      match persisted with
      | Err e => fail ("verify " +:+ snapshot +:+ " safety profile revision: " +:+ profile_error e)
      | Ok persisted =>
          if bool_decide (persisted = saved) then ok (Some saved)
          else fail (snapshot +:+ " safety profile snapshot differs from its SQLite revision")
      end
  end.

(** ** Registration *)

Definition default_plugin_classes : list string := ["Controller"; "Delegated"; "KnownTrusted"; "KnownLimited"].
Definition default_mcp_classes_for (server_defaults : list string) : list string :=
  match server_defaults with [] => ["Controller"] | l => l end.

Definition builtin_seed (d : ToolDescriptor) : ToolAccessSeed :=
  mkSeed (dc_name d) Builtin None (Some (dc_description d)) (Some (dc_schema d)) (dc_default_allowed_classes d).
Definition plugin_seed (t : RegisteredTool) : ToolAccessSeed :=
  mkSeed (rt_tool_name t) Plugin (Some (rt_plugin_id t))
    (Some ("Plugin tool '" +:+ rt_tool_name t +:+ "' from '" +:+ rt_plugin_id t +:+ "' (latency: " +:+ rt_latency t +:+ ")"))
    None default_plugin_classes.

Fixpoint upsert_all (seeds : list ToolAccessSeed) (now : Z) : store DbError () :=
  match seeds with
  | [] => ok ()
  | seed :: seeds => let^ _ := stmt (upsert_seen seed now) in upsert_all seeds now
  end.

Definition sync_tool_access (now : Z) : store DbError Z :=
  let^ builtins := peek (λ s, all_builtins (wd_registry s)) in
  let^ _ := upsert_all (map builtin_seed builtins) now in
  let^ tools := peek (λ s, all_tools (wd_registry s)) in
  let^ _ := upsert_all (map plugin_seed tools) now in
  ok (Z.of_nat (length builtins + length tools)).

Fixpoint mark_all (names : list string) (now n : Z) : store DbError Z :=
  match names with
  | [] => ok n
  | name :: names =>
      let^ marked := stmt (mark_removed name now) in
      mark_all names now (if marked : bool then n + 1 else n)
  end.

Definition live_row_of (source : ToolSource) (source_id : string) (row : ToolAccessRow) : bool :=
  bool_decide (ta_source row = source) && bool_decide (ta_source_id row = Some source_id)
  && bool_decide (ta_removed_at row = None).

Definition mark_plugin_tools_removed (plugin_id : string) (now : Z) : store DbError Z :=
  let^ rows := reading list_all in
  mark_all (map ta_tool_name (List.filter (live_row_of Plugin plugin_id) rows)) now 0.

(** [sync_tools] of [mcp_host.rs] after the server listed its [tools]: their
    names, descriptions and schemas. *)
Definition mcp_name (server_id name : string) : string := MCP_TOOL_PREFIX +:+ server_id +:+ ":" +:+ name.
Definition mcp_seed (server_id : string) (server_defaults : list string) (t : string * option string * option string) : ToolAccessSeed :=
  let '(name, description, input_schema) := t in
  mkSeed (mcp_name server_id name) Mcp (Some server_id) description input_schema (default_mcp_classes_for server_defaults).
(** Here a row that could not be marked is passed over. *)
Fixpoint mark_each (names : list string) (now : Z) : store DbError () :=
  match names with
  | [] => ok ()
  | name :: names => proc_bind (stmt (mark_removed name now)) (λ _, mark_each names now)
  end.
Definition sync_mcp_tools (server_id : string) (server_defaults : list string)
    (tools : list (string * option string * option string)) : store DbError () :=
  let^ now := peek wd_clock in
  let^ _ := upsert_all (map (mcp_seed server_id server_defaults) tools) now in
  let live := map (λ t : string * option string * option string, mcp_name server_id t.1.1) tools in
  let^ rows := reading list_all in
  mark_each (map ta_tool_name
    (List.filter (λ row, live_row_of Mcp server_id row && negb (has_name live (ta_tool_name row))) rows)) now.
End Gate.
