(* ===== verification/ToolRoutes.v ===== *)
(** * The routes of the tool policies

    The handlers of [crates/server/src/tools_admin.rs] and the one of
    [safety_profiles_admin.rs] that changes a profile, statement by statement
    over the stores of [ToolPolicy]. *)

From S2P Require Import Prelude Wire Text ServiceBase Procs AuthStores AuthRoutes Policy ToolPolicy ToolGate.

Section Routes.
Context `{NameList} `{PrincipalCodec}.

Definition route (A : Type) : Type := proc World (result ApiError A).

Inductive PolicyResponse : Type :=
| ToolViewResponse (row : ToolAccessRow) (trust_floor : option string)
| ToolListResponse (tools : list (ToolAccessRow * option string))
| RevisionListResponse (revisions : list ToolAccessPolicyRevision)
| SimulationResponse (historical_decisions : Z) (report : PolicySimulationReport)
| ProfileResponse (profile : SafetyProfile).

Definition reading_or {E A} (from : E → ApiError) (f : World → result E A) : route A := call from (λ s, (f s, s)).
Definition some_or {A} (o : option A) (e : ApiError) : route A := match o with Some a => ok a | None => fail e end.
Definition in_db {A} (p : store DbError A) : route A :=
  proc_bind p (λ r, Finish (match r with Ok a => Ok a | Err e => Err (from_db e) end)).
Definition clock : route Z := peek wd_clock.

(** [is_controller] and [require_controller]: the stored role, not that of
    the session. *)
Definition is_controller (user_id : string) (s : World) : bool :=
  bool_decide (us_role <$> get_by_id user_id (wd_users s) = Some AuthStores.Controller).
Definition controller_only_error : ApiError :=
  mkApiError 403 "controller_only" "only a Controller can change tool access policy".
Definition controller_only (user_id : string) (e : ApiError) : route () :=
  let^ c := peek (is_controller user_id) in if c : bool then ok () else fail e.

Definition audit (actor table_name row_id : string) (before after : PolicyAudit) : route () :=
  let^ now := clock in
  Atomic (λ s, ((), add_audit (mkAudit now actor table_name row_id before after) s)) ok.

Definition floor_of (tool_name : string) (s : World) : option string :=
  match tool (wd_registry s) tool_name with Some t => rt_trust_floor t | None => None end.

Definition MAX_CLASSES : nat := 8.
Definition validate_class_list (classes : list string) : result ApiError () :=
  if Nat.ltb MAX_CLASSES (length classes)
  then Err (mkApiError 400 "too_many_classes" "allowed_classes capped at 8 entries")
  else match List.find (λ c, bool_decide (trust_parse c = None)) classes with
       | Some c => Err (mkApiError 400 "unknown_trust_class" ("'" +:+ c +:+ "' is not a valid trust class"))
       | None => Ok ()
       end.

Definition tool_not_found (tool_name : string) : ApiError :=
  mkApiError 404 "tool_not_found" ("no tool registered as '" +:+ tool_name +:+ "'").

Fixpoint with_floors (rows : list ToolAccessRow) : route (list (ToolAccessRow * option string)) :=
  match rows with
  | [] => ok []
  | row :: rows =>
      let^ floor := peek (floor_of (ta_tool_name row)) in
      let^ rest := with_floors rows in
      ok ((row, floor) :: rest)
  end.
Definition list_handler : route PolicyResponse :=
  let^ rows := reading_or from_db list_all in
  let^ tools := with_floors rows in
  ok (ToolListResponse tools).

Definition update_handler (user_id tool_name : string) (enabled : bool) (allowed_classes : list string) : route PolicyResponse :=
  let^ _ := controller_only user_id controller_only_error in
  let^ _ := Finish (validate_class_list allowed_classes) in
  let^ prior := peek (get tool_name) in
  let^ prior := some_or prior (tool_not_found tool_name) in
  let^ now := clock in
  let^ updated := call from_db (set_policy_with_actor tool_name enabled allowed_classes user_id now None) in
  let^ _ := if updated : bool then ok () else fail (mkApiError 404 "tool_not_found" ("'" +:+ tool_name +:+ "' was removed mid-update")) in
  let^ after := peek (get tool_name) in
  let^ after := some_or after (mkApiError 500 "tool_lookup_after_update" "tool disappeared after update") in
  let^ _ := audit user_id "config_tool_access" tool_name
              (AuditAccess (ta_enabled prior) (ta_allowed_classes prior) None)
              (AuditAccess (ta_enabled after) (ta_allowed_classes after) None) in
  let^ floor := peek (floor_of tool_name) in
  ok (ToolViewResponse after floor).

Definition revisions_handler (user_id tool_name : string) : route PolicyResponse :=
  let^ _ := controller_only user_id controller_only_error in
  let^ revisions := reading_or from_db (policy_revisions tool_name 50) in
  ok (RevisionListResponse revisions).

Definition rollback_handler (user_id tool_name : string) (revision_id : Z) : route PolicyResponse :=
  let^ _ := controller_only user_id controller_only_error in
  let^ prior := peek (get tool_name) in
  let^ prior := some_or prior (tool_not_found tool_name) in
  let^ now := clock in
  let^ found := in_db (rollback_policy_revision tool_name revision_id user_id now) in
  let^ _ := if found : bool then ok ()
            else fail (mkApiError 404 "policy_revision_not_found" "the requested revision does not belong to this tool") in
  let^ restored := peek (get tool_name) in
  let^ restored := some_or restored (mkApiError 500 "tool_lookup_after_rollback" "tool disappeared after policy rollback") in
  let^ _ := audit user_id "config_tool_access" tool_name
              (AuditAccess (ta_enabled prior) (ta_allowed_classes prior) None)
              (AuditAccess (ta_enabled restored) (ta_allowed_classes restored) (Some revision_id)) in
  let^ floor := peek (floor_of tool_name) in
  ok (ToolViewResponse restored floor).

Definition stricter_floor (current candidate : option string) : option string :=
  match current, candidate with
  | Some current, Some candidate =>
      if trust_rank candidate <=? trust_rank current then Some current else Some candidate
  | _, Some candidate => Some candidate
  | Some current, None => Some current
  | None, None => None
  end.

(** [(sensitive, external_effect)] *)
Definition tool_risk (row : ToolAccessRow) (b : option ToolDescriptor) : bool * bool :=
  match b with
  | Some d => (dc_sensitive d, existsb external_capability (dc_capabilities d))
  | None => let external := negb (bool_decide (ta_source row = Builtin)) in (external, external)
  end.

Definition TRUST_CLASSES : list string :=
  ["Controller"; "Delegated"; "KnownTrusted"; "KnownLimited"; "UnknownPending"; "Blocked"].
Definition fixture (current : ToolAccessRow) (current_floor : option string) (risk : bool * bool) (class : string) : ToolPolicyDecision :=
  let current_allowed := ta_enabled current && has_name (ta_allowed_classes current) class
    && match current_floor with Some floor => trust_rank floor <=? trust_rank class | None => true end in
  mkDecision ("fixture:" +:+ class)
    (mkNewDecision "policy-simulation-fixture" "policy-simulation-fixture" 1 (ta_tool_name current) class current_floor
       [] (ta_enabled current) (ta_allowed_classes current) None None (if current_allowed then Allowed else Denied)
       (if current_allowed then "fixture_currently_allowed" else "fixture_currently_denied") risk.1 risk.2 false 0) 0.

Definition simulate_handler (user_id tool_name : string) (enabled : bool) (allowed_classes : list string)
    (trust_floor : option string) : route PolicyResponse :=
  let^ _ := controller_only user_id controller_only_error in
  let^ _ := Finish (validate_class_list allowed_classes) in
  let^ _ := match trust_floor with
            | Some floor => if bool_decide (trust_parse floor = None)
                            then fail (mkApiError 400 "unknown_trust_floor" ("'" +:+ floor +:+ "' is not a valid trust class")) else ok ()
            | None => ok ()
            end in
  let^ current := peek (get tool_name) in
  let^ current := some_or current (tool_not_found tool_name) in
  let^ current_floor := peek (floor_of tool_name) in
  let^ b := peek (λ s, builtin (wd_registry s) tool_name) in
  let^ decisions := reading_or (λ e, mkApiError 500 "policy_history_unavailable" (simulation_error e)) (list_for_tool tool_name 2000) in
  let report := simulate_policy_change
    (decisions ++ map (fixture current current_floor (tool_risk current b)) TRUST_CLASSES)
    (mkCandidate tool_name enabled allowed_classes (stricter_floor current_floor trust_floor)) in
  ok (SimulationResponse (usize_saturating_sub (sr_evaluated_decisions report) 6) report).

Definition profile_invalid (message : string) : ApiError := mkApiError 400 "safety_profile_invalid" message.
Fixpoint check_available (rows : list ToolAccessRow) (names : list string) : result ApiError () :=
  match names with
  | [] => Ok ()
  | name :: names =>
      match List.find (λ row, String.eqb (ta_tool_name row) name) rows with
      | None => Err (mkApiError 404 "approved_tool_unavailable" ("tool '" +:+ name +:+ "' is not registered and enabled"))
      | Some row =>
          if negb (ta_enabled row) || bool_decide (is_Some (ta_removed_at row))
             || negb (has_name (ta_allowed_classes row) "Controller")
          then Err (mkApiError 404 "approved_tool_unavailable"
                 ("tool '" +:+ name +:+ "' is not enabled and allowed for this Controller"))
          else check_available rows names
      end
  end.

Definition set_approved_tools_handler (user_id profile_id : string) (tool_names : list string) : route PolicyResponse :=
  let^ _ := controller_only user_id (mkApiError 403 "controller_only" "only a Controller can manage task safety profiles") in
  let^ p := some_or (profile_parse profile_id) (profile_invalid "unknown safety profile") in
  let^ rows := reading_or from_db list_all in
  let^ _ := Finish (check_available rows tool_names) in
  let^ prior := reading_or (profile_invalid ∘ profile_error) (get_profile p) in
  let^ now := clock in
  let^ profile := proc_bind (set_approved_tools p tool_names user_id now)
    (λ r, Finish (match r with Ok a => Ok a | Err e => Err (profile_invalid (profile_error e)) end)) in
  let^ _ := audit user_id "config_safety_profiles" (profile_str p)
              (AuditProfile (sp_revision prior) (sp_approved_tools prior))
              (AuditProfile (sp_revision profile) (sp_approved_tools profile)) in
  ok (ProfileResponse profile).

(** ** Requests and calls *)

(** What the server does with these tables: the routes, the registration of
    tools, the writes of a store operation of its own (the registrar of
    built-ins, the command line at start, the removal of a plugin or of an MCP
    server), and a turn's tool calls. *)
Inductive PolicyRequest : Type :=
| ListTools
| UpdateTool (user_id tool_name : string) (enabled : bool) (allowed_classes : list string)
| ListRevisions (user_id tool_name : string)
| Rollback (user_id tool_name : string) (revision_id : Z)
| Simulate (user_id tool_name : string) (enabled : bool) (allowed_classes : list string) (trust_floor : option string)
| SetApprovedTools (user_id profile_id : string) (tool_names : list string)
| SyncTools (now : Z)
| PluginRemoved (plugin_id : string) (now : Z)
| SyncMcp (server_id : string) (server_defaults : list string) (tools : list (string * option string * option string))
| SeeTool (seed : ToolAccessSeed) (now : Z)
| SetPolicy (tool_name : string) (enabled : bool) (allowed_classes : list string)
| MarkRemoved (tool_name : string) (now : Z)
| DeleteBySource (source : ToolSource) (source_id : option string)
| ToolCall (d : Dispatcher) (decision_id tool_name : string).

(** The answers are not followed; a tool call's is. *)
Definition quietly {E A} (p : proc World (result E A)) : gate () := proc_bind p (λ _, ok ()).

Definition serve (q : PolicyRequest) : gate () :=
  match q with
  | ListTools => quietly list_handler
  | UpdateTool user_id tool_name enabled classes => quietly (update_handler user_id tool_name enabled classes)
  | ListRevisions user_id tool_name => quietly (revisions_handler user_id tool_name)
  | Rollback user_id tool_name revision_id => quietly (rollback_handler user_id tool_name revision_id)
  | Simulate user_id tool_name enabled classes floor => quietly (simulate_handler user_id tool_name enabled classes floor)
  | SetApprovedTools user_id profile_id names => quietly (set_approved_tools_handler user_id profile_id names)
  | SyncTools now => quietly (sync_tool_access now)
  | PluginRemoved plugin_id now => quietly (mark_plugin_tools_removed plugin_id now)
  | SyncMcp server_id defaults tools => quietly (sync_mcp_tools server_id defaults tools)
  | SeeTool seed now => quietly (stmt (upsert_seen seed now))
  | SetPolicy tool_name enabled classes => quietly (set_policy tool_name enabled classes)
  | MarkRemoved tool_name now => quietly (stmt (mark_removed tool_name now))
  | DeleteBySource source source_id => quietly (stmt (delete_by_source source source_id))
  | ToolCall d id tool_name => authorize d id tool_name
  end.
End Routes.
