(* ===== verification/ToolSafety.v ===== *)
(** * Tool policies stay consistent and are obeyed

    The invariant of the tables of [ToolPolicy] and how they evolve, kept by
    every request of [ToolRoutes] whatever runs in between; then what an
    allowed tool call, a rollback, a task profile and a simulation are worth. *)

From Stdlib Require Import Strings.Ascii.
From stdpp Require Import sorting relations.
From S2P Require Import Prelude Wire Text ServiceBase Procs AuthStores AuthRoutes Policy ToolPolicy ToolGate ToolRoutes.

(** ** The invariant *)

Section Invariant.
Context `{NameListLaws}.

(** The newest revision of a tool. *)
Definition newest (s : World) (name : string) (id : Z) (v : RevisionRow) : Prop :=
  wd_revisions s !! id = Some v ∧ rv_tool_name v = name ∧
  ∀ id' v', wd_revisions s !! id' = Some v' → rv_tool_name v' = name → id' ≤ id.

(** A rollback repeats an older revision of its tool. *)
Definition rollback_sound (s : World) (id : Z) (v : RevisionRow) : Prop :=
  ∀ k, rv_rollback_of v = Some k →
  ∃ v', wd_revisions s !! k = Some v' ∧ k < id ∧ rv_tool_name v' = rv_tool_name v ∧
    rv_enabled v' = rv_enabled v ∧ rv_allowed_classes_json v' = rv_allowed_classes_json v.

Definition profile_texts (k capability_set approved : string) : Prop :=
  ∃ p tools, k = profile_str p ∧
    capability_set = vec_to_string (profile_capability_names (for_profile p)) ∧
    approved = vec_to_string tools ∧ (p ≠ ApprovedIntegration → tools = []).

Record wf (s : World) : Prop := {
  wf_seq : ∀ id v, wd_revisions s !! id = Some v → 1 ≤ id ≤ wd_last_revision s;
  wf_last : wd_last_revision s = 0 ∨ is_Some (wd_revisions s !! wd_last_revision s);
  wf_bound : 0 ≤ wd_last_revision s ≤ i64_max;
  wf_text : ∀ id v, wd_revisions s !! id = Some v →
    ∃ b l, rv_enabled v = b2z b ∧ rv_allowed_classes_json v = vec_to_string l;
  wf_rollback : ∀ id v, wd_revisions s !! id = Some v → rollback_sound s id v;
  wf_row : ∀ name r, wd_access s !! name = Some r →
    (∃ source, ac_source r = source_str source) ∧
    ∃ id v, newest s name id v ∧ rv_enabled v = ac_enabled r ∧ rv_allowed_classes_json v = ac_allowed_classes r;
  wf_profile : ∀ k r, wd_profiles s !! k = Some r →
    ∃ v, wd_profile_revisions s !! (k, pf_revision r) = Some v ∧
      pv_capability_set_json v = pf_capability_set_json r ∧ pv_approved_tools_json v = pf_approved_tools_json r;
  wf_profile_revision : ∀ k n v, wd_profile_revisions s !! (k, n) = Some v →
    (∃ r, wd_profiles s !! k = Some r ∧ 1 ≤ n ≤ pf_revision r ∧ pf_revision r ≤ i64_max) ∧
    profile_texts k (pv_capability_set_json v) (pv_approved_tools_json v)
}.

(** ** Evolution *)

Definition same_policy (r r' : AccessRow) : Prop :=
  ac_enabled r = ac_enabled r' ∧ ac_allowed_classes r = ac_allowed_classes r'.

Record evolves (s s' : World) : Prop := {
  ev_revisions : wd_revisions s ⊆ wd_revisions s';
  ev_last : wd_last_revision s ≤ wd_last_revision s';
  ev_fresh : ∀ id v, wd_revisions s' !! id = Some v → wd_revisions s !! id = None → wd_last_revision s < id;
  ev_rows : ∀ name r', wd_access s' !! name = Some r' →
    (∃ r, wd_access s !! name = Some r ∧ same_policy r r') ∨ wd_last_revision s < wd_last_revision s';
  ev_profiles : wd_profile_revisions s ⊆ wd_profile_revisions s';
  ev_decisions : wd_decisions s ⊆ wd_decisions s';
  ev_audit : wd_audit s `prefix_of` wd_audit s'
}.

#[export] Instance evolves_preorder : PreOrder evolves.
Proof.
  split.
  - intros s. split; try done.
    + congruence.
    + intros name r Hr. left. by exists r.
  - intros s1 s2 s3 [R1 L1 F1 W1 P1 D1 A1] [R2 L2 F2 W2 P2 D2 A2]. split.
    + by etrans.
    + lia.
    + intros id v Hv Hn. destruct (wd_revisions s2 !! id) as [v'|] eqn:H2; [by eapply F1|].
      specialize (F2 _ _ Hv H2). lia.
    + intros name r3 Hr3. destruct (W2 _ _ Hr3) as [(r2 & Hr2 & [])|]; [|right; lia].
      destruct (W1 _ _ Hr2) as [(r1 & Hr1 & [])|]; [|right; lia].
      left. exists r1. split; [done|split; congruence].
    + by etrans.
    + by etrans.
    + by etrans.
Qed.

(** What the rest of the server and time do: nothing to these tables. *)
Record env (s s' : World) : Prop := {
  en_clock : wd_clock s ≤ wd_clock s';
  en_access : wd_access s' = wd_access s;
  en_revisions : wd_revisions s' = wd_revisions s;
  en_last : wd_last_revision s' = wd_last_revision s;
  en_profiles : wd_profiles s' = wd_profiles s;
  en_profile_revisions : wd_profile_revisions s' = wd_profile_revisions s;
  en_decisions : wd_decisions s' = wd_decisions s;
  en_audit : wd_audit s' = wd_audit s
}.

(** The tables of the invariant are those of another state. *)
Lemma wf_tables s s' :
  wd_access s' = wd_access s → wd_revisions s' = wd_revisions s → wd_last_revision s' = wd_last_revision s →
  wd_profiles s' = wd_profiles s → wd_profile_revisions s' = wd_profile_revisions s → wf s → wf s'.
Proof.
  intros Ea Er El Ep Epr [].
  split; unfold newest, rollback_sound in *; rewrite ?Ea, ?Er, ?El, ?Ep, ?Epr; done.
Qed.

Lemma env_evolves s s' : env s s' → wf s → wf s' ∧ evolves s s'.
Proof.
  intros [] Hwf. split; [by eapply wf_tables|].
  split; rewrite ?en_access0, ?en_revisions0, ?en_last0, ?en_profile_revisions0, ?en_decisions0, ?en_audit0; try done.
  - congruence.
  - intros name r Hr. left. by exists r.
Qed.

(** ** The statements *)

Definition good {E A} (m : act World E A) : Prop := ∀ s, wf s → wf (m s).2 ∧ evolves s (m s).2.

(** A row and its revision written together. *)
Definition write_policy (name : string) (r : AccessRow) (v : RevisionRow) (s : World) : World :=
  set_revisions (<[wd_last_revision s + 1 := v]> (wd_revisions s)) (wd_last_revision s + 1)
    (set_access <[name := r]> s).

Lemma insert_revision_ok v s s' :
  insert_revision v s = Ok ((), s') →
  s' = set_revisions (<[wd_last_revision s + 1 := v]> (wd_revisions s)) (wd_last_revision s + 1) s ∧
  wd_last_revision s ≠ i64_max ∧ (∀ k, rv_rollback_of v = Some k → is_Some (wd_revisions s !! k)).
Proof.
  unfold insert_revision. destruct (negb _); [done|]. intros Hs.
  assert (∀ k, rv_rollback_of v = Some k → is_Some (wd_revisions s !! k)) as Hk.
  { intros k Hk. rewrite Hk in Hs. case_bool_decide; [done|]. by apply not_eq_None_Some. }
  revert Hs. case_match; [done|]. destruct (Z.eqb_spec (wd_last_revision s) i64_max); [done|]. by intros [= <-].
Qed.

Lemma newest_other s s' name v :
  wd_revisions s' = <[wd_last_revision s + 1 := v]> (wd_revisions s) → wf s → rv_tool_name v ≠ name →
  ∀ id' v', newest s name id' v' → newest s' name id' v'.
Proof.
  intros Er Hwf Hne id' v' (Hl & Hn & Hmax). unfold newest. rewrite Er.
  pose proof (wf_seq _ Hwf _ _ Hl). split_and!; [by rewrite lookup_insert_ne by lia|done|].
  intros k w [[<- <-]|[_ Hk]]%lookup_insert_Some Hw; [done|by eapply Hmax].
Qed.

Lemma write_policy_good name r v s :
  wf s → wd_last_revision s ≠ i64_max →
  rv_tool_name v = name → rv_enabled v = ac_enabled r → rv_allowed_classes_json v = ac_allowed_classes r →
  (∃ b l, rv_enabled v = b2z b ∧ rv_allowed_classes_json v = vec_to_string l) →
  (∃ source, ac_source r = source_str source) →
  (∀ k, rv_rollback_of v = Some k → ∃ v', wd_revisions s !! k = Some v' ∧ rv_tool_name v' = rv_tool_name v ∧
    rv_enabled v' = rv_enabled v ∧ rv_allowed_classes_json v' = rv_allowed_classes_json v) →
  wf (write_policy name r v s) ∧ evolves s (write_policy name r v s).
Proof.
  intros Hwf Hmax Hn He Hc Ht Hs Hr.
  pose proof (wf_bound _ Hwf) as Hb.
  assert (wd_revisions s !! (wd_last_revision s + 1) = None) as Hfree.
  { destruct (wd_revisions s !! _) eqn:Hl; [|done]. apply wf_seq in Hl; [lia|done]. }
  assert (∀ id w, rollback_sound s id w → rollback_sound (write_policy name r v s) id w) as Hmono.
  { intros id w Hw k (v' & Hl & ?)%Hw. exists v'. split; [|done]. cbn. rewrite lookup_insert_ne; [done|congruence]. }
  split; [split; cbn|split; cbn].
  - intros id w [[<- <-]|[_ Hl]]%lookup_insert_Some; [lia|]. apply wf_seq in Hl; [lia|done].
  - right. rewrite lookup_insert_eq. done.
  - unfold i64_max in *. lia.
  - intros id w [[<- <-]|[_ Hl]]%lookup_insert_Some; [done|by eapply wf_text].
  - intros id w [[<- <-]|[_ Hl]]%lookup_insert_Some; [|by eapply Hmono, wf_rollback].
    intros k (v' & Hl & ?)%Hr. exists v'. cbn. rewrite lookup_insert_ne by congruence.
    apply wf_seq in Hl as ?; [|done]. split_and!; [done|lia|naive_solver..].
  - intros name' r' [[<- <-]|[Hne Hl]]%lookup_insert_Some.
    + split; [done|]. exists (wd_last_revision s + 1), v. split; [|done].
      split_and!; [apply lookup_insert_eq|done|].
      cbn. intros k w [[<- <-]|[_ Hl]]%lookup_insert_Some _; [lia|]. apply wf_seq in Hl; [lia|done].
    + destruct (wf_row _ Hwf _ _ Hl) as (? & id & w & ? & ?). split; [done|]. exists id, w. split; [|done].
      eapply (newest_other s _ _ v); [done|done|congruence|done].
  - apply (wf_profile _ Hwf).
  - apply (wf_profile_revision _ Hwf).
  - by apply insert_subseteq.
  - lia.
  - intros id w [[<- <-]|[_ Hl]]%lookup_insert_Some; [lia|congruence].
  - intros name' r' _. right. lia.
  - done.
  - done.
  - done.
Qed.

(** Rows rewritten without their policy, or removed. *)
Lemma rows_good f s :
  wf s →
  (∀ name r', f (wd_access s) !! name = Some r' →
    (∃ source, ac_source r' = source_str source) ∧ ∃ r, wd_access s !! name = Some r ∧ same_policy r r') →
  wf (set_access f s) ∧ evolves s (set_access f s).
Proof.
  intros Hwf Hf. split; [destruct Hwf; split; try done|split; cbn; try done].
  - intros name r' Hr'. cbn in Hr'. destruct (Hf _ _ Hr') as (? & r & Hr & [E1 E2]). split; [done|].
    destruct (wf_row0 _ _ Hr) as (_ & id & v & ? & ? & ?). exists id, v. split_and!; [done|congruence..].
  - congruence.
  - intros name r' Hr'. left. by apply Hf.
Qed.

Lemma touch_good name r r' s :
  wf s → wd_access s !! name = Some r → same_policy r r' → (∃ source, ac_source r' = source_str source) →
  wf (set_access <[name := r']> s) ∧ evolves s (set_access <[name := r']> s).
Proof.
  intros Hwf Hr Hp Hs. apply rows_good; [done|]. intros name' r'' [[<- <-]|[_ Hl]]%lookup_insert_Some.
  - split; [done|]. by exists r.
  - split; [apply (wf_row _ Hwf _ _ Hl)|]. by exists r''.
Qed.

Lemma good_tx {A} (m : tx World A) :
  (∀ s a s', wf s → m s = Ok (a, s') → wf s' ∧ evolves s s') → good (act_tx m).
Proof.
  intros Hm s Hwf. unfold act_tx, transaction. destruct (m s) as [[a s']|e] eqn:Hs; [by eapply Hm|done].
Qed.

Lemma upsert_seen_good seed now : good (upsert_seen seed now).
Proof.
  apply good_tx. intros s [] s' Hwf. destruct (wd_access s !! _) as [r|] eqn:Hr.
  - intros [= <-]. eapply touch_good; [done|done|done|by exists (sd_source seed)].
  - intros (-> & Hmax & _)%insert_revision_ok. apply (write_policy_good (sd_tool_name seed) _ _ s); try done.
    + exists true. cbn. eauto.
    + by exists (sd_source seed).
Qed.

Lemma mark_removed_good name now : good (mark_removed name now).
Proof.
  intros s Hwf. unfold mark_removed. destruct (wd_access s !! name) as [r|] eqn:Hr; [|done].
  destruct (ac_removed_at r); [done|]. eapply touch_good; [done..|]. apply (wf_row _ Hwf _ _ Hr).
Qed.

Lemma delete_by_source_good source source_id : good (delete_by_source source source_id).
Proof.
  intros s Hwf. apply rows_good; [done|]. intros name r' [Hr' _]%map_lookup_filter_Some.
  split; [apply (wf_row _ Hwf _ _ Hr')|by exists r'].
Qed.

(** The rollback's source is a revision of the tool with this policy. *)
Definition rollback_of_policy (name : string) (enabled : bool) (classes : list string) (o : option Z) (s : World) : Prop :=
  ∀ k, o = Some k → ∃ v, wd_revisions s !! k = Some v ∧ rv_tool_name v = name ∧ rv_enabled v = b2z enabled ∧
    rv_allowed_classes_json v = vec_to_string classes.

Lemma set_policy_good name enabled classes actor now o s :
  rollback_of_policy name enabled classes o s → wf s →
  let m := set_policy_with_actor name enabled classes actor now o in wf (m s).2 ∧ evolves s (m s).2.
Proof.
  intros Ho Hwf. cbn. unfold set_policy_with_actor. destruct (_ || _); [done|].
  unfold act_tx, transaction. destruct (wd_access s !! name) as [r|] eqn:Hr; [|done].
  unfold tx_bind. destruct (insert_revision _ _) as [[[] s']|e] eqn:Hi; [|done].
  apply insert_revision_ok in Hi as (-> & Hmax & _). apply (write_policy_good name _ _ s); try done.
  - by exists enabled, classes.
  - apply (wf_row _ Hwf _ _ Hr).
Qed.

Lemma save_approved_good p approved actor now :
  (∃ l, approved = vec_to_string l ∧ (p ≠ ApprovedIntegration → l = [])) →
  good (act_tx (save_approved p approved actor now)).
Proof.
  intros (l & Happ & Hp). apply good_tx. intros s [] s' Hwf. unfold save_approved.
  destruct (wd_profiles s !! profile_str p) as [r|] eqn:Hr; [|done].
  destruct (Z.ltb_spec 0 (i64_add (pf_revision r) 1)) as [Hpos|]; [|done]. cbn.
  destruct (wf_profile _ Hwf _ _ Hr) as (v & Hv & Hcap & Htools).
  destruct (wf_profile_revision _ Hwf _ _ _ Hv) as [(r' & Hr' & Hrev & Hmax) (p' & tools & Hk & Hcs & _)].
  rewrite Hr in Hr'. injection Hr' as <-.
  assert (p = p') as <- by (destruct p, p'; done).
  assert (pf_revision r < i64_max) as Hlt.
  { destruct (decide (pf_revision r = i64_max)) as [E|]; [|lia]. rewrite E in Hpos. by vm_compute in Hpos. }
  assert (i64_add (pf_revision r) 1 = pf_revision r + 1) as Hnext.
  { apply wrap_i64_id. unfold in_i64, i64_min, i64_max in *. lia. }
  rewrite Hnext. destruct (bool_decide _) eqn:Hfree; [done|].
  apply bool_decide_eq_false in Hfree. rewrite <-eq_None_not_Some in Hfree. intros [= <-].
  split; [destruct Hwf; split; try done; cbn|split; cbn; try done].
  - intros k r1 [[<- <-]|[Hne Hl]]%lookup_insert_Some.
    + cbn. eexists. split; [apply lookup_insert_eq|done].
    + rewrite lookup_insert_ne by congruence. by apply wf_profile0.
  - intros k n w [[[= <- <-] <-]|[Hne Hl]]%lookup_insert_Some; cbn.
    + split; [|by exists p, l; rewrite <-Hcap].
      rewrite lookup_insert_eq. eexists. split; [done|]. cbn. lia.
    + destruct (wf_profile_revision0 _ _ _ Hl) as [(r1 & Hr1 & ? & ?) ?]. split; [|done].
      destruct (decide (k = profile_str p)) as [->|].
      * rewrite lookup_insert_eq. eexists. split; [done|]. cbn. rewrite Hr in Hr1. injection Hr1 as <-. lia.
      * rewrite lookup_insert_ne by done. by exists r1.
  - congruence.
  - intros name r1 Hr1. left. by exists r1.
  - by apply insert_subseteq.
Qed.

Lemma insert_decision_good id row : good (act_tx (insert_decision id row)).
Proof.
  apply good_tx. intros s [] s' Hwf. unfold insert_decision. destruct (bool_decide _) eqn:Hfree; [done|].
  apply bool_decide_eq_false in Hfree. rewrite <-eq_None_not_Some in Hfree.
  destruct (negb _); [done|]. destruct (bool_decide _); [done|]. intros [= <-].
  split; [by apply (wf_tables s)|]. split; cbn; try done.
  - congruence.
  - intros name r Hr. left. by exists r.
  - by apply insert_subseteq.
Qed.

(** ** The requests *)

Definition safe {A} (p : proc World A) : Prop := spec wf evolves (λ _, True) p (λ _ _, True).

Lemma safe_finish {A} (a : A) : safe (Finish a).
Proof. done. Qed.
Lemma safe_bind {A B} (p : proc World A) (q : A → proc World B) : safe p → (∀ a, safe (q a)) → safe (proc_bind p q).
Proof. intros Hp Hq. eapply spec_bind; [exact Hp|]. intros a. apply Hq. Qed.
Lemma safe_try {E A B} (p : proc World (result E A)) (q : A → proc World (result E B)) :
  safe p → (∀ a, safe (q a)) → safe (try_bind p q).
Proof. intros Hp Hq. apply safe_bind; [done|]. intros [a|e]; [apply Hq|done]. Qed.
Lemma safe_call {E E' A} (from : E' → E) (m : act World E' A) : good m → safe (call from m).
Proof.
  intros Hm s Hs _. destruct (Hm s Hs). split_and!; [done..|]. exists (λ _, True). by split_and!.
Qed.
Lemma safe_peek {E A} (f : World → A) : safe (peek (E := E) f).
Proof. intros s Hs _. cbn. split_and!; [done..|]. exists (λ _, True). by split_and!. Qed.
Lemma safe_read {E E' A} (from : E' → E) (f : World → result E' A) : safe (call from (λ s, (f s, s))).
Proof. by apply safe_call. Qed.
Lemma safe_stmt {A} (m : act World DbError A) : good m → safe (stmt m).
Proof. by apply safe_call. Qed.
Lemma safe_reading {E A} (f : World → result E A) : safe (reading f).
Proof. by apply safe_call. Qed.

Create HintDb policy.
#[local] Hint Resolve safe_stmt safe_reading safe_finish safe_bind safe_try safe_call safe_peek safe_read : policy.
#[local] Hint Resolve upsert_seen_good mark_removed_good delete_by_source_good insert_decision_good : policy.
#[local] Hint Extern 1 (safe (ok _)) => exact (safe_finish _) : policy.
#[local] Hint Extern 1 (safe (fail _)) => exact (safe_finish _) : policy.

(** One step of the handler at a time. *)
Ltac safe_step :=
  first
    [ progress intros
    | solve [auto 2 with policy]
    | apply safe_try | apply safe_bind | apply safe_finish | apply safe_peek | apply safe_read
    | match goal with |- safe (match ?x with _ => _ end) => destruct x end ].
Ltac safely := repeat safe_step.

Lemma safe_record id d : safe (record id d).
Proof. unfold record. safely. Qed.
#[local] Hint Resolve safe_record : policy.

Lemma safe_record_policy_decision `{PrincipalCodec} d id name outcome reason :
  safe (record_policy_decision d id name outcome reason).
Proof. unfold record_policy_decision. safely. Qed.
#[local] Hint Resolve safe_record_policy_decision : policy.

Lemma safe_check_access `{PrincipalCodec} d name : safe (check_access d name).
Proof. unfold check_access, check_live_principal, check_safety_profile, profile_allows. safely. Qed.
#[local] Hint Resolve safe_check_access : policy.

Lemma safe_authorize `{PrincipalCodec} d id name : safe (authorize d id name).
Proof. unfold authorize, refuse. safely. Qed.

Lemma safe_set_policy {E} (from : DbError → E) name enabled classes actor now :
  safe (call from (set_policy_with_actor name enabled classes actor now None)).
Proof. apply safe_call. intros s Hs. by apply set_policy_good. Qed.
#[local] Hint Resolve safe_set_policy : policy.

Lemma b2z_negb e : (∃ b, e = b2z b) → b2z (negb (e =? 0)) = e.
Proof. by intros [[] ->]. Qed.

Lemma find_revision_known name k s enabled classes :
  wf s → find_revision name k s = Ok (Some (enabled, classes)) → rollback_of_policy name enabled classes (Some k) s.
Proof.
  intros Hwf. unfold find_revision. destruct (wd_revisions s !! k) as [v|] eqn:Hv; [|done].
  destruct (String.eqb_spec (rv_tool_name v) name) as [<-|]; [|done].
  destruct (wf_text _ Hwf _ _ Hv) as (b & l & Hb & Hl). rewrite Hl, vec_round. intros [= <- <-] _ [= <-].
  exists v. split_and!; [done..| |done]. rewrite Hb. by destruct b.
Qed.

Lemma rollback_of_policy_stable name enabled classes o :
  stable evolves (rollback_of_policy name enabled classes o).
Proof. intros s s' Hev Ho k (v & Hv & ?)%Ho. exists v. split; [|done]. eapply lookup_weaken, ev_revisions; done. Qed.

Lemma safe_rollback name k actor now : safe (rollback_policy_revision name k actor now).
Proof.
  unfold rollback_policy_revision. eapply spec_bind.
  - eapply (spec_call _ _ _ _ _ (λ a s, ∀ enabled classes, a = Some (enabled, classes) →
      rollback_of_policy name enabled classes (Some k) s)).
    + intros a s s' Hev Ha enabled classes Hc. eapply rollback_of_policy_stable; [done|by apply Ha].
    + intros s Hwf _. cbn. split_and!; [done..|]. destruct (find_revision name k s) as [a|] eqn:Hf; cbn; [|done].
      intros enabled classes ->. by apply find_revision_known.
  - intros [[[enabled classes]|]|e]; [|done..]. cbn [on_ok].
    intros s Hwf Hs. destruct (set_policy_good name enabled classes actor now (Some k) s) as [H1 H2]; [by apply Hs|done|].
    split_and!; [exact H1|exact H2|]. by exists (λ _, True).
Qed.
#[local] Hint Resolve safe_rollback : policy.

Lemma safe_save_approved {E} (from : DbError → E) p l actor now :
  p = ApprovedIntegration → safe (call from (act_tx (save_approved p (vec_to_string l) actor now))).
Proof. intros ->. apply safe_call, save_approved_good. by exists l. Qed.

Lemma safe_set_approved_tools p names actor now : safe (set_approved_tools p names actor now).
Proof.
  unfold set_approved_tools. destruct (_ || _); [done|].
  destruct (bool_decide _) eqn:Hp; [|done]. apply bool_decide_eq_true in Hp.
  cbn [negb]. destruct (tools_unique _ _); [|done]. cbn [negb]. apply safe_try; [by apply safe_save_approved|]. intros _. apply safe_read.
Qed.
#[local] Hint Resolve safe_set_approved_tools : policy.

Lemma safe_with_floors rows : safe (with_floors rows).
Proof. induction rows as [|row rows IH]; cbn [with_floors]; safely. Qed.
Lemma safe_upsert_all seeds now : safe (upsert_all seeds now).
Proof. induction seeds as [|seed seeds IH]; cbn [upsert_all]; safely. Qed.
Lemma safe_mark_all names now n : safe (mark_all names now n).
Proof. revert n. induction names as [|name names IH]; intros n; cbn [mark_all]; safely. Qed.
Lemma safe_mark_each names now : safe (mark_each names now).
Proof. induction names as [|name names IH]; cbn [mark_each]; safely. Qed.
#[local] Hint Resolve safe_with_floors safe_upsert_all safe_mark_all safe_mark_each : policy.

Lemma safe_audit actor table row_id before after : safe (audit actor table row_id before after).
Proof.
  unfold audit. apply safe_try; [apply safe_peek|]. intros now s Hs _. cbn. split_and!.
  - by apply (wf_tables s).
  - split; cbn; try done; [congruence| |by apply prefix_app_r].
    intros name r Hr. left. by exists r.
  - by exists (λ _, True).
Qed.
#[local] Hint Resolve safe_audit : policy.

Lemma safe_serve `{PrincipalCodec} q : safe (serve q).
Proof.
  destruct q; cbn [serve]; unfold quietly, list_handler, update_handler, revisions_handler, rollback_handler,
    simulate_handler, set_approved_tools_handler, set_policy, sync_tool_access, mark_plugin_tools_removed, sync_mcp_tools,
    controller_only, reading_or, some_or, in_db, clock, stmt, reading;
    [safely..|apply safe_authorize].
Qed.

(** ** The server *)

Section Serve.
Context `{PrincipalCodec}.

Definition policy_step := pool_step (R := result string ()) env (λ _ p, ∃ q, p = serve q).

(** A new database. *)
Record fresh (s : World) : Prop := {
  fr_access : wd_access s = ∅;
  fr_revisions : wd_revisions s = ∅;
  fr_last : wd_last_revision s = 0;
  fr_profiles : wd_profiles s = seeded_profiles;
  fr_profile_revisions : wd_profile_revisions s = seeded_profile_revisions
}.

Lemma fresh_wf s : fresh s → wf s.
Proof.
  intros []. split; rewrite ?fr_access0, ?fr_revisions0, ?fr_last0, ?fr_profiles0, ?fr_profile_revisions0; try done.
  - by left.
  - intros k r Hr%elem_of_list_to_map_2. cbn in Hr.
    rewrite !elem_of_cons, elem_of_nil in Hr.
    destruct Hr as [[= -> ->]|[[= -> ->]|[[= -> ->]|[]]]]; by eexists.
  - intros k n v Hv%elem_of_list_to_map_2. cbn in Hv.
    rewrite !elem_of_cons, elem_of_nil in Hv.
    destruct Hv as [[= -> -> ->]|[[= -> -> ->]|[[= -> -> ->]|[]]]];
      (split; [eexists; split; [reflexivity|by cbn]|]).
    + by exists InspectOnly, [].
    + by exists WorkspaceEdit, [].
    + by exists ApprovedIntegration, [].
Qed.

Lemma policy_rely c c' :
  rtc policy_step c c' → wf c.1 → Forall (going wf evolves c.1) c.2 →
  wf c'.1 ∧ evolves c.1 c'.1 ∧ Forall (going wf evolves c'.1) c'.2.
Proof.
  apply pool_rely_going; [apply _|apply env_evolves|]. intros s p [q ->]. apply safe_serve.
Qed.

Lemma policy_reached s c : fresh s → rtc policy_step (s, []) c → wf c.1 ∧ Forall (going wf evolves c.1) c.2.
Proof. intros Hs Hc. by destruct (policy_rely _ _ Hc) as (? & _ & ?); [by apply fresh_wf|done|]. Qed.

Lemma get_revision_kept p n snap s s' : evolves s s' → get_revision p n s = Ok snap → get_revision p n s' = Ok snap.
Proof.
  intros Hev. unfold get_revision. destruct (wd_profile_revisions s !! _) as [v|] eqn:Hv; [|done].
  by erewrite lookup_weaken by (by eauto using ev_profiles).
Qed.

(** C17: In a server that began with a new database, whatever requests
    interleaved: each tool's policy is the newest revision of that tool, a
    rollback repeats an older revision of its tool, and revisions, profile
    revisions and decisions are never changed or lost, newer revisions having
    greater numbers. *)
Theorem policy_history s0 c1 c2 :
  fresh s0 → rtc policy_step (s0, []) c1 → rtc policy_step c1 c2 →
  (∀ name r, wd_access c2.1 !! name = Some r →
     ∃ id v, newest c2.1 name id v ∧ rv_enabled v = ac_enabled r ∧ rv_allowed_classes_json v = ac_allowed_classes r) ∧
  (∀ id v, wd_revisions c2.1 !! id = Some v → rollback_sound c2.1 id v) ∧
  wd_revisions c1.1 ⊆ wd_revisions c2.1 ∧
  (∀ id v id' v', wd_revisions c1.1 !! id = Some v → wd_revisions c2.1 !! id' = Some v' →
     wd_revisions c1.1 !! id' = None → id < id') ∧
  wd_decisions c1.1 ⊆ wd_decisions c2.1 ∧
  (∀ p n snap, get_revision p n c1.1 = Ok snap → get_revision p n c2.1 = Ok snap).
Proof.
  intros Hs Hc1 Hc2. destruct (policy_reached _ _ Hs Hc1) as [Hwf1 Hgo].
  destruct (policy_rely _ _ Hc2 Hwf1 Hgo) as (Hwf2 & Hev & _). split_and!.
  - intros name r Hr. apply (wf_row _ Hwf2 _ _ Hr).
  - apply (wf_rollback _ Hwf2).
  - apply (ev_revisions _ _ Hev).
  - intros id v id' v' Hv Hv' Hn. pose proof (wf_seq _ Hwf1 _ _ Hv). pose proof (ev_fresh _ _ Hev _ _ Hv' Hn). lia.
  - apply (ev_decisions _ _ Hev).
  - intros p n snap. by apply get_revision_kept.
Qed.

(** ** An allowed call *)

(** [T] held at some moment since [s0]. *)
Definition during (s0 : World) (T : World → Prop) (s : World) : Prop :=
  ∃ m, wf m ∧ evolves s0 m ∧ evolves m s ∧ T m.

Lemma during_stable s0 T : stable evolves (during s0 T).
Proof. intros s s' Hev (m & ? & ? & ? & ?). exists m. split_and!; [done..|by etrans|done]. Qed.
Lemma and_stable P Q : stable evolves P → stable evolves Q → stable evolves (λ s, P s ∧ Q s).
Proof. intros HP HQ s s' Hev []. split; [by eapply HP|by eapply HQ]. Qed.
Lemma during_mono s0 (T T' : World → Prop) s : (∀ m, wf m → T m → T' m) → during s0 T s → during s0 T' s.
Proof. intros HT (m & ? & ? & ? & ?). exists m. auto. Qed.

(** What a part of the check knows: since [s0], and it stays so. *)
Record knows (s0 : World) (K : World → Prop) : Prop := {
  kn_stable : stable evolves K;
  kn_since : ∀ s, K s → evolves s0 s
}.

Lemma knows_and s0 K T : knows s0 K → stable evolves T → knows s0 (λ s, K s ∧ T s).
Proof. intros [] HT. split; [by apply and_stable|]. intros s [? _]. auto. Qed.
Lemma knows_during s0 K T : knows s0 K → knows s0 (λ s, K s ∧ during s0 T s).
Proof. intros HK. apply knows_and; [done|apply during_stable]. Qed.

(** A read, and the rest of the handler with what it saw. *)
Lemma spec_look {E A B} s0 K (f : World → A) (q : A → proc World (result E B)) Q :
  knows s0 K →
  (∀ a, spec wf evolves (λ s, K s ∧ during s0 (λ m, f m = a) s) (q a) Q) →
  spec wf evolves K (try_bind (peek f) q) Q.
Proof.
  intros HK Hq s Hs HKs. cbn. split_and!; [done..|].
  exists (λ s', K s' ∧ during s0 (λ m, f m = f s) s'). split_and!; [|done| |apply Hq].
  - apply and_stable; [apply HK|apply during_stable].
  - exists s. split_and!; [done|by apply HK|done..].
Qed.

(** ** The live principal *)

Definition live_authority (s0 : World) (d : Dispatcher) (s : World) : Prop :=
  ∀ pid snapshot, dp_live_principal d = Some (pid, snapshot) →
  ∃ t, snapshot = Some t ∧ class_tag t = trust_str (dp_caller_trust d) ∧
    (∀ by_ at_ reason, t ≠ StBlocked by_ at_ reason) ∧ (∀ first seq, t ≠ StUnknownPending first seq) ∧
    during s0 (λ m, get_principal pid m = Ok (Some t)) s ∧
    (∀ by_ scope expires_at, t = StDelegated by_ scope (Some expires_at) → during s0 (λ m, wd_clock m < expires_at) s).

Lemma principal_check_ok d t now current :
  principal_check d t now current = Ok () →
  current = Ok (Some t) ∧ class_tag t = trust_str (dp_caller_trust d) ∧
  (∀ by_ at_ reason, t ≠ StBlocked by_ at_ reason) ∧ (∀ first seq, t ≠ StUnknownPending first seq) ∧
  (∀ by_ scope expires_at, t = StDelegated by_ scope (Some expires_at) → now < expires_at).
Proof.
  unfold principal_check. destruct current as [[c|]|]; [|done..].
  case_bool_decide; [subst c|done]. cbn. destruct (String.eqb_spec (class_tag t) (trust_str (dp_caller_trust d))); [|done].
  cbn. intros Ht. split_and!; [done..| | |]; destruct t; try done.
  intros b sc ex [= -> -> ->]. by destruct (Z.leb_spec ex now).
Qed.

Lemma spec_check_live_principal s0 K d :
  knows s0 K → spec wf evolves K (check_live_principal d) (on_ok (λ _ s, K s ∧ live_authority s0 d s)).
Proof.
  intros HK. unfold check_live_principal.
  destruct (dp_live_principal d) as [[pid [t|]]|] eqn:Hl; [|done|].
  - destruct (negb _); [done|]. apply (spec_look s0); [done|]. intros current.
    apply (spec_look s0); [by apply knows_during|]. intros now. apply spec_pure.
    intros s _ [[HKs Hc] Hn]. destruct (principal_check d t now current) as [[]|] eqn:Hp; [|done]. cbn.
    apply principal_check_ok in Hp as (-> & Htag & Hb & Hu & He). split; [done|].
    unfold live_authority. rewrite Hl. intros ? ? [= <- <-]. exists t. split_and!; [done..|].
    intros b sc e ->. eapply during_mono; [|exact Hn]. cbn. intros m _ ->. by eapply He.
  - apply spec_pure. intros s _ HKs. cbn. split; [done|]. unfold live_authority. by rewrite Hl.
Qed.

(** ** The policy row *)

Lemma has_name_spec l x : has_name l x = true ↔ x ∈ l.
Proof.
  unfold has_name. rewrite existsb_exists. split.
  - intros (y & Hy & ->%String.eqb_eq). by apply list_elem_of_In.
  - intros Hx. exists x. split; [by apply list_elem_of_In|apply String.eqb_refl].
Qed.

Lemma foldr_max_ge k l x : x ∈ k :: l → x ≤ foldr Z.max k l.
Proof.
  induction l as [|y l IH]; cbn; rewrite ?elem_of_cons, ?elem_of_nil; [intros [->|[]]; lia|].
  rewrite elem_of_cons in IH. intros [Hx|[->|Hl]]; [|lia|]; (etrans; [apply IH|lia]); [by left|by right].
Qed.
Lemma foldr_max_in k l : foldr Z.max k l ∈ k :: l.
Proof.
  induction l as [|y l IH]; cbn; [by left|]. destruct (Z.max_spec y (foldr Z.max k l)) as [[_ ->]|[_ ->]].
  - apply elem_of_cons in IH as [E|E]; [rewrite E; by left|right; by right].
  - right. by left.
Qed.

Lemma elem_of_keys {A} (m : gmap Z A) k : k ∈ map fst (map_to_list m) ↔ is_Some (m !! k).
Proof.
  rewrite list_elem_of_In, in_map_iff. split.
  - intros ([k' x] & <- & Hin). exists x. by apply elem_of_map_to_list, list_elem_of_In.
  - intros [x Hx]. exists (k, x). split; [done|]. by apply list_elem_of_In, elem_of_map_to_list.
Qed.

Lemma max_key_unique {A} (m : gmap Z A) n :
  is_Some (m !! n) → (∀ k, is_Some (m !! k) → k ≤ n) → max_key m = n.
Proof.
  intros Hn Hmax. unfold max_key. pose proof (elem_of_keys m) as Hk.
  destruct (map fst (map_to_list m)) as [|k ks].
  - apply Hk in Hn. by apply elem_of_nil in Hn.
  - apply Z.le_antisymm; [apply Hmax, Hk, foldr_max_in|by apply foldr_max_ge, Hk].
Qed.

Lemma latest_is_last s : wf s → latest_policy_revision_id s = wd_last_revision s.
Proof.
  intros Hwf. unfold latest_policy_revision_id. destruct (wf_last _ Hwf) as [H0'|Hl].
  - rewrite H0'. replace (wd_revisions s) with (∅ : gmap Z RevisionRow); [done|].
    symmetry. apply map_empty. intros k. destruct (wd_revisions s !! k) eqn:Hk; [|done].
    apply wf_seq in Hk; [lia|done].
  - apply max_key_unique; [done|]. intros k [v Hv]. apply (wf_seq _ Hwf _ _ Hv).
Qed.

(** Every tool there is has the policy it had. *)
Definition policy_unchanged (s0 m : World) : Prop :=
  ∀ name r, wd_access m !! name = Some r → ∃ r0, wd_access s0 !! name = Some r0 ∧ same_policy r0 r.

(** The tool has no row, or one that lets the caller use it. *)
Definition row_permits (d : Dispatcher) (name : string) (m : World) : Prop :=
  ∀ r, wd_access m !! name = Some r →
  ac_removed_at r = None ∧ ac_enabled r = 1 ∧
  ∃ classes, ac_allowed_classes r = vec_to_string classes ∧ trust_str (dp_caller_trust d) ∈ classes.

Lemma row_check_permits d name m : wf m → row_check d name (get name m) = Ok () ↔ row_permits d name m.
Proof.
  intros Hwf. unfold row_check, get, row_permits. destruct (wd_access m !! name) as [r|] eqn:Hr; [|by split].
  destruct (wf_row _ Hwf _ _ Hr) as ([source Hs] & id & v & (Hv & _) & He & Hc).
  destruct (wf_text _ Hwf _ _ Hv) as (b & l & Hb & Hl). unfold row_to_tool_access.
  rewrite Hs, <-Hc, <-He, Hb, Hl, vec_round.
  replace (source_parse (source_str source)) with (Some source) by by destruct source. cbn.
  replace (negb (b2z b =? 0)) with b by by destruct b.
  destruct b; cbn; [|split; [done|intros Hp; destruct (Hp _ eq_refl) as (_ & Hp' & _); by rewrite <-He, Hb in Hp']].
  case_bool_decide as Hrem.
  { split; [done|]. intros Hp. destruct (Hp _ eq_refl) as [E _]. rewrite E in Hrem. by destruct Hrem. }
  rewrite <-eq_None_not_Some in Hrem.
  fold (has_name l (trust_str (dp_caller_trust d))). destruct (has_name l (trust_str (dp_caller_trust d))) eqn:Hn; cbn; split; try done.
  - intros _ r' [= <-]. apply has_name_spec in Hn. split_and!; [done|cbn in Hb; congruence|]. exists l. split; [congruence|done].
  - intros Hp. destruct (Hp _ eq_refl) as (_ & _ & l' & El & Hin). rewrite <-Hc, Hl in El.
    assert (l = l') as <- by (apply (f_equal vec_from_str) in El; rewrite !vec_round in El; congruence).
    apply has_name_spec in Hin. congruence.
Qed.

Definition opened (s0 : World) (d : Dispatcher) : Prop :=
  dp_access_db d = true ∧ dp_policy_revision_snapshot d = Some (latest_policy_revision_id s0).

Lemma unchanged_since s0 m : evolves s0 m → wd_last_revision s0 = wd_last_revision m → policy_unchanged s0 m.
Proof. intros Hev E name r Hr. destruct (ev_rows _ _ Hev _ _ Hr) as [?|]; [done|lia]. Qed.

(** ** The profile *)

Definition profile_admits (s0 : World) (d : Dispatcher) (name : string) (s : World) : Prop :=
  ∀ p, dp_safety_profile d = Some p → always_offered name = false →
  ∃ b, during s0 (λ m, builtin (wd_registry m) name = b) s ∧
  match b with
  | Some descriptor => allows_builtin p name (dc_capabilities descriptor) = true
  | None =>
      if starts_with name MCP_TOOL_PREFIX then allows_mcp_tool p name = true
      else ∃ t, during s0 (λ m, tool (wd_registry m) name = Some t) s ∧
             allows_plugin_tool p name (rt_required_capabilities t) = true
  end.

Lemma spec_profile_allows s0 K p name :
  knows s0 K →
  spec wf evolves K (profile_allows p name) (on_ok (λ a s, K s ∧ (a = true →
    ∃ b, during s0 (λ m, builtin (wd_registry m) name = b) s ∧
    match b with
    | Some descriptor => allows_builtin p name (dc_capabilities descriptor) = true
    | None =>
        if starts_with name MCP_TOOL_PREFIX then allows_mcp_tool p name = true
        else ∃ t, during s0 (λ m, tool (wd_registry m) name = Some t) s ∧
               allows_plugin_tool p name (rt_required_capabilities t) = true
    end))).
Proof.
  intros HK. unfold profile_allows. apply (spec_look s0); [done|]. intros [desc|].
  { apply spec_pure. intros s _ [HKs Hb]. split; [done|]. intros Ha. by exists (Some desc). }
  destruct (starts_with name MCP_TOOL_PREFIX) eqn:Hm.
  { apply spec_pure. intros s _ [HKs Hb]. split; [done|]. intros Ha. by exists None. }
  apply (spec_look s0); [by apply knows_during|]. intros t. apply spec_pure.
  intros s _ [[HKs Hb] Ht]. split; [done|]. intros Ha. exists None. split; [done|].
  destruct t as [t|]; [|done]. by exists t.
Qed.

Lemma spec_check_safety_profile s0 K d name :
  knows s0 K → spec wf evolves K (check_safety_profile d name) (on_ok (λ _ s, K s ∧ profile_admits s0 d name s)).
Proof.
  intros HK. unfold check_safety_profile, profile_admits.
  destruct (dp_safety_profile d) as [p|]; [|by apply spec_pure].
  destruct (always_offered name); [by apply spec_pure|].
  eapply spec_try; [by apply spec_profile_allows|]. intros []; [|done].
  apply spec_pure. intros s _ [HKs Hp]. split; [done|]. intros p' [= <-] _. by apply Hp.
Qed.

Definition policy_admits (s0 : World) (d : Dispatcher) (name : string) (s : World) : Prop :=
  dp_access_db d = true → during s0 (policy_unchanged s0) s ∧ during s0 (row_permits d name) s.

Lemma live_authority_stable s0 d : stable evolves (live_authority s0 d).
Proof.
  intros s s' Hev Hl pid snapshot E. destruct (Hl _ _ E) as (t & ? & ? & ? & ? & Hd & Hx).
  exists t. split_and!; [done..| |]; [by eapply during_stable|].
  intros b sc ex E'. eapply during_stable; [done|by eapply Hx].
Qed.
Lemma policy_admits_stable s0 d name : stable evolves (policy_admits s0 d name).
Proof. intros s s' Hev Hp E. destruct (Hp E). split; by eapply during_stable. Qed.
Lemma profile_admits_stable s0 d name : stable evolves (profile_admits s0 d name).
Proof.
  intros s s' Hev Hf p E Ha. destruct (Hf _ E Ha) as (b & Hb & Hm). exists b. split; [by eapply during_stable|].
  destruct b; [done|]. destruct (starts_with _ _); [done|]. destruct Hm as (t & Ht & ?).
  exists t. split; [by eapply during_stable|done].
Qed.

Lemma spec_check_access s0 K d name :
  wf s0 → opened s0 d → knows s0 K →
  spec wf evolves K (check_access d name)
    (on_ok (λ _ s, ((K s ∧ live_authority s0 d s) ∧ policy_admits s0 d name s) ∧ profile_admits s0 d name s)).
Proof.
  intros Hwf0 [Hdb Hsnap] HK. unfold check_access.
  assert (knows s0 (λ s, K s ∧ live_authority s0 d s)) as HK1 by (apply knows_and; [done|apply live_authority_stable]).
  assert (knows s0 (λ s, (K s ∧ live_authority s0 d s) ∧ policy_admits s0 d name s)) as HK2
    by (apply knows_and; [done|apply policy_admits_stable]).
  eapply spec_try; [by apply spec_check_live_principal|]. intros [].
  rewrite Hdb. eapply (spec_try _ _ _ _ _ (λ _ s, (K s ∧ live_authority s0 d s) ∧ policy_admits s0 d name s));
    [|intros []; by apply (spec_check_safety_profile s0 _ d name HK2)].
  apply (spec_look s0); [done|]. intros current. rewrite Hsnap.
  case_bool_decide as Hc; [|done]. cbn [negb]. injection Hc as <-.
  apply (spec_look s0); [by apply knows_during|]. intros row. apply spec_pure.
  intros s _ [[HKs Hrev] Hrow]. destruct (row_check d name row) as [[]|] eqn:Hcheck; [|done].
  split; [done|]. intros _. split.
  - destruct Hrev as (m & Hwf & Hev & Hev' & E). exists m. split_and!; [done..|].
    apply unchanged_since; [done|]. by rewrite !latest_is_last in E.
  - eapply during_mono; [|exact Hrow]. intros m Hwf E. cbn in E. rewrite <-E in Hcheck. by apply row_check_permits in Hcheck.
Qed.

(** ** The decision on record *)

Definition on_record (d : Dispatcher) (id name : string) (s : World) : Prop :=
  ∀ run_id conversation_id seq, dp_policy_context d = Some (run_id, conversation_id, seq) →
  ∃ row, wd_decisions s !! id = Some row ∧
    dr_outcome row = outcome_str Allowed ∧ dr_tool_name row = name ∧ dr_run_id row = run_id ∧
    dr_conversation_id row = conversation_id ∧ dr_input_event_seq row = seq ∧
    dr_caller_trust row = trust_str (dp_caller_trust d) ∧
    dr_profile_id row = profile_str ∘ ss_profile_id <$> dp_safety_profile d ∧
    dr_profile_revision row = ss_revision <$> dp_safety_profile d.

Lemma insert_decision_ok id row s s' : insert_decision id row s = Ok ((), s') → wd_decisions s' !! id = Some row.
Proof.
  unfold insert_decision. repeat (case_match; [done|]). intros [= <-]. apply lookup_insert_eq.
Qed.

Lemma spec_record_decision K id d :
  stable evolves K →
  spec wf evolves K (record id d)
    (on_ok (λ _ s, K s ∧ ∃ revision, wd_decisions s !! id = Some (decision_row d revision))).
Proof.
  intros HK. unfold record. destruct (decision_invalid d); [done|].
  eapply spec_try; [apply (spec_peek _ _ _ _ (λ _, K)); [apply _|done|by intros]|]. intros revision. cbn beta.
  apply (spec_try _ _ _ _ _ (λ _ s, K s ∧ ∃ revision, wd_decisions s !! id = Some (decision_row d revision)));
    [|intros []; by apply spec_pure].
  apply spec_call.
  - intros _. apply and_stable; [done|]. intros s s' Hev [rev Hl]. exists rev. by eapply lookup_weaken, ev_decisions.
  - intros s Hs HKs. destruct (insert_decision_good id (decision_row d revision) s Hs) as [H1' H2'].
    split_and!; [done..|]. destruct (act_tx _ s) as [[[]|] s'] eqn:Hi; [|done]. cbn in *.
    apply act_tx_ok, insert_decision_ok in Hi. split; [by apply (HK s)|by exists revision].
Qed.

Lemma spec_record_allowed s0 K d id name :
  knows s0 K → dp_access_db d = true →
  spec wf evolves K (record_policy_decision d id name Allowed "allowed")
    (on_ok (λ _ s, K s ∧ on_record d id name s)).
Proof.
  intros HK Hdb. unfold record_policy_decision, on_record.
  destruct (dp_policy_context d) as [[[run conv] seq]|]; [|by apply spec_pure]. rewrite Hdb. cbn [negb].
  apply (spec_look s0); [done|]. intros access.
  apply (spec_look s0); [by apply knows_during|]. intros b.
  eapply (spec_try _ _ _ _ _ (λ _, K)).
  { destruct b; [by apply spec_pure; intros s _ [[HKs _] _]|].
    eapply spec_pre; [|apply (spec_peek _ _ K _ (λ _, K)); [apply _|intros; apply HK|done]]. by intros s _ [[HKs _] _]. }
  intros t. eapply (spec_try _ _ _ _ _ (λ _, K)).
  { apply (spec_peek _ _ K _ (λ _, K)); [apply _|intros; apply HK|done]. }
  intros now. destruct (tool_facts name b t) as [[[required floor] sensitive] effect]. cbn beta iota zeta.
  eapply spec_bind; [apply spec_record_decision, HK|]. intros [rid|e]; [|done].
  apply spec_pure. intros s _ [HKs [rev Hl]]. split; [done|]. intros ? ? ? [= <- <- <-]. by eexists.
Qed.

(** ** Capabilities and floors *)

Definition capabilities_granted (s0 : World) (d : Dispatcher) (name : string) (s : World) : Prop :=
  ∃ b, during s0 (λ m, builtin (wd_registry m) name = b) s ∧
  ∀ descriptor c, b = Some descriptor → c ∈ dc_capabilities descriptor →
  check_builtin_capability c (dp_caller_caps d) = Ok ().

Definition contract_met (s0 : World) (d : Dispatcher) (name : string) (s : World) : Prop :=
  ∃ o, during s0 (λ m, tool (wd_registry m) name = o) s ∧
  ∀ t, o = Some t →
  (∀ c, c ∈ rt_required_capabilities t → "*" ∈ dp_caller_caps d ∨ c ∈ dp_caller_caps d) ∧
  (∀ floor required, rt_trust_floor t = Some floor → trust_parse floor = Some required →
     rank required ≤ rank (dp_caller_trust d)).

Lemma first_missing_none caps l c : first_missing caps l = None → c ∈ l → check_builtin_capability c caps = Ok ().
Proof.
  induction l as [|x l IH]; cbn; [by intros _ ?%elem_of_nil|].
  destruct (check_builtin_capability x caps) as [[]|] eqn:Hx; [|done]. by intros Hl [->|]%elem_of_cons; auto.
Qed.

Lemma ungranted_false caps required c : ungranted caps required = false → c ∈ required → "*" ∈ caps ∨ c ∈ caps.
Proof.
  unfold ungranted. destruct (has_name caps "*") eqn:Hw; cbn; [intros _ _; left; by apply has_name_spec|].
  intros He Hc. right. apply has_name_spec. apply list_elem_of_In in Hc.
  destruct (has_name caps c) eqn:Hn; [done|].
  assert (existsb (λ r, negb (has_name caps r)) required = true) by (apply existsb_exists; exists c; by rewrite Hn).
  congruence.
Qed.

Lemma below_floor_false d o floor required :
  below_floor d o = false → o = Some floor → trust_parse floor = Some required → rank required ≤ rank (dp_caller_trust d).
Proof. intros Hb -> Hp. cbn in Hb. rewrite Hp in Hb. lia. Qed.

(** What an allowed call may rely on, from the moment [s0] its turn began. *)
Record authorized (s0 : World) (d : Dispatcher) (id name : string) (s : World) : Prop := {
  az_live : live_authority s0 d s;
  az_policy : policy_admits s0 d name s;
  az_profile : profile_admits s0 d name s;
  az_capabilities : capabilities_granted s0 d name s;
  az_contract : contract_met s0 d name s;
  az_record : on_record d id name s
}.

Lemma spec_refuse {A} Pre d id name reason error (Q : A → World → Prop) :
  spec wf evolves Pre (refuse d id name reason error) (on_ok Q).
Proof.
  unfold refuse. eapply (spec_bind _ _ _ _ _ (λ _ _, True)).
  - eapply spec_pre; [|apply safe_record_policy_decision]. done.
  - by intros [[]|e].
Qed.

(** What is known of the caller, the policies and the profile once the access
    check has passed. *)
Definition admitted (s0 : World) (d : Dispatcher) (name : string) (s : World) : Prop :=
  ((evolves s0 s ∧ live_authority s0 d s) ∧ policy_admits s0 d name s) ∧ profile_admits s0 d name s.

Lemma knows_since s0 : knows s0 (evolves s0).
Proof. split; [intros s s' ? ?; by etrans|done]. Qed.
Lemma knows_admitted s0 d name : knows s0 (admitted s0 d name).
Proof.
  apply knows_and; [|apply profile_admits_stable]. apply knows_and; [|apply policy_admits_stable].
  apply knows_and; [apply knows_since|apply live_authority_stable].
Qed.

Lemma spec_allow s0 d id name b o :
  dp_access_db d = true →
  match b with Some descriptor => first_missing (dp_caller_caps d) (dc_capabilities descriptor) | None => None end = None →
  (∀ t, o = Some t →
     ungranted (dp_caller_caps d) (rt_required_capabilities t) = false ∧ below_floor d (rt_trust_floor t) = false) →
  spec wf evolves
    (λ s, (admitted s0 d name s ∧ during s0 (λ m, builtin (wd_registry m) name = b) s)
          ∧ during s0 (λ m, tool (wd_registry m) name = o) s)
    (record_policy_decision d id name Allowed "allowed") (on_ok (λ _ s, authorized s0 d id name s)).
Proof.
  intros Hdb Hb Ho. eapply spec_post; [|apply (spec_record_allowed s0); [|done]].
  2: { apply knows_during, knows_during, knows_admitted. }
  intros [[]|e] s; [|done]. cbn.
  intros [[[[[[_ Hlive] Hpolicy] Hprofile] Hbuiltin] Htool] Hrecord]. split; [done..| | |done].
  - exists b. split; [done|]. intros descriptor c -> Hc. by eapply first_missing_none.
  - exists o. split; [done|]. intros t ->. destruct (Ho t eq_refl) as [Hu Hf]. split.
    + intros c. by apply ungranted_false.
    + intros floor required. by apply below_floor_false.
Qed.

Lemma spec_authorize s0 d id name :
  wf s0 → opened s0 d →
  spec wf evolves (evolves s0) (authorize d id name) (on_ok (λ _ s, authorized s0 d id name s)).
Proof.
  intros Hwf0 Hop. unfold authorize.
  eapply (spec_bind _ _ _ _ _ (on_ok (λ _, admitted s0 d name)));
    [apply spec_check_access; [done..|apply knows_since]|].
  intros [[]|e]; [|apply spec_refuse]. cbn [on_ok].
  apply (spec_look s0); [apply knows_admitted|]. intros b.
  destruct (match b with Some descriptor => first_missing _ _ | None => None end) as [missing|] eqn:Hm; [apply spec_refuse|].
  apply (spec_look s0); [apply knows_during, knows_admitted|]. intros o.
  destruct Hop as [Hdb _]. destruct o as [t|]; [|by apply spec_allow].
  destruct (ungranted _ _) eqn:Hu; [apply spec_refuse|]. destruct (below_floor _ _) eqn:Hf; [apply spec_refuse|].
  apply spec_allow; [done..|]. by intros t' [= <-].
Qed.

(** [with_access_gate] opens the turn's dispatcher. *)
Lemma with_access_gate_opened caps trust s0 d :
  (run_proc (with_access_gate caps trust) s0).1 = Ok d → opened s0 d.
Proof. cbn. by intros [= <-]. Qed.

(** C11: A tool call is allowed only if, since its turn began and whatever
    interleaved: the caller's principal still had the recorded authority, not
    blocked, pending or expired; at some moment no tool had another policy
    than when the turn began, and at some moment the tool's row, if it had
    one, was enabled, registered and open to the caller's class; the task
    profile admitted the tool as the registry described it; the caller had the
    capabilities and the trust the tool's contract asks for; and the decision
    is on record under the call's run, conversation, caller and profile. *)
Theorem tool_call_authorized w s0 ps0 c c' i d id name :
  fresh w → rtc policy_step (w, []) (s0, ps0) → opened s0 d →
  rtc policy_step (s0, ps0) c → c.2 !! i = Some (authorize d id name) →
  rtc policy_step c c' → c'.2 !! i = Some (Finish (Ok ())) →
  authorized s0 d id name c'.1.
Proof.
  intros Hw Hs0 Hop Hc Hi Hc' Hr. destruct (policy_reached _ _ Hw Hs0) as [Hwf0 Hgo0].
  destruct (policy_rely _ _ Hc Hwf0 Hgo0) as (Hwf & Hev & Hgo).
  refine (pool_spec wf evolves env _ _ _ _ c c' i _ (evolves s0) (on_ok (λ _ s, authorized s0 d id name s)) (Ok ())
            Hc' Hwf Hgo Hi _ Hev _ Hr).
  - apply env_evolves.
  - intros s p [q ->]. apply safe_serve.
  - apply knows_since.
  - by apply spec_authorize.
Qed.
End Serve.
End Invariant.

(** ** A server at work *)

(** A list of names as text: each character after a dot, each name closed by a
    semicolon. *)
Fixpoint toy_name (s rest : string) : string :=
  match s with
  | EmptyString => String ";"%char rest
  | String c s => String "."%char (String c (toy_name s rest))
  end.
Fixpoint toy_names_parse (name s : string) : option (list string) :=
  match s with
  | EmptyString => Some []
  | String ";"%char s => match toy_names_parse "" s with Some l => Some (name :: l) | None => None end
  | String "."%char (String c s) => toy_names_parse (name +:+ String c "") s
  | _ => None
  end.
Definition toy_names : NameList := {|
  vec_to_string := foldr toy_name "";
  vec_from_str := toy_names_parse ""
|}.

Lemma string_app_snoc s c t : (s +:+ String c "") +:+ t = s +:+ String c t.
Proof. induction s as [|x s IH]; [done|]. exact (f_equal (String x) IH). Qed.
Lemma string_app_empty s : s +:+ "" = s.
Proof. induction s as [|x s IH]; [done|]. exact (f_equal (String x) IH). Qed.
Lemma toy_name_parse s rest name :
  toy_names_parse name (toy_name s rest) =
  match toy_names_parse "" rest with Some l => Some ((name +:+ s) :: l) | None => None end.
Proof.
  revert name. induction s as [|c s IH]; intros name; cbn [toy_name toy_names_parse]; [by rewrite string_app_empty|].
  by rewrite IH, string_app_snoc.
Qed.
Lemma toy_names_laws : @NameListLaws toy_names.
Proof. intros l. cbn. induction l as [|s l IH]; cbn; [done|]. by rewrite toy_name_parse, IH. Qed.

(** Every principal reads as the Controller. *)
Definition toy_principals : PrincipalCodec := {|
  identifiers_readable _ := true;
  trust_from_slice _ := Some StController;
  resolved_readable _ := true;
  metadata_readable _ := true
|}.

#[local] Existing Instances toy_names toy_names_laws toy_principals.

Definition toy_search : ToolDescriptor := mkDescriptor "search" "" "{}" [Search] ["Controller"] false.
Definition toy_world : World :=
  mkWorld 100 ∅ ∅ 0 seeded_profiles seeded_profile_revisions ∅ {[("c", 1) := []]}
    {["ann" := mkPrincipalRow [] [] [] []]}
    {["u1" := mkUserRecord "ann" "ann" None "h" "controller" 0 None]} None
    (mkRegistry ∅ ∅ {["search" := toy_search]}) [].

Lemma toy_world_fresh : fresh toy_world.
Proof. by split. Qed.

(** The tools are registered, then the turn begins. *)
Definition toy_start : World * list (gate ()) := run_schedule (repeat 0%nat 3) (toy_world, [serve (SyncTools 100)]).
Definition toy_dispatcher : Dispatcher :=
  mkDispatcher ["*"] Controller true (Some (latest_policy_revision_id toy_start.1))
    (Some (mkSnapshot ApprovedIntegration 1 (for_profile ApprovedIntegration) ["search"])) (Some ("r", "c", 1))
    (Some ("ann", Some StController)).
(** While the call is checked, the same tool is seen again. *)
Definition toy_calls : World * list (gate ()) :=
  (toy_start.1, toy_start.2 ++ [serve (ToolCall toy_dispatcher "d1" "search"); serve (SyncTools 101)]).
Definition toy_end : World * list (gate ()) :=
  run_schedule [1%nat; 2%nat; 1%nat; 2%nat; 1%nat; 2%nat; 1%nat; 1%nat; 1%nat; 1%nat; 1%nat; 1%nat; 1%nat; 1%nat; 1%nat; 1%nat; 1%nat; 1%nat] toy_calls.

Lemma toy_start_steps : rtc policy_step (toy_world, []) toy_start.
Proof. eapply rtc_l; [apply step_accept; by eexists|apply run_schedule_steps]. Qed.
Lemma toy_calls_steps : rtc policy_step toy_start toy_calls.
Proof.
  apply (rtc_l _ _ (toy_start.1, toy_start.2 ++ [serve (ToolCall toy_dispatcher "d1" "search")])).
  - rewrite (surjective_pairing toy_start) at 1. apply step_accept. by eexists.
  - unfold toy_calls. rewrite (cons_middle (serve (ToolCall _ _ _)) toy_start.2 [_]), (app_assoc _ [_] [_]).
    apply rtc_once, step_accept. by eexists.
Qed.

Example toy_allowed : toy_end.2 !! 1%nat = Some (Finish (Ok ())).
Proof. vm_compute. reflexivity. Qed.
Lemma toy_called : toy_calls.2 !! 1%nat = Some (authorize toy_dispatcher "d1" "search").
Proof.
  unfold toy_calls. cbn [snd]. assert (length toy_start.2 = 1%nat) as Hl by by vm_compute.
  by rewrite lookup_app_r, Hl by lia.
Qed.

Lemma tool_call_authorized_witness :
  toy_end.2 !! 1%nat = Some (Finish (Ok ())) ∧ authorized toy_start.1 toy_dispatcher "d1" "search" toy_end.1.
Proof.
  split; [exact toy_allowed|].
  refine (tool_call_authorized toy_world toy_start.1 toy_start.2 toy_calls toy_end 1 toy_dispatcher "d1" "search"
    toy_world_fresh _ _ _ toy_called (run_schedule_steps _ _ _ _) toy_allowed).
  - rewrite <-surjective_pairing. exact toy_start_steps.
  - split; reflexivity.
  - rewrite <-surjective_pairing. exact toy_calls_steps.
Defined.

Lemma policy_history_witness :
  (∃ r id v, wd_access toy_end.1 !! "search" = Some r ∧ newest toy_end.1 "search" id v ∧
     rv_allowed_classes_json v = ac_allowed_classes r) ∧
  wd_revisions toy_start.1 ⊆ wd_revisions toy_end.1.
Proof.
  destruct (policy_history toy_world toy_start toy_end toy_world_fresh toy_start_steps) as (Hrow & _ & Hsub & _).
  { etrans; [exact toy_calls_steps|apply run_schedule_steps]. }
  split; [|exact Hsub]. destruct (wd_access toy_end.1 !! "search") as [r|] eqn:Hr; [|by vm_compute in Hr].
  destruct (Hrow _ _ Hr) as (id & v & Hn & _ & Hc). exists r, id, v. split; [reflexivity|]. split; [exact Hn|exact Hc].
Defined.
