(* ===== verification/ToolGuarantees.v ===== *)
(** * What profiles, rollbacks and simulations do

    Exact statements over the definitions of [ToolPolicy], [ToolGate] and
    [ToolRoutes], in the states [ToolSafety] shows reachable: which tools a
    task profile admits, what a rollback leaves behind, and what a simulation
    reports. *)

From stdpp Require Import relations.
From S2P Require Import Prelude Wire Text ServiceBase Procs AuthStores AuthRoutes Policy ToolPolicy ToolGate ToolRoutes ToolSafety.

(** ** Task profiles *)

Definition reads_only (c : Capability) : Prop :=
  c ∈ [ConversationRead; TaskRead; ScheduleRead; ResearchRead].
(** What an approval of the tool adds. *)
Definition integrates (c : Capability) : Prop :=
  c ∈ [MemoryRead; WebFetch; Search; ResearchSpawn; Transport; Notify; AttachmentSend; McpAdmin; SubagentSpawn].

(** The tools a profile admits, in words of its identity and of the approved
    names. *)
Definition builtin_admitted (p : SafetyProfileId) (approved : Prop) (capabilities : list Capability) : Prop :=
  capabilities ≠ [] ∧ (∀ c, c ∈ capabilities → reads_only c ∨ (p = ApprovedIntegration ∧ approved ∧ integrates c)).
(** The capabilities a plugin's tool may require under a profile. *)
Definition grants (p : SafetyProfileId) : list string :=
  match p with
  | InspectOnly => ["data.read"; "workspace.read"]
  | WorkspaceEdit => ["data.read"; "workspace.read"; "workspace.write"; "workspace.process"]
  | ApprovedIntegration =>
      ["data.read"; "workspace.read"; "integration.approved"; "network.approved"; "secret.brokered";
       "destination.approved"]
  end.
Definition plugin_admitted (p : SafetyProfileId) (approved : Prop) (required : list string) : Prop :=
  match required with
  | [] => p = ApprovedIntegration ∧ approved
  | _ => (∀ c, c ∈ required →
      c ∈ grants p ∨ ((∀ p', c ∉ grants p') ∧ p = ApprovedIntegration ∧ approved))
  end.
Definition tool_admitted (g : Registry) (p : SafetyProfileId) (tools : list string) (name : string) : Prop :=
  name = "execlaw.discover_tool" ∨ name = "execlaw.read_artifact" ∨
  match builtin g name with
  | Some descriptor => builtin_admitted p (name ∈ tools) (dc_capabilities descriptor)
  | None =>
      if starts_with name MCP_TOOL_PREFIX then p = ApprovedIntegration ∧ name ∈ tools
      else ∃ t, tool g name = Some t ∧ plugin_admitted p (name ∈ tools) (rt_required_capabilities t)
  end.

Lemma forallb_elem {A} (f : A → bool) l : forallb f l = true ↔ ∀ x, x ∈ l → f x = true.
Proof. rewrite forallb_forall. by setoid_rewrite list_elem_of_In. Qed.

Lemma capability_allowed_iff p c b :
  capability_allowed (for_profile p) c b = true ↔ reads_only c ∨ (p = ApprovedIntegration ∧ b = true ∧ integrates c).
Proof.
  unfold reads_only, integrates. rewrite !elem_of_cons, !elem_of_nil.
  destruct p, c, b; cbn; intuition congruence.
Qed.

Lemma builtin_admitted_iff p n tools name capabilities :
  allows_builtin (mkSnapshot p n (for_profile p) tools) name capabilities = true ↔
  builtin_admitted p (name ∈ tools) capabilities.
Proof.
  unfold allows_builtin, builtin_admitted, profile_tool_approved. cbn. rewrite andb_true_iff, forallb_elem.
  setoid_rewrite capability_allowed_iff. setoid_rewrite has_name_spec.
  assert (negb (is_nil capabilities) = true ↔ capabilities ≠ []) as -> by by destruct capabilities. done.
Qed.

Lemma grants_names p : profile_capability_names (for_profile p) = grants p.
Proof. by destruct p. Qed.

Lemma declared_iff p c :
  has_name DECLARED_CAPABILITIES c = true →
  allows_declared_capability (for_profile p) c = true ↔ c ∈ grants p.
Proof.
  rewrite has_name_spec. unfold DECLARED_CAPABILITIES. rewrite !elem_of_cons, elem_of_nil.
  intros Hc. rewrite <-has_name_spec. by destruct p; destruct_or! Hc; subst.
Qed.

Lemma grants_declared c : c ∈ DECLARED_CAPABILITIES ↔ ∃ p, c ∈ grants p.
Proof.
  split.
  - unfold DECLARED_CAPABILITIES. rewrite !elem_of_cons, elem_of_nil.
    intros Hc. destruct_or! Hc; subst; try done;
      first [exists WorkspaceEdit; by apply has_name_spec|exists ApprovedIntegration; by apply has_name_spec].
  - intros [p Hc]. assert (forallb (has_name DECLARED_CAPABILITIES) (grants p) = true) as Hall by by destruct p.
    by apply has_name_spec, (proj1 (forallb_elem _ _) Hall).
Qed.

Lemma plugin_admitted_iff p n tools name required :
  allows_plugin_tool (mkSnapshot p n (for_profile p) tools) name required = true ↔
  plugin_admitted p (name ∈ tools) required.
Proof.
  unfold allows_plugin_tool, plugin_admitted. cbn [ss_profile_id ss_approved_tools ss_capabilities].
  assert (bool_decide (p = ApprovedIntegration) && has_name tools name = true ↔
    p = ApprovedIntegration ∧ name ∈ tools) as Happ by by rewrite andb_true_iff, bool_decide_eq_true, has_name_spec.
  destruct required as [|r required]; [done|]. rewrite forallb_elem. apply forall_proper. intros c.
  destruct (has_name DECLARED_CAPABILITIES c) eqn:Hd.
  - rewrite declared_iff by done. apply has_name_spec, grants_declared in Hd as [p' Hd]. naive_solver.
  - rewrite Happ. assert (∀ p', c ∉ grants p') as Hn.
    { intros p' Hin. assert (c ∈ DECLARED_CAPABILITIES) as ?%has_name_spec by (apply grants_declared; by exists p').
      congruence. }
    naive_solver.
Qed.

Lemma tool_admitted_iff g p n tools name :
  safety_profile_allows_tool g (mkSnapshot p n (for_profile p) tools) name = true ↔ tool_admitted g p tools name.
Proof.
  unfold safety_profile_allows_tool, tool_admitted, always_offered.
  destruct (String.eqb_spec name "execlaw.discover_tool"); [by intuition|].
  destruct (String.eqb_spec name "execlaw.read_artifact"); [by intuition|]. cbn [orb].
  destruct (builtin g name) as [descriptor|].
  - rewrite builtin_admitted_iff. naive_solver.
  - destruct (starts_with name MCP_TOOL_PREFIX).
    + unfold allows_mcp_tool. cbn [ss_profile_id ss_approved_tools ss_capabilities]. rewrite !andb_true_iff, bool_decide_eq_true, has_name_spec.
      split; [naive_solver|]. intros [?|[?|[-> ?]]]; done.
    + destruct (tool g name) as [t|]; [rewrite plugin_admitted_iff|]; naive_solver.
Qed.

Lemma profile_str_inj p p' : profile_str p = profile_str p' → p = p'.
Proof. by destruct p, p'. Qed.

Lemma check_safety_profile_alone d p name s :
  dp_safety_profile d = Some p →
  (run_proc (check_safety_profile d name) s).1 = Ok () ↔ safety_profile_allows_tool (wd_registry s) p name = true.
Proof.
  intros Hp. unfold check_safety_profile, safety_profile_allows_tool. rewrite Hp.
  destruct (always_offered name); [done|]. unfold profile_allows. cbn.
  destruct (builtin (wd_registry s) name) as [b|]; cbn; [by destruct (allows_builtin _ _ _)|].
  destruct (starts_with name MCP_TOOL_PREFIX); cbn; [by destruct (allows_mcp_tool _ _)|].
  destruct (tool (wd_registry s) name) as [t|]; cbn; [|done]. by destruct (allows_plugin_tool _ _ _).
Qed.

Section Guarantees.
Context `{NameListLaws} `{PrincipalCodec}.
Context (saved_profile : bytes → result string (option SafetyProfileSnapshot)).

Lemma snapshot_verified payload requested snap s :
  (run_proc (safety_profile_snapshot_from_event saved_profile payload requested) s).1 = Ok (Some snap) →
  saved_profile payload = Ok (Some snap) ∧
  (∀ r, requested = Some r → ss_profile_id r = ss_profile_id snap) ∧
  get_revision (ss_profile_id snap) (ss_revision snap) s = Ok snap.
Proof.
  unfold safety_profile_snapshot_from_event. rewrite run_try_bind.
  destruct (saved_profile payload) as [saved|]; cbn [run_proc]; [|done].
  destruct saved as [saved|]; [|by destruct requested].
  destruct requested as [requested|]; rewrite run_try_bind.
  - case_bool_decide; [|done]. cbn. destruct (get_revision _ _ s) as [x|] eqn:Hx; [|done].
    case_bool_decide; [|done]. intros [= <-]. split_and!; [done| |congruence]. by intros ? [= <-].
  - cbn. destruct (get_revision _ _ s) as [x|] eqn:Hx; [|done].
    case_bool_decide; [|done]. intros [= <-]. split_and!; [done..|congruence].
Qed.

(** The revision [n] of the profile [p] is on record with these names and
    approved tools. *)
Definition on_record (s : World) (p : SafetyProfileId) (n : Z) (names tools : list string) : Prop :=
  ∃ row, wd_profile_revisions s !! (profile_str p, n) = Some row ∧
    pv_capability_set_json row = vec_to_string names ∧ pv_approved_tools_json row = vec_to_string tools.

Lemma revision_texts p n snap s :
  wf s → get_revision p n s = Ok snap →
  ∃ tools, snap = mkSnapshot p n (for_profile p) tools ∧ on_record s p n (grants p) tools ∧
    (p ≠ ApprovedIntegration → tools = []).
Proof.
  intros Hwf. unfold get_revision. destruct (wd_profile_revisions s !! _) as [v|] eqn:Hv; [|done].
  destruct (wf_profile_revision _ Hwf _ _ _ Hv) as (_ & p' & tools & ->%profile_str_inj & Hcap & Htools & Hp).
  rewrite Hcap, Htools, !vec_round. case_bool_decide; [|done]. intros [= <-]. exists tools.
  split_and!; [done| |done]. exists v. by rewrite Hcap, grants_names.
Qed.

(** C18: A turn is bound only to the snapshot saved in its event, of the
    profile the task asked for if it asked, and only when the revision it
    names is on record with the profile's capability names and exactly the
    snapshot's approved tools, none but for approved integrations.  The
    catalog then offers and the gate lets pass exactly the tools
    [tool_admitted] describes. *)
Theorem profile_confines w c payload requested snap :
  fresh w → rtc policy_step (w, []) c →
  (run_proc (safety_profile_snapshot_from_event saved_profile payload requested) c.1).1 = Ok (Some snap) →
  saved_profile payload = Ok (Some snap) ∧
  ∃ p n tools, snap = mkSnapshot p n (for_profile p) tools ∧
  (∀ r, requested = Some r → ss_profile_id r = p) ∧
  on_record c.1 p n (grants p) tools ∧ (p ≠ ApprovedIntegration → tools = []) ∧
  (∀ g name, safety_profile_allows_tool g snap name = true ↔ tool_admitted g p tools name) ∧
  (∀ d s name, dp_safety_profile d = Some snap →
     (run_proc (check_safety_profile d name) s).1 = Ok () ↔ tool_admitted (wd_registry s) p tools name).
Proof.
  intros Hw Hc Hrun. destruct (policy_reached _ _ Hw Hc) as [Hwf _].
  apply snapshot_verified in Hrun as (Hsaved & Hreq & (tools & Hsnap & Hrec & Hp)%(revision_texts _ _ _ _ Hwf)).
  split; [done|]. exists (ss_profile_id snap), (ss_revision snap), tools. split_and!; [done..| |].
  - intros g name. rewrite Hsnap at 1. apply tool_admitted_iff.
  - intros d s name Hd. rewrite (check_safety_profile_alone _ _ _ _ Hd). rewrite Hsnap at 1. apply tool_admitted_iff.
Qed.

(** ** The checks that are repeated *)

Lemma find_existsb {A} (f : A → bool) l : List.find f l = None ↔ existsb f l = false.
Proof. induction l as [|x l IH]; cbn; [done|]. by destruct (f x). Qed.

Lemma rank_nonneg t : 0 ≤ rank t.
Proof. by destruct t. Qed.

Lemma ungranted_find caps required :
  (if has_name caps "*" then None else List.find (λ r, negb (has_name caps r)) required) = None ↔
  ungranted caps required = false.
Proof. unfold ungranted. destruct (has_name caps "*"); cbn; [done|apply find_existsb]. Qed.

Lemma validate_tool_call_iff d t name valid s :
  tool (wd_registry s) name = Some t →
  validate_tool_call name valid (dp_caller_caps d) (Some (trust_str (dp_caller_trust d))) s = Ok t ↔
  ungranted (dp_caller_caps d) (rt_required_capabilities t) = false ∧ below_floor d (rt_trust_floor t) = false ∧ valid = true.
Proof.
  intros Ht. unfold validate_tool_call. rewrite Ht, <-ungranted_find.
  destruct (if has_name _ _ then None else _) as [m|]; [naive_solver|].
  assert (check_schema name valid t = Ok t ↔ valid = true) as Hschema by by destruct valid.
  unfold below_floor, trust_rank. destruct (rt_trust_floor t) as [floor|]; [|rewrite Hschema; naive_solver].
  rewrite trust_parse_str. destruct (trust_parse floor) as [required|].
  - destruct (rank (dp_caller_trust d) <? rank required); [naive_solver|rewrite Hschema; naive_solver].
  - pose proof (rank_nonneg (dp_caller_trust d)). destruct (Z.ltb_spec (rank (dp_caller_trust d)) 0); [lia|].
    rewrite Hschema. naive_solver.
Qed.

(** The checks repeated on a tool call agree: the catalog admits by the
    policy row exactly the tools the gate's row check lets pass, it keeps
    exactly the names the gate's profile check lets pass, and the plugin host
    accepts a call exactly when the gate finds the capabilities granted and
    the floor met and the arguments are valid. *)
Theorem checks_agree d s name :
  (access_allows (dp_caller_trust d) name s = true ↔ row_check d name (get name s) = Ok ()) ∧
  (∀ p v, dp_safety_profile d = Some p →
     name ∈ vw_declarations (filter_tool_view (wd_registry s) p v) ↔
     name ∈ vw_declarations v ∧ (run_proc (check_safety_profile d name) s).1 = Ok ()) ∧
  (∀ t valid, tool (wd_registry s) name = Some t →
     validate_tool_call name valid (dp_caller_caps d) (Some (trust_str (dp_caller_trust d))) s = Ok t ↔
     ungranted (dp_caller_caps d) (rt_required_capabilities t) = false ∧ below_floor d (rt_trust_floor t) = false ∧ valid = true).
Proof.
  split_and!.
  - unfold access_allows, row_check. destruct (get name s) as [row|]; [|done].
    destruct (ta_enabled row), (ta_removed_at row), (has_name _ _); done.
  - intros p v Hp. rewrite (check_safety_profile_alone _ _ _ _ Hp). cbn.
    by rewrite !list_elem_of_In, filter_In.
  - intros t valid. apply validate_tool_call_iff.
Qed.

(** ** Rollback *)

Lemma set_policy_run name enabled classes actor now o r s :
  blank actor = false → (String.length actor ≤ 128)%nat → wd_access s !! name = Some r →
  wd_last_revision s ≠ i64_max → (∀ k, o = Some k → is_Some (wd_revisions s !! k)) →
  set_policy_with_actor name enabled classes actor now o s =
  (Ok true, write_policy name (set_row_policy (b2z enabled) (vec_to_string classes) r)
     (mkRevisionRow name (b2z enabled) (vec_to_string classes) actor now o) s).
Proof.
  intros Hb Hlen Hr Hmax Ho. unfold set_policy_with_actor. rewrite Hb.
  replace (Nat.ltb 128 (String.length actor)) with false by (symmetry; apply Nat.ltb_ge; lia). cbn [orb].
  unfold act_tx, transaction. rewrite Hr. unfold tx_bind, insert_revision. cbn -[Z.add].
  replace (negb _) with false by by destruct enabled.
  assert ((match o with Some r0 => bool_decide (wd_revisions s !! r0 = None) | None => false end) = false) as ->.
  { destruct o as [k|]; [|done]. apply bool_decide_eq_false. destruct (Ho k eq_refl) as [v ->]. done. }
  destruct (Z.eqb_spec (wd_last_revision s) i64_max); done.
Qed.

Lemma get_some name r s : wf s → wd_access s !! name = Some r → ∃ row, get name s = Some row.
Proof.
  intros Hwf Hr. unfold get, row_to_tool_access. rewrite Hr. destruct (wf_row _ Hwf _ _ Hr) as [[source ->] _].
  destruct source; by eexists.
Qed.

Lemma find_revision_some name k v s :
  wf s → wd_revisions s !! k = Some v → rv_tool_name v = name →
  ∃ enabled classes, find_revision name k s = Ok (Some (enabled, classes)) ∧
    rv_enabled v = b2z enabled ∧ rv_allowed_classes_json v = vec_to_string classes.
Proof.
  intros Hwf Hv <-. destruct (wf_text _ Hwf _ _ Hv) as (b & l & Hb & Hl). exists b, l. split; [|done].
  unfold find_revision. rewrite Hv, String.eqb_refl, Hl, vec_round, Hb. by destruct b.
Qed.

Definition revision_not_found : ApiError :=
  mkApiError 404 "policy_revision_not_found" "the requested revision does not belong to this tool".

(** C37: A Controller's rollback of a registered tool to one of its revisions,
    served alone, leaves the tool with that revision's policy, as a new newest
    revision that names the Controller, the time and the old one, and an audit
    entry; other tools and older revisions are untouched.  A revision of
    another tool, or none, is answered 404, and someone else's request 403,
    with nothing changed. *)
Theorem rollback_restores user_id name k r s :
  wf s → blank user_id = false → (String.length user_id ≤ 128)%nat →
  wd_access s !! name = Some r → wd_last_revision s ≠ i64_max →
  let answer := run_proc (rollback_handler user_id name k) s in
  (is_controller user_id s = false → answer = (Err controller_only_error, s)) ∧
  (is_controller user_id s = true →
   (∀ v, wd_revisions s !! k = Some v → rv_tool_name v = name →
    let v' := mkRevisionRow name (rv_enabled v) (rv_allowed_classes_json v) user_id (wd_clock s) (Some k) in
    ∃ row, answer.1 = Ok (ToolViewResponse row (floor_of name s)) ∧ get name answer.2 = Some row ∧
      wd_access answer.2 = <[name := set_row_policy (rv_enabled v) (rv_allowed_classes_json v) r]> (wd_access s) ∧
      wd_revisions answer.2 = <[wd_last_revision s + 1 := v']> (wd_revisions s) ∧
      newest answer.2 name (wd_last_revision s + 1) v' ∧
      length (wd_audit answer.2) = S (length (wd_audit s))) ∧
   ((∀ v, wd_revisions s !! k = Some v → rv_tool_name v ≠ name) → answer = (Err revision_not_found, s))).
Proof.
  intros Hwf Hb Hlen Hr Hmax answer. destruct (get_some _ _ _ Hwf Hr) as [prior Hprior].
  unfold answer, rollback_handler. clear answer.
  unfold controller_only. cbn. split; [by intros ->|]. intros ->. cbn. rewrite Hprior. cbn. split.
  - intros v Hv Hn. destruct (find_revision_some _ _ _ _ Hwf Hv Hn) as (enabled & classes & Hf & -> & ->).
    set (v' := mkRevisionRow name (b2z enabled) (vec_to_string classes) user_id (wd_clock s) (Some k)).
    set (r' := set_row_policy (b2z enabled) (vec_to_string classes) r).
    assert (set_policy_with_actor name enabled classes user_id (wd_clock s) (Some k) s
            = (Ok true, write_policy name r' v' s)) as Hset.
    { apply set_policy_run; try done. by intros ? [= <-]. }
    destruct (set_policy_good name enabled classes user_id (wd_clock s) (Some k) s) as [Hwf' _]; [|done|].
    { by apply find_revision_known. }
    rewrite Hset in Hwf'. cbn [snd] in Hwf'.
    assert (wd_access (write_policy name r' v' s) !! name = Some r') as Hr' by apply lookup_insert_eq.
    destruct (get_some _ _ _ Hwf' Hr') as [row Hrow].
    rewrite Hf. cbn -[set_policy_with_actor write_policy get]. rewrite Hset. cbn -[write_policy get]. rewrite Hrow.
    cbn -[write_policy get]. exists row. split_and!; [done|done|done|done| |].
    + split_and!; [apply lookup_insert_eq|done|].
      cbn. intros id w [[<- <-]|[_ Hw]]%lookup_insert_Some _; [lia|]. apply (wf_seq _ Hwf) in Hw. lia.
    + cbn. rewrite length_app. cbn. lia.
  - intros Hk. assert (find_revision name k s = Ok None) as Hf.
    { unfold find_revision. destruct (wd_revisions s !! k) as [v|]; [|done].
      destruct (String.eqb_spec (rv_tool_name v) name) as [E|]; [|done]. by destruct (Hk v eq_refl). }
    rewrite Hf. done.
Qed.
End Guarantees.

(** ** Simulation *)

(** The trust classes from the lowest to the highest; any other name, the
    blocked one included, is below them. *)
Definition trust_order : list string :=
  ["UnknownPending"; "KnownLimited"; "KnownTrusted"; "Delegated"; "Controller"].
Definition meets_floor (caller floor : string) : Prop :=
  ∀ i, trust_order !! i = Some floor → ∃ j, (i ≤ j)%nat ∧ trust_order !! j = Some caller.
Definition trusted (caller : string) : Prop := caller ∈ ["KnownTrusted"; "Delegated"; "Controller"].

(** What the candidate policy would do with a recorded decision, in words of
    the policy and of the decision. *)
Definition admits (p : CandidateToolPolicy) (d : NewToolPolicyDecision) : Prop :=
  cp_enabled p = true ∧ nd_reason_code d ≠ "safety_profile_denied" ∧
  nd_caller_trust d ∈ cp_allowed_classes p ∧
  (∀ floor, cp_trust_floor p = Some floor → meets_floor (nd_caller_trust d) floor).
Definition newly_gated (p : CandidateToolPolicy) (d : NewToolPolicyDecision) : Prop :=
  admits p d ∧ nd_approval_required d = false ∧ nd_outcome d ≠ ApprovalGated ∧
  (nd_sensitive d = true ∨ nd_external_effect d = true) ∧ ¬ trusted (nd_caller_trust d).
Definition newly_allowed (p : CandidateToolPolicy) (d : NewToolPolicyDecision) : Prop :=
  admits p d ∧ nd_outcome d = Denied ∧ ¬ newly_gated p d.
Definition newly_denied (p : CandidateToolPolicy) (d : NewToolPolicyDecision) : Prop :=
  ¬ admits p d ∧ nd_outcome d ≠ Denied.

(** [l] lists, with the kind [kind], the decisions of [ds] that satisfy [P],
    in order. *)
Inductive lists_changes (kind : string) (P : NewToolPolicyDecision → Prop) :
    list ToolPolicyDecision → list PolicySimulationChange → Prop :=
| changes_nil : lists_changes kind P [] []
| changes_take d ds l : P (td_decision d) → lists_changes kind P ds l →
    lists_changes kind P (d :: ds)
      (mkChange (td_decision_id d) (nd_tool_name (td_decision d)) (nd_caller_trust (td_decision d)) kind :: l)
| changes_skip d ds l : ¬ P (td_decision d) → lists_changes kind P ds l → lists_changes kind P (d :: ds) l.

Lemma rank_place s i : trust_order !! i = Some s ↔ trust_rank s = Z.of_nat i + 1.
Proof.
  split.
  - unfold trust_order. intros H. do 5 (destruct i as [|i]; [injection H as <-; reflexivity|]). done.
  - unfold trust_rank, trust_parse. repeat case_match; simplify_eq; cbn; intros Hi; try lia;
      repeat match goal with H : String.eqb _ _ = true |- _ => apply String.eqb_eq in H; subst end;
      [replace i with 4%nat by lia|replace i with 3%nat by lia|replace i with 2%nat by lia
      |replace i with 1%nat by lia|replace i with 0%nat by lia]; reflexivity.
Qed.

Lemma trust_rank_nonneg s : 0 ≤ trust_rank s.
Proof. unfold trust_rank. case_match; [apply rank_nonneg|done]. Qed.

Lemma trust_rank_iff caller floor : (trust_rank floor <=? trust_rank caller) = true ↔ meets_floor caller floor.
Proof.
  pose proof (trust_rank_nonneg caller). pose proof (trust_rank_nonneg floor).
  unfold meets_floor. setoid_rewrite rank_place. rewrite Z.leb_le. split.
  - intros Hle i Hi. exists (Z.to_nat (trust_rank caller - 1)). lia.
  - intros Hall. destruct (decide (trust_rank floor = 0)); [lia|].
    destruct (Hall (Z.to_nat (trust_rank floor - 1))) as (j & ? & ?); lia.
Qed.

Lemma untrusted_iff caller : (trust_rank caller <? trust_rank "KnownTrusted") = true ↔ ¬ trusted caller.
Proof.
  assert (trusted caller ↔ (trust_rank "KnownTrusted" <=? trust_rank caller) = true) as ->.
  - rewrite trust_rank_iff. unfold meets_floor, trusted.
    change ["KnownTrusted"; "Delegated"; "Controller"] with (drop 2 trust_order).
    rewrite list_elem_of_lookup. setoid_rewrite lookup_drop. split.
    + intros [j Hj] i Hi. apply rank_place in Hi. change (3 = Z.of_nat i + 1) in Hi. exists (2 + j)%nat.
      split; [lia|done].
    + intros Hall. destruct (Hall 2%nat eq_refl) as (j & Hle & Hj). exists (j - 2)%nat.
      by replace (2 + (j - 2))%nat with j by lia.
  - rewrite Z.ltb_lt, Z.leb_le. lia.
Qed.

Lemma admits_iff p d : candidate_allows d p = true ↔ admits p d.
Proof.
  unfold candidate_allows, admits. rewrite !andb_true_iff, has_name_spec, negb_true_iff, String.eqb_neq.
  assert (match cp_trust_floor p with Some floor => trust_rank floor <=? trust_rank (nd_caller_trust d) | None => true end
    = true ↔ ∀ floor, cp_trust_floor p = Some floor → meets_floor (nd_caller_trust d) floor) as ->; [|naive_solver].
  destruct (cp_trust_floor p); [rewrite trust_rank_iff|]; naive_solver.
Qed.

(** The three kinds, as the code's classification finds them. *)
Lemma classify_iff p d :
  (classify d p = Some "newly_allowed" ↔ newly_allowed p d) ∧
  (classify d p = Some "newly_denied" ↔ newly_denied p d) ∧
  (classify d p = Some "newly_approval_gated" ↔ newly_gated p d).
Proof.
  unfold newly_allowed, newly_denied, newly_gated. rewrite <-admits_iff, <-untrusted_iff.
  unfold classify. cbn zeta.
  destruct (candidate_allows d p), (nd_approval_required d), (nd_sensitive d), (nd_external_effect d),
    (_ <? _), (nd_outcome d); cbn; naive_solver.
Qed.

(** Every change of a kind, in the order of the decisions. *)
Definition change_of (kind : string) (p : CandidateToolPolicy) (d : ToolPolicyDecision) : list PolicySimulationChange :=
  if bool_decide (classify (td_decision d) p = Some kind)
  then [mkChange (td_decision_id d) (nd_tool_name (td_decision d)) (nd_caller_trust (td_decision d)) kind] else [].
Definition changes (kind : string) (p : CandidateToolPolicy) (ds : list ToolPolicyDecision) : list PolicySimulationChange :=
  concat (map (change_of kind p) ds).

Lemma changes_listed kind (P : NewToolPolicyDecision → Prop) p ds :
  (∀ d, classify d p = Some kind ↔ P d) → lists_changes kind P ds (changes kind p ds).
Proof.
  intros HP. induction ds as [|d ds IH]; [constructor|].
  unfold changes. cbn [map concat]. unfold change_of at 1. case_bool_decide as Hc; constructor; try done.
  - by apply HP.
  - by rewrite <-HP.
Qed.

Definition report_of (p : CandidateToolPolicy) (ds : list ToolPolicyDecision) : PolicySimulationReport :=
  let over kind := Z.of_nat (length (skipn 500 (changes kind p ds))) in
  mkSimulation (Z.of_nat (length ds)) (firstn 500 (changes "newly_allowed" p ds)) (firstn 500 (changes "newly_denied" p ds))
    (firstn 500 (changes "newly_approval_gated" p ds))
    (over "newly_allowed" + over "newly_denied" + over "newly_approval_gated").

Lemma changes_snoc kind p ds d : changes kind p (ds ++ [d]) = changes kind p ds ++ change_of kind p d.
Proof. unfold changes. rewrite map_app, concat_app. cbn. by rewrite app_nil_r. Qed.

Lemma firstn_snoc {A} n (l : list A) x :
  firstn n (l ++ [x]) = if Nat.ltb (length (firstn n l)) n then firstn n l ++ [x] else firstn n l.
Proof.
  rewrite length_firstn. destruct (Nat.ltb_spec (n `min` length l) n).
  - rewrite firstn_app, (firstn_all2 l) by lia.
    destruct (n - length l)%nat eqn:E; [lia|]. by rewrite (firstn_all2 [x]) by (cbn; lia).
  - rewrite firstn_app. replace (n - length l)%nat with 0%nat by lia. by rewrite app_nil_r.
Qed.

Lemma skipn_snoc {A} n (l : list A) x :
  length (skipn n (l ++ [x]))
  = if Nat.ltb (length (firstn n l)) n then length (skipn n l) else S (length (skipn n l)).
Proof.
  rewrite !length_skipn, length_firstn, length_app. cbn [length].
  destruct (Nat.ltb_spec (n `min` length l) n); lia.
Qed.

Lemma classify_kind d p :
  classify d p = None ∨ classify d p = Some "newly_allowed" ∨ classify d p = Some "newly_denied"
  ∨ classify d p = Some "newly_approval_gated".
Proof. unfold classify. repeat case_match; auto. Qed.

Lemma simulate_step_report p ds d : simulate_step p (report_of p ds) d = report_of p (ds ++ [d]).
Proof.
  unfold simulate_step, report_of. cbn zeta. rewrite !changes_snoc, length_app. unfold change_of.
  assert (Z.of_nat (length ds + length [d]) = Z.of_nat (length ds) + 1) as -> by (cbn; lia).
  destruct (classify_kind (td_decision d) p) as [->|[->|[->| ->]]];
    repeat first [rewrite bool_decide_false by discriminate|rewrite bool_decide_true by reflexivity];
    rewrite ?app_nil_r; [done|..]; unfold push_change; cbn -[firstn skipn Nat.ltb];
    rewrite firstn_snoc, skipn_snoc; destruct (Nat.ltb _ 500); cbn -[firstn skipn Nat.ltb]; f_equal; lia.
Qed.

Lemma simulate_report ds p :
  simulate_policy_change ds p
  = report_of p (List.filter (λ d, String.eqb (nd_tool_name (td_decision d)) (cp_tool_name p)) ds).
Proof.
  unfold simulate_policy_change. induction (List.filter _ ds) as [|d l IH] using rev_ind; [done|].
  rewrite foldl_app. cbn [foldl]. rewrite IH. apply simulate_step_report.
Qed.

(** C40: A simulation counts the recorded decisions about the tool, and
    reports under each kind, in their order, the first 500 of those it
    applies to and counts the others: newly allowed are the denied ones the
    candidate policy admits without an approval, newly gated the ungated ones
    it would send to a Controller (sensitive or external, from a caller below
    the trusted classes), and newly denied those not denied that it does not
    admit.  The policy admits a decision when it enables the tool, the caller
    is of an allowed class not below the floor, and the task's profile was
    not what denied it. *)
Theorem simulation_exact ds p :
  let r := simulate_policy_change ds p in
  let mine := List.filter (λ d, String.eqb (nd_tool_name (td_decision d)) (cp_tool_name p)) ds in
  ∃ allowed denied gated,
    lists_changes "newly_allowed" (newly_allowed p) mine allowed ∧
    lists_changes "newly_denied" (newly_denied p) mine denied ∧
    lists_changes "newly_approval_gated" (newly_gated p) mine gated ∧
    sr_evaluated_decisions r = Z.of_nat (length mine) ∧
    sr_newly_allowed r = firstn 500 allowed ∧ sr_newly_denied r = firstn 500 denied ∧
    sr_newly_approval_gated r = firstn 500 gated ∧
    sr_omitted_changes r = Z.of_nat (length (skipn 500 allowed)) + Z.of_nat (length (skipn 500 denied))
                         + Z.of_nat (length (skipn 500 gated)).
Proof.
  intros r mine. unfold r. rewrite simulate_report. fold mine.
  exists (changes "newly_allowed" p mine), (changes "newly_denied" p mine), (changes "newly_approval_gated" p mine).
  split_and!; [apply changes_listed; intros d; by destruct (classify_iff p d) as (? & ? & ?)..|done|done|done|done|done].
Qed.

(** A call denied for its caller's capabilities is reported as newly allowed
    by a policy that changes nothing. *)
Lemma unchanged_policy_reported d :
  nd_outcome d = Denied → nd_reason_code d ≠ "safety_profile_denied" → nd_approval_required d = false →
  nd_sensitive d = false → nd_external_effect d = false → nd_trust_floor d = None → nd_globally_enabled d = true →
  nd_caller_trust d ∈ nd_allowed_classes d →
  classify d (mkCandidate (nd_tool_name d) (nd_globally_enabled d) (nd_allowed_classes d) (nd_trust_floor d))
  = Some "newly_allowed".
Proof.
  intros Ho Hr Ha Hs He Hf Hg Hc. unfold classify, candidate_allows. cbn [cp_enabled cp_allowed_classes cp_trust_floor].
  rewrite Ho, Ha, Hs, He, Hf, Hg. apply has_name_spec in Hc. rewrite Hc.
  destruct (String.eqb_spec (nd_reason_code d) "safety_profile_denied"); done.
Qed.

(** ** Examples *)

#[local] Existing Instances toy_names toy_names_laws toy_principals.

Definition toy_snapshot : SafetyProfileSnapshot := mkSnapshot WorkspaceEdit 1 (for_profile WorkspaceEdit) [].

Lemma profile_confines_witness :
  (run_proc (safety_profile_snapshot_from_event (λ _, Ok (Some toy_snapshot)) [] None) toy_start.1).1
    = Ok (Some toy_snapshot) ∧
  safety_profile_allows_tool (wd_registry toy_start.1) toy_snapshot "search" = false.
Proof.
  assert ((run_proc (safety_profile_snapshot_from_event (λ _, Ok (Some toy_snapshot)) [] None) toy_start.1).1
    = Ok (Some toy_snapshot)) as Hrun by (vm_compute; reflexivity).
  split; [exact Hrun|].
  destruct (profile_confines (λ _, Ok (Some toy_snapshot)) toy_world toy_start [] None toy_snapshot
    toy_world_fresh toy_start_steps Hrun) as (_ & p & n & tools & Heq & _ & _ & Htools & Hall & _).
  injection Heq as <- <- _ <-. apply not_true_iff_false. rewrite Hall.
  unfold tool_admitted.
  assert (builtin (wd_registry toy_start.1) "search" = Some toy_search) as -> by (vm_compute; reflexivity).
  intros [Hn|[Hn|[_ Hc]]]; [discriminate Hn|discriminate Hn|].
  destruct (Hc Search) as [Hr|[Hp _]]; [by left| |discriminate Hp].
  revert Hr. unfold reads_only. rewrite !elem_of_cons, elem_of_nil. intuition discriminate.
Defined.

Lemma rollback_restores_witness :
  (run_proc (rollback_handler "u1" "search" 1) toy_start.1).2 ≠ toy_start.1 ∧
  (run_proc (rollback_handler "u1" "search" 7) toy_start.1) = (Err revision_not_found, toy_start.1).
Proof.
  destruct (wd_access toy_start.1 !! "search") as [r|] eqn:Hr; [|by vm_compute in Hr].
  destruct (policy_reached toy_world toy_start toy_world_fresh toy_start_steps) as [Hwf _].
  pose proof (rollback_restores "u1" "search" 1 r toy_start.1 Hwf eq_refl) as H1.
  pose proof (rollback_restores "u1" "search" 7 r toy_start.1 Hwf eq_refl) as H7.
  split.
  - destruct H1 as [_ H1]; [cbn; lia|exact Hr|by vm_compute|]. destruct H1 as [H1 _]; [by vm_compute|].
    assert (∃ v, wd_revisions toy_start.1 !! 1 = Some v ∧ rv_tool_name v = "search") as (v & Hv & Hn)
      by (vm_compute; eexists; split; reflexivity).
    destruct (H1 v Hv Hn) as (row & _ & _ & _ & _ & _ & Haudit). intros E. rewrite E in Haudit. lia.
  - destruct H7 as [_ H7]; [cbn; lia|exact Hr|by vm_compute|]. destruct H7 as [_ H7]; [by vm_compute|].
    apply H7. intros v Hv. by vm_compute in Hv.
Defined.

Lemma checks_agree_witness :
  access_allows (dp_caller_trust toy_dispatcher) "search" toy_start.1 = true ∧
  row_check toy_dispatcher "search" (get "search" toy_start.1) = Ok ().
Proof.
  assert (access_allows (dp_caller_trust toy_dispatcher) "search" toy_start.1 = true) as Ha by (vm_compute; reflexivity).
  split; [exact Ha|]. apply (checks_agree toy_dispatcher toy_start.1 "search"), Ha.
Defined.
